(* ===== verification/_CoqProject ===== *)
-Q . S2P
Prelude.v
Interval.v
PageRanges.v
Overlay.v
ControlRecord.v
ControlClient.v
ControlProtocol.v
ControlTakeover.v
ControlSafety.v
ControlQuiet.v
VolumeVM.v
OverlayPages.v
VolumeSafety.v
Bytes.v
Order.v
Sha256.v
Rank.v
Stripe.v
Membership.v
MembershipSteps.v
MembershipFormat.v
MembershipStore.v
MembershipController.v
MembershipProgress.v
MembershipPass.v
MembershipSettled.v
JournalFormat.v
JournalRing.v
JournalIndex.v
JournalDisk.v
JournalCrash.v
JournalHolder.v
JournalSafety.v
JournalRead.v
