(* ===== verification/Prelude.v ===== *)
(** * Sproutfs: a verification development

    Sproutfs keeps the memory and disks of virtual machines in an object store.
    A VM has one control record, which says which host may write it and which
    checkpoint is current; a host that holds it keeps the VM's writes in
    overlays, publishes them as checkpoints, and meanwhile puts what the guest
    flushed on a journal disk.  The hosts' cache disks rank windows of the
    checkpoints among them, and one stored membership says which host serves which
    disk; a controller moves it, one step at a time, towards the hosts and disks
    there are.  The library models these parts as functions, records and
    transition systems translated from the Go sources, and proves what each
    promises the next.

    ** Parts and files

    - [Prelude]: results, 64-bit integers, lists indexed by [Z], the tactics and
      rewriting databases the other files share.
    - [Interval]: the persistent AVL interval tree that
      [vmmemory/internal/pageranges/pageranges.go] and [volume/overlay.go] each
      have a copy of, over the interface [Item]: [split], [join], [balance] and
      their specification, with the height bound.
    - [PageRanges]: [Set], [Run] and [Get] of a range map, which refine a function
      from pages to states.
    - [Overlay], [OverlayPages]: the dirty extents of one volume, reads through
      them, and the counts of what the next checkpoint publishes.
    - [ControlRecord]: the record of [control/record.go], identities, sequences and
      object names of [control/control.go], [control/tenant.go] and
      [control/lineage.go].  The generated protobuf codec is the class [Wire].
    - [ControlClient]: every operation of [control/client.go], as a program over
      the calls it makes of the store, the clock and the entropy source.
    - [ControlProtocol], [ControlTakeover], [ControlSafety]: any number of such
      programs on one record, with replies lost, delayed and repeated, as a
      transition system, and its invariants; what a session that has its handle may
      still have on its way; what the sessions are promised.  [ControlQuiet]: one
      client alone whose reads are answered and whose writes land, are dropped, lose
      their reply or are refused after they landed, every branch.
    - [VolumeVM], [VolumeSafety]: the handle of an open VM ([volume/vm.go],
      [operations.go], [publish.go], [dirty.go], [source.go], [handoff.go]): its
      writes, captures, publications and installations, over a page store given by
      the promises of its commit and reads.
    - [Bytes], [JournalFormat]: little-endian fields, and the journal's header
      slots, entries and pads ([journal/format.go]), over any 128-bit checksum.
    - [JournalRing], [JournalIndex], [JournalDisk]: the state of an open journal
      and its operations ([journal/journal.go], [writer.go], [trim.go],
      [read.go]): admission, the layout of a batch, completion, trimming, opening,
      reading back, reads.
    - [JournalCrash], [JournalHolder], [JournalSafety], [JournalRead]: a disk whose
      unsynced bytes are uncertain, the journal and its disk as one transition
      system, its invariant, and what readers are promised.  A read of a VM's entries
      reads the disk once for each while the system goes on, so each of its reads is
      of another disk, or fails.
    - [Order], [Sha256]: what the cluster code uses of Go's [bytes], [slices] and
      [crypto/sha256].
    - [Rank]: codes, windows and the ranking of disks ([rank/rank.go],
      [rank/window.go]).
    - [Stripe]: cutting an envelope into stripes and joining any [K] of them
      ([stripe/stripe.go]), over an encoder given by its laws.
    - [Membership], [MembershipSteps]: a generation of the membership, its changes
      and [Step] ([membership/membership.go], [change.go]), and what a history of
      steps keeps.
    - [MembershipFormat], [MembershipStore]: the stored message ([format.go]), over a
      codec given by its laws, and its update by compare-and-set ([store.go],
      [view.go]), by any number of processes at once.
    - [MembershipController], [MembershipProgress], [MembershipSettled]: the change
      a controller makes next and the calls that carry a membership out
      ([controller.go], [journals.go], [attach.go]); every change it chooses is
      admitted, and when it has none left the membership is what is wanted.
    - [MembershipPass]: a controller's pass over the store and the cloud
      ([shardcontrol.go]), any call of which may fail.

    ** What is shown

    Control: a session that has its handle and that another has taken over lands
    no further write unless the VM is deleted, results of a client's calls agree
    with the record whatever the store does with its requests, sequences and
    references are never reused, and the record is valid in every reachable state.
    Volumes: an overlay reads as the last edits wrote it, a VM handle refines an
    array of bytes per volume through captures and publications and hand-offs, an
    installed checkpoint reads as the bytes captured, and [DirtyBytes] counts a
    sector for each page the next one republishes. Journal: the format reads back,
    a batch never touches the run of entries that still counts, until it is
    trimmed an acknowledged entry is handed on, after any crash, by every read
    that ends well, a fenced writer's entries are final, reading back ends,
    trimming frees what it covers.  Cluster: ranks do not depend on the order
    disks were learned in and a disk that leaves moves only its own windows;
    scores compare exactly; any [K] stripes among the sets a join tries rebuild an
    envelope and no unchecked one is returned. Membership: stored generations
    follow one another by [Step], an update reports what it did, a disk is
    released between two assignments, a journal disk leaves only after it was
    empty, assignments move no window, a controller's choice is never refused, and
    its pass leaves every disk where the membership calls for.

    ** Bounds and fuel

    Machine integers are [Z] with [wrap64] where the source may wrap.  Journal
    positions are taken below [2^62] and rings at most [2^60] bytes: a disk that
    wrote for centuries stays below them.  A commit asks for at most [maxRoom],
    which is [2^61] bytes: near [2^62] the sum the source admits by wraps.  The
    clock's times are those whose nanoseconds fit 64 bits, years 1678 to 2262.
    Loops of the source that end by progress have fuel that is shown to be enough:
    reading a ring back takes one turn per byte of the ring at most, a batch
    writes at most two runs, AVL recursion is structural.  A client's retry loops
    are programs ([prog]) that may [Spin]: a result is proved for the turns in
    which the store answers, and an update alone is done in one.  A membership's
    generations are below [2^64 - 1] where a next one is asked for; one generation
    a second lasts longer than any deployment.  Go's binary search and sorting are
    [Order]'s functions, structural or with the length as fuel.

    ** Not modelled

    The pager of [vmmemory] and its port of Zircon's memory objects work on kernel
    objects and are concurrent throughout; only the range map is here.  [host],
    [peer], [vmmachine], [cmd], [api] and [platform] are processes, sockets and
    adapters: what the models rely on of them (a conditional object store, a disk
    that keeps what it synced, a clock) is an interface or a transition system
    here.  The generated protobuf codecs and the Reed-Solomon encoder are
    interfaces with their documented laws.  The volume manager, forks and
    replay compose the control client, the page store and the journal, and the
    checkpoint store's caches and cluster reads stand behind the promises [VolumeVM]
    asks of a page store; neither is composed here.  A view's timer, and the text of
    errors, identities and states, are not modelled.  The simulator's injected faults
    are off.  Probes, logging and metrics change no state the theorems speak of. *)

From Stdlib Require Export ZArith Lia Bool.
From stdpp Require Export base numbers list gmap strings sorting.

#[global] Open Scope Z_scope.

(** ** Results

    Go functions return a value and an error.  A model function returns a
    [result]: the value, or the error the function reports. *)

Inductive result (E A : Type) : Type :=
| Ok (a : A)
| Err (e : E).
Arguments Ok {E A} a.
Arguments Err {E A} e.

Declare Scope result_scope.
Delimit Scope result_scope with result.

Notation "'let?' x := c 'in' k" :=
  (match c with Ok x => k | Err e => Err e end)
  (at level 10, x pattern, c at level 100, k at level 200) : result_scope.
#[global] Open Scope result_scope.

Definition is_Ok {E A} (r : result E A) : bool :=
  match r with Ok _ => true | Err _ => false end.

(** ** Machine integers

    A [uint64] is a [Z] in [[0, 2^64)]; arithmetic that may wrap is followed
    by [wrap64].  An [int] or [int64] is a [Z] in [[-2^63, 2^63)], followed by
    [int64] where it may wrap. *)

Definition wrap64 (z : Z) : Z := z mod 2 ^ 64.
Definition wrap32 (z : Z) : Z := z mod 2 ^ 32.

Definition int64 (z : Z) : Z := (z + 2 ^ 63) mod 2 ^ 64 - 2 ^ 63.

Definition u64 (z : Z) : Prop := 0 <= z < 2 ^ 64.

Lemma wrap64_small z : u64 z -> wrap64 z = z.
Proof. intros [? ?]. by apply Z.mod_small. Qed.

(** An [int64]. *)
Definition i64 (z : Z) : Prop := - 2 ^ 63 <= z < 2 ^ 63.

Lemma int64_small z : i64 z -> int64 z = z.
Proof. intros [? ?]. unfold int64. rewrite Z.mod_small; lia. Qed.

Lemma int64_range z : i64 (int64 z).
Proof. unfold i64, int64. pose proof (Z.mod_pos_bound (z + 2 ^ 63) (2 ^ 64)). lia. Qed.

(** Conversions between [int64] and [uint64] keep the bits. *)
Lemma int64_wrap64 z : i64 z -> int64 (wrap64 z) = z.
Proof.
  intros Hz. unfold int64, wrap64. rewrite Zplus_mod_idemp_l. exact (int64_small z Hz).
Qed.

Lemma wrap64_range z : u64 (wrap64 z).
Proof. apply Z.mod_pos_bound. reflexivity. Qed.

(** ** Automation

    [zbool] turns the boolean comparisons of the model into propositions
    [lia] understands; [zcases] splits the conditionals of a goal first. *)

Ltac zbool :=
  repeat match goal with
  | H : (_ && _)%bool = true |- _ => apply andb_true_iff in H; destruct H
  | H : (_ || _)%bool = false |- _ => apply orb_false_iff in H; destruct H
  | H : (_ || _)%bool = true |- _ => apply orb_true_iff in H
  | H : (_ && _)%bool = false |- _ => apply andb_false_iff in H
  | H : negb _ = true |- _ => apply negb_true_iff in H
  | H : negb _ = false |- _ => apply negb_false_iff in H
  | H : (_ <? _) = true |- _ => apply Z.ltb_lt in H
  | H : (_ <? _) = false |- _ => apply Z.ltb_ge in H
  | H : (_ <=? _) = true |- _ => apply Z.leb_le in H
  | H : (_ <=? _) = false |- _ => apply Z.leb_gt in H
  | H : (_ >? _) = true |- _ => rewrite Z.gtb_ltb in H; apply Z.ltb_lt in H
  | H : (_ >? _) = false |- _ => rewrite Z.gtb_ltb in H; apply Z.ltb_ge in H
  | H : (_ >=? _) = true |- _ => rewrite Z.geb_leb in H; apply Z.leb_le in H
  | H : (_ >=? _) = false |- _ => rewrite Z.geb_leb in H; apply Z.leb_gt in H
  | H : (_ =? _) = true |- _ => apply Z.eqb_eq in H
  | H : (_ =? _) = false |- _ => apply Z.eqb_neq in H
  end.

Ltac zcases :=
  repeat match goal with
  | |- context [if ?b then _ else _] => destruct b eqn:?
  | H : context [if ?b then _ else _] |- _ => destruct b eqn:?
  end; zbool.

(** ** Buffers

    A Go byte slice is a list.  [write_at] is a [copy] into a slice at an
    offset and [slice] is a slice expression [b[i:j]]; both are used only
    within bounds, where Go does not panic. *)

Abbreviation byte := Init.Byte.byte.

#[export] Instance byte_eq_dec : EqDecision byte := Byte.byte_eq_dec.

Definition slice {A} (l : list A) (i j : Z) : list A :=
  take (Z.to_nat (j - i)) (drop (Z.to_nat i) l).

Definition write_at {A} (l : list A) (off : Z) (s : list A) : list A :=
  take (Z.to_nat off) l ++ s ++ drop (Z.to_nat off + length s) l.

Definition zlen {A} (l : list A) : Z := Z.of_nat (length l).

Definition zeros (n : Z) : list byte := replicate (Z.to_nat n) Byte.x00.

(** The element at a position given as a [Z]. *)
Definition zget {A} (l : list A) (i : Z) : option A :=
  if i <? 0 then None else l !! Z.to_nat i.

Lemma zlen_nonneg {A} (l : list A) : 0 <= zlen l.
Proof. unfold zlen. lia. Qed.

Lemma zlen_app {A} (l k : list A) : zlen (l ++ k) = zlen l + zlen k.
Proof. unfold zlen. rewrite length_app. lia. Qed.

Lemma zlen_cons {A} (x : A) l : zlen (x :: l) = 1 + zlen l.
Proof. unfold zlen. simpl. lia. Qed.

Lemma zlen_zeros n : 0 <= n -> zlen (zeros n) = n.
Proof. intros. unfold zlen, zeros. rewrite length_replicate. lia. Qed.

Lemma zlen_slice {A} (l : list A) i j : 0 <= i <= j -> j <= zlen l -> zlen (slice l i j) = j - i.
Proof. unfold zlen, slice. intros. rewrite length_take, length_drop. lia. Qed.

Lemma zlen_write_at {A} (l : list A) off s :
  0 <= off -> off + zlen s <= zlen l -> zlen (write_at l off s) = zlen l.
Proof.
  unfold zlen, write_at. intros. rewrite !length_app, length_take, length_drop. lia.
Qed.

Lemma zget_write_at {A} (l : list A) off s i :
  0 <= off -> off + zlen s <= zlen l ->
  zget (write_at l off s) i =
  if (off <=? i) && (i <? off + zlen s) then zget s (i - off) else zget l i.
Proof.
  unfold zlen, zget, write_at. intros Ho Hl.
  destruct (i <? 0) eqn:Ei; zbool.
  { zcases; try done; lia. }
  destruct ((off <=? i) && (i <? off + Z.of_nat (length s))) eqn:E; zbool.
  - destruct (i - off <? 0) eqn:E'; zbool; [lia|].
    rewrite lookup_app_r, lookup_app_l by (rewrite length_take; lia).
    rewrite length_take. f_equal. lia.
  - destruct (decide (i < off)).
    + rewrite lookup_app_l by (rewrite length_take; lia). apply lookup_take_lt. lia.
    + rewrite lookup_app_r by (rewrite length_take; lia).
      rewrite lookup_app_r by (rewrite length_take; lia).
      rewrite lookup_drop, length_take. f_equal. lia.
Qed.

Lemma zget_slice {A} (l : list A) i j k :
  0 <= i -> j <= zlen l -> 0 <= k < j - i -> zget (slice l i j) k = zget l (i + k).
Proof.
  unfold zlen, zget, slice. intros ???. zcases; try lia.
  rewrite lookup_take_lt by lia. rewrite lookup_drop. f_equal. lia.
Qed.

Lemma zget_zeros n k : 0 <= k < n -> zget (zeros n) k = Some Byte.x00.
Proof.
  unfold zget, zeros. intros ?. zcases; [lia|]. apply lookup_replicate. split; [done|lia].
Qed.

Lemma zget_app {A} (l k : list A) i :
  zget (l ++ k) i = if i <? zlen l then zget l i else zget k (i - zlen l).
Proof.
  unfold zget, zlen. destruct (i <? 0) eqn:E; zbool.
  { zcases; try done; lia. }
  zcases; try lia.
  - by rewrite lookup_app_l by lia.
  - rewrite lookup_app_r by lia. f_equal. lia.
Qed.

Lemma zget_Some {A} (l : list A) i x : zget l i = Some x -> 0 <= i < zlen l.
Proof.
  unfold zget, zlen. zcases; [done|]. intros Hl%lookup_lt_Some. lia.
Qed.

Lemma zget_lt {A} (l : list A) i : 0 <= i < zlen l -> is_Some (zget l i).
Proof.
  unfold zget, zlen. intros ?. zcases; [lia|]. apply lookup_lt_is_Some. lia.
Qed.

Lemma zget_None {A} (l : list A) i : i < 0 \/ zlen l <= i -> zget l i = None.
Proof. unfold zget, zlen. intros ?. zcases; [done|]. apply lookup_ge_None. lia. Qed.

Lemma list_eq_zget {A} (l k : list A) :
  zlen l = zlen k -> (forall i, 0 <= i < zlen l -> zget l i = zget k i) -> l = k.
Proof.
  intros Hlen Hg. apply list_eq. intros i. unfold zlen in *.
  destruct (decide (i < length l)%nat) as [Hi|Hi].
  - specialize (Hg (Z.of_nat i) ltac:(lia)). unfold zget in Hg.
    destruct (Z.of_nat i <? 0) eqn:E; zbool; [lia|]. by rewrite Nat2Z.id in Hg.
  - by rewrite !lookup_ge_None_2 by lia.
Qed.

Lemma zget_nat {A} (l : list A) k : 0 <= k -> zget l k = l !! Z.to_nat k.
Proof. intros. unfold zget. zcases; [lia|done]. Qed.

Lemma filter_all {A} (P : A -> Prop) `{!forall x, Decision (P x)} (l : list A) :
  (forall x, x ∈ l -> P x) -> filter P l = l.
Proof.
  induction l as [|x l IH]; intros Hp; [done|]. rewrite filter_cons, decide_True by (apply Hp; left).
  f_equal. apply IH. intros y ?. apply Hp. by right.
Qed.

Lemma filter_none {A} (P : A -> Prop) `{!forall x, Decision (P x)} (l : list A) :
  (forall x, x ∈ l -> ~ P x) -> filter P l = [].
Proof.
  induction l as [|x l IH]; intros Hp; [done|]. rewrite filter_cons, decide_False by (apply Hp; left).
  apply IH. intros y ?. apply Hp. by right.
Qed.
