(* ===== verification/Interval.v ===== *)
(** * Interval trees

    The code keeps two copies of one persistent AVL interval tree:
    [vmmemory/internal/pageranges] maps runs of pages to a mapping generation,
    and [volume/overlay.go] maps runs of volume bytes to the payload a write
    left there.  Both copies are line for line the same tree over different
    items, so the tree is written once, over the interface [Item], and each
    copy is an instance (files [PageRanges] and [Overlay]). *)

From S2P Require Import Prelude.

(** What the tree needs of an item: the half-open run it covers, the two
    halves a cut at a position inside it leaves, and the value it gives each
    position of its run. *)
Class Item (A V : Type) := {
  istart : A -> Z;
  iend : A -> Z;
  cut_left : Z -> A -> A;
  cut_right : Z -> A -> A;
  ival : A -> Z -> V;
}.

(** What each copy promises of its items: a cut keeps the run's ends and the
    value of every position. *)
Class ItemLaws (A V : Type) `{Item A V} := {
  cut_left_start p x : istart (cut_left p x) = istart x;
  cut_left_end p x : iend (cut_left p x) = p;
  cut_right_start p x : istart (cut_right p x) = p;
  cut_right_end p x : iend (cut_right p x) = iend x;
  cut_left_val p x q : istart x < p < iend x -> istart x <= q < p -> ival (cut_left p x) q = ival x q;
  cut_right_val p x q : istart x < p < iend x -> p <= q < iend x -> ival (cut_right p x) q = ival x q;
}.

(** ** The tree *)
Section Tree.
Context {A V : Type} `{Item A V}.

Inductive node : Type :=
| Nil
| Node (item : A) (lft rgt : node) (height count : Z).

Definition depth (n : node) : Z :=
  match n with Nil => 0 | Node _ _ _ h _ => h end.

Definition size (n : node) : Z :=
  match n with Nil => 0 | Node _ _ _ _ c => c end.

Definition branch (lft : node) (item : A) (rgt : node) : node :=
  Node item lft rgt (1 + Z.max (depth lft) (depth rgt)) (1 + size lft + size rgt).

(** A subtree the code dereferences is never nil: it is the deeper side of an
    imbalance.  Where the model needs a value for nil it takes the unbalanced
    branch, and [balance_avl] shows that the case does not arise. *)
Definition balance (lft : node) (item : A) (rgt : node) : node :=
  if depth lft >? depth rgt + 1 then
    match lft with
    | Node litem lleft lright _ _ =>
      if depth lleft >=? depth lright then
        branch lleft litem (branch lright item rgt)
      else
        match lright with
        | Node pitem pleft pright _ _ =>
          branch (branch lleft litem pleft) pitem (branch pright item rgt)
        | Nil => branch lft item rgt
        end
    | Nil => branch lft item rgt
    end
  else if depth rgt >? depth lft + 1 then
    match rgt with
    | Node ritem rleft rright _ _ =>
      if depth rright >=? depth rleft then
        branch (branch lft item rleft) ritem rright
      else
        match rleft with
        | Node pitem pleft pright _ _ =>
          branch (branch lft item pleft) pitem (branch pright ritem rright)
        | Nil => branch lft item rgt
        end
    | Nil => branch lft item rgt
    end
  else branch lft item rgt.

Fixpoint join (lft : node) : A -> node -> node :=
  fun item =>
  fix join_right (rgt : node) : node :=
  if depth lft >? depth rgt + 1 then
    match lft with
    | Node litem lleft lright _ _ => balance lleft litem (join lright item rgt)
    | Nil => branch lft item rgt
    end
  else if depth rgt >? depth lft + 1 then
    match rgt with
    | Node ritem rleft rright _ _ => balance (join_right rleft) ritem rright
    | Nil => branch lft item rgt
    end
  else branch lft item rgt.

Fixpoint split (n : node) (position : Z) : node * node :=
  match n with
  | Nil => (Nil, Nil)
  | Node item nleft nright _ _ =>
    if position <=? istart item then
      let '(lft, middle) := split nleft position in
      (lft, join middle item nright)
    else if position >=? iend item then
      let '(middle, rgt) := split nright position in
      (join nleft item middle, rgt)
    else
      (join nleft (cut_left position item) Nil, join Nil (cut_right position item) nright)
  end.

(** [replace] puts an item over whatever the runs it covers held.  The code
    writes it out in both copies. *)
Definition replace (current : node) (next : A) : node :=
  let '(lft, rest) := split current (istart next) in
  let '(_, rgt) := split rest (iend next) in
  join lft next rgt.

(** The item that covers a position, found the way [Run] walks the tree. *)
Fixpoint find (n : node) (position : Z) : option A :=
  match n with
  | Nil => None
  | Node item lft rgt _ _ =>
    if position <? istart item then find lft position
    else if position >=? iend item then find rgt position
    else Some item
  end.

Fixpoint elements (n : node) : list A :=
  match n with
  | Nil => []
  | Node item lft rgt _ _ => elements lft ++ item :: elements rgt
  end.

(** The value a position has, if an item covers it. *)
Definition lookup (n : node) (position : Z) : option V :=
  (fun x => ival x position) <$> find n position.

(** ** Invariants *)

(** Stored heights and counts are right, and siblings differ by at most one
    level. *)
Fixpoint avl (n : node) : Prop :=
  match n with
  | Nil => True
  | Node _ lft rgt h c =>
    avl lft /\ avl rgt /\ h = 1 + Z.max (depth lft) (depth rgt) /\
    c = 1 + size lft + size rgt /\ -1 <= depth lft - depth rgt <= 1
  end.

(** A list of items lies in [[lo, hi]], in order, without overlap, and no item
    is empty. *)
Fixpoint chain (lo : Z) (l : list A) (hi : Z) : Prop :=
  match l with
  | [] => lo <= hi
  | x :: l => lo <= istart x /\ istart x < iend x /\ chain (iend x) l hi
  end.

Record wf (lo : Z) (n : node) (hi : Z) : Prop := {
  wf_avl : avl n;
  wf_chain : chain lo (elements n) hi;
}.

(** The list-level meaning of [split]: what lies below a position and what lies
    above it, the item across it cut in two. *)
Fixpoint below (p : Z) (l : list A) : list A :=
  match l with
  | [] => []
  | x :: l =>
    if p <=? istart x then []
    else if p >=? iend x then x :: below p l
    else [cut_left p x]
  end.

Fixpoint above (p : Z) (l : list A) : list A :=
  match l with
  | [] => []
  | x :: l =>
    if p <=? istart x then x :: l
    else if p >=? iend x then above p l
    else cut_right p x :: l
  end.

Fixpoint lfind (l : list A) (p : Z) : option A :=
  match l with
  | [] => None
  | x :: l => if (istart x <=? p) && (p <? iend x) then Some x else lfind l p
  end.

Definition llookup (l : list A) (p : Z) : option V := (fun x => ival x p) <$> lfind l p.

End Tree.
Arguments node A : clear implicits.
#[global] Arguments join : simpl never.
#[global] Arguments balance : simpl never.

Create HintDb interval.

(** ** Shape: order and balance *)
Section Shape.
Context {A V : Type} `{ItemLaws A V}.
Implicit Types (n l r : node A) (x : A).

Lemma elements_balance l x r : elements (balance l x r) = elements l ++ x :: elements r.
Proof.
  unfold balance.
  destruct l as [|lx ll lr lh lc], r as [|rx rl rr rh rc]; zcases; simpl;
    repeat (case_match; simpl); by simplify_list_eq.
Qed.

Lemma join_unfold l x r :
  join l x r =
  if depth l >? depth r + 1 then
    match l with
    | Node litem lleft lright _ _ => balance lleft litem (join lright x r)
    | Nil => branch l x r
    end
  else if depth r >? depth l + 1 then
    match r with
    | Node ritem rleft rright _ _ => balance (join l x rleft) ritem rright
    | Nil => branch l x r
    end
  else branch l x r.
Proof. by destruct l, r. Qed.

Lemma elements_join l x r : elements (join l x r) = elements l ++ x :: elements r.
Proof.
  revert r. induction l as [|lx ll IHl lr IHr lh lc]; intros r.
  - induction r as [|rx rl IHrl rr IHrr rh rc]; rewrite join_unfold; zcases; simpl; try done.
    rewrite elements_balance, IHrl. by simplify_list_eq.
  - induction r as [|rx rl IHrl rr IHrr rh rc]; rewrite join_unfold; zcases; simpl; try done.
    + rewrite elements_balance, IHr. by simplify_list_eq.
    + rewrite elements_balance, IHr. by simplify_list_eq.
    + rewrite elements_balance, IHrl. by simplify_list_eq.
Qed.

Lemma depth_nonneg n : avl n -> 0 <= depth n.
Proof.
  induction n as [|x l IHl r IHr h c]; simpl; [lia|].
  intros (?&?&->&?&?). specialize (IHl ltac:(done)). lia.
Qed.

Ltac avl_nonneg :=
  repeat match goal with
  | Ha : avl ?n |- _ =>
    lazymatch goal with
    | _ : 0 <= depth n |- _ => fail
    | _ => pose proof (depth_nonneg n Ha)
    end
  end.

Lemma size_elements n : avl n -> size n = Z.of_nat (length (elements n)).
Proof.
  induction n as [|x l IHl r IHr h c]; simpl; [done|].
  intros (Hl&Hr&?&->&?). rewrite length_app. simpl. rewrite IHl, IHr by done. lia.
Qed.

Lemma branch_avl l x r :
  avl l -> avl r -> -1 <= depth l - depth r <= 1 -> avl (branch l x r).
Proof. simpl. tauto. Qed.

(** [balance] accepts children whose heights differ by at most two. *)
Lemma balance_avl l x r :
  avl l -> avl r -> -2 <= depth l - depth r <= 2 ->
  avl (balance l x r) /\
  Z.max (depth l) (depth r) <= depth (balance l x r) <= 1 + Z.max (depth l) (depth r) /\
  (-1 <= depth l - depth r <= 1 -> depth (balance l x r) = 1 + Z.max (depth l) (depth r)).
Proof.
  intros Hl Hr Hd. unfold balance. zcases.
  - destruct l as [|lx ll lr lh lc]; simpl in *;
      [pose proof (depth_nonneg r Hr); lia|].
    destruct Hl as (Hll&Hlr&->&->&?).
    zcases; [simpl; repeat split; auto; lia|].
    destruct lr as [|px pl pr ph pc]; simpl in *;
      [pose proof (depth_nonneg ll Hll); lia|].
    destruct Hlr as (?&?&->&->&?). repeat split; auto; lia.
  - destruct r as [|rx rl rr rh rc]; simpl in *;
      [pose proof (depth_nonneg l Hl); lia|].
    destruct Hr as (Hrl&Hrr&->&->&?).
    zcases; [simpl; repeat split; auto; lia|].
    destruct rl as [|px pl pr ph pc]; simpl in *;
      [pose proof (depth_nonneg rr Hrr); lia|].
    destruct Hrl as (?&?&->&->&?). repeat split; auto; lia.
  - simpl. repeat split; auto; lia.
Qed.

Lemma join_avl l x r :
  avl l -> avl r ->
  avl (join l x r) /\
  Z.max (depth l) (depth r) <= depth (join l x r) <= 1 + Z.max (depth l) (depth r).
Proof.
  revert r. induction l as [|lx ll IHl lr IHr lh lc]; intros r Hl Hr;
    induction r as [|rx rl IHrl rr IHrr rh rc]; rewrite join_unfold;
    zcases; avl_nonneg; try (simpl in *; repeat split; intuition lia).
  - destruct Hr as (?&?&->&->&?). simpl in *.
    destruct IHrl as [Ha Hb]; [done|]. avl_nonneg.
    destruct (balance_avl (join Nil x rl) rx rr) as (?&?&?); auto; [lia|split; [done|lia]].
  - destruct Hl as (?&?&->&->&?). simpl in *.
    destruct (IHr Nil) as [Ha Hb]; [done..|]. simpl in Hb.
    avl_nonneg.
    destruct (balance_avl ll lx (join lr x Nil)) as (?&?&?); auto; [lia|split; [done|lia]].
  - destruct Hl as (?&?&->&->&?). set (r := Node rx rl rr rh rc) in *.
    destruct (IHr r) as [Ha Hb]; [done..|]. simpl in *.
    destruct (balance_avl ll lx (join lr x r)) as (?&?&?); auto; [lia|split; [done|lia]].
  - destruct Hr as (?&?&->&->&?). set (l := Node lx ll lr lh lc) in *.
    destruct IHrl as [Ha Hb]; [done|]. simpl in *.
    destruct (balance_avl (join l x rl) rx rr) as (?&?&?); auto; [lia|split; [done|lia]].
Qed.

Lemma join_avl' l x r : avl l -> avl r -> avl (join l x r).
Proof. intros. by apply join_avl. Qed.

Lemma split_avl n p : avl n -> avl (split n p).1 /\ avl (split n p).2.
Proof.
  induction n as [|x l IHl r IHr h c]; simpl; [done|].
  intros (Hl&Hr&?&?&?). specialize (IHl Hl). specialize (IHr Hr).
  destruct (split l p), (split r p). simpl in *.
  zcases; simpl; split; try apply join_avl'; simpl; intuition auto.
Qed.

(** The tree is no deeper than twice the logarithm of its size. *)
Lemma avl_depth_square n : avl n -> 2 ^ depth n <= (size n + 1) * (size n + 1).
Proof.
  induction n as [|x l IHl r IHr h c]; simpl; [lia|].
  intros (Hl&Hr&->&->&Hb). specialize (IHl Hl). specialize (IHr Hr).
  pose proof (depth_nonneg l Hl). pose proof (depth_nonneg r Hr).
  pose proof (size_elements l Hl). pose proof (size_elements r Hr).
  set (a := size l + 1) in *. set (b := size r + 1) in *.
  assert (Hab : 1 + size l + size r + 1 = a + b) by (unfold a, b; lia).
  assert (1 <= a) by (unfold a; lia). assert (1 <= b) by (unfold b; lia).
  rewrite Hab. clear Hab.
  destruct (Z.max_spec (depth l) (depth r)) as [[Hlt ->]|[Hle ->]].
  - assert (depth r = depth l + 1) as Hd by lia. rewrite Hd in *.
    rewrite (Z.add_comm (depth l) 1), !Z.pow_add_r in * by lia.
    change (2 ^ 1) with 2 in *. set (X := 2 ^ depth l) in *.
    assert (0 < X) by (apply Z.pow_pos_nonneg; lia).
    assert (X <= a * b) by nia. nia.
  - destruct (Z.eq_dec (depth l) (depth r)) as [Hd|Hd].
    + rewrite Hd in *. rewrite Z.pow_add_r by lia. change (2 ^ 1) with 2.
      set (X := 2 ^ depth r) in *. nia.
    + assert (depth l = depth r + 1) as Hd' by lia. rewrite Hd' in *.
      rewrite (Z.add_comm (depth r) 1), !Z.pow_add_r in * by lia.
      change (2 ^ 1) with 2 in *. set (X := 2 ^ depth r) in *.
      assert (0 < X) by (apply Z.pow_pos_nonneg; lia).
      assert (X <= a * b) by nia. nia.
Qed.

End Shape.

(** ** Order: the items of a tree as a sorted list of runs *)
Section Order.
Context {A V : Type} `{ItemLaws A V}.
Implicit Types (n : node A) (l : list A) (x : A).

Lemma chain_le lo l hi : chain lo l hi -> lo <= hi.
Proof. revert lo. induction l as [|x l IH]; simpl; intros lo; [done|]. intros (?&?&Hc). apply IH in Hc. lia. Qed.

Lemma chain_weaken lo lo' l hi hi' : chain lo l hi -> lo' <= lo -> hi <= hi' -> chain lo' l hi'.
Proof.
  revert lo lo'. induction l as [|x l IH]; simpl; intros lo lo'; [lia|].
  intros (?&?&Hc) ??. repeat split; [lia..|]. by apply (IH (iend x)).
Qed.

Lemma chain_app lo l1 l2 hi :
  chain lo (l1 ++ l2) hi <-> exists m, chain lo l1 m /\ chain m l2 hi.
Proof.
  revert lo. induction l1 as [|x l1 IH]; simpl; intros lo.
  - split; [intros ?; exists lo; split; [lia|done]|].
    intros (m&?&Hc). eapply chain_weaken; [done|lia..].
  - rewrite IH. naive_solver.
Qed.

Lemma chain_nonempty lo l hi x : chain lo l hi -> x ∈ l -> lo <= istart x /\ istart x < iend x /\ iend x <= hi.
Proof.
  revert lo. induction l as [|y l IH]; intros lo; simpl; [set_solver|].
  intros (?&?&Hc) [->|Hin]%elem_of_cons.
  - apply chain_le in Hc. lia.
  - apply IH in Hc; [lia|done].
Qed.

Lemma lfind_app l1 l2 p :
  lfind (l1 ++ l2) p = match lfind l1 p with Some x => Some x | None => lfind l2 p end.
Proof. induction l1 as [|x l1 IH]; simpl; [done|]. by zcases. Qed.

Lemma lfind_outside lo l hi p : chain lo l hi -> p < lo \/ hi <= p -> lfind l p = None.
Proof.
  revert lo. induction l as [|x l IH]; simpl; intros lo; [done|].
  intros (?&?&Hc) Hp. pose proof (chain_le _ _ _ Hc).
  zcases; [lia|]. apply (IH (iend x)); [done|lia].
Qed.

Lemma lfind_Some l p x : lfind l p = Some x -> x ∈ l /\ istart x <= p < iend x.
Proof.
  induction l as [|y l IH]; simpl; [done|]. zcases.
  - intros [= ->]. split; [set_solver|lia].
  - intros ?%IH. set_solver.
Qed.

Lemma find_elements lo n hi p : chain lo (elements n) hi -> find n p = lfind (elements n) p.
Proof.
  revert lo hi. induction n as [|x nl IHl nr IHr h c]; simpl; intros lo hi; [done|].
  intros (m&Hl&Hx&Hx'&Hr)%chain_app. rewrite lfind_app. simpl.
  rewrite (IHl lo m), (IHr (iend x) hi) by done. zcases; try lia.
  - rewrite (lfind_outside (iend x) (elements nr) hi) by (done || lia).
    by case_match.
  - by rewrite (lfind_outside lo (elements nl) m) by (done || lia).
  - by rewrite (lfind_outside lo (elements nl) m) by (done || lia).
Qed.

(** *** Cutting a list of runs at a position *)

Lemma below_before l1 x l2 p : p <= istart x -> below p (l1 ++ x :: l2) = below p l1.
Proof.
  intros Hp. induction l1 as [|y l1 IH]; simpl; [by zcases; try lia|]. by rewrite IH.
Qed.

Lemma above_before l1 x l2 p : p <= istart x -> above p (l1 ++ x :: l2) = above p l1 ++ x :: l2.
Proof.
  intros Hp. induction l1 as [|y l1 IH]; simpl; [by zcases; try lia|].
  rewrite IH. by zcases.
Qed.

Lemma below_after lo l1 m l2 p : chain lo l1 m -> m < p -> below p (l1 ++ l2) = l1 ++ below p l2.
Proof.
  revert lo. induction l1 as [|y l1 IH]; simpl; intros lo; [done|].
  intros (?&?&Hc) Hp. pose proof (chain_le _ _ _ Hc).
  zcases; try lia. by rewrite (IH (iend y)).
Qed.

Lemma above_after lo l1 m l2 p : chain lo l1 m -> m < p -> above p (l1 ++ l2) = above p l2.
Proof.
  revert lo. induction l1 as [|y l1 IH]; simpl; intros lo; [done|].
  intros (?&?&Hc) Hp. pose proof (chain_le _ _ _ Hc).
  zcases; try lia. by rewrite (IH (iend y)).
Qed.

Lemma split_elements lo n hi p :
  chain lo (elements n) hi ->
  elements (split n p).1 = below p (elements n) /\
  elements (split n p).2 = above p (elements n).
Proof.
  revert lo hi. induction n as [|x nl IHl nr IHr h c]; simpl; intros lo hi; [done|].
  intros (m&Hl&Hx&Hx'&Hr)%chain_app.
  specialize (IHl _ _ Hl). specialize (IHr _ _ Hr).
  destruct (split nl p) as [ll lr], (split nr p) as [rl rr]. simpl in *.
  destruct IHl as [IHl1 IHl2], IHr as [IHr1 IHr2].
  zcases; simpl; rewrite ?elements_join.
  - by rewrite IHl1, IHl2, below_before, above_before by done.
  - rewrite (below_after lo _ m), (above_after lo _ m) by (done || lia). simpl.
    zcases; try lia. by rewrite IHr1, IHr2.
  - rewrite (below_after lo _ m), (above_after lo _ m) by (done || lia). simpl.
    zcases; try lia. done.
Qed.

Lemma below_chain lo l hi p : chain lo l hi -> lo <= p -> chain lo (below p l) p.
Proof.
  revert lo. induction l as [|x l IH]; simpl; intros lo; [done|].
  intros (?&?&Hc) Hp. zcases; simpl; [done|..].
  - repeat split; [done..|]. apply IH; [done|lia].
  - rewrite cut_left_start, cut_left_end. lia.
Qed.

Lemma above_chain lo l hi p : chain lo l hi -> p <= hi -> chain p (above p l) hi.
Proof.
  revert lo. induction l as [|x l IH]; simpl; intros lo; [lia|].
  intros (?&?&Hc) Hp. zcases; simpl; [done|by apply (IH (iend x))|].
  rewrite cut_right_start, cut_right_end. repeat split; [lia..|done].
Qed.

Lemma llookup_app l1 l2 p :
  llookup (l1 ++ l2) p = match lfind l1 p with Some x => Some (ival x p) | None => llookup l2 p end.
Proof. unfold llookup. rewrite lfind_app. by destruct (lfind l1 p). Qed.

Lemma llookup_cons x l p :
  llookup (x :: l) p = if (istart x <=? p) && (p <? iend x) then Some (ival x p) else llookup l p.
Proof. unfold llookup. simpl. by zcases. Qed.

Lemma llookup_outside lo l hi p : chain lo l hi -> p < lo \/ hi <= p -> llookup l p = None.
Proof. intros. unfold llookup. by rewrite (lfind_outside lo l hi). Qed.

Lemma below_lookup lo l hi p q :
  chain lo l hi -> llookup (below p l) q = if q <? p then llookup l q else None.
Proof.
  revert lo. induction l as [|x l IH]; intros lo; [by simpl; zcases|].
  intros (?&?&Hc). simpl. destruct (p <=? istart x) eqn:E1; zbool.
  { zcases; [|done]. symmetry. by apply (llookup_outside (istart x) _ hi); [simpl; auto with lia|lia]. }
  destruct (p >=? iend x) eqn:E2; zbool.
  - rewrite !llookup_cons, (IH (iend x)) by done. zcases; try done; lia.
  - rewrite !llookup_cons, cut_left_start, cut_left_end. zcases; try done; try lia.
    + by rewrite cut_left_val by lia.
    + symmetry. apply (llookup_outside (iend x) _ hi); [done|lia].
Qed.

Lemma above_lookup lo l hi p q :
  chain lo l hi -> llookup (above p l) q = if p <=? q then llookup l q else None.
Proof.
  revert lo. induction l as [|x l IH]; intros lo; [by simpl; zcases|].
  intros (?&?&Hc). simpl. destruct (p <=? istart x) eqn:E1; zbool.
  { zcases; [done|]. by apply (llookup_outside (istart x) _ hi); [simpl; auto with lia|lia]. }
  destruct (p >=? iend x) eqn:E2; zbool.
  - rewrite !llookup_cons, (IH (iend x)) by done. zcases; try done; lia.
  - rewrite !llookup_cons, cut_right_start, cut_right_end. zcases; try done; try lia.
    + by rewrite cut_right_val by lia.
    + apply (llookup_outside (iend x) _ hi); [done|lia].
Qed.

(** *** Splitting and replacing *)

Lemma wf_nil lo hi : lo <= hi -> wf lo (Nil : node A) hi.
Proof. by constructor. Qed.

Lemma wf_lookup lo n hi p : wf lo n hi -> lookup n p = llookup (elements n) p.
Proof. intros [_ Hc]. unfold lookup, llookup. by rewrite (find_elements lo n hi). Qed.

Lemma wf_join lo (l : node A) m x m' (r : node A) hi :
  wf lo l m -> wf m' r hi -> m <= istart x -> istart x < iend x -> iend x <= m' ->
  wf lo (join l x r) hi.
Proof.
  intros [Hl1 Hl2] [Hr1 Hr2] ???. split; [by apply join_avl|].
  rewrite elements_join. apply chain_app. exists m. split; [done|]. simpl.
  repeat split; [lia..|]. eapply chain_weaken; [done|lia..].
Qed.

Lemma wf_split lo n hi p :
  wf lo n hi -> lo <= p <= hi -> wf lo (split n p).1 p /\ wf p (split n p).2 hi.
Proof.
  intros [Ha Hc] Hp. destruct (split_avl n p Ha), (split_elements lo n hi p Hc) as [E1 E2].
  split; split; try done.
  - rewrite E1. eapply below_chain; [done|lia].
  - rewrite E2. eapply above_chain; [done|lia].
Qed.

Lemma lookup_split lo n hi p q :
  wf lo n hi -> lo <= p <= hi ->
  lookup (split n p).1 q = (if q <? p then lookup n q else None) /\
  lookup (split n p).2 q = (if p <=? q then lookup n q else None).
Proof.
  intros Hn Hp. destruct (wf_split lo n hi p Hn Hp) as [Hl Hr].
  destruct (split_elements lo n hi p (wf_chain _ _ _ Hn)) as [E1 E2].
  rewrite (wf_lookup _ _ _ _ Hl), (wf_lookup _ _ _ _ Hr), !(wf_lookup _ _ _ _ Hn), E1, E2.
  split; [eapply below_lookup|eapply above_lookup]; apply Hn.
Qed.

Lemma lookup_join lo (l : node A) m x m' (r : node A) hi p :
  wf lo l m -> wf m' r hi -> m <= istart x -> istart x < iend x -> iend x <= m' ->
  lookup (join l x r) p =
  if p <? istart x then lookup l p
  else if p <? iend x then Some (ival x p) else lookup r p.
Proof.
  intros Hl Hr ???.
  rewrite (wf_lookup lo _ hi) by (by eapply (wf_join lo l m x m')).
  rewrite elements_join, llookup_app, llookup_cons.
  rewrite (wf_lookup _ _ _ p Hl), (wf_lookup _ _ _ p Hr).
  destruct (p <? istart x) eqn:E1; zbool.
  - unfold llookup at 2. destruct (lfind (elements l) p); [done|]. simpl.
    destruct (_ && _) eqn:E2; zbool; [lia|].
    apply (llookup_outside m' _ hi); [apply Hr|lia].
  - rewrite (lfind_outside lo (elements l) m) by (apply Hl || lia).
    zcases; try done; lia.
Qed.

Lemma wf_replace lo n hi x :
  wf lo n hi -> lo <= istart x -> istart x < iend x -> iend x <= hi -> wf lo (replace n x) hi.
Proof.
  intros Hn ???. unfold replace.
  assert (lo <= istart x <= hi) as Hs by lia.
  assert (istart x <= iend x <= hi) as He by lia.
  pose proof (wf_split lo n hi (istart x) Hn Hs) as [Hl Hrest].
  destruct (split n (istart x)) as [l rest]. simpl in *.
  pose proof (wf_split _ rest hi (iend x) Hrest He) as [_ Hr].
  destruct (split rest (iend x)) as [mid r]. simpl in *.
  by eapply wf_join; try done; lia.
Qed.

Lemma lookup_replace lo n hi x p :
  wf lo n hi -> lo <= istart x -> istart x < iend x -> iend x <= hi ->
  lookup (replace n x) p =
  if (istart x <=? p) && (p <? iend x) then Some (ival x p) else lookup n p.
Proof.
  intros Hn ???. unfold replace.
  assert (lo <= istart x <= hi) as Hs by lia.
  assert (istart x <= iend x <= hi) as He by lia.
  pose proof (wf_split lo n hi (istart x) Hn Hs) as [Hl Hrest].
  pose proof (lookup_split lo n hi (istart x) p Hn Hs) as [El Erest].
  destruct (split n (istart x)) as [l rest]. simpl in *.
  pose proof (wf_split _ rest hi (iend x) Hrest He) as [_ Hr].
  pose proof (lookup_split _ rest hi (iend x) p Hrest He) as [_ Er].
  destruct (split rest (iend x)) as [mid r]. simpl in *.
  rewrite (lookup_join lo l (istart x) x (iend x) r hi) by (done || lia).
  rewrite El, Er, Erest. zcases; try done; lia.
Qed.

(** A property of items that cuts keep holds of every item of the tree. *)
Lemma Forall_below (P : A -> Prop) p l :
  (forall x, istart x < p < iend x -> P x -> P (cut_left p x)) -> Forall P l -> Forall P (below p l).
Proof. intros HP. induction 1; simpl; zcases; auto using Forall_cons, HP. Qed.

Lemma Forall_above (P : A -> Prop) p l :
  (forall x, istart x < p < iend x -> P x -> P (cut_right p x)) -> Forall P l -> Forall P (above p l).
Proof. intros HP. induction 1; simpl; zcases; auto using Forall_cons, HP. Qed.

Lemma elements_replace lo n hi x :
  wf lo n hi -> lo <= istart x -> istart x < iend x -> iend x <= hi ->
  elements (replace n x) =
  below (istart x) (elements n) ++ x :: above (iend x) (above (istart x) (elements n)).
Proof.
  intros Hn ???. unfold replace.
  assert (lo <= istart x <= hi) as Hs by lia.
  pose proof (wf_split lo n hi (istart x) Hn Hs) as [Hl Hrest].
  pose proof (split_elements lo n hi (istart x) (wf_chain _ _ _ Hn)) as [El Erest].
  destruct (split n (istart x)) as [l rest]. simpl in *.
  pose proof (split_elements _ rest hi (iend x) (wf_chain _ _ _ Hrest)) as [_ Er].
  destruct (split rest (iend x)) as [mid r]. simpl in *.
  by rewrite elements_join, El, Er, Erest.
Qed.

Lemma Forall_replace (P : A -> Prop) lo n hi x :
  (forall p y, istart y < p < iend y -> P y -> P (cut_left p y) /\ P (cut_right p y)) ->
  wf lo n hi -> lo <= istart x -> istart x < iend x -> iend x <= hi ->
  P x -> Forall P (elements n) -> Forall P (elements (replace n x)).
Proof.
  intros HP Hn ??? Hx Hall. rewrite (elements_replace lo n hi x) by done.
  apply Forall_app. split; [|constructor; [done|]].
  - apply Forall_below; [|done]. intros; by apply HP.
  - apply Forall_above; [|apply Forall_above; [|done]]; intros; by apply HP.
Qed.

End Order.

#[export] Hint Resolve wf_nil wf_join wf_replace join_avl' : interval.
