(* ===== verification/PageRanges.v ===== *)
(** * Page ranges

    [vmmemory/internal/pageranges/pageranges.go]: the interval map the Linux
    connection keeps its client's mapping generations in.  The tree is the one
    of file [Interval]; this file has its entries, [Set], [Run] and [Get].
    [Set] keeps the map canonical (no default state is stored, adjacent equal
    runs are merged), and the map refines a function from pages to states. *)

From S2P Require Import Prelude Interval.

Module PageRanges.

Record State := mkState { Generation : Z; Zero : bool }.

Definition State_zero : State := mkState 0 false.

#[export] Instance State_eq_dec : EqDecision State.
Proof. solve_decision. Defined.

Record entry := mkEntry { start : Z; stop : Z; state : State }.

#[export] Instance entry_item : Item entry State := {
  istart := start;
  iend := stop;
  cut_left p e := mkEntry (start e) p (state e);
  cut_right p e := mkEntry p (stop e) (state e);
  ival e _ := state e;
}.

#[export] Instance entry_laws : ItemLaws entry State.
Proof. by split. Qed.

(** [Map] is a root; its zero value is the empty map. *)
Definition Map := node entry.

Fixpoint first (n : node entry) : option entry :=
  match n with
  | Nil => None
  | Node item Nil _ _ _ => Some item
  | Node _ lft _ _ _ => first lft
  end.

Fixpoint last (n : node entry) : option entry :=
  match n with
  | Nil => None
  | Node item _ Nil _ _ => Some item
  | Node _ _ rgt _ _ => last rgt
  end.

(** A run of the same state that ends where the new run starts is made part
    of it. *)
Definition merge_left (lft : Map) (from : Z) (st : State) : Z * Map :=
  match last lft with
  | Some tail =>
    if (stop tail =? from) && bool_decide (state tail = st) then
      (start tail, (split lft (start tail)).1)
    else (from, lft)
  | None => (from, lft)
  end.

(** And one that starts where the new run ends. *)
Definition merge_right (rgt : Map) (to : Z) (st : State) : Z * Map :=
  match first rgt with
  | Some head =>
    if (start head =? to) && bool_decide (state head = st) then
      (stop head, (split rgt (stop head)).2)
    else (to, rgt)
  | None => (to, rgt)
  end.

Definition Set_ (root : Map) (from to : Z) (st : State) : Map :=
  if from >=? to then root else
  let '(lft, rest) := split root from in
  let '(_, rgt) := split rest to in
  if bool_decide (st = State_zero) then
    match first rgt with
    | Some head =>
      let '(_, rgt) := split rgt (stop head) in
      join lft head rgt
    | None => lft
    end
  else
    let '(from, lft) := merge_left lft from st in
    let '(to, rgt) := merge_right rgt to st in
    join lft (mkEntry from to st) rgt.

Fixpoint Run (n : Map) (from limit : Z) : State * Z :=
  match n with
  | Nil => (State_zero, limit)
  | Node item lft rgt _ _ =>
    if from <? start item then Run lft from (Z.min limit (start item))
    else if from >=? stop item then Run rgt from limit
    else (state item, Z.min limit (stop item))
  end.

Definition Get (root : Map) (page : Z) : State := (Run root page (2 ^ 64 - 1)).1.

(** ** Canonical form *)

(** No entry holds the default state, and two entries that touch differ. *)
Fixpoint canon (l : list entry) : Prop :=
  match l with
  | [] => True
  | x :: l =>
    state x <> State_zero /\
    match l with y :: _ => stop x = start y -> state x <> state y | [] => True end /\
    canon l
  end.

Record wf_map (m : Map) : Prop := {
  wf_map_tree : wf 0 m (2 ^ 64);
  wf_map_canon : canon (elements m);
}.

(** The state a list of entries gives a page. *)
Definition state_at (l : list entry) (p : Z) : State := default State_zero (llookup l p).

(** ** Lemmas *)

Lemma first_head n : first n = head (elements n).
Proof.
  induction n as [|x l IHl r _ h c]; simpl; [done|].
  destruct l as [|y ll lr lh lc]; [done|].
  rewrite IHl. simpl. by destruct (elements ll).
Qed.

Lemma last_last n : last n = list_basics.list.last (elements n).
Proof.
  induction n as [|x l _ r IHr h c]; simpl; [done|].
  destruct r as [|y rl rr rh rc].
  - simpl. by rewrite last_snoc.
  - rewrite IHr, last_app_cons, last_cons. simpl.
    by destruct (list_basics.list.last (elements rl ++ y :: elements rr)) eqn:E;
      [|apply last_None in E; destruct (elements rl)].
Qed.

Lemma above_first lo x l hi : chain lo (x :: l) hi -> above (stop x) (x :: l) = l.
Proof.
  intros (?&?&Hc). simpl in *. zcases; try lia.
  destruct l as [|y l]; [done|]. simpl in *. zcases; [done|lia..].
Qed.

Lemma below_all lo (l : list entry) m p : chain lo l m -> m <= p -> below p l = l.
Proof.
  revert lo. induction l as [|x l IH]; simpl; intros lo; [done|].
  intros (?&?&Hc) Hp. pose proof (chain_le _ _ _ Hc). zcases; try lia.
  by rewrite (IH (stop x)).
Qed.

Lemma below_last lo l x hi : chain lo (l ++ [x]) hi -> below (start x) (l ++ [x]) = l.
Proof.
  intros (m&Hl&?&?&?)%chain_app. simpl in *. rewrite below_before by done.
  by apply (below_all lo l m).
Qed.

Lemma canon_app l1 l2 :
  canon (l1 ++ l2) <->
  canon l1 /\ canon l2 /\
  (forall y x, list_basics.list.last l1 = Some y -> head l2 = Some x ->
     stop y = start x -> state y <> state x).
Proof.
  induction l1 as [|z l1 IH]; simpl; [naive_solver|].
  rewrite IH. destruct l1 as [|w l1]; simpl.
  - destruct l2 as [|x l2]; simpl; naive_solver.
  - naive_solver.
Qed.

Lemma canon_below p l : canon l -> canon (below p l).
Proof.
  induction l as [|x l IH]; simpl; [done|]. intros (?&Hy&Hc). specialize (IH Hc).
  zcases; simpl; [done| |done].
  repeat split; [done| |done].
  destruct l as [|y l]; simpl in *; [done|]. zcases; simpl; try done.
Qed.

Lemma canon_above p l : canon l -> canon (above p l).
Proof. induction l as [|x l IH]; simpl; [done|]. intros (?&?&?). zcases; simpl; auto. Qed.

Lemma merge_left_spec lft from st :
  wf 0 lft from -> 0 <= from -> canon (elements lft) -> st <> State_zero ->
  let '(from', lft') := merge_left lft from st in
  0 <= from' <= from /\ wf 0 lft' from' /\ canon (elements lft') /\
  (forall y, list_basics.list.last (elements lft') = Some y -> stop y = from' -> state y <> st) /\
  (forall p, lookup lft p = if p <? from' then lookup lft' p else if p <? from then Some st else None).
Proof.
  intros Hwf H0 Hcan Hst. unfold merge_left. rewrite last_last.
  assert (forall p, from <= p -> lookup lft p = None) as Hout.
  { intros p Hp. rewrite (wf_lookup _ _ _ p Hwf). apply (llookup_outside 0 _ from); [apply Hwf|lia]. }
  destruct (list_basics.list.last (elements lft)) as [tail|] eqn:Elast.
  2:{ split_and!; try done; try lia; [by rewrite Elast|].
      intros p. zcases; first [done|lia|apply Hout; lia]. }
  destruct ((stop tail =? from) && bool_decide (state tail = st)) eqn:E; zbool.
  2:{ split_and!; try done; try lia.
      - rewrite Elast. intros y [= ->] Hs. destruct E as [E|E]; zbool; [done|].
        by apply bool_decide_eq_false in E.
      - intros p. zcases; first [done|lia|apply Hout; lia]. }
  match goal with Hb : bool_decide _ = true |- _ => apply bool_decide_eq_true in Hb as <- end. subst from.
  pose proof Elast as (l0&El)%last_Some.
  pose proof (wf_chain _ _ _ Hwf) as Hc. rewrite El in Hc.
  pose proof (chain_nonempty _ _ _ tail Hc ltac:(set_solver)) as (Hs1&Hs2&_). simpl in Hs1, Hs2.
  destruct (wf_split 0 lft (stop tail) (start tail) Hwf ltac:(lia)) as [Hl _].
  destruct (split_elements 0 lft (stop tail) (start tail) (wf_chain _ _ _ Hwf)) as [E1 _].
  rewrite El, (below_last 0 _ _ _ Hc) in E1.
  rewrite El in Hcan. apply canon_app in Hcan as (Hc0&_&Hadj).
  split_and!; try done; try lia; rewrite ?E1; try done.
  - intros y Hy Hstop. by apply (Hadj y tail).
  - intros p. destruct (lookup_split 0 lft (stop tail) (start tail) p Hwf ltac:(lia)) as [-> _].
    zcases; try done; [|apply Hout; lia].
    rewrite (wf_lookup _ _ _ p Hwf), El, llookup_app.
    apply chain_app in Hc as (m&Hc1&Hc2&_). simpl in Hc2.
    rewrite (lfind_outside 0 l0 m) by (done || lia).
    rewrite llookup_cons. simpl. zcases; [done|lia].
Qed.

Lemma merge_right_spec rgt to st :
  wf to rgt (2 ^ 64) -> to <= 2 ^ 64 -> canon (elements rgt) -> st <> State_zero ->
  let '(to', rgt') := merge_right rgt to st in
  to <= to' <= 2 ^ 64 /\ wf to' rgt' (2 ^ 64) /\ canon (elements rgt') /\
  (forall y, head (elements rgt') = Some y -> to' = start y -> state y <> st) /\
  (forall p, lookup rgt p = if p <? to then None else if p <? to' then Some st else lookup rgt' p).
Proof.
  intros Hwf H0 Hcan Hst. unfold merge_right. rewrite first_head.
  assert (forall p, p < to -> lookup rgt p = None) as Hout.
  { intros p Hp. rewrite (wf_lookup _ _ _ p Hwf).
    apply (llookup_outside to _ (2 ^ 64)); [apply Hwf|lia]. }
  destruct (head (elements rgt)) as [hd|] eqn:Ehead.
  2:{ split_and!; try done; try lia; [by rewrite Ehead|].
      intros p. zcases; first [done|lia|apply Hout; lia]. }
  destruct ((start hd =? to) && bool_decide (state hd = st)) eqn:E; zbool.
  2:{ split_and!; try done; try lia.
      - rewrite Ehead. intros y [= ->] Hs. destruct E as [E|E]; zbool; [done|].
        by apply bool_decide_eq_false in E.
      - intros p. zcases; first [done|lia|apply Hout; lia]. }
  match goal with Hb : bool_decide _ = true |- _ => apply bool_decide_eq_true in Hb as <- end. subst to.
  destruct (elements rgt) as [|hd' l0] eqn:El; [done|]. injection Ehead as ->.
  pose proof (wf_chain _ _ _ Hwf) as Hc. rewrite El in Hc.
  pose proof (chain_nonempty _ _ _ hd Hc ltac:(set_solver)) as (_&Hs1&Hs2). simpl in Hs1, Hs2.
  destruct (wf_split _ rgt (2 ^ 64) (stop hd) Hwf ltac:(lia)) as [_ Hr].
  destruct (split_elements _ rgt (2 ^ 64) (stop hd) (wf_chain _ _ _ Hwf)) as [_ E2].
  rewrite El, (above_first _ _ _ _ Hc) in E2.
  destruct Hcan as (_&Hadj&Hcan).
  split_and!; try done; try lia; rewrite ?E2; try done.
  - intros y Hy Hstop. destruct l0 as [|z l0]; [done|]. injection Hy as ->.
    specialize (Hadj Hstop). congruence.
  - intros p. destruct (lookup_split _ rgt (2 ^ 64) (stop hd) p Hwf ltac:(lia)) as [_ ->].
    zcases; try done; [apply Hout; lia|lia..| |lia].
    rewrite (wf_lookup _ _ _ p Hwf), El, llookup_cons. simpl. zcases; [done|lia].
Qed.

(** [Run] on the sorted list of entries. *)
Fixpoint lrun (l : list entry) (from limit : Z) : State * Z :=
  match l with
  | [] => (State_zero, limit)
  | x :: l =>
    if from <? start x then (State_zero, Z.min limit (start x))
    else if from >=? stop x then lrun l from limit
    else (state x, Z.min limit (stop x))
  end.

Lemma lrun_before lo l1 m x l2 from limit :
  chain lo l1 m -> m <= start x -> from < start x ->
  lrun (l1 ++ x :: l2) from limit = lrun l1 from (Z.min limit (start x)).
Proof.
  revert lo. induction l1 as [|y l1 IH]; simpl; intros lo; [by zcases; try lia|].
  intros (?&?&Hc) ??. pose proof (chain_le _ _ _ Hc). rewrite (IH (stop y)) by (done || lia).
  zcases; try done; f_equal; lia.
Qed.

Lemma lrun_after lo l1 m l2 from limit :
  chain lo l1 m -> m <= from -> lrun (l1 ++ l2) from limit = lrun l2 from limit.
Proof.
  revert lo. induction l1 as [|y l1 IH]; simpl; intros lo; [done|].
  intros (?&?&Hc) ?. pose proof (chain_le _ _ _ Hc). rewrite (IH (stop y)) by (done || lia).
  zcases; try done; lia.
Qed.

Lemma Run_elements lo n hi from limit :
  chain lo (elements n) hi -> Run n from limit = lrun (elements n) from limit.
Proof.
  revert lo hi limit. induction n as [|x nl IHl nr IHr h c]; simpl; intros lo hi limit; [done|].
  intros (m&Hl&Hx&Hx'&Hr)%chain_app. simpl in *. zcases.
  - by rewrite (lrun_before lo _ m), (IHl lo m) by (done || lia).
  - rewrite (lrun_after lo _ m), (IHr (stop x) hi) by (done || lia). simpl. zcases; try done; lia.
  - rewrite (lrun_after lo _ m) by (done || lia). simpl. zcases; try done; lia.
Qed.

Lemma lrun_state lo l hi from limit :
  chain lo l hi -> (lrun l from limit).1 = state_at l from.
Proof.
  revert lo. induction l as [|x l IH]; intros lo; [done|]. intros (?&?&Hc).
  unfold state_at in *. rewrite llookup_cons. simpl in *. zcases; simpl; try done; try lia.
  - by rewrite (llookup_outside (stop x) l hi) by (done || lia).
  - by apply (IH (stop x)).
Qed.

Lemma state_at_cons x l p :
  state_at (x :: l) p = if (start x <=? p) && (p <? stop x) then state x else state_at l p.
Proof. unfold state_at. rewrite llookup_cons. simpl. by zcases. Qed.

Lemma state_at_outside lo l hi p :
  chain lo l hi -> p < lo \/ hi <= p -> state_at l p = State_zero.
Proof. intros. unfold state_at. by rewrite (llookup_outside lo l hi). Qed.

(** The run [lrun] reports is constant, and, in a canonical list, maximal. *)
Lemma lrun_run lo l hi from limit :
  chain lo l hi -> canon l -> from < limit ->
  let e := (lrun l from limit).2 in
  from < e <= limit /\
  (forall q, from <= q < e -> state_at l q = state_at l from) /\
  (e < limit -> state_at l e <> state_at l from).
Proof.
  revert lo. induction l as [|x l IH]; intros lo; simpl; [intros; split_and!; [lia..|done|lia]|].
  intros (?&?&Hc) (Hx&Hadj&Hcan) Hlim. simpl in *.
  assert (forall q, q < stop x -> state_at l q = State_zero) as Hout.
  { intros q ?. apply (state_at_outside (stop x) l hi); [done|lia]. }
  destruct (from <? start x) eqn:E1; zbool; simpl.
  { split_and!; [lia..| |].
    - intros q ?. rewrite !state_at_cons. zcases; try lia. by rewrite !Hout by lia.
    - intros ?. rewrite !state_at_cons. zcases; try lia. by rewrite Hout by lia. }
  destruct (from >=? stop x) eqn:E2; zbool; simpl.
  { destruct (IH (stop x) Hc Hcan Hlim) as (?&Hconst&Hmax).
    split_and!; [lia..| |].
    - intros q ?. rewrite !state_at_cons. zcases; try lia. by apply Hconst.
    - intros ?. rewrite !state_at_cons. zcases; try lia. by apply Hmax. }
  split_and!; [lia..| |].
  - intros q ?. rewrite !state_at_cons. zcases; try done; lia.
  - intros ?. replace (Z.min limit (stop x)) with (stop x) by lia.
    rewrite !state_at_cons. zcases; try lia.
    destruct l as [|y l]; [by apply not_eq_sym|].
    rewrite state_at_cons. destruct Hc as (?&?&Hc'). simpl in *. zcases; try lia.
    + apply not_eq_sym, Hadj. lia.
    + rewrite (state_at_outside (stop y) l hi) by (done || lia). by apply not_eq_sym.
Qed.

Lemma Get_state_at m p : wf_map m -> Get m p = state_at (elements m) p.
Proof.
  intros [[_ Hc] _]. unfold Get. rewrite (Run_elements _ _ _ _ _ Hc). by apply (lrun_state 0 _ (2 ^ 64)).
Qed.

Lemma Get_lookup m p : wf_map m -> Get m p = default State_zero (lookup m p).
Proof.
  intros Hm. rewrite Get_state_at by done. unfold state_at.
  by rewrite (wf_lookup _ _ _ p (wf_map_tree _ Hm)).
Qed.

(** The parts [Set] puts together: what lies left of the run, and right. *)
Definition clear_join (lft rgt : Map) : Map :=
  match first rgt with
  | Some head => let '(_, rgt) := split rgt (stop head) in join lft head rgt
  | None => lft
  end.

Lemma clear_join_spec lft rgt from to :
  wf 0 lft from -> wf to rgt (2 ^ 64) -> 0 <= from -> from < to <= 2 ^ 64 ->
  canon (elements lft) -> canon (elements rgt) ->
  wf_map (clear_join lft rgt) /\
  (forall p, lookup (clear_join lft rgt) p =
     if p <? from then lookup lft p else if p <? to then None else lookup rgt p).
Proof.
  intros Hl Hr Hf Ht Cl Cr. unfold clear_join. rewrite first_head.
  assert (forall p, from <= p -> lookup lft p = None) as Hout.
  { intros p ?. rewrite (wf_lookup _ _ _ p Hl). apply (llookup_outside 0 _ from); [apply Hl|lia]. }
  destruct (elements rgt) as [|hd l0] eqn:El; simpl.
  { split.
    - split; [|done]. destruct Hl as [Ha Hc]. split; [done|]. eapply chain_weaken; [done|lia..].
    - intros p. zcases; [done|by apply Hout; lia|]. rewrite (wf_lookup _ _ _ p Hr), El.
      apply Hout. lia. }
  pose proof (wf_chain _ _ _ Hr) as Hc. rewrite El in Hc.
  pose proof (chain_nonempty _ _ _ hd Hc ltac:(set_solver)) as (Hs0&Hs1&Hs2). simpl in Hs0, Hs1, Hs2.
  assert (to <= stop hd <= 2 ^ 64) as Hs by lia.
  destruct (wf_split to rgt (2 ^ 64) (stop hd) Hr Hs) as [_ Hr'].
  destruct (split_elements to rgt (2 ^ 64) (stop hd) (wf_chain _ _ _ Hr)) as [_ E2].
  pose proof (fun p => proj2 (lookup_split to rgt (2 ^ 64) (stop hd) p Hr Hs)) as Lr.
  rewrite El, (above_first _ _ _ _ Hc) in E2.
  destruct (split rgt (stop hd)) as [mid rgt']. simpl in *.
  assert (from <= istart hd) by (simpl; lia). assert (istart hd < iend hd) by (simpl; lia).
  assert (iend hd <= stop hd) by (simpl; lia).
  split.
  - split; [by eapply (wf_join 0 lft from hd (stop hd) rgt')|].
    rewrite elements_join, E2. apply canon_app. split_and!; [done|by apply Cr|].
    intros y x Hy [= <-] ?.
    pose proof (chain_nonempty _ _ _ y (wf_chain _ _ _ Hl)
      ltac:(by apply last_Some_elem_of)) as (_&_&Hy'). simpl in Hy'. lia.
  - intros p. rewrite (lookup_join 0 lft from hd (stop hd) rgt' (2 ^ 64)) by done. simpl.
    rewrite Lr, (wf_lookup _ _ _ p Hr), El, llookup_cons. simpl.
    zcases; try done; try lia; [by apply Hout; lia|].
    rewrite Hout by lia. symmetry. apply (llookup_outside (stop hd) l0 (2 ^ 64)); [apply Hc|lia].
Qed.

Lemma set_join_spec lft rgt from to st :
  wf 0 lft from -> wf to rgt (2 ^ 64) -> 0 <= from -> from < to <= 2 ^ 64 ->
  canon (elements lft) -> canon (elements rgt) -> st <> State_zero ->
  let '(from', lft') := merge_left lft from st in
  let '(to', rgt') := merge_right rgt to st in
  let t := join lft' (mkEntry from' to' st) rgt' in
  wf_map t /\
  (forall p, lookup t p = if p <? from then lookup lft p else if p <? to then Some st else lookup rgt p).
Proof.
  intros Hl Hr Hf Ht Cl Cr Hst.
  pose proof (merge_left_spec lft from st Hl Hf Cl Hst) as Sl.
  pose proof (merge_right_spec rgt to st Hr ltac:(lia) Cr Hst) as Sr.
  destruct (merge_left lft from st) as [from' lft'], (merge_right rgt to st) as [to' rgt'].
  destruct Sl as (Hf'&Wl&Cl'&Al&Ll), Sr as (Ht'&Wr&Cr'&Ar&Lr).
  set (x := mkEntry from' to' st).
  assert (from' <= istart x) by (simpl; lia). assert (istart x < iend x) by (simpl; lia).
  assert (iend x <= to') by (simpl; lia).
  split.
  - split; [by eapply (wf_join 0 lft' from' x to' rgt')|].
    rewrite elements_join. apply canon_app. split_and!; [done| |].
    + simpl. split_and!; [done| |done]. destruct (elements rgt') as [|y l]; [done|].
      intros Hy. by apply not_eq_sym, (Ar y).
    + intros y z Hy [= <-] Hs. by apply (Al y).
  - intros p. rewrite (lookup_join 0 lft' from' x to' rgt' (2 ^ 64)) by done. simpl.
    rewrite Ll, Lr. zcases; try done; lia.
Qed.

(** What [Set] does, on every branch. *)
Lemma Set_spec m from to st :
  wf_map m -> 0 <= from -> to <= 2 ^ 64 ->
  wf_map (Set_ m from to st) /\
  (forall p, Get (Set_ m from to st) p = if (from <=? p) && (p <? to) then st else Get m p).
Proof.
  intros Hm Hf Ht. unfold Set_. destruct (from >=? to) eqn:E; zbool.
  { split; [done|]. intros p. zcases; [lia|done]. }
  pose proof (wf_map_tree _ Hm) as Hwf.
  assert (0 <= from <= 2 ^ 64) as Hf' by lia. assert (from <= to <= 2 ^ 64) as Ht' by lia.
  destruct (wf_split 0 m (2 ^ 64) from Hwf Hf') as [Hl Hrest].
  destruct (split_elements 0 m (2 ^ 64) from (wf_chain _ _ _ Hwf)) as [El Erest].
  pose proof (fun p => proj1 (lookup_split 0 m (2 ^ 64) from p Hwf Hf')) as Ll.
  pose proof (fun p => proj2 (lookup_split 0 m (2 ^ 64) from p Hwf Hf')) as Lrest.
  destruct (split m from) as [lft rest]. simpl in *.
  destruct (wf_split from rest (2 ^ 64) to Hrest Ht') as [_ Hr].
  destruct (split_elements from rest (2 ^ 64) to (wf_chain _ _ _ Hrest)) as [_ Er].
  pose proof (fun p => proj2 (lookup_split from rest (2 ^ 64) to p Hrest Ht')) as Lr.
  destruct (split rest to) as [mid rgt]. simpl in *.
  assert (canon (elements lft)) as Cl by (rewrite El; apply canon_below, Hm).
  assert (canon (elements rgt)) as Cr by (rewrite Er, Erest; apply canon_above, canon_above, Hm).
  clear El Erest Er mid.
  case_bool_decide as Hst.
  - pose proof (clear_join_spec lft rgt from to Hl Hr Hf ltac:(lia) Cl Cr) as [W L].
    unfold clear_join in *. split; [done|]. intros p.
    rewrite !Get_lookup, L, Ll, Lr, Lrest by done. zcases; try done; lia.
  - pose proof (set_join_spec lft rgt from to st Hl Hr Hf ltac:(lia) Cl Cr Hst) as S.
    destruct (merge_left lft from st) as [from' lft'], (merge_right rgt to st) as [to' rgt'].
    destruct S as [W L]. split; [done|]. intros p.
    rewrite !Get_lookup, L, Ll, Lr, Lrest by done. zcases; try done; lia.
Qed.

(** ** Properties *)

(** A history of calls of [Set] on an empty map, and the state it gives a page
    when each call is read as an update of a function. *)
Definition apply_sets (ops : list (Z * Z * State)) : Map :=
  fold_left (fun m '(from, to, st) => Set_ m from to st) ops Nil.

Definition state_after (ops : list (Z * Z * State)) (p : Z) : State :=
  fold_left (fun acc '(from, to, st) => if (from <=? p) && (p <? to) then st else acc) ops State_zero.

Definition in_range (op : Z * Z * State) : Prop := let '(from, to, _) := op in u64 from /\ u64 to.

Lemma sets_from m ops p :
  wf_map m -> Forall in_range ops ->
  let m' := fold_left (fun m '(from, to, st) => Set_ m from to st) ops m in
  wf_map m' /\
  Get m' p = fold_left (fun acc '(from, to, st) => if (from <=? p) && (p <? to) then st else acc) ops (Get m p).
Proof.
  revert m. induction ops as [|[[from to] st] ops IH]; simpl; intros m Hm Hops; [done|].
  apply Forall_cons in Hops as [[Hf Ht] Hops]. unfold u64 in *.
  destruct (Set_spec m from to st Hm) as [Hw Hg]; [lia..|].
  specialize (IH (Set_ m from to st) Hw Hops). by rewrite Hg in IH.
Qed.

Lemma wf_map_nil : wf_map Nil.
Proof. by split; [apply wf_nil|]. Qed.

(** C36: after any history of [Set] calls the map is a balanced, ordered tree in
    canonical form (no stored default, no two equal runs that touch), and [Get]
    reads every page as the last call that covered it set it: the map refines a
    function from pages to states. *)
Theorem sets_refine_function (ops : list (Z * Z * State)) :
  Forall in_range ops ->
  wf_map (apply_sets ops) /\ (forall p, Get (apply_sets ops) p = state_after ops p).
Proof.
  intros Hops. split.
  - by apply (sets_from Nil ops 0 wf_map_nil).
  - intros p. by apply (sets_from Nil ops p wf_map_nil).
Qed.

Definition sample_ops : list (Z * Z * State) :=
  [(0, 10, mkState 1 false); (10, 20, mkState 1 false); (5, 7, State_zero); (30, 40, mkState 2 true)].

Lemma sets_refine_function_witness :
  Get (apply_sets sample_ops) 15 = mkState 1 false /\
  wf_map (apply_sets sample_ops) /\ (forall p, Get (apply_sets sample_ops) p = state_after sample_ops p).
Proof.
  split; [by vm_compute|]. apply (sets_refine_function sample_ops).
  unfold sample_ops, in_range, u64. repeat constructor; lia.
Defined.

(** [Run] reports the state of its first page and the end of a run of that
    state: every page of the run has it, the run is not empty, it stays within
    the limit, and it is as long as it can be. *)
Theorem Run_maximal (m : Map) (from limit : Z) :
  wf_map m -> from < limit ->
  let '(st, e) := Run m from limit in
  st = Get m from /\ from < e <= limit /\
  (forall q, from <= q < e -> Get m q = st) /\
  (e < limit -> Get m e <> st).
Proof.
  intros Hm Hlim. pose proof (wf_chain _ _ _ (wf_map_tree _ Hm)) as Hc.
  rewrite (Run_elements _ _ _ _ _ Hc).
  pose proof (lrun_state _ _ _ from limit Hc) as E1.
  pose proof (lrun_run _ _ _ from limit Hc (wf_map_canon _ Hm) Hlim) as (E2&E3&E4).
  destruct (lrun (elements m) from limit) as [st e]. simpl in *. subst st.
  rewrite !Get_state_at by done. split_and!; try done; try lia.
  - intros q Hq. rewrite !Get_state_at by done. by apply E3.
Qed.

Lemma Run_maximal_witness :
  Run (apply_sets sample_ops) 8 100 = (mkState 1 false, 20) /\ Get (apply_sets sample_ops) 20 <> mkState 1 false.
Proof.
  assert (wf_map (apply_sets sample_ops)) as Hw.
  { unfold apply_sets. apply (sets_from Nil sample_ops 0 wf_map_nil).
    unfold sample_ops, in_range, u64. repeat constructor; lia. }
  assert (Run (apply_sets sample_ops) 8 100 = (mkState 1 false, 20)) as Er by (vm_compute; reflexivity).
  pose proof (Run_maximal (apply_sets sample_ops) 8 100 Hw ltac:(lia)) as Hr.
  rewrite Er in Hr. split; [exact Er|]. apply Hr. lia.
Defined.

End PageRanges.
