(* ===== verification/Overlay.v ===== *)
(** * The dirty overlay

    [volume/overlay.go]: the writes of one open volume since its selected
    checkpoint, as an interval tree of extents, and the operations that read
    through it and that count what the next checkpoint publishes.  The tree is
    the one of file [Interval]; this file has its extents, the reads and the
    unit counts.  A volume read through its overlay is a byte image: the last
    write or discard that covered a byte, or the inherited byte. *)

From S2P Require Import Prelude Interval.

Module Overlay.

(** An extent's payload [None] is Go's nil: explicit zeroes. *)
Record extent := mkExtent {
  start : Z;
  stop : Z;
  data : option (list byte);
  generation : Z;
}.

(** The byte an extent gives a position of its run. *)
Definition byte_at (e : extent) (p : Z) : byte :=
  match data e with
  | None => Byte.x00
  | Some d => default Byte.x00 (zget d (p - start e))
  end.

#[export] Instance extent_item : Item extent (byte * Z) := {
  istart := start;
  iend := stop;
  cut_left p e := mkExtent (start e) p ((fun d => slice d 0 (p - start e)) <$> data e) (generation e);
  cut_right p e := mkExtent p (stop e) ((fun d => slice d (p - start e) (zlen d)) <$> data e) (generation e);
  ival e p := (byte_at e p, generation e);
}.

Abbreviation extentIndex := (node extent).

Definition extentBranch : extentIndex -> extent -> extentIndex -> extentIndex := branch.
Definition balanceExtent : extentIndex -> extent -> extentIndex -> extentIndex := balance.
Definition joinExtent : extentIndex -> extent -> extentIndex -> extentIndex := join.
Definition splitExtents : extentIndex -> Z -> extentIndex * extentIndex := split.
Definition replaceExtent : extentIndex -> extent -> extentIndex := replace.

(** [between] visits only the extents that overlap a range, in order. *)
Fixpoint visit (n : extentIndex) (from to : Z) : list extent :=
  match n with
  | Nil => []
  | Node item lft rgt _ _ =>
    if start item >=? to then visit lft from to
    else if stop item <=? from then visit rgt from to
    else visit lft from to ++ item :: visit rgt from to
  end.

Definition between (n : extentIndex) (from to : Z) : list extent :=
  if from <? to then visit n from to else [].

Definition all (n : extentIndex) : list extent := between n 0 (2 ^ 64 - 1).

(** [retain] drops every extent a checkpoint taken at generation [through]
    published. *)
Definition retain (n : extentIndex) (through : Z) : extentIndex :=
  fold_left (fun kept item => if generation item >? through then joinExtent kept item Nil else kept)
    (all n) Nil.

(** ** Reading through the overlay *)

(** The bytes a read copies out of one extent. *)
Definition target (e : extent) (from to : Z) : list byte :=
  match data e with
  | None => zeros (to - from)
  | Some d => slice d (from - start e) (to - start e)
  end.

Section Read.
Context {E : Type}.

(** [inherited] reads the bytes the VM did not write: an offset and a length to
    the bytes there, or an error. *)
Definition inherited : Type := Z -> Z -> result E (list byte).

Definition fill (base : inherited) (dst : list byte) (offset cursor upto : Z) : result E (list byte) :=
  let? seg := base cursor (upto - cursor) in
  Ok (write_at dst (cursor - offset) seg).

(** [cause] is what [context.Cause] reports: the error of a cancelled call. *)
Fixpoint read_items (cause : option E) (base : inherited) (items : list extent) (offset upto cursor : Z)
  (dst : list byte) : result E (list byte) :=
  match items with
  | [] =>
    if cursor <? upto then fill base dst offset cursor upto
    else match cause with Some e => Err e | None => Ok dst end
  | item :: items =>
    let from := Z.max (start item) offset in
    let? dst := if cursor <? from then fill base dst offset cursor from else Ok dst in
    let to := Z.min (stop item) upto in
    read_items cause base items offset upto to (write_at dst (from - offset) (target item from to))
  end.

(** The end of the range does not wrap: a caller has checked, as [validRange] does,
    that the range lies in the volume. *)
Definition readOverlay (cause : option E) (base : inherited) (overlay : extentIndex) (offset : Z)
  (dst : list byte) : result E (list byte) :=
  let upto := offset + zlen dst in
  read_items cause base (between overlay offset upto) offset upto offset dst.

End Read.
Arguments inherited E : clear implicits.

(** ** Units an overlay covers *)

Fixpoint covered (items : list extent) (size next : Z) : list (Z * Z) :=
  match items with
  | [] => []
  | item :: items =>
    let first := Z.max (start item / size) next in
    let limit := (stop item - 1) / size + 1 in
    if first >=? limit then covered items size next
    else (first, limit) :: covered items size limit
  end.

Definition coveredUnits (overlay : extentIndex) (size : Z) : list (Z * Z) := covered (all overlay) size 0.

(** [checkpoint.SectorSize] *)
Definition SectorSize : Z := 4096.

Definition dirtySectorCount (overlay : extentIndex) : Z :=
  fold_left (fun count '(first, limit) => count + (limit - first)) (coveredUnits overlay SectorSize) 0.

Definition dirtyPages (overlay : extentIndex) (pageSize : Z) : list Z :=
  flat_map (fun '(first, limit) => seqZ first (limit - first)) (coveredUnits overlay pageSize).

Definition sectorSpan (offset length : Z) : Z :=
  if length =? 0 then 0
  else ((offset + length - 1) / SectorSize - offset / SectorSize + 1) * SectorSize.

(** ** Lemmas *)

(** A payload is as long as its run. *)
Definition sized (e : extent) : Prop :=
  match data e with None => True | Some d => zlen d = stop e - start e end.

Definition overlaps (from to : Z) (e : extent) : Prop := start e < to /\ from < stop e.

#[export] Instance overlaps_dec from to e : Decision (overlaps from to e).
Proof. unfold overlaps. apply _. Defined.

Record wf_overlay (size : Z) (n : extentIndex) : Prop := {
  wf_overlay_tree : wf 0 n size;
  wf_overlay_sized : Forall sized (elements n);
}.

Lemma zget_slice_prefix {A} (d : list A) j k : k < j -> zget (slice d 0 j) k = zget d k.
Proof.
  intros ?. unfold zget, slice. zcases; [done|].
  rewrite lookup_take_lt by lia. by rewrite drop_0.
Qed.

Lemma zget_slice_suffix {A} (d : list A) i k : 0 <= i -> 0 <= k -> zget (slice d i (zlen d)) k = zget d (i + k).
Proof.
  intros ??. unfold zget, slice, zlen. zcases; try lia.
  rewrite take_ge by (rewrite length_drop; lia). rewrite lookup_drop. f_equal. lia.
Qed.

#[export] Instance extent_laws : ItemLaws extent (byte * Z).
Proof.
  split; try done; intros p x q Hp Hq; simpl; f_equal; unfold byte_at; simpl;
    destruct (data x) as [d|]; simpl; try done.
  - by rewrite zget_slice_prefix by (simpl in *; lia).
  - simpl in *. rewrite zget_slice_suffix by lia. do 2 f_equal. lia.
Qed.

Lemma sized_cut p e :
  istart e < p < iend e -> sized e -> sized (cut_left p e) /\ sized (cut_right p e).
Proof.
  unfold sized. simpl. destruct (data e) as [d|]; simpl; [|done]. intros Hp Hd.
  rewrite !zlen_slice by lia. lia.
Qed.

Lemma visit_filter lo n hi from to :
  chain lo (elements n) hi -> visit n from to = filter (overlaps from to) (elements n).
Proof.
  revert lo hi. induction n as [|x nl IHl nr IHr h c]; simpl; intros lo hi; [done|].
  intros (m&Hl&Hx&Hx'&Hr)%chain_app. simpl in *.
  rewrite filter_app, filter_cons, (IHl lo m), (IHr (stop x) hi) by done.
  assert (forall y, y ∈ elements nl -> stop y <= start x) as Bl.
  { intros y Hy. pose proof (chain_nonempty _ _ _ y Hl Hy) as (_&_&?). simpl in *. lia. }
  assert (forall y, y ∈ elements nr -> stop x <= start y /\ start y < stop y) as Br.
  { intros y Hy. pose proof (chain_nonempty _ _ _ y Hr Hy) as (?&?&?). simpl in *. lia. }
  assert (forall (l : list extent), (forall y, y ∈ l -> ~ overlaps from to y) -> filter (overlaps from to) l = []) as Hnil.
  { intros l Hn. destruct (filter (overlaps from to) l) as [|z k] eqn:Ez; [done|].
    assert (z ∈ filter (overlaps from to) l) as [? ?]%list_elem_of_filter by (rewrite Ez; left).
    by destruct (Hn z). }
  destruct (start x >=? to) eqn:E1; zbool.
  - rewrite decide_False by (unfold overlaps; lia).
    rewrite (Hnil (elements nr)); [by rewrite app_nil_r|].
    intros y Hy%Br. unfold overlaps. lia.
  - destruct (stop x <=? from) eqn:E2; zbool.
    + rewrite decide_False by (unfold overlaps; lia).
      rewrite (Hnil (elements nl)); [done|].
      intros y Hy%Bl. unfold overlaps. lia.
    + rewrite decide_True by (unfold overlaps; lia). done.
Qed.

Lemma chain_filter lo (l : list extent) hi (P : extent -> Prop) `{!forall x, Decision (P x)} :
  chain lo l hi -> chain lo (filter P l) hi.
Proof.
  revert lo. induction l as [|x l IH]; simpl; intros lo; [done|]. intros (?&?&Hc).
  rewrite filter_cons. case_decide; simpl; auto.
  eapply chain_weaken; [by apply IH|simpl in *; lia..].
Qed.

Lemma lfind_filter lo (l : list extent) hi (P : extent -> Prop) `{!forall x, Decision (P x)} p :
  chain lo l hi ->
  lfind (filter P l) p = match lfind l p with Some x => if decide (P x) then Some x else None | None => None end.
Proof.
  revert lo. induction l as [|x l IH]; simpl; intros lo; [done|]. intros (?&?&Hc).
  rewrite filter_cons. specialize (IH _ Hc).
  destruct ((start x <=? p) && (p <? stop x)) eqn:E.
  - case_decide; simpl; rewrite ?E; [done|].
    rewrite IH. zbool. by rewrite (lfind_outside (stop x) l hi) by (done || lia).
  - case_decide; simpl; by rewrite ?E.
Qed.

Lemma lookup_between size n from to p :
  wf 0 n size -> from <= p < to -> llookup (between n from to) p = lookup n p.
Proof.
  intros Hn Hp. unfold between. zcases; [|lia].
  rewrite (visit_filter 0 n size) by apply Hn. rewrite (wf_lookup _ _ _ p Hn).
  unfold llookup. rewrite (lfind_filter 0 _ size) by apply Hn.
  destruct (lfind (elements n) p) as [x|] eqn:E; [|done]. apply lfind_Some in E as [_ ?].
  simpl in *. by rewrite decide_True by (unfold overlaps; lia).
Qed.

Lemma between_props size n from to :
  wf_overlay size n -> from < to ->
  chain 0 (between n from to) size /\ Forall sized (between n from to) /\
  Forall (overlaps from to) (between n from to).
Proof.
  intros [Hn Hs] Hlt. unfold between. zcases; [|lia].
  rewrite (visit_filter 0 n size) by apply Hn. split_and!.
  - apply chain_filter, Hn.
  - apply Forall_forall. intros x [_ ?]%list_elem_of_filter. by eapply Forall_forall in Hs.
  - apply Forall_forall. intros x [? ?]%list_elem_of_filter. done.
Qed.

(** ** Reads *)

(** The byte image of an overlay over an inherited one. *)
Definition over (n : extentIndex) (img : Z -> byte) (p : Z) : byte :=
  match lookup n p with Some (b, _) => b | None => img p end.

(** [base] serves the bytes of [img] for every range in which [held] has no
    byte. *)
Definition serves {E} (base : inherited E) (img : Z -> byte) (held : Z -> option (byte * Z)) (from to : Z) : Prop :=
  forall off len, from <= off -> 0 < len -> off + len <= to ->
    (forall p, off <= p < off + len -> held p = None) ->
    base off len = Ok (img <$> seqZ off len).

Lemma zlen_image (img : Z -> byte) off len : 0 <= len -> zlen (img <$> seqZ off len) = len.
Proof. intros. unfold zlen. rewrite length_fmap, length_seqZ. lia. Qed.

Lemma zget_image (img : Z -> byte) off len k :
  0 <= k < len -> zget (img <$> seqZ off len) k = Some (img (off + k)).
Proof.
  intros. unfold zget. zcases; [lia|]. rewrite list_lookup_fmap.
  rewrite lookup_seqZ_lt by lia. simpl. do 2 f_equal. lia.
Qed.

Lemma target_spec e from to :
  sized e -> start e <= from -> from <= to -> to <= stop e ->
  zlen (target e from to) = to - from /\
  forall k, 0 <= k < to - from -> zget (target e from to) k = Some (byte_at e (from + k)).
Proof.
  unfold sized, target, byte_at. destruct (data e) as [d|]; intros ? ? ? ?; split.
  - by rewrite zlen_slice by lia; lia.
  - intros k ?. rewrite zget_slice by lia.
    destruct (zget_lt d (from + k - start e) ltac:(lia)) as [b Hb].
    replace (from - start e + k) with (from + k - start e) by lia. by rewrite Hb.
  - apply zlen_zeros. lia.
  - intros k ?. by apply zget_zeros.
Qed.

Lemma fill_spec {E} (base : inherited E) img held dst offset cursor upto from to :
  serves base img held from to ->
  from <= cursor < upto -> upto <= to -> (forall p, cursor <= p < upto -> held p = None) ->
  offset <= cursor -> upto - offset <= zlen dst ->
  exists dst', fill base dst offset cursor upto = Ok dst' /\ zlen dst' = zlen dst /\
    forall i, zget dst' (i - offset) =
      if (cursor <=? i) && (i <? upto) then Some (img i) else zget dst (i - offset).
Proof.
  intros Hb ? ? Hh ? ?. unfold fill. rewrite Hb by (try lia; intros; apply Hh; lia).
  assert (zlen (img <$> seqZ cursor (upto - cursor)) = upto - cursor) as Hz by (apply zlen_image; lia).
  eexists. split; [done|]. split; [by apply zlen_write_at; lia|].
  intros i. rewrite zget_write_at by lia. rewrite Hz. zcases; try lia; [|done].
  rewrite zget_image by lia. do 2 f_equal. lia.
Qed.

Lemma read_items_spec {E} (base : inherited E) img held (items : list extent) lo hi offset upto cursor dst :
  chain lo items hi -> Forall sized items -> Forall (overlaps offset upto) items ->
  (forall i, cursor <= i < upto -> held i = llookup items i) ->
  serves base img held offset upto ->
  offset <= cursor -> cursor <= Z.max lo offset -> cursor <= upto -> zlen dst = upto - offset ->
  exists dst', read_items None base items offset upto cursor dst = Ok dst' /\ zlen dst' = zlen dst /\
    forall i, zget dst' (i - offset) =
      if (cursor <=? i) && (i <? upto)
      then Some (match held i with Some (b, _) => b | None => img i end)
      else zget dst (i - offset).
Proof.
  revert lo cursor dst. induction items as [|x items IH]; simpl; intros lo cursor dst Hc Hs Ho Hh Hb ? ? ? Hd.
  - destruct (cursor <? upto) eqn:E1; zbool.
    + edestruct (fill_spec base img held dst offset cursor upto) as (dst'&->&Hl&Hg); eauto; try lia.
      exists dst'. split_and!; try done. intros i. rewrite Hg.
      destruct ((cursor <=? i) && (i <? upto)) eqn:E2; [|done]. zbool. by rewrite Hh by lia.
    + exists dst. split_and!; try done. intros i. zcases; [lia|done].
  - destruct Hc as (Hc1&Hc2&Hc). apply Forall_cons in Hs as [Hx Hs]. apply Forall_cons in Ho as [Hov Ho].
    destruct Hov as [Hov1 Hov2]. simpl in *.
    set (from := Z.max (start x) offset). set (to := Z.min (stop x) upto).
    assert (exists dst1, (if cursor <? from then fill base dst offset cursor from else Ok dst) = Ok dst1 /\
      zlen dst1 = zlen dst /\ forall i, zget dst1 (i - offset) =
        if (cursor <=? i) && (i <? from) then Some (img i) else zget dst (i - offset)) as (dst1&->&Hl1&Hg1).
    { destruct (cursor <? from) eqn:E1; zbool.
      - eapply fill_spec; eauto; try lia.
        intros p ?. rewrite Hh by lia. rewrite (llookup_outside (start x) (x :: items) hi); [done| |lia].
        simpl. split_and!; try done; lia.
      - exists dst. split_and!; try done. intros i. zcases; [lia|done]. }
    destruct (target_spec x from to Hx) as [Ht Htg]; try lia.
    edestruct (IH (stop x) to (write_at dst1 (from - offset) (target x from to))) as (dst2&->&Hl2&Hg2);
      eauto; try lia.
    + intros i ?. rewrite Hh by lia. rewrite llookup_cons. simpl. zcases; [lia|done].
    + rewrite zlen_write_at; lia.
    + exists dst2. split_and!; [done|rewrite Hl2, zlen_write_at; lia|].
      intros i. rewrite Hg2. rewrite zget_write_at by lia. rewrite Ht, Hg1.
      destruct ((cursor <=? i) && (i <? upto)) eqn:E3; zbool.
      * rewrite (Hh i) by lia. rewrite llookup_cons. simpl.
        zcases; try lia; try done.
        -- rewrite Htg by lia. do 2 f_equal. lia.
        -- rewrite (llookup_outside (stop x) items hi); [done|done|lia].
      * zcases; try lia; done.
Qed.

Lemma readOverlay_spec {E} (base : inherited E) img size n offset dst :
  wf_overlay size n ->
  serves base img (lookup n) offset (offset + zlen dst) ->
  readOverlay None base n offset dst = Ok (over n img <$> seqZ offset (zlen dst)).
Proof.
  intros Hn Hb. unfold readOverlay. pose proof (zlen_nonneg dst).
  destruct (decide (0 < zlen dst)) as [Hpos|Hz].
  - destruct (between_props size n offset (offset + zlen dst) Hn ltac:(lia)) as (Hc&Hs&Ho).
    edestruct (read_items_spec base img (lookup n) (between n offset (offset + zlen dst)) 0 size
      offset (offset + zlen dst) offset dst) as (dst'&->&Hl&Hg); eauto; try lia.
    + intros i ?. symmetry. eapply lookup_between; [apply Hn|lia].
    + f_equal. apply list_eq_zget; [rewrite zlen_image; lia|]. intros i Hi.
      rewrite zget_image by lia. specialize (Hg (offset + i)).
      replace (offset + i - offset) with i in Hg by lia. rewrite Hg. zcases; try lia. done.
  - assert (zlen dst = 0) as Hz' by lia. rewrite Hz'. unfold between.
    destruct (offset <? offset + 0) eqn:E1; zbool; [lia|]. simpl.
    destruct (offset <? offset + 0) eqn:E2; zbool; [lia|]. by destruct dst.
Qed.

(** ** Retaining what a checkpoint did not publish *)

(** The largest volume the 64-bit [all] range reaches whole. *)
Definition addressable (size : Z) : Prop := size <= 2 ^ 64 - 1.

Lemma all_elements size n : wf 0 n size -> addressable size -> all n = elements n.
Proof.
  intros Hn Hs. unfold all, between. zcases; [|lia].
  rewrite (visit_filter 0 n size) by apply Hn.
  apply filter_all. intros x Hx. pose proof (chain_nonempty _ _ _ x (wf_chain _ _ _ Hn) Hx).
  unfold overlaps, addressable in *. simpl in *. lia.
Qed.

Definition newer (through : Z) (e : extent) : Prop := through < generation e.

#[export] Instance newer_dec through e : Decision (newer through e).
Proof. unfold newer. apply _. Defined.

Lemma retain_fold through items kept :
  avl kept ->
  let r := fold_left (fun kept item => if generation item >? through then joinExtent kept item Nil else kept) items kept in
  avl r /\ elements r = elements kept ++ filter (newer through) items.
Proof.
  revert kept. induction items as [|x items IH]; simpl; intros kept Hk.
  - by rewrite app_nil_r.
  - rewrite filter_cons. destruct (generation x >? through) eqn:E; zbool.
    + destruct (IH (joinExtent kept x Nil)) as [? He]; [by apply join_avl'|]. split; [done|].
      rewrite decide_True by (unfold newer; lia). rewrite He.
      unfold joinExtent. by rewrite elements_join, <- app_assoc.
    + rewrite decide_False by (unfold newer; lia). by apply IH.
Qed.

Lemma retain_spec size n through :
  wf_overlay size n -> addressable size ->
  wf_overlay size (retain n through) /\
  forall p, lookup (retain n through) p =
    match lookup n p with
    | Some (b, g) => if g >? through then Some (b, g) else None
    | None => None
    end.
Proof.
  intros [Hn Hs] Ha. unfold retain. rewrite (all_elements size n) by done.
  destruct (retain_fold through (elements n) Nil I) as [Havl He]. simpl in He.
  match goal with |- context [fold_left ?f ?l ?i] => set (r := fold_left f l i) in * end.
  assert (wf 0 r size) as Hr. { split; [done|]. rewrite He. apply chain_filter, Hn. }
  split; [split; [done|]|].
  - rewrite He. apply Forall_forall. intros x [_ ?]%list_elem_of_filter. by eapply Forall_forall in Hs.
  - intros p. rewrite (wf_lookup _ _ _ p Hr), (wf_lookup _ _ _ p Hn), He. unfold llookup.
    rewrite (lfind_filter 0 _ size) by apply Hn.
    destruct (lfind (elements n) p) as [x|]; simpl; [|done].
    case_decide as Hd; unfold newer in Hd; zcases; try done; lia.
Qed.

(** ** Units *)

Definition units (runs : list (Z * Z)) : list Z :=
  flat_map (fun '(first, limit) => seqZ first (limit - first)) runs.

Lemma StronglySorted_seqZ_app a b (l : list Z) :
  (forall p, p ∈ l -> b <= p) -> StronglySorted Z.lt l -> StronglySorted Z.lt (seqZ a (b - a) ++ l).
Proof.
  intros Hl Hs. remember (Z.to_nat (b - a)) as k eqn:Hk. revert a Hk.
  induction k as [|k IH]; intros a Hk.
  - by rewrite seqZ_nil by lia.
  - rewrite seqZ_cons by lia. simpl. replace (Z.pred (b - a)) with (b - Z.succ a) by lia. constructor.
    + apply IH. lia.
    + apply Forall_forall. intros p [Hp|Hp]%elem_of_app.
      * apply elem_of_seqZ in Hp. lia.
      * apply Hl in Hp. lia.
Qed.

Lemma covered_spec (items : list extent) size lo hi next :
  0 < size -> chain lo items hi ->
  (forall p, p ∈ units (covered items size next) <->
     next <= p /\ exists x, x ∈ items /\ start x / size <= p <= (stop x - 1) / size) /\
  StronglySorted Z.lt (units (covered items size next)).
Proof.
  intros Hsz. revert lo next. induction items as [|x items IH]; simpl; intros lo next.
  { intros _. split; [|constructor]. intros p. split; [by intros ?%elem_of_nil|].
    intros (_&y&?%elem_of_nil&_). done. }
  intros (Hlo&Hx&Hc).
  assert (forall y p, y ∈ items -> start y / size <= p -> (stop x - 1) / size <= p) as Hlater.
  { intros y p Hy Hp. pose proof (chain_nonempty _ _ _ y Hc Hy). simpl in *.
    etransitivity; [|apply Hp]. apply Z.div_le_mono; lia. }
  set (first := Z.max (start x / size) next). set (limit := (stop x - 1) / size + 1).
  destruct (first >=? limit) eqn:E; zbool.
  - destruct (IH (stop x) next Hc) as [Hm Hs]. split; [|done].
    intros p. rewrite Hm. split.
    + intros (?&y&?&?). split; [done|]. exists y. split; [by right|done].
    + intros (?&y&[->|?]%elem_of_cons&?); [|eauto]. exfalso.
      assert (start x / size <= (stop x - 1) / size) by (apply Z.div_le_mono; simpl in *; lia). lia.
  - destruct (IH (stop x) limit Hc) as [Hm Hs]. simpl. fold (units (covered items size limit)). split.
    + intros p. rewrite elem_of_app, elem_of_seqZ, Hm. split.
      * intros [?|(?&y&?&?)].
        -- split; [lia|]. exists x. split; [by left|lia].
        -- split; [lia|]. exists y. split; [by right|done].
      * intros (?&y&[->|Hy]%elem_of_cons&?); [left; lia|].
        destruct (decide (limit <= p)) as [?|?]; [right; eauto|left].
        specialize (Hlater y p Hy ltac:(lia)). lia.
    + apply StronglySorted_seqZ_app; [|done]. intros p Hp%Hm. lia.
Qed.

Lemma lookup_is_Some lo n hi q :
  wf lo n hi -> is_Some (lookup n q) <-> exists x, x ∈ elements n /\ start x <= q < stop x.
Proof.
  intros Hn. rewrite (wf_lookup _ _ _ q Hn). unfold llookup. rewrite fmap_is_Some. split.
  - intros [x [? ?]%lfind_Some]. eauto.
  - intros (x&Hx&?). destruct Hn as [_ Hc]. revert lo Hc. induction (elements n) as [|y l IH]; intros lo Hc.
    + by apply elem_of_nil in Hx.
    + simpl in *. destruct ((start y <=? q) && (q <? stop y)) eqn:E; [by eexists|].
      destruct Hc as (?&?&Hc). apply elem_of_cons in Hx as [->|Hx]; [|by eapply IH].
      apply andb_false_iff in E as [E|E]; zbool; lia.
Qed.

Lemma dirtyPages_spec size n pageSize :
  wf 0 n size -> addressable size -> 0 < pageSize ->
  StronglySorted Z.lt (dirtyPages n pageSize) /\
  forall p, p ∈ dirtyPages n pageSize <-> exists q, q / pageSize = p /\ is_Some (lookup n q).
Proof.
  intros Hn Ha Hp. unfold dirtyPages, coveredUnits. fold (units (covered (all n) pageSize 0)).
  rewrite (all_elements size n) by done.
  destruct (covered_spec (elements n) pageSize 0 size 0 Hp (wf_chain _ _ _ Hn)) as [Hm Hs].
  split; [done|]. intros p. rewrite Hm. split.
  - intros (?&x&Hx&?). pose proof (chain_nonempty _ _ _ x (wf_chain _ _ _ Hn) Hx). simpl in *.
    exists (Z.max (start x) (p * pageSize)). rewrite lookup_is_Some by done. split; [|exists x; split; [done|]].
    + apply Z.max_case_strong; intros ?; [|by apply Z.div_mul; lia].
      apply Z.le_antisymm; [lia|]. apply Z.div_le_lower_bound; lia.
    + assert (p * pageSize <= stop x - 1) by (pose proof (Z.mul_div_le (stop x - 1) pageSize); nia). lia.
  - intros (q&<-&Hq). apply (lookup_is_Some _ _ _ _ Hn) in Hq as (x&Hx&?).
    pose proof (chain_nonempty _ _ _ x (wf_chain _ _ _ Hn) Hx). simpl in *.
    split; [apply Z.div_pos; lia|]. exists x. split; [done|]. split; apply Z.div_le_mono; lia.
Qed.

Lemma dirtySectorCount_length n : dirtySectorCount n = zlen (dirtyPages n SectorSize).
Proof.
  unfold dirtySectorCount, dirtyPages.
  assert (Forall (fun r : Z * Z => r.1 <= r.2) (coveredUnits n SectorSize)) as Hr.
  { unfold coveredUnits. generalize 0. induction (all n) as [|x l IH]; intros nx; simpl; [constructor|].
    zcases; [done|]. constructor; [simpl; lia|done]. }
  fold (units (coveredUnits n SectorSize)).
  assert (forall acc, fold_left (fun count '(first, limit) => count + (limit - first)) (coveredUnits n SectorSize) acc
    = acc + zlen (units (coveredUnits n SectorSize))) as ->; [|lia].
  induction Hr as [|[a b] l Hab _ IH]; simpl; intros acc; [unfold zlen; simpl; lia|].
  rewrite IH. fold (units l). rewrite zlen_app. unfold zlen at 2. rewrite length_seqZ. simpl in *. lia.
Qed.

(** ** Histories

    Every overlay of a running volume comes from the empty one by laying extents
    over it and by dropping the generations a checkpoint published. *)

Inductive edit :=
  | Lay (e : extent)
  | Retain (through : Z).

Definition edit_overlay (n : extentIndex) (ed : edit) : extentIndex :=
  match ed with Lay e => replaceExtent n e | Retain through => retain n through end.

Definition history (edits : list edit) : extentIndex := fold_left edit_overlay edits Nil.

Definition edit_ok (size : Z) (ed : edit) : Prop :=
  match ed with
  | Lay e => 0 <= start e /\ start e < stop e /\ stop e <= size /\ sized e
  | Retain _ => True
  end.

(** What the overlay holds at a byte: the byte of the last extent laid over it
    with that extent's generation, until its generation is dropped. *)
Definition edit_bytes (held : Z -> option (byte * Z)) (ed : edit) (p : Z) : option (byte * Z) :=
  match ed with
  | Lay e => if (start e <=? p) && (p <? stop e) then Some (byte_at e p, generation e) else held p
  | Retain through =>
    match held p with
    | Some (b, g) => if g >? through then Some (b, g) else None
    | None => None
    end
  end.

Definition history_bytes (edits : list edit) : Z -> option (byte * Z) := fold_left edit_bytes edits (fun _ => None).

Lemma edit_spec size n ed :
  wf_overlay size n -> addressable size -> edit_ok size ed ->
  wf_overlay size (edit_overlay n ed) /\ forall p, lookup (edit_overlay n ed) p = edit_bytes (lookup n) ed p.
Proof.
  intros Hn Ha. destruct ed as [e|through]; simpl; [|intros _; by apply retain_spec].
  intros (?&?&?&?). destruct Hn as [Hw Hs]. split; [split|].
  - by apply wf_replace.
  - apply (Forall_replace sized 0 n size); try done. by intros; apply sized_cut.
  - intros p. unfold replaceExtent. by rewrite (lookup_replace 0 n size) by done.
Qed.

Lemma history_from size edits n held :
  addressable size -> Forall (edit_ok size) edits -> wf_overlay size n -> (forall p, lookup n p = held p) ->
  wf_overlay size (fold_left edit_overlay edits n) /\
  forall p, lookup (fold_left edit_overlay edits n) p = fold_left edit_bytes edits held p.
Proof.
  intros Ha Hed. revert n held. induction Hed as [|ed edits He _ IH]; simpl; intros n held Hn Hl; [done|].
  destruct (edit_spec size n ed Hn Ha He) as [Hn' Hl']. apply IH; [done|].
  intros p. rewrite Hl'. unfold edit_bytes. by destruct ed; rewrite Hl.
Qed.

Lemma history_spec size edits :
  addressable size -> Forall (edit_ok size) edits -> 0 <= size ->
  wf_overlay size (history edits) /\ forall p, lookup (history edits) p = history_bytes edits p.
Proof.
  intros Ha Hed Hsz. apply (history_from size); [done|done| |done].
  split; [split|constructor]; simpl; [done|lia].
Qed.

(** C8: after any history of writes, discards and published checkpoints, the
    overlay holds at every byte the last extent laid over it whose generation is
    not published yet, its tree is no deeper than twice the logarithm of its
    extents, and a read through it returns those bytes over the inherited ones,
    asking the inherited source only for runs the overlay holds no byte of. *)
Theorem overlay_reads_last_edits {E} (base : inherited E) img size edits offset dst :
  addressable size -> 0 <= size -> Forall (edit_ok size) edits ->
  serves base img (history_bytes edits) offset (offset + zlen dst) ->
  2 ^ depth (history edits) <= (Interval.size (history edits) + 1) ^ 2 /\
  readOverlay None base (history edits) offset dst =
    Ok ((fun p => match history_bytes edits p with Some (b, _) => b | None => img p end) <$> seqZ offset (zlen dst)).
Proof.
  intros Ha Hsz Hed Hb. destruct (history_spec size edits Ha Hed Hsz) as [Hn Hl]. split.
  - rewrite Z.pow_2_r. apply avl_depth_square, Hn.
  - rewrite (readOverlay_spec base img size).
    + f_equal. apply list_fmap_ext. intros _ p _. unfold over. by rewrite Hl.
    + done.
    + intros off len ??? Hh. apply Hb; try done. intros p Hp. rewrite <- Hl. by apply Hh.
Qed.


(** ** Witnesses *)

(** A write of two bytes across a sector boundary at generation 1, a discard at
    generation 2 over the second of them, and the checkpoint of generation 1. *)
Definition sample_edits : list edit :=
  [Lay (mkExtent 4095 4097 (Some [Byte.x01; Byte.x02]) 1); Lay (mkExtent 4096 8192 None 2); Retain 1].

Lemma sample_edits_ok : Forall (edit_ok 16384) sample_edits.
Proof. unfold sample_edits. repeat constructor; simpl; lia. Qed.

Definition sample_base : inherited unit := fun off len => Ok ((fun _ => Byte.xaa) <$> seqZ off len).

Lemma overlay_reads_last_edits_witness :
  readOverlay None sample_base (history sample_edits) 4094 (zeros 4) = Ok [Byte.xaa; Byte.xaa; Byte.x00; Byte.x00].
Proof.
  etransitivity.
  - apply (overlay_reads_last_edits sample_base (fun _ => Byte.xaa) 16384 sample_edits 4094 (zeros 4)).
    + unfold addressable. lia.
    + lia.
    + exact sample_edits_ok.
    + intros off len _ _ _ _. reflexivity.
  - reflexivity.
Defined.


End Overlay.
