(* ===== verification/ControlRecord.v ===== *)
(** * The control record

    [control/control.go], [control/tenant.go], [control/lineage.go] and
    [control/record.go]: checkpoint sequences, VM identities and the object
    keys they name, and the record itself, with the set operations on its pins
    and kept checkpoints, its validity, and its message form.  The protobuf
    codec between a message and the bytes of an object is third-party code: it
    is the class [Wire], whose one law is that a message the encoder accepted
    decodes to itself. *)

From S2P Require Import Prelude.
From Stdlib Require Import Ascii String.

#[local] Open Scope string_scope.
#[local] Open Scope Z_scope.

(** ** Errors

    An error is the list of the sentinels [errors.Is] finds in it, so
    [errors.Join] is concatenation and a wrapped sentinel is a singleton. *)
Inductive sentinel :=
| ErrInvalidConfig | ErrExists | ErrCorrupt | ErrFenced | ErrClosed | ErrMoved
| ErrEpochExhausted | ErrSequence | ErrTooManyPins | ErrNotPublished
| ErrTooManyKept | ErrNotKept | ErrForked | ErrTooManyJournals
| errAdopted
| ErrNotFound | ErrPrecondition
(** Every other failure of the store or of a cancelled context. *)
| ErrOther.

#[export] Instance sentinel_eq_dec : EqDecision sentinel.
Proof. solve_decision. Defined.

Abbreviation error := (list sentinel).

Definition Is (e : error) (s : sentinel) : bool := bool_decide (s ∈ e).

(** ** Sequences *)
Module Control.

Definition formatVersion : Z := 6.
Definition nonceSize : Z := 16.
Definition maximumRecordSize : Z := Z.shiftl 1 20.
Definition MaximumPins : Z := 4096.
Definition MaximumKept : Z := 4096.
Definition MaximumJournals : Z := 2.
Definition MinimumEpoch : Z := 1.
Definition MaximumCreateEpoch : Z := Z.shiftl 1 31 - 1.
Definition MaximumEpoch : Z := 2 ^ 32 - 1.
Definition MaximumCounter : Z := 2 ^ 32 - 1.

(** The shift discards the bits that leave a 64-bit word. *)
Definition Sequence (epoch counter : Z) : Z := Z.lor (wrap64 (Z.shiftl epoch 32)) counter.
Definition EpochOf (sequence : Z) : Z := Z.shiftr sequence 32.
Definition CounterOf (sequence : Z) : Z := Z.land sequence (2 ^ 32 - 1).

Definition ValidSequence (epoch sequence : Z) : bool :=
  (epoch >=? MinimumEpoch) && (epoch <=? MaximumEpoch) &&
  (EpochOf sequence =? epoch) && (CounterOf sequence >=? 1).

Definition ValidCreateSequence (sequence : Z) : bool :=
  (EpochOf sequence <=? MaximumCreateEpoch) && ValidSequence (EpochOf sequence) sequence.

(** ** Identities and object keys *)

Definition TemplatePrefix : string := "template-".
Definition TenantPrefix : string := "tenants/".
Definition RecordPrefix : string := "control/".
Definition maximumTenant : Z := 63.

Definition slen (s : string) : Z := Z.of_nat (String.length s).

(** [strings.Cut] at a slash. *)
Fixpoint cut_slash (s : string) : string * string * bool :=
  match s with
  | EmptyString => (EmptyString, EmptyString, false)
  | String c s =>
    if (c =? "/")%char then (EmptyString, s, true)
    else let '(before, after, found) := cut_slash s in (String c before, after, found)
  end.

(** [strings.CutPrefix] *)
Fixpoint cut_prefix (s prefix : string) {struct prefix} : option string :=
  match prefix, s with
  | EmptyString, _ => Some s
  | String p prefix, String c s => if (c =? p)%char then cut_prefix s prefix else None
  | String _ _, EmptyString => None
  end.

Definition HasPrefix (s prefix : string) : bool :=
  match cut_prefix s prefix with Some _ => true | None => false end.

Definition char_in (lo hi c : ascii) : bool :=
  (nat_of_ascii lo <=? nat_of_ascii c)%nat && (nat_of_ascii c <=? nat_of_ascii hi)%nat.

Fixpoint all_chars (f : ascii -> bool) (s : string) : bool :=
  match s with EmptyString => true | String c s => f c && all_chars f s end.

Definition tenant_char (c : ascii) : bool :=
  char_in "a" "z" c || char_in "0" "9" c || (c =? "-")%char.

Definition ValidTenant (tenant : string) : bool :=
  match tenant with
  | EmptyString => false
  | String c _ =>
    negb (slen tenant >? maximumTenant) && negb (c =? "-")%char && all_chars tenant_char tenant
  end.

(** A character below 0x80 is a rune of its own and every byte of a longer rune
    is at least 0x80, so the runes [ContainsFunc] refuses are bytes. *)
Definition name_char (c : ascii) : bool :=
  negb ((c =? "/")%char || (nat_of_ascii c <? 32)%nat || (nat_of_ascii c =? 127)%nat).

Definition validName (name : string) : bool :=
  negb ((name =? "")%string || (slen name >? 256) || (name =? ".")%string || (name =? "..")%string) &&
  all_chars name_char name.

(** [utf8.ValidString]: the accepted ranges of a rune's first byte decide its
    length and the range of its second byte. *)
Definition continuation (lo hi : nat) (c : ascii) : bool :=
  (lo <=? nat_of_ascii c)%nat && (nat_of_ascii c <=? hi)%nat.

Fixpoint valid_utf8 (s : string) : bool :=
  match s with
  | EmptyString => true
  | String c0 s0 =>
    let n := nat_of_ascii c0 in
    if (n <? 128)%nat then valid_utf8 s0
    else if (n <? 194)%nat then false
    else if (n <? 224)%nat then
      match s0 with
      | String c1 s1 => continuation 128 191 c1 && valid_utf8 s1
      | _ => false
      end
    else if (n <? 240)%nat then
      match s0 with
      | String c1 (String c2 s2) =>
        continuation (if (n =? 224)%nat then 160 else 128) (if (n =? 237)%nat then 159 else 191) c1 &&
        continuation 128 191 c2 && valid_utf8 s2
      | _ => false
      end
    else if (n <? 245)%nat then
      match s0 with
      | String c1 (String c2 (String c3 s3)) =>
        continuation (if (n =? 240)%nat then 144 else 128) (if (n =? 244)%nat then 143 else 191) c1 &&
        continuation 128 191 c2 && continuation 128 191 c3 && valid_utf8 s3
      | _ => false
      end
    else false
  end.

Definition ValidID (id : string) : bool :=
  if (slen id >? 256) || negb (valid_utf8 id) then false
  else
    let '(tenant, name, found) := cut_slash id in
    if negb found then validName id
    else ValidTenant tenant && validName name.

Definition SplitID (id : string) : string * string :=
  let '(tenant, name, found) := cut_slash id in
  if negb found then ("", id) else (tenant, name).

Definition TenantOf (id : string) : string := (SplitID id).1.

Definition IsTemplate (id : string) : bool := HasPrefix (SplitID id).2 TemplatePrefix.

Definition Public (id : string) : bool := (TenantOf id =? "")%string && IsTemplate id.

Definition InTenant (tenant name : string) : string :=
  if (tenant =? "")%string then name else tenant ++ "/" ++ name.

Definition TenantNamespace (tenant : string) : string :=
  if (tenant =? "")%string then "" else TenantPrefix ++ tenant ++ "/".

Definition Namespace (id : string) : string := TenantNamespace (TenantOf id).

Definition RecordName (id : string) : string := Namespace id ++ RecordPrefix ++ (SplitID id).2.

Definition CutNamespace (key : string) : option (string * string) :=
  match cut_prefix key TenantPrefix with
  | None => Some ("", key)
  | Some inside =>
    let '(tenant, rest, found) := cut_slash inside in
    if negb found || negb (ValidTenant tenant) then None else Some (tenant, rest)
  end.

(** [platform.NewObjectKey] *)
Definition NewObjectKey (value : string) : result error string :=
  if (value =? "")%string || (slen value >? 1024) || negb (valid_utf8 value) ||
     negb (all_chars (fun c => negb (nat_of_ascii c =? 0)%nat) value)
  then Err [ErrOther] else Ok value.

(** [Client.key], for a client with the given prefix. *)
Definition key (prefix vm : string) : result error string :=
  if negb (ValidID vm) then Err [ErrInvalidConfig] else NewObjectKey (prefix ++ RecordName vm).

(** ** The record *)

Record Ref := mkRef { VM : string; Seq : Z }.

Definition zeroRef : Ref := mkRef "" 0.

#[export] Instance Ref_eq_dec : EqDecision Ref.
Proof. solve_decision. Defined.

Definition IsZero (r : Ref) : bool := bool_decide (r = zeroRef).

Record Journal := mkJournal {
  Disk : list byte;
  Generation : Z;
  jEpoch : Z;
  Covered : Z;
}.

#[export] Instance Journal_eq_dec : EqDecision Journal.
Proof. solve_decision. Defined.

(** [Time] is the instant in nanoseconds since the Unix epoch, of any size: a
    [time.Time] reaches further than a record keeps. *)
Record Kept := mkKept { kSequence : Z; Time : Z; State : bool }.

#[export] Instance Kept_eq_dec : EqDecision Kept.
Proof. solve_decision. Defined.

Record Record_ := mkRecord {
  rVM : string;
  Epoch : Z;
  Nonce : list byte;
  Selected : Z;
  Created : bool;
  Pinned : list Z;
  KeptList : list Kept;
  Journals : list Journal;
}.

#[export] Instance Record_eq_dec : EqDecision Record_.
Proof. solve_decision. Defined.

Definition with_selected (r : Record_) (sequence : Z) (created : bool) : Record_ :=
  mkRecord (rVM r) (Epoch r) (Nonce r) sequence created (Pinned r) (KeptList r) (Journals r).
Definition with_pinned (r : Record_) (pins : list Z) : Record_ :=
  mkRecord (rVM r) (Epoch r) (Nonce r) (Selected r) (Created r) pins (KeptList r) (Journals r).
Definition with_kept (r : Record_) (kept : list Kept) : Record_ :=
  mkRecord (rVM r) (Epoch r) (Nonce r) (Selected r) (Created r) (Pinned r) kept (Journals r).
Definition with_journals (r : Record_) (journals : list Journal) : Record_ :=
  mkRecord (rVM r) (Epoch r) (Nonce r) (Selected r) (Created r) (Pinned r) (KeptList r) journals.
Definition with_epoch (r : Record_) (epoch : Z) (nonce : list byte) : Record_ :=
  mkRecord (rVM r) epoch nonce (Selected r) (Created r) (Pinned r) (KeptList r) (Journals r).

Definition IsPinned (r : Record_) (sequence : Z) : bool := bool_decide (sequence ∈ Pinned r).

Definition keptSequences (r : Record_) : list Z := kSequence <$> KeptList r.

Definition IsKept (r : Record_) (sequence : Z) : bool :=
  existsb (fun kept => kSequence kept =? sequence) (KeptList r).

(** [slices.Compact] *)
Fixpoint compact (l : list Z) : list Z :=
  match l with
  | [] => []
  | x :: l => match l with
              | [] => [x]
              | y :: _ => if x =? y then compact l else x :: compact l
              end
  end.

(** [slices.Sort] on integers has one answer: the sorted permutation. *)
Definition Protected (r : Record_) : list Z :=
  compact (merge_sort Z.le (Pinned r ++ keptSequences r)).

Definition admits (r : Record_) (sequence : Z) : option error :=
  if negb (IsPinned r sequence) && (zlen (Pinned r) >=? MaximumPins) then Some [ErrTooManyPins] else None.

(** [slices.Insert] before the first element the predicate holds of. *)
Fixpoint insert_before {A} (stop : A -> bool) (x : A) (l : list A) : list A :=
  match l with
  | [] => [x]
  | y :: l => if stop y then x :: y :: l else y :: insert_before stop x l
  end.

Definition withPin (r : Record_) (sequence : Z) : list Z :=
  if IsPinned r sequence then Pinned r
  else insert_before (fun existing => existing >? sequence) sequence (Pinned r).

Definition withKept (r : Record_) (kept : Kept) : result error (list Kept) :=
  if IsKept r (kSequence kept) then Ok (KeptList r)
  else if zlen (KeptList r) >=? MaximumKept then Err [ErrTooManyKept]
  else Ok (insert_before (fun existing => kSequence existing >? kSequence kept) kept (KeptList r)).

Definition withoutKept (r : Record_) (sequence : Z) : list Kept :=
  filter (fun kept => ~ kSequence kept = sequence) (KeptList r).

Definition kept_equal (a b : Kept) : bool :=
  (kSequence a =? kSequence b) && (Time a =? Time b) && Bool.eqb (State a) (State b).

Fixpoint equal_func {A} (eq : A -> A -> bool) (l k : list A) : bool :=
  match l, k with
  | [], [] => true
  | x :: l, y :: k => eq x y && equal_func eq l k
  | _, _ => false
  end.

Definition equal (r other : Record_) : bool :=
  (rVM r =? rVM other)%string && (Epoch r =? Epoch other) && bool_decide (Nonce r = Nonce other) &&
  (Selected r =? Selected other) && Bool.eqb (Created r) (Created other) &&
  bool_decide (Pinned r = Pinned other) && equal_func kept_equal (KeptList r) (KeptList other) &&
  bool_decide (Journals r = Journals other).

Definition mine (r : Record_) (epoch : Z) (nonce : list byte) : bool :=
  (Epoch r =? epoch) && bool_decide (Nonce r = nonce).

Fixpoint ascending_from (previous : option Z) (sequences : list Z) : bool :=
  match sequences with
  | [] => true
  | sequence :: rest =>
    if (sequence =? 0) || match previous with Some p => p >=? sequence | None => false end then false
    else ascending_from (Some sequence) rest
  end.

Definition ascending (sequences : list Z) : bool := ascending_from None sequences.

Definition zeroDisk : list byte := zeros 16.

Fixpoint valid_journals_from (epoch : Z) (previous : option Z) (journals : list Journal) : bool :=
  match journals with
  | [] => true
  | journal :: rest =>
    if bool_decide (Disk journal = zeroDisk) || (jEpoch journal <? MinimumEpoch) || (jEpoch journal >? epoch) ||
       match previous with Some p => p >=? jEpoch journal | None => false end
    then false else valid_journals_from epoch (Some (jEpoch journal)) rest
  end.

Definition validJournals (r : Record_) : bool :=
  if zlen (Journals r) >? MaximumJournals then false
  else valid_journals_from (Epoch r) None (Journals r).

Definition valid (r : Record_) : bool :=
  ValidID (rVM r) && (zlen (Nonce r) =? nonceSize) && (Epoch r >=? MinimumEpoch) && (Epoch r <=? MaximumEpoch) &&
  negb (Selected r =? 0) && (zlen (Pinned r) <=? MaximumPins) && (zlen (KeptList r) <=? MaximumKept) &&
  ascending (Pinned r) && ascending (keptSequences r) && validJournals r.

(** ** Message form

    A field of the generated messages is absent or present; a repeated field is
    a list.  [m_unknown] holds the unknown fields the decoder kept. *)

Record KeptMessage := mkKeptMessage {
  km_sequence : option Z; km_time : option Z; km_state : option bool; km_unknown : list byte;
}.

Record JournalMessage := mkJournalMessage {
  jm_disk : option (list byte); jm_generation : option Z; jm_epoch : option Z; jm_covered : option Z;
  jm_unknown : list byte;
}.

Record Message := mkMessage {
  m_version : option Z;
  m_vm : option string;
  m_epoch : option Z;
  m_nonce : option (list byte);
  m_selected : option Z;
  m_pinned : list Z;
  m_created : option bool;
  m_kept : list KeptMessage;
  m_journals : list JournalMessage;
  m_unknown : list byte;
}.

(** The protobuf runtime: the deterministic encoder, the decoder, and the size
    of what they exchange. *)
Class Wire (W : Type) := {
  proto_marshal : Message -> option W;
  proto_unmarshal : W -> option Message;
  proto_size : W -> Z;
}.

Class WireLaws (W : Type) `{Wire W} := {
  proto_roundtrip m w : proto_marshal m = Some w -> proto_unmarshal w = Some m;
  proto_nonempty m w : proto_marshal m = Some w -> 1 <= proto_size w;
}.

Section Wire.
Context {W : Type} `{Wire W}.

(** [Time.UnixNano] keeps the low 64 bits of the nanoseconds since the epoch,
    so an instant before 1678 or after 2262 comes out as another one. *)
Definition UnixNano (time : Z) : Z := int64 time.

(** [time.Unix(0, nanoseconds)], of an [int64] *)
Definition Unix0 (nanoseconds : Z) : Z := int64 nanoseconds.

Definition kept_message (entry : Kept) : KeptMessage :=
  mkKeptMessage (Some (kSequence entry)) (Some (UnixNano (Time entry))) (Some (State entry)) [].

Definition journal_message (journal : Journal) : JournalMessage :=
  mkJournalMessage (Some (Disk journal)) (Some (Generation journal)) (Some (jEpoch journal))
    (Some (Covered journal)) [].

Definition message (r : Record_) : Message :=
  mkMessage (Some formatVersion) (Some (rVM r)) (Some (Epoch r)) (Some (Nonce r)) (Some (Selected r))
    (Pinned r) (Some (Created r)) (kept_message <$> KeptList r) (journal_message <$> Journals r) [].

Definition marshal (r : Record_) : result error W :=
  if negb (valid r) then Err [ErrInvalidConfig]
  else match proto_marshal (message r) with
       | None => Err [ErrOther]
       | Some data => if proto_size data >? maximumRecordSize then Err [ErrInvalidConfig] else Ok data
       end.

Definition unmarshal_kept (m : KeptMessage) : option Kept :=
  match km_unknown m, km_sequence m, km_time m, km_state m with
  | [], Some sequence, Some time, Some state => Some (mkKept sequence (Unix0 time) state)
  | _, _, _, _ => None
  end.

Definition unmarshal_journal (m : JournalMessage) : option Journal :=
  match jm_unknown m, jm_disk m, jm_generation m, jm_epoch m, jm_covered m with
  | [], Some disk, Some generation, Some epoch, Some covered =>
    if zlen disk =? 16 then Some (mkJournal disk generation epoch covered) else None
  | _, _, _, _, _ => None
  end.

Definition unmarshalRecord (vm : string) (data : W) : result error Record_ :=
  match proto_unmarshal data with
  | None => Err [ErrCorrupt; ErrOther]
  | Some m =>
    if negb (bool_decide (m_version m = Some formatVersion)) then Err [ErrCorrupt]
    else
      match m_unknown m, m_vm m, m_epoch m, m_nonce m, m_selected m, m_created m with
      | [], Some id, Some epoch, Some nonce, Some selected, Some created =>
        match mapM unmarshal_kept (m_kept m), mapM unmarshal_journal (m_journals m) with
        | Some kept, Some journals =>
          let record := mkRecord id epoch nonce selected created (m_pinned m) kept journals in
          if negb (rVM record =? vm)%string || negb (valid record) then Err [ErrCorrupt] else Ok record
        | _, _ => Err [ErrCorrupt]
        end
      | _, _, _, _, _, _ => Err [ErrCorrupt]
      end
  end.

End Wire.

(** ** Sequences: lemmas *)

Lemma EpochOf_div s : EpochOf s = s / 2 ^ 32.
Proof. unfold EpochOf. by rewrite Z.shiftr_div_pow2 by lia. Qed.

Lemma CounterOf_mod s : CounterOf s = s mod 2 ^ 32.
Proof.
  unfold CounterOf. change (2 ^ 32 - 1) with (Z.ones 32). by rewrite Z.land_ones by lia.
Qed.

Lemma sequence_parts s : s = EpochOf s * 2 ^ 32 + CounterOf s.
Proof. rewrite EpochOf_div, CounterOf_mod. pose proof (Z.div_mod s (2 ^ 32)). lia. Qed.

Lemma Sequence_sum epoch counter :
  0 <= epoch < 2 ^ 32 -> 0 <= counter < 2 ^ 32 -> Sequence epoch counter = epoch * 2 ^ 32 + counter.
Proof.
  intros He Hc. unfold Sequence, wrap64. rewrite Z.shiftl_mul_pow2 by lia.
  rewrite Z.mod_small by lia.
  rewrite (sequence_parts (Z.lor _ _)), EpochOf_div, CounterOf_mod.
  rewrite <- Z.shiftr_div_pow2, <- !Z.land_ones by lia.
  rewrite Z.shiftr_lor, Z.land_lor_distr_l, !Z.shiftr_div_pow2, !Z.land_ones by lia.
  rewrite Z.div_mul, Z.mod_mul, Z.div_small, Z.mod_small, Z.lor_0_r, Z.lor_0_l by lia. lia.
Qed.

Lemma ValidSequence_iff epoch s :
  ValidSequence epoch s = true <->
  1 <= epoch < 2 ^ 32 /\ exists counter, 1 <= counter < 2 ^ 32 /\ s = Sequence epoch counter.
Proof.
  unfold ValidSequence, MinimumEpoch, MaximumEpoch. split.
  - intros Hv. zbool. split; [lia|]. exists (CounterOf s).
    assert (0 <= CounterOf s < 2 ^ 32) by (rewrite CounterOf_mod; apply Z.mod_pos_bound; lia).
    split; [lia|]. rewrite Sequence_sum by lia. rewrite (sequence_parts s) at 1. lia.
  - intros (He&counter&Hc&->). rewrite Sequence_sum by lia.
    rewrite EpochOf_div, CounterOf_mod.
    replace ((epoch * 2 ^ 32 + counter) / 2 ^ 32) with epoch
      by (rewrite Z.div_add_l, Z.div_small by lia; lia).
    replace ((epoch * 2 ^ 32 + counter) mod 2 ^ 32) with counter
      by (rewrite Z.add_comm, Z.mod_add, Z.mod_small by lia; lia).
    rewrite !andb_true_iff, !Z.geb_leb, !Z.leb_le, Z.eqb_eq. lia.
Qed.

Lemma ValidSequence_order e s e' s' :
  ValidSequence e s = true -> ValidSequence e' s' = true -> e < e' -> s < s'.
Proof.
  intros (?&c&?&->)%ValidSequence_iff (?&c'&?&->)%ValidSequence_iff ?.
  rewrite !Sequence_sum by lia. nia.
Qed.

(** ** Identities: lemmas *)

#[local] Arguments String.append !_ _ / : simpl nomatch.

Lemma append_nil_r s : s ++ "" = s.
Proof. induction s; simpl; congruence. Qed.

Lemma append_assoc a b c : (a ++ b) ++ c = a ++ (b ++ c).
Proof. induction a; simpl; congruence. Qed.

Lemma append_inj_l a b c : a ++ b = a ++ c -> b = c.
Proof. induction a; simpl; intros Heq; [done|]. injection Heq. auto. Qed.

Definition no_slash (s : string) : Prop := all_chars (fun c => negb (c =? "/")%char) s = true.

Lemma cut_slash_found s tenant name :
  cut_slash s = (tenant, name, true) <-> s = tenant ++ "/" ++ name /\ no_slash tenant.
Proof.
  revert tenant. induction s as [|c s IH]; intros tenant; simpl.
  - split; [done|]. intros [Heq _]. by destruct tenant.
  - destruct (c =? "/")%char eqn:Ec.
    + apply Ascii.eqb_eq in Ec as ->. split.
      * intros [= <- <-]. done.
      * intros [Heq Hn]. destruct tenant as [|d tenant]; simpl in *; [by injection Heq as ->|].
        injection Heq as <- _. done.
    + destruct (cut_slash s) as [[b a] f] eqn:Eb. split.
      * intros [= <- <- ->]. destruct (proj1 (IH b) eq_refl) as [-> Hn]. simpl. split; [done|].
        unfold no_slash in *. simpl. by rewrite Ec.
      * intros [Heq Hn]. destruct tenant as [|d tenant]; simpl in *.
        { injection Heq as -> _. by rewrite Ascii.eqb_refl in Ec. }
        injection Heq as -> ->. unfold no_slash in Hn. simpl in Hn. apply andb_true_iff in Hn as [_ Hn].
        assert ((b, a, f) = (tenant, name, true)) as [= -> -> ->] by (by apply IH). done.
Qed.

Lemma cut_slash_not_found s b a :
  cut_slash s = (b, a, false) -> no_slash s.
Proof.
  unfold no_slash. revert b a. induction s as [|c s IH]; intros b a; simpl; [done|].
  destruct (c =? "/")%char eqn:Ec; [done|].
  destruct (cut_slash s) as [[b' a'] f] eqn:Eb. intros [= _ _ ->]. simpl. by eapply IH.
Qed.

Lemma cut_slash_append tenant name :
  no_slash tenant -> cut_slash (tenant ++ "/" ++ name) = (tenant, name, true).
Proof. intros. by apply cut_slash_found. Qed.

Lemma all_chars_impl f g s :
  (forall c, f c = true -> g c = true) -> all_chars f s = true -> all_chars g s = true.
Proof.
  intros Hfg. induction s as [|c s IH]; simpl; [done|]. intros [? ?]%andb_true_iff.
  apply andb_true_iff. auto.
Qed.

Lemma validName_no_slash name : validName name = true -> no_slash name.
Proof.
  unfold validName. intros [_ Hc]%andb_true_iff. revert Hc. apply all_chars_impl.
  intros c. unfold name_char. rewrite !negb_true_iff. intros Hc. by apply orb_false_iff in Hc as [[? ?]%orb_false_iff ?].
Qed.

Lemma ValidTenant_spec tenant : ValidTenant tenant = true -> tenant <> "" /\ no_slash tenant.
Proof.
  unfold ValidTenant. destruct tenant as [|c t] eqn:Et; [done|]. rewrite <- Et.
  intros [_ Hc]%andb_true_iff. split; [by rewrite Et|]. revert Hc. apply all_chars_impl.
  intros d Hd. apply negb_true_iff, Ascii.eqb_neq. intros ->. done.
Qed.

(** A valid identity is a name, or a tenant and a name. *)
Lemma ValidID_cases id :
  ValidID id = true ->
  (SplitID id = ("", id) /\ no_slash id) \/
  (exists tenant name, id = tenant ++ "/" ++ name /\ SplitID id = (tenant, name) /\
     ValidTenant tenant = true /\ no_slash name).
Proof.
  unfold ValidID, SplitID. destruct (_ || _); [done|].
  destruct (cut_slash id) as [[t n] found] eqn:E. destruct found; simpl.
  - intros [Ht Hn]%andb_true_iff. right. exists t, n. apply cut_slash_found in E as [-> _].
    split_and!; try done. by apply validName_no_slash.
  - intros _. left. split; [done|]. by eapply cut_slash_not_found.
Qed.

Lemma cut_prefix_append p s : cut_prefix (p ++ s) p = Some s.
Proof. induction p as [|c p IH]; simpl; [done|]. by rewrite Ascii.eqb_refl. Qed.

(** The record of a VM lies in its tenant's namespace, and names the VM. *)
Lemma CutNamespace_RecordName id :
  ValidID id = true ->
  CutNamespace (RecordName id) = Some (TenantOf id, RecordPrefix ++ (SplitID id).2).
Proof.
  intros Hid. unfold RecordName, Namespace, TenantNamespace, TenantOf, CutNamespace.
  destruct (ValidID_cases id Hid) as [[-> _]|(t&n&_&->&Ht&_)]; cbn [fst snd]; [reflexivity|].
  destruct (ValidTenant_spec t Ht) as [Hne Hns].
  destruct (t =? "")%string eqn:E; [by apply String.eqb_eq in E|].
  rewrite append_assoc, cut_prefix_append, append_assoc, cut_slash_append by done.
  cbn [negb orb]. by rewrite Ht.
Qed.

Lemma InTenant_SplitID id :
  ValidID id = true -> InTenant (SplitID id).1 (SplitID id).2 = id.
Proof.
  intros Hid. unfold InTenant.
  destruct (ValidID_cases id Hid) as [[-> _]|(t&n&Heq&->&Ht&_)]; simpl; [done|].
  destruct (ValidTenant_spec t Ht) as [Hne _].
  destruct (t =? "")%string eqn:E; [by apply String.eqb_eq in E|]. done.
Qed.

(** ** The record's sets: lemmas *)

Definition sequence_set (l : list Z) : Prop := StronglySorted Z.lt l /\ Forall (fun s => s <> 0) l.

Lemma ascending_from_iff previous l :
  ascending_from previous l = true <->
  sequence_set l /\ match previous with Some p => Forall (Z.lt p) l | None => True end.
Proof.
  unfold sequence_set. revert previous. induction l as [|x l IH]; intros previous; simpl.
  { split; [|done]. intros _. split; [split; constructor|]. destruct previous; [constructor|done]. }
  destruct (_ || _) eqn:E.
  - split; [done|]. intros [[_ Hz] Hp]. apply Forall_cons in Hz as [Hz _].
    apply orb_true_iff in E as [E|E]; [zbool; lia|]. destruct previous as [p|]; [|done].
    apply Forall_cons in Hp as [Hp _]. zbool. lia.
  - apply orb_false_iff in E as [Hx Hp]. zbool. rewrite IH. split.
    + intros [[Hs Hz] Hl]. split; [split; by constructor|].
      destruct previous as [p|]; [|done]. zbool. constructor; [done|].
      eapply Forall_impl; [exact Hl|]. intros y ?. simpl in *. lia.
    + intros [[Hs Hz] _]. apply StronglySorted_inv in Hs as [Hs Hl]. apply Forall_cons in Hz as [_ Hz]. done.
Qed.

Lemma ascending_iff l : ascending l = true <-> sequence_set l.
Proof. unfold ascending. rewrite ascending_from_iff. tauto. Qed.

Lemma elem_of_insert_before {A} (stop : A -> bool) x y l : y ∈ insert_before stop x l <-> y = x \/ y ∈ l.
Proof.
  induction l as [|z l IH]; simpl; [set_solver|]. destruct (stop z); set_solver.
Qed.

Section Insert.
Context {A : Type} (f : A -> Z).

Lemma insert_before_set x l :
  sequence_set (f <$> l) -> f x <> 0 -> f x ∉ f <$> l ->
  sequence_set (f <$> insert_before (fun existing => f existing >? f x) x l).
Proof.
  intros [Hs Hz] Hx Hn. split.
  - clear Hz. induction l as [|y l IH]; simpl in *; [by repeat constructor|].
    apply StronglySorted_inv in Hs as [Hs Hy]. destruct (f y >? f x) eqn:E; zbool; simpl.
    + constructor; [by constructor|]. constructor; [done|].
      eapply Forall_impl; [exact Hy|]. intros z ?. simpl in *. lia.
    + constructor; [apply IH; [done|set_solver]|].
      apply Forall_forall. intros z (w&->&Hw)%list_elem_of_fmap. apply elem_of_insert_before in Hw as [->|Hw].
      * assert (f y <> f x) by (intros Heq; apply Hn; rewrite <- Heq; left). lia.
      * eapply Forall_forall in Hy; [exact Hy|]. by apply list_elem_of_fmap_2.
  - apply Forall_forall. intros z (w&->&Hw)%list_elem_of_fmap. apply elem_of_insert_before in Hw as [->|Hw]; [done|].
    eapply Forall_forall in Hz; [exact Hz|]. by apply list_elem_of_fmap_2.
Qed.

End Insert.

Lemma IsPinned_iff r s : IsPinned r s = true <-> s ∈ Pinned r.
Proof. unfold IsPinned. apply bool_decide_eq_true. Qed.

Lemma IsKept_iff r s : IsKept r s = true <-> s ∈ keptSequences r.
Proof.
  unfold IsKept, keptSequences. rewrite existsb_exists, list_elem_of_fmap. split.
  - intros (k&Hk&He). zbool. exists k. split; [done|]. by apply list_elem_of_In.
  - intros (k&->&Hk). exists k. split; [by apply list_elem_of_In|]. by apply Z.eqb_eq.
Qed.

Lemma elem_of_withPin r s x : x ∈ withPin r s <-> x = s \/ x ∈ Pinned r.
Proof.
  unfold withPin. destruct (IsPinned r s) eqn:E.
  - apply IsPinned_iff in E. set_solver.
  - apply elem_of_insert_before.
Qed.

Lemma withPin_set r s : sequence_set (Pinned r) -> s <> 0 -> sequence_set (withPin r s).
Proof.
  intros Hp Hs. unfold withPin. destruct (IsPinned r s) eqn:E; [done|].
  assert (s ∉ Pinned r) by (intros Hin; apply IsPinned_iff in Hin; congruence).
  rewrite <- (list_fmap_id (insert_before _ _ _)). apply (insert_before_set id); rewrite ?list_fmap_id; done.
Qed.

Lemma elem_of_withKept r k kept x :
  withKept r k = Ok kept -> x ∈ kSequence <$> kept <-> x = kSequence k \/ x ∈ keptSequences r.
Proof.
  unfold withKept. destruct (IsKept r (kSequence k)) eqn:E; [|destruct (_ >=? _); [done|]]; intros [= <-].
  - apply IsKept_iff in E. unfold keptSequences in *. set_solver.
  - unfold keptSequences. rewrite !list_elem_of_fmap. split.
    + intros (y&->&Hy). apply elem_of_insert_before in Hy. set_solver.
    + intros [->|(y&->&Hy)]; eexists; (split; [done|]); apply elem_of_insert_before; auto.
Qed.

Lemma withKept_set r k kept :
  sequence_set (keptSequences r) -> kSequence k <> 0 -> withKept r k = Ok kept ->
  sequence_set (kSequence <$> kept).
Proof.
  unfold withKept. destruct (IsKept r (kSequence k)) eqn:E; [|destruct (_ >=? _); [done|]];
    intros Hs Hz [= <-]; [done|].
  apply (insert_before_set kSequence); [done..|]. intros Hin. apply IsKept_iff in Hin. congruence.
Qed.

Lemma elem_of_withoutKept r s x :
  x ∈ kSequence <$> withoutKept r s <-> x ∈ keptSequences r /\ x <> s.
Proof.
  unfold withoutKept, keptSequences. rewrite !list_elem_of_fmap. split.
  - intros (k&->&[? ?]%list_elem_of_filter). eauto.
  - intros [(k&->&?) ?]. exists k. split; [done|]. by apply list_elem_of_filter.
Qed.

Lemma withoutKept_sub r s : sublist (kSequence <$> withoutKept r s) (keptSequences r).
Proof. apply fmap_sublist. apply sublist_filter. Qed.

Lemma sublist_Forall_l (P : Z -> Prop) l k : sublist l k -> Forall P k -> Forall P l.
Proof.
  intros Hsub Hk. apply Forall_forall. intros x Hx. eapply Forall_forall in Hk; [exact Hk|].
  by eapply elem_of_sublist.
Qed.

Lemma sequence_set_sublist l k : sublist l k -> sequence_set k -> sequence_set l.
Proof.
  intros Hsub [Hs Hz]. split.
  - induction Hsub as [|x l k Hsub IH|x l k Hsub IH].
    + done.
    + apply StronglySorted_inv in Hs as [Hs Hx]. apply Forall_cons in Hz as [_ Hz].
      constructor; [by apply IH|]. by eapply sublist_Forall_l.
    + apply StronglySorted_inv in Hs as [Hs _]. apply Forall_cons in Hz as [_ Hz]. by apply IH.
  - by eapply sublist_Forall_l.
Qed.

(** [slices.Compact] of a sorted list is the sorted set of its elements. *)
Lemma compact_spec l :
  StronglySorted Z.le l -> StronglySorted Z.lt (compact l) /\ forall x, x ∈ compact l <-> x ∈ l.
Proof.
  induction l as [|x l IH]; intros Hs; [split; [constructor|done]|].
  apply StronglySorted_inv in Hs as [Hs Hx]. destruct (IH Hs) as [IHs IHe].
  destruct l as [|y l]; [split; [by repeat constructor|done]|].
  simpl compact. destruct (x =? y) eqn:E; zbool.
  - subst y. split; [done|]. intros z. rewrite IHe. set_solver.
  - split; [|intros z; rewrite elem_of_cons, IHe; set_solver].
    constructor; [done|]. apply Forall_forall. intros z Hz%IHe.
    apply StronglySorted_inv in Hs as [_ Hy]. apply Forall_cons in Hx as [Hxy _].
    apply elem_of_cons in Hz as [->|Hz]; [lia|]. eapply Forall_forall in Hy; [|exact Hz]. lia.
Qed.

Lemma Protected_spec r :
  StronglySorted Z.lt (Protected r) /\
  forall s, s ∈ Protected r <-> IsPinned r s = true \/ IsKept r s = true.
Proof.
  unfold Protected.
  destruct (compact_spec (merge_sort Z.le (Pinned r ++ keptSequences r))) as [Hs He].
  { apply StronglySorted_merge_sort; apply _. }
  split; [done|]. intros s. rewrite He, IsPinned_iff, IsKept_iff.
  rewrite (merge_sort_Permutation Z.le). apply elem_of_app.
Qed.

Lemma equal_func_iff {A} (eq : A -> A -> bool) l k :
  (forall x y, eq x y = true <-> x = y) -> equal_func eq l k = true <-> l = k.
Proof.
  intros He. revert k. induction l as [|x l IH]; intros [|y k]; simpl; try done.
  rewrite andb_true_iff, He, IH. split; [by intros [-> ->]|by intros [= -> ->]].
Qed.

Lemma equal_iff r r' : equal r r' = true <-> r = r'.
Proof.
  unfold equal. rewrite !andb_true_iff, String.eqb_eq, !Z.eqb_eq, !bool_decide_eq_true, eqb_true_iff.
  rewrite (equal_func_iff kept_equal).
  - destruct r, r'; simpl. split; [naive_solver congruence|]. by intros [= -> -> -> -> -> -> -> ->].
  - intros [a b c] [a' b' c']. unfold kept_equal. simpl.
    rewrite !andb_true_iff, !Z.eqb_eq, eqb_true_iff. naive_solver congruence.
Qed.

Lemma equal_refl r : equal r r = true.
Proof. by apply equal_iff. Qed.

Lemma mine_iff r epoch nonce : mine r epoch nonce = true <-> Epoch r = epoch /\ Nonce r = nonce.
Proof. unfold mine. by rewrite andb_true_iff, Z.eqb_eq, bool_decide_eq_true. Qed.

(** ** Validity *)

Lemma valid_iff r :
  valid r = true <->
  ValidID (rVM r) = true /\ zlen (Nonce r) = nonceSize /\ 1 <= Epoch r <= MaximumEpoch /\ Selected r <> 0 /\
  zlen (Pinned r) <= MaximumPins /\ zlen (KeptList r) <= MaximumKept /\
  sequence_set (Pinned r) /\ sequence_set (keptSequences r) /\ validJournals r = true.
Proof.
  unfold valid, MinimumEpoch.
  rewrite !andb_true_iff, Z.geb_leb, !Z.leb_le, Z.eqb_eq, negb_true_iff, Z.eqb_neq, !ascending_iff. tauto.
Qed.

(** ** Round trip *)

(** [Journal.Disk] is a [[16]byte], and the times of kept checkpoints are
    those whose nanoseconds an [int64] holds. *)
Definition typed (r : Record_) : Prop :=
  Forall (fun j => zlen (Disk j) = 16) (Journals r) /\ Forall (fun k => i64 (Time k)) (KeptList r).

Lemma mapM_kept l :
  Forall (fun k => i64 (Time k)) l -> mapM unmarshal_kept (kept_message <$> l) = Some l.
Proof.
  intros Hl. apply mapM_fmap_Forall_Some. eapply Forall_impl; [exact Hl|]. intros [s t st] Ht.
  unfold unmarshal_kept, kept_message, UnixNano, Unix0. simpl in *. by rewrite !int64_small by (by rewrite ?int64_small).
Qed.

Lemma mapM_unmarshal_kept ms l :
  mapM unmarshal_kept ms = Some l -> Forall (fun k => i64 (Time k)) l.
Proof.
  intros Hl. apply mapM_Some_1 in Hl. induction Hl as [|m ? ? ? Hxy _ IH]; constructor; [|done].
  unfold unmarshal_kept in Hxy. destruct m; simpl in *. repeat case_match; simplify_eq. apply int64_range.
Qed.

Lemma mapM_journals l :
  Forall (fun j => zlen (Disk j) = 16) l -> mapM unmarshal_journal (journal_message <$> l) = Some l.
Proof.
  intros Hl. apply mapM_fmap_Forall_Some. eapply Forall_impl; [exact Hl|]. intros [d g e c] Hd.
  unfold unmarshal_journal. simpl in *. by rewrite Hd.
Qed.

Lemma unmarshal_marshal {W} `{WireLaws W} r (data : W) :
  typed r -> marshal r = Ok data ->
  unmarshalRecord (rVM r) data = Ok r /\ 1 <= proto_size data <= maximumRecordSize.
Proof.
  intros Ht. unfold marshal. destruct (valid r) eqn:Hv; simpl; [|done].
  destruct (proto_marshal (message r)) as [d|] eqn:E; [|done].
  destruct (proto_size d >? maximumRecordSize) eqn:Es; [done|]. intros [= <-].
  split; [|pose proof (proto_nonempty _ _ E); zbool; lia].
  unfold unmarshalRecord. rewrite (proto_roundtrip _ _ E). simpl.
  destruct Ht. rewrite mapM_kept, mapM_journals by done. simpl.
  destruct r; simpl in *. by rewrite String.eqb_refl, Hv.
Qed.

Lemma unmarshalRecord_ok {W} `{Wire W} vm (d : W) r :
  unmarshalRecord vm d = Ok r -> valid r = true /\ rVM r = vm /\ typed r.
Proof.
  unfold unmarshalRecord. intros Hp.
  destruct (proto_unmarshal d) as [m|]; [|done]. destruct (negb _); [done|].
  destruct (m_unknown m), (m_vm m), (m_epoch m), (m_nonce m), (m_selected m), (m_created m); try done.
  destruct (mapM unmarshal_kept (m_kept m)) as [kept|] eqn:Ek; [|done].
  destruct (mapM unmarshal_journal (m_journals m)) as [journals|] eqn:Ej; [|done].
  simpl in Hp. destruct (_ || _) eqn:E; [done|]. injection Hp as <-.
  apply orb_false_iff in E as [E1%negb_false_iff E2%negb_false_iff]. apply String.eqb_eq in E1.
  split_and!; [done..|]. split; [|by eapply mapM_unmarshal_kept]. simpl. apply mapM_Some_1 in Ej. clear E2.
  induction Ej as [|jm ? ? ? Hxy _ IH]; [constructor|]. constructor; [|done].
  unfold unmarshal_journal in Hxy. destruct jm; simpl in *. repeat case_match; simplify_eq; by zbool.
Qed.

(** Whatever [unmarshalRecord] refuses is corrupt. *)
Lemma unmarshalRecord_Err {W} `{Wire W} vm (d : W) e : unmarshalRecord vm d = Err e -> e = [ErrCorrupt] \/ e = [ErrCorrupt; ErrOther].
Proof. unfold unmarshalRecord. intros ?. repeat case_match; simplify_eq; auto. Qed.

(** A wire that carries messages as they are, which shows the laws can hold. *)
#[export] Instance message_wire : Wire Message := {
  proto_marshal m := Some m;
  proto_unmarshal m := Some m;
  proto_size _ := 100;
}.

#[export] Instance message_laws : WireLaws Message.
Proof. split; simpl; [by intros ?? [= ->]|lia]. Qed.

(** ** Properties *)

(** Sequences are epoch-major.  A sequence composed of an epoch and a
    counter in range is valid for that epoch and gives both back, and every
    sequence of a later epoch is higher than every sequence of an earlier one,
    so a fenced writer and its successor never allocate the same one. *)
Theorem sequences_order_writers :
  (forall epoch counter, MinimumEpoch <= epoch <= MaximumEpoch -> 1 <= counter <= MaximumCounter ->
     ValidSequence epoch (Sequence epoch counter) = true /\
     EpochOf (Sequence epoch counter) = epoch /\ CounterOf (Sequence epoch counter) = counter) /\
  (forall e s e' s', ValidSequence e s = true -> ValidSequence e' s' = true -> e < e' -> s < s') /\
  (forall s, ValidCreateSequence s = true -> 1 <= EpochOf s < MaximumEpoch).
Proof.
  split_and!; [|exact ValidSequence_order|].
  - unfold MinimumEpoch, MaximumEpoch, MaximumCounter. intros epoch counter He Hc.
    split; [apply ValidSequence_iff; split; [lia|]; exists counter; split; [lia|done]|].
    rewrite EpochOf_div, CounterOf_mod, Sequence_sum by lia. split.
    + rewrite Z.div_add_l, Z.div_small by lia. lia.
    + rewrite Z.add_comm, Z.mod_add, Z.mod_small by lia. lia.
  - intros s [Hle%Z.leb_le Hv]%andb_true_iff. apply ValidSequence_iff in Hv as [Hv _].
    unfold MaximumEpoch. change MaximumCreateEpoch with 2147483647 in Hle. lia.
Qed.

(** Two VMs never share a control record, and the key of a record names
    its VM: the tenant namespace it lies in is the VM's own. *)
Theorem record_names_are_distinct a b :
  ValidID a = true -> ValidID b = true ->
  (RecordName a = RecordName b -> a = b) /\
  CutNamespace (RecordName a) = Some (TenantOf a, RecordPrefix ++ (SplitID a).2)%string /\
  InTenant (TenantOf a) (SplitID a).2 = a.
Proof.
  intros Ha Hb. split_and!; [|by apply CutNamespace_RecordName|by apply InTenant_SplitID].
  intros Heq. pose proof (CutNamespace_RecordName a Ha) as Hca. rewrite Heq, CutNamespace_RecordName in Hca by done.
  injection Hca as Ht Hn.
  rewrite <- (InTenant_SplitID a Ha), <- (InTenant_SplitID b Hb). unfold TenantOf in *. congruence.
Qed.

Lemma record_names_are_distinct_witness :
  RecordName "acme/vm-1" = "tenants/acme/control/vm-1"%string /\
  (RecordName "acme/vm-1" = RecordName "vm-1" -> "acme/vm-1"%string = "vm-1"%string) /\
  InTenant (TenantOf "acme/vm-1") (SplitID "acme/vm-1").2 = "acme/vm-1"%string.
Proof.
  split; [reflexivity|].
  destruct (record_names_are_distinct "acme/vm-1" "vm-1" eq_refl eq_refl) as (Hi&_&Ht). by split.
Defined.

(** C40: a record that [Record.marshal] accepted is read back whole by
    [unmarshalRecord] under its own VM, and refused under any other.  The times
    of its kept checkpoints lie in the range of [Time.UnixNano], the years 1678
    to 2262; [late_times_come_back_as_others] shows a later one does not come
    back. *)
Theorem record_roundtrip {W} `{WireLaws W} (r : Record_) (data : W) (vm : string) :
  typed r -> marshal r = Ok data ->
  unmarshalRecord (rVM r) data = Ok r /\
  (vm <> rVM r -> unmarshalRecord vm data = Err [ErrCorrupt]).
Proof.
  intros Ht Hm. destruct (unmarshal_marshal r data Ht Hm) as [Hu _]. split; [done|]. intros Hne.
  revert Hu. unfold unmarshalRecord. destruct (proto_unmarshal data) as [m|]; [|done].
  destruct (negb (bool_decide _)); [done|].
  destruct (m_unknown m), (m_vm m), (m_epoch m), (m_nonce m), (m_selected m), (m_created m); try done.
  destruct (mapM unmarshal_kept (m_kept m)), (mapM unmarshal_journal (m_journals m)); try done. simpl.
  destruct (_ || _) eqn:E; [done|]. intros [= <-]. simpl in *.
  destruct (_ =? vm)%string eqn:E'; [|done]. apply String.eqb_eq in E'. congruence.
Qed.

Definition roundtrip_record : Record_ :=
  mkRecord "acme/vm-1" 5 (replicate 16 Byte.x01) (Sequence 5 2) true [Sequence 4 1; Sequence 5 1]
    [mkKept (Sequence 5 1) 1700000000000000000 true] [mkJournal (replicate 16 Byte.x02) 9 5 77].

(** A kept checkpoint of the year 2300 is read back as one of 1715. *)
Lemma late_times_come_back_as_others :
  let at_ t := mkRecord "vm-1" 5 (replicate 16 Byte.x01) (Sequence 5 2) true [] [mkKept (Sequence 5 1) t true] [] in
  unmarshalRecord "vm-1" (message (at_ 10413792000000000000)) = Ok (at_ (-8032952073709551616)).
Proof. vm_compute. reflexivity. Qed.

Lemma record_roundtrip_witness :
  unmarshalRecord "acme/vm-1" (message roundtrip_record) = Ok roundtrip_record /\
  unmarshalRecord "vm-1" (message roundtrip_record) = Err [ErrCorrupt].
Proof.
  destruct (record_roundtrip roundtrip_record (message roundtrip_record) "vm-1") as [Hok Hbad];
    [by repeat constructor|vm_compute; reflexivity|]. split; [exact Hok|]. apply Hbad. discriminate.
Defined.

(** What reclamation must spare is exactly the forked and the kept
    checkpoints, each once, in ascending order. *)
Theorem protected_is_pinned_or_kept r s :
  StronglySorted Z.lt (Protected r) /\
  (s ∈ Protected r <-> IsPinned r s = true \/ IsKept r s = true).
Proof. destruct (Protected_spec r) as [? He]. by split. Qed.

End Control.
