(* ===== verification/ControlClient.v ===== *)
(** * The control client

    [control/client.go]: the operations on a VM's control record, as programs
    over the calls they make to the object store, the entropy source, the clock
    and the handle's write lock.  A program is a tree: a call and, for every
    answer it may get, the rest of the operation, so the answers — errors, lost
    replies, replies of a record another writer changed — are chosen outside
    it.  The unbounded [for] loops of the source take fuel, and a program that
    ran out of it is [Spin], a loop still running.

    File [ControlProtocol] interleaves any number of these programs over one
    stored object. *)

From S2P Require Import Prelude ControlRecord.
From Stdlib Require Import String.

#[local] Open Scope Z_scope.

Abbreviation ETag := string.

Inductive PutConditions := IfNoneMatch | IfMatch (etag : ETag).

(** ** Programs *)
Section Prog.
Context {W : Type}.

Inductive prog (A : Type) : Type :=
| Ret (a : A)
| Get (k : result error (W * ETag) -> prog A)
| Put (data : W) (conditions : PutConditions) (k : result error ETag -> prog A)
| Del (match_ : option ETag) (k : option error -> prog A)
(** [entropy.Fill] of a writer nonce *)
| Fill (k : list byte -> prog A)
(** [clock.Now] *)
| Now (k : Z -> prog A)
(** the handle's write lock, which a cancelled context does not get *)
| Lock (k : option error -> prog A)
(** whether [Handle.Close] was called *)
| IsClosed (k : bool -> prog A)
| Spin.

Fixpoint bind {A B} (p : prog A) (f : A -> prog B) : prog B :=
  match p with
  | Ret _ a => f a
  | Get _ k => Get _ (fun r => bind (k r) f)
  | Put _ d c k => Put _ d c (fun r => bind (k r) f)
  | Del _ m k => Del _ m (fun r => bind (k r) f)
  | Fill _ k => Fill _ (fun n => bind (k n) f)
  | Now _ k => Now _ (fun t => bind (k t) f)
  | Lock _ k => Lock _ (fun e => bind (k e) f)
  | IsClosed _ k => IsClosed _ (fun b => bind (k b) f)
  | Spin _ => Spin _
  end.

End Prog.
Arguments prog W A : clear implicits.
Arguments Ret {W A} a.
Arguments Get {W A} k.
Arguments Put {W A} data conditions k.
Arguments Del {W A} match_ k.
Arguments Fill {W A} k.
Arguments Now {W A} k.
Arguments Lock {W A} k.
Arguments IsClosed {W A} k.
Arguments Spin {W A}.

Declare Scope prog_scope.
Delimit Scope prog_scope with prog.
Notation "'do' x <- p ; q" := (bind p (fun x => q))
  (at level 10, x pattern, p at level 100, q at level 200) : prog_scope.

(** [do? x <- p ; q] goes on with the value of a call that did not fail. *)
Notation "'do?' x <- p ; q" :=
  (bind p (fun r => match r with Ok x => q | Err e => Ret (Err e) end))
  (at level 10, x pattern, p at level 100, q at level 200) : prog_scope.
#[global] Open Scope prog_scope.

Module Client.
Import Control.

Section Client.
Context {W : Type} `{Wire W}.

(** The deployment's key prefix. *)
Variable prefix : string.

(** [platform.ReadObject] over [platform.ReadObjectBody], for a store whose
    reply names the key it was asked for and carries the length of its body. *)
Definition ReadObject (minimum maximum : Z) (corrupt : error) : prog W (result error (W * ETag)) :=
  Get (fun reply =>
    match reply with
    | Err e => Ret (Err e)
    | Ok (data, etag) =>
      if (etag =? ""%string)%string || (proto_size data <? minimum) || (proto_size data >? maximum)
      then Ret (Err corrupt) else Ret (Ok (data, etag))
    end).

Definition read (vm : string) : prog W (result error (Record_ * ETag)) :=
  match key prefix vm with
  | Err e => Ret (Err e)
  | Ok _ =>
    do? (data, etag) <- ReadObject 1 maximumRecordSize [ErrCorrupt];
    match unmarshalRecord vm data with
    | Err e => Ret (Err e)
    | Ok record => Ret (Ok (record, etag))
    end
  end.

Definition put (record : Record_) (conditions : PutConditions) : prog W (result error ETag) :=
  match key prefix (rVM record) with
  | Err e => Ret (Err e)
  | Ok _ =>
    match marshal record with
    | Err e => Ret (Err e)
    | Ok data => Put data conditions Ret
    end
  end.

Definition NewEpoch (draw : Z) : Z := MinimumEpoch + draw mod (MaximumCreateEpoch - MinimumEpoch + 1).

(** ** Handles *)

Record Handle := mkHandle {
  h_vm : string;
  h_epoch : Z;
  h_record : Record_;
  h_etag : ETag;
  h_fenced : bool;
}.

Definition newHandle (record : Record_) (etag : ETag) : Handle :=
  mkHandle (rVM record) (Epoch record) record etag false.

(** ** Opening *)

Definition Create (vm : string) (selected : Z) (published : bool) : prog W (result error Handle) :=
  if negb (ValidID vm) || negb (ValidCreateSequence selected) then Ret (Err [ErrInvalidConfig])
  else
    let epoch := EpochOf selected in
    Fill (fun nonce =>
      let record := mkRecord vm epoch nonce selected published [] [] [] in
      do r <- put record IfNoneMatch;
      match r with
      | Ok etag => Ret (Ok (newHandle record etag))
      | Err err =>
        do r <- read vm;
        match r with
        | Err readErr =>
          if Is err ErrPrecondition then Ret (Err ([ErrExists] ++ err ++ readErr))
          else Ret (Err (err ++ readErr))
        | Ok (observed, observedETag) =>
          if mine observed epoch nonce then Ret (Ok (newHandle observed observedETag))
          else Ret (Err [ErrExists])
        end
      end).

(** The record an open writes over [current]. *)
Definition opening (current : Record_) (nonce : list byte) (joining : option Journal) : result error Record_ :=
  let next := with_epoch current (Epoch current + 1) nonce in
  match joining with
  | None => Ok next
  | Some journal =>
    if zlen (Journals current) >=? MaximumJournals then Err [ErrTooManyJournals]
    else
      let added := mkJournal (Disk journal) (Generation journal) (Epoch next) (Covered journal) in
      Ok (with_journals next (Journals next ++ [added]))
  end.

Fixpoint open_loop (fuel : nat) (vm : string) (epoch : Z) (joining : option Journal) (nonce : list byte)
  : prog W (result error Handle) :=
  match fuel with
  | O => Spin
  | S fuel =>
    do? (current, etag) <- read vm;
    if negb (epoch =? 0) && negb (Epoch current =? epoch) then Ret (Err [ErrMoved])
    else if Epoch current >=? MaximumEpoch then Ret (Err [ErrEpochExhausted])
    else
      match opening current nonce joining with
      | Err e => Ret (Err e)
      | Ok next =>
        do r <- put next (IfMatch etag);
        match r with
        | Ok nextETag => Ret (Ok (newHandle next nextETag))
        | Err err =>
          if Is err ErrPrecondition then open_loop fuel vm epoch joining nonce
          else
            do r <- read vm;
            match r with
            | Err readErr => Ret (Err (err ++ readErr))
            | Ok (observed, observedETag) =>
              if mine observed (Epoch next) nonce then Ret (Ok (newHandle observed observedETag))
              else if Epoch observed >=? Epoch next then open_loop fuel vm epoch joining nonce
              else Ret (Err err)
            end
        end
      end
  end.

Definition open (fuel : nat) (vm : string) (epoch : Z) (joining : option Journal) : prog W (result error Handle) :=
  if negb (ValidID vm) then Ret (Err [ErrInvalidConfig])
  else Fill (fun nonce => open_loop fuel vm epoch joining nonce).

Definition OpenAfter (fuel : nat) (vm : string) (epoch : Z) : prog W (result error Handle) := open fuel vm epoch None.

Definition Open (fuel : nat) (vm : string) : prog W (result error Handle) := OpenAfter fuel vm 0.

Definition OpenMigration (fuel : nat) (vm : string) (journal : Journal) : prog W (result error Handle) :=
  if bool_decide (Disk journal = zeroDisk) || negb (jEpoch journal =? 0) then Ret (Err [ErrInvalidConfig])
  else open fuel vm 0 (Some journal).

(** ** Operations without a handle *)

Definition Delete (vm : string) : prog W (option error) :=
  match key prefix vm with
  | Err e => Ret (Some e)
  | Ok _ => Del None Ret
  end.

Fixpoint remove_loop (fuel : nat) (vm : string) : prog W (result error Record_) :=
  match fuel with
  | O => Spin
  | S fuel =>
    do? (current, etag) <- read vm;
    do r <- Del (Some etag) Ret;
    match r with
    | None => Ret (Ok current)
    | Some err =>
      if Is err ErrPrecondition then remove_loop fuel vm
      else
        do r <- read vm;
        match r with
        | Err readErr => if Is readErr ErrNotFound then Ret (Ok current) else Ret (Err (err ++ readErr))
        | Ok (_, observedETag) => if (observedETag =? etag)%string then Ret (Err err) else remove_loop fuel vm
        end
    end
  end.

Definition Remove (fuel : nat) (vm : string) : prog W (result error Record_) :=
  match key prefix vm with
  | Err e => Ret (Err e)
  | Ok _ => remove_loop fuel vm
  end.

Fixpoint pin_loop (fuel : nat) (vm : string) (sequence : Z) : prog W (result error Ref) :=
  match fuel with
  | O => Spin
  | S fuel =>
    do? (current, etag) <- read vm;
    let wanted := if sequence =? 0 then Selected current else sequence in
    let pinned := mkRef vm wanted in
    if IsPinned current wanted then Ret (Ok pinned)
    else if (negb (wanted =? Selected current) || negb (Created current)) && negb (IsKept current wanted)
    then Ret (Err [ErrNotPublished])
    else
      match admits current wanted with
      | Some e => Ret (Err e)
      | None =>
        do r <- put (with_pinned current (withPin current wanted)) (IfMatch etag);
        match r with
        | Ok _ => Ret (Ok pinned)
        | Err err =>
          if Is err ErrPrecondition then pin_loop fuel vm sequence
          else
            do r <- read vm;
            match r with
            | Err readErr => Ret (Err (err ++ readErr))
            | Ok (observed, _) =>
              if IsPinned observed wanted then Ret (Ok pinned)
              else if equal observed current then Ret (Err err)
              else pin_loop fuel vm sequence
            end
        end
      end
  end.

Definition Pin (fuel : nat) (vm : string) (sequence : Z) : prog W (result error Ref) :=
  if negb (ValidID vm) then Ret (Err [ErrInvalidConfig]) else pin_loop fuel vm sequence.

Fixpoint release_loop (fuel : nat) (vm : string) (sequence : Z) : prog W (result error Record_) :=
  match fuel with
  | O => Spin
  | S fuel =>
    do? (current, etag) <- read vm;
    if negb (IsKept current sequence) then Ret (Err [ErrNotKept])
    else if IsPinned current sequence then Ret (Err [ErrForked])
    else
      let next := with_kept current (withoutKept current sequence) in
      do r <- put next (IfMatch etag);
      match r with
      | Ok _ => Ret (Ok next)
      | Err err =>
        if Is err ErrPrecondition then release_loop fuel vm sequence
        else
          do r <- read vm;
          match r with
          | Err readErr => Ret (Err (err ++ readErr))
          | Ok (observed, _) =>
            if negb (IsKept observed sequence) then Ret (Ok observed)
            else if equal observed current then Ret (Err err)
            else release_loop fuel vm sequence
          end
      end
  end.

Definition Release (fuel : nat) (vm : string) (sequence : Z) : prog W (result error Record_) :=
  if negb (ValidID vm) || (sequence =? 0) then Ret (Err [ErrInvalidConfig]) else release_loop fuel vm sequence.

(** ** Operations of a handle *)

Definition begin (h : Handle) : prog W (result error Record_) :=
  if h_fenced h then Ret (Err [ErrFenced])
  else IsClosed (fun closed => if closed then Ret (Err [ErrClosed]) else Ret (Ok (h_record h))).

Definition settle (h : Handle) (record : Record_) (etag : ETag) (fenced : bool) : Handle :=
  mkHandle (h_vm h) (h_epoch h) (if fenced then h_record h else record) etag (h_fenced h || fenced).

Definition replace (h : Handle) (next : Record_) : prog W (Handle * result error Record_) :=
  let expected := h_etag h in
  let current := h_record h in
  do r <- put next (IfMatch expected);
  match r with
  | Ok etag => Ret (settle h next etag false, Ok next)
  | Err err =>
    do r <- read (rVM next);
    match r with
    | Err readErr => Ret (h, Err (err ++ readErr))
    | Ok (observed, observedETag) =>
      if equal observed next then Ret (settle h observed observedETag false, Ok observed)
      else if equal observed current then Ret (settle h current observedETag false, Err err)
      else if mine observed (h_epoch h) (Nonce next)
      then Ret (settle h observed observedETag false, Err ([errAdopted] ++ err))
      else Ret (settle h observed observedETag true, Err ([ErrFenced] ++ err))
    end
  end.

Fixpoint update_loop (fuel : nat) (h : Handle) (mutate : Record_ -> result error Record_)
  : prog W (Handle * result error Record_) :=
  match fuel with
  | O => Spin
  | S fuel =>
    do r <- begin h;
    match r with
    | Err e => Ret (h, Err e)
    | Ok current =>
      match mutate current with
      | Err e => Ret (h, Err e)
      | Ok next =>
        if equal next current then Ret (h, Ok current)
        else
          do (h, r) <- replace h next;
          match r with
          | Err e => if Is e errAdopted then update_loop fuel h mutate else Ret (h, r)
          | Ok _ => Ret (h, r)
          end
      end
    end
  end.

Definition update (fuel : nat) (h : Handle) (mutate : Record_ -> result error Record_)
  : prog W (Handle * result error Record_) :=
  Lock (fun refused =>
    match refused with
    | Some e => Ret (h, Err e)
    | None => update_loop fuel h mutate
    end).

Definition select_mutation (epoch sequence : Z) (kept : option Kept) (journals : list Journal) (current : Record_)
  : result error Record_ :=
  if negb (ValidSequence epoch sequence) && negb (sequence =? Selected current) then Err [ErrSequence]
  else if sequence <? Selected current then Err [ErrSequence]
  else
    let next := with_selected current sequence true in
    let? next :=
      match kept with
      | None => Ok next
      | Some kept => let? list := withKept current kept in Ok (with_kept next list)
      end in
    let next := with_journals next journals in
    if negb (validJournals next) then Err [ErrInvalidConfig] else Ok next.

Definition pin_mutation (sequence : Z) (current : Record_) : result error Record_ :=
  if sequence =? 0 then Err [ErrSequence]
  else
    match admits current sequence with
    | Some e => Err e
    | None => Ok (with_pinned current (withPin current sequence))
    end.

Definition selecting (fuel : nat) (h : Handle) (sequence : Z) (kept : option Kept) (journals : list Journal)
  : prog W (Handle * result error Record_) :=
  update fuel h (select_mutation (h_epoch h) sequence kept journals).

Definition Select (fuel : nat) (h : Handle) (sequence : Z) (journals : list Journal)
  : prog W (Handle * result error Record_) :=
  selecting fuel h sequence None journals.

Definition SelectKept (fuel : nat) (h : Handle) (sequence : Z) (state : bool) (journals : list Journal)
  : prog W (Handle * result error Record_) :=
  Now (fun now => selecting fuel h sequence (Some (mkKept sequence now state)) journals).

Definition HandlePin (fuel : nat) (h : Handle) (sequence : Z) : prog W (Handle * result error Record_) :=
  update fuel h (pin_mutation sequence).

(** ** A session

    The calls on one handle serialise under its write lock, so what a holder of
    a handle does is a sequence of calls, each of which may depend on what the
    ones before it returned. *)
Inductive call :=
| CSelect (sequence : Z) (journals : list Journal)
| CSelectKept (sequence : Z) (state : bool) (journals : list Journal)
| CPin (sequence : Z).

Definition perform (fuel : nat) (h : Handle) (c : call) : prog W (Handle * result error Record_) :=
  match c with
  | CSelect sequence journals => Select fuel h sequence journals
  | CSelectKept sequence state journals => SelectKept fuel h sequence state journals
  | CPin sequence => HandlePin fuel h sequence
  end.

Inductive strategy :=
| Done
| Do (c : call) (k : result error Record_ -> strategy).

Fixpoint serve (fuel : nat) (h : Handle) (s : strategy) : prog W (list (call * result error Record_)) :=
  match s with
  | Done => Ret []
  | Do c k =>
    do (h, r) <- perform fuel h c;
    do log <- serve fuel h (k r);
    Ret ((c, r) :: log)
  end.

Definition session (fuel : nat) (opened : prog W (result error Handle)) (s : strategy)
  : prog W (result error Handle * list (call * result error Record_)) :=
  do r <- opened;
  match r with
  | Err e => Ret (Err e, [])
  | Ok h => do log <- serve fuel h s; Ret (Ok h, log)
  end.

End Client.
End Client.
