(* ===== verification/ControlProtocol.v ===== *)
(** * The control protocol

    Any number of hosts run the programs of file [ControlClient] on one VM's
    record at once.  This file gives their interleaving: a world holds the
    stored object, the requests still on their way to it, and every running
    program; a step resumes one program with an answer the store may give.  A
    reply may be lost whether or not its write landed, a write may land after
    its reply was lost, or more than once, and a retry inside the store's own
    client may report a refusal for a write that landed.  What the store
    promises is what its documentation does: a condition is checked when the
    write lands, and one validator never names two contents.

    The proof is a rely-guarantee argument.  A program keeps what it knows: the
    contents it has seen a validator name.  [safe] says that every write a
    program makes is permitted from the content its condition names, whatever
    the answers; the world then changes the record only in permitted ways. *)

From S2P Require Import Prelude ControlRecord ControlClient.
From Stdlib Require Import String.

#[local] Open Scope Z_scope.

Module Protocol.
Import Control Client.

Section Protocol.
Context {W : Type} `{WireLaws W}.
Variables (prefix vm : string).

Abbreviation nonce := (list byte).

Definition parsed (d : W) : option Record_ :=
  match unmarshalRecord vm d with Ok r => Some r | Err _ => None end.

(** ** What each client may do to the record *)

Definition creates (n : nonce) (r : Record_) : Prop :=
  exists selected published, ValidCreateSequence selected = true /\
    r = mkRecord vm (EpochOf selected) n selected published [] [] [].

Definition opens (n : nonce) (r0 r : Record_) : Prop :=
  Epoch r0 < MaximumEpoch /\ exists joining, opening r0 n joining = Ok r.

Definition selects (r0 r : Record_) : Prop :=
  exists sequence kept journals,
    select_mutation (Epoch r0) sequence kept journals r0 = Ok r /\
    match kept with Some k => kSequence k = sequence | None => True end.

Definition handle_pins (r0 r : Record_) : Prop := exists s, pin_mutation s r0 = Ok r.

Definition client_pins (r0 r : Record_) : Prop :=
  exists s, (s = Selected r0 /\ Created r0 = true \/ IsKept r0 s = true) /\
    IsPinned r0 s = false /\ admits r0 s = None /\ r = with_pinned r0 (withPin r0 s).

Definition releases (r0 r : Record_) : Prop :=
  exists s, IsKept r0 s = true /\ IsPinned r0 s = false /\ r = with_kept r0 (withoutKept r0 s).

(** A session is known by the nonce it drew; a client without a handle has
    none. *)
Inductive allowed : option nonce -> Record_ -> Record_ -> Prop :=
| allow_open n r0 r : opens n r0 r -> allowed (Some n) r0 r
| allow_select n r0 r : Nonce r0 = n -> selects r0 r -> allowed (Some n) r0 r
| allow_handle_pin n r0 r : Nonce r0 = n -> handle_pins r0 r -> allowed (Some n) r0 r
| allow_client_pin r0 r : client_pins r0 r -> allowed None r0 r
| allow_release r0 r : releases r0 r -> allowed None r0 r.

Definition permitted (own : option nonce) (before after : option W) : Prop :=
  match before, after with
  | None, Some d => exists n r, own = Some n /\ parsed d = Some r /\ creates n r
  | Some d0, Some d => exists r0 r, parsed d0 = Some r0 /\ parsed d = Some r /\ allowed own r0 r
  | Some _, None => own = None
  | None, None => False
  end.

(** ** The store and its clients *)

Inductive outcome :=
| OSession (opened : result error Handle) (log : list (call * result error Record_))
| OPin (sequence : Z) (r : result error Ref)
| ORelease (sequence : Z) (r : result error Record_)
| ORemove (r : result error Record_)
| ODelete (r : option error).

Definition typed_journals (journals : list Journal) : Prop := Forall (fun j => zlen (Disk j) = 16) journals.

Definition typed_call (c : call) : Prop :=
  match c with
  | CSelect _ journals | CSelectKept _ _ journals => typed_journals journals
  | CPin _ => True
  end.

Fixpoint typed_strategy (s : strategy) : Prop :=
  match s with
  | Done => True
  | Do c k => typed_call c /\ forall r, typed_strategy (k r)
  end.

Definition run_session (fuel : nat) (opened : prog W (result error Handle)) (s : strategy) : prog W outcome :=
  do (h, log) <- session prefix fuel opened s; Ret (OSession h log).

(** The programs of [control/client.go] on this VM. *)
Inductive client_program : prog W outcome -> Prop :=
| client_create fuel selected published s :
    typed_strategy s -> client_program (run_session fuel (Create prefix vm selected published) s)
| client_open fuel s :
    typed_strategy s -> client_program (run_session fuel (Open prefix fuel vm) s)
| client_open_after fuel epoch s :
    typed_strategy s -> client_program (run_session fuel (OpenAfter prefix fuel vm epoch) s)
| client_open_migration fuel journal s :
    zlen (Disk journal) = 16 -> typed_strategy s ->
    client_program (run_session fuel (OpenMigration prefix fuel vm journal) s)
| client_pin fuel sequence :
    client_program (do r <- Pin prefix fuel vm sequence; Ret (OPin sequence r))
| client_release fuel sequence :
    client_program (do r <- Release prefix fuel vm sequence; Ret (ORelease sequence r))
| client_remove fuel : client_program (do r <- Remove prefix fuel vm; Ret (ORemove r))
| client_delete : client_program (do r <- Delete prefix vm; Ret (ODelete r)).

(** The errors of the store and of a context carry the platform's sentinels
    only. *)
Definition store_error (e : error) : Prop :=
  Forall (fun s => s ∈ [ErrNotFound; ErrPrecondition; ErrOther]) e.

Inductive request := RPut (data : W) (conditions : PutConditions) | RDel (match_ : option ETag).

Record thread := mkThread { own : option nonce; code : prog W outcome }.

Record event := mkEvent { actor : option nonce; before : option W; after : option W }.

Record world := mkWorld {
  stored : option (W * ETag);
  (** every content a validator has named *)
  issued : gmap string W;
  (** requests whose reply was lost and that may still land *)
  pending : list (option nonce * request);
  used : list nonce;
  threads : list thread;
  (** every change of the stored object *)
  trace : list event;
}.

Definition meets (s : option (W * ETag)) (c : PutConditions) : bool :=
  match c, s with
  | IfNoneMatch, None => true
  | IfMatch e, Some (_, e') => (e =? e')%string
  | _, _ => false
  end.

(** A write or a delete reaches the store and its condition holds. *)
Inductive lands (w : world) (who : option nonce) : request -> option ETag -> world -> Prop :=
| lands_put d c e :
    meets (stored w) c = true -> issued w !! e = None \/ issued w !! e = Some d ->
    lands w who (RPut d c) (Some e)
      (mkWorld (Some (d, e)) (<[e := d]> (issued w)) (pending w) (used w) (threads w)
        (trace w ++ [mkEvent who (fst <$> stored w) (Some d)]))
| lands_del m d e :
    stored w = Some (d, e) -> m = None \/ m = Some e ->
    lands w who (RDel m) None
      (mkWorld None (issued w) (pending w) (used w) (threads w)
        (trace w ++ [mkEvent who (Some d) None])).

Definition resume (w : world) (i : nat) (t : thread) : world :=
  mkWorld (stored w) (issued w) (pending w) (used w) (<[i := t]> (threads w)) (trace w).

Definition delay (w : world) (who : option nonce) (r : request) : world :=
  mkWorld (stored w) (issued w) ((who, r) :: pending w) (used w) (threads w) (trace w).

Definition use (w : world) (n : nonce) : world :=
  mkWorld (stored w) (issued w) (pending w) (n :: used w) (threads w) (trace w).

Definition get_reply (w : world) (reply : result error (W * ETag)) : Prop :=
  match reply with
  | Ok x => stored w = Some x
  | Err e => store_error e /\ (Is e ErrNotFound = true -> stored w = None)
  end.

Inductive step (w : world) : world -> Prop :=
| step_get i o k reply :
    threads w !! i = Some (mkThread o (Get k)) -> get_reply w reply ->
    step w (resume w i (mkThread o (k reply)))
| step_put i o d c k e w' :
    threads w !! i = Some (mkThread o (Put d c k)) -> lands w o (RPut d c) (Some e) w' ->
    step w (resume w' i (mkThread o (k (Ok e))))
| step_put_lost i o d c k e w' err :
    threads w !! i = Some (mkThread o (Put d c k)) -> lands w o (RPut d c) (Some e) w' -> store_error err ->
    step w (resume w' i (mkThread o (k (Err err))))
| step_put_refused i o d c k err :
    threads w !! i = Some (mkThread o (Put d c k)) -> store_error err ->
    step w (resume w i (mkThread o (k (Err err))))
| step_put_delayed i o d c k err :
    threads w !! i = Some (mkThread o (Put d c k)) -> store_error err ->
    step w (resume (delay w o (RPut d c)) i (mkThread o (k (Err err))))
| step_del i o m k w' reply :
    threads w !! i = Some (mkThread o (Del m k)) -> lands w o (RDel m) None w' ->
    (forall err, reply = Some err -> store_error err) ->
    step w (resume w' i (mkThread o (k reply)))
| step_del_refused i o m k reply :
    threads w !! i = Some (mkThread o (Del m k)) ->
    match reply with Some err => store_error err | None => stored w = None end ->
    step w (resume w i (mkThread o (k reply)))
| step_del_delayed i o m k err :
    threads w !! i = Some (mkThread o (Del m k)) -> store_error err ->
    step w (resume (delay w o (RDel m)) i (mkThread o (k (Some err))))
| step_late j o r e w' :
    pending w !! j = Some (o, r) -> lands w o r e w' -> step w w'
| step_fill i o k n :
    threads w !! i = Some (mkThread o (Fill k)) -> n ∉ used w -> zlen n = nonceSize ->
    step w (resume (use w n) i (mkThread (Some n) (k n)))
(** The clock tells a time whose nanoseconds since the epoch an [int64] holds. *)
| step_now i o k t :
    threads w !! i = Some (mkThread o (Now k)) -> i64 t -> step w (resume w i (mkThread o (k t)))
| step_lock i o k reply :
    threads w !! i = Some (mkThread o (Lock k)) -> (forall err, reply = Some err -> store_error err) ->
    step w (resume w i (mkThread o (k reply)))
| step_closed i o k b :
    threads w !! i = Some (mkThread o (IsClosed k)) -> step w (resume w i (mkThread o (k b))).

(** A run starts with no record and any number of clients about to begin. *)
Definition initial (w : world) : Prop :=
  stored w = None /\ issued w = ∅ /\ pending w = [] /\ used w = [] /\ trace w = [] /\
  Forall (fun t => own t = None /\ client_program (code t)) (threads w).

Definition reachable (w : world) : Prop := exists w0, initial w0 /\ rtc step w0 w.

(** ** Knowledge and safety *)

Definition know := ETag -> W -> Prop.

Definition knows (K : know) (e : ETag) (r : Record_) : Prop := exists d, K e d /\ parsed d = Some r.

Definition learn (K : know) (e : ETag) (d : W) : know := fun e' d' => K e' d' \/ (e' = e /\ d' = d).

Definition more (K K' : know) : Prop := forall e d, K e d -> K' e d.

(** A program that opens may write over a record of another writer; every
    other one only over what carries its own nonce, if it has one. *)
Definition over_own (opens : bool) (o : option nonce) (r0 : Record_) : Prop :=
  opens = false -> match o with Some n => Nonce r0 = n | None => True end.

Definition put_permitted (opens : bool) (o : option nonce) (K : know) (d : W) (c : PutConditions) : Prop :=
  match c with
  | IfNoneMatch => opens = true /\ permitted o None (Some d)
  | IfMatch e => exists d0 r0, K e d0 /\ parsed d0 = Some r0 /\ permitted o (Some d0) (Some d) /\ over_own opens o r0
  end.

(** What a program may do whatever the store replies: [opens] says whether it
    may draw a nonce and open. *)
Fixpoint safe_in {A} (opens : bool) (o : option nonce) (K : know) (p : prog W A)
  (Q : option nonce -> know -> A -> Prop) : Prop :=
  match p with
  | Ret a => Q o K a
  | Get k => (forall d e, safe_in opens o (learn K e d) (k (Ok (d, e))) Q) /\
             (forall err, store_error err -> safe_in opens o K (k (Err err)) Q)
  | Put d c k => put_permitted opens o K d c /\ (forall e, safe_in opens o (learn K e d) (k (Ok e)) Q) /\
                 (forall err, store_error err -> safe_in opens o K (k (Err err)) Q)
  | Del m k => o = None /\ safe_in opens o K (k None) Q /\
               (forall err, store_error err -> safe_in opens o K (k (Some err)) Q)
  | Fill k => opens = true /\ forall n, zlen n = nonceSize -> safe_in opens (Some n) K (k n) Q
  | Now k => forall t, i64 t -> safe_in opens o K (k t) Q
  | Lock k => safe_in opens o K (k None) Q /\ (forall err, store_error err -> safe_in opens o K (k (Some err)) Q)
  | IsClosed k => forall b, safe_in opens o K (k b) Q
  | Spin => True
  end.

Abbreviation safe := (safe_in true).

Lemma safe_bind {A B} opens o K (p : prog W A) (f : A -> prog W B) Q R :
  safe_in opens o K p R -> (forall o' K' a, R o' K' a -> safe_in opens o' K' (f a) Q) ->
  safe_in opens o K (bind p f) Q.
Proof.
  intros Hp Hf. revert o K Hp. induction p; simpl; intros o K Hp; try naive_solver.
Qed.

Lemma safe_mono {A} opens o K (p : prog W A) (Q R : option nonce -> know -> A -> Prop) :
  safe_in opens o K p R -> (forall o' K' a, R o' K' a -> Q o' K' a) -> safe_in opens o K p Q.
Proof.
  intros Hp Hf. revert o K Hp. induction p; simpl; intros o K Hp; try naive_solver.
Qed.

Lemma more_refl K : more K K.
Proof. by intros ??. Qed.

Lemma more_trans K1 K2 K3 : more K1 K2 -> more K2 K3 -> more K1 K3.
Proof. unfold more. auto. Qed.

Lemma more_learn K e d : more K (learn K e d).
Proof. intros ???. by left. Qed.

Lemma knows_more K K' e r : more K K' -> knows K e r -> knows K' e r.
Proof. intros Hm (d&?&?). exists d. auto. Qed.

(** ** The client's calls *)

(** Errors that say nothing about who owns the record. *)
Definition plain (e : error) : Prop := ErrFenced ∉ e /\ errAdopted ∉ e.

Lemma store_error_plain e : store_error e -> plain e.
Proof.
  unfold store_error, plain. rewrite Forall_forall. intros He. split; intros Hin%He; set_solver.
Qed.

Lemma plain_app e e' : plain e -> plain e' -> plain (e ++ e').
Proof. unfold plain. set_solver. Qed.

Lemma Is_plain e : plain e -> Is e ErrFenced = false /\ Is e errAdopted = false.
Proof. intros [? ?]. unfold Is. by rewrite !bool_decide_eq_false_2. Qed.

Lemma parsed_valid d r : parsed d = Some r -> valid r = true /\ rVM r = vm /\ typed r.
Proof. unfold parsed. destruct (unmarshalRecord vm d) eqn:E; [|done]. intros [= <-]. by eapply unmarshalRecord_ok. Qed.

Lemma parsed_marshal r d : rVM r = vm -> typed r -> marshal r = Ok d -> parsed d = Some r.
Proof.
  intros Hvm Ht Hd. unfold parsed. rewrite <- Hvm.
  by destruct (unmarshal_marshal r d Ht Hd) as [-> _].
Qed.

Lemma unmarshal_plain d e : unmarshalRecord vm d = Err e -> plain e.
Proof.
  unfold unmarshalRecord, plain. intros Hp. repeat case_match; simplify_eq; set_solver.
Qed.

Lemma key_plain id e : key prefix id = Err e -> plain e.
Proof. unfold key, NewObjectKey, plain. intros Hp. repeat case_match; simplify_eq; set_solver. Qed.

Lemma marshal_plain r e : marshal r = @Err _ W e -> plain e.
Proof. unfold marshal, plain. intros Hp. repeat case_match; simplify_eq; set_solver. Qed.

(** What a call to the store leaves a program: its nonce, and at least what it
    knew. *)
Definition after_call {A} (o : option nonce) (K : know) (P : know -> A -> Prop) :
  option nonce -> know -> result error A -> Prop :=
  fun o' K' r => o' = o /\ more K K' /\ match r with Ok a => P K' a | Err e => plain e end.

Lemma read_spec opens o K :
  safe_in opens o K (read prefix vm) (after_call o K (fun K' '(r, etag) => knows K' etag r)).
Proof.
  unfold read, after_call. destruct (key prefix vm) as [?|e] eqn:Ek; simpl.
  2: { split_and!; [done|apply more_refl|by eapply key_plain]. }
  split.
  - intros d e. destruct (_ || _); simpl.
    { split_and!; [done|apply more_learn|split; set_solver]. }
    destruct (unmarshalRecord vm d) as [r|err] eqn:Eu; simpl; (split_and!; [done|apply more_learn|]).
    + exists d. split; [by right|]. unfold parsed. by rewrite Eu.
    + by eapply unmarshal_plain.
  - intros err He. simpl. split_and!; [done|apply more_refl|by apply store_error_plain].
Qed.

Definition put_allowed (opens : bool) (o : option nonce) (K : know) (r : Record_) (c : PutConditions) : Prop :=
  match c with
  | IfNoneMatch => opens = true /\ exists n, o = Some n /\ creates n r
  | IfMatch e => exists r0, knows K e r0 /\ allowed o r0 r /\ over_own opens o r0
  end.

Lemma put_spec opens o K r c :
  rVM r = vm -> typed r -> put_allowed opens o K r c ->
  safe_in opens o K (put prefix r c) (after_call o K (fun K' etag => knows K' etag r)).
Proof.
  intros Hvm Ht Hp. unfold put, after_call. rewrite Hvm.
  destruct (key prefix vm) as [?|e] eqn:Ek; simpl.
  2: { split_and!; [done|apply more_refl|by eapply key_plain]. }
  destruct (marshal r) as [d|e] eqn:Ed; simpl.
  2: { split_and!; [done|apply more_refl|by eapply marshal_plain]. }
  assert (parsed d = Some r) as Hd by (by apply parsed_marshal).
  split_and!.
  - destruct c as [|e]; simpl in *.
    + destruct Hp as (->&n&->&?). split; [done|]. exists n, r. done.
    + destruct Hp as (r0&(d0&?&?)&?&?). exists d0, r0. split_and!; try done. exists r0, r. done.
  - intros e. split_and!; [done|apply more_learn|]. exists d. split; [by right|done].
  - intros err He. split_and!; [done|apply more_refl|by apply store_error_plain].
Qed.

Lemma knows_typed K e r : knows K e r -> valid r = true /\ rVM r = vm /\ typed r.
Proof. intros (d&_&?). by eapply parsed_valid. Qed.

(** ** Handles *)

(** The record was seen in the hands of another writer. *)
Definition taken (K : know) (epoch : Z) (n : nonce) : Prop :=
  exists e r, knows K e r /\ mine r epoch n = false.

Definition durable (K : know) (r : Record_) : Prop := exists e, knows K e r.

Record handle_ok (n : nonce) (K : know) (h : Handle) : Prop := {
  handle_knows : h_fenced h = false -> knows K (h_etag h) (h_record h);
  handle_mine : mine (h_record h) (h_epoch h) n = true;
  handle_fenced : h_fenced h = true -> taken K (h_epoch h) n;
}.

Lemma taken_more K K' epoch n : more K K' -> taken K epoch n -> taken K' epoch n.
Proof. intros ? (e&r&?&?). exists e, r. eauto using knows_more. Qed.

Lemma handle_ok_more n K K' h : more K K' -> handle_ok n K h -> handle_ok n K' h.
Proof.
  intros Hm [Hk Hmine Hf]. split; [|done|].
  - intros Hh. eapply knows_more; [exact Hm|auto].
  - intros Hh. eapply taken_more; [exact Hm|auto].
Qed.

Lemma handle_ok_new n K r e :
  knows K e r -> Nonce r = n -> handle_ok n K (newHandle r e).
Proof. intros. split; simpl; try done. by apply mine_iff. Qed.

Lemma settle_ok n K K' h r e :
  handle_ok n K h -> more K K' -> knows K' e r -> mine r (h_epoch h) n = true ->
  handle_ok n K' (settle h r e false).
Proof.
  intros [Hk Hm Hf] Hmore Hr Hmine. split; simpl; rewrite ?orb_false_r; try done.
  intros Hh. eapply taken_more; [exact Hmore|auto].
Qed.

(** A change a handle makes to its own record, and what it promises of the
    record it writes. *)
Record mutation (n : nonce) (epoch : Z) (mutate : Record_ -> result error Record_) (P : Record_ -> Prop) : Prop := {
  mutation_ok r0 r :
    mutate r0 = Ok r -> rVM r0 = vm -> typed r0 -> Epoch r0 = epoch -> Nonce r0 = n ->
    rVM r = vm /\ typed r /\ Epoch r = epoch /\ Nonce r = n /\ allowed (Some n) r0 r /\ P r;
  mutation_err r0 e : mutate r0 = Err e -> plain e;
}.

Definition after_update (n : nonce) (K : know) (epoch : Z) (P : Record_ -> Prop)
  (o' : option nonce) (K' : know) (x : Handle * result error Record_) : Prop :=
  let '(h', r) := x in
  o' = Some n /\ more K K' /\ handle_ok n K' h' /\ h_epoch h' = epoch /\
  match r with
  | Ok r => durable K' r /\ mine r epoch n = true /\ P r
  | Err e => Is e ErrFenced = true -> taken K' epoch n
  end.

(** [replace] writes over the record the handle tracks, and what it reads back
    settles what happened. *)
Lemma replace_spec opens n K h next (P : Record_ -> Prop) :
  handle_ok n K h -> h_fenced h = false ->
  rVM next = vm -> typed next -> mine next (h_epoch h) n = true -> allowed (Some n) (h_record h) next -> P next ->
  safe_in opens (Some n) K (replace prefix h next) (after_update n K (h_epoch h) P).
Proof.
  intros Hh Hnf Hvm Ht Hmine Hall HP. unfold replace.
  eapply safe_bind.
  { apply put_spec; [done..|]. simpl. exists (h_record h). split_and!; [by apply Hh|done|].
    intros _. by apply (mine_iff (h_record h) (h_epoch h)), Hh. }
  intros o1 K1 r1 (->&Hm1&Hr1). destruct r1 as [etag|err]; simpl.
  { split_and!; try done; [by eapply settle_ok|by exists etag]. }
  rewrite Hvm. eapply safe_bind; [apply read_spec|].
  intros o2 K2 r2 (->&Hm2&Hr2). assert (more K K2) as Hm by (by eapply more_trans).
  assert (handle_ok n K2 h) as Hh2 by (by eapply handle_ok_more).
  destruct r2 as [[observed etag]|readErr].
  2: { simpl. split_and!; try done. intros Hi.
       destruct (Is_plain (err ++ readErr)) as [? _]; [by apply plain_app|congruence]. }
  destruct (Is_plain err Hr1) as [Hnf' Hna].
  assert (Nonce next = n) as Hnonce by (apply mine_iff in Hmine; apply Hmine).
  destruct (equal observed next) eqn:E1; [apply equal_iff in E1 as ->|];
    [|destruct (equal observed (h_record h)) eqn:E2; [apply equal_iff in E2 as ->|];
      [|destruct (mine observed (h_epoch h) (Nonce next)) eqn:E3]]; simpl; rewrite ?Hnonce in *.
  - split_and!; try done; [by eapply (settle_ok n K)|by exists etag].
  - split_and!; try done; [|congruence]. eapply (settle_ok n K); eauto using handle_mine.
  - split_and!; try done; [by eapply (settle_ok n K)|]. intros Hi. unfold Is in *.
    apply bool_decide_eq_true in Hi. apply bool_decide_eq_false in Hnf'. set_solver.
  - assert (taken K2 (h_epoch h) n) by (by exists etag, observed).
    split_and!; try done. split; simpl; rewrite ?orb_true_r; try done. exact (handle_mine _ _ _ Hh2).
Qed.

Lemma update_loop_spec opens fuel n K h mutate P :
  handle_ok n K h -> mutation n (h_epoch h) mutate P ->
  safe_in opens (Some n) K (update_loop prefix fuel h mutate) (after_update n K (h_epoch h) P).
Proof.
  revert K h. induction fuel as [|fuel IH]; intros K h Hh Hmut; [done|]. simpl. unfold begin.
  destruct (h_fenced h) eqn:Ef; simpl.
  { split_and!; try done; [apply more_refl|]. intros _. by apply Hh. }
  intros closed. destruct closed; simpl; [split_and!; try done; apply more_refl|].
  destruct (knows_typed K (h_etag h) (h_record h)) as (Hv&Hvm&Ht); [by apply Hh|].
  pose proof (handle_mine _ _ _ Hh) as [He Hn]%mine_iff.
  destruct (mutate (h_record h)) as [next|e] eqn:Em; simpl.
  2: { split_and!; try done; [apply more_refl|]. intros Hi.
       destruct (Is_plain e) as [? _]; [by eapply mutation_err|congruence]. }
  destruct (mutation_ok _ _ _ _ Hmut _ _ Em Hvm Ht He Hn) as (Hvm'&Ht'&He'&Hn'&Hall&HP).
  destruct (equal next (h_record h)) eqn:Eq.
  { apply equal_iff in Eq as ->. split_and!; try done;
      [apply more_refl|by exists (h_etag h); apply Hh|by apply mine_iff]. }
  eapply safe_bind; [apply replace_spec with (P := P); try done; by apply mine_iff|].
  intros o1 K1 [h1 r1] (->&Hm&Hh1&Heq&Hr). destruct r1 as [r|e]; [done|].
  destruct (Is e errAdopted); [|done]. rewrite <- Heq in *.
  eapply safe_mono; [by apply IH|]. intros o2 K2 [h2 r2] (->&Hm2&Hrest).
  split; [done|]. split; [by eapply more_trans|done].
Qed.

Lemma update_spec opens fuel n K h mutate P :
  handle_ok n K h -> mutation n (h_epoch h) mutate P ->
  safe_in opens (Some n) K (update prefix fuel h mutate) (after_update n K (h_epoch h) P).
Proof.
  intros Hh Hmut. unfold update. simpl. split; [by apply update_loop_spec|].
  intros err He. simpl. split_and!; try done; [apply more_refl|]. intros Hi.
  destruct (Is_plain err) as [? _]; [by apply store_error_plain|congruence].
Qed.

(** What a call that returned a record promises of it. *)
Definition promised (c : call) (r : Record_) : Prop :=
  match c with
  | CSelect s journals => Selected r = s /\ Created r = true /\ Journals r = journals
  | CSelectKept s _ journals =>
    Selected r = s /\ Created r = true /\ Journals r = journals /\ IsKept r s = true
  | CPin s => IsPinned r s = true
  end.

Lemma withKept_plain r k e : withKept r k = Err e -> plain e.
Proof. unfold withKept, plain. intros ?. repeat case_match; simplify_eq; set_solver. Qed.

Lemma withKept_times r k l :
  withKept r k = Ok l -> i64 (Time k) -> Forall (fun k => i64 (Time k)) (KeptList r) ->
  Forall (fun k => i64 (Time k)) l.
Proof.
  unfold withKept. intros Hl Hk Hr. repeat case_match; simplify_eq; [done|].
  rewrite !Forall_forall in *. intros x. rewrite elem_of_insert_before. naive_solver.
Qed.

Lemma select_mutation_spec n epoch s kept journals :
  typed_journals journals ->
  match kept with Some k => kSequence k = s /\ i64 (Time k) | None => True end ->
  mutation n epoch (select_mutation epoch s kept journals)
    (fun r => Selected r = s /\ Created r = true /\ Journals r = journals /\
       match kept with Some k => IsKept r s = true | None => True end).
Proof.
  intros Hj Hk. split.
  - intros r0 r Hr Hvm Ht He Hn.
    assert (allowed (Some n) r0 r) as Hall.
    { apply allow_select; [done|]. exists s, kept, journals. rewrite He. split; [done|]. by destruct kept; [destruct Hk|]. }
    revert Hr. unfold select_mutation. destruct (_ && _); [done|]. destruct (_ <? _); [done|].
    destruct kept as [k|]; simpl.
    + destruct (withKept r0 k) as [l|] eqn:Ek; [|done]. destruct (negb _); [done|]. intros [= <-].
      destruct Hk as [Hks Htime], Ht as [_ Ht].
      simpl. split_and!; try done; [by split; [|eapply withKept_times]|]. apply IsKept_iff.
      apply (elem_of_withKept r0 k l s Ek). by left.
    + destruct (negb _); [done|]. intros [= <-]. by destruct Ht.
  - intros r0 e. unfold select_mutation.
    destruct (_ && _); [intros [= <-]; split; set_solver|].
    destruct (_ <? _); [intros [= <-]; split; set_solver|].
    destruct kept as [k|]; [destruct (withKept r0 k) as [l|] eqn:Ek|].
    2: { intros [= <-]. by eapply withKept_plain. }
    all: destruct (negb _); [intros [= <-]; split; set_solver|done].
Qed.

Lemma pin_mutation_spec n epoch s :
  mutation n epoch (pin_mutation s) (fun r => IsPinned r s = true).
Proof.
  split.
  - intros r0 r Hr Hvm Ht He Hn.
    assert (allowed (Some n) r0 r) as Hall by (apply allow_handle_pin; [done|by exists s]).
    revert Hr. unfold pin_mutation. destruct (s =? 0); [done|]. destruct (admits r0 s); [done|].
    intros [= <-]. simpl. split_and!; try done. apply IsPinned_iff. simpl. apply elem_of_withPin. by left.
  - intros r0 e. unfold pin_mutation, admits. destruct (s =? 0); [intros [= <-]; split; set_solver|].
    destruct (_ && _); [intros [= <-]; split; set_solver|done].
Qed.

Lemma perform_spec opens fuel n K h c :
  handle_ok n K h -> typed_call c ->
  safe_in opens (Some n) K (perform prefix fuel h c) (after_update n K (h_epoch h) (promised c)).
Proof.
  intros Hh Ht. destruct c as [s js|s st js|s]; unfold perform, Select, SelectKept, HandlePin, selecting.
  - eapply safe_mono; [apply update_spec; [done|by apply select_mutation_spec]|].
    intros o' K' [h' r] Hp. destruct r; simpl in *; naive_solver.
  - intros now Hnow. eapply safe_mono; [apply update_spec; [done|by apply select_mutation_spec]|].
    intros o' K' [h' r] Hp. destruct r; simpl in *; naive_solver.
  - apply update_spec; [done|]. apply pin_mutation_spec.
Qed.

(** ** Sessions *)

Definition good_call (n : nonce) (epoch : Z) (K : know) (x : call * result error Record_) : Prop :=
  let '(c, r) := x in
  match r with
  | Ok r => durable K r /\ mine r epoch n = true /\ promised c r
  | Err e => Is e ErrFenced = true -> taken K epoch n
  end.

Lemma durable_more K K' r : more K K' -> durable K r -> durable K' r.
Proof. intros ? [e ?]. exists e. by eapply knows_more. Qed.

Lemma good_call_more n epoch K K' x : more K K' -> good_call n epoch K x -> good_call n epoch K' x.
Proof.
  destruct x as [c [r|e]]; simpl; intros Hm.
  - intros (?&?&?). split_and!; try done. by eapply durable_more.
  - intros Ht He. eapply taken_more; eauto.
Qed.

Lemma serve_spec opens fuel n K h s :
  handle_ok n K h -> typed_strategy s ->
  safe_in opens (Some n) K (serve prefix fuel h s)
    (fun o' K' log => o' = Some n /\ more K K' /\ Forall (good_call n (h_epoch h) K') log).
Proof.
  revert K h. induction s as [|c k IH]; simpl; intros K h Hh Ht.
  { split_and!; [done|apply more_refl|constructor]. }
  destruct Ht as [Hc Hk]. eapply safe_bind; [by apply perform_spec|].
  intros o1 K1 [h1 r1] (->&Hm1&Hh1&He1&Hr1).
  eapply safe_bind; [by apply IH|]. intros o2 K2 log (->&Hm2&Hlog). simpl.
  split_and!; [done|by eapply more_trans|]. rewrite He1 in Hlog. constructor; [|done].
  eapply good_call_more; [done|]. exact Hr1.
Qed.

(** A handle that was just opened owns the record it carries. *)
Definition after_open (o' : option nonce) (K' : know) (r : result error Handle) : Prop :=
  match r with
  | Ok h => exists n, o' = Some n /\ handle_ok n K' h /\ h_fenced h = false
  | Err _ => True
  end.

Lemma Create_spec K selected published :
  safe None K (Create prefix vm selected published) after_open.
Proof.
  unfold Create. destruct (_ || _) eqn:E; simpl; [done|].
  apply orb_false_iff in E as [_ Hs%negb_false_iff]. split; [done|]. intros n Hn.
  eapply safe_bind; [apply put_spec; try done|].
  { split; [done|]. exists n. split; [done|]. by exists selected, published. }
  intros o1 K1 r1 (->&Hm1&Hr1). destruct r1 as [etag|err].
  { exists n. split_and!; try done. by apply handle_ok_new. }
  eapply safe_bind; [apply read_spec|]. intros o2 K2 r2 (->&Hm2&Hr2).
  destruct r2 as [[observed etag]|readErr]; [|by destruct (Is err ErrPrecondition)].
  destruct (mine observed (EpochOf selected) n) eqn:Em; simpl; [|done].
  apply mine_iff in Em as [_ ?]. exists n. split_and!; try done. by apply handle_ok_new.
Qed.

Lemma opening_spec r0 n joining r :
  opening r0 n joining = Ok r -> typed r0 ->
  match joining with Some j => zlen (Disk j) = 16 | None => True end ->
  rVM r = rVM r0 /\ typed r /\ Nonce r = n.
Proof.
  unfold opening, typed. destruct joining as [j|]; intros Hr Ht Hj.
  - destruct (_ >=? _); [done|]. injection Hr as <-. simpl. destruct Ht. split_and!; try done.
    apply Forall_app. split; [done|]. by constructor.
  - injection Hr as <-. by destruct Ht.
Qed.

Lemma open_loop_spec fuel n K epoch joining :
  match joining with Some j => zlen (Disk j) = 16 | None => True end ->
  safe (Some n) K (open_loop prefix fuel vm epoch joining n) after_open.
Proof.
  intros Hj. revert K. induction fuel as [|fuel IH]; intros K; [done|]. simpl.
  eapply safe_bind; [apply read_spec|]. intros o1 K1 r1 (->&Hm1&Hr1).
  destruct r1 as [[current etag]|err]; [|done].
  destruct (_ && _); [done|]. destruct (Epoch current >=? MaximumEpoch) eqn:Ee; [done|]. zbool.
  destruct (opening current n joining) as [next|e] eqn:Eo; [|done].
  destruct (knows_typed _ _ _ Hr1) as (_&Hvm&Ht).
  destruct (opening_spec _ _ _ _ Eo Ht Hj) as (Hvm'&Ht'&Hn).
  eapply safe_bind; [apply put_spec; [congruence|done|]|].
  { exists current. split_and!; [done| |done]. apply allow_open. split; [done|]. by exists joining. }
  intros o2 K2 r2 (->&Hm2&Hr2). destruct r2 as [etag'|err].
  { exists n. split_and!; try done. by apply handle_ok_new. }
  destruct (Is err ErrPrecondition); [apply IH|].
  eapply safe_bind; [apply read_spec|]. intros o3 K3 r3 (->&Hm3&Hr3).
  destruct r3 as [[observed etag']|readErr]; [|done].
  destruct (mine observed (Epoch next) n) eqn:Em.
  { apply mine_iff in Em as [_ ?]. exists n. split_and!; try done. by apply handle_ok_new. }
  destruct (_ >=? _); [apply IH|done].
Qed.

Lemma open_spec fuel K epoch joining :
  match joining with Some j => zlen (Disk j) = 16 | None => True end ->
  safe None K (open prefix fuel vm epoch joining) after_open.
Proof. intros Hj. unfold open. destruct (negb _); [done|]. split; [done|]. intros n Hn. by apply open_loop_spec. Qed.

(** ** Clients without a handle *)

Definition good_outcome (o : option nonce) (K : know) (out : outcome) : Prop :=
  match out with
  | OSession (Ok h) log =>
    exists n, o = Some n /\ handle_ok n K h /\ h_fenced h = false /\
      Forall (good_call n (h_epoch h) K) log
  | OPin s (Ok ref) =>
    VM ref = vm /\ (s <> 0 -> Seq ref = s) /\ exists r, durable K r /\ IsPinned r (Seq ref) = true
  | ORelease s (Ok r) => durable K r /\ IsKept r s = false
  | ORemove (Ok r) => durable K r
  | _ => True
  end.

Lemma pin_loop_spec opens fuel K s :
  safe_in opens None K (pin_loop prefix fuel vm s) (fun o' K' r => good_outcome o' K' (OPin s r)).
Proof.
  revert K. induction fuel as [|fuel IH]; intros K; [done|]. simpl.
  eapply safe_bind; [apply read_spec|]. intros o1 K1 r1 (->&Hm1&Hr1).
  destruct r1 as [[current etag]|err]; [|done].
  set (wanted := if s =? 0 then Selected current else s).
  assert (s <> 0 -> wanted = s) as Hw by (subst wanted; zcases; lia).
  destruct (IsPinned current wanted) eqn:Ep.
  { split_and!; try done. exists current. split; [by exists etag|done]. }
  destruct (_ && _) eqn:En; [done|]. destruct (admits current wanted) as [e|] eqn:Ea; [done|].
  destruct (knows_typed _ _ _ Hr1) as (_&Hvm&Ht).
  set (next := with_pinned current (withPin current wanted)).
  assert (IsPinned next wanted = true) as Hp by (apply IsPinned_iff; apply elem_of_withPin; by left).
  eapply safe_bind; [apply put_spec; [done|done|]|].
  { exists current. split_and!; [done| |done]. apply allow_client_pin. exists wanted. split_and!; try done.
    apply andb_false_iff in En as [[E1%negb_false_iff E2%negb_false_iff]%orb_false_iff|E%negb_false_iff].
    - left. by apply Z.eqb_eq in E1.
    - by right. }
  intros o2 K2 r2 (->&Hm2&Hr2). destruct r2 as [etag'|err].
  { split_and!; try done. exists next. split; [by exists etag'|done]. }
  destruct (Is err ErrPrecondition); [apply IH|].
  eapply safe_bind; [apply read_spec|]. intros o3 K3 r3 (->&Hm3&Hr3).
  destruct r3 as [[observed etag']|readErr]; [|done].
  destruct (IsPinned observed wanted) eqn:Eo.
  { split_and!; try done. exists observed. split; [by exists etag'|done]. }
  destruct (equal observed current); [done|apply IH].
Qed.

Lemma release_loop_spec opens fuel K s :
  safe_in opens None K (release_loop prefix fuel vm s) (fun o' K' r => good_outcome o' K' (ORelease s r)).
Proof.
  revert K. induction fuel as [|fuel IH]; intros K; [done|]. simpl.
  eapply safe_bind; [apply read_spec|]. intros o1 K1 r1 (->&Hm1&Hr1).
  destruct r1 as [[current etag]|err]; [|done].
  destruct (IsKept current s) eqn:Ek; [|done]. destruct (IsPinned current s) eqn:Ep; [done|]. simpl.
  destruct (knows_typed _ _ _ Hr1) as (_&Hvm&Ht).
  set (next := with_kept current (withoutKept current s)).
  assert (IsKept next s = false) as Hn.
  { apply not_true_is_false. intros Hin%IsKept_iff. by apply elem_of_withoutKept in Hin as [_ ?]. }
  assert (typed next) as Htn.
  { destruct Ht as [? Htk]. split; [done|]. rewrite Forall_forall in *. intros x [_ Hx]%list_elem_of_filter. auto. }
  eapply safe_bind; [apply put_spec; [done|done|]|].
  { exists current. split_and!; [done| |done]. apply allow_release. by exists s. }
  intros o2 K2 r2 (->&Hm2&Hr2). destruct r2 as [etag'|err]; [by split; [exists etag'|]|].
  destruct (Is err ErrPrecondition); [apply IH|].
  eapply safe_bind; [apply read_spec|]. intros o3 K3 r3 (->&Hm3&Hr3).
  destruct r3 as [[observed etag']|readErr]; [|done].
  destruct (IsKept observed s) eqn:Eo; simpl; [|by split; [exists etag'|]].
  destruct (equal observed current); [done|apply IH].
Qed.

Lemma remove_loop_spec opens fuel K :
  safe_in opens None K (remove_loop prefix fuel vm) (fun o' K' r => good_outcome o' K' (ORemove r)).
Proof.
  revert K. induction fuel as [|fuel IH]; intros K; [done|]. simpl.
  eapply safe_bind; [apply read_spec|]. intros o1 K1 r1 (->&Hm1&Hr1).
  destruct r1 as [[current etag]|err]; [|done]. simpl.
  split_and!; [done|by exists etag|]. intros err He. destruct (Is err ErrPrecondition); [apply IH|].
  eapply safe_bind; [apply read_spec|]. intros o3 K3 r3 (->&Hm3&Hr3).
  destruct r3 as [[observed etag']|readErr].
  - destruct (_ =? _)%string; [done|apply IH].
  - destruct (Is readErr ErrNotFound); [|done]. exists etag. by eapply knows_more.
Qed.

Lemma session_spec fuel K opened s :
  safe None K opened after_open -> typed_strategy s ->
  safe None K (run_session fuel opened s) good_outcome.
Proof.
  intros Ho Hs. unfold run_session, session. eapply safe_bind with (R := fun o' K' '(h, log) => good_outcome o' K' (OSession h log)).
  - eapply safe_bind; [exact Ho|]. intros o1 K1 [h|e]; [|done]. intros (n&->&Hh&Hf).
    eapply safe_bind; [by apply serve_spec|]. intros o2 K2 log (->&Hm&Hlog). exists n.
    split_and!; try done. by eapply handle_ok_more.
  - by intros o' K' [h log].
Qed.

Lemma client_program_safe p : client_program p -> forall K, safe None K p good_outcome.
Proof.
  intros Hp K. destruct Hp; try (by apply session_spec; [apply open_spec|]).
  - apply session_spec; [apply Create_spec|done].
  - apply session_spec; [|done]. unfold OpenMigration. destruct (_ || _); [done|]. by apply open_spec.
  - eapply safe_bind; [|by intros o' K' a Ha; exact Ha]. unfold Pin. destruct (negb _); [done|apply pin_loop_spec].
  - eapply safe_bind; [|by intros o' K' a Ha; exact Ha].
    unfold Release. destruct (_ || _); [done|apply release_loop_spec].
  - eapply safe_bind; [|by intros o' K' a Ha; exact Ha].
    unfold Remove. destruct (key prefix vm); [apply remove_loop_spec|done].
  - unfold Delete. destruct (key prefix vm); simpl; [|done]. done.
Qed.

(** ** The invariant of a run *)

Definition request_ok (issued : gmap string W) (o : option nonce) (r : request) : Prop :=
  match r with
  | RPut d IfNoneMatch => permitted o None (Some d)
  | RPut d (IfMatch e) => exists d0, issued !! e = Some d0 /\ permitted o (Some d0) (Some d)
  | RDel _ => o = None
  end.

Fixpoint chained (from : option W) (events : list event) (to : option W) : Prop :=
  match events with
  | [] => from = to
  | ev :: events =>
    before ev = from /\ permitted (actor ev) (before ev) (after ev) /\ chained (after ev) events to
  end.

Definition sound (issued : gmap string W) (K : know) : Prop := forall e d, K e d -> issued !! e = Some d.

Record Inv (w : world) : Prop := {
  inv_stored d e : stored w = Some (d, e) -> issued w !! e = Some d;
  inv_pending o r : (o, r) ∈ pending w -> request_ok (issued w) o r;
  inv_threads i t : threads w !! i = Some t ->
    exists K, sound (issued w) K /\ safe (own t) K (code t) good_outcome;
  inv_trace : chained None (trace w) (fst <$> stored w);
  inv_issued e d : issued w !! e = Some d -> exists ev, ev ∈ trace w /\ after ev = Some d;
  inv_used i t n : threads w !! i = Some t -> own t = Some n -> n ∈ used w;
  inv_owners i j t u n :
    threads w !! i = Some t -> threads w !! j = Some u -> own t = Some n -> own u = Some n -> i = j;
}.

Lemma chained_snoc from events to ev :
  chained from events (before ev) -> permitted (actor ev) (before ev) (after ev) -> after ev = to ->
  chained from (events ++ [ev]) to.
Proof. revert from. induction events as [|x l IH]; simpl; naive_solver. Qed.

Lemma sound_more issued issued' K : issued ⊆ issued' -> sound issued K -> sound issued' K.
Proof. intros Hs HK e d Hd%HK. by eapply lookup_weaken. Qed.

Lemma sound_learn issued K e d : sound issued K -> issued !! e = Some d -> sound issued (learn K e d).
Proof. intros HK He e' d' [?|[-> ->]]; auto. Qed.

Lemma request_ok_more issued issued' o r : issued ⊆ issued' -> request_ok issued o r -> request_ok issued' o r.
Proof.
  destruct r as [d [|e]|m]; simpl; try done. intros Hs (d0&?&?). exists d0. split; [by eapply lookup_weaken|done].
Qed.

(** A request that lands makes a permitted change. *)
Lemma lands_inv w o r e w' :
  Inv w -> request_ok (issued w) o r -> lands w o r e w' ->
  Inv w' /\ issued w ⊆ issued w' /\ threads w' = threads w /\ used w' = used w /\
  (forall d c e', r = RPut d c -> e = Some e' -> issued w' !! e' = Some d).
Proof.
  intros [Hs Hp Ht Htr Hi Hu Ho] Hr Hl. destruct Hl as [d c e Hm He|m d e Hd Hm].
  - assert (issued w ⊆ <[e := d]> (issued w)) as Hsub.
    { destruct He as [He|He]; [by apply insert_subseteq|]. by rewrite insert_id. }
    split_and!; simpl; try done; [|intros ??? [= -> ->] [= ->]; apply lookup_insert_eq].
    split; simpl; try done.
    + intros d' e' [= -> ->]. apply lookup_insert_eq.
    + intros o' r' Hin. eapply request_ok_more; eauto.
    + intros i t Hlk. destruct (Ht i t Hlk) as (K&HK&?). exists K. split; [by eapply sound_more|done].
    + eapply chained_snoc; simpl; [exact Htr| |done]. destruct c as [|e0]; simpl in *.
      * by destruct (stored w) as [[]|].
      * destruct (stored w) as [[d1 e1]|] eqn:Es; [|done]. apply String.eqb_eq in Hm as ->.
        destruct Hr as (d0&Hd0&Hperm). rewrite (Hs d1 e1) in Hd0 by done. by injection Hd0 as ->.
    + intros e' d' Hlk. destruct (decide (e' = e)) as [->|Hne].
      * rewrite lookup_insert_eq in Hlk. injection Hlk as <-. exists (mkEvent o (fst <$> stored w) (Some d)). set_solver.
      * rewrite lookup_insert_ne in Hlk by done. destruct (Hi e' d' Hlk) as (ev&?&?). exists ev. set_solver.
  - split_and!; simpl; try done. split; simpl; try done.
    + eapply chained_snoc; simpl; [|simpl in Hr; by rewrite Hr|done]. by rewrite Hd in Htr.
    + intros e' d' Hlk. destruct (Hi e' d' Hlk) as (ev&?&?). exists ev. set_solver.
Qed.

Lemma resume_inv w i o p p' K :
  Inv w -> threads w !! i = Some (mkThread o p) -> sound (issued w) K -> safe o K p' good_outcome ->
  Inv (resume w i (mkThread o p')).
Proof.
  intros [Hs Hp Ht Htr Hi Hu Ho] Hlk HK Hsafe.
  assert (forall j u, <[i := mkThread o p']> (threads w) !! j = Some u ->
    (j = i /\ u = mkThread o p') \/ threads w !! j = Some u) as Hcase.
  { intros j u Hj. apply list_lookup_insert_Some in Hj. naive_solver. }
  assert (forall j u, <[i := mkThread o p']> (threads w) !! j = Some u ->
    exists u', threads w !! j = Some u' /\ own u' = own u) as Hown.
  { intros j u Hj. destruct (Hcase j u Hj) as [[-> ->]|?]; eauto. }
  split; simpl; try done.
  - intros j u Hj. destruct (Hcase j u Hj) as [[-> ->]|Hj']; [by exists K|by eapply Ht].
  - intros j u n Hj Hn. destruct (Hown j u Hj) as (u'&?&Heq). eapply Hu; [done|congruence].
  - intros j1 j2 u1 u2 n H1 H2 Hn1 Hn2.
    destruct (Hown j1 u1 H1) as (u1'&?&?), (Hown j2 u2 H2) as (u2'&?&?).
    eapply (Ho j1 j2 u1' u2' n); congruence.
Qed.

Lemma delay_inv w o r : Inv w -> request_ok (issued w) o r -> Inv (delay w o r).
Proof.
  intros [Hs Hp Ht Htr Hi Hu Ho] Hr. split; simpl; try done.
  intros o' r' [[= -> ->]|?]%elem_of_cons; auto.
Qed.

Lemma fill_inv w i o k n :
  Inv w -> threads w !! i = Some (mkThread o (Fill k)) -> n ∉ used w -> zlen n = nonceSize ->
  Inv (resume (use w n) i (mkThread (Some n) (k n))).
Proof.
  intros [Hs Hp Ht Htr Hi Hu Ho] Hlk Hn Hz.
  assert (forall j u, <[i := mkThread (Some n) (k n)]> (threads w) !! j = Some u ->
    (j = i /\ u = mkThread (Some n) (k n)) \/ (j <> i /\ threads w !! j = Some u)) as Hcase.
  { intros j u Hj. apply list_lookup_insert_Some in Hj. naive_solver. }
  split; simpl; try done.
  - intros j u Hj. destruct (Hcase j u Hj) as [[-> ->]|[_ Hj']]; [|by eapply Ht].
    destruct (Ht i _ Hlk) as (K&HK&Hsafe). exists K. split; [done|]. by apply Hsafe.
  - intros j u m Hj Hm. destruct (Hcase j u Hj) as [[-> ->]|[_ Hj']]; simpl in *.
    + injection Hm as ->. left.
    + right. by eapply Hu.
  - intros j1 j2 u1 u2 m H1 H2 Hm1 Hm2.
    destruct (Hcase j1 u1 H1) as [[-> ->]|[? Hj1]], (Hcase j2 u2 H2) as [[-> ->]|[? Hj2]]; simpl in *; try done.
    + injection Hm1 as ->. exfalso. by eapply Hn, Hu.
    + injection Hm2 as ->. exfalso. by eapply Hn, Hu.
    + by eapply Ho.
Qed.

Lemma put_request_ok issued o K d c :
  sound issued K -> put_permitted true o K d c -> request_ok issued o (RPut d c).
Proof. destruct c as [|e]; simpl; [by intros _ [_ ?]|]. intros HK (d0&r0&?&?&?&?). exists d0. eauto. Qed.

Lemma step_inv w w' : Inv w -> step w w' -> Inv w'.
Proof.
  intros HI Hstep. destruct Hstep as [i o k reply Hlk Hr|i o d c k e w1 Hlk Hl|i o d c k e w1 err Hlk Hl He
    |i o d c k err Hlk He|i o d c k err Hlk He|i o m k w1 reply Hlk Hl He|i o m k reply Hlk He|i o m k err Hlk He
    |j o r e w1 Hj Hl|i o k n Hlk Hn Hz|i o k t Hlk|i o k reply Hlk He|i o k b Hlk];
    try (destruct (inv_threads _ HI _ _ Hlk) as (K&HK&Hs); simpl in Hs).
  - destruct Hs as [Hok Herr]. destruct reply as [[d e]|err].
    + eapply resume_inv; [done..| |apply Hok]. apply sound_learn; [done|]. by eapply inv_stored.
    + eapply resume_inv; [done..|]. apply Herr, Hr.
  - destruct Hs as (Hp&Hok&_).
    destruct (lands_inv w o _ _ w1 HI (put_request_ok _ _ _ _ _ HK Hp) Hl) as (HI1&Hsub&Hth&_&Hiss).
    eapply resume_inv; [done|by rewrite Hth| |apply Hok].
    apply sound_learn; [by eapply sound_more|by eapply Hiss].
  - destruct Hs as (Hp&_&Herr).
    destruct (lands_inv w o _ _ w1 HI (put_request_ok _ _ _ _ _ HK Hp) Hl) as (HI1&Hsub&Hth&_&Hiss).
    eapply resume_inv; [done|by rewrite Hth|by eapply sound_more|by apply Herr].
  - destruct Hs as (_&_&Herr). eapply resume_inv; [done..|by apply Herr].
  - destruct Hs as (Hp&_&Herr). eapply resume_inv; [|done|exact HK|by apply Herr].
    apply delay_inv; [done|by eapply put_request_ok].
  - destruct Hs as (->&Hnone&Herr).
    destruct (lands_inv w None (RDel m) _ w1 HI eq_refl Hl) as (HI1&Hsub&Hth&_&_).
    eapply resume_inv; [done|by rewrite Hth|by eapply sound_more|]. destruct reply; auto.
  - destruct Hs as (->&Hnone&Herr). eapply resume_inv; [done..|]. destruct reply; auto.
  - destruct Hs as (->&Hnone&Herr). eapply resume_inv; [|done|exact HK|by apply Herr].
    by apply delay_inv.
  - eapply lands_inv in Hl; [by destruct Hl|done|]. eapply inv_pending; [done|].
    by eapply list_elem_of_lookup_2.
  - by eapply fill_inv.
  - eapply resume_inv; [done..|by apply Hs].
  - destruct Hs as [Hnone Herr]. eapply resume_inv; [done..|]. destruct reply; auto.
  - eapply resume_inv; [done..|apply Hs].
Qed.

Lemma initial_inv w : initial w -> Inv w.
Proof.
  intros (Hs&Hi&Hp&Hu&Htr&Hth). rewrite Forall_lookup in Hth.
  split; rewrite ?Hs, ?Hi, ?Hp, ?Hu, ?Htr; try done.
  - intros o r ?%elem_of_nil. done.
  - intros i t Hlk. destruct (Hth i t Hlk) as [-> Hc]. exists (fun _ _ => False).
    split; [by intros ? ? []|]. by apply client_program_safe.
  - intros i t n Hlk Hn. destruct (Hth i t Hlk) as [Ho _]. congruence.
  - intros i j t u n Hlk _ Hn. destruct (Hth i t Hlk) as [Ho _]. congruence.
Qed.

Lemma reachable_inv w : reachable w -> Inv w.
Proof.
  intros (w0&Hw0&Hst). apply initial_inv in Hw0. induction Hst as [|w1 w2 w3 H12 _ IH]; [done|].
  apply IH. by eapply step_inv.
Qed.

(** ** How the record changes *)

(** What holds of a record and of every later one, as long as the VM is not
    deleted in between. *)
Record later (r0 r : Record_) : Prop := {
  later_vm : rVM r = rVM r0;
  later_epoch : Epoch r0 <= Epoch r;
  later_nonce : Epoch r = Epoch r0 -> Nonce r = Nonce r0;
  later_selected : Selected r0 <= Selected r;
  later_created : Created r0 = true -> Created r = true;
  (** a selection that changed was made at an epoch no earlier *)
  later_fenced : Selected r = Selected r0 \/
    exists epoch, Epoch r0 <= epoch <= Epoch r /\ ValidSequence epoch (Selected r) = true;
  later_pinned s : IsPinned r0 s = true -> IsPinned r s = true;
  (** a release never takes a checkpoint a fork was taken from *)
  later_kept s : IsKept r0 s = true -> IsPinned r0 s = true -> IsKept r s = true;
}.

Lemma later_refl r : later r r.
Proof. split; try done. by left. Qed.

Lemma later_trans r1 r2 r3 : later r1 r2 -> later r2 r3 -> later r1 r3.
Proof.
  intros [V1 E1 N1 S1 C1 F1 P1 K1] [V2 E2 N2 S2 C2 F2 P2 K2]. split; try congruence; try lia; auto.
  - intros ?. rewrite N2 by lia. apply N1. lia.
  - destruct F2 as [F2|(e&?&?)]; [|right; exists e; split; [lia|done]].
    rewrite F2. destruct F1 as [F1|(e&?&?)]; [by left|]. right. exists e. split; [lia|done].
Qed.

Lemma allowed_later o r0 r : allowed o r0 r -> later r0 r.
Proof.
  intros Hall. destruct Hall as [n r0 r (He&j&Ho)|n r0 r Hn (s&k&js&Hm&Hk)|n r0 r Hn (s&Hm)|r0 r (s&?&?&?&->)|r0 r (s&?&Hp&->)].
  - revert Ho. unfold opening. destruct j; [destruct (_ >=? _); [done|]|]; intros [= <-];
      (split; simpl; try done; try lia; by left).
  - revert Hm. unfold select_mutation. destruct (_ && _) eqn:Ev; [done|].
    destruct (s <? Selected r0) eqn:Es; [done|]. zbool.
    assert (s = Selected r0 \/ exists epoch, Epoch r0 <= epoch <= Epoch r0 /\ ValidSequence epoch s = true) as Hs.
    { destruct Ev as [Ev|Ev]; zbool; [|by left]. right. exists (Epoch r0). split; [lia|done]. }
    clear Ev. destruct k as [k|]; [destruct (withKept r0 k) as [l|] eqn:Ek; [|done]|];
      (destruct (negb _); [done|]); intros [= <-]; split; simpl; try done.
    intros x Hx _. apply IsKept_iff. simpl. apply (elem_of_withKept r0 k l x Ek). right. by apply IsKept_iff.
  - revert Hm. unfold pin_mutation. destruct (s =? 0); [done|]. destruct (admits r0 s); [done|].
    intros [= <-]. split; simpl; try done; [by left|].
    intros x Hx%IsPinned_iff. apply IsPinned_iff. simpl. apply elem_of_withPin. by right.
  - split; simpl; try done; [by left|].
    intros x Hx%IsPinned_iff. apply IsPinned_iff. simpl. apply elem_of_withPin. by right.
  - split; simpl; try done; [by left|].
    intros x Hx%IsKept_iff Hxp. apply IsKept_iff. apply elem_of_withoutKept. split; [done|]. congruence.
Qed.

Definition deleted (ev : event) : Prop := after ev = None.

Lemma chained_app from l1 l2 to :
  chained from (l1 ++ l2) to <-> exists m, chained from l1 m /\ chained m l2 to.
Proof. revert from. induction l1 as [|x l IH]; simpl; intros from; naive_solver. Qed.

Lemma chained_later d0 t d :
  chained (Some d0) t (Some d) -> Forall (fun ev => ~ deleted ev) t ->
  d = d0 \/ exists r0 r, parsed d0 = Some r0 /\ parsed d = Some r /\ later r0 r.
Proof.
  revert d0. induction t as [|ev t IH]; simpl; intros d0; [intros [= ->]; by left|].
  intros (Hb&Hp&Hc) [Hd Ht]%Forall_cons. right. rewrite Hb in Hp.
  destruct (after ev) as [d1|] eqn:Ea; [|by destruct Hd].
  destruct Hp as (r0&r1&Hr0&Hr1&Hall). apply allowed_later in Hall.
  destruct (IH d1 Hc Ht) as [->|(r1'&r&Hr1'&Hr&Hl)]; [by eauto|].
  exists r0, r. split_and!; try done. eapply later_trans; [exact Hall|]. congruence.
Qed.

Lemma step_trace w w' : step w w' -> exists t, trace w' = trace w ++ t.
Proof.
  assert (forall o r e w1, lands w o r e w1 -> exists t, trace w1 = trace w ++ t) as Hl.
  { intros o r e w1 []; simpl; eauto. }
  destruct 1; simpl; eauto; exists []; by rewrite app_nil_r.
Qed.

Lemma steps_trace w w' : rtc step w w' -> exists t, trace w' = trace w ++ t.
Proof.
  induction 1 as [w|w1 w2 w3 H12 _ [t IH]]; [exists []; by rewrite app_nil_r|].
  destruct (step_trace _ _ H12) as [t' Ht']. exists (t' ++ t). by rewrite IH, Ht', app_assoc.
Qed.

Lemma reachable_steps w w' : reachable w -> rtc step w w' -> reachable w'.
Proof. intros (w0&?&?) ?. exists w0. split; [done|]. by etrans. Qed.

(** The changes between two moments of a run. *)
Definition since (w w' : world) (t : list event) : Prop := rtc step w w' /\ trace w' = trace w ++ t.

Lemma since_chained w w' t :
  reachable w -> since w w' t -> chained (fst <$> stored w) t (fst <$> stored w').
Proof.
  intros Hr [Hst Ht]. pose proof (reachable_inv _ Hr) as HI.
  pose proof (reachable_inv _ (reachable_steps _ _ Hr Hst)) as HI'.
  pose proof (inv_trace _ HI') as Hc. rewrite Ht in Hc.
  apply chained_app in Hc as (m&H1&H2). pose proof (inv_trace _ HI) as H1'.
  assert (forall from l a b, chained from l a -> chained from l b -> a = b) as Hdet.
  { intros from l. revert from. induction l as [|x l IH]; simpl; naive_solver congruence. }
  by rewrite (Hdet _ _ _ _ H1 H1') in H2.
Qed.

(** The record the store holds. *)
Definition current (w : world) : option Record_ :=
  match stored w with Some (d, _) => parsed d | None => None end.

Lemma permitted_parsed o b d : permitted o b (Some d) -> exists r, parsed d = Some r.
Proof. destruct b as [d0|]; simpl; [intros (r0&r&?&?&?)|intros (n&r&?&?&?)]; eauto. Qed.

Lemma chained_parsed from t d :
  chained from t (Some d) -> (forall d0, from = Some d0 -> exists r, parsed d0 = Some r) -> exists r, parsed d = Some r.
Proof.
  revert from. induction t as [|ev t IH]; simpl; intros from; [naive_solver|].
  intros (Hb&Hp&Hc) _. apply (IH _ Hc). intros d0 Ha. rewrite Ha in Hp. by eapply permitted_parsed.
Qed.

Lemma stored_parsed w d e : reachable w -> stored w = Some (d, e) -> exists r, parsed d = Some r.
Proof.
  intros Hr Hs. pose proof (inv_trace _ (reachable_inv _ Hr)) as Hc. rewrite Hs in Hc.
  by eapply chained_parsed.
Qed.

(** A session opens when its write moves the epoch on. *)
Definition opened_by (n : nonce) (ev : event) : Prop :=
  actor ev = Some n /\ exists d0 d r0 r, before ev = Some d0 /\ after ev = Some d /\
    parsed d0 = Some r0 /\ parsed d = Some r /\ opens n r0 r.

Lemma allowed_nonce o r0 r n :
  allowed o r0 r -> Nonce r0 <> n -> o <> Some n \/ opens n r0 r.
Proof.
  intros Hall Hn. destruct Hall as [m r0 r Ho|m r0 r Hm _|m r0 r Hm _|r0 r _|r0 r _]; try (left; congruence).
  destruct (decide (m = n)) as [->|]; [by right|left; congruence].
Qed.

Lemma allowed_keeps_nonce o r0 r n :
  allowed o r0 r -> Nonce r0 <> n -> o <> Some n -> Nonce r <> n.
Proof.
  intros Hall Hn Ho.
  destruct Hall as [m r0 r (_&j&Hj)|m r0 r Hm (s&k&js&Hs&_)|m r0 r Hm (s&Hs)|r0 r (s&_&_&_&->)|r0 r (s&_&_&->)]; simpl; try done.
  - revert Hj. unfold opening. destruct j; [destruct (_ >=? _); [done|]|]; intros [= <-]; simpl; congruence.
  - revert Hs. unfold select_mutation. destruct (_ && _); [done|]. destruct (_ <? _); [done|].
    destruct k as [k|]; [destruct (withKept r0 k); [|done]|]; (destruct (negb _); [done|]); by intros [= <-].
  - revert Hs. unfold pin_mutation. destruct (s =? 0); [done|]. destruct (admits r0 s); [done|]. by intros [= <-].
Qed.

(** Until it opens again, a session whose nonce is not the record's changes
    nothing. *)
Lemma chained_fenced n d0 t to r0 :
  chained (Some d0) t to -> parsed d0 = Some r0 -> Nonce r0 <> n ->
  Forall (fun ev => ~ deleted ev) t -> Forall (fun ev => ~ opened_by n ev) t ->
  Forall (fun ev => actor ev <> Some n) t.
Proof.
  revert d0 r0. induction t as [|ev t IH]; simpl; intros d0 r0; [constructor|].
  intros (Hb&Hp&Hc) Hr0 Hn [Hd Hds]%Forall_cons [Ho Hos]%Forall_cons.
  rewrite Hb in Hp. destruct (after ev) as [d1|] eqn:Ea; [|by destruct Hd].
  destruct Hp as (r0'&r1&Hr0'&Hr1&Hall). assert (r0' = r0) as -> by congruence.
  assert (actor ev <> Some n) as Ha.
  { destruct (allowed_nonce _ _ _ _ Hall Hn) as [?|Hop]; [done|]. intros Heq. apply Ho.
    split; [done|]. by exists d0, d1, r0, r1. }
  constructor; [done|]. eapply (IH d1 r1); try done. by eapply allowed_keeps_nonce.
Qed.

(** ** An executable schedule *)

Inductive choice :=
| ChGet (i : nat)
| ChGetFail (i : nat)
| ChPut (i : nat) (e : ETag)
| ChPutLost (i : nat) (e : ETag)
| ChPutRefused (i : nat)
| ChPutDelayed (i : nat)
| ChDel (i : nat)
| ChLate (j : nat) (e : ETag)
| ChFill (i : nat) (n : nonce)
| ChNow (i : nat) (t : Z)
| ChLock (i : nat)
| ChClosed (i : nat) (b : bool).

Definition land (w : world) (o : option nonce) (r : request) (e : ETag) : option world :=
  match r with
  | RPut d c =>
    if meets (stored w) c && match issued w !! e with None => true | Some _ => false end then
      Some (mkWorld (Some (d, e)) (<[e := d]> (issued w)) (pending w) (used w) (threads w)
        (trace w ++ [mkEvent o (fst <$> stored w) (Some d)]))
    else None
  | RDel m =>
    match stored w with
    | Some (d, e') =>
      if match m with None => true | Some x => (x =? e')%string end then
        Some (mkWorld None (issued w) (pending w) (used w) (threads w) (trace w ++ [mkEvent o (Some d) None]))
      else None
    | None => None
    end
  end.

Definition exec1 (w : world) (c : choice) : option world :=
  match c with
  | ChGet i =>
    '(mkThread o p) ← threads w !! i;
    match p with
    | Get k => Some (resume w i (mkThread o (k (match stored w with Some x => Ok x | None => Err [ErrNotFound] end))))
    | _ => None
    end
  | ChGetFail i =>
    '(mkThread o p) ← threads w !! i;
    match p with Get k => Some (resume w i (mkThread o (k (Err [ErrOther])))) | _ => None end
  | ChPut i e =>
    '(mkThread o p) ← threads w !! i;
    match p with
    | Put d cond k => w' ← land w o (RPut d cond) e; Some (resume w' i (mkThread o (k (Ok e))))
    | _ => None
    end
  | ChPutLost i e =>
    '(mkThread o p) ← threads w !! i;
    match p with
    | Put d cond k => w' ← land w o (RPut d cond) e; Some (resume w' i (mkThread o (k (Err [ErrOther]))))
    | _ => None
    end
  | ChPutRefused i =>
    '(mkThread o p) ← threads w !! i;
    match p with Put d cond k => Some (resume w i (mkThread o (k (Err [ErrPrecondition])))) | _ => None end
  | ChPutDelayed i =>
    '(mkThread o p) ← threads w !! i;
    match p with
    | Put d cond k => Some (resume (delay w o (RPut d cond)) i (mkThread o (k (Err [ErrOther]))))
    | _ => None
    end
  | ChDel i =>
    '(mkThread o p) ← threads w !! i;
    match p with
    | Del m k => w' ← land w o (RDel m) ""%string; Some (resume w' i (mkThread o (k None)))
    | _ => None
    end
  | ChLate j e => '(o, r) ← pending w !! j; land w o r e
  | ChFill i n =>
    '(mkThread o p) ← threads w !! i;
    match p with
    | Fill k =>
      if bool_decide (n ∉ used w) && (zlen n =? nonceSize) then Some (resume (use w n) i (mkThread (Some n) (k n)))
      else None
    | _ => None
    end
  | ChNow i t =>
    '(mkThread o p) ← threads w !! i;
    match p with
    | Now k => if int64 t =? t then Some (resume w i (mkThread o (k t))) else None
    | _ => None
    end
  | ChLock i =>
    '(mkThread o p) ← threads w !! i;
    match p with Lock k => Some (resume w i (mkThread o (k None))) | _ => None end
  | ChClosed i b =>
    '(mkThread o p) ← threads w !! i;
    match p with IsClosed k => Some (resume w i (mkThread o (k b))) | _ => None end
  end.

Fixpoint run (cs : list choice) (w : world) : world :=
  match cs with
  | [] => w
  | c :: cs => match exec1 w c with Some w' => run cs w' | None => w end
  end.

Lemma land_lands w o r e w' :
  land w o r e = Some w' -> lands w o r (match r with RPut _ _ => Some e | RDel _ => None end) w'.
Proof.
  destruct r as [d c|m]; simpl.
  - destruct (_ && _) eqn:E; [|done]. intros [= <-]. apply andb_true_iff in E as [? E].
    constructor; [done|]. left. by destruct (issued w !! e).
  - destruct (stored w) as [[d e']|] eqn:Es; [|done]. destruct m as [x|].
    + destruct (x =? e')%string eqn:Ex; [|done]. apply String.eqb_eq in Ex as ->.
      intros [= <-]. econstructor; [done|]. by right.
    + intros [= <-]. econstructor; [done|]. by left.
Qed.

Lemma exec1_step w c w' : exec1 w c = Some w' -> step w w'.
Proof.
  assert (store_error [ErrOther]) by (repeat constructor; set_solver).
  assert (store_error [ErrPrecondition]) by (repeat constructor; set_solver).
  assert (forall o r e w1 w2, land w o r e = Some w1 -> w2 = w1 -> exists e', lands w o r e' w2) as Hl.
  { intros o r e w1 w2 Hw ->. eexists. by apply land_lands. }
  destruct c as [i|i|i e|i e|i|i|i|j e|i n|i t|i|i b]; simpl;
    try (destruct (threads w !! i) as [[o p]|] eqn:Hlk; [|done]; destruct p as [|k|d cd k|m k|k|k|k|k|]; try done; simpl).
  - intros [= <-]. apply step_get; [done|]. destruct (stored w) eqn:Es; simpl; [done|].
    split; [repeat constructor; set_solver|done].
  - intros [= <-]. apply step_get; [done|]. by split.
  - destruct (_ && _) eqn:E; [|done]. intros [= <-]. eapply step_put; [done|].
    apply (land_lands w o (RPut d cd) e). simpl. by rewrite E.
  - destruct (_ && _) eqn:E; [|done]. intros [= <-]. eapply step_put_lost; [done| |done].
    apply (land_lands w o (RPut d cd) e). simpl. by rewrite E.
  - intros [= <-]. by eapply step_put_refused.
  - intros [= <-]. by eapply step_put_delayed.
  - destruct (stored w) as [[d e']|] eqn:Es; [|done].
    destruct (match m with Some x => _ | None => _ end) eqn:Em; [|done]. intros [= <-].
    eapply step_del; [done| |done]. apply (land_lands w o (RDel m) ""%string). simpl. by rewrite Es, Em.
  - destruct (pending w !! j) as [[o r]|] eqn:Ep; [|done]. simpl. intros Hw.
    eapply step_late; [done|]. by apply land_lands.
  - destruct (_ && _) eqn:E; [|done]. intros [= <-]. apply andb_true_iff in E as [E1 E2].
    apply bool_decide_eq_true in E1. apply Z.eqb_eq in E2. by eapply step_fill.
  - destruct (int64 t =? t) eqn:E; [|done]. intros [= <-]. apply Z.eqb_eq in E.
    eapply step_now; [done|]. rewrite <- E. apply int64_range.
  - intros [= <-]. by eapply step_lock.
  - intros [= <-]. by eapply step_closed.
Qed.

Lemma run_steps cs w : rtc step w (run cs w).
Proof.
  revert w. induction cs as [|c cs IH]; intros w; simpl; [done|].
  destruct (exec1 w c) as [w'|] eqn:E; [|done]. eapply rtc_l; [by eapply exec1_step|apply IH].
Qed.

End Protocol.
End Protocol.
