(* ===== verification/ControlTakeover.v ===== *)
(** * A session that was taken over

    Why no write of a session lands once its record carries the nonce of
    another, the ones it made while it opened and that are still on their way
    included.  An open writes over records of other writers, but each of its
    writes is conditional on a record of a lower epoch than the handle it ends
    with; a session that has its handle writes over its own records only; and
    the epoch of the stored record never falls while the VM is not deleted.  *)

From S2P Require Import Prelude ControlRecord ControlClient ControlProtocol.
From Stdlib Require Import String.

#[local] Open Scope Z_scope.

Module Takeover.
Import Control Client Protocol.

Section Takeover.
Context {W : Type} `{WireLaws W}.
Variables (prefix vm : string).

Abbreviation nonce := (list byte).
Abbreviation parsed := (parsed (W := W) vm).
Abbreviation knows := (knows (W := W) vm).
Abbreviation safe_in := (safe_in (W := W) vm).
Abbreviation current := (current (W := W) vm).

(** ** The epochs an open writes over *)

Definition foreign_below (o : option nonce) (K : know) (c : PutConditions) (bound : Z) : Prop :=
  match c, o with
  | IfMatch e, Some n => exists r0, knows K e r0 /\ (Nonce r0 = n \/ Epoch r0 < bound)
  | _, _ => True
  end.

(** [tidy o K low bound p Q]: when the epoch of the record is at least [low],
    and every write of this session over another's record was conditional on
    an epoch below [bound], the program [p] keeps such bounds, and returns with
    ones that [Q] accepts. *)
Fixpoint tidy {A} (o : option nonce) (K : know) (low bound : Z) (p : prog W A)
  (Q : option nonce -> know -> Z -> Z -> A -> Prop) : Prop :=
  match p with
  | Ret a => Q o K low bound a
  | Get k =>
    (forall d e r, parsed d = Some r -> low <= Epoch r ->
       tidy o (learn K e d) (Epoch r) bound (k (Ok (d, e))) Q) /\
    (forall err, store_error err -> tidy o K low bound (k (Err err)) Q)
  | Put d c k =>
    exists bound', bound <= bound' /\ foreign_below o K c bound' /\
      (forall e r, parsed d = Some r -> low <= Epoch r ->
         tidy o (learn K e d) (Epoch r) bound' (k (Ok e)) Q) /\
      (forall err, store_error err -> tidy o K low bound' (k (Err err)) Q)
  | Del m k => tidy o K low bound (k None) Q /\ (forall err, store_error err -> tidy o K low bound (k (Some err)) Q)
  | Fill k => forall n, zlen n = nonceSize -> tidy (Some n) K low 0 (k n) Q
  | Now k => forall t, i64 t -> tidy o K low bound (k t) Q
  | Lock k => tidy o K low bound (k None) Q /\ (forall err, store_error err -> tidy o K low bound (k (Some err)) Q)
  | IsClosed k => forall b, tidy o K low bound (k b) Q
  | Spin => True
  end.

Lemma tidy_bind {A B} o K low bound (p : prog W A) (f : A -> prog W B) Q R :
  tidy o K low bound p R ->
  (forall o' K' low' bound' a, R o' K' low' bound' a -> tidy o' K' low' bound' (f a) Q) ->
  tidy o K low bound (bind p f) Q.
Proof.
  intros Hp Hf. revert o K low bound Hp. induction p; simpl; intros o K low bound Hp; try naive_solver.
Qed.

Lemma tidy_mono {A} o K low bound (p : prog W A) (Q R : option nonce -> know -> Z -> Z -> A -> Prop) :
  tidy o K low bound p R ->
  (forall o' K' low' bound' a, R o' K' low' bound' a -> Q o' K' low' bound' a) -> tidy o K low bound p Q.
Proof.
  intros Hp Hf. revert o K low bound Hp. induction p; simpl; intros o K low bound Hp; try naive_solver.
Qed.

(** A program that does not open moves no bound. *)
Lemma safe_tidy {A} o K low bound (p : prog W A) Q :
  safe_in false o K p Q ->
  tidy o K low bound p (fun o' K' low' bound' a => Q o' K' a /\ low <= low' /\ bound' = bound).
Proof.
  revert o K low. induction p as [a|k IH|d c k IH|m k IH|k IH|k IH|k IH|k IH|]; simpl; intros o K low Hp;
    try naive_solver.
  - destruct Hp as [Hok Herr]. split; [|naive_solver]. intros d e r _ Hle.
    eapply tidy_mono; [by apply IH|]. simpl. naive_solver lia.
  - destruct Hp as (Hput&Hok&Herr). exists bound. split_and!; [lia| | |naive_solver].
    + destruct c as [|e], o as [n|]; try done. destruct Hput as (d0&r0&?&?&_&Hown). exists r0.
      split; [by exists d0|]. left. by apply Hown.
    + intros e r _ Hle. eapply tidy_mono; [by apply IH|]. simpl. naive_solver lia.
Qed.

(** ** Opening *)

Lemma read_tidy o K low bound :
  tidy o K low bound (read prefix vm) (fun o' K' low' bound' res =>
    o' = o /\ more K K' /\ bound' = bound /\ low <= low' /\
    match res with Ok (r, e) => knows K' e r /\ low' = Epoch r | Err _ => True end).
Proof.
  unfold read. destruct (key prefix vm); simpl; [|by split_and!; [|apply more_refl| |lia|]]. split.
  - intros d e r Hr Hle. destruct (_ || _); simpl; [by split_and!; [|apply more_learn| | |]|].
    unfold Protocol.parsed in Hr. destruct (unmarshalRecord vm d) as [r'|] eqn:Eu; [|done]. injection Hr as ->.
    simpl. split_and!; try done; [apply more_learn|]. exists d. split; [by right|]. unfold Protocol.parsed. by rewrite Eu.
  - intros err _. simpl. by split_and!; [|apply more_refl| |lia|].
Qed.

Lemma put_tidy o K low bound bound' r c :
  rVM r = vm -> typed r -> bound <= bound' -> foreign_below o K c bound' ->
  tidy o K low bound (put prefix r c) (fun o' K' low' bound'' res =>
    o' = o /\ more K K' /\ bound'' <= bound' /\ low <= low' /\
    match res with Ok e => knows K' e r /\ low' = Epoch r | Err _ => True end).
Proof.
  intros Hvm Ht Hb Hf. unfold put. rewrite Hvm.
  destruct (key prefix vm); simpl; [|by split_and!; [|apply more_refl|done|lia|]].
  destruct (marshal r) as [d|] eqn:Em; simpl; [|by split_and!; [|apply more_refl|done|lia|]].
  pose proof (parsed_marshal vm r d Hvm Ht Em) as Hd. exists bound'. split_and!; try done.
  - intros e r' Hr' Hle. assert (r' = r) as -> by congruence.
    split_and!; try done; [apply more_learn|]. exists d. split; [by right|done].
  - intros err _. by split_and!; [|apply more_refl|lia|lia|].
Qed.

(** What an open leaves: a handle whose epoch the record has reached, and above
    every epoch it wrote over. *)
Definition opened_ok (o : option nonce) (K : know) (low bound : Z) (res : result error Handle) : Prop :=
  match res with
  | Ok h => exists n, o = Some n /\ handle_ok vm n K h /\ h_fenced h = false /\ bound <= h_epoch h <= low
  | Err _ => True
  end.

Lemma opened_new n K low bound r e :
  knows K e r -> Nonce r = n -> bound <= Epoch r -> low = Epoch r ->
  opened_ok (Some n) K low bound (Ok (newHandle r e)).
Proof. intros Hk Hn Hb ->. exists n. split_and!; try done. by apply handle_ok_new. Qed.

Lemma Create_tidy K low selected published :
  tidy None K low 0 (Create prefix vm selected published) opened_ok.
Proof.
  unfold Create. destruct (_ || _) eqn:E; [done|].
  apply orb_false_iff in E as [_ Hs%negb_false_iff]. intros n Hn.
  set (record := mkRecord vm (EpochOf selected) n selected published [] [] []).
  assert (forall (K' : know) e r, knows K' e r -> 0 <= Epoch r) as Hpos.
  { intros K' e r (d&_&Hr). apply parsed_valid in Hr as (Hv&_&_). apply valid_iff in Hv as (_&_&?&_). lia. }
  eapply tidy_bind; [apply (put_tidy _ _ _ _ 0 record); [done|by repeat constructor|lia|done]|].
  intros o1 K1 low1 b1 r1 (->&_&Hb1&_&Hr1). destruct r1 as [etag|err].
  { destruct Hr1 as [Hk ->]. apply opened_new; try done. pose proof (Hpos _ _ _ Hk). lia. }
  eapply tidy_bind; [apply read_tidy|]. intros o2 K2 low2 b2 r2 (->&_&->&_&Hr2).
  destruct r2 as [[observed etag]|readErr]; [|by destruct (Is err ErrPrecondition)].
  destruct (mine observed (EpochOf selected) n) eqn:Em; [|done]. apply mine_iff in Em as [_ Hm].
  destruct Hr2 as [Hk ->]. apply opened_new; try done. pose proof (Hpos _ _ _ Hk). lia.
Qed.

Lemma open_loop_tidy fuel n K low bound epoch joining :
  match joining with Some j => zlen (Disk j) = 16 | None => True end -> bound <= low + 1 ->
  tidy (Some n) K low bound (open_loop prefix fuel vm epoch joining n) opened_ok.
Proof.
  intros Hj. revert K low bound. induction fuel as [|fuel IH]; intros K low bound Hb; [done|]. simpl.
  eapply tidy_bind; [apply read_tidy|]. intros o1 K1 low1 b1 r1 (->&_&->&Hl1&Hr1).
  destruct r1 as [[current etag]|err]; [|done]. destruct Hr1 as [Hk1 ->].
  destruct (_ && _); [done|]. destruct (Epoch current >=? MaximumEpoch); [done|].
  destruct (opening current n joining) as [next|e] eqn:Eo; [|done].
  destruct (knows_typed vm _ _ _ Hk1) as (_&Hvm&Ht).
  destruct (opening_spec _ _ _ _ Eo Ht Hj) as (Hvm'&Ht'&Hn).
  assert (Epoch next = Epoch current + 1) as He.
  { revert Eo. unfold opening. destruct joining; [destruct (_ >=? _); [done|]|]; by intros [= <-]. }
  eapply tidy_bind; [apply (put_tidy _ _ _ _ (Epoch current + 1)); [congruence|done|lia|]|].
  { exists current. split; [done|]. right. lia. }
  intros o2 K2 low2 b2 r2 (->&_&Hb2&Hl2&Hr2). destruct r2 as [etag'|err].
  { destruct Hr2 as [Hk ->]. apply opened_new; try done. lia. }
  destruct (Is err ErrPrecondition); [apply IH; lia|].
  eapply tidy_bind; [apply read_tidy|]. intros o3 K3 low3 b3 r3 (->&_&->&Hl3&Hr3).
  destruct r3 as [[observed etag']|readErr]; [|done]. destruct Hr3 as [Hk ->].
  destruct (mine observed (Epoch next) n) eqn:Em.
  { apply mine_iff in Em as [? ?]. apply opened_new; try done. lia. }
  destruct (_ >=? _); [apply IH; lia|done].
Qed.

Lemma open_tidy fuel K low epoch joining :
  match joining with Some j => zlen (Disk j) = 16 | None => True end -> 0 <= low ->
  tidy None K low 0 (open prefix fuel vm epoch joining) opened_ok.
Proof. intros Hj Hl. unfold open. destruct (negb _); [done|]. intros n Hn. apply open_loop_tidy; [done|lia]. Qed.

Definition tidy_outcome (o : option nonce) (K : know (W := W)) (low bound : Z) (out : outcome) : Prop :=
  match out with OSession (Ok h) _ => bound <= h_epoch h <= low | _ => True end.

Lemma session_tidy fuel K opened s :
  tidy None K 0 0 opened opened_ok -> typed_strategy s ->
  tidy None K 0 0 (run_session prefix fuel opened s) tidy_outcome.
Proof.
  intros Ho Hs. unfold run_session, session.
  eapply tidy_bind with (R := fun o' K' low' bound' '(h, log) => tidy_outcome o' K' low' bound' (OSession h log)).
  - eapply tidy_bind; [exact Ho|]. intros o1 K1 low1 b1 [h|e]; [|done]. intros (n&->&Hh&Hf&Hb).
    eapply tidy_bind; [apply safe_tidy; by eapply (serve_spec prefix vm false)|].
    intros o2 K2 low2 b2 log (_&?&->). simpl. lia.
  - by intros o' K' low' bound' [h log].
Qed.

Lemma client_program_tidy p K : client_program prefix vm p -> tidy None K 0 0 p tidy_outcome.
Proof.
  assert (forall p Q, safe_in false None K p Q -> (forall o' K' a, Q o' K' a -> match a with OSession _ _ => False | _ => True end) ->
    tidy None K 0 0 p tidy_outcome) as Hother.
  { intros p' Q Hp HQ. eapply tidy_mono; [by apply safe_tidy|]. intros o' K' low' b' a [Ha _].
    specialize (HQ _ _ _ Ha). by destruct a. }
  intros Hp. destruct Hp; try (by apply session_tidy; [apply open_tidy|]).
  - apply session_tidy; [apply Create_tidy|done].
  - apply session_tidy; [|done]. unfold OpenMigration. destruct (_ || _); [done|]. by apply open_tidy.
  - eapply (Hother _ (fun _ _ a => exists r, a = OPin sequence r)); [|by intros ??? [? ->]].
    eapply safe_bind with (R := fun _ _ _ => True); [|by intros; eexists]. unfold Pin. destruct (negb _); [done|].
    eapply safe_mono; [apply pin_loop_spec|done].
  - eapply (Hother _ (fun _ _ a => exists r, a = ORelease sequence r)); [|by intros ??? [? ->]].
    eapply safe_bind with (R := fun _ _ _ => True); [|by intros; eexists]. unfold Release. destruct (_ || _); [done|].
    eapply safe_mono; [apply release_loop_spec|done].
  - eapply (Hother _ (fun _ _ a => exists r, a = ORemove r)); [|by intros ??? [? ->]].
    eapply safe_bind with (R := fun _ _ _ => True); [|by intros; eexists]. unfold Remove. destruct (key prefix vm); [|done].
    eapply safe_mono; [apply remove_loop_spec|done].
  - unfold Delete. destruct (key prefix vm); simpl; done.
Qed.

(** ** The bounds hold in every run *)

(** The epoch of the record is at least [low]; a record that was never created
    has none. *)
Definition reached (w : world (W := W)) (low : Z) : Prop :=
  match current w with Some r => low <= Epoch r | None => low <= 0 end.

(** Every write of the session that is on its way over another's record is
    conditional on an epoch below [bound]. *)
Definition bounded (w : world) (o : option nonce) (bound : Z) : Prop :=
  forall n d e d0 r0, o = Some n -> (Some n, RPut d (IfMatch e)) ∈ pending w ->
    issued w !! e = Some d0 -> parsed d0 = Some r0 -> Nonce r0 = n \/ Epoch r0 < bound.

Definition thread_ok (w : world) (t : thread) : Prop :=
  exists K low bound, sound (issued w) K /\ tidy (own t) K low bound (code t) tidy_outcome /\
    reached w low /\ bounded w (own t) bound.

Record Tidy (w : world) : Prop := {
  tidy_used n r : (Some n, r) ∈ pending w -> n ∈ used w;
  tidy_threads i t : threads w !! i = Some t -> thread_ok w t;
}.

(** What a step of another client leaves of a session's bounds. *)
Record extends (w w' : world) (o : option nonce) : Prop := {
  extends_reached low : reached w low -> reached w' low;
  extends_issued : issued w ⊆ issued w';
  extends_pending n r : o = Some n -> (Some n, r) ∈ pending w' -> (Some n, r) ∈ pending w;
}.

Lemma extends_bounded w w' o bound :
  Inv vm w -> extends w w' o -> bounded w o bound -> bounded w' o bound.
Proof.
  intros HI [_ Hi Hp] Hb n d e d0 r0 Ho Hin Hd0 Hr0. pose proof (Hp n _ Ho Hin) as Hin'.
  destruct (inv_pending vm w HI _ _ Hin') as (d1&Hd1&_).
  assert (d1 = d0) as -> by (eapply lookup_weaken in Hd1; [|exact Hi]; congruence).
  by eapply Hb.
Qed.

Lemma thread_ok_extends w w' t : Inv vm w -> extends w w' (own t) -> thread_ok w t -> thread_ok w' t.
Proof.
  intros HI He (K&low&bound&HK&Ht&Hr&Hb). exists K, low, bound. split_and!; try done.
  - eapply sound_more; [apply He|done].
  - by apply He.
  - by eapply extends_bounded.
Qed.

(** A write that lands moves the epoch on. *)
Lemma lands_extends w who d c e w' :
  Inv vm w -> request_ok vm (issued w) who (RPut d c) -> lands w who (RPut d c) (Some e) w' ->
  exists r, parsed d = Some r /\ current w' = Some r /\ stored w' = Some (d, e) /\
    (forall low, reached w low -> low <= Epoch r) /\ issued w ⊆ issued w' /\ pending w' = pending w /\
    threads w' = threads w /\ used w' = used w.
Proof.
  intros HI Hok Hl. destruct (lands_inv vm w who _ _ w' HI Hok Hl) as (HI'&Hsub&Hth&Hu&_).
  pose proof (inv_trace vm w' HI') as Hc. inversion Hl as [d' c' e' Hm He|]; subst; simpl in *. clear HI'.
  destruct (chained_parsed vm _ _ _ Hc ltac:(done)) as [r Hr]. exists r. split_and!; try done.
  intros low. unfold reached, Protocol.current. pose proof (parsed_valid vm d r Hr) as (Hv&_).
  apply valid_iff in Hv as (_&_&?&_). destruct c as [|e0], (stored w) as [[d1 e1]|] eqn:Es; simpl in *; try done; [lia|].
  apply String.eqb_eq in Hm as ->. destruct Hok as (d0&Hd0&r0&r'&Hr0&Hr'&Hall).
  rewrite (inv_stored vm w HI _ _ Es) in Hd0. injection Hd0 as ->. rewrite Hr0.
  assert (r' = r) as -> by congruence. pose proof (later_epoch _ _ (allowed_later _ _ _ Hall)). lia.
Qed.

Lemma resume_tidy w w' i t t' :
  Inv vm w -> Tidy w -> threads w !! i = Some t ->
  (forall j u, j <> i -> threads w !! j = Some u -> extends w w' (own u)) ->
  threads w' = threads w -> (forall n r, (Some n, r) ∈ pending w' -> n ∈ used w') ->
  thread_ok w' t' -> Tidy (resume w' i t').
Proof.
  intros HI [Hu Ht] Hlk Hext Hth Hu' Hok. split; [done|]. simpl. intros j u Hj. rewrite Hth in Hj.
  destruct (decide (j = i)) as [->|Hne].
  - apply list_lookup_insert_Some in Hj as [(_&<-&_)|[? _]]; done.
  - rewrite list_lookup_insert_ne in Hj by done.
    apply (thread_ok_extends w w'); [done|by eapply Hext|by eapply Ht].
Qed.

Lemma extends_refl w o : extends w w o.
Proof. split; done. Qed.

Lemma lands_extends_others w who d c e w' o :
  Inv vm w -> request_ok vm (issued w) who (RPut d c) -> lands w who (RPut d c) (Some e) w' -> extends w w' o.
Proof.
  intros HI Hok Hl. destruct (lands_extends w who d c e w' HI Hok Hl) as (r&_&Hc&_&Hlow&Hsub&Hp&_).
  split; [|done|by rewrite Hp]. intros low Hr. unfold reached. rewrite Hc. by apply Hlow.
Qed.

Lemma thread_put w i o d c k :
  Inv vm w -> threads w !! i = Some (mkThread o (Put d c k)) -> request_ok vm (issued w) o (RPut d c).
Proof.
  intros HI Hlk. destruct (inv_threads vm w HI _ _ Hlk) as (K&HK&Hs). simpl in Hs.
  by eapply put_request_ok; [|apply Hs].
Qed.

(** The bound a write of its own leaves a session, on its way or not. *)
Lemma delayed_bounded w o d c K bound bound' :
  Inv vm w -> sound (issued w) K -> bound <= bound' -> foreign_below o K c bound' ->
  bounded w o bound -> bounded (delay w o (RPut d c)) o bound'.
Proof.
  intros HI HK Hle Hf Hb n d' e d0 r0 -> Hin Hd0 Hr0. simpl in *.
  apply elem_of_cons in Hin as [[= -> <-]|Hin].
  - destruct Hf as (r1&(d1&Hd1&Hr1)&Hor). apply HK in Hd1. assert (r1 = r0) as -> by congruence. done.
  - destruct (Hb n d' e d0 r0 eq_refl Hin Hd0 Hr0); [by left|right; lia].
Qed.

Lemma bounded_le w o bound bound' : bound <= bound' -> bounded w o bound -> bounded w o bound'.
Proof. intros Hle Hb n d e d0 r0 Ho Hin Hd0 Hr0. destruct (Hb n d e d0 r0 Ho Hin Hd0 Hr0); [by left|right; lia]. Qed.

Lemma stored_current w d e :
  Inv vm w -> stored w = Some (d, e) -> exists r, parsed d = Some r /\ current w = Some r.
Proof.
  intros HI Hs. pose proof (inv_trace vm w HI) as Hc. rewrite Hs in Hc.
  destruct (chained_parsed vm _ _ _ Hc ltac:(done)) as [r Hr]. exists r.
  split; [done|]. unfold Protocol.current. by rewrite Hs.
Qed.

(** The VM was not deleted. *)
Definition undeleted (w : world (W := W)) : Prop := Forall (fun ev => ~ deleted ev) (trace w).

Lemma lands_undeleted w who r e w' :
  lands w who r e w' -> undeleted w' -> exists d c e', r = RPut d c /\ e = Some e'.
Proof.
  destruct 1 as [d c e|m d e]; [by eauto|]. unfold undeleted. simpl. intros Hd. apply Forall_app in Hd as [_ Hd].
  apply Forall_cons in Hd as [Hd _]. by destruct Hd.
Qed.

Lemma other_owner w i j t u n :
  Inv vm w -> threads w !! i = Some t -> threads w !! j = Some u -> j <> i -> own t = Some n -> own u <> Some n.
Proof. intros HI Hi Hj Hne Ht Hu. apply Hne. symmetry. by eapply (inv_owners vm w HI i j). Qed.

(** A thread takes a step of its own that changes nothing of the store. *)
Lemma local_tidy w i o p p' K low bound :
  Inv vm w -> Tidy w -> threads w !! i = Some (mkThread o p) ->
  sound (issued w) K -> tidy o K low bound p' tidy_outcome -> reached w low -> bounded w o bound ->
  Tidy (resume w i (mkThread o p')).
Proof.
  intros HI HT Hlk HK Hp Hr Hb. eapply resume_tidy; try done; [apply HT|].
  by exists K, low, bound.
Qed.

(** A thread's write lands, whether or not it learns so. *)
Lemma put_tidy_step w i o d c k e w1 bound p' K low bound' :
  Inv vm w -> Tidy w -> threads w !! i = Some (mkThread o (Put d c k)) -> lands w o (RPut d c) (Some e) w1 ->
  bounded w o bound -> bound <= bound' ->
  sound (issued w1) K -> tidy o K low bound' p' tidy_outcome -> reached w1 low ->
  Tidy (resume w1 i (mkThread o p')).
Proof.
  intros HI HT Hlk Hl Hb Hle HK Hp Hr. pose proof (thread_put w i o d c k HI Hlk) as Hok.
  destruct (lands_extends w o d c e w1 HI Hok Hl) as (r&_&_&_&_&_&Hpe&Hth&Hu).
  eapply resume_tidy; try done.
  - intros. by eapply lands_extends_others.
  - intros n x. rewrite Hpe, Hu. apply HT.
  - exists K, low, bound'. split_and!; try done. eapply bounded_le; [done|].
    eapply extends_bounded; [done| |done]. by eapply lands_extends_others.
Qed.

Lemma step_tidy w w' : Inv vm w -> Tidy w -> step w w' -> undeleted w' -> Tidy w'.
Proof.
  intros HI HT Hstep Hd. destruct Hstep as [i o k reply Hlk Hr|i o d c k e w1 Hlk Hl|i o d c k e w1 err Hlk Hl He
    |i o d c k err Hlk He|i o d c k err Hlk He|i o m k w1 reply Hlk Hl He|i o m k reply Hlk He|i o m k err Hlk He
    |j o r e w1 Hj Hl|i o k n Hlk Hn Hz|i o k t Hlk Ht|i o k reply Hlk He|i o k b Hlk];
    try (destruct (tidy_threads w HT _ _ Hlk) as (K&low&bound&HK&Hs&Hlow&Hb); simpl in Hs, Hb).
  - destruct Hs as [Hok Herr]. destruct reply as [[d e]|err]; [|by eapply local_tidy; [..|apply Herr, Hr| |]].
    destruct (stored_current w d e HI Hr) as (r&Hp&Hc).
    assert (low <= Epoch r) as Hle by (unfold reached in Hlow; by rewrite Hc in Hlow).
    eapply local_tidy; [done..| |by apply Hok| |done]; [apply sound_learn; [done|by eapply inv_stored]|].
    unfold reached. by rewrite Hc.
  - destruct Hs as (bound'&Hle&Hf&Hok&_). pose proof (thread_put w i o d c k HI Hlk) as Hreq.
    destruct (lands_extends w o d c e w1 HI Hreq Hl) as (r&Hp&Hc&Hst&Hlow'&Hsub&_).
    destruct (lands_inv vm w o _ _ w1 HI Hreq Hl) as (_&_&_&_&Hiss).
    eapply put_tidy_step; try done; [|by apply Hok; [|apply Hlow']|unfold reached; by rewrite Hc].
    apply sound_learn; [by eapply sound_more|by eapply Hiss].
  - destruct Hs as (bound'&Hle&Hf&_&Herr). pose proof (thread_put w i o d c k HI Hlk) as Hreq.
    destruct (lands_extends w o d c e w1 HI Hreq Hl) as (r&Hp&Hc&Hst&Hlow'&Hsub&_).
    eapply put_tidy_step; try done; [by eapply sound_more|by apply Herr|].
    unfold reached. rewrite Hc. by apply Hlow'.
  - destruct Hs as (bound'&Hle&Hf&_&Herr). eapply local_tidy; [done..|by apply Herr|done|by eapply bounded_le].
  - destruct Hs as (bound'&Hle&Hf&_&Herr). eapply resume_tidy; try done.
    + intros j u Hne Hj. split; [done|done|]. simpl. intros n r Hu [[= <- _]|?]%elem_of_cons; [|done].
      by destruct (other_owner w i j _ u n HI Hlk Hj Hne eq_refl).
    + simpl. intros n r [[= <- _]|Hin]%elem_of_cons; [by eapply (inv_used vm w HI _ _ n Hlk)|by eapply tidy_used].
    + exists K, low, bound'. split_and!; try done; [by apply Herr|by eapply delayed_bounded].
  - by destruct (lands_undeleted _ _ _ _ _ Hl Hd) as (?&?&?&?&?).
  - eapply local_tidy; try done. destruct Hs as [Hnone Herr]. destruct reply; auto.
  - destruct Hs as [_ Herr]. destruct (inv_threads vm w HI _ _ Hlk) as (?&_&Ho&_). simpl in Ho. subst o.
    eapply resume_tidy; try done.
    + intros j u Hne Hj. split; [done|done|]. simpl. by intros n r Hu [?|?]%elem_of_cons.
    + simpl. intros n r [?|Hin]%elem_of_cons; [done|by eapply tidy_used].
    + exists K, low, bound. split_and!; try done. by apply Herr.
  - destruct (lands_undeleted _ _ _ _ _ Hl Hd) as (d&c&e'&->&->).
    assert (request_ok vm (issued w) o (RPut d c)) as Hok by (eapply inv_pending; [done|by eapply list_elem_of_lookup_2]).
    destruct (lands_extends w o d c e' w1 HI Hok Hl) as (r&_&_&_&_&_&Hpe&Hth&Hu). split.
    + intros n x. rewrite Hpe, Hu. apply HT.
    + rewrite Hth. intros i t Hlk. eapply thread_ok_extends; [done|by eapply lands_extends_others|by eapply tidy_threads].
  - eapply resume_tidy; try done.
    + simpl. intros m r Hin. right. by eapply tidy_used.
    + exists K, low, 0. split_and!; try done; [by apply Hs|]. simpl.
      intros m d e d0 r0 [= <-] Hin. exfalso. by eapply Hn, tidy_used.
  - eapply local_tidy; try done; by apply Hs.
  - destruct Hs as [Hnone Herr]. eapply local_tidy; try done. destruct reply; auto.
  - eapply local_tidy; try done; apply Hs.
Qed.

Lemma undeleted_before w w' : rtc step w w' -> undeleted w' -> undeleted w.
Proof. intros [t Ht]%steps_trace. unfold undeleted. rewrite Ht. by intros [? _]%Forall_app. Qed.

Lemma initial_tidy w : initial prefix vm w -> Tidy w.
Proof.
  intros (Hs&Hi&Hp&Hu&_&Hth). split.
  - rewrite Hp. by intros n r ?%elem_of_nil.
  - intros i t Hlk. rewrite Forall_lookup in Hth. destruct (Hth i t Hlk) as [Ho Hc].
    exists (fun _ _ => False), 0, 0. split_and!.
    + by intros ?? [].
    + rewrite Ho. by apply client_program_tidy.
    + unfold reached, Protocol.current. by rewrite Hs.
    + rewrite Ho. by intros ???????.
Qed.

Lemma reachable_tidy w : reachable prefix vm w -> undeleted w -> Tidy w.
Proof.
  intros (w0&Hw0&Hst). pose proof (initial_inv prefix vm w0 Hw0) as HI. apply initial_tidy in Hw0.
  revert HI Hw0. induction Hst as [|w1 w2 w3 H12 H23 IH]; intros HI HT Hd; [done|].
  apply IH; [by eapply step_inv| |done]. eapply step_tidy; [done..|]. by eapply undeleted_before.
Qed.

(** ** A session that has its handle *)

(** The session of nonce [n] has been handed [h], and goes on with its calls. *)
Definition handed (w : world (W := W)) (i : nat) (n : nonce) (h : Handle) : Prop :=
  exists fuel s, typed_strategy s /\ threads w !! i = Some (mkThread (Some n) (run_session prefix fuel (Ret (Ok h)) s)).

(** What a program returns when every lock is refused. *)
Fixpoint idle {A} (p : prog W A) : option A :=
  match p with
  | Ret a => Some a
  | Now k => idle (k 0)
  | Lock k => idle (k (Some [ErrOther]))
  | _ => None
  end.

Lemma idle_bind {A B} (p : prog W A) (f : A -> prog W B) a : idle p = Some a -> idle (bind p f) = idle (f a).
Proof. induction p; simpl; intros Hp; try done; [by injection Hp as ->|auto..]. Qed.

Lemma idle_serve fuel h s : exists log, idle (serve prefix fuel h s) = Some log.
Proof.
  revert h. induction s as [|c k IH]; intros h; [by eexists|]. simpl.
  assert (idle (perform prefix fuel h c) = Some (h, Err [ErrOther])) as Hp by (by destruct c).
  rewrite (idle_bind _ _ _ Hp). destruct (IH (Err [ErrOther]) h) as [log Hlog].
  rewrite (idle_bind _ _ _ Hlog). by eexists.
Qed.

Lemma idle_session fuel h s : exists log, idle (run_session prefix fuel (Ret (Ok h)) s) = Some (OSession (Ok h) log).
Proof.
  destruct (idle_serve fuel h s) as [log Hlog]. exists log. unfold run_session, session. simpl.
  rewrite (idle_bind _ _ (Ok h, log)); [done|]. by rewrite (idle_bind _ _ _ Hlog).
Qed.

Lemma idle_error : store_error [ErrOther].
Proof. repeat constructor; set_solver. Qed.

Lemma idle_time : i64 0.
Proof. unfold i64. lia. Qed.

Lemma safe_idle {A} opens o K (p : prog W A) Q a : safe_in opens o K p Q -> idle p = Some a -> Q o K a.
Proof.
  induction p; simpl; intros Hp Ha; try done; [by injection Ha as ->| |].
  - eauto using idle_time.
  - destruct Hp as [_ Hp]. eauto using idle_error.
Qed.

Lemma tidy_idle {A} o K low bound (p : prog W A) Q a :
  tidy o K low bound p Q -> idle p = Some a -> Q o K low bound a.
Proof.
  induction p; simpl; intros Hp Ha; try done; [by injection Ha as ->| |].
  - eauto using idle_time.
  - destruct Hp as [_ Hp]. eauto using idle_error.
Qed.

(** From then on it writes over its own records only, the record has reached
    its epoch, and its writes still on their way over the record of another are
    conditional on a lower one. *)
Record serving (w : world) (i : nat) (n : nonce) (epoch : Z) : Prop := {
  serving_thread : exists K p, threads w !! i = Some (mkThread (Some n) p) /\
    sound (issued w) K /\ safe_in false (Some n) K p (good_outcome vm);
  serving_epoch : 1 <= epoch;
  serving_reached : reached w epoch;
  serving_bounded : bounded w (Some n) epoch;
}.

Lemma handed_serving w i n h :
  reachable prefix vm w -> undeleted w -> handed w i n h -> serving w i n (h_epoch h).
Proof.
  intros Hr Hd (fuel&s&Hs&Hlk). destruct (idle_session fuel h s) as [log Hidle].
  destruct (inv_threads vm w (reachable_inv _ _ _ Hr) _ _ Hlk) as (K&HK&Hsafe).
  destruct (safe_idle _ _ _ _ _ _ Hsafe Hidle) as (m&[= <-]&Hh&Hf&_).
  destruct (tidy_threads w (reachable_tidy w Hr Hd) _ _ Hlk) as (K'&low&bound&_&Ht&Hlow&Hb).
  pose proof (tidy_idle _ _ _ _ _ _ _ Ht Hidle) as Hbl. simpl in Hbl. split.
  - exists K, (run_session prefix fuel (Ret (Ok h)) s). split_and!; try done.
    unfold run_session, session. simpl.
    eapply safe_bind with (R := fun o' K' '(h, log) => good_outcome vm o' K' (OSession h log)); [|by intros o' K1 [??]].
    eapply safe_bind; [by eapply serve_spec|]. intros o2 K2 log' (->&Hm&Hlog). exists n.
    split_and!; try done. by eapply handle_ok_more.
  - destruct (knows_typed vm _ _ _ (handle_knows _ _ _ _ Hh Hf)) as (Hv&_).
    pose proof (handle_mine _ _ _ _ Hh) as [He _]%mine_iff. apply valid_iff in Hv as (_&_&?&_). lia.
  - unfold reached in *. destruct (current w); lia.
  - eapply bounded_le; [|done]. simpl in *. lia.
Qed.

(** ** Nothing of it lands over another's record *)

Definition asks (p : prog W outcome) (r : request) : Prop :=
  match p with Put d c _ => r = RPut d c | Del m _ => r = RDel m | _ => False end.

Lemma step_pending w w' :
  step w w' -> pending w' = pending w \/
  exists i o p r, threads w !! i = Some (mkThread o p) /\ asks p r /\ pending w' = (o, r) :: pending w.
Proof.
  assert (forall who r e w1, lands w who r e w1 -> pending w1 = pending w) as Hl by (by destruct 1).
  destruct 1; simpl; eauto; right; eexists _, _, _, _; (split; [done|]); by split.
Qed.

Lemma step_landed w w' :
  step w w' -> trace w' = trace w \/
  exists who r e w1, lands w who r e w1 /\ trace w' = trace w1 /\
    ((who, r) ∈ pending w \/ exists i p, threads w !! i = Some (mkThread who p) /\ asks p r).
Proof.
  destruct 1; simpl; eauto; right; eexists _, _, _, _; (split; [done|]); (split; [done|]);
    first [right; eexists _, _; split; [done|]; done | left; by eapply list_elem_of_lookup_2].
Qed.

Lemma step_issued w w' : step w w' -> Inv vm w -> issued w ⊆ issued w'.
Proof.
  assert (forall who r e w1, lands w who r e w1 -> issued w ⊆ issued w1) as Hl.
  { destruct 1 as [d c e _ [He|He]|]; simpl; [by apply insert_subseteq|by rewrite insert_id|done]. }
  destruct 1; simpl; intros; try done; by eapply Hl.
Qed.

Lemma serving_thread_step w w' i n :
  Inv vm w -> Inv vm w' -> step w w' ->
  (exists K p, threads w !! i = Some (mkThread (Some n) p) /\ sound (issued w) K /\
     safe_in false (Some n) K p (good_outcome vm)) ->
  exists K p, threads w' !! i = Some (mkThread (Some n) p) /\ sound (issued w') K /\
    safe_in false (Some n) K p (good_outcome vm).
Proof.
  intros HI HI' Hstep (K&p&Hi&HK&Hs). pose proof (step_issued _ _ Hstep HI) as Hsub.
  assert (sound (issued w') K) as HK' by (by eapply sound_more).
  assert (forall who r e w1, lands w who r e w1 -> threads w1 = threads w) as Hth by (by destruct 1).
  assert (forall j t w1, threads w1 = threads w -> j <> i -> <[j := t]> (threads w1) !! i = Some (mkThread (Some n) p)) as Hother.
  { intros j t w1 -> Hne. by rewrite list_lookup_insert_ne. }
  assert (forall t t' w1, threads w1 = threads w -> threads w !! i = Some t -> <[i := t']> (threads w1) !! i = Some t') as Hsame.
  { intros t t' w1 -> Hlk. apply list_lookup_insert_eq. by eapply lookup_lt_Some. }
  destruct Hstep as [j o k reply Hlk Hr|j o d c k e w1 Hlk Hl|j o d c k e w1 err Hlk Hl He
    |j o d c k err Hlk He|j o d c k err Hlk He|j o m k w1 reply Hlk Hl He|j o m k reply Hlk He|j o m k err Hlk He
    |j o r e w1 Hj Hl|j o k m Hlk Hn Hz|j o k t Hlk Ht|j o k reply Hlk He|j o k b Hlk].
  9: { exists K, p. split_and!; try done. by rewrite (Hth _ _ _ _ Hl). }
  all: destruct (decide (j = i)) as [->|Hne];
    [|by exists K, p; split_and!; try done; apply Hother; eauto].
  all: rewrite Hi in Hlk; injection Hlk as <- ->; simpl in Hs.
  - destruct Hs as [Hok Herr]. destruct reply as [[d e]|err].
    + exists (learn K e d), (k (Ok (d, e))). split_and!; [by eapply Hsame| |done].
      apply sound_learn; [done|]. by eapply inv_stored.
    + exists K, (k (Err err)). split_and!; [by eapply Hsame|done|]. apply Herr, Hr.
  - destruct Hs as (_&Hok&_). exists (learn K e d), (k (Ok e)). split_and!; [by eapply Hsame; eauto| |done].
    apply sound_learn; [done|]. inversion Hl; subst. apply lookup_insert_eq.
  - destruct Hs as (_&_&Herr). exists K, (k (Err err)). split_and!; [by eapply Hsame; eauto|done|auto].
  - destruct Hs as (_&_&Herr). exists K, (k (Err err)). split_and!; [by eapply Hsame|done|auto].
  - destruct Hs as (_&_&Herr). exists K, (k (Err err)). split_and!; [by eapply Hsame|done|auto].
  - by destruct Hs.
  - by destruct Hs.
  - by destruct Hs.
  - by destruct Hs.
  - exists K, (k t). split_and!; [by eapply Hsame|done|auto].
  - destruct Hs as [Hnone Herr]. exists K, (k reply). split_and!; [by eapply Hsame|done|]. destruct reply; auto.
  - exists K, (k b). split_and!; [by eapply Hsame|done|auto].
Qed.

Lemma chained_undeleted d0 t to :
  chained vm (Some d0) t to -> Forall (fun ev => ~ deleted ev) t -> exists d, to = Some d.
Proof.
  revert d0. induction t as [|ev t IH]; simpl; intros d0; [by eauto|].
  intros (_&_&Hc) [Hd Ht]%Forall_cons. unfold deleted in Hd. destruct (after ev); [by eapply IH|done].
Qed.

Lemma since_undeleted w w' t : trace w' = trace w ++ t -> undeleted w' -> Forall (fun ev => ~ deleted ev) t.
Proof. unfold undeleted. intros ->. by intros [_ ?]%Forall_app. Qed.

Lemma reached_later w w' t low :
  reachable prefix vm w -> since w w' t -> undeleted w' -> reached w low -> reached w' low.
Proof.
  intros Hr Hs Hd Hlow. pose proof (since_chained prefix vm w w' t Hr Hs) as Hc.
  pose proof (since_undeleted w w' t (proj2 Hs) Hd) as Hdt.
  pose proof (reachable_inv prefix vm w' (reachable_steps _ _ _ _ Hr (proj1 Hs))) as HI'.
  unfold reached, Protocol.current in *. destruct (stored w) as [[d0 e0]|] eqn:E0; simpl in *.
  - destruct (chained_undeleted d0 t _ Hc Hdt) as [d Ed]. destruct (stored w') as [[d' e]|] eqn:E; [|done].
    simpl in *. destruct (chained_later vm d0 t d' Hc Hdt) as [->|(r0&r&Hr0&Hr1&Hl)]; [done|].
    rewrite Hr0 in Hlow. rewrite Hr1. pose proof (later_epoch _ _ Hl). lia.
  - destruct (stored w') as [[d e]|] eqn:E; [|done].
    destruct (stored_current w' d e HI' E) as (r&Hp&_). rewrite Hp.
    destruct (parsed_valid vm d r Hp) as (Hv&_). apply valid_iff in Hv as (_&_&?&_). lia.
Qed.

Lemma chained_keeps_nonce w w' t r0 n :
  reachable prefix vm w -> since w w' t -> undeleted w' -> current w = Some r0 -> Nonce r0 <> n ->
  Forall (fun ev => actor ev <> Some n) t -> exists r, current w' = Some r /\ Nonce r <> n.
Proof.
  intros Hr Hs Hd Hc Hn Hno. pose proof (since_chained prefix vm w w' t Hr Hs) as Hch.
  pose proof (since_undeleted w w' t (proj2 Hs) Hd) as Hdt. unfold Protocol.current in *.
  destruct (stored w) as [[d0 e0]|]; [|done]. simpl in Hch. clear Hs Hd e0. revert d0 r0 Hch Hc Hn Hno.
  induction t as [|ev t IH]; simpl; intros d0 r0 Hch Hc Hn Hno.
  { destruct (stored w') as [[d e]|]; [|done]. injection Hch as ->. by eauto. }
  destruct Hch as (Hb&Hp&Hch). apply Forall_cons in Hdt as [Hd Hdt]. apply Forall_cons in Hno as [Ha Hno].
  rewrite Hb in Hp. unfold deleted in Hd. destruct (after ev) as [d1|]; [|done].
  destruct Hp as (r0'&r1&Hr0&Hr1&Hall). eapply (IH Hdt d1 r1); try done.
  eapply allowed_keeps_nonce; [done| |done]. congruence.
Qed.

(** What a session that serves asks for is over its own record. *)
Lemma serving_asks w i j n epoch p d c :
  Inv vm w -> serving w i n epoch -> threads w !! j = Some (mkThread (Some n) p) -> asks p (RPut d c) ->
  exists e d0 r0, c = IfMatch e /\ issued w !! e = Some d0 /\ parsed d0 = Some r0 /\ Nonce r0 = n.
Proof.
  intros HI [(K&p'&Hi&HK&Hs) _ _ _] Hj Ha.
  assert (i = j) as <- by (by eapply (inv_owners vm w HI i j)). rewrite Hi in Hj. injection Hj as ->.
  destruct p as [|k|d' c' k|m k|k|k|k|k|]; try done. simpl in Ha. injection Ha as <- <-.
  destruct Hs as (Hp&_&_). destruct c as [|e]; [by destruct Hp|].
  destruct Hp as (d0&r0&Hd0&Hr0&_&Hown). exists e, d0, r0. split_and!; try done; [by apply HK|by apply Hown].
Qed.

Lemma serving_step w w' i n epoch :
  reachable prefix vm w -> step w w' -> undeleted w' -> serving w i n epoch -> serving w' i n epoch.
Proof.
  intros Hr Hstep Hd Hs. pose proof (reachable_inv _ _ _ Hr) as HI.
  pose proof (step_inv vm w w' HI Hstep) as HI'. split.
  - eapply serving_thread_step; [exact HI|exact HI'|done|by destruct Hs].
  - by destruct Hs.
  - destruct (step_trace w w' Hstep) as [t Ht]. eapply (reached_later w w' t); [done| |done|by destruct Hs].
    split; [by apply rtc_once|done].
  - intros m d e d0 r0 [= <-] Hin Hd0 Hr0. pose proof (step_issued _ _ Hstep HI) as Hsub.
    assert ((Some n, RPut d (IfMatch e)) ∈ pending w -> Nonce r0 = n \/ Epoch r0 < epoch) as Hold.
    { intros Hin'. destruct (inv_pending vm w HI _ _ Hin') as (d1&Hd1&_).
      assert (d1 = d0) as -> by (eapply lookup_weaken in Hd1; [|exact Hsub]; congruence).
      by eapply (serving_bounded w i n epoch Hs). }
    destruct (step_pending w w' Hstep) as [Heq|(j&o&p&r&Hj&Ha&Heq)]; rewrite Heq in Hin; [auto|].
    apply elem_of_cons in Hin as [[= <- <-]|Hin]; [|auto].
    destruct (serving_asks w i j n epoch p d _ HI Hs Hj Ha) as (e'&d1&r1&[= <-]&Hd1&Hr1&?).
    eapply lookup_weaken in Hd1; [|exact Hsub]. left. congruence.
Qed.

(** Whatever a serving session lands, it lands over its own record. *)
Lemma serving_lands w w' i n epoch t :
  Inv vm w -> step w w' -> undeleted w' -> serving w i n epoch -> trace w' = trace w ++ t ->
  Forall (fun ev => actor ev = Some n -> exists r0, current w = Some r0 /\ Nonce r0 = n) t.
Proof.
  intros HI Hstep Hd Hs Ht. destruct (step_landed w w' Hstep) as [Heq|(who&r&e&w1&Hl&Htr&Hfrom)].
  { rewrite Heq in Ht. assert (t = []) as -> by (by apply (app_inv_head (trace w)); rewrite app_nil_r). constructor. }
  assert (undeleted w1) as Hd1 by (unfold undeleted in *; by rewrite <- Htr).
  destruct (lands_undeleted _ _ _ _ _ Hl Hd1) as (d&c&e'&->&->). rewrite Htr in Ht.
  inversion Hl as [d' c' e'' Hm He|]; subst; simpl in Ht. apply app_inv_head in Ht as <-.
  constructor; [|constructor]. simpl. intros ->.
  assert (c = IfNoneMatch \/ exists e0 d0 r0, c = IfMatch e0 /\ issued w !! e0 = Some d0 /\ parsed d0 = Some r0 /\
    (Nonce r0 = n \/ Epoch r0 < epoch)) as [->|(e0&d0&r0&->&Hd0&Hr0&Hor)].
  { destruct Hfrom as [Hin|(j&p&Hj&Ha)].
    - destruct c as [|e0]; [by left|]. right. destruct (inv_pending vm w HI _ _ Hin) as (d0&Hd0&r0&r&Hr0&_).
      exists e0, d0, r0. split_and!; try done. by eapply (serving_bounded w i n epoch Hs).
    - destruct (serving_asks w i j n epoch p d c HI Hs Hj Ha) as (e0&d0&r0&->&?&?&?).
      right. exists e0, d0, r0. split_and!; try done. by left. }
  - pose proof (serving_reached w i n epoch Hs) as Hre. pose proof (serving_epoch w i n epoch Hs).
    unfold reached, Protocol.current in Hre. destruct (stored w) as [[]|]; [done|lia].
  - simpl in Hm. pose proof (serving_reached w i n epoch Hs) as Hre. unfold reached, Protocol.current in *.
    destruct (stored w) as [[d1 e1]|] eqn:Es; [|done]. apply String.eqb_eq in Hm as ->.
    rewrite (inv_stored vm w HI _ _ Es) in Hd0. injection Hd0 as ->. rewrite Hr0 in *.
    exists r0. split; [done|]. destruct Hor; [done|lia].
Qed.

(** Once the record carries another nonce, nothing of the session lands. *)
Lemma taken_over w w' i n epoch t r0 :
  reachable prefix vm w -> serving w i n epoch -> since w w' t -> undeleted w' ->
  current w = Some r0 -> Nonce r0 <> n -> Forall (fun ev => actor ev <> Some n) t.
Proof.
  intros Hr Hs [Hst Ht] Hd Hc Hn. revert t r0 Hr Hs Ht Hc Hn.
  induction Hst as [w|w w1 w' H1 Hst IH]; intros t r0 Hr Hs Ht Hc Hn.
  { assert (t = []) as -> by (by apply (app_inv_head (trace w)); rewrite app_nil_r). constructor. }
  pose proof (undeleted_before _ _ Hst Hd) as Hd1. pose proof (reachable_inv _ _ _ Hr) as HI.
  destruct (step_trace w w1 H1) as [t1 Ht1]. destruct (steps_trace w1 w' Hst) as [t2 Ht2].
  assert (t = t1 ++ t2) as -> by (apply (app_inv_head (trace w)); by rewrite <- Ht, Ht2, Ht1, app_assoc).
  assert (reachable prefix vm w1) as Hr1 by (eapply reachable_steps; [done|by apply rtc_once]).
  assert (Forall (fun ev => actor ev <> Some n) t1) as Hno.
  { eapply Forall_impl; [exact (serving_lands w w1 i n epoch t1 HI H1 Hd1 Hs Ht1)|]. simpl.
    intros ev Hev Ha. destruct (Hev Ha) as (r&Hr'&?). congruence. }
  apply Forall_app. split; [done|].
  assert (since w w1 t1) as Hs1 by (split; [by apply rtc_once|done]).
  destruct (chained_keeps_nonce w w1 t1 r0 n Hr Hs1 Hd1 Hc Hn Hno) as (r1&Hc1&Hn1).
  apply (IH Hd t2 r1); try done. exact (serving_step w w1 i n epoch Hr H1 Hd1 Hs).
Qed.

Lemma serving_steps w w' i n epoch :
  reachable prefix vm w -> rtc step w w' -> undeleted w' -> serving w i n epoch -> serving w' i n epoch.
Proof.
  intros Hr Hst Hd. induction Hst as [|w w1 w' H1 Hst IH]; [done|]. intros Hs.
  pose proof (undeleted_before _ _ Hst Hd) as Hd1.
  apply IH; [eapply reachable_steps; [done|by apply rtc_once]|done|].
  exact (serving_step w w1 i n epoch Hr H1 Hd1 Hs).
Qed.


End Takeover.
End Takeover.
