(* ===== verification/ControlSafety.v ===== *)
(** * Safety of the control record

    What the interleavings of file [ControlProtocol] establish of the record
    and of the results its clients return: a record is always valid, it only
    moves forward, a session whose record was taken over changes nothing, and a
    call that returned a record made that record durable. *)

From S2P Require Import Prelude ControlRecord ControlClient ControlProtocol ControlTakeover.
From Stdlib Require Import String.

#[local] Open Scope Z_scope.

Module Safety.
Import Control Client Protocol Takeover.

Section Safety.
Context {W : Type} `{WireLaws W}.
Variables (prefix vm : string).

Abbreviation reachable := (reachable (W := W) prefix vm).
Abbreviation current := (current (W := W) vm).

(** C31: whatever the interleaving of clients and whatever the store loses,
    delays or repeats, the stored object is a record of this VM that parses
    and is valid. *)
Theorem record_always_valid w d e :
  reachable w -> stored w = Some (d, e) ->
  exists r, current w = Some r /\ unmarshalRecord vm d = Ok r /\ valid r = true /\ rVM r = vm.
Proof.
  intros Hr Hs. destruct (stored_parsed prefix vm w d e Hr Hs) as [r Hp].
  destruct (parsed_valid vm d r Hp) as (?&?&_). exists r.
  unfold Protocol.current. rewrite Hs. split_and!; try done.
  unfold parsed in Hp. destruct (unmarshalRecord vm d); congruence.
Qed.

(** C4: between two moments with no deletion of the VM in between, the record
    only moves forward: its epoch and its selection never go back, a selection
    that changed is a sequence of an epoch at least the earlier one's, so a
    superseded writer's checkpoint is never selected, pins are permanent, and a
    kept checkpoint a fork was taken from stays kept. *)
Theorem record_moves_forward w w' t r0 r :
  reachable w -> since w w' t -> Forall (fun ev => ~ deleted ev) t ->
  current w = Some r0 -> current w' = Some r -> later r0 r.
Proof.
  intros Hr Hs Hd Hr0 Hr1. pose proof (since_chained prefix vm w w' t Hr Hs) as Hc.
  unfold Protocol.current in *.
  destruct (stored w) as [[d0 e0]|]; [|done]. destruct (stored w') as [[d e]|]; [|done].
  destruct (chained_later vm d0 t d Hc Hd) as [->|(r0'&r'&?&?&?)].
  - assert (r0 = r) as -> by congruence. apply later_refl.
  - congruence.
Qed.

(** C1: once a session of nonce [n] has been handed its handle and the record
    carries the nonce of another, nothing of that session lands any more: no
    write its calls make, and none still on its way, the ones it made while it
    opened included.  The VM is not deleted during the run: over a deleted VM a
    creation that is still on its way may land again. *)
Theorem taken_over_session_lands_nothing w1 i n h w r0 w' t :
  reachable w1 -> handed prefix w1 i n h -> rtc step w1 w -> current w = Some r0 -> Nonce r0 <> n ->
  since w w' t -> undeleted w' -> Forall (fun ev => actor ev <> Some n) t.
Proof.
  intros Hr Hh Hst Hr0 Hn Hs Hd. pose proof (undeleted_before _ _ (proj1 Hs) Hd) as Hdw.
  assert (serving vm w i n (h_epoch h)) as Hsw.
  { eapply serving_steps; [done..|]. eapply handed_serving; [done|by eapply undeleted_before|done]. }
  eapply (taken_over prefix vm w w' i n); [by eapply reachable_steps|done..].
Qed.

(** The stored object held this record at some moment of the run. *)
Definition was_stored (w : world) (r : Record_) : Prop :=
  exists ev d, ev ∈ trace w /\ after ev = Some d /\ parsed vm d = Some r.

Lemma durable_was_stored w K r :
  Inv vm w -> sound (issued w) K -> durable vm K r -> was_stored w r.
Proof.
  intros HI HK (e&d&Hd&Hp). apply HK in Hd. destruct (inv_issued vm w HI _ _ Hd) as (ev&?&?).
  by exists ev, d.
Qed.

(** C6: what a session's calls return is true.  A call that returned a record
    made it durable, under this session's epoch and nonce, and the record is
    what the call asked for: the checkpoint selected and published, its journals
    written, kept where that was asked, the pin in place.  A call that reports a
    fence saw another writer's record. *)
Theorem session_results_hold w i o h log c res :
  reachable w -> threads w !! i = Some (mkThread o (Ret (OSession (Ok h) log))) -> (c, res) ∈ log ->
  exists n, o = Some n /\
    match res with
    | Ok r => was_stored w r /\ mine r (h_epoch h) n = true /\ promised c r
    | Err e => Is e ErrFenced = true -> exists r, was_stored w r /\ mine r (h_epoch h) n = false
    end.
Proof.
  intros Hr Ht Hin. pose proof (reachable_inv prefix vm w Hr) as HI.
  destruct (inv_threads vm w HI _ _ Ht) as (K&HK&n&Ho&_&_&Hlog). exists n. split; [done|].
  rewrite Forall_forall in Hlog. specialize (Hlog _ Hin). simpl in Hlog. destruct res as [r|e].
  - destruct Hlog as (Hd&?&?). split_and!; try done. by eapply durable_was_stored.
  - intros He. destruct (Hlog He) as (e'&r&?&?). exists r. split; [|done].
    eapply durable_was_stored; [done..|]. by exists e'.
Qed.

(** C30: a pin or a release made without the VM's epoch that reports success
    landed: the record held the pin, or no longer held the kept checkpoint. *)
Theorem epochless_results_hold w i o out :
  reachable w -> threads w !! i = Some (mkThread o (Ret out)) ->
  match out with
  | OPin s (Ok ref) => (s <> 0 -> Seq ref = s) /\ exists r, was_stored w r /\ IsPinned r (Seq ref) = true
  | ORelease s (Ok r) => was_stored w r /\ IsKept r s = false
  | ORemove (Ok r) => was_stored w r
  | _ => True
  end.
Proof.
  intros Hr Ht. pose proof (reachable_inv prefix vm w Hr) as HI.
  destruct (inv_threads vm w HI _ _ Ht) as (K&HK&Hout). simpl in Hout.
  destruct out as [|s [ref|]|s [r|]|[r|]|]; try done; simpl in Hout.
  - destruct Hout as (_&?&r&?&?). split; [done|]. exists r. split; [by eapply durable_was_stored|done].
  - destruct Hout as [? ?]. split; [by eapply durable_was_stored|done].
  - by eapply durable_was_stored.
Qed.

End Safety.

(** ** A run *)

Definition sample_vm : string := "vm-1".
Definition nonce_a : list byte := replicate 16 Byte.x0a.
Definition nonce_b : list byte := replicate 16 Byte.x0b.

(** A host creates the VM and selects checkpoints; a second one takes it over
    and selects one of its own; a third client forks it without opening it. *)
Definition sample : world (W := Message) :=
  mkWorld None ∅ [] []
    [ mkThread None (run_session "" 4 (Create "" sample_vm (Sequence 5 1) true)
        (Do (CSelect (Sequence 5 2) []) (fun _ => Do (CSelect (Sequence 5 3) []) (fun _ => Done))));
      mkThread None (run_session "" 4 (Open "" 4 sample_vm) (Do (CSelect (Sequence 6 1) []) (fun _ => Done)));
      mkThread None (do r <- Pin "" 4 sample_vm 0; Ret (OPin 0 r)) ] [].

Lemma sample_initial : initial "" sample_vm sample.
Proof.
  split_and!; try done. repeat constructor; simpl; try done.
Qed.

(** The first host creates the VM, has its handle, and selects a checkpoint. *)
Definition sample_handed : world := run [ChFill 0 nonce_a; ChPut 0 "e1"] sample.

Definition sample_created : world := run
  [ChLock 0; ChClosed 0 false; ChPutLost 0 "e2"; ChGet 0] sample_handed.

(** The second takes it over, the client pins what is selected, and the second
    host selects over that pin after adopting it. *)
Definition sample_taken : world := run
  [ChFill 1 nonce_b; ChGet 1; ChPut 1 "e3"] sample_created.

Definition sample_after : world := run
  [ChGet 2; ChPut 2 "e4"; ChLock 1; ChClosed 1 false; ChPutRefused 1; ChGet 1; ChClosed 1 false; ChPut 1 "e5"] sample_taken.

(** The first host then finds out. *)
Definition sample_end : world := run
  [ChLock 0; ChClosed 0 false; ChPutRefused 0; ChGet 0] sample_after.

Lemma sample_reachable : reachable "" sample_vm sample.
Proof. exists sample. split; [exact sample_initial|apply rtc_refl]. Qed.

Lemma sample_handed_reachable : reachable "" sample_vm sample_handed.
Proof. exact (reachable_steps _ _ _ _ sample_reachable (run_steps _ _)). Qed.

Lemma sample_created_reachable : reachable "" sample_vm sample_created.
Proof. exact (reachable_steps _ _ _ _ sample_handed_reachable (run_steps _ _)). Qed.

Lemma sample_taken_reachable : reachable "" sample_vm sample_taken.
Proof. exact (reachable_steps _ _ _ _ sample_created_reachable (run_steps _ _)). Qed.

Lemma sample_after_reachable : reachable "" sample_vm sample_after.
Proof. exact (reachable_steps _ _ _ _ sample_taken_reachable (run_steps _ _)). Qed.

Lemma sample_end_reachable : reachable "" sample_vm sample_end.
Proof. exact (reachable_steps _ _ _ _ sample_after_reachable (run_steps _ _)). Qed.

Definition changes (w w' : world (W := Message)) : list event := drop (List.length (trace w)) (trace w').

Definition the_record (w : world (W := Message)) : Record_ :=
  default (mkRecord "" 0 [] 0 false [] [] []) (Protocol.current sample_vm w).

Lemma since_created : since sample_created sample_after (changes sample_created sample_after).
Proof.
  split; [|vm_compute; reflexivity]. exact (PreOrder_Transitive _ _ _ (run_steps _ sample_created : rtc step sample_created sample_taken) (run_steps _ _)).
Qed.

Lemma since_taken : since sample_taken sample_after (changes sample_taken sample_after).
Proof. split; [exact (run_steps _ _)|vm_compute; reflexivity]. Qed.

Lemma record_always_valid_witness :
  exists r, Protocol.current sample_vm sample_after = Some r /\
    exists d, unmarshalRecord sample_vm d = Ok r /\ valid r = true /\ rVM r = sample_vm.
Proof.
  destruct (stored sample_after) as [[d e]|] eqn:E; [|vm_compute in E; discriminate].
  destruct (record_always_valid "" sample_vm sample_after d e) as (r&Hc&Hu&Hv&Hvm); [exact sample_after_reachable|exact E|].
  exists r. split; [exact Hc|]. exists d. exact (conj Hu (conj Hv Hvm)).
Defined.

Lemma record_moves_forward_witness :
  Selected (the_record sample_created) = Sequence 5 2 /\ Selected (the_record sample_after) = Sequence 6 1 /\
  later (the_record sample_created) (the_record sample_after).
Proof.
  split; [vm_compute; reflexivity|]. split; [vm_compute; reflexivity|].
  apply (record_moves_forward "" sample_vm sample_created sample_after (changes sample_created sample_after)).
  - exact sample_created_reachable.
  - exact since_created.
  - vm_compute. repeat constructor; discriminate.
  - vm_compute. reflexivity.
  - vm_compute. reflexivity.
Defined.

(** The handle the first host's creation returned. *)
Definition first_handle : Handle :=
  newHandle (mkRecord sample_vm 5 nonce_a (Sequence 5 1) true [] [] []) "e1".

Lemma taken_over_session_lands_nothing_witness :
  Nonce (the_record sample_taken) <> nonce_a /\
  zlen (changes sample_taken sample_after) = 2 /\
  Forall (fun ev => actor ev <> Some nonce_a) (changes sample_taken sample_after).
Proof.
  split; [vm_compute; discriminate|]. split; [vm_compute; reflexivity|].
  apply (taken_over_session_lands_nothing "" sample_vm sample_handed 0 nonce_a first_handle sample_taken
    (the_record sample_taken) sample_after).
  - exact sample_handed_reachable.
  - exists 4%nat, (Do (CSelect (Sequence 5 2) []) (fun _ => Do (CSelect (Sequence 5 3) []) (fun _ => Done))).
    split; [by repeat constructor|]. reflexivity.
  - exact (PreOrder_Transitive _ _ _ (run_steps _ sample_handed : rtc step sample_handed sample_created) (run_steps _ _)).
  - vm_compute. reflexivity.
  - vm_compute. discriminate.
  - exact since_taken.
  - vm_compute. repeat constructor; discriminate.
Defined.

(** The handle and the log of a session that ended. *)
Definition ended (w : world (W := Message)) (i : nat) : option (Handle * list (call * result error Record_)) :=
  match threads w !! i with
  | Some (mkThread _ (Ret (OSession (Ok h) log))) => Some (h, log)
  | _ => None
  end.

(** The first host's last selection reports the fence, and it saw the record of
    the second. *)
Lemma session_results_hold_witness :
  exists e n r, Is e ErrFenced = true /\ n = nonce_a /\ was_stored sample_vm sample_end r /\ mine r 5 n = false.
Proof.
  destruct (ended sample_end 0) as [[h log]|] eqn:E; [|vm_compute in E; discriminate].
  assert (threads sample_end !! 0%nat = Some (mkThread (Some nonce_a) (Ret (OSession (Ok h) log)))) as Ht.
  { vm_compute in E. injection E as <- <-. vm_compute. reflexivity. }
  assert ((CSelect (Sequence 5 3) [], Err [ErrFenced; ErrPrecondition]) ∈ log) as Hin.
  { vm_compute in E. injection E as <- <-. right. left. }
  destruct (session_results_hold "" sample_vm sample_end 0 (Some nonce_a) h log _ _ sample_end_reachable Ht Hin)
    as (n&Hn&Hr).
  injection Hn as <-. destruct (Hr eq_refl) as (r&Hw&Hm).
  exists [ErrFenced; ErrPrecondition], nonce_a, r. split; [reflexivity|]. split; [reflexivity|]. split; [exact Hw|].
  vm_compute in E. injection E as <- <-. exact Hm.
Defined.

Lemma epochless_results_hold_witness :
  exists r, was_stored sample_vm sample_end r /\ IsPinned r (Sequence 5 2) = true.
Proof.
  assert (threads sample_end !! 2%nat = Some (mkThread None (Ret (OPin 0 (Ok (mkRef sample_vm (Sequence 5 2))))))) as Ht
    by (vm_compute; reflexivity).
  apply (epochless_results_hold "" sample_vm sample_end 2 None (OPin 0 (Ok (mkRef sample_vm (Sequence 5 2))))
    sample_end_reachable Ht).
Defined.

End Safety.
