(* ===== verification/ControlQuiet.v ===== *)
(** * The control client alone

    What the operations of [control/client.go] return when no other client
    works on the record: every branch of their arguments, and every reply of a
    write the store may lose, refuse after applying it, or never apply.  The
    interpreter gives each program the answers of one store and a script of
    what becomes of its writes. *)

From S2P Require Import Prelude ControlRecord ControlClient.
From Stdlib Require Import String.

#[local] Open Scope Z_scope.

Module Quiet.
Import Control Client.

(** What becomes of one write: it lands; it lands and its reply is lost; it
    lands and a retry inside the store's client reports the refusal of the
    retry; it never lands. *)
Inductive fate := Lands | LandsLost | LandsRefused | Dropped.

Section Quiet.
Context {W : Type} `{WireLaws W}.
Variables (prefix vm : string).

Record quiet := mkQuiet {
  q_stored : option (W * ETag);
  q_fates : list fate;
  (** the validators the store gives next *)
  q_tags : nat -> ETag;
  q_nonce : list byte;
  q_now : Z;
  (** why the handle's write lock is refused, if it is *)
  q_refused : option error;
  (** whether the handle was closed *)
  q_closed : bool;
}.

Definition next_fate (q : quiet) : fate := match q_fates q with [] => Lands | f :: _ => f end.

Definition written (q : quiet) (d : W) : quiet :=
  mkQuiet (Some (d, q_tags q 0)) (tail (q_fates q)) (fun n => q_tags q (S n)) (q_nonce q) (q_now q)
    (q_refused q) (q_closed q).

Definition unwritten (q : quiet) : quiet :=
  mkQuiet (q_stored q) (tail (q_fates q)) (q_tags q) (q_nonce q) (q_now q)
    (q_refused q) (q_closed q).

Definition removed (q : quiet) : quiet :=
  mkQuiet None (q_fates q) (q_tags q) (q_nonce q) (q_now q)
    (q_refused q) (q_closed q).

Definition holds (s : option (W * ETag)) (c : PutConditions) : bool :=
  match c, s with
  | IfNoneMatch, None => true
  | IfMatch e, Some (_, e') => (e =? e')%string
  | _, _ => false
  end.

Definition quiet_put (q : quiet) (d : W) (c : PutConditions) : result error ETag * quiet :=
  if holds (q_stored q) c then
    match next_fate q with
    | Lands => (Ok (q_tags q 0), written q d)
    | LandsLost => (Err [ErrOther], written q d)
    | LandsRefused => (Err [ErrPrecondition], written q d)
    | Dropped => (Err [ErrOther], unwritten q)
    end
  else (Err [ErrPrecondition], unwritten q).

Fixpoint alone {A} (p : prog W A) (q : quiet) : option (A * quiet) :=
  match p with
  | Ret a => Some (a, q)
  | Get k => alone (k (match q_stored q with Some x => Ok x | None => Err [ErrNotFound] end)) q
  | Put d c k => let '(r, q) := quiet_put q d c in alone (k r) q
  | Del m k =>
    match q_stored q with
    | None => alone (k None) q
    | Some (_, e) =>
      if match m with None => true | Some x => (x =? e)%string end then alone (k None) (removed q)
      else alone (k (Some [ErrPrecondition])) q
    end
  | Fill k => alone (k (q_nonce q)) q
  | Now k => alone (k (q_now q)) q
  | Lock k => alone (k (q_refused q)) q
  | IsClosed k => alone (k (q_closed q)) q
  | Spin => None
  end.

Lemma alone_bind {A B} (p : prog W A) (f : A -> prog W B) q :
  alone (bind p f) q = match alone p q with Some (a, q') => alone (f a) q' | None => None end.
Proof.
  revert q. induction p; intros q; simpl; auto.
  - destruct (quiet_put q data conditions). auto.
  - destruct (q_stored q) as [[d e]|]; [|auto]. destruct (match match_ with Some x => _ | None => _ end); auto.
Qed.

(** The object is read as the record [r] under the validator [e]. *)
Definition at_ (q : quiet) (r : Record_) (e : ETag) : Prop :=
  exists d, q_stored q = Some (d, e) /\ unmarshalRecord vm d = Ok r /\ 1 <= proto_size d <= maximumRecordSize.

(** Validators are never empty. *)
Definition tagged (q : quiet) : Prop :=
  (forall n, q_tags q n <> ""%string) /\ match q_stored q with Some (_, e) => e <> ""%string | None => True end.

Definition keyed : Prop := is_Ok (key prefix vm) = true.

Lemma at_ok q r e : at_ q r e -> valid r = true /\ rVM r = vm /\ typed r.
Proof. intros (d&_&Hr&_). by eapply unmarshalRecord_ok. Qed.

Lemma read_stored q d e :
  keyed -> tagged q -> q_stored q = Some (d, e) ->
  alone (read prefix vm) q =
    Some (if (proto_size d <? 1) || (proto_size d >? maximumRecordSize) then Err [ErrCorrupt]
          else match unmarshalRecord vm d with Ok r => Ok (r, e) | Err err => Err err end, q).
Proof.
  intros Hk [_ Ht] Hd. unfold read, keyed in *. destruct (key prefix vm); [|done]. simpl. rewrite Hd in *.
  destruct (String.eqb_spec e ""); [done|]. simpl.
  destruct (_ || _); [done|]. simpl. by destruct (unmarshalRecord vm d).
Qed.

Lemma read_alone q r e :
  keyed -> tagged q -> at_ q r e -> alone (read prefix vm) q = Some (Ok (r, e), q).
Proof.
  intros Hk Ht (d&Hd&Hr&Hsz). rewrite (read_stored q d e) by done.
  destruct (_ || _) eqn:E; [zbool; destruct E; zbool; lia|]. by rewrite Hr.
Qed.

Lemma read_missing q :
  keyed -> q_stored q = None -> alone (read prefix vm) q = Some (Err [ErrNotFound], q).
Proof.
  intros Hk Hq. unfold read, keyed in *. destruct (key prefix vm); [|done]. simpl. by rewrite Hq.
Qed.

Lemma put_alone q r c d :
  keyed -> rVM r = vm -> marshal r = Ok d ->
  alone (put prefix r c) q = Some (quiet_put q d c).
Proof.
  intros Hk Hvm Hm. unfold put, keyed in *. rewrite Hvm. destruct (key prefix vm); [|done].
  rewrite Hm. simpl. by destruct (quiet_put q d c).
Qed.

(** A record the client refuses to marshal is never sent. *)
Lemma put_refused q r c err :
  keyed -> rVM r = vm -> marshal r = Err err -> alone (put prefix r c) q = Some (Err err, q).
Proof. intros Hk Hvm Hm. unfold put, keyed in *. rewrite Hvm. destruct (key prefix vm); [|done]. by rewrite Hm. Qed.

Lemma marshal_Err r (err : error) : marshal (W := W) r = Err err -> err = [ErrInvalidConfig] \/ err = [ErrOther].
Proof. unfold marshal. intros ?. repeat case_match; simplify_eq; auto. Qed.

Lemma written_at q r d : rVM r = vm -> typed r -> marshal r = Ok d -> at_ (written q d) r (q_tags q 0).
Proof. intros Hvm Ht Hm. destruct (unmarshal_marshal r d Ht Hm) as [Hu ?]. rewrite Hvm in Hu. by exists d. Qed.

Lemma written_tagged q d : tagged q -> tagged (written q d).
Proof. intros [Ht _]. split; simpl; [by intros n; apply Ht|apply Ht]. Qed.

Lemma unwritten_tagged q : tagged q -> tagged (unwritten q).
Proof. done. Qed.

(** ** Opening *)

Lemma opening_keeps r n joining next :
  opening r n joining = Ok next ->
  rVM next = rVM r /\ Nonce next = n /\ Epoch next = Epoch r + 1 /\ KeptList next = KeptList r.
Proof. unfold opening. destruct joining; [destruct (_ >=? _); [done|]|]; by intros [= <-]. Qed.

Lemma opening_typed r n joining next :
  opening r n joining = Ok next -> typed r ->
  match joining with Some j => zlen (Disk j) = 16 | None => True end -> typed next.
Proof.
  unfold opening. intros Ho [Hj Hk] Hd. destruct joining as [j|]; [destruct (_ >=? _); [done|]|];
    injection Ho as <-; split; try done. simpl. apply Forall_app. by repeat constructor.
Qed.

(** The reads and guards before the write of an open. *)
Lemma open_loop_writes fuel q r e next joining epoch :
  keyed -> tagged q -> at_ q r e -> (epoch = 0 \/ Epoch r = epoch) -> Epoch r < MaximumEpoch ->
  opening r (q_nonce q) joining = Ok next ->
  alone (open_loop prefix (S fuel) vm epoch joining (q_nonce q)) q =
    match alone (put prefix next (IfMatch e)) q with
    | None => None
    | Some (Ok etag, q') => Some (Ok (newHandle next etag), q')
    | Some (Err err, q') =>
      if Is err ErrPrecondition then alone (open_loop prefix fuel vm epoch joining (q_nonce q)) q'
      else
        match alone (read prefix vm) q' with
        | None => None
        | Some (Err readErr, q') => Some (Err (err ++ readErr), q')
        | Some (Ok (observed, etag), q') =>
          if mine observed (Epoch next) (q_nonce q) then Some (Ok (newHandle observed etag), q')
          else if Epoch observed >=? Epoch next
          then alone (open_loop prefix fuel vm epoch joining (q_nonce q)) q'
          else Some (Err err, q')
        end
    end.
Proof.
  intros Hk Ht Hat Hep Hmax Ho. cbn [open_loop]. rewrite alone_bind, (read_alone q r e) by done.
  destruct (negb (epoch =? 0) && negb (Epoch r =? epoch)) eqn:E1.
  { apply andb_true_iff in E1 as [E1 E2]. zbool. lia. }
  destruct (Epoch r >=? MaximumEpoch) eqn:E2; zbool; [lia|]. rewrite Ho, alone_bind.
  destruct (alone (put _ _ _) q) as [[[etag|err] q']|]; [done| |done]. destruct (Is err ErrPrecondition); [done|].
  rewrite alone_bind. destruct (alone (read _ _) q') as [[[[observed etag]|readErr] q'']|]; [|done..].
  destruct (mine _ _ _); [done|]. by destruct (_ >=? _).
Qed.

(** What becomes of an open whose record is there and may be taken: by the
    fate of its write. *)
Lemma open_loop_alone fuel q r e next d joining epoch :
  keyed -> tagged q -> at_ q r e -> (epoch = 0 \/ Epoch r = epoch) -> Epoch r < MaximumEpoch ->
  opening r (q_nonce q) joining = Ok next -> typed next -> marshal next = Ok d ->
  alone (open_loop prefix (S fuel) vm epoch joining (q_nonce q)) q =
    match next_fate q with
    | Lands | LandsLost => Some (Ok (newHandle next (q_tags q 0)), written q d)
    | LandsRefused => alone (open_loop prefix fuel vm epoch joining (q_nonce q)) (written q d)
    | Dropped => Some (Err [ErrOther], unwritten q)
    end.
Proof.
  intros Hk Ht Hat Hep Hmax Ho Hty Hm. rewrite (open_loop_writes fuel q r e next) by done.
  destruct (opening_keeps _ _ _ _ Ho) as (Hvm&Hn&He&_). destruct (at_ok q r e Hat) as (_&Hvr&_).
  pose proof Hat as (d0&Hd0&_). rewrite (put_alone q next (IfMatch e) d) by (done || congruence).
  unfold quiet_put. rewrite Hd0. simpl. rewrite String.eqb_refl.
  destruct (next_fate q); [done| |done|]; simpl.
  - rewrite (read_alone (written q d) next (q_tags q 0));
      [|done|by apply written_tagged|apply written_at; [congruence|done..]].
    by assert (mine next (Epoch next) (q_nonce q) = true) as -> by (by apply mine_iff).
  - rewrite (read_alone (unwritten q) r e) by done.
    destruct (mine r (Epoch next) (q_nonce q)) eqn:Em; [apply mine_iff in Em as [? _]; lia|].
    destruct (Epoch r >=? Epoch next) eqn:Eg; [zbool; lia|done].
Qed.

(** An open whose record could not be marshalled sends nothing. *)
Lemma open_loop_refused fuel q r e next err joining epoch :
  keyed -> tagged q -> at_ q r e -> (epoch = 0 \/ Epoch r = epoch) -> Epoch r < MaximumEpoch ->
  opening r (q_nonce q) joining = Ok next -> marshal (W := W) next = Err err ->
  alone (open_loop prefix (S fuel) vm epoch joining (q_nonce q)) q = Some (Err err, q).
Proof.
  intros Hk Ht Hat Hep Hmax Ho Hm. rewrite (open_loop_writes fuel q r e next) by done.
  destruct (opening_keeps _ _ _ _ Ho) as (Hvm&Hn&He&_). destruct (at_ok q r e Hat) as (_&Hvr&_).
  rewrite (put_refused q next (IfMatch e) err) by (done || congruence).
  assert (Is err ErrPrecondition = false) as -> by (by destruct (marshal_Err next err Hm) as [-> | ->]).
  rewrite (read_alone q r e) by done.
  destruct (mine r (Epoch next) (q_nonce q)) eqn:Em; [apply mine_iff in Em as [? _]; lia|].
  destruct (Epoch r >=? Epoch next) eqn:Eg; [zbool; lia|done].
Qed.

(** An open over a record that may not be taken. *)
Lemma open_loop_stopped fuel q r e joining epoch :
  keyed -> tagged q -> at_ q r e ->
  (epoch <> 0 /\ Epoch r <> epoch ->
     alone (open_loop prefix (S fuel) vm epoch joining (q_nonce q)) q = Some (Err [ErrMoved], q)) /\
  (epoch = 0 \/ Epoch r = epoch -> MaximumEpoch <= Epoch r ->
     alone (open_loop prefix (S fuel) vm epoch joining (q_nonce q)) q = Some (Err [ErrEpochExhausted], q)).
Proof.
  intros Hk Ht Hat. cbn [open_loop]. rewrite alone_bind, (read_alone q r e) by done. split.
  - intros [Hz Hne]. destruct (epoch =? 0) eqn:E1, (Epoch r =? epoch) eqn:E2; zbool; try lia. done.
  - intros Hep Hmax. destruct (negb (epoch =? 0) && _) eqn:E1; [apply andb_true_iff in E1 as [??]; zbool; lia|].
    destruct (Epoch r >=? MaximumEpoch) eqn:E2; zbool; [done|lia].
Qed.

(** With more rounds than the store has replies to spoil, an open returns. *)
Lemma open_loop_returns fuel q joining epoch :
  keyed -> tagged q -> (List.length (q_fates q) <= fuel)%nat ->
  match joining with Some j => zlen (Disk j) = 16 | None => True end ->
  is_Some (alone (open_loop prefix (S fuel) vm epoch joining (q_nonce q)) q).
Proof.
  intros Hk. revert q. induction fuel as [fuel IH] using lt_wf_ind. intros q Ht Hf Hj.
  destruct (q_stored q) as [[d0 e]|] eqn:Hq; [|cbn [open_loop]; by rewrite alone_bind, read_missing].
  destruct (decide ((proto_size d0 <? 1) || (proto_size d0 >? maximumRecordSize) = true)) as [Hs|Hs].
  { cbn [open_loop]. by rewrite alone_bind, (read_stored q d0 e), Hs. }
  destruct (unmarshalRecord vm d0) as [r|err] eqn:Hu.
  2: { cbn [open_loop]. rewrite alone_bind, (read_stored q d0 e), Hu by done. by destruct (_ || _). }
  assert (at_ q r e) as Hat. { exists d0. split_and!; try done; destruct (_ || _) eqn:E in Hs; zbool; done || lia. }
  destruct (open_loop_stopped fuel q r e joining epoch Hk Ht Hat) as [Hmoved Hlast].
  destruct (decide (epoch = 0 \/ Epoch r = epoch)) as [Hep|]; [|rewrite Hmoved by lia; done].
  destruct (decide (MaximumEpoch <= Epoch r)) as [|Hmax]; [rewrite Hlast by done; done|].
  destruct (opening r (q_nonce q) joining) as [next|err] eqn:Ho.
  2: { cbn [open_loop]. rewrite alone_bind, (read_alone q r e) by done. rewrite Ho. by repeat case_match. }
  destruct (marshal (W := W) next) as [d|err] eqn:Hm.
  2: { rewrite (open_loop_refused fuel q r e next err) by (done || lia). done. }
  rewrite (open_loop_alone fuel q r e next d) by (done || lia || (eapply opening_typed; [done|by apply (at_ok q r e)|done])).
  destruct (next_fate q) eqn:Hn; try done. unfold next_fate in Hn.
  destruct (q_fates q) as [|f l] eqn:Hl; [done|]. simpl in Hf. destruct fuel as [|fuel]; [lia|].
  change (q_nonce q) with (q_nonce (written q d)). apply (IH fuel); [lia|by apply written_tagged| |done]. simpl. rewrite Hl. simpl. lia.
Qed.

(** ** Updates *)

Definition typed_ (journals : list Journal) : Prop := Forall (fun j => zlen (Disk j) = 16) journals.

(** The handle tracks the stored record. *)
Definition tracks (h : Handle) (q : quiet) : Prop :=
  h_epoch h = Epoch (h_record h) /\ at_ q (h_record h) (h_etag h).

(** A call on the handle gets past its lock and its first checks. *)
Definition ready (h : Handle) (q : quiet) : Prop :=
  q_refused q = None /\ h_fenced h = false /\ q_closed q = false.

Lemma update_unready fuel h q mutate :
  alone (update prefix (S fuel) h mutate) q =
  match q_refused q with
  | Some err => Some ((h, Err err), q)
  | None =>
    if h_fenced h then Some ((h, Err [ErrFenced]), q)
    else if q_closed q then Some ((h, Err [ErrClosed]), q)
    else
      match mutate (h_record h) with
      | Err err => Some ((h, Err err), q)
      | Ok next =>
        if equal next (h_record h) then Some ((h, Ok (h_record h)), q)
        else
          match alone (replace prefix h next) q with
          | None => None
          | Some ((h', Err err), q') =>
            if Is err errAdopted then alone (update_loop prefix fuel h' mutate) q' else Some ((h', Err err), q')
          | Some ((h', Ok r), q') => Some ((h', Ok r), q')
          end
      end
  end.
Proof.
  unfold update. cbn [alone update_loop]. destruct (q_refused q); [done|]. unfold begin.
  destruct (h_fenced h); [done|]. cbn [bind alone]. destruct (q_closed q); [done|]. cbn [bind alone].
  destruct (mutate (h_record h)) as [next|]; [|done]. destruct (equal next (h_record h)); [done|].
  rewrite alone_bind. destruct (alone (replace _ _ _) q) as [[[h' [r|err]] q']|]; [done| |done].
  by destruct (Is err errAdopted).
Qed.

Lemma settle_same h : settle h (h_record h) (h_etag h) false = h.
Proof. unfold settle. rewrite orb_false_r. by destruct h. Qed.

(** What becomes of the write of an update, by its fate. *)
Lemma update_alone fuel h q mutate next d :
  keyed -> tagged q -> tracks h q -> ready h q ->
  mutate (h_record h) = Ok next -> next <> h_record h ->
  rVM next = vm -> typed next -> marshal next = Ok d ->
  alone (update prefix (S fuel) h mutate) q =
    match next_fate q with
    | Dropped => Some ((h, Err [ErrOther]), unwritten q)
    | _ => Some ((settle h next (q_tags q 0) false, Ok next), written q d)
    end.
Proof.
  intros Hk Ht [He Hat] (Hl&Hf&Hc) Hmu Hne Hvm' Hty' Hm. rewrite update_unready, Hl, Hf, Hc, Hmu.
  destruct (equal next (h_record h)) eqn:Eq; [by apply equal_iff in Eq|].
  pose proof Hat as (d0&Hd0&_). unfold replace.
  rewrite alone_bind, (put_alone q next (IfMatch (h_etag h)) d) by done.
  unfold quiet_put. rewrite Hd0. simpl. rewrite String.eqb_refl.
  assert (alone (read prefix vm) (written q d) = Some (Ok (next, q_tags q 0), written q d)) as Hread
    by (apply read_alone; [done|by apply written_tagged|by apply written_at]).
  destruct (next_fate q); simpl; [done|rewrite Hvm', alone_bind, Hread, equal_refl; done..|].
  rewrite Hvm', alone_bind, (read_alone (unwritten q) (h_record h) (h_etag h)) by done.
  destruct (equal (h_record h) next) eqn:Eq'; [by apply equal_iff in Eq'|].
  rewrite equal_refl. simpl. by rewrite settle_same.
Qed.

(** A record that could not be marshalled leaves the handle as it was. *)
Lemma update_refused fuel h q mutate next err :
  keyed -> tagged q -> tracks h q -> ready h q ->
  mutate (h_record h) = Ok next -> next <> h_record h -> rVM next = vm -> marshal (W := W) next = Err err ->
  alone (update prefix (S fuel) h mutate) q = Some ((h, Err err), q).
Proof.
  intros Hk Ht [He Hat] (Hl&Hf&Hc) Hmu Hne Hvm' Hm. rewrite update_unready, Hl, Hf, Hc, Hmu.
  destruct (equal next (h_record h)) eqn:Eq; [by apply equal_iff in Eq|]. unfold replace.
  rewrite alone_bind, (put_refused q next (IfMatch (h_etag h)) err) by done. simpl.
  rewrite Hvm', alone_bind, (read_alone q (h_record h) (h_etag h)) by done.
  destruct (equal (h_record h) next) eqn:Eq'; [by apply equal_iff in Eq'|].
  rewrite equal_refl. simpl. rewrite settle_same. by destruct (marshal_Err next err Hm) as [-> | ->].
Qed.

(** ** Validity *)

Lemma valid_journals_from_app epoch epoch' p js added :
  valid_journals_from epoch p js = true -> epoch < epoch' ->
  (added = [] \/ exists j, added = [j] /\ Disk j <> zeroDisk /\ jEpoch j = epoch' /\ 1 <= epoch' /\
     match p with Some p => p <= epoch | None => True end) ->
  valid_journals_from epoch' p (js ++ added) = true.
Proof.
  intros Hv Hlt Hadd. revert p Hv Hadd. induction js as [|j js IH]; simpl; intros p Hv Hadd.
  - destruct Hadd as [->|(j&->&Hd&Hj&He&Hp)]; [done|]. simpl. unfold MinimumEpoch. rewrite Hj.
    rewrite bool_decide_eq_false_2 by done. simpl.
    destruct (epoch' <? 1) eqn:E1, (epoch' >? epoch') eqn:E2; zbool; try lia. simpl.
    destruct p as [p|]; [|done]. destruct (p >=? epoch') eqn:E3; zbool; [lia|done].
  - destruct (_ || _) eqn:E; [done|].
    apply orb_false_iff in E as [[[E1 E2]%orb_false_iff E3]%orb_false_iff E4]. zbool.
    rewrite E1, E4. unfold MinimumEpoch in *.
    destruct (jEpoch j <? 1) eqn:E5, (jEpoch j >? epoch') eqn:E6; zbool; try lia. simpl.
    apply IH; [done|]. destruct Hadd as [->|(j'&->&?&?&?&?)]; [by left|].
    right. exists j'. by split_and!.
Qed.

Lemma zlen_insert_before {A} (f : A -> bool) x l : zlen (insert_before f x l) = 1 + zlen l.
Proof.
  induction l as [|y l IH]; simpl; [done|]. destruct (f y); rewrite !zlen_cons in *; lia.
Qed.

Lemma select_keeps_valid r s kept journals r' :
  valid r = true -> match kept with Some k => kSequence k = s | None => True end ->
  select_mutation (Epoch r) s kept journals r = Ok r' -> valid r' = true.
Proof.
  intros Hv Hk. revert Hv. rewrite !valid_iff. intros (Hid&Hn&He&Hs&Hp&Hkl&Hps&Hks&_).
  unfold select_mutation. destruct (_ && _) eqn:Ev; [done|]. destruct (_ <? _) eqn:Es; [done|]. zbool.
  assert (s <> 0) as Hz.
  { destruct Ev as [Ev|Ev]; zbool; [|congruence].
    apply ValidSequence_iff in Ev as (?&c&?&->). rewrite Sequence_sum by lia. lia. }
  clear Ev. destruct kept as [k|]; [destruct (withKept r k) as [l|] eqn:Ek; [|done]|];
    (destruct (validJournals _) eqn:Ej; [|done]); intros [= <-]; simpl in *; split_and!; try done; try lia.
  - revert Ek. unfold withKept. destruct (IsKept _ _); [intros [= <-]; done|].
    destruct (_ >=? _) eqn:El; [done|]. intros [= <-]. rewrite zlen_insert_before. zbool. lia.
  - eapply withKept_set; [done| |done]. congruence.
Qed.

Lemma pin_keeps_valid r s r' : valid r = true -> pin_mutation s r = Ok r' -> valid r' = true.
Proof.
  rewrite !valid_iff. intros (Hid&Hn&He&Hs&Hp&Hkl&Hps&Hks&Hj).
  unfold pin_mutation, admits. destruct (s =? 0) eqn:Ez; [done|]. zbool.
  destruct (_ && _) eqn:Ea; [done|]. intros [= <-]. simpl. split_and!; try done; try lia.
  - unfold withPin. destruct (IsPinned r s); [done|]. simpl in Ea. rewrite zlen_insert_before. zbool. lia.
  - by apply withPin_set.
Qed.

Lemma release_keeps_valid r s :
  valid r = true -> valid (with_kept r (withoutKept r s)) = true.
Proof.
  rewrite !valid_iff. intros (Hid&Hn&He&Hs&Hp&Hkl&Hps&Hks&Hj). simpl. split_and!; try done; try lia.
  - unfold withoutKept, zlen in *. pose proof (length_filter (fun k => ~ kSequence k = s) (KeptList r)). lia.
  - eapply sequence_set_sublist; [apply withoutKept_sub|done].
Qed.

Lemma open_keeps_valid r n joining r' :
  valid r = true -> zlen n = nonceSize -> Epoch r < MaximumEpoch ->
  match joining with Some j => Disk j <> zeroDisk | None => True end ->
  opening r n joining = Ok r' -> valid r' = true.
Proof.
  rewrite !valid_iff. intros (Hid&_&He&Hs&Hp&Hkl&Hps&Hks&Hj) Hn Hmax Hd.
  unfold validJournals in Hj. destruct (_ >? _) eqn:El; [done|]. zbool.
  unfold opening. destruct joining as [j|]; [destruct (_ >=? _) eqn:Em; [done|]|]; intros [= <-]; simpl;
    split_and!; try done; try lia; unfold validJournals; simpl.
  - rewrite zlen_app. unfold MaximumJournals in *. zbool.
    destruct (_ >? 2) eqn:Eg; [zbool; unfold zlen in Eg at 2; simpl in Eg; lia|].
    eapply valid_journals_from_app; [exact Hj|lia|]. right. eexists. split_and!; try done. simpl. lia.
  - destruct (_ >? _) eqn:Eg; zbool; [lia|]. rewrite <- (app_nil_r (Journals r)).
    eapply valid_journals_from_app; [exact Hj|lia|by left].
Qed.

(** ** Outcomes *)

(** C37: what [Handle.Select] returns when its handle tracks the stored record
    and the store answers every read.  A refused lock, a fenced and a closed
    handle are reported before anything else.  A sequence of another epoch, or
    below the selected one, is refused; a journal list no record could hold is
    refused; a selection that changes nothing writes nothing; a record that
    cannot be marshalled reports the reason and sends nothing.  Otherwise the
    new record is written and returned, also when the reply of the write is
    lost and when the store refuses a retry of the write it had applied; and a
    write that never landed reports its error and leaves the handle and the
    record as they were, so the call may be repeated. *)
Theorem select_outcomes fuel h q s journals :
  keyed -> tagged q -> tracks h q -> typed_ journals ->
  let r := h_record h in
  let next := with_journals (with_selected r s true) journals in
  alone (Select prefix (S fuel) h s journals) q =
    match q_refused q with
    | Some err => Some ((h, Err err), q)
    | None =>
      if h_fenced h then Some ((h, Err [ErrFenced]), q)
      else if q_closed q then Some ((h, Err [ErrClosed]), q)
      else if (s <? Selected r) || negb (ValidSequence (Epoch r) s) && negb (s =? Selected r)
      then Some ((h, Err [ErrSequence]), q)
      else if negb (validJournals next) then Some ((h, Err [ErrInvalidConfig]), q)
      else if bool_decide (next = r) then Some ((h, Ok r), q)
      else
        match marshal next with
        | Err err => Some ((h, Err err), q)
        | Ok d =>
          match next_fate q with
          | Dropped => Some ((h, Err [ErrOther]), unwritten q)
          | Lands | LandsLost | LandsRefused =>
            Some ((settle h next (q_tags q 0) false, Ok next), written q d)
          end
        end
    end.
Proof.
  intros Hk Ht Htr Hty r next. unfold Select, selecting.
  destruct (q_refused q) eqn:Hl; [by rewrite update_unready, Hl|].
  destruct (h_fenced h) eqn:Hf; [by rewrite update_unready, Hl, Hf|].
  destruct (q_closed q) eqn:Hc; [by rewrite update_unready, Hl, Hf, Hc|].
  pose proof Htr as [He Hat]. destruct (at_ok _ _ _ Hat) as (_&Hvm&Htj&Htk).
  assert (select_mutation (h_epoch h) s None journals (h_record h) =
    if (s <? Selected r) || negb (ValidSequence (Epoch r) s) && negb (s =? Selected r) then Err [ErrSequence]
    else if negb (validJournals next) then Err [ErrInvalidConfig] else Ok next) as Hsel.
  { unfold select_mutation. rewrite He. fold r next. simpl.
    by destruct (s <? Selected r), (negb (ValidSequence (Epoch r) s) && negb (s =? Selected r)). }
  destruct ((s <? Selected r) || _); [by rewrite update_unready, Hl, Hf, Hc, Hsel|].
  destruct (negb (validJournals next)); [by rewrite update_unready, Hl, Hf, Hc, Hsel|].
  case_bool_decide as Hne; [by rewrite update_unready, Hl, Hf, Hc, Hsel, Hne, equal_refl|].
  destruct (marshal next) as [d|err] eqn:Hm; [|by eapply update_refused].
  rewrite (update_alone fuel h q _ next d) by done. by destruct (next_fate q).
Qed.

(** C38: what [Client.OpenAfter] returns, and with epoch zero [Client.Open], for
    every stored state, when the store answers every read.  A VM with no record
    is not found; an object no record is read from is corrupt; a caller that
    read another epoch gets [ErrMoved], and the last epoch is never passed.
    Otherwise the handle of the next epoch is returned, also when the reply of
    the write was lost; a record too large to write, and a write that never
    landed, report their errors and change nothing.  A write that landed and
    was then refused is taken for another client's: an open that named an epoch
    reports [ErrMoved], and one that did not opens the record it had just
    written, at the epoch after.  With as many rounds as the store has replies
    to spoil and one more, the call returns. *)
Theorem open_outcomes fuel q epoch :
  keyed -> ValidID vm = true -> tagged q -> (List.length (q_fates q) <= fuel)%nat ->
  let out := alone (OpenAfter prefix (S fuel) vm epoch) q in
  is_Some out /\
  (q_stored q = None -> out = Some (Err [ErrNotFound], q)) /\
  (forall d e, q_stored q = Some (d, e) ->
     (~ 1 <= proto_size d <= maximumRecordSize -> out = Some (Err [ErrCorrupt], q)) /\
     (forall err, 1 <= proto_size d <= maximumRecordSize -> unmarshalRecord vm d = Err err ->
        out = Some (Err err, q) /\ Is err ErrCorrupt = true)) /\
  forall r e, at_ q r e ->
    (epoch <> 0 /\ Epoch r <> epoch -> out = Some (Err [ErrMoved], q)) /\
    (epoch = 0 \/ Epoch r = epoch ->
       (MaximumEpoch <= Epoch r -> out = Some (Err [ErrEpochExhausted], q)) /\
       (Epoch r < MaximumEpoch ->
          let next := with_epoch r (Epoch r + 1) (q_nonce q) in
          (forall err, marshal (W := W) next = Err err -> out = Some (Err err, q)) /\
          forall d, marshal next = Ok d ->
            (next_fate q = Lands \/ next_fate q = LandsLost ->
               out = Some (Ok (newHandle next (q_tags q 0)), written q d)) /\
            (next_fate q = Dropped -> out = Some (Err [ErrOther], unwritten q)) /\
            (next_fate q = LandsRefused ->
               (epoch <> 0 -> out = Some (Err [ErrMoved], written q d)) /\
               (epoch = 0 -> out = alone (OpenAfter prefix fuel vm 0) (written q d) /\
                  at_ (written q d) next (q_tags q 0))))).
Proof.
  intros Hk Hid Ht Hfuel. unfold OpenAfter, open. rewrite Hid. cbn [negb alone]. split_and!.
  - by apply open_loop_returns.
  - intros Hq. cbn [open_loop]. by rewrite alone_bind, read_missing.
  - intros d e Hq. cbn [open_loop]. rewrite alone_bind, (read_stored q d e) by done. split.
    + intros Hsz. by destruct (_ || _) eqn:E; [|zbool; lia].
    + intros err Hsz Hu. destruct (_ || _) eqn:E; [zbool; destruct E; zbool; lia|]. rewrite Hu.
      split; [done|]. by destruct (unmarshalRecord_Err _ _ _ Hu) as [-> | ->].
  - intros r e Hat. destruct (open_loop_stopped fuel q r e None epoch Hk Ht Hat) as [Hmoved Hlast].
    split; [done|]. intros Hep. split; [auto|]. intros Hmax. destruct (at_ok _ _ _ Hat) as (_&Hvm&Hty).
    set (next := with_epoch r (Epoch r + 1) (q_nonce q)).
    split; [intros err Hm; by eapply open_loop_refused|]. intros d Hm.
    assert (typed next) as Hty' by (by destruct Hty).
    rewrite (open_loop_alone fuel q r e next d) by done.
    split_and!; [by intros [-> | ->]|by intros ->|]. intros Hf. rewrite Hf.
    assert (at_ (written q d) next (q_tags q 0)) as Hat' by (by apply written_at).
    split; [|by intros ->]. intros Hz.
    destruct fuel as [|fuel]; [unfold next_fate in Hf; destruct (q_fates q); simpl in *; [done|lia]|].
    destruct (open_loop_stopped fuel (written q d) next (q_tags q 0) None epoch) as [Hm' _];
      [done|by apply written_tagged|done|]. apply Hm'. simpl. lia.
Qed.

(** What [Client.Create] returns: the handle of the new record where there
    was none, also when the reply was lost and also when the store refused a
    write it had applied; and [ErrExists], with nothing written, where the VM
    has a record of another writer. *)
Theorem create_outcomes q selected published :
  keyed -> ValidID vm = true -> tagged q -> ValidCreateSequence selected = true ->
  let record := mkRecord vm (EpochOf selected) (q_nonce q) selected published [] [] [] in
  let out := alone (Create prefix vm selected published) q in
  forall d, marshal record = Ok d ->
  (q_stored q = None -> next_fate q <> Dropped ->
     out = Some (Ok (newHandle record (q_tags q 0)), written q d)) /\
  (forall r e, at_ q r e -> Nonce r <> q_nonce q ->
     out = Some (Err [ErrExists], unwritten q)).
Proof.
  intros Hk Hid Ht Hs record out d Hm. unfold out, Create. rewrite Hid, Hs. cbn [negb orb alone].
  fold record. rewrite alone_bind, (put_alone q record IfNoneMatch d) by done. unfold quiet_put. split.
  - intros Hq Hf. rewrite Hq. simpl.
    assert (alone (read prefix vm) (written q d) = Some (Ok (record, q_tags q 0), written q d)) as Hread.
    { apply read_alone; [done|by apply written_tagged|apply written_at; [done|by repeat constructor|done]]. }
    assert (mine record (EpochOf selected) (q_nonce q) = true) as Hmine by (by apply mine_iff).
    destruct (next_fate q); try done; by rewrite alone_bind, Hread, Hmine.
  - intros r e Hat Hn. pose proof Hat as (d0&Hd0&_). rewrite Hd0. simpl.
    rewrite alone_bind, (read_alone (unwritten q) r e) by done.
    destruct (mine r (EpochOf selected) (q_nonce q)) eqn:Em; [|done].
    by apply mine_iff in Em as [_ ?].
Qed.

(** C39: every write a client makes over a valid record is a valid record, so
    that [Record.marshal] refuses it only for its size. *)
Theorem record_changes_keep_validity r :
  valid r = true ->
  (forall s kept journals r', match kept with Some k => kSequence k = s | None => True end ->
     select_mutation (Epoch r) s kept journals r = Ok r' -> valid r' = true) /\
  (forall s r', pin_mutation s r = Ok r' -> valid r' = true) /\
  (forall s, valid (with_kept r (withoutKept r s)) = true) /\
  (forall n joining r', zlen n = nonceSize -> Epoch r < MaximumEpoch ->
     match joining with Some j => Disk j <> zeroDisk | None => True end ->
     opening r n joining = Ok r' -> valid r' = true).
Proof.
  intros Hv. split_and!.
  - intros s kept journals r' Hk Hr. by eapply select_keeps_valid.
  - intros s r' Hr. by eapply pin_keeps_valid.
  - intros s. by apply release_keeps_valid.
  - intros n joining r' Hn He Hj Hr. by eapply open_keeps_valid.
Qed.

End Quiet.

(** ** Samples *)

Definition sample_vm : string := "tenant-1/vm-1".
Definition sample_nonce : list byte := replicate 16 Byte.x07.

Definition sample_record : Record_ :=
  mkRecord sample_vm 5 (replicate 16 Byte.x01) (Sequence 5 2) true [Sequence 5 1]
    [mkKept (Sequence 5 1) 1700000000000000000 true] [mkJournal (replicate 16 Byte.x02) 9 5 77].

Definition sample_quiet (fates : list fate) : quiet (W := Message) :=
  mkQuiet (Some (message sample_record, "e0"%string)) fates (fun n => if Nat.even n then "e1"%string else "e2"%string)
    sample_nonce 0 None false.

Definition empty_quiet (fates : list fate) : quiet (W := Message) :=
  mkQuiet None fates (fun _ => "e1"%string) sample_nonce 0 None false.

Lemma sample_tagged fates : tagged (sample_quiet fates).
Proof. split; [|done]. intros n. simpl. by destruct (Nat.even n). Qed.

Lemma sample_at fates : at_ sample_vm (sample_quiet fates) sample_record "e0".
Proof. exists (message sample_record). by split. Qed.

Definition sample_handle : Handle := newHandle sample_record "e0".

Lemma sample_tracks fates : tracks sample_vm sample_handle (sample_quiet fates).
Proof. split; [done|apply sample_at]. Qed.

(** A selection the store applied and then refused, and one of an earlier
    epoch. *)
Lemma select_outcomes_witness :
  (exists h' q' next,
    alone (Select "" 1 sample_handle (Sequence 5 3) []) (sample_quiet [LandsRefused]) = Some ((h', Ok next), q') /\
    Selected next = Sequence 5 3 /\ q_stored q' = Some (message next, "e1"%string)) /\
  alone (Select "" 1 sample_handle (Sequence 4 9) []) (sample_quiet []) =
    Some ((sample_handle, Err [ErrSequence]), sample_quiet []).
Proof.
  split.
  - pose proof (select_outcomes "" sample_vm 0 sample_handle (sample_quiet [LandsRefused]) (Sequence 5 3) []
      eq_refl (sample_tagged _) (sample_tracks _) (Forall_nil_2 _)) as Hok.
    eexists _, _, _. split; [exact Hok|]. by split.
  - exact (select_outcomes "" sample_vm 0 sample_handle (sample_quiet []) (Sequence 4 9) []
      eq_refl (sample_tagged _) (sample_tracks _) (Forall_nil_2 _)).
Defined.

(** An open the store applied and then refused takes the epoch after. *)
Lemma open_outcomes_witness :
  exists q', alone (OpenAfter "" 3 sample_vm 0) (sample_quiet [LandsRefused; LandsLost]) =
    Some (Ok (newHandle (with_epoch sample_record 7 sample_nonce) "e2"), q').
Proof.
  destruct (open_outcomes "" sample_vm 2 (sample_quiet [LandsRefused; LandsLost]) 0
    eq_refl eq_refl (sample_tagged _) ltac:(simpl; lia)) as (_&_&_&Hfirst).
  destruct (Hfirst sample_record "e0"%string (sample_at _)) as [_ Htake].
  destruct (Htake (or_introl eq_refl)) as [_ Hopen]. destruct (Hopen eq_refl) as [_ Hwritten].
  destruct (Hwritten (message (with_epoch sample_record 6 sample_nonce)) eq_refl) as (_&_&Hrefused).
  destruct (Hrefused eq_refl) as [_ Hagain]. destruct (Hagain eq_refl) as [-> Hat].
  destruct (open_outcomes "" sample_vm 1 (written (sample_quiet [LandsRefused; LandsLost])
    (message (with_epoch sample_record 6 sample_nonce))) 0
    eq_refl eq_refl (written_tagged _ _ (sample_tagged _)) ltac:(simpl; lia)) as (_&_&_&Hsecond).
  destruct (Hsecond _ _ Hat) as [_ Htake2]. destruct (Htake2 (or_introl eq_refl)) as [_ Hopen2].
  destruct (Hopen2 eq_refl) as [_ Hwritten2].
  destruct (Hwritten2 (message (with_epoch sample_record 7 sample_nonce)) eq_refl) as [Hlost _].
  eexists. apply Hlost. by right.
Defined.

Definition created_record : Record_ := mkRecord sample_vm (EpochOf (Sequence 9 1)) sample_nonce (Sequence 9 1) true [] [] [].

Lemma create_outcomes_witness :
  (exists q', alone (Create "" sample_vm (Sequence 9 1) true) (empty_quiet [LandsRefused]) =
    Some (Ok (newHandle created_record "e1"), q')) /\
  alone (Create "" sample_vm (Sequence 9 1) true) (sample_quiet []) = Some (Err [ErrExists], unwritten (sample_quiet [])).
Proof.
  assert (marshal created_record = Ok (message created_record)) as Hm by (vm_compute; reflexivity).
  split.
  - destruct (create_outcomes "" sample_vm (empty_quiet [LandsRefused]) (Sequence 9 1) true
      eq_refl eq_refl ltac:(by split) eq_refl _ Hm) as [Hok _].
    eexists. apply Hok; [reflexivity|discriminate].
  - destruct (create_outcomes "" sample_vm (sample_quiet []) (Sequence 9 1) true
      eq_refl eq_refl (sample_tagged _) eq_refl _ Hm) as [_ Hex].
    apply (Hex sample_record "e0"%string (sample_at _)). vm_compute. discriminate.
Defined.

Lemma record_changes_keep_validity_witness :
  valid sample_record = true /\ valid (with_kept sample_record (withoutKept sample_record (Sequence 5 1))) = true.
Proof. split; [reflexivity|]. apply (record_changes_keep_validity sample_record). reflexivity. Defined.

End Quiet.
