(* ===== verification/VolumeVM.v ===== *)
(** * A VM's volumes

    [volume/vm.go], [volume/operations.go], [volume/publish.go],
    [volume/dirty.go] and [volume/source.go]: the handle of one open VM, the
    writes it takes into its overlays, and the capture, publication and
    installation of a checkpoint while writes go on.  Reads and writes are those
    of file [Overlay].

    A checkpoint index and the store that commits and reads one are the class
    [PageStore]: this file uses only what it states.  The simulation's fault
    hooks ([sim.Bug]) are off, as they are outside a simulation.  What a call
    gets from outside — a cancelled context, the answer of the control record —
    is an argument. *)

From S2P Require Import Prelude Interval Overlay ControlRecord.

Module VolumeVM.
Import Overlay.
Import Control (Ref, mkRef, zeroRef, IsZero, ValidSequence, Sequence, EpochOf, Seq).

#[local] Existing Instance Control.Ref_eq_dec.

Inductive verror :=
| ErrInvalidRange | ErrEphemeral | ErrWriteTooLarge | ErrHandedOff | ErrClosed | ErrNeedsRecovery
| ErrCorrupt | ErrUnknownVolume | ErrCapacity | ErrSealed | ErrForkPending | ErrInvalidConfig
(** the control record is another writer's *)
| ErrFenced
(** a failure of the store, or a cancelled context *)
| ErrOutside.

#[export] Instance verror_eq_dec : EqDecision verror.
Proof. solve_decision. Defined.

(** ** Geometry *)

Record Geometry := mkGeometry { PageSize : Z; SegmentPages : Z }.

Definition PageSize4KiB : Z := Z.shiftl 4 10.
Definition PageSize2MiB : Z := Z.shiftl 2 20.

Definition GeometryFor (pageSize : Z) : result verror Geometry :=
  if pageSize =? PageSize4KiB then Ok (mkGeometry PageSize4KiB (Z.shiftl 16 10))
  else if pageSize =? PageSize2MiB then Ok (mkGeometry PageSize2MiB 256)
  else Err ErrInvalidConfig.

Definition PageOf (g : Geometry) (offset : Z) : Z := offset / PageSize g.

(** ** Sources *)

(** What an overlay sits on: a volume's name, an offset and a length to the
    bytes there, for a reader whose context is not cancelled. *)
Definition source := string -> inherited verror.

(** [DirtySource]: the sealed pages of one volume's pager. *)
Record DirtySource := mkDirtySource {
  DirtyPages : list Z;
  ReadDirty : Z -> result verror (list byte);
}.

(** The page store a VM publishes to: an index of published pages, its reads,
    and the commit of a publication over a parent index, which takes each
    volume's page size, the pages it republishes of each, and the source it
    reads them from. *)
Class PageStore (Index : Type) := {
  index_read : Index -> source;
  Commit : Index -> (string -> Z) -> (string -> list Z) -> source -> result verror Index;
}.

(** A source gives the bytes of an image of a volume of a size. *)
Definition gives (src : inherited verror) (size : Z) (img : Z -> byte) : Prop :=
  forall off len, 0 <= off -> 0 < len -> off + len <= size -> src off len = Ok (img <$> seqZ off len).

(** What a publication promises: the pages it names read as its source had
    them, and every other page as its parent had it. *)
Class PageStoreLaws (Index : Type) `{PageStore Index} := {
  commit_pages parent pageSize dirty src index name size img img' :
    Commit parent pageSize dirty src = Ok index -> 0 < pageSize name ->
    gives (index_read parent name) size img -> gives (src name) size img' ->
    gives (index_read index name) size
      (fun p => if bool_decide (p / pageSize name ∈ dirty name) then img' p else img p);
}.

(** [publisher.ref] *)
Record publisher := mkPublisher { p_frozen : Z; p_frozenRef : Ref; p_next : Ref }.

Definition publisher_ref (p : publisher) (at_ : Z) : Ref :=
  if negb (IsZero (p_frozenRef p)) && (at_ <=? p_frozen p) then p_frozenRef p else p_next p.

(** ** The handle *)

Record Volume := mkVolume {
  name : string;
  size : Z;
  geometry : Geometry;
  ephemeral : bool;
}.

Definition validRange (size offset length : Z) : bool := (offset <=? size) && (length <=? size - offset).

Definition nextSequence (epoch selected : Z) : Z :=
  if EpochOf selected =? epoch then wrap64 (selected + 1) else Sequence epoch 1.

Record WriteExtent := mkWriteExtent { Offset : Z; Data : list byte }.

(** [change] with a nil payload is a discard. *)
Record change := mkChange { c_offset : Z; c_length : Z; c_data : option (list byte) }.

Section VM.
Context {Index : Type} `{PageStore Index}.

Record view := mkView {
  v_base : source;
  v_overlays : list extentIndex;
  v_owner : publisher;
  v_err : option verror;
}.

Record VM := mkVM {
  id : string;
  epoch : Z;
  volumes : list Volume;
  current : view;
  base : source;
  baseIndex : option Index;
  owned : option Index;
  overlays : list extentIndex;
  head : Ref;
  next : Z;
  frozen : Z;
  frozenRef : Ref;
  applied : Z;
  dirty : Z;
  closed : bool;
  poisoned : option verror;
  handedOff : bool;
  published : option verror;
  sealed : bool;
  (** a fork that has not published its own root, the pages it inherited, and
      the index its parent published of the point it was forked at *)
  root : bool;
  inheritedPages : string -> list Z;
  publishedPoint : option Index;
}.

Definition readyLocked (vm : VM) : option verror :=
  if handedOff vm then Some ErrHandedOff
  else if closed vm then Some ErrClosed
  else poisoned vm.

Definition view_of (vm : VM) : view :=
  mkView (base vm) (overlays vm)
    (mkPublisher (frozen vm) (frozenRef vm) (mkRef (id vm) (next vm))) (readyLocked vm).

Definition publishLocked (vm : VM) : VM :=
  mkVM (id vm) (epoch vm) (volumes vm) (view_of vm) (base vm) (baseIndex vm) (owned vm) (overlays vm) (head vm) (next vm)
    (frozen vm) (frozenRef vm) (applied vm) (dirty vm) (closed vm) (poisoned vm) (handedOff vm) (published vm) (sealed vm)
    (root vm) (inheritedPages vm) (publishedPoint vm).

(** ** Writes *)

Definition apply_change (generation : Z) (state : extentIndex * Z) (item : change) : extentIndex * Z :=
  let '(overlay, dirty) := state in
  (replaceExtent overlay (mkExtent (c_offset item) (c_offset item + c_length item) (c_data item) generation),
   wrap64 (dirty + sectorSpan (c_offset item) (c_length item))).

Definition applyLocked (vm : VM) (ordinal : nat) (changes : list change) : VM :=
  let generation := wrap64 (applied vm + 1) in
  let overlay := default Nil (overlays vm !! ordinal) in
  let '(overlay, d) := fold_left (apply_change generation) changes (overlay, dirty vm) in
  mkVM (id vm) (epoch vm) (volumes vm) (current vm) (base vm) (baseIndex vm) (owned vm) (<[ordinal := overlay]> (overlays vm))
    (head vm) (next vm) (frozen vm) (frozenRef vm) generation d (closed vm) (poisoned vm) (handedOff vm)
    (published vm) (sealed vm) (root vm) (inheritedPages vm) (publishedPoint vm).

Definition apply (vm : VM) (ordinal : nat) (changes : list change) : VM * option verror :=
  match readyLocked vm with
  | Some e => (publishLocked vm, Some e)
  | None => (publishLocked (applyLocked vm ordinal changes), None)
  end.

(** The changes of a batch, and its payload bytes. *)
Fixpoint batch (size : Z) (extents : list WriteExtent) : result verror (list change * Z) :=
  match extents with
  | [] => Ok ([], 0)
  | item :: extents =>
    if negb (validRange size (Offset item) (zlen (Data item))) then Err ErrInvalidRange
    else
      let? (changes, total) := batch size extents in
      if zlen (Data item) =? 0 then Ok (changes, total)
      else Ok (mkChange (Offset item) (zlen (Data item)) (Some (Data item)) :: changes, total + zlen (Data item))
  end.

Definition WriteBatch (maxWrite : Z) (cause : option verror) (vm : VM) (ordinal : nat) (v : Volume)
  (extents : list WriteExtent) : VM * option verror :=
  if ephemeral v then (vm, Some ErrEphemeral)
  else
    match batch (size v) extents with
    | Err e => (vm, Some e)
    | Ok (changes, total) =>
      if total >? maxWrite then (vm, Some ErrWriteTooLarge)
      else if zlen changes =? 0 then (vm, None)
      else match cause with
           | Some e => (vm, Some e)
           | None => apply vm ordinal changes
           end
    end.

Definition Write (maxWrite : Z) (cause : option verror) (vm : VM) (ordinal : nat) (v : Volume)
  (offset : Z) (data : list byte) : VM * option verror :=
  WriteBatch maxWrite cause vm ordinal v [mkWriteExtent offset data].

Definition Discard (cause : option verror) (vm : VM) (ordinal : nat) (v : Volume) (offset length : Z)
  : VM * option verror :=
  if negb (validRange (size v) offset length) then (vm, Some ErrInvalidRange)
  else if length =? 0 then (vm, None)
  else if ephemeral v then (vm, Some ErrEphemeral)
  else match cause with
       | Some e => (vm, Some e)
       | None => apply vm ordinal [mkChange offset length None]
       end.

Definition Verify (cause : option verror) (vm : VM) : option verror :=
  match cause with Some e => Some e | None => readyLocked vm end.

(** ** Reads *)

Definition Read (cause : option verror) (vm : VM) (ordinal : nat) (v : Volume) (offset : Z) (dst : list byte)
  : result verror (list byte) :=
  if negb (validRange (size v) offset (zlen dst)) then Err ErrInvalidRange
  else match cause with
       | Some e => Err e
       | None =>
         match v_err (current vm) with
         | Some e => Err e
         | None =>
           if ephemeral v then Ok (zeros (zlen dst))
           else readOverlay cause (v_base (current vm) (name v))
                  (default Nil (v_overlays (current vm) !! ordinal)) offset dst
         end
       end.

(** ** Sealed pages under a checkpoint *)

(** [sealedSource.read]: [fuel] bounds its loop, which moves at least one byte a
    turn. *)
Fixpoint sealed_read (fuel : nat) (parent : inherited verror) (src : DirtySource) (pageSize offset cursor upto : Z)
  (dst : list byte) : result verror (list byte) :=
  if negb (cursor <? upto) then Ok dst
  else
    match fuel with
    | O => Err ErrOutside
    | S fuel =>
      let number := cursor / pageSize in
      let stop := Z.min upto ((number + 1) * pageSize) in
      let? target :=
        if negb (bool_decide (number ∈ DirtyPages src)) then parent cursor (stop - cursor)
        else
          let? page := ReadDirty src number in
          if stop - cursor =? pageSize then Ok page
          else Ok (slice page (cursor - number * pageSize) (stop - number * pageSize)) in
      sealed_read fuel parent src pageSize offset stop upto (write_at dst (cursor - offset) target)
    end.

Definition newSealedSource (parent : source) (sources : gmap string DirtySource) (pageSize : string -> Z) : source :=
  fun volume =>
    match sources !! volume with
    | None => parent volume
    | Some src => fun offset length =>
      sealed_read (Z.to_nat length) (parent volume) src (pageSize volume) offset offset (offset + length) (zeros length)
    end.

(** ** Capture *)

Record Checkpoint := mkCheckpoint {
  ref : Ref;
  c_base : source;
  parentIndex : Index;
  c_overlays : gmap string extentIndex;
  sources : gmap string DirtySource;
  c_inherited : string -> list Z;
  position : Z;
}.

Definition byName (vm : VM) (n : string) : option Volume := list_find (fun v => name v = n) (volumes vm) ≫= (fun x => Some x.2).

Definition pageSizeOf (vm : VM) (n : string) : Z :=
  match byName vm n with Some v => PageSize (geometry v) | None => 0 end.

(** The volumes whose sealed pages a capture offers are checked in the order of
    [names], the order Go ranges over the map in. *)
Fixpoint check_sources (vm : VM) (names : list string) : option verror :=
  match names with
  | [] => None
  | n :: names =>
    match byName vm n with
    | None => Some ErrUnknownVolume
    | Some held => if ephemeral held then Some ErrEphemeral else check_sources vm names
    end
  end.

Definition captureLocked (vm : VM) (sources : gmap string DirtySource) (force : bool)
  : VM * result verror (option Checkpoint) :=
  match readyLocked vm with
  | Some e => (vm, Err e)
  | None =>
    match baseIndex vm with
    | None => (vm, Err ErrCorrupt)
    | Some index =>
      match check_sources vm (map_to_list sources).*1 with
      | Some e => (vm, Err e)
      | None =>
        if negb force && (dirty vm =? 0) then (vm, Ok None)
        else if negb (ValidSequence (epoch vm) (next vm)) then (vm, Err ErrCapacity)
        else
          let '(pindex, pages) :=
            match root vm, publishedPoint vm with
            | true, Some published => (published, fun _ => [])
            | _, _ => (index, inheritedPages vm)
            end in
          let r := mkRef (id vm) (next vm) in
          let ckpt := mkCheckpoint r (newSealedSource (base vm) sources (pageSizeOf vm)) pindex
                        (list_to_map (zip (name <$> volumes vm) (overlays vm))) sources pages (applied vm) in
          (publishLocked (mkVM (id vm) (epoch vm) (volumes vm) (current vm) (base vm) (baseIndex vm) (owned vm) (overlays vm)
             (head vm) (wrap64 (next vm + 1)) (applied vm) r (applied vm) (dirty vm) (closed vm) (poisoned vm)
             (handedOff vm) (published vm) (sealed vm) (root vm) (inheritedPages vm) (publishedPoint vm)),
           Ok (Some ckpt))
      end
    end
  end.

(** ** Publication *)

(** [slices.Sorted] of the keys of a set built from two lists. *)
Definition sorted_union (a b : list Z) : list Z := merge_sort Z.le (remove_dups (a ++ b)).

Definition mergePages (a b : list Z) : list Z :=
  if zlen b =? 0 then a else if zlen a =? 0 then b else sorted_union a b.

Definition changedPages (overlay : extentIndex) (src : option DirtySource) (pageSize : Z) : list Z :=
  let written := dirtyPages overlay pageSize in
  match src with
  | None => written
  | Some src => if zlen written =? 0 then DirtyPages src else sorted_union written (DirtyPages src)
  end.

Definition publishedPages (vm : VM) (ckpt : Checkpoint) (volume : string) : list Z :=
  mergePages
    (changedPages (default Nil (c_overlays ckpt !! volume)) (sources ckpt !! volume) (pageSizeOf vm volume))
    (c_inherited ckpt volume).

(** [Checkpoint.read], which the publication and a fork read through. *)
Definition checkpoint_read (ckpt : Checkpoint) : source := fun volume offset length =>
  readOverlay None (c_base ckpt volume) (default Nil (c_overlays ckpt !! volume)) offset (zeros length).

(** [selection] is what the control record answered the selection of the
    committed index. *)
Definition publish (vm : VM) (ckpt : Checkpoint) (selection : option verror) : result verror Index :=
  let? index := Commit (parentIndex ckpt) (pageSizeOf vm) (publishedPages vm ckpt) (checkpoint_read ckpt) in
  match selection with
  | Some e => Err e
  | None => Ok index
  end.

Definition retain_all (overlays : list extentIndex) (through : Z) : list extentIndex :=
  (fun overlay => retain overlay through) <$> overlays.

Definition dirty_bytes (overlays : list extentIndex) : Z :=
  fold_left (fun dirty overlay => wrap64 (dirty + dirtySectorCount overlay * SectorSize)) overlays 0.

Definition install (vm : VM) (ckpt : Checkpoint) (index : Index) : VM * option Index :=
  let replaced := owned vm in
  let keep := negb (bool_decide (frozenRef vm = ref ckpt)) in
  let kept := retain_all (overlays vm) (position ckpt) in
  (publishLocked (mkVM (id vm) (epoch vm) (volumes vm) (current vm) (index_read index) (Some index) (Some index) kept
     (ref ckpt) (next vm) (if keep then frozen vm else 0) (if keep then frozenRef vm else zeroRef) (applied vm)
     (dirty_bytes kept) (closed vm) (poisoned vm) (handedOff vm) (published vm) (sealed vm)
     false (if root vm then (fun _ => []) else inheritedPages vm) (publishedPoint vm)),
   replaced).

(** [release] abandons a failed publication; its sequence stays burnt. *)
Definition release (vm : VM) (ckpt : Checkpoint) : VM :=
  let keep := negb (bool_decide (frozenRef vm = ref ckpt)) in
  publishLocked (mkVM (id vm) (epoch vm) (volumes vm) (current vm) (base vm) (baseIndex vm) (owned vm) (overlays vm)
    (head vm) (next vm) (if keep then frozen vm else 0) (if keep then frozenRef vm else zeroRef) (applied vm)
    (dirty vm) (closed vm) (poisoned vm) (handedOff vm) (published vm) (sealed vm)
    (root vm) (inheritedPages vm) (publishedPoint vm)).

Definition fail (vm : VM) : VM :=
  publishLocked (mkVM (id vm) (epoch vm) (volumes vm) (current vm) (base vm) (baseIndex vm) (owned vm) (overlays vm)
    (head vm) (next vm) (frozen vm) (frozenRef vm) (applied vm) (dirty vm) (closed vm)
    (match poisoned vm with None => Some ErrNeedsRecovery | Some e => Some e end)
    (handedOff vm) (published vm) (sealed vm) (root vm) (inheritedPages vm) (publishedPoint vm)).

(** [VM.record]: the last outcome, for [Status]. *)
Definition record (vm : VM) (err : option verror) : VM :=
  mkVM (id vm) (epoch vm) (volumes vm) (current vm) (base vm) (baseIndex vm) (owned vm) (overlays vm)
    (head vm) (next vm) (frozen vm) (frozenRef vm) (applied vm) (dirty vm) (closed vm) (poisoned vm)
    (handedOff vm) err (sealed vm) (root vm) (inheritedPages vm) (publishedPoint vm).

(** The publication of a checkpoint and its retries: the control record's answer
    to each attempt, as many as the capture's [Retry] allows.  A fenced
    publication is never retried. *)
Fixpoint attempts (vm : VM) (ckpt : Checkpoint) (selection : option verror) (retries : list (option verror))
  : result verror Index :=
  match publish vm ckpt selection with
  | Ok index => Ok index
  | Err e =>
    match retries with
    | [] => Err e
    | selection :: retries => if bool_decide (e = ErrFenced) then Err e else attempts vm ckpt selection retries
    end
  end.

(** [complete] publishes while the VM may have taken more writes: [vm] is the
    handle when the publication ends. *)
Definition complete (vm : VM) (ckpt : Checkpoint) (selection : option verror) (retries : list (option verror))
  : VM * option verror :=
  match attempts vm ckpt selection retries with
  | Ok index => (record (install vm ckpt index).1 None, None)
  | Err e =>
    let vm := release vm ckpt in
    if bool_decide (e = ErrFenced) then (record (fail vm) (Some ErrNeedsRecovery), Some ErrNeedsRecovery)
    else (record vm (Some e), Some e)
  end.

(** ** The end of a handle *)

Definition Handoff (vm : VM) : VM * option verror :=
  match readyLocked vm with
  | Some e => (vm, Some e)
  | None =>
    if root vm then (vm, Some ErrForkPending)
    else
      (publishLocked (mkVM (id vm) (epoch vm) (volumes vm) (current vm) (base vm) (baseIndex vm) (owned vm)
         (overlays vm) (head vm) (next vm) (frozen vm) (frozenRef vm) (applied vm) (dirty vm) (closed vm)
         (poisoned vm) true (published vm) (sealed vm) (root vm) (inheritedPages vm) (publishedPoint vm)), None)
  end.

End VM.
Arguments view : clear implicits.
Arguments VM Index : clear implicits.
Arguments Checkpoint Index : clear implicits.

(** ** Overlays: lemmas *)

Definition change_ok (size : Z) (c : change) : Prop :=
  0 <= c_offset c /\ 0 < c_length c /\ c_offset c + c_length c <= size /\
  match c_data c with None => True | Some d => zlen d = c_length c end.

(** What one change does to the bytes of a volume. *)
Definition set_bytes (img : Z -> byte) (c : change) (p : Z) : byte :=
  if (c_offset c <=? p) && (p <? c_offset c + c_length c) then
    match c_data c with None => Byte.x00 | Some d => default Byte.x00 (zget d (p - c_offset c)) end
  else img p.

Definition set_extent (img : Z -> byte) (e : WriteExtent) (p : Z) : byte :=
  if (Offset e <=? p) && (p <? Offset e + zlen (Data e)) then default Byte.x00 (zget (Data e) (p - Offset e))
  else img p.

Lemma set_bytes_ext cs (i i' : Z -> byte) :
  (forall p, i p = i' p) -> forall p, fold_left set_bytes cs i p = fold_left set_bytes cs i' p.
Proof.
  revert i i'. induction cs as [|c cs IH]; simpl; intros i i' Hii; [done|]. apply IH. intros p.
  unfold set_bytes. by rewrite Hii.
Qed.

Lemma set_extent_ext es (i i' : Z -> byte) :
  (forall p, i p = i' p) -> forall p, fold_left set_extent es i p = fold_left set_extent es i' p.
Proof.
  revert i i'. induction es as [|e es IH]; simpl; intros i i' Hii; [done|]. apply IH. intros p.
  unfold set_extent. by rewrite Hii.
Qed.

(** An overlay whose writes are all of generation [g] or below. *)
Record overlay_ok (g size : Z) (n : extentIndex) : Prop := {
  overlay_wf : wf_overlay size n;
  overlay_gens : Forall (fun e => generation e <= g) (elements n);
}.

Lemma overlay_ok_weaken g g' size n : overlay_ok g size n -> g <= g' -> overlay_ok g' size n.
Proof.
  intros [Hw Hg] Hle. split; [done|]. eapply Forall_impl; [exact Hg|]. intros e ?. simpl in *. lia.
Qed.

Lemma overlay_ok_nil g size : 0 <= size -> overlay_ok g size Nil.
Proof. intros. split; [split; [by apply wf_nil|constructor]|constructor]. Qed.

Lemma lookup_generation g size n p b g' : overlay_ok g size n -> lookup n p = Some (b, g') -> g' <= g.
Proof.
  intros [[Hw _] Hg] Hl. rewrite (wf_lookup _ _ _ _ Hw) in Hl. unfold llookup in Hl.
  destruct (lfind (elements n) p) as [x|] eqn:E; [|done]. injection Hl as _ <-.
  apply lfind_Some in E as [Hx _]. by eapply Forall_forall in Hg.
Qed.

Lemma replace_ok g g' size n c :
  overlay_ok g size n -> g <= g' -> change_ok size c ->
  let n' := replaceExtent n (mkExtent (c_offset c) (c_offset c + c_length c) (c_data c) g') in
  overlay_ok g' size n' /\
  (forall img p, over n' img p = set_bytes (over n img) c p) /\
  (forall p, lookup n' p = lookup n p \/ exists b, lookup n' p = Some (b, g')).
Proof.
  intros [[Hw Hs] Hg] Hle (Ho&Hl&Hend&Hd). set (e := mkExtent _ _ _ _). simpl.
  assert (0 <= istart e) by done. assert (istart e < iend e) by (simpl; lia). assert (iend e <= size) by done.
  pose proof (lookup_replace 0 n size e) as Hlk. split_and!.
  - split; [split|]; unfold replaceExtent.
    + by apply wf_replace.
    + apply (Forall_replace sized 0 n size); try done; [by intros; apply sized_cut|].
      unfold sized. simpl. destruct (c_data c); [lia|done].
    + apply (Forall_replace _ 0 n size); try done. eapply Forall_impl; [exact Hg|]. intros x ?. simpl in *. lia.
  - intros img p. unfold over, set_bytes, replaceExtent. rewrite Hlk by done. simpl.
    destruct (_ && _); [|done]. unfold byte_at. simpl. by destruct (c_data c).
  - intros p. unfold replaceExtent. rewrite Hlk by done. destruct (_ && _); [right|by left]. simpl. by eexists.
Qed.

Lemma apply_changes_ok g size n d cs :
  overlay_ok g size n -> Forall (change_ok size) cs ->
  let r := fold_left (apply_change g) cs (n, d) in
  overlay_ok g size r.1 /\
  (forall img p, over r.1 img p = fold_left set_bytes cs (over n img) p) /\
  (forall p, lookup r.1 p = lookup n p \/ exists b, lookup r.1 p = Some (b, g)).
Proof.
  revert n d. induction cs as [|c cs IH]; intros n d Hn Hcs; simpl.
  { split_and!; [done|done|by left]. }
  apply Forall_cons in Hcs as [Hc Hcs].
  pose proof (replace_ok g g size n c Hn ltac:(lia) Hc) as (Hn'&Hi'&Hl').
  set (n' := replaceExtent n _) in *. set (d' := wrap64 _).
  destruct (IH n' d' Hn' Hcs) as (Hr&Hi&Hl). split_and!; [done| |].
  - intros img p. rewrite Hi. apply set_bytes_ext. intros q. apply Hi'.
  - intros p. destruct (Hl p) as [Heq|?]; [|by right]. rewrite Heq. apply Hl'.
Qed.

(** The changes of a batch that is accepted. *)
Lemma batch_spec size extents changes total :
  Forall (fun e => 0 <= Offset e) extents -> batch size extents = Ok (changes, total) ->
  Forall (change_ok size) changes /\
  (forall img p, fold_left set_bytes changes img p = fold_left set_extent extents img p) /\
  total = fold_right (fun e total => zlen (Data e) + total) 0 extents.
Proof.
  intros Hoff. revert changes total. induction extents as [|e l IH]; simpl; intros changes total Hb.
  { injection Hb as <- <-. by split_and!. }
  apply Forall_cons in Hoff as [Ho Hoff].
  destruct (validRange size (Offset e) (zlen (Data e))) eqn:Ev; [|done]. simpl in Hb.
  destruct (batch size l) as [[cs t]|] eqn:Eb; [|done]. destruct (IH Hoff _ _ eq_refl) as (Hcs&Hi&Ht).
  pose proof (zlen_nonneg (Data e)). destruct (zlen (Data e) =? 0) eqn:Ez; injection Hb as <- <-; zbool.
  - split_and!; [done| |lia]. intros img p. rewrite Hi. apply set_extent_ext. intros q.
    unfold set_extent. rewrite Ez. destruct (_ && _) eqn:E; [zbool; lia|done].
  - split_and!; [|intros img p; simpl; by rewrite Hi|lia]. constructor; [|done].
    unfold validRange in Ev. zbool. split_and!; simpl; lia.
Qed.

(** ** A handle and the bytes of its volumes *)
Section Handle.
Context {Index : Type} `{PageStoreLaws Index}.

Abbreviation VM := (VM Index).
Abbreviation Checkpoint := (Checkpoint Index).

(** Volume [i] of the handle reads as [img] over a base that gives [bimg]. *)
Record stands (vm : VM) (i : nat) (v : Volume) (bimg img : Z -> byte) : Prop := {
  stands_overlay : exists o, overlays vm !! i = Some o /\ overlay_ok (applied vm) (size v) o /\
    forall p, 0 <= p < size v -> img p = over o bimg p;
  stands_base : gives (base vm (name v)) (size v) bimg;
  stands_size : 0 <= size v /\ addressable (size v);
}.

Lemma gives_serves (src : inherited verror) size img held off len :
  gives src size img -> 0 <= off -> off + len <= size -> serves src img held off (off + len).
Proof. intros Hg ?? o l ????. apply Hg; lia. Qed.

Lemma read_over (src : inherited verror) size o bimg offset dst :
  gives src size bimg -> wf_overlay size o -> 0 <= offset -> offset + zlen dst <= size ->
  readOverlay None src o offset dst = Ok (over o bimg <$> seqZ offset (zlen dst)).
Proof.
  intros Hg Hw ??. eapply readOverlay_spec; [exact Hw|]. eapply gives_serves; [exact Hg|lia|lia].
Qed.

Lemma image_ext (img img' : Z -> byte) off len :
  (forall p, off <= p < off + len -> img p = img' p) -> img <$> seqZ off len = img' <$> seqZ off len.
Proof.
  intros He. apply list_fmap_ext. intros k p Hp. apply lookup_seqZ in Hp. apply He. lia.
Qed.

(** The read view of a handle is the one of its state. *)
Definition viewed (vm : VM) : Prop := current vm = view_of vm.

Lemma publishLocked_viewed (vm : VM) : viewed (publishLocked vm).
Proof. done. Qed.

Lemma Read_spec vm i v bimg img offset dst :
  viewed vm -> stands vm i v bimg img -> 0 <= offset ->
  Read None vm i v offset dst =
    if negb (validRange (size v) offset (zlen dst)) then Err ErrInvalidRange
    else match readyLocked vm with
         | Some e => Err e
         | None => if ephemeral v then Ok (zeros (zlen dst)) else Ok (img <$> seqZ offset (zlen dst))
         end.
Proof.
  intros Hv [(o&Ho&Hok&Himg) Hb Hs] Hoff. unfold Read. rewrite Hv. simpl.
  destruct (validRange _ _ _) eqn:Er; [simpl|done]. unfold validRange in Er. zbool.
  destruct (readyLocked vm); [done|]. destruct (ephemeral v); [done|]. rewrite Ho. simpl.
  rewrite (read_over _ (size v) o bimg) by (done || apply Hok || lia). f_equal.
  apply image_ext. intros p ?. symmetry. apply Himg. lia.
Qed.

(** A write to volume [i] of changes within it. *)
Lemma applyLocked_stands vm i v bimg img cs j u bimg' img' :
  0 <= applied vm < 2 ^ 64 - 1 ->
  volumes vm !! i = Some v -> stands vm i v bimg img -> Forall (change_ok (size v)) cs ->
  volumes vm !! j = Some u -> stands vm j u bimg' img' ->
  let vm' := publishLocked (applyLocked vm i cs) in
  stands vm' j u bimg' (if decide (i = j) then fold_left set_bytes cs img' else img').
Proof.
  intros Ha Hi [(o&Ho&Hok&Himg) Hb Hs] Hcs Hj [(o'&Ho'&Hok'&Himg') Hb' Hs'].
  assert (wrap64 (applied vm + 1) = applied vm + 1) as Hg by (apply wrap64_small; unfold u64; lia).
  unfold applyLocked. rewrite Ho, Hg. simpl.
  pose proof (apply_changes_ok (applied vm + 1) (size v) o (dirty vm) cs) as Hspec.
  destruct (fold_left (apply_change (applied vm + 1)) cs (o, dirty vm)) as [o2 d2]. simpl in Hspec.
  destruct Hspec as (Hok2&Hi2&_); [eapply overlay_ok_weaken; [exact Hok|lia]|done|].
  assert (i < length (overlays vm))%nat by (by apply lookup_lt_Some in Ho).
  destruct (decide (i = j)) as [<-|Hne].
  - assert (u = v) as -> by congruence. assert (o' = o) as -> by congruence.
    split; simpl; [|done|done]. exists o2. split_and!; [by apply list_lookup_insert_eq|done|].
    intros p Hp. rewrite Hi2. revert p Hp. clear -Himg' Hcs. revert img' Himg'. generalize (over o bimg') as im.
    induction Hcs as [|c cs Hc Hcs IH]; intros im img' Himg' p Hp; simpl; [by apply Himg'|].
    apply IH; [|done]. intros q Hq. unfold set_bytes. destruct (_ && _); [done|]. by apply Himg'.
  - split; simpl; [|done|done]. exists o'. split_and!; [by rewrite list_lookup_insert_ne| |done].
    eapply overlay_ok_weaken; [done|lia].
Qed.

(** ** Checkpoints *)

Lemma elem_of_sorted_union a b p : p ∈ sorted_union a b <-> p ∈ a \/ p ∈ b.
Proof. unfold sorted_union. by rewrite merge_sort_Permutation, elem_of_remove_dups, elem_of_app. Qed.

Lemma zlen_zero {A} (l : list A) : zlen l = 0 -> l = [].
Proof. destruct l; [done|]. rewrite zlen_cons. pose proof (zlen_nonneg l). lia. Qed.

Lemma elem_of_mergePages a b p : p ∈ mergePages a b <-> p ∈ a \/ p ∈ b.
Proof.
  unfold mergePages. zcases; [apply zlen_zero in Heqb0 as ->; set_solver|apply zlen_zero in Heqb1 as ->; set_solver|].
  apply elem_of_sorted_union.
Qed.

Definition sealed_pages (src : option DirtySource) : list Z :=
  match src with Some src => DirtyPages src | None => [] end.

Lemma elem_of_changedPages o src pageSize p :
  p ∈ changedPages o src pageSize <-> p ∈ dirtyPages o pageSize \/ p ∈ sealed_pages src.
Proof.
  unfold changedPages. destruct src as [src|]; simpl; [|set_solver].
  destruct (zlen _ =? 0) eqn:E; zbool; [|apply elem_of_sorted_union].
  rewrite (zlen_zero _ E). set_solver.
Qed.

(** The pages a seal holds, as the bytes of an image. *)
Definition seal_ok (src : DirtySource) (pageSize : Z) (simg : Z -> byte) : Prop :=
  forall n, n ∈ DirtyPages src -> ReadDirty src n = Ok (simg <$> seqZ (n * pageSize) pageSize).

Definition under_seal (src : option DirtySource) (pageSize : Z) (simg bimg : Z -> byte) (p : Z) : byte :=
  if bool_decide (p / pageSize ∈ sealed_pages src) then simg p else bimg p.

Lemma page_bounds pageSize cursor :
  0 < pageSize -> cursor / pageSize * pageSize <= cursor < (cursor / pageSize + 1) * pageSize.
Proof. intros. pose proof (Z.div_mod cursor pageSize). pose proof (Z.mod_pos_bound cursor pageSize). nia. Qed.

Lemma page_of_range pageSize number p :
  0 < pageSize -> number * pageSize <= p < (number + 1) * pageSize -> p / pageSize = number.
Proof. intros. symmetry. apply (Z.div_unique_pos p pageSize number (p - number * pageSize)); lia. Qed.

Lemma slice_image (img : Z -> byte) off len i j :
  0 <= i <= j -> j <= len -> slice (img <$> seqZ off len) i j = img <$> seqZ (off + i) (j - i).
Proof.
  intros Hij Hj. apply list_eq_zget.
  - rewrite zlen_slice; rewrite ?zlen_image; lia.
  - intros k Hk. rewrite zlen_slice in Hk by (rewrite ?zlen_image; lia).
    rewrite zget_slice by (rewrite ?zlen_image; lia). rewrite !zget_image by lia. do 2 f_equal. lia.
Qed.

Lemma sealed_read_spec fuel (parent : inherited verror) src pageSize size simg bimg offset cursor upto dst :
  0 < pageSize -> gives parent size bimg -> seal_ok src pageSize simg ->
  0 <= offset -> offset <= cursor <= upto -> upto <= size -> zlen dst = upto - offset ->
  upto - cursor <= Z.of_nat fuel ->
  exists dst', sealed_read fuel parent src pageSize offset cursor upto dst = Ok dst' /\ zlen dst' = zlen dst /\
    forall i, zget dst' (i - offset) =
      if (cursor <=? i) && (i <? upto) then Some (under_seal (Some src) pageSize simg bimg i)
      else zget dst (i - offset).
Proof.
  intros Hps Hg Hseal Hoff. revert cursor dst. induction fuel as [|fuel IH]; intros cursor dst Hc Hup Hd Hf; simpl.
  { destruct (cursor <? upto) eqn:E; zbool; [lia|]. exists dst. split_and!; try done. intros i. zcases; [lia|done]. }
  destruct (cursor <? upto) eqn:E; zbool; simpl.
  2: { exists dst. split_and!; try done. intros i. zcases; [lia|done]. }
  pose proof (page_bounds pageSize cursor Hps) as Hb.
  set (number := cursor / pageSize) in *. set (stop := Z.min upto ((number + 1) * pageSize)).
  assert (exists target, (if negb (bool_decide (number ∈ DirtyPages src)) then parent cursor (stop - cursor)
      else let? page := ReadDirty src number in
           if stop - cursor =? pageSize then Ok page
           else Ok (slice page (cursor - number * pageSize) (stop - number * pageSize))) = Ok target /\
      target = under_seal (Some src) pageSize simg bimg <$> seqZ cursor (stop - cursor)) as (target&->&Ht).
  { assert (forall p, cursor <= p < cursor + (stop - cursor) -> p / pageSize = number) as Hpage
      by (intros p ?; apply page_of_range; lia).
    destruct (bool_decide (number ∈ DirtyPages src)) eqn:En; simpl.
    - apply bool_decide_eq_true in En. rewrite (Hseal _ En). eexists. split; [|done].
      assert (simg <$> seqZ cursor (stop - cursor) = under_seal (Some src) pageSize simg bimg <$> seqZ cursor (stop - cursor)) as <-.
      { apply image_ext. intros p Hp. unfold under_seal. rewrite (Hpage p Hp). by rewrite bool_decide_eq_true_2. }
      destruct (stop - cursor =? pageSize) eqn:Ez; zbool.
      + do 3 f_equal; lia.
      + rewrite slice_image by lia. do 3 f_equal; lia.
    - apply bool_decide_eq_false in En. rewrite Hg by lia. eexists. split; [done|].
      apply image_ext. intros p Hp. unfold under_seal. rewrite (Hpage p Hp). by rewrite bool_decide_eq_false_2. }
  assert (zlen target = stop - cursor) as Hz by (rewrite Ht; apply zlen_image; lia).
  destruct (IH stop (write_at dst (cursor - offset) target)) as (dst'&->&Hl&Hgt); try lia.
  { rewrite zlen_write_at; lia. }
  exists dst'. split_and!; [done|rewrite Hl, zlen_write_at; lia|].
  intros i. rewrite Hgt, zget_write_at by lia. rewrite Hz. zcases; try lia; try done.
  rewrite Ht, zget_image by lia. do 2 f_equal. lia.
Qed.

Lemma sealed_gives (base : source) sources pageSizes volume size simg bimg :
  gives (base volume) size bimg ->
  (forall src, sources !! volume = Some src -> 0 < pageSizes volume /\ seal_ok src (pageSizes volume) simg) ->
  gives (newSealedSource base sources pageSizes volume) size
    (under_seal (sources !! volume) (pageSizes volume) simg bimg).
Proof.
  intros Hg Hs. unfold newSealedSource. destruct (sources !! volume) as [src|] eqn:E.
  - destruct (Hs src eq_refl) as [Hps Hseal]. intros off len ???.
    assert (zlen (zeros len) = len) as Hz by (apply zlen_zeros; lia).
    destruct (sealed_read_spec (Z.to_nat len) (base volume) src (pageSizes volume) size simg bimg
      off off (off + len) (zeros len)) as (dst'&->&Hl&Hgt); try done; try lia.
    f_equal. apply list_eq_zget; [rewrite zlen_image; lia|]. intros i Hi.
    specialize (Hgt (off + i)). replace (off + i - off) with i in Hgt by lia. rewrite Hgt, zget_image by lia.
    zcases; [done|lia].
  - intros off len ???. by rewrite Hg.
Qed.

Record vm_wf (vm : VM) : Prop := {
  wf_viewed : viewed vm;
  wf_names : NoDup (name <$> volumes vm);
  wf_overlays : length (overlays vm) = length (volumes vm);
  wf_applied : 0 <= applied vm;
  wf_pages i v : volumes vm !! i = Some v -> 0 < PageSize (geometry v);
}.

Lemma byName_lookup (vm : VM) i v : NoDup (name <$> volumes vm) -> volumes vm !! i = Some v -> byName vm (name v) = Some v.
Proof.
  intros Hn Hi. unfold byName.
  destruct (list_find (fun u => name u = name v) (volumes vm)) as [[j u]|] eqn:E; simpl.
  - apply list_find_Some in E as (Hj&Hu&_). f_equal.
    assert (j = i) as ->; [|congruence].
    eapply (NoDup_lookup (name <$> volumes vm)); [done|..]; rewrite list_lookup_fmap; [by rewrite Hj|].
    rewrite Hi. simpl. by rewrite Hu.
  - apply list_find_None in E. eapply Forall_lookup_1 in E; [|exact Hi]. done.
Qed.

Lemma pageSizeOf_lookup vm i v : vm_wf vm -> volumes vm !! i = Some v -> pageSizeOf vm (name v) = PageSize (geometry v).
Proof. intros Hw Hi. unfold pageSizeOf. rewrite (byName_lookup vm i v); [done|apply Hw|done]. Qed.

Lemma captured_overlay (vs : list Volume) (os : list extentIndex) i v o :
  NoDup (name <$> vs) -> vs !! i = Some v -> os !! i = Some o ->
  (list_to_map (zip (name <$> vs) os) : gmap string extentIndex) !! name v = Some o.
Proof.
  intros Hn Hi Ho. apply elem_of_list_to_map_1'.
  - intros y Hy. apply list_elem_of_lookup in Hy as [j Hj]. apply lookup_zip_Some in Hj as [Hj1 Hj2].
    assert (j = i) as ->; [|congruence].
    eapply (NoDup_lookup (name <$> vs)); [done|exact Hj1|]. by rewrite list_lookup_fmap, Hi.
  - apply list_elem_of_lookup. exists i. apply lookup_zip_Some. by rewrite list_lookup_fmap, Hi.
Qed.

(** A checkpoint in flight, against volume [i] of the handle that captured it
    and has gone on taking writes: the checkpoint reads as [cimg], the index it
    publishes over has those bytes in every page it does not republish, and
    every byte of the handle's overlay is the captured one or newer. *)
Record in_flight (vm : VM) (c : Checkpoint) (i : nat) (v : Volume) (cimg : Z -> byte) : Prop := {
  flight_position : 0 <= position c <= applied vm;
  flight_reads : gives (checkpoint_read c (name v)) (size v) cimg;
  flight_parent : exists pimg, gives (index_read (parentIndex c) (name v)) (size v) pimg /\
    forall p, 0 <= p < size v -> p / PageSize (geometry v) ∉ publishedPages vm c (name v) -> pimg p = cimg p;
  flight_overlay : exists o oc, overlays vm !! i = Some o /\ c_overlays c !! name v = Some oc /\
    overlay_ok (position c) (size v) oc /\
    (forall p b g, lookup oc p = Some (b, g) -> cimg p = b) /\
    (forall p, lookup o p = lookup oc p \/ exists b g, lookup o p = Some (b, g) /\ position c < g);
}.

(** What the handle reads once the checkpoint is installed: the writes since the
    capture over the checkpoint. *)
Definition installed (vm : VM) (c : Checkpoint) (i : nat) (cimg img : Z -> byte) (p : Z) : byte :=
  match overlays vm !! i with
  | Some o => match lookup o p with Some (b, g) => if g >? position c then b else cimg p | None => cimg p end
  | None => img p
  end.

Lemma attempts_commit vm c sel rs index :
  attempts vm c sel rs = Ok index ->
  Commit (parentIndex c) (pageSizeOf vm) (publishedPages vm c) (checkpoint_read c) = Ok index.
Proof.
  revert sel. induction rs as [|r rs IH]; simpl; intros sel; unfold publish;
    destruct (Commit _ _ _ _) as [idx|e] eqn:E; try done.
  - destruct sel; [done|]. by intros [= ->].
  - destruct sel as [e|]; [|by intros [= ->]]. destruct (bool_decide _); [done|].
    intros Ha. apply IH in Ha. congruence.
  - destruct (bool_decide _); [done|]. intros Ha. apply IH in Ha. congruence.
Qed.

Lemma install_stands vm c i v bimg img cimg index :
  vm_wf vm -> volumes vm !! i = Some v -> stands vm i v bimg img -> in_flight vm c i v cimg ->
  Commit (parentIndex c) (pageSizeOf vm) (publishedPages vm c) (checkpoint_read c) = Ok index ->
  let vm' := (install vm c index).1 in
  stands vm' i v cimg (installed vm c i cimg img) /\ gives (index_read index (name v)) (size v) cimg.
Proof.
  intros Hwf Hi [(o&Ho&Hok&Himg) Hb [Hs Ha]] [Hpos Hreads (pimg&Hp&Hagree) (o'&oc&Ho'&Hoc&Hokc&_&Hrel)] Hcommit.
  assert (o' = o) as -> by congruence.
  assert (gives (index_read index (name v)) (size v) cimg) as Hbase.
  { pose proof (commit_pages _ _ _ _ _ (name v) (size v) pimg cimg Hcommit) as Hc.
    rewrite (pageSizeOf_lookup vm i v) in Hc by done.
    specialize (Hc (wf_pages vm Hwf i v Hi) Hp Hreads). intros off len ???.
    rewrite Hc by done. f_equal. apply image_ext. intros p ?.
    destruct (bool_decide _) eqn:E; [done|]. apply bool_decide_eq_false in E. apply Hagree; [lia|done]. }
  split; [|done]. simpl. destruct (retain_spec (size v) o (position c) (overlay_wf _ _ _ Hok) Ha) as [Hw Hl].
  split; simpl; [|done|done]. exists (retain o (position c)). split_and!.
  - unfold retain_all. by rewrite list_lookup_fmap, Ho.
  - split; [done|]. unfold retain. rewrite (all_elements (size v) o) by (apply Hok || done).
    destruct (retain_fold (position c) (elements o) Nil I) as [_ He]. rewrite He. simpl.
    apply Forall_forall. intros x [_ Hx]%list_elem_of_filter.
    pose proof (overlay_gens _ _ _ Hok) as Hg. by eapply Forall_forall in Hg.
  - intros p Hp'. unfold installed, over. rewrite Ho, Hl. destruct (lookup o p) as [[b g]|]; [|done].
    by destruct (g >? position c).
Qed.

(** With no sealed pages an installation changes no byte. *)
Lemma installed_same vm c i v bimg img cimg :
  stands vm i v bimg img -> in_flight vm c i v cimg ->
  (forall p oc, c_overlays c !! name v = Some oc -> 0 <= p < size v -> cimg p = over oc bimg p) ->
  forall p, 0 <= p < size v -> installed vm c i cimg img p = img p.
Proof.
  intros [(o&Ho&Hok&Himg) _ _] [_ _ _ (o'&oc&Ho'&Hoc&Hokc&_&Hrel)] Hc p Hp.
  assert (o' = o) as -> by congruence. unfold installed. rewrite Ho, (Himg p Hp), (Hc p oc Hoc Hp).
  unfold over. destruct (Hrel p) as [->|(b&g&->&Hg)].
  - destruct (lookup oc p) as [[b g]|]; [|done]. by destruct (g >? position c).
  - destruct (g >? position c) eqn:E; zbool; [done|lia].
Qed.

(** The index a capture publishes over, and the pages that index does not have
    as the handle reads them. *)
Definition parent_of (vm : VM) (index : Index) : Index * (string -> list Z) :=
  match root vm, publishedPoint vm with
  | true, Some published => (published, fun _ => [])
  | _, _ => (index, inheritedPages vm)
  end.

Definition backed (vm : VM) (v : Volume) (bimg : Z -> byte) : Prop :=
  forall index, baseIndex vm = Some index ->
  exists pimg, gives (index_read (parent_of vm index).1 (name v)) (size v) pimg /\
    forall p, 0 <= p < size v -> p / PageSize (geometry v) ∉ (parent_of vm index).2 (name v) -> pimg p = bimg p.

Definition no_seals : gmap string DirtySource := ∅.

Lemma capture_inv vm srcs force vm' c :
  captureLocked vm srcs force = (vm', Ok (Some c)) ->
  exists index, baseIndex vm = Some index /\ readyLocked vm = None /\
    ValidSequence (epoch vm) (next vm) = true /\
    c = mkCheckpoint (mkRef (id vm) (next vm)) (newSealedSource (base vm) srcs (pageSizeOf vm)) (parent_of vm index).1
          (list_to_map (zip (name <$> volumes vm) (overlays vm))) srcs (parent_of vm index).2 (applied vm) /\
    vm' = publishLocked (mkVM (id vm) (epoch vm) (volumes vm) (current vm) (base vm) (baseIndex vm) (owned vm) (overlays vm)
             (head vm) (wrap64 (next vm + 1)) (applied vm) (mkRef (id vm) (next vm)) (applied vm) (dirty vm) (closed vm)
             (poisoned vm) (handedOff vm) (published vm) (sealed vm) (root vm) (inheritedPages vm) (publishedPoint vm)).
Proof.
  unfold captureLocked. destruct (readyLocked vm); [done|]. destruct (baseIndex vm) as [index|]; [|done].
  destruct (check_sources _ _); [done|]. destruct (negb force && _); [done|].
  destruct (ValidSequence (epoch vm) (next vm)) eqn:Ev; [simpl|done]. unfold parent_of.
  intros Hc. exists index. destruct (root vm), (publishedPoint vm); injection Hc as <- <-; done.
Qed.

(** A capture leaves every byte as it was, and its checkpoint reads as the
    handle did, over the pages the pagers had sealed. *)
Lemma capture_in_flight vm srcs force vm' c i v bimg img simg :
  captureLocked vm srcs force = (vm', Ok (Some c)) -> vm_wf vm ->
  volumes vm !! i = Some v -> stands vm i v bimg img -> backed vm v bimg ->
  (forall src, srcs !! name v = Some src -> seal_ok src (PageSize (geometry v)) simg) ->
  exists o, overlays vm !! i = Some o /\
    in_flight vm' c i v (over o (under_seal (srcs !! name v) (PageSize (geometry v)) simg bimg)).
Proof.
  intros Hc Hwf Hi [(o&Ho&Hok&Himg) Hb [Hs Ha]] Hbk Hseal.
  destruct (capture_inv _ _ _ _ _ Hc) as (index&Hidx&_&_&->&->). exists o. split; [done|].
  assert (pageSizeOf vm (name v) = PageSize (geometry v)) as Hps by (by eapply pageSizeOf_lookup).
  assert ((list_to_map (zip (name <$> volumes vm) (overlays vm)) : gmap string extentIndex) !! name v = Some o) as Hoc
    by (eapply captured_overlay; [apply Hwf|done|done]).
  set (sb := under_seal _ _ _ _).
  assert (gives (newSealedSource (base vm) srcs (pageSizeOf vm) (name v)) (size v) sb) as Hsb.
  { subst sb. rewrite <- Hps. apply sealed_gives; [done|]. intros src Hsrc. rewrite Hps.
    split; [by eapply wf_pages|by apply Hseal]. }
  split; simpl.
  - pose proof (wf_applied vm Hwf). lia.
  - intros off len ???. unfold checkpoint_read. simpl. rewrite Hoc. simpl.
    assert (zlen (zeros len) = len) as Hz by (apply zlen_zeros; lia).
    rewrite (read_over _ (size v) o sb); rewrite ?Hz; try done. apply Hok.
  - destruct (Hbk index Hidx) as (pimg&Hp&Hag). exists pimg. split; [done|]. intros p Hpr Hnot.
    unfold publishedPages in Hnot. simpl in Hnot. rewrite Hoc in Hnot. simpl in Hnot.
    rewrite elem_of_mergePages, elem_of_changedPages in Hnot.
    replace (pageSizeOf _ (name v)) with (PageSize (geometry v)) in Hnot by (symmetry; exact Hps).
    rewrite (Hag p Hpr) by tauto.
    assert (lookup o p = None) as Hnone.
    { apply eq_None_not_Some. intros Hsome. apply Hnot. left. left.
      apply (dirtyPages_spec (size v) o); [apply Hok|done|by eapply wf_pages|]. by exists p. }
    unfold over. rewrite Hnone. subst sb. unfold under_seal. rewrite bool_decide_eq_false_2 by tauto. done.
  - exists o, o. split_and!; try done; [|by left]. intros p b g Hl. unfold over. by rewrite Hl.
Qed.

Lemma capture_stands vm srcs force vm' c i v bimg img :
  captureLocked vm srcs force = (vm', Ok (Some c)) -> stands vm i v bimg img ->
  stands vm' i v bimg img /\ (backed vm v bimg -> backed vm' v bimg) /\ (vm_wf vm -> vm_wf vm').
Proof.
  intros Hc [Ho Hb Hs]. destruct (capture_inv _ _ _ _ _ Hc) as (index&_&_&_&_&->).
  split_and!; [by split|done|]. intros [??? ??]. by split.
Qed.

(** Writes after a capture stay above it. *)
Lemma apply_in_flight vm i v bimg img cs c j u cimg :
  0 <= applied vm < 2 ^ 64 - 1 ->
  volumes vm !! i = Some v -> stands vm i v bimg img -> Forall (change_ok (size v)) cs ->
  volumes vm !! j = Some u -> in_flight vm c j u cimg -> in_flight (publishLocked (applyLocked vm i cs)) c j u cimg.
Proof.
  intros Ha Hi [(o&Ho&Hok&Himg) Hb Hs] Hcs Hj [Hpos Hr Hp (o'&oc&Ho'&Hoc&Hokc&Hci&Hrel)].
  assert (wrap64 (applied vm + 1) = applied vm + 1) as Hg by (apply wrap64_small; unfold u64; lia).
  unfold applyLocked. rewrite Ho, Hg. simpl.
  pose proof (apply_changes_ok (applied vm + 1) (size v) o (dirty vm) cs) as Hspec.
  destruct (fold_left (apply_change (applied vm + 1)) cs (o, dirty vm)) as [o2 d2]. simpl in Hspec.
  destruct Hspec as (Hok2&_&Hl2); [eapply overlay_ok_weaken; [exact Hok|lia]|done|].
  assert (i < length (overlays vm))%nat by (by apply lookup_lt_Some in Ho).
  split; simpl; [lia|done|done|].
  destruct (decide (i = j)) as [<-|Hne].
  - assert (o' = o) as -> by congruence. exists o2, oc. split_and!; try done; [by apply list_lookup_insert_eq|].
    intros p. destruct (Hl2 p) as [->|[b ->]]; [done|]. right. exists b, (applied vm + 1). split; [done|lia].
  - exists o', oc. split_and!; try done. by rewrite list_lookup_insert_ne.
Qed.

Lemma applyLocked_wf vm i cs : vm_wf vm -> applied vm < 2 ^ 64 - 1 -> vm_wf (publishLocked (applyLocked vm i cs)).
Proof.
  intros [Hv Hn Ho Ha Hp] Hlt.
  assert (wrap64 (applied vm + 1) = applied vm + 1) as Hg by (apply wrap64_small; unfold u64; lia).
  unfold applyLocked. rewrite Hg. destruct (fold_left _ _ _) as [o d].
  split; simpl; try done; [|lia]. by rewrite length_insert.
Qed.

Lemma applyLocked_fields (vm : VM) i cs :
  let vm' := publishLocked (applyLocked vm i cs) in
  volumes vm' = volumes vm /\ base vm' = base vm /\ baseIndex vm' = baseIndex vm /\ root vm' = root vm /\
  inheritedPages vm' = inheritedPages vm /\ publishedPoint vm' = publishedPoint vm /\
  applied vm' = wrap64 (applied vm + 1) /\ readyLocked vm' = readyLocked vm.
Proof. unfold applyLocked. simpl. by destruct (fold_left _ _ _). Qed.

(** ** A handle at work *)

(** The handle and the publication its lock admits. *)
Record system := mkSystem { handle : VM; pending : option Checkpoint }.

Inductive op :=
| OWrite (i : nat) (extents : list WriteExtent)
| ODiscard (i : nat) (offset length : Z)
| OCapture (force : bool)
| OComplete (selection : option verror) (retries : list (option verror))
| OHandoff.

(** A capture and a hand-off wait while a publication is in flight. *)
Definition exec (maxWrite : Z) (s : system) (o : op) : system * option verror :=
  let vm := handle s in
  match o with
  | OWrite i extents =>
    match volumes vm !! i with
    | None => (s, Some ErrUnknownVolume)
    | Some v => let '(vm, e) := WriteBatch maxWrite None vm i v extents in (mkSystem vm (pending s), e)
    end
  | ODiscard i offset length =>
    match volumes vm !! i with
    | None => (s, Some ErrUnknownVolume)
    | Some v => let '(vm, e) := Discard None vm i v offset length in (mkSystem vm (pending s), e)
    end
  | OCapture force =>
    match pending s with
    | Some _ => (s, None)
    | None =>
      let '(vm, r) := captureLocked vm no_seals force in
      match r with
      | Ok c => (mkSystem vm c, None)
      | Err e => (mkSystem vm None, Some e)
      end
    end
  | OComplete selection retries =>
    match pending s with
    | None => (s, None)
    | Some c => let '(vm, e) := complete vm c selection retries in (mkSystem vm None, e)
    end
  | OHandoff =>
    match pending s with
    | Some _ => (s, None)
    | None => let '(vm, e) := Handoff vm in (mkSystem vm None, e)
    end
  end.

(** What an accepted operation does to the bytes of the volumes. *)
Definition effect (o : op) (imgs : nat -> Z -> byte) : nat -> Z -> byte :=
  match o with
  | OWrite i extents => fun j => if decide (j = i) then fold_left set_extent extents (imgs j) else imgs j
  | ODiscard i offset length =>
    fun j => if decide (j = i) then set_bytes (imgs j) (mkChange offset length None) else imgs j
  | _ => imgs
  end.

Fixpoint exec_all (maxWrite : Z) (s : system) (imgs : nat -> Z -> byte) (ops : list op) : system * (nat -> Z -> byte) :=
  match ops with
  | [] => (s, imgs)
  | o :: ops =>
    let '(s, e) := exec maxWrite s o in
    exec_all maxWrite s (match e with None => effect o imgs | Some _ => imgs end) ops
  end.

(** Offsets and lengths are unsigned. *)
Definition op_ok (o : op) : Prop :=
  match o with
  | OWrite _ extents => Forall (fun e => 0 <= Offset e) extents
  | ODiscard _ offset length => 0 <= offset /\ 0 <= length
  | _ => True
  end.

Record system_ok (s : system) (imgs : nat -> Z -> byte) (budget : Z) : Prop := {
  ok_wf : vm_wf (handle s);
  ok_budget : applied (handle s) + budget < 2 ^ 64 - 1;
  ok_inherited : root (handle s) = false -> forall n, inheritedPages (handle s) n = [];
  ok_volumes i v : volumes (handle s) !! i = Some v -> ephemeral v = false ->
    exists bimg, stands (handle s) i v bimg (imgs i) /\ backed (handle s) v bimg /\
      forall c, pending s = Some c -> exists oc, c_overlays c !! name v = Some oc /\
        in_flight (handle s) c i v (over oc bimg);
}.

Lemma system_ok_weaken s imgs b b' : system_ok s imgs b -> b' <= b -> system_ok s imgs b'.
Proof. intros [Hw Hb Hi Hv] Hle. split; try done. lia. Qed.

Lemma stands_ext vm i v bimg img img' :
  stands vm i v bimg img -> (forall p, 0 <= p < size v -> img' p = img p) -> stands vm i v bimg img'.
Proof.
  intros [(o&?&?&Hi) ??] He. split; try done. exists o. split_and!; try done. intros p Hp. by rewrite He, Hi.
Qed.

Lemma publish_ok s imgs b : system_ok s imgs b -> system_ok (mkSystem (publishLocked (handle s)) (pending s)) imgs b.
Proof.
  intros [[Wv Wn Wo Wa Wp] Hb Hinh Hvol]. split; [by split|done|done|]. intros i v Hi Hne.
  destruct (Hvol i v Hi Hne) as (bimg&[Hso Hsb Hss]&Hbk&Hfl). exists bimg. split_and!; [by split|done|].
  intros c Hc. destruct (Hfl c Hc) as (oc&Hoc&[F1 F2 F3 F4]). exists oc. split; [done|by split].
Qed.

(** An accepted write. *)
Lemma apply_ok s imgs b i v cs :
  system_ok s imgs b -> 0 < b -> volumes (handle s) !! i = Some v -> ephemeral v = false ->
  Forall (change_ok (size v)) cs -> readyLocked (handle s) = None ->
  system_ok (mkSystem (publishLocked (applyLocked (handle s) i cs)) (pending s))
    (fun j => if decide (i = j) then fold_left set_bytes cs (imgs j) else imgs j) (b - 1).
Proof.
  intros [Hw Hb Hinh Hvol] Hpos Hi Hne Hcs Hready. pose proof (wf_applied _ Hw).
  pose proof (applyLocked_fields (handle s) i cs) as (Ev&Eb&Ebi&Er&Einh&Epp&Eap&_).
  assert (wrap64 (applied (handle s) + 1) = applied (handle s) + 1) as Hg by (apply wrap64_small; unfold u64; lia).
  split; simpl handle; simpl pending.
  - apply applyLocked_wf; [done|lia].
  - rewrite Eap, Hg. lia.
  - by rewrite Er, Einh.
  - rewrite Ev. intros j u Hj Hu. destruct (Hvol i v Hi Hne) as (bi&Hsi&_&_).
    destruct (Hvol j u Hj Hu) as (bj&Hsj&Hbj&Hpj). exists bj. split_and!.
    + eapply applyLocked_stands; eauto. lia.
    + unfold backed, parent_of in *. by rewrite Ebi, Er, Epp, Einh.
    + intros c Hc. destruct (Hpj c Hc) as (oc&Hoc&Hf). exists oc. split; [done|].
      eapply apply_in_flight; eauto. lia.
Qed.

Lemma capture_none (vm : VM) srcs force vm' : captureLocked vm srcs force = (vm', Ok None) -> vm' = vm.
Proof.
  unfold captureLocked. destruct (readyLocked vm); [by intros [= <-]|]. destruct (baseIndex vm); [|by intros [= <-]].
  destruct (check_sources _ _); [done|]. destruct (negb force && _); [by intros [= <-]|].
  destruct (negb (ValidSequence _ _)); [done|]. by destruct (root vm), (publishedPoint vm).
Qed.

Lemma capture_err (vm : VM) srcs force vm' e : captureLocked vm srcs force = (vm', Err e) -> vm' = vm.
Proof.
  unfold captureLocked. destruct (readyLocked vm); [by intros [= <-]|]. destruct (baseIndex vm); [|by intros [= <-]].
  destruct (check_sources _ _); [by intros [= <-]|]. destruct (negb force && _); [done|].
  destruct (negb (ValidSequence _ _)); [by intros [= <-]|]. by destruct (root vm), (publishedPoint vm).
Qed.

Lemma capture_ok s imgs b force vm' c :
  system_ok s imgs b -> pending s = None -> captureLocked (handle s) no_seals force = (vm', Ok (Some c)) ->
  system_ok (mkSystem vm' (Some c)) imgs b.
Proof.
  intros [Hw Hb Hinh Hvol] Hp Hc. pose proof (capture_inv _ _ _ _ _ Hc) as (index&_&_&_&Ec&Evm).
  assert (volumes vm' = volumes (handle s) /\ root vm' = root (handle s) /\ applied vm' = applied (handle s) /\
    inheritedPages vm' = inheritedPages (handle s)) as (Ev&Er&Eap&Einh) by (by rewrite Evm).
  split; simpl handle; simpl pending.
  - rewrite Evm. destruct Hw as [? ? ? ? ?]. by split.
  - by rewrite Eap.
  - by rewrite Er, Einh.
  - rewrite Ev. intros i v Hi Hne. destruct (Hvol i v Hi Hne) as (bimg&Hs&Hbk&_).
    destruct (capture_stands _ _ _ _ _ _ _ _ _ Hc Hs) as (Hs'&Hbk'&_). exists bimg.
    split_and!; [done|by apply Hbk'|]. intros c' [= <-].
    destruct (capture_in_flight _ _ _ _ _ i v bimg (imgs i) (fun _ => Byte.x00) Hc Hw Hi Hs Hbk) as (o&Ho&Hf).
    { intros src. unfold no_seals. by rewrite lookup_empty. }
    exists o. split; [|exact Hf]. rewrite Ec. simpl. eapply captured_overlay; [apply Hw|done|done].
Qed.

(** Handles that differ only in what reads, writes and captures do not use. *)
Record same_bytes (vm vm' : VM) : Prop := {
  same_viewed : viewed vm';
  same_volumes : volumes vm' = volumes vm;
  same_base : base vm' = base vm;
  same_index : baseIndex vm' = baseIndex vm;
  same_overlays : overlays vm' = overlays vm;
  same_applied : applied vm' = applied vm;
  same_root : root vm' = root vm;
  same_inherited : inheritedPages vm' = inheritedPages vm;
  same_point : publishedPoint vm' = publishedPoint vm;
}.

Lemma same_bytes_ok s imgs b vm' :
  system_ok s imgs b -> same_bytes (handle s) vm' -> system_ok (mkSystem vm' None) imgs b.
Proof.
  intros [[Wv Wn Wo Wa Wp] Hb Hinh Hvol] [Sv Svol Sb Si So Sa Sr Sin Sp]. split; simpl handle; simpl pending.
  - split; rewrite ?Svol, ?So, ?Sa; done.
  - by rewrite Sa.
  - by rewrite Sr, Sin.
  - rewrite Svol. intros i v Hi Hne. destruct (Hvol i v Hi Hne) as (bimg&[Hso Hsb Hss]&Hbk&_).
    exists bimg. split_and!; [|unfold backed, parent_of in *; by rewrite Si, Sr, Sp, Sin|done].
    split; rewrite ?So, ?Sa, ?Sb; done.
Qed.

Lemma complete_ok s imgs b c sel rs vm' e :
  system_ok s imgs b -> pending s = Some c -> complete (handle s) c sel rs = (vm', e) ->
  system_ok (mkSystem vm' None) imgs b.
Proof.
  intros Hok Hp Hc. unfold complete in Hc. destruct (attempts _ _ _ _) as [index|err] eqn:Ea.
  2: { destruct (bool_decide _); injection Hc as <- <-; eapply same_bytes_ok; try done; by split. }
  apply attempts_commit in Ea. injection Hc as <- <-. destruct Hok as [Hw Hb Hinh Hvol].
  assert (root (record (install (handle s) c index).1 None) = false) as Hroot by done.
  assert (forall n, inheritedPages (record (install (handle s) c index).1 None) n = []) as Hnone.
  { simpl. destruct (root (handle s)) eqn:Er; [done|]. by apply Hinh. }
  split; simpl handle; simpl pending.
  - destruct Hw as [Wv Wn Wo Wa Wp]. split; simpl; try done. unfold retain_all. by rewrite length_fmap.
  - done.
  - done.
  - intros i v Hi Hne. change (volumes (record (install (handle s) c index).1 None)) with (volumes (handle s)) in Hi.
    destruct (Hvol i v Hi Hne) as (bimg&Hs&Hbk&Hfl). destruct (Hfl c Hp) as (oc&Hoc&Hf).
    destruct (install_stands _ c i v bimg (imgs i) _ index Hw Hi Hs Hf Ea) as [[Hso Hsb Hss] Hg].
    exists (over oc bimg). split_and!; [|intros idx|done].
    + eapply stands_ext; [by split; [exact Hso|exact Hsb|exact Hss]|]. intros p Hpr. symmetry.
      eapply installed_same; try done. intros q oc' Hoc' Hq. by rewrite Hoc in Hoc'; injection Hoc' as <-.
    + intros [= <-]. exists (over oc bimg). unfold parent_of. simpl. by split.
Qed.

Lemma Handoff_same vm vm' e : vm_wf vm -> Handoff vm = (vm', e) -> same_bytes vm vm'.
Proof.
  unfold Handoff. intros [Hv _ _ _ _] Hh. destruct (readyLocked vm); [injection Hh as <- <-; by split|].
  destruct (root vm) eqn:Er; injection Hh as <- <-; split; done.
Qed.

Lemma exec_ok maxWrite s imgs b o s' e :
  system_ok s imgs b -> 0 < b -> op_ok o -> exec maxWrite s o = (s', e) ->
  system_ok s' (match e with None => effect o imgs | Some _ => imgs end) (b - 1).
Proof.
  intros Hok Hpos Hop He.
  assert (system_ok s imgs (b - 1)) as Hok' by (eapply system_ok_weaken; [exact Hok|lia]).
  destruct o as [i extents|i offset length|force|sel rs|]; simpl in He.
  - destruct (volumes (handle s) !! i) as [v|] eqn:Hi; [|by injection He as <- <-].
    unfold WriteBatch in He. destruct (ephemeral v) eqn:Hne; [injection He as <- <-; by destruct s|].
    destruct (batch (size v) extents) as [[cs total]|err] eqn:Eb; [|injection He as <- <-; by destruct s].
    destruct (batch_spec _ _ _ _ Hop Eb) as (Hcs&Himg&_).
    destruct (_ >? _); [injection He as <- <-; by destruct s|].
    destruct (zlen cs =? 0) eqn:Ez.
    { injection He as <- <-. zbool. apply zlen_zero in Ez as ->. destruct Hok' as [? ? ? Hvol]. split; try done.
      intros j u Hj Hu. destruct (Hvol j u Hj Hu) as (bimg&Hs&Hrest). exists bimg. split; [|done].
      eapply stands_ext; [exact Hs|]. intros p Hp. simpl. destruct (decide (j = i)); [|done]. by rewrite <- Himg. }
    unfold apply in He. destruct (readyLocked (handle s)) as [err|] eqn:Er.
    { injection He as <- <-. by apply publish_ok. }
    injection He as <- <-. pose proof (apply_ok s imgs b i v cs Hok Hpos Hi Hne Hcs Er) as [? ? ? Hvol]. split; try done.
    intros j u Hj Hu. destruct (Hvol j u Hj Hu) as (bimg&Hs&Hrest). exists bimg. split; [|done].
    eapply stands_ext; [exact Hs|]. intros p Hp. simpl.
    destruct (decide (j = i)) as [->|]; [|by rewrite decide_False by congruence]. rewrite decide_True by done. by rewrite Himg.
  - destruct (volumes (handle s) !! i) as [v|] eqn:Hi; [|by injection He as <- <-].
    unfold Discard in He. destruct (validRange _ _ _) eqn:Ev; [simpl in He|injection He as <- <-; by destruct s].
    destruct Hop as [Ho Hl]. unfold validRange in Ev. zbool.
    destruct (length =? 0) eqn:Ez.
    { injection He as <- <-. zbool. subst length. destruct Hok' as [? ? ? Hvol]. split; try done.
      intros j u Hj Hu. destruct (Hvol j u Hj Hu) as (bimg&Hs&Hrest). exists bimg. split; [|done].
      eapply stands_ext; [exact Hs|]. intros p Hp. simpl. destruct (decide (j = i)); [|done].
      unfold set_bytes. simpl. zcases; [lia|done]. }
    destruct (ephemeral v) eqn:Hne; [injection He as <- <-; by destruct s|]. zbool.
    unfold apply in He. destruct (readyLocked (handle s)) as [err|] eqn:Er.
    { injection He as <- <-. by apply publish_ok. }
    injection He as <- <-.
    pose proof (apply_ok s imgs b i v [mkChange offset length None] Hok Hpos Hi Hne) as [? ? ? Hvol]; [|done|].
    { constructor; [|done]. split_and!; simpl; try done; lia. }
    split; try done. intros j u Hj Hu. destruct (Hvol j u Hj Hu) as (bimg&Hs&Hrest). exists bimg. split; [|done].
    eapply stands_ext; [exact Hs|]. intros p Hp. simpl.
    destruct (decide (j = i)) as [->|]; [by rewrite decide_True|by rewrite decide_False by congruence].
  - destruct (pending s) as [c|] eqn:Hp; [by injection He as <- <-|].
    destruct (captureLocked (handle s) no_seals force) as [vm' r] eqn:Ec.
    destruct r as [[c|]|err].
    + injection He as <- <-. simpl. by eapply capture_ok.
    + injection He as <- <-. simpl. assert (vm' = handle s) as -> by (by eapply capture_none).
      destruct s; simpl in *; by subst.
    + injection He as <- <-. assert (vm' = handle s) as -> by (by eapply capture_err).
      destruct s; simpl in *; by subst.
  - destruct (pending s) as [c|] eqn:Hp; [|injection He as <- <-; done].
    destruct (complete (handle s) c sel rs) as [vm' err] eqn:Ec. injection He as <- <-.
    assert (system_ok (mkSystem vm' None) imgs (b - 1)) by (by eapply complete_ok). by destruct err.
  - destruct (pending s) as [c|] eqn:Hp; [by injection He as <- <-|].
    destruct (Handoff (handle s)) as [vm' err] eqn:Eh. injection He as <- <-.
    assert (system_ok (mkSystem vm' None) imgs (b - 1)) by (eapply same_bytes_ok; [done|by eapply Handoff_same; [apply Hok|]]).
    by destruct err.
Qed.

Lemma exec_volumes maxWrite s o s' e :
  exec maxWrite s o = (s', e) -> volumes (handle s') = volumes (handle s).
Proof.
  destruct o as [i extents|i offset length|force|sel rs|]; simpl; intros He.
  - destruct (volumes (handle s) !! i) as [v|]; [|by injection He as <- <-].
    unfold WriteBatch, apply in He. repeat case_match; simplify_eq; try done;
      apply (applyLocked_fields (handle s)).
  - destruct (volumes (handle s) !! i) as [v|]; [|by injection He as <- <-].
    unfold Discard, apply in He. repeat case_match; simplify_eq; try done.
  - destruct (pending s); [by injection He as <- <-|].
    destruct (captureLocked (handle s) no_seals force) as [vm' [[c|]|]] eqn:Ec; injection He as <- <-; simpl.
    + by destruct (capture_inv _ _ _ _ _ Ec) as (?&_&_&_&_&->).
    + by rewrite (capture_none _ _ _ _ Ec).
    + by rewrite (capture_err _ _ _ _ _ Ec).
  - destruct (pending s) as [c|]; [|by injection He as <- <-]. unfold complete in He.
    destruct (attempts _ _ _ _); [by injection He as <- <-|].
    destruct (bool_decide _); by injection He as <- <-.
  - destruct (pending s); [by injection He as <- <-|]. unfold Handoff in He.
    repeat case_match; simplify_eq; done.
Qed.

End Handle.

End VolumeVM.
