(* ===== verification/OverlayPages.v ===== *)
(** * Masked reads

    [readOverlayPages] of [volume/overlay.go] and [clearPages] and [LoadPages]
    of [volume/operations.go]: a pager's window read, which wants some of the
    pages of a range and must leave the bytes of the others alone. *)

From S2P Require Import Prelude Interval Overlay ControlRecord VolumeVM.

Module OverlayPages.
Import Overlay VolumeVM.

(** A mask has one element per page the range touches; [None] wants every
    page. *)
Definition wants (wanted : option (list bool)) (at_ : Z) : bool :=
  match wanted with None => true | Some w => default false (zget w at_) end.

(** The pages of a range an extent touches, with the bytes of each it holds. *)
Definition pages (item : extent) (size offset upto : Z) : list (Z * Z * Z) :=
  let from := Z.max (start item) offset in
  let to := Z.min (stop item) upto in
  (fun page => (page, Z.max from (page * size), Z.min to ((page + 1) * size)))
    <$> seqZ (from / size) ((to - 1) / size - from / size + 1).

Definition add_held (first : Z) (held : list Z) (piece : Z * Z * Z) : list Z :=
  let '(page, lo, hi) := piece in alter (fun h => h + (hi - lo)) (Z.to_nat (page - first)) held.

(** The mask a masked read asks its source for: the wanted pages the overlay
    does not hold whole. *)
Definition inherited_mask (wanted : option (list bool)) (size offset upto : Z) (held : list Z) : list bool :=
  imap (fun at_ h =>
      let page := offset / size + Z.of_nat at_ in
      let span := Z.min upto ((page + 1) * size) - Z.max offset (page * size) in
      wants wanted (Z.of_nat at_) && (h <? span)) held.

Section Pages.
Context {E : Type}.

(** An inherited source asked for the pages a mask marks. *)
Definition inheritedPages : Type := Z -> list byte -> list bool -> result E (list byte).

Definition lay (item : extent) (first offset : Z) (wanted : option (list bool)) (dst : list byte) (piece : Z * Z * Z)
  : list byte :=
  let '(page, lo, hi) := piece in
  if negb (wants wanted (page - first)) then dst else write_at dst (lo - offset) (target item lo hi).

(** As for [readOverlay], the range lies in the volume. *)
Definition readOverlayPages (cause : option E) (base : inheritedPages) (overlay : extentIndex) (size offset : Z)
  (dst : list byte) (wanted : option (list bool)) : result E (list byte) :=
  let finish dst := match cause with Some e => Err e | None => Ok dst end in
  let upto := offset + zlen dst in
  if upto =? offset then finish dst
  else
    let first := offset / size in
    let items := between overlay offset upto in
    let held := fold_left (fun held item => fold_left (add_held first) (pages item size offset upto) held) items
                  (replicate (Z.to_nat ((upto - 1) / size - first + 1)) 0) in
    let inherited := inherited_mask wanted size offset upto held in
    let? dst := if existsb (fun asked => asked) inherited then base offset dst inherited else Ok dst in
    finish (fold_left (fun dst item => fold_left (lay item first offset wanted) (pages item size offset upto) dst) items dst).

(** [clearPages]: zeroes the wanted pages of a range. *)
Definition clear_page (size offset first : Z) (dst : list byte) (index : Z) : list byte :=
  let from := Z.max ((first + index) * size) offset - offset in
  let to := Z.min ((first + index + 1) * size - offset) (zlen dst) in
  write_at dst from (zeros (to - from)).

Definition clearPages (dst : list byte) (size offset : Z) (wanted : option (list bool)) : list byte :=
  match wanted with
  | None => zeros (zlen dst)
  | Some w =>
    fold_left (fun dst index => if wants wanted index then clear_page size offset (offset / size) dst index else dst)
      (seqZ 0 (zlen w)) dst
  end.

End Pages.
Arguments inheritedPages E : clear implicits.

(** [Volume.LoadPages] *)
Definition LoadPages {Index} (cause : option verror) (vm : VM Index) (readPages : string -> inheritedPages verror)
  (ordinal : nat) (v : Volume) (offset : Z) (dst : list byte) (wanted : option (list bool)) : result verror (list byte) :=
  if negb (validRange (size v) offset (zlen dst)) then Err ErrInvalidRange
  else if zlen dst =? 0 then match cause with Some e => Err e | None => Ok dst end
  else
    let size := PageSize (geometry v) in
    if match wanted with
       | Some w => negb (zlen w =? (offset + zlen dst - 1) / size - offset / size + 1)
       | None => false
       end then Err ErrInvalidRange
    else match cause with
         | Some e => Err e
         | None =>
           match v_err (current vm) with
           | Some e => Err e
           | None =>
             if ephemeral v then Ok (clearPages dst size offset wanted)
             else readOverlayPages cause (readPages (name v)) (default Nil (v_overlays (current vm) !! ordinal))
                    size offset dst wanted
           end
         end.

(** ** Pages and pieces *)

(** The bytes an item shares with a range. *)
Definition share (item : extent) (a b : Z) : Z := Z.max 0 (Z.min (stop item) b - Z.max (start item) a).

Definition shares (items : list extent) (a b : Z) : Z := fold_right (fun item total => share item a b + total) 0 items.

Lemma shares_bound lo (items : list extent) hi a b :
  chain lo items hi -> shares items a b <= Z.max 0 (b - Z.max a lo).
Proof.
  revert lo. induction items as [|x items IH]; simpl; intros lo; [lia|]. intros (?&?&Hc).
  specialize (IH _ Hc). unfold share. simpl in *. lia.
Qed.

Lemma shares_after lo (items : list extent) hi a a' b :
  chain lo items hi -> a <= lo -> a' <= lo -> shares items a b = shares items a' b.
Proof.
  revert lo. induction items as [|x items IH]; simpl; intros lo; [lia|]. intros (?&?&Hc) ??.
  rewrite (IH (stop x)) by (simpl in *; done || lia). unfold share. simpl in *. lia.
Qed.

(** Items that share a whole range cover it. *)
Lemma shares_full lo (items : list extent) hi a b :
  chain lo items hi -> b - a <= shares items a b -> forall p, a <= p < b -> is_Some (llookup items p).
Proof.
  revert lo a. induction items as [|x items IH]; simpl; intros lo a; [lia|].
  intros (Hlo&Hx&Hc) Hs p Hp. pose proof (shares_bound _ _ _ a b Hc) as Hb. rewrite llookup_cons. simpl in *.
  unfold share in Hs. destruct ((start x <=? p) && (p <? stop x)) eqn:E; [by eexists|].
  destruct (decide (stop x <= a)) as [Hle|Hgt].
  - eapply (IH (stop x) a); [done|lia|done].
  - apply andb_false_iff in E. assert (start x <= a) by lia.
    assert (stop x <= p) by (destruct E; zbool; lia).
    eapply (IH (stop x) (stop x)); [done| |lia].
    rewrite (shares_after (stop x) items hi (stop x) a b) by (done || lia). lia.
Qed.

(** One item's pages, one after another. *)
Lemma seqZ_snoc a n : 0 <= n -> seqZ a (n + 1) = seqZ a n ++ [a + n].
Proof.
  intros. by rewrite seqZ_app by lia.
Qed.

Lemma fold_add_held first a n lo hi (held : list Z) k :
  first <= a -> 0 <= n ->
  fold_left (add_held first) ((fun page => (page, lo page, hi page)) <$> seqZ a n) held !! k =
    (fun h => h + (if (a <=? first + Z.of_nat k) && (first + Z.of_nat k <? a + n)
                   then hi (first + Z.of_nat k) - lo (first + Z.of_nat k) else 0)) <$> (held !! k).
Proof.
  intros Ha Hn. revert n Hn. refine (natlike_ind _ _ _).
  - rewrite seqZ_nil by lia. simpl. destruct (_ && _) eqn:E; [zbool; lia|].
    destruct (held !! k); simpl; [|done]. f_equal. lia.
  - intros n Hn IH. replace (Z.succ n) with (n + 1) by lia. rewrite seqZ_snoc, fmap_app, fold_left_app by done. simpl.
    destruct (decide (Z.to_nat (a + n - first) = k)) as [Hk|Hk].
    + rewrite <- Hk at 1. rewrite list_lookup_alter_eq, Hk, IH. destruct (held !! k) as [h|]; simpl; [|done]. f_equal.
      replace (first + Z.of_nat k) with (a + n) by lia.
      destruct ((a <=? a + n) && (a + n <? a + n)) eqn:E1; zbool; [lia|].
      destruct ((a <=? a + n) && (a + n <? a + (n + 1))) eqn:E2; zbool; lia.
    + rewrite list_lookup_alter_ne by done. rewrite IH. destruct (held !! k) as [h|]; simpl; [|done]. do 2 f_equal.
      destruct ((a <=? first + Z.of_nat k) && (first + Z.of_nat k <? a + n)) eqn:E1,
        ((a <=? first + Z.of_nat k) && (first + Z.of_nat k <? a + (n + 1))) eqn:E2; zbool; try done; lia.
Qed.

(** The page of a byte. *)
Lemma page_iff size page i :
  0 < size -> page * size <= i < (page + 1) * size <-> i / size = page.
Proof.
  intros Hs. split; [by apply page_of_range|]. intros <-. by apply page_bounds.
Qed.

Lemma div_range size i a b : 0 < size -> a <= i <= b -> a / size <= i / size <= b / size.
Proof. intros. split; apply Z.div_le_mono; lia. Qed.

Section Held.
Context (size offset upto : Z).
Hypothesis Hsize : 0 < size.
Hypothesis Hoffset : 0 <= offset < upto.

Let first : Z := offset / size.

Lemma held_item item held k :
  overlaps offset upto item -> start item < stop item ->
  fold_left (add_held first) (pages item size offset upto) held !! k =
    (fun h => h + share item (Z.max offset ((first + Z.of_nat k) * size))
                    (Z.min upto ((first + Z.of_nat k + 1) * size))) <$> held !! k.
Proof.
  intros [Ho1 Ho2] Hlt. unfold pages.
  set (from := Z.max (start item) offset). set (to := Z.min (stop item) upto).
  assert (first <= from / size) by (apply Z.div_le_mono; lia).
  assert (from / size <= (to - 1) / size) by (apply Z.div_le_mono; lia).
  rewrite (fold_add_held first (from / size) _ (fun page => Z.max from (page * size)) (fun page => Z.min to ((page + 1) * size)))
    by lia.
  destruct (held !! k) as [h|]; simpl; [|done]. do 2 f_equal.
  set (page := first + Z.of_nat k). unfold share.
  pose proof (page_bounds size from Hsize). pose proof (page_bounds size (to - 1) Hsize).
  destruct ((from / size <=? page) && (page <? from / size + ((to - 1) / size - from / size + 1))) eqn:E; zbool.
  - assert (page * size <= to - 1) by nia. assert (from < (page + 1) * size) by nia. lia.
  - assert (page < from / size \/ (to - 1) / size < page) as [Hp|Hp] by lia.
    + assert ((page + 1) * size <= from) by nia. lia.
    + assert (to <= page * size) by nia. lia.
Qed.

Lemma held_items (items : list extent) lo hi held k :
  chain lo items hi -> Forall (overlaps offset upto) items ->
  fold_left (fun held item => fold_left (add_held first) (pages item size offset upto) held) items held !! k =
    (fun h => h + shares items (Z.max offset ((first + Z.of_nat k) * size))
                    (Z.min upto ((first + Z.of_nat k + 1) * size))) <$> held !! k.
Proof.
  revert lo held. induction items as [|x items IH]; simpl; intros lo held.
  { intros _ _. destruct (held !! k); simpl; [|done]. f_equal. lia. }
  intros (?&Hx&Hc) [Ho Hos]%Forall_cons. rewrite (IH _ _ Hc Hos), held_item by done.
  destruct (held !! k); simpl; [|done]. f_equal. lia.
Qed.

(** ** Laying the overlay *)

Lemma lay_pieces item (wanted : option (list bool)) a n dst lo hi i :
  0 <= n -> (forall page, a <= page < a + n -> offset <= lo page /\ lo page <= hi page /\ hi page - offset <= zlen dst /\
    page * size <= lo page /\ hi page <= (page + 1) * size /\
    start item <= lo page /\ hi page <= stop item) -> sized item ->
  let dst' := fold_left (lay item first offset wanted) ((fun page => (page, lo page, hi page)) <$> seqZ a n) dst in
  zlen dst' = zlen dst /\
  zget dst' (i - offset) =
    if (a <=? i / size) && (i / size <? a + n) && (lo (i / size) <=? i) && (i <? hi (i / size)) && wants wanted (i / size - first)
    then Some (byte_at item i) else zget dst (i - offset).
Proof.
  intros Hn Hp Hsz. revert n Hn Hp. refine (natlike_ind _ _ _).
  - intros _. rewrite seqZ_nil by lia. simpl. split; [done|].
    destruct ((a <=? i / size) && (i / size <? a + 0)) eqn:E; [zbool; lia|]. done.
  - intros n Hn IH Hp. replace (Z.succ n) with (n + 1) in * by lia.
    rewrite seqZ_snoc, fmap_app, fold_left_app by done. simpl.
    destruct IH as [IHl IHg]; [intros page ?; apply Hp; lia|].
    set (dst1 := fold_left _ _ dst) in *. destruct (Hp (a + n)) as (H1&H2&H3&H4&H5&H6&H7); [lia|].
    destruct (target_spec item (lo (a + n)) (hi (a + n)) Hsz H6 H2 H7) as [Tl Tg].
    unfold lay. destruct (wants wanted (a + n - first)) eqn:Ew; simpl.
    + split; [rewrite zlen_write_at; lia|]. rewrite zget_write_at, Tl by lia.
      destruct ((lo (a + n) - offset <=? i - offset) && (i - offset <? lo (a + n) - offset + (hi (a + n) - lo (a + n)))) eqn:E; zbool.
      * clear IHg. rewrite Tg by lia. assert (i / size = a + n) as -> by (apply page_of_range; lia). rewrite Ew.
        destruct (_ && _ && _ && _ && _) eqn:E'; [do 2 f_equal; lia|].
        rewrite !andb_false_iff in E'. destruct E' as [[[[]|]|]|]; zbool; try lia; done.
      * rewrite IHg. clear IHg. destruct (decide (i / size = a + n)) as [Hi|Hi].
        -- rewrite Hi. assert (i < lo (a + n) \/ hi (a + n) <= i) by lia.
           destruct ((a <=? a + n) && (a + n <? a + n)) eqn:E1; [zbool; lia|]. simpl.
           destruct (_ && _ && _ && _ && _) eqn:E2; [zbool; lia|done].
        -- assert ((i / size <? a + n) = (i / size <? a + (n + 1))) as ->; [|done].
           destruct (i / size <? a + n) eqn:E1, (i / size <? a + (n + 1)) eqn:E2; zbool; try done; lia.
    + split; [done|]. rewrite IHg. destruct (decide (i / size = a + n)) as [Hi|Hi].
      * rewrite Hi, Ew, !andb_false_r. done.
      * assert ((i / size <? a + n) = (i / size <? a + (n + 1))) as ->; [|done].
        destruct (i / size <? a + n) eqn:E1, (i / size <? a + (n + 1)) eqn:E2; zbool; try done; lia.
Qed.

Lemma lay_item item wanted dst i :
  overlaps offset upto item -> start item < stop item -> sized item -> zlen dst = upto - offset -> offset <= i < upto ->
  let dst' := fold_left (lay item first offset wanted) (pages item size offset upto) dst in
  zlen dst' = zlen dst /\
  zget dst' (i - offset) =
    if (start item <=? i) && (i <? stop item) && wants wanted (i / size - first) then Some (byte_at item i)
    else zget dst (i - offset).
Proof.
  intros [Ho1 Ho2] Hlt Hsz Hd Hi. unfold pages.
  set (from := Z.max (start item) offset). set (to := Z.min (stop item) upto).
  assert (from / size <= (to - 1) / size) by (apply Z.div_le_mono; lia).
  pose proof (page_bounds size from Hsize). pose proof (page_bounds size (to - 1) Hsize). pose proof (page_bounds size i Hsize).
  destruct (lay_pieces item wanted (from / size) ((to - 1) / size - from / size + 1) dst
    (fun page => Z.max from (page * size)) (fun page => Z.min to ((page + 1) * size)) i) as [Hl Hg]; [lia| |done|].
  { intros page Hp. assert (page * size <= to - 1) by nia. assert (from < (page + 1) * size) by nia. lia. }
  split; [done|]. rewrite Hg. clear Hg. destruct (wants wanted (i / size - first)); rewrite ?andb_true_r, ?andb_false_r; [|done].
  destruct ((start item <=? i) && (i <? stop item)) eqn:E; zbool.
  - assert (from / size <= i / size <= (to - 1) / size) by (apply div_range; lia).
    destruct (_ && _ && _ && _) eqn:E'; [done|]. rewrite !andb_false_iff in E'. destruct E' as [[[]|]|]; zbool; lia.
  - destruct (_ && _ && _ && _) eqn:E'; [zbool; lia|done].
Qed.

Lemma lay_items (items : list extent) lo hi wanted dst i :
  chain lo items hi -> Forall sized items -> Forall (overlaps offset upto) items ->
  zlen dst = upto - offset -> offset <= i < upto ->
  let dst' := fold_left (fun dst item => fold_left (lay item first offset wanted) (pages item size offset upto) dst) items dst in
  zlen dst' = zlen dst /\
  zget dst' (i - offset) =
    match llookup items i with
    | Some (b, _) => if wants wanted (i / size - first) then Some b else zget dst (i - offset)
    | None => zget dst (i - offset)
    end.
Proof.
  revert lo dst. induction items as [|x items IH]; simpl; intros lo dst; [done|].
  intros (?&Hx&Hc) [Hs Hss]%Forall_cons [Ho Hos]%Forall_cons Hd Hi.
  destruct (lay_item x wanted dst i Ho Hx Hs Hd Hi) as [Hl Hg].
  set (dst1 := fold_left (lay x first offset wanted) _ dst) in *.
  destruct (IH _ dst1 Hc Hss Hos ltac:(lia) Hi) as [Hl' Hg']. split; [lia|].
  rewrite Hg', Hg, llookup_cons. simpl. destruct ((start x <=? i) && (i <? stop x)) eqn:E; zbool; simpl.
  - rewrite (llookup_outside (stop x) items hi) by (done || lia). done.
  - done.
Qed.

End Held.

(** A source that, asked only for pages that are wanted, reads the pages a mask
    marks of an image and leaves the others. *)
Definition serves_pages {E} (base : inheritedPages E) (img : Z -> byte) (size offset len : Z)
  (wanted : option (list bool)) : Prop :=
  forall dst mask, zlen dst = len -> zlen mask = (offset + len - 1) / size - offset / size + 1 ->
  (forall k, wants (Some mask) k = true -> wants wanted k = true) ->
  exists dst', base offset dst mask = Ok dst' /\ zlen dst' = len /\
    forall i, offset <= i < offset + len -> zget dst' (i - offset) =
      if wants (Some mask) (i / size - offset / size) then Some (img i) else zget dst (i - offset).

Lemma length_held first size offset upto items (held : list Z) :
  length (fold_left (fun held item => fold_left (add_held first) (pages item size offset upto) held) items held) = length held.
Proof.
  revert held. induction items as [|x items IH]; simpl; intros held; [done|]. rewrite IH.
  generalize (pages x size offset upto) as ps. intros ps. revert held.
  induction ps as [|[[pg lo] hi] ps IHp]; simpl; intros held; [done|]. by rewrite IHp, length_alter.
Qed.

Lemma inherited_mask_wanted wanted size offset upto held k :
  wants (Some (inherited_mask wanted size offset upto held)) k = true -> wants wanted k = true.
Proof.
  simpl. unfold zget. zcases; [done|]. unfold inherited_mask. rewrite list_lookup_imap.
  destruct (held !! _); simpl; [|done]. intros [Hw _]%andb_true_iff. by rewrite Z2Nat.id in Hw by lia.
Qed.

Lemma inherited_mask_spec wanted size offset upto (items : list extent) lo hi i :
  0 < size -> 0 <= offset < upto -> chain lo items hi -> Forall (overlaps offset upto) items ->
  let count := (upto - 1) / size - offset / size + 1 in
  let held := fold_left (fun held item => fold_left (add_held (offset / size)) (pages item size offset upto) held) items
                (replicate (Z.to_nat count) 0) in
  let mask := inherited_mask wanted size offset upto held in
  zlen mask = count /\
  (offset <= i < upto -> llookup items i = None -> wants wanted (i / size - offset / size) = true ->
   wants (Some mask) (i / size - offset / size) = true).
Proof.
  intros Hsz Ho Hc Hov count held mask.
  assert (offset / size <= (upto - 1) / size) by (apply Z.div_le_mono; lia).
  split; [unfold zlen, mask, inherited_mask, held; rewrite length_imap, length_held, length_replicate; lia|].
  intros Hi. assert (offset / size <= i / size <= (upto - 1) / size) as Hr by (apply div_range; lia).
  set (k := i / size - offset / size) in *.
  assert (held !! Z.to_nat k = Some (shares items (Z.max offset (i / size * size)) (Z.min upto ((i / size + 1) * size)))) as Hk.
  { unfold held. rewrite (held_items size offset upto Hsz ltac:(lia) items lo hi) by done.
    rewrite lookup_replicate_2 by lia. simpl. rewrite Z2Nat.id by lia.
    replace (offset / size + k) with (i / size) by lia. done. }
  assert (wants (Some mask) k = wants wanted k && (shares items (Z.max offset (i / size * size)) (Z.min upto ((i / size + 1) * size))
    <? Z.min upto ((i / size + 1) * size) - Z.max offset (i / size * size))) as ->.
  { simpl. rewrite zget_nat by lia. unfold mask, inherited_mask. rewrite list_lookup_imap, Hk. simpl.
    rewrite Z2Nat.id by lia. by replace (offset / size + k) with (i / size) by lia. }
  intros Hn Hw. rewrite Hw. simpl. apply Z.ltb_lt.
  destruct (Z.lt_ge_cases (shares items (Z.max offset (i / size * size)) (Z.min upto ((i / size + 1) * size)))
    (Z.min upto ((i / size + 1) * size) - Z.max offset (i / size * size))) as [?|Hge]; [done|].
  pose proof (page_bounds size i Hsz).
  destruct (shares_full lo items hi _ _ Hc Hge i ltac:(lia)) as [x Hx]. congruence.
Qed.

(** C34: a masked read fills exactly the wanted pages.  Every byte of a page the
    mask wants reads as the volume does — the overlay's byte where it has one,
    the inherited byte elsewhere — and every other byte is left as the caller had
    it.  The source is only ever asked for pages that are wanted. *)
Theorem masked_read_fills_wanted_pages {E} (base : inheritedPages E) img volume n size offset dst wanted :
  wf_overlay volume n -> 0 < size -> 0 <= offset -> 0 < zlen dst ->
  serves_pages base img size offset (zlen dst) wanted ->
  exists dst', readOverlayPages None base n size offset dst wanted = Ok dst' /\
    forall i, offset <= i < offset + zlen dst -> zget dst' (i - offset) =
      if wants wanted (i / size - offset / size) then Some (over n img i) else zget dst (i - offset).
Proof.
  intros Hn Hsz Ho Hpos Hb. unfold readOverlayPages.
  destruct (offset + zlen dst =? offset) eqn:Ez; zbool; [lia|]. set (upto := offset + zlen dst) in *.
  set (items := between n offset upto).
  destruct (between_props volume n offset upto Hn ltac:(lia)) as (Hc&Hs&Hov). fold items in Hc, Hs, Hov.
  assert (forall i, offset <= i < upto -> llookup items i = lookup n i) as Hlk
    by (intros i ?; eapply lookup_between; [apply Hn|lia]).
  set (held := fold_left _ items (replicate _ 0)).
  set (mask := inherited_mask wanted size offset upto held).
  pose proof (fun i => inherited_mask_spec wanted size offset upto items 0 volume i Hsz ltac:(lia) Hc Hov) as Hm.
  cbv zeta in Hm. fold held in Hm. fold mask in Hm.
  assert (exists dst1, (if existsb (fun asked => asked) mask then base offset dst mask else Ok dst) = Ok dst1 /\
    zlen dst1 = zlen dst /\ forall i, offset <= i < upto -> zget dst1 (i - offset) =
      if wants (Some mask) (i / size - offset / size) then Some (img i) else zget dst (i - offset)) as (dst1&->&Hl1&Hg1).
  { destruct (existsb _ mask) eqn:Ea; [apply Hb; [done|apply (Hm offset)|apply inherited_mask_wanted]|].
    exists dst. split_and!; try done. intros i Hi. simpl. destruct (zget mask _) as [b|] eqn:Eb; [|done]. simpl.
    destruct b; [|done]. exfalso. apply not_true_iff_false in Ea. apply Ea. apply existsb_exists. exists true.
    split; [|done]. apply list_elem_of_In. pose proof (zget_Some _ _ _ Eb). rewrite zget_nat in Eb by lia.
    by eapply list_elem_of_lookup_2. }
  eexists. split; [done|]. intros i Hi.
  destruct (lay_items size offset upto Hsz ltac:(lia) items 0 volume wanted dst1 i Hc Hs Hov ltac:(lia) Hi) as [_ ->].
  destruct (Hm i) as [_ Hm2]. specialize (Hm2 Hi).
  pose proof (inherited_mask_wanted wanted size offset upto held (i / size - offset / size)) as Hm1. fold mask in Hm1. rewrite (Hg1 i Hi), (Hlk i Hi) in *. unfold over.
  destruct (lookup n i) as [[b g]|].
  - destruct (wants wanted _) eqn:Ew; [done|].
    destruct (wants (Some mask) (i / size - offset / size)) eqn:E1; [|done]. by specialize (Hm1 eq_refl).
  - destruct (wants wanted _) eqn:Ew; [by rewrite Hm2|].
    destruct (wants (Some mask) (i / size - offset / size)) eqn:E1; [|done]. by specialize (Hm1 eq_refl).
Qed.

(** ** A witness

    Two pages of four bytes, an overlay that holds the last byte of the first
    and the first of the second, and a mask that wants the second page. *)

Definition sample_overlay : extentIndex := history [Lay (mkExtent 3 5 (Some [Byte.x01; Byte.x02]) 1)].

Definition sample_source : inheritedPages unit := fun offset dst mask =>
  Ok (imap (fun i b => if wants (Some mask) ((offset + Z.of_nat i) / 4 - offset / 4) then Byte.xaa else b) dst).

Lemma sample_source_serves wanted : serves_pages sample_source (fun _ => Byte.xaa) 4 0 8 wanted.
Proof.
  intros dst mask Hd _ _. eexists. split; [reflexivity|]. split; [unfold zlen; rewrite length_imap; done|].
  intros i Hi. rewrite !zget_nat by lia. rewrite list_lookup_imap.
  destruct (zget_lt dst (i - 0) ltac:(lia)) as [b Hb]. rewrite zget_nat in Hb by lia. rewrite Hb. simpl.
  rewrite !Z2Nat.id by lia. replace (0 + (i - 0)) with i by lia.
  by destruct (default false (zget mask (i / 4 - 0 / 4))).
Qed.

Lemma masked_read_fills_wanted_pages_witness :
  exists dst', readOverlayPages None sample_source sample_overlay 4 0 (zeros 8) (Some [false; true]) = Ok dst' /\
    zget dst' 3 = Some Byte.x00 /\ zget dst' 4 = Some Byte.x02 /\ zget dst' 5 = Some Byte.xaa.
Proof.
  destruct (masked_read_fills_wanted_pages sample_source (fun _ => Byte.xaa) 8 sample_overlay 4 0 (zeros 8)
    (Some [false; true])) as (dst'&Hr&Hb).
  - apply history_spec; [unfold addressable; lia| |lia]. repeat constructor; simpl; lia.
  - lia.
  - lia.
  - reflexivity.
  - exact (sample_source_serves _).
  - exists dst'. split; [exact Hr|]. split; [exact (Hb 3 ltac:(change (zlen (zeros 8)) with 8; lia))|].
    split; [exact (Hb 4 ltac:(change (zlen (zeros 8)) with 8; lia))|exact (Hb 5 ltac:(change (zlen (zeros 8)) with 8; lia))].
Defined.

End OverlayPages.
