(* ===== verification/VolumeSafety.v ===== *)
(** * What a VM's volumes hold

    The volumes of file [VolumeVM] as byte arrays: the bytes a handle reads
    through any sequence of writes, discards, captures and publications, the
    bytes it reads once a checkpoint of sealed pages is installed under later
    writes, and the sequences it publishes under. *)

From S2P Require Import Prelude Interval Overlay ControlRecord VolumeVM.

Module VolumeSafety.
Import Overlay VolumeVM.

Section Safety.
Context {Index : Type} `{PageStoreLaws Index}.

Abbreviation system := (system (Index := Index)).

Lemma exec_all_ok maxWrite ops (s : system) imgs i v :
  Forall op_ok ops -> system_ok s imgs (zlen ops) -> volumes (handle s) !! i = Some v ->
  let '(s', imgs') := exec_all maxWrite s imgs ops in
  system_ok s' imgs' 0 /\ volumes (handle s') !! i = Some v.
Proof.
  revert s imgs. induction ops as [|o ops IH]; intros s imgs Hops Hok Hi; simpl; [done|].
  apply Forall_cons in Hops as [Hop Hops]. rewrite zlen_cons in Hok. pose proof (zlen_nonneg ops).
  destruct (exec maxWrite s o) as [s1 e] eqn:He.
  pose proof (exec_ok _ _ _ _ _ _ _ Hok ltac:(lia) Hop He) as Hok1.
  apply IH; [done| |by erewrite exec_volumes]. by replace (zlen ops) with (1 + zlen ops - 1) by lia.
Qed.

(** C3: a volume is a byte array.  Through any sequence of writes, discards,
    captures without sealed pages, publications and hand-offs — publications
    that succeed, fail, are retried or find the handle fenced — a handle that
    is still usable reads every volume as its accepted writes and discards left
    it, applied in order to the bytes it started with; and one that is not, for
    a hand-off or a fence, answers every read with that reason. *)
Theorem vm_refines_bytes maxWrite (s : system) imgs ops i v offset dst :
  system_ok s imgs (zlen ops) -> Forall op_ok ops ->
  volumes (handle s) !! i = Some v -> ephemeral v = false ->
  0 <= offset -> validRange (size v) offset (zlen dst) = true ->
  let '(s', imgs') := exec_all maxWrite s imgs ops in
  Read None (handle s') i v offset dst =
    match readyLocked (handle s') with
    | None => Ok (imgs' i <$> seqZ offset (zlen dst))
    | Some e => Err e
    end.
Proof.
  intros Hok Hops Hi Hne Ho Hr. pose proof (exec_all_ok maxWrite ops s imgs i v Hops Hok Hi) as Hrun.
  destruct (exec_all maxWrite s imgs ops) as [s' imgs'].
  destruct Hrun as [[Hw _ _ Hvol] Hi'].
  destruct (Hvol i v Hi' Hne) as (bimg&Hs&_). rewrite (Read_spec _ i v bimg (imgs' i)) by (done || apply Hw).
  rewrite Hr, Hne. by destruct (readyLocked (handle s')).
Qed.

(** ** Sealed pages *)

(** Batches of changes applied to one volume, each a write generation. *)
Definition apply_batches (vm : VM Index) (i : nat) (batches : list (list change)) : VM Index :=
  fold_left (fun vm cs => publishLocked (applyLocked vm i cs)) batches vm.

(** The bytes an overlay has above a generation, over an image. *)
Definition above_generation (g : Z) (n : extentIndex) (img : Z -> byte) (p : Z) : byte :=
  match lookup n p with Some (b, g') => if g' >? g then b else img p | None => img p end.

Lemma above_changes g g' size n d cs img :
  overlay_ok g' size n -> g < g' -> Forall (change_ok size) cs -> forall p,
  above_generation g (fold_left (apply_change g') cs (n, d)).1 img p =
  fold_left set_bytes cs (above_generation g n img) p.
Proof.
  intros Hn Hg. revert n d Hn. induction cs as [|c cs IH]; intros n d Hn Hcs p; simpl; [done|].
  apply Forall_cons in Hcs as [Hc Hcs].
  pose proof (replace_ok g' g' size n c Hn ltac:(lia) Hc) as (Hn'&_&_).
  rewrite IH by done. apply set_bytes_ext. intros q. unfold above_generation, set_bytes, replaceExtent.
  destruct Hn as [[Hw _] _]. destruct Hc as (?&?&?&?).
  rewrite (lookup_replace 0 n size) by (simpl; done || lia). simpl.
  destruct (_ && _); [|done]. destruct (g' >? g) eqn:E; zbool; [|lia].
  unfold byte_at. simpl. by destruct (c_data c).
Qed.

Lemma apply_batches_spec vm i v bimg img c cimg batches :
  vm_wf vm -> volumes vm !! i = Some v -> stands vm i v bimg img -> in_flight vm c i v cimg ->
  Forall (Forall (change_ok (size v))) batches -> applied vm + zlen batches < 2 ^ 64 - 1 ->
  let vm' := apply_batches vm i batches in
  vm_wf vm' /\ volumes vm' !! i = Some v /\ in_flight vm' c i v cimg /\
  (exists img', stands vm' i v bimg img') /\ readyLocked vm' = readyLocked vm /\
  forall o o', overlays vm !! i = Some o -> overlays vm' !! i = Some o' -> forall p,
    above_generation (position c) o' cimg p = fold_left set_bytes (concat batches) (above_generation (position c) o cimg) p.
Proof.
  revert vm img. induction batches as [|cs batches IH]; intros vm img Hw Hi Hs Hf Hcs Hb; simpl.
  { split_and!; try done; [by exists img|]. intros o o' Ho Ho' p. by assert (o' = o) as -> by congruence. }
  apply Forall_cons in Hcs as [Hc Hcs]. rewrite zlen_cons in Hb. pose proof (zlen_nonneg batches).
  pose proof (wf_applied _ Hw). set (vm1 := publishLocked (applyLocked vm i cs)).
  destruct (applyLocked_fields vm i cs) as (Ev&_&_&_&_&_&Ea&Er). fold vm1 in Ev, Ea, Er.
  assert (wrap64 (applied vm + 1) = applied vm + 1) as Hg by (apply wrap64_small; unfold u64; lia).
  pose proof (applyLocked_stands vm i v bimg img cs i v bimg img ltac:(lia) Hi Hs Hc Hi Hs) as Hs1. fold vm1 in Hs1.
  destruct (IH vm1 (if decide (i = i) then fold_left set_bytes cs img else img))
    as (Hw'&Hi'&Hf'&Hs'&Hr'&Ho'); try done.
  - apply applyLocked_wf; [done|lia].
  - by rewrite Ev.
  - by eapply apply_in_flight; eauto; lia.
  - lia.
  - split_and!; try done; [congruence|]. intros o o' Ho Hoo p.
    destruct Hs as [(o0&Ho0&Hok&_) _ _]. assert (o0 = o) as -> by congruence.
    assert (overlays vm1 !! i = Some (fold_left (apply_change (applied vm + 1)) cs (o, dirty vm)).1) as Ho1.
    { unfold vm1, applyLocked. rewrite Ho, Hg. simpl. destruct (fold_left _ _ _). simpl.
      apply list_lookup_insert_eq. by apply lookup_lt_Some in Ho. }
    rewrite (Ho' _ _ Ho1 Hoo p), fold_left_app. apply set_bytes_ext. intros q.
    destruct Hf as [Hpos _ _ _]. eapply above_changes; [|lia|exact Hc].
    eapply overlay_ok_weaken; [exact Hok|lia].
Qed.

(** C5: a checkpoint holds what its capture saw.  A capture takes the overlays
    and the pages the pagers sealed; the handle goes on taking writes; and once
    the publication commits and is installed, the handle reads the checkpoint —
    the overlay's bytes over the sealed pages over what it inherited — with
    exactly the later writes on top of it, in order. *)
Theorem installed_checkpoint_reads vm srcs force vm1 c i v bimg img simg batches index offset dst :
  vm_wf vm -> volumes vm !! i = Some v -> ephemeral v = false -> stands vm i v bimg img -> backed vm v bimg ->
  (forall src, srcs !! name v = Some src -> seal_ok src (PageSize (geometry v)) simg) ->
  captureLocked vm srcs force = (vm1, Ok (Some c)) ->
  Forall (Forall (change_ok (size v))) batches -> applied vm + zlen batches < 2 ^ 64 - 1 ->
  let vm2 := apply_batches vm1 i batches in
  publish vm2 c None = Ok index ->
  0 <= offset -> validRange (size v) offset (zlen dst) = true ->
  exists o, overlays vm !! i = Some o /\
    let cimg := over o (under_seal (srcs !! name v) (PageSize (geometry v)) simg bimg) in
    Read None (install vm2 c index).1 i v offset dst =
      Ok (fold_left set_bytes (concat batches) cimg <$> seqZ offset (zlen dst)).
Proof.
  intros Hw Hi Hne Hs Hbk Hseal Hc Hcs Hb vm2 Hp Ho Hr.
  destruct (capture_in_flight _ _ _ _ _ _ _ _ _ simg Hc Hw Hi Hs Hbk Hseal) as (o&Hov&Hf).
  destruct (capture_stands _ _ _ _ _ _ _ _ _ Hc Hs) as (Hs1&_&Hw1).
  pose proof (capture_inv _ _ _ _ _ Hc) as (idx&_&Hready&_&Ec&Evm).
  exists o. split; [done|]. set (cimg := over o _) in *.
  assert (volumes vm1 !! i = Some v) as Hi1 by (by rewrite Evm).
  assert (overlays vm1 !! i = Some o) as Hov1 by (by rewrite Evm).
  assert (applied vm1 = applied vm /\ readyLocked vm1 = None) as [Ha1 Hr1] by (by rewrite Evm).
  destruct (apply_batches_spec vm1 i v bimg img c cimg batches (Hw1 Hw) Hi1 Hs1 Hf Hcs ltac:(lia))
    as (Hw2&Hi2&Hf2&[img2 Hs2]&Hr2&Habove). fold vm2 in Hw2, Hi2, Hf2, Hs2, Hr2, Habove.
  assert (Commit (parentIndex c) (pageSizeOf vm2) (publishedPages vm2 c) (checkpoint_read c) = Ok index) as Hcommit.
  { unfold publish in Hp. by destruct (Commit _ _ _ _). }
  destruct (install_stands vm2 c i v bimg img2 cimg index Hw2 Hi2 Hs2 Hf2 Hcommit) as [Hst _].
  cbv zeta. assert (viewed (install vm2 c index).1) as Hv by done.
  rewrite (Read_spec _ i v _ _ _ _ Hv Hst Ho), Hr.
  assert (readyLocked (install vm2 c index).1 = None) as -> by (rewrite <- Hr1, <- Hr2; done).
  rewrite Hne. simpl. f_equal. apply image_ext. intros p Hpr. destruct Hs2 as [(o2&Ho2&_) _ _].
  assert (installed vm2 c i cimg img2 p = above_generation (position c) o2 cimg p) as ->
    by (unfold installed; by rewrite Ho2).
  rewrite (Habove o o2 Hov1 Ho2). apply set_bytes_ext. intros q.
  unfold above_generation. destruct (lookup o q) as [[b g]|] eqn:El; [|done].
  destruct Hs as [(o'&Ho'&Hok&_) _ _]. assert (o' = o) as -> by congruence.
  pose proof (lookup_generation _ _ _ _ _ _ Hok El). assert (position c = applied vm) as -> by (by rewrite Ec).
  destruct (g >? applied vm) eqn:E; zbool; [lia|done].
Qed.

(** ** Sequences *)

Lemma exec_next maxWrite (s : system) o s' e :
  exec maxWrite s o = (s', e) ->
  epoch (handle s') = epoch (handle s) /\
  (next (handle s') = next (handle s) \/
   (Control.ValidSequence (epoch (handle s)) (next (handle s)) = true /\
    next (handle s') = wrap64 (next (handle s) + 1))).
Proof.
  assert (forall (vm : VM Index) i cs, epoch (applyLocked vm i cs) = epoch vm /\ next (applyLocked vm i cs) = next vm) as Happ.
  { intros vm i cs. unfold applyLocked. by destruct (fold_left _ _ _). }
  destruct o as [i extents|i offset length|force|sel rs|]; simpl; intros He.
  - destruct (volumes (handle s) !! i) as [v|]; [|injection He as <- <-; auto].
    unfold WriteBatch, apply in He. repeat case_match; simplify_eq; simpl; auto.
    all: match goal with |- context [applyLocked ?vm ?i ?cs] => destruct (Happ vm i cs) as [-> ->]; auto end.
  - destruct (volumes (handle s) !! i) as [v|]; [|injection He as <- <-; auto].
    unfold Discard, apply in He. repeat case_match; simplify_eq; simpl; auto.
  - destruct (pending s); [injection He as <- <-; auto|].
    destruct (captureLocked (handle s) no_seals force) as [vm' [[c|]|]] eqn:Ec; injection He as <- <-; simpl.
    + destruct (capture_inv _ _ _ _ _ Ec) as (?&_&_&Hv&_&->). split; [done|]. by right.
    + rewrite (capture_none _ _ _ _ Ec). auto.
    + rewrite (capture_err _ _ _ _ _ Ec). auto.
  - destruct (pending s) as [c|]; [|injection He as <- <-; auto]. unfold complete in He.
    destruct (attempts _ _ _ _); [injection He as <- <-; auto|].
    destruct (bool_decide _); injection He as <- <-; auto.
  - destruct (pending s); [injection He as <- <-; auto|]. unfold Handoff in He.
    repeat case_match; simplify_eq; auto.
Qed.

Lemma ValidSequence_bounds e q : Control.ValidSequence e q = true -> 0 < q < 2 ^ 64.
Proof.
  intros (He&c&Hc&->)%Control.ValidSequence_iff. rewrite Control.Sequence_sum by lia. nia.
Qed.

Lemma exec_all_next maxWrite ops (s : system) imgs q :
  (q < next (handle s) \/ next (handle s) = 0) ->
  let s' := (exec_all maxWrite s imgs ops).1 in
  epoch (handle s') = epoch (handle s) /\ (q < next (handle s') \/ next (handle s') = 0).
Proof.
  revert s imgs. induction ops as [|o ops IH]; intros s imgs Hq; simpl; [done|].
  destruct (exec maxWrite s o) as [s1 e] eqn:He. destruct (exec_next _ _ _ _ _ He) as [Ep Hn].
  rewrite <- Ep. apply IH. destruct Hn as [->|[Hv ->]]; [done|].
  pose proof (ValidSequence_bounds _ _ Hv). unfold wrap64.
  destruct (decide (next (handle s) + 1 = 2 ^ 64)) as [->|Hne]; [right; reflexivity|].
  rewrite Z.mod_small by lia. lia.
Qed.

(** C32: no two captures of a handle share a reference.  A capture takes the
    handle's next sequence, one of its own epoch; whatever happens after it —
    writes, publications that land, publications that fail and burn their
    sequence — a later capture takes a higher one, and when the epoch's
    counters run out a capture is refused rather than wrapped. *)
Theorem captures_never_share_a_reference maxWrite (vm : VM Index) srcs force vm1 c ops imgs srcs' force' vm2 c' :
  captureLocked vm srcs force = (vm1, Ok (Some c)) ->
  let s' := (exec_all maxWrite (mkSystem vm1 (Some c)) imgs ops).1 in
  captureLocked (handle s') srcs' force' = (vm2, Ok (Some c')) ->
  Control.ValidSequence (epoch vm) (Control.Seq (ref c)) = true /\
  Control.ValidSequence (epoch vm) (Control.Seq (ref c')) = true /\
  Control.Seq (ref c) < Control.Seq (ref c').
Proof.
  intros Hc s' Hc'. destruct (capture_inv _ _ _ _ _ Hc) as (?&_&_&Hv&->&->).
  destruct (capture_inv _ _ _ _ _ Hc') as (?&_&_&Hv'&->&_). simpl in *.
  assert (next vm < wrap64 (next vm + 1) \/ wrap64 (next vm + 1) = 0) as Hn.
  { pose proof (ValidSequence_bounds _ _ Hv). unfold wrap64.
    destruct (decide (next vm + 1 = 2 ^ 64)) as [->|Hne]; [right; reflexivity|]. rewrite Z.mod_small by lia. lia. }
  match eval unfold s' in s' with (exec_all ?m ?s ?im ?os).1 =>
    destruct (exec_all_next m os s im (next vm) Hn) as [Ep Hq] end.
  fold s' in Ep, Hq. simpl in Ep. rewrite Ep in Hv'.
  split_and!; try done. destruct Hq as [?|Hz]; [done|].
  rewrite Hz in Hv'. apply ValidSequence_bounds in Hv'; lia.
Qed.

(** ** Dirty bytes *)

Definition covered_bytes (os : list extentIndex) : Z :=
  fold_right (fun o total => dirtySectorCount o * SectorSize + total) 0 os.

Lemma sorted_NoDup (l : list Z) : StronglySorted Z.lt l -> NoDup l.
Proof.
  induction 1 as [|x l Hs IH Hx]; constructor; [|done]. intros Hin. eapply Forall_forall in Hx; [|exact Hin]. lia.
Qed.

Lemma dirtySectorCount_nonneg o : 0 <= dirtySectorCount o.
Proof. rewrite dirtySectorCount_length. apply zlen_nonneg. Qed.

Lemma dirtySectorCount_replace g g' size o c :
  overlay_ok g size o -> g <= g' -> addressable size -> change_ok size c ->
  dirtySectorCount (replaceExtent o (mkExtent (c_offset c) (c_offset c + c_length c) (c_data c) g')) * SectorSize
  <= dirtySectorCount o * SectorSize + sectorSpan (c_offset c) (c_length c).
Proof.
  intros Hok Hg Ha Hc. pose proof (replace_ok g g' size o c Hok Hg Hc) as (Hok'&_&_).
  set (o' := replaceExtent o _) in *. pose proof Hc as (H1&H2&H3&_).
  destruct (dirtyPages_spec size o SectorSize (wf_overlay_tree _ _ (overlay_wf _ _ _ Hok)) Ha ltac:(done)) as [_ Hm].
  destruct (dirtyPages_spec size o' SectorSize (wf_overlay_tree _ _ (overlay_wf _ _ _ Hok')) Ha ltac:(done)) as [Hs' Hm'].
  set (first := c_offset c / SectorSize). set (last := (c_offset c + c_length c - 1) / SectorSize).
  assert (first <= last) by (apply Z.div_le_mono; [done|lia]).
  assert (zlen (dirtyPages o' SectorSize) <= zlen (dirtyPages o SectorSize ++ seqZ first (last - first + 1))) as Hle.
  { unfold zlen. apply inj_le. apply submseteq_length, NoDup_submseteq; [by apply sorted_NoDup|].
    intros p (q&<-&[b Hq])%Hm'. apply elem_of_app. unfold o', replaceExtent in Hq.
    rewrite (lookup_replace 0 o size) in Hq by (simpl; apply Hok || lia). simpl in Hq.
    destruct (_ && _) eqn:E; zbool.
    - right. apply elem_of_seqZ. unfold first, last.
      split; [|apply Z.lt_le_trans with ((c_offset c + c_length c - 1) / SectorSize + 1); [|lia]].
      + apply Z.div_le_mono; [done|lia].
      + apply Z.lt_succ_r. apply Z.div_le_mono; [done|lia].
    - left. apply Hm. exists q. split; [done|]. by exists b. }
  rewrite zlen_app in Hle. unfold zlen at 3 in Hle. rewrite length_seqZ in Hle.
  rewrite !dirtySectorCount_length. unfold sectorSpan. destruct (c_length c =? 0) eqn:E; zbool; [lia|].
  fold first last. unfold SectorSize in *. lia.
Qed.

(** Upper bounds of what one batch adds, without wrapping. *)
Definition spans (cs : list change) : Z :=
  fold_right (fun c total => sectorSpan (c_offset c) (c_length c) + total) 0 cs.

Lemma sectorSpan_nonneg size c : change_ok size c -> 0 <= sectorSpan (c_offset c) (c_length c).
Proof.
  intros (?&?&?&_). unfold sectorSpan. destruct (c_length c =? 0); [lia|].
  assert (c_offset c / SectorSize <= (c_offset c + c_length c - 1) / SectorSize) by (apply Z.div_le_mono; [done|lia]).
  unfold SectorSize in *. lia.
Qed.

Lemma apply_changes_dirty g size o d cs :
  overlay_ok g size o -> addressable size -> Forall (change_ok size) cs -> 0 <= d -> d + spans cs < 2 ^ 64 ->
  let r := fold_left (apply_change g) cs (o, d) in
  r.2 = d + spans cs /\ dirtySectorCount r.1 * SectorSize <= dirtySectorCount o * SectorSize + spans cs.
Proof.
  intros Hok Ha Hcs. revert o d Hok. induction Hcs as [|c cs Hc Hcs IH]; intros o d Hok Hd Hb; simpl in *; [lia|].
  pose proof (sectorSpan_nonneg size c Hc).
  assert (0 <= spans cs) by (clear -Hcs; induction Hcs as [|x l Hx _ IH]; simpl; [lia|]; pose proof (sectorSpan_nonneg _ _ Hx); lia).
  assert (wrap64 (d + sectorSpan (c_offset c) (c_length c)) = d + sectorSpan (c_offset c) (c_length c)) as ->
    by (apply wrap64_small; unfold u64; lia).
  pose proof (replace_ok g g size o c Hok ltac:(lia) Hc) as (Hok'&_&_).
  pose proof (dirtySectorCount_replace g g size o c Hok ltac:(lia) Ha Hc) as Hcount.
  set (o' := replaceExtent o _) in *.
  destruct (IH o' (d + sectorSpan (c_offset c) (c_length c)) Hok' ltac:(lia) ltac:(lia)) as [-> Hle]. lia.
Qed.

Lemma covered_bytes_insert os i o o' :
  os !! i = Some o ->
  covered_bytes (<[i := o']> os) = covered_bytes os - dirtySectorCount o * SectorSize + dirtySectorCount o' * SectorSize.
Proof.
  revert i. induction os as [|x os IH]; intros [|i] Hi; simpl in *; [done|done|injection Hi as ->; lia|].
  rewrite (IH i Hi). lia.
Qed.

Lemma covered_bytes_nonneg os : 0 <= covered_bytes os.
Proof.
  induction os as [|x os IH]; simpl; [lia|]. pose proof (dirtySectorCount_nonneg x). unfold SectorSize in *. lia.
Qed.

Lemma dirtySectorCount_le size o o' :
  wf_overlay size o -> wf_overlay size o' -> addressable size ->
  (forall p, is_Some (lookup o' p) -> is_Some (lookup o p)) -> dirtySectorCount o' <= dirtySectorCount o.
Proof.
  intros Hw Hw' Ha Hsub. rewrite !dirtySectorCount_length.
  destruct (dirtyPages_spec size o SectorSize (wf_overlay_tree _ _ Hw) Ha ltac:(done)) as [_ Hm].
  destruct (dirtyPages_spec size o' SectorSize (wf_overlay_tree _ _ Hw') Ha ltac:(done)) as [Hs' Hm'].
  unfold zlen. apply inj_le, submseteq_length, NoDup_submseteq; [by apply sorted_NoDup|].
  intros p (q&?&?)%Hm'. apply Hm. exists q. auto.
Qed.

(** A page a checkpoint republishes has a sector the overlay covers. *)
Lemma pages_le_sectors size o pageSize :
  wf_overlay size o -> addressable size -> 0 < pageSize -> (SectorSize | pageSize) ->
  zlen (dirtyPages o pageSize) <= dirtySectorCount o.
Proof.
  intros Hw Ha Hps [k ->]. rewrite dirtySectorCount_length.
  assert (0 < k) as Hk by (unfold SectorSize in *; lia).
  destruct (dirtyPages_spec size o SectorSize (wf_overlay_tree _ _ Hw) Ha ltac:(done)) as [_ Hm].
  destruct (dirtyPages_spec size o (k * SectorSize) (wf_overlay_tree _ _ Hw) Ha Hps) as [Hs' Hm'].
  assert (zlen (dirtyPages o (k * SectorSize)) <= zlen ((fun s => s / k) <$> dirtyPages o SectorSize)) as Hle.
  { unfold zlen. apply inj_le, submseteq_length, NoDup_submseteq; [by apply sorted_NoDup|].
    intros p (q&<-&Hq)%Hm'. apply list_elem_of_fmap. exists (q / SectorSize). split; [|apply Hm; by exists q].
    rewrite (Z.mul_comm k), Z.div_div by (unfold SectorSize; lia). done. }
  unfold zlen in *. by rewrite length_fmap in Hle.
Qed.

(** ** The count of dirty bytes in a run *)

(** The bytes an operation may add to the count. *)
Definition op_span (o : op) : Z :=
  match o with
  | OWrite _ extents => fold_right (fun e total => sectorSpan (Offset e) (zlen (Data e)) + total) 0 extents
  | ODiscard _ offset length => sectorSpan offset length
  | _ => 0
  end.

Definition ops_span (ops : list op) : Z := fold_right (fun o total => op_span o + total) 0 ops.

(** A handle whose count covers its overlays, and that may take [steps] more
    operations that add [budget] bytes before a counter of 64 bits is full. *)
Record counted (vm : VM Index) (steps budget : Z) : Prop := {
  counted_wf : vm_wf vm;
  counted_sizes i v : volumes vm !! i = Some v -> addressable (size v);
  counted_overlays i v o : volumes vm !! i = Some v -> overlays vm !! i = Some o -> overlay_ok (applied vm) (size v) o;
  counted_steps : applied vm + steps < 2 ^ 64 - 1;
  counted_covered : covered_bytes (overlays vm) <= dirty vm;
  counted_budget : dirty vm + budget < 2 ^ 64;
}.

Lemma counted_weaken vm steps budget steps' budget' :
  counted vm steps budget -> steps' <= steps -> budget' <= budget -> counted vm steps' budget'.
Proof. intros [? ? ? ? ? ?] ? ?. split; try done; lia. Qed.

Lemma counted_same (vm vm' : VM Index) steps budget :
  counted vm steps budget -> same_bytes vm vm' -> dirty vm' = dirty vm -> counted vm' steps budget.
Proof.
  intros [[Wv Wn Wo Wa Wp] Hs Ho Hst Hc Hb] [Sv Svol Sb Si So Sa Sr Sin Sp] Hd.
  split; rewrite ?Svol, ?So, ?Sa, ?Hd; try done. by split; rewrite ?Svol, ?So, ?Sa.
Qed.

Lemma spans_nonneg size cs : Forall (change_ok size) cs -> 0 <= spans cs.
Proof. induction 1 as [|x l Hx _ IH]; simpl; [lia|]. pose proof (sectorSpan_nonneg _ _ Hx). lia. Qed.

Lemma apply_counted vm i v cs steps budget :
  counted vm steps budget -> 0 < steps -> volumes vm !! i = Some v -> Forall (change_ok (size v)) cs ->
  spans cs <= budget -> counted (publishLocked (applyLocked vm i cs)) (steps - 1) (budget - spans cs).
Proof.
  intros [Hw Hs Ho Hst Hc Hb] Hpos Hi Hcs Hsp. pose proof (wf_applied _ Hw).
  assert (wrap64 (applied vm + 1) = applied vm + 1) as Hg by (apply wrap64_small; unfold u64; lia).
  pose proof (applyLocked_wf vm i cs Hw ltac:(lia)) as Hw'.
  destruct (lookup_lt_is_Some_2 (overlays vm) i) as [o Hoi].
  { rewrite (wf_overlays _ Hw). by apply lookup_lt_Some in Hi. }
  pose proof (overlay_ok_weaken _ (applied vm + 1) _ _ (Ho i v o Hi Hoi) ltac:(lia)) as Hok.
  pose proof (covered_bytes_nonneg (overlays vm)).
  pose proof (apply_changes_ok (applied vm + 1) (size v) o (dirty vm) cs Hok Hcs) as (Hok'&_&_).
  destruct (apply_changes_dirty (applied vm + 1) (size v) o (dirty vm) cs Hok (Hs i v Hi) Hcs ltac:(lia) ltac:(lia))
    as [Hd Hle]. revert Hw'.
  unfold applyLocked. rewrite Hoi, Hg. simpl. destruct (fold_left _ _ _) as [o' d']. simpl in *. subst d'. intros Hw'.
  split; simpl; try done; try lia.
  - intros j u oj Hj Hoj. destruct (decide (j = i)) as [->|Hne].
    + rewrite Hi in Hj. injection Hj as <-.
      rewrite list_lookup_insert_eq in Hoj by (by apply lookup_lt_Some in Hoi). by injection Hoj as <-.
    + rewrite list_lookup_insert_ne in Hoj by done. eapply overlay_ok_weaken; [by eapply Ho|lia].
  - rewrite (covered_bytes_insert _ _ o) by done. lia.
Qed.

Lemma retain_covered (vs : list Volume) os through g :
  (forall i v, vs !! i = Some v -> addressable (size v)) ->
  (forall i v o, vs !! i = Some v -> os !! i = Some o -> overlay_ok g (size v) o) -> length os = length vs ->
  covered_bytes (retain_all os through) <= covered_bytes os.
Proof.
  revert vs. induction os as [|o os IH]; intros vs Hs Ho Hlen; simpl; [lia|]. destruct vs as [|v vs]; [done|].
  pose proof (Ho 0%nat v o eq_refl eq_refl) as Hok. pose proof (Hs 0%nat v eq_refl) as Ha.
  destruct (retain_spec (size v) o through (overlay_wf _ _ _ Hok) Ha) as [Hw Hl].
  assert (dirtySectorCount (retain o through) <= dirtySectorCount o).
  { eapply dirtySectorCount_le; [apply Hok|done|done|]. intros p. rewrite Hl. by destruct (lookup o p) as [[]|]. }
  specialize (IH vs (fun i => Hs (S i)) (fun i => Ho (S i)) ltac:(simpl in Hlen; lia)).
  unfold retain_all, SectorSize in *. lia.
Qed.

Lemma dirty_bytes_exact os : covered_bytes os < 2 ^ 64 -> dirty_bytes os = covered_bytes os.
Proof.
  intros Hlt. unfold dirty_bytes.
  assert (forall acc, 0 <= acc -> acc + covered_bytes os < 2 ^ 64 ->
    fold_left (fun dirty overlay => wrap64 (dirty + dirtySectorCount overlay * SectorSize)) os acc = acc + covered_bytes os) as Hfold.
  { clear Hlt. induction os as [|x os IH]; simpl; intros acc Hacc Hlt; [lia|]. pose proof (covered_bytes_nonneg os).
    pose proof (dirtySectorCount_nonneg x). unfold SectorSize in *. rewrite wrap64_small by (unfold u64; lia). rewrite IH; lia. }
  rewrite Hfold; lia.
Qed.

(** An installed checkpoint leaves the count exact. *)
Lemma install_counted vm c index steps budget :
  counted vm steps budget -> 0 <= budget ->
  counted (install vm c index).1 steps budget /\
  dirty (install vm c index).1 = covered_bytes (overlays (install vm c index).1).
Proof.
  intros [Hw Hs Ho Hst Hc Hb] Hpos.
  pose proof (retain_covered (volumes vm) (overlays vm) (position c) (applied vm) Hs Ho (wf_overlays _ Hw)) as Hle.
  assert (dirty_bytes (retain_all (overlays vm) (position c)) = covered_bytes (retain_all (overlays vm) (position c))) as Hd
    by (apply dirty_bytes_exact; lia).
  split; [|exact Hd]. destruct Hw as [Wv Wn Wo Wa Wp]. split; simpl; try done; rewrite ?Hd; try lia.
  - split; simpl; try done. unfold retain_all. by rewrite length_fmap.
  - intros i v o Hi Hoi. unfold retain_all in Hoi. rewrite list_lookup_fmap in Hoi.
    destruct (overlays vm !! i) as [o0|] eqn:E; [|done]. injection Hoi as <-. pose proof (Ho i v o0 Hi E) as Hok.
    split; [by apply retain_spec; [apply Hok|by eapply Hs]|].
    unfold retain. rewrite (all_elements (size v) o0) by (apply Hok || by eapply Hs).
    destruct (retain_fold (position c) (elements o0) Nil I) as [_ He]. rewrite He. simpl.
    apply Forall_forall. intros x [_ Hx]%list_elem_of_filter.
    pose proof (overlay_gens _ _ _ Hok) as Hg. by eapply Forall_forall in Hg.
Qed.

Lemma batch_spans size extents changes total :
  batch size extents = Ok (changes, total) -> spans changes = op_span (OWrite 0 extents).
Proof.
  revert changes total. induction extents as [|e l IH]; simpl; intros changes total Hb; [by injection Hb as <- <-|].
  destruct (negb _); [done|]. destruct (batch size l) as [[cs t]|] eqn:Eb; [|done].
  specialize (IH _ _ eq_refl). destruct (zlen (Data e) =? 0) eqn:Ez; injection Hb as <- <-; simpl in *; [|lia].
  unfold sectorSpan at 1. rewrite Ez. lia.
Qed.

Lemma exec_counted maxWrite (s : system) o s' e steps budget :
  counted (handle s) steps budget -> 0 < steps -> op_ok o -> 0 <= op_span o <= budget ->
  exec maxWrite s o = (s', e) -> counted (handle s') (steps - 1) (budget - op_span o).
Proof.
  intros Hc Hst Hop Hsp He.
  assert (counted (handle s) (steps - 1) (budget - op_span o)) as Hc' by (eapply counted_weaken; [exact Hc|lia|lia]).
  assert (forall vm : VM Index, counted vm (steps - 1) (budget - op_span o) -> counted (publishLocked vm) (steps - 1) (budget - op_span o)) as Hpub.
  { intros vm [[Wv Wn Wo Wa Wp] ? ? ? ? ?]. by split; [split|..]. }
  destruct o as [i extents|i offset length|force|sel rs|]; simpl in He.
  - destruct (volumes (handle s) !! i) as [v|] eqn:Hi; [|by injection He as <- <-].
    unfold WriteBatch, apply in He. destruct (ephemeral v); [by injection He as <- <-|].
    destruct (batch (size v) extents) as [[cs total]|err] eqn:Eb; [|by injection He as <- <-].
    destruct (batch_spec _ _ _ _ Hop Eb) as (Hcs&_). pose proof (batch_spans _ _ _ _ Eb) as Hspan.
    destruct (_ >? _); [by injection He as <- <-|]. destruct (zlen cs =? 0); [by injection He as <- <-|].
    destruct (readyLocked (handle s)); injection He as <- <-; cbn [handle]; [by apply Hpub|].
    change (op_span (OWrite i extents)) with (op_span (OWrite 0 extents)) in *. rewrite <- Hspan in *.
    by eapply apply_counted; [..|lia].
  - destruct (volumes (handle s) !! i) as [v|] eqn:Hi; [|by injection He as <- <-].
    unfold Discard, apply in He. destruct (validRange _ _ _) eqn:Ev; [simpl in He|by injection He as <- <-].
    destruct Hop as [Ho Hl]. unfold validRange in Ev. zbool.
    destruct (length =? 0) eqn:Ez; [by injection He as <- <-|]. destruct (ephemeral v); [by injection He as <- <-|]. zbool.
    destruct (readyLocked (handle s)); injection He as <- <-; cbn [handle]; [by apply Hpub|].
    assert (op_span (ODiscard i offset length) = spans [mkChange offset length None]) as -> by (simpl; lia).
    eapply apply_counted; [done..| |simpl in *; lia]. constructor; [|done]. split_and!; simpl; try done; lia.
  - destruct (pending s); [by injection He as <- <-|].
    destruct (captureLocked (handle s) no_seals force) as [vm' [[c|]|]] eqn:Ec; injection He as <- <-; simpl.
    + destruct (capture_inv _ _ _ _ _ Ec) as (?&_&_&_&_&->). eapply counted_same; [exact Hc'|by split|done].
    + by rewrite (capture_none _ _ _ _ Ec).
    + by rewrite (capture_err _ _ _ _ _ Ec).
  - destruct (pending s) as [c|]; [|by injection He as <- <-]. unfold complete in He.
    destruct (attempts _ _ _ _) as [index|err].
    + injection He as <- <-. destruct (install_counted (handle s) c index _ _ Hc' ltac:(simpl in *; lia)) as [Hi _].
      eapply counted_same; [exact Hi|by split|done].
    + destruct (bool_decide _); injection He as <- <-; (eapply counted_same; [exact Hc'|by split|done]).
  - destruct (pending s); [by injection He as <- <-|]. destruct (Handoff (handle s)) as [vm' err] eqn:Eh.
    injection He as <- <-. eapply counted_same; [exact Hc'|eapply Handoff_same; [apply Hc'|done]|].
    unfold Handoff in Eh. repeat case_match; simplify_eq; done.
Qed.

Lemma op_span_nonneg o : op_ok o -> 0 <= op_span o.
Proof.
  assert (forall offset length, 0 <= offset -> 0 <= length -> 0 <= sectorSpan offset length) as Hs.
  { intros offset length ??. unfold sectorSpan. destruct (length =? 0) eqn:E; zbool; [lia|].
    assert (offset / SectorSize <= (offset + length - 1) / SectorSize) by (apply Z.div_le_mono; [done|lia]).
    unfold SectorSize in *. lia. }
  destruct o as [i extents|i offset length| | |]; simpl; intros Ho; try lia; [|destruct Ho; by apply Hs].
  induction Ho as [|e l He _ IH]; simpl; [lia|]. pose proof (Hs _ _ He (zlen_nonneg (Data e))). lia.
Qed.

Lemma exec_all_counted maxWrite ops (s : system) imgs :
  Forall op_ok ops -> counted (handle s) (zlen ops) (ops_span ops) ->
  counted (handle (exec_all maxWrite s imgs ops).1) 0 0 /\
  volumes (handle (exec_all maxWrite s imgs ops).1) = volumes (handle s).
Proof.
  intros Hops. revert s imgs. induction Hops as [|o ops Ho Hops IH]; intros s imgs Hc; simpl in *; [done|].
  rewrite zlen_cons in Hc. pose proof (zlen_nonneg ops). pose proof (op_span_nonneg o Ho).
  assert (0 <= ops_span ops) by (clear -Hops; induction Hops as [|x l Hx _ IH]; simpl; [lia|]; pose proof (op_span_nonneg x Hx); lia).
  destruct (exec maxWrite s o) as [s1 e] eqn:He. rewrite <- (exec_volumes _ _ _ _ _ He). apply IH.
  eapply counted_weaken; [eapply exec_counted; [exact Hc|lia|done|lia|exact He]|lia|lia].
Qed.

(** The pages of the overlays the next checkpoint republishes, and their bytes. *)
Definition published_pages (vm : VM Index) : Z :=
  fold_right (fun x total => zlen (changedPages x.2 None (PageSize (geometry x.1))) + total) 0 (zip (volumes vm) (overlays vm)).

Definition published_bytes (vm : VM Index) : Z :=
  fold_right (fun x total => zlen (changedPages x.2 None (PageSize (geometry x.1))) * PageSize (geometry x.1) + total) 0
    (zip (volumes vm) (overlays vm)).

Lemma published_le (vs : list Volume) os g k :
  1 <= k ->
  (forall i v, vs !! i = Some v ->
     addressable (size v) /\ 0 < PageSize (geometry v) <= k * SectorSize /\ (SectorSize | PageSize (geometry v))) ->
  (forall i v o, vs !! i = Some v -> os !! i = Some o -> overlay_ok g (size v) o) ->
  fold_right (fun x total => zlen (changedPages x.2 None (PageSize (geometry x.1))) + total) 0 (zip vs os) * SectorSize
    <= covered_bytes os /\
  fold_right (fun x total => zlen (changedPages x.2 None (PageSize (geometry x.1))) * PageSize (geometry x.1) + total) 0 (zip vs os)
    <= k * covered_bytes os.
Proof.
  intros Hk. revert vs. induction os as [|o os IH]; intros vs Hv Ho; [destruct vs; simpl; lia|].
  pose proof (covered_bytes_nonneg (o :: os)). destruct vs as [|v vs]; [cbn [zip zip_with fold_right]; nia|].
  destruct (IH vs (fun i => Hv (S i)) (fun i => Ho (S i))) as [IH1 IH2].
  destruct (Hv 0%nat v eq_refl) as (Ha&Hp&Hdiv). pose proof (Ho 0%nat v o eq_refl eq_refl) as Hok.
  pose proof (pages_le_sectors (size v) o (PageSize (geometry v)) (overlay_wf _ _ _ Hok) Ha ltac:(lia) Hdiv) as Hpages.
  cbn [zip zip_with fold_right fst snd covered_bytes]. fold (covered_bytes os). unfold changedPages at 1 3.
  pose proof (zlen_nonneg (dirtyPages o (PageSize (geometry v)))). unfold SectorSize in *. split; nia.
Qed.

Lemma published_none (vm : VM Index) : published_pages vm * SectorSize <= 0 -> published_pages vm = 0.
Proof.
  assert (0 <= published_pages vm).
  { unfold published_pages. induction (zip (volumes vm) (overlays vm)) as [|x l IH]; simpl; [lia|].
    pose proof (zlen_nonneg (changedPages x.2 None (PageSize (geometry x.1)))). simpl in *. lia. }
  unfold SectorSize. lia.
Qed.

Lemma covered_none vm steps budget i o p :
  counted vm steps budget -> covered_bytes (overlays vm) <= 0 -> overlays vm !! i = Some o -> lookup o p = None.
Proof.
  intros [Hw Hs Hok _ _ _] Hz Ho. apply eq_None_not_Some. intros Hsome.
  destruct (lookup_lt_is_Some_2 (volumes vm) i) as [v Hi]; [rewrite <- (wf_overlays _ Hw); by apply lookup_lt_Some in Ho|].
  assert (dirtySectorCount o * SectorSize <= covered_bytes (overlays vm)) as Hle.
  { clear -Ho. revert i Ho. induction (overlays vm) as [|x os IH]; intros [|i] Ho; simpl in *; try done.
    - injection Ho as ->. pose proof (covered_bytes_nonneg os). lia.
    - specialize (IH i Ho). pose proof (dirtySectorCount_nonneg x). unfold SectorSize in *. lia. }
  rewrite dirtySectorCount_length in Hle. unfold SectorSize in Hle at 2.
  destruct (dirtyPages_spec (size v) o SectorSize (wf_overlay_tree _ _ (overlay_wf _ _ _ (Hok i v o Hi Ho))) (Hs i v Hi) ltac:(done)) as [_ Hm].
  assert (p / SectorSize ∈ dirtyPages o SectorSize) as Hin by (apply Hm; by exists p).
  destruct (dirtyPages o SectorSize) as [|x l]; [by apply elem_of_nil in Hin|].
  rewrite zlen_cons in Hle. pose proof (zlen_nonneg l). lia.
Qed.

(** C33: [DirtyBytes] counts every sector of 4 KiB the overlays cover, in any
    run of the handle whose counters do not fill: the pages of the overlays the
    next checkpoint republishes are no more than the sectors counted, so the
    bytes it republishes of them are at most [DirtyBytes] where pages are of
    4 KiB, and at most [k] times it where they are of [k] sectors; and when
    nothing is counted the overlays hold nothing, so a checkpoint that is
    skipped loses nothing. *)
Theorem dirty_bounds_the_next_checkpoint maxWrite (s : system) imgs ops k :
  counted (handle s) (zlen ops) (ops_span ops) -> Forall op_ok ops -> 1 <= k ->
  Forall (fun v => PageSize (geometry v) <= k * SectorSize /\ (SectorSize | PageSize (geometry v))) (volumes (handle s)) ->
  let vm := handle (exec_all maxWrite s imgs ops).1 in
  published_pages vm * SectorSize <= dirty vm /\
  published_bytes vm <= k * dirty vm /\
  (dirty vm = 0 -> published_pages vm = 0 /\ forall i o p, overlays vm !! i = Some o -> lookup o p = None).
Proof.
  intros Hc Hops Hk Hv vm. destruct (exec_all_counted maxWrite ops s imgs Hops Hc) as [Hc' Hvol].
  fold vm in Hc', Hvol. pose proof (counted_covered _ _ _ Hc') as Hcov.
  rewrite Forall_lookup in Hv.
  destruct (published_le (volumes vm) (overlays vm) (applied vm) k Hk) as [H1 H2].
  { intros i v Hi. split_and!; [by eapply (counted_sizes _ _ _ Hc')|by eapply (wf_pages _ (counted_wf _ _ _ Hc'))|..];
      rewrite Hvol in Hi; by destruct (Hv i v Hi). }
  { exact (counted_overlays _ _ _ Hc'). }
  fold (published_pages vm) in H1. fold (published_bytes vm) in H2.
  split_and!; [lia|nia|]. intros Hz. split; [by apply published_none; unfold SectorSize in *; lia|].
  intros i o p Hi. eapply covered_none; [exact Hc'|lia|done].
Qed.

End Safety.

(** ** A store that reads a committed page from its publication's source *)

Fixpoint gather (f : Z -> result verror (list byte)) (l : list Z) : result verror (list byte) :=
  match l with
  | [] => Ok []
  | p :: l => let? b := f p in let? r := gather f l in Ok (b ++ r)
  end.

#[export] Instance flat_store : PageStore source := {
  index_read s := s;
  Commit parent pageSize dirty src := Ok (fun name off len =>
    gather (fun p => if bool_decide (p / pageSize name ∈ dirty name) then src name p 1 else parent name p 1) (seqZ off len));
}.

Lemma gather_image f (img : Z -> byte) l :
  (forall p, p ∈ l -> f p = Ok [img p]) -> gather f l = Ok (img <$> l).
Proof.
  induction l as [|p l IH]; intros Hf; simpl; [done|]. rewrite Hf by left.
  rewrite IH; [done|]. intros q ?. apply Hf. by right.
Qed.

#[export] Instance flat_laws : PageStoreLaws source.
Proof.
  split. intros parent pageSize dirty src index name size img img' [= <-] _ Hp Hs off len ???. simpl.
  apply gather_image. intros p Hpr%elem_of_seqZ.
  destruct (bool_decide _); [rewrite Hs by lia|rewrite Hp by lia]; by rewrite seqZ_cons, seqZ_nil by lia.
Qed.

Definition zero_source : source := fun _ _ len => Ok (zeros len).

Lemma zero_gives name size : gives (zero_source name) size (fun _ => Byte.x00).
Proof.
  intros off len ???. unfold zero_source. f_equal. apply list_eq_zget.
  - rewrite zlen_zeros, zlen_image; lia.
  - intros i Hi. rewrite zlen_zeros in Hi by lia. rewrite zget_zeros, zget_image by lia. done.
Qed.

Definition disk : Volume := mkVolume "disk" 16384 (mkGeometry 4096 16384) false.

Definition fresh_vm : VM source :=
  publishLocked (mkVM "vm-1" 5 [disk] (mkView zero_source [] (mkPublisher 0 Control.zeroRef Control.zeroRef) None)
    zero_source (Some zero_source) None [Nil] (Control.mkRef "vm-1" (Control.Sequence 5 1)) (Control.Sequence 5 2)
    0 Control.zeroRef 0 0 false None false None false false (fun _ => []) None).

Definition blank : Z -> byte := fun _ => Byte.x00.

Lemma fresh_wf : vm_wf fresh_vm.
Proof.
  split; try done; [by repeat constructor; set_solver|]. intros [|[]] v Hv; simpl in Hv; try done.
  injection Hv as <-. simpl. lia.
Qed.

Lemma fresh_stands : stands fresh_vm 0 disk blank blank.
Proof.
  split; [|apply zero_gives|split; [simpl; lia|unfold addressable; simpl; lia]].
  exists Nil. split_and!; [done|apply overlay_ok_nil; simpl; lia|done].
Qed.

Lemma fresh_backed : backed fresh_vm disk blank.
Proof. intros index [= <-]. exists blank. split; [apply zero_gives|done]. Qed.

Lemma fresh_ok budget : budget < 1000 -> system_ok (mkSystem fresh_vm None) (fun _ => blank) budget.
Proof.
  intros. split; simpl; [apply fresh_wf|lia|done|]. intros [|[]] v Hv _; simpl in Hv; try done. injection Hv as <-.
  exists blank. split_and!; [apply fresh_stands|apply fresh_backed|done].
Qed.

Definition sample_ops : list op :=
  [OWrite 0 [mkWriteExtent 4094 [Byte.x01; Byte.x02; Byte.x03]]; OCapture false; ODiscard 0 4095 1;
   OWrite 0 [mkWriteExtent 0 [Byte.x07]]; OComplete None []; OCapture false; OComplete (Some ErrOutside) [None]].

Definition sample_run := exec_all 1000 (mkSystem fresh_vm None) (fun _ => blank) sample_ops.
Definition sample_end := exec_all 1000 (mkSystem fresh_vm None) (fun _ => blank) (sample_ops ++ [OHandoff]).

(** The bytes after the run, and the answer once the VM is handed off. *)
Lemma vm_refines_bytes_witness :
  Read None (handle sample_run.1) 0 disk 4094 (zeros 4) = Ok [Byte.x01; Byte.x00; Byte.x03; Byte.x00] /\
  Read None (handle sample_end.1) 0 disk 4094 (zeros 4) = Err ErrHandedOff.
Proof.
  split.
  - pose proof (vm_refines_bytes 1000 (mkSystem fresh_vm None) (fun _ => blank) sample_ops 0 disk 4094 (zeros 4)
      (fresh_ok (zlen sample_ops) eq_refl) ltac:(repeat constructor; simpl; lia) eq_refl eq_refl ltac:(lia) eq_refl) as Hr.
    fold sample_run in Hr.
    assert (readyLocked (handle sample_run.1) = None /\
      sample_run.2 0%nat <$> seqZ 4094 (zlen (zeros 4)) = [Byte.x01; Byte.x00; Byte.x03; Byte.x00]) as [Hready Himg]
      by (vm_compute; done).
    destruct sample_run as [s' imgs']. simpl in *. rewrite Hready, Himg in Hr. exact Hr.
  - pose proof (vm_refines_bytes 1000 (mkSystem fresh_vm None) (fun _ => blank) (sample_ops ++ [OHandoff]) 0 disk 4094 (zeros 4)
      (fresh_ok (zlen (sample_ops ++ [OHandoff])) eq_refl) ltac:(repeat constructor; simpl; lia) eq_refl eq_refl ltac:(lia) eq_refl) as Hr.
    fold sample_end in Hr.
    assert (readyLocked (handle sample_end.1) = Some ErrHandedOff) as Hready by (vm_compute; done).
    destruct sample_end as [s' imgs']. simpl in *. rewrite Hready in Hr. exact Hr.
Defined.

(** A page of the disk a pager sealed, under a write and over nothing. *)
Definition sample_seal : gmap string DirtySource :=
  {["disk"%string := mkDirtySource [1] (fun n => Ok ((fun _ => Byte.xaa) <$> seqZ (n * 4096) 4096))]}.

Definition sample_capture := captureLocked fresh_vm sample_seal true.
Definition sample_checkpoint : Checkpoint source :=
  match sample_capture.2 with Ok (Some c) => c | _ => mkCheckpoint Control.zeroRef zero_source zero_source ∅ ∅ (fun _ => []) 0 end.
Definition sample_later : VM source :=
  apply_batches sample_capture.1 0 [[mkChange 4098 1 (Some [Byte.x05])]].
Definition sample_index : source :=
  match publish sample_later sample_checkpoint None with Ok index => index | Err _ => zero_source end.

Lemma installed_checkpoint_reads_witness :
  exists img, Read None (install sample_later sample_checkpoint sample_index).1 0 disk 4094 (zeros 6) =
    Ok (img <$> seqZ 4094 6) /\
  img <$> seqZ 4094 6 = [Byte.x00; Byte.x00; Byte.xaa; Byte.xaa; Byte.x05; Byte.xaa].
Proof.
  destruct (installed_checkpoint_reads fresh_vm sample_seal true sample_capture.1 sample_checkpoint 0 disk blank blank
    (fun _ => Byte.xaa) [[mkChange 4098 1 (Some [Byte.x05])]] sample_index 4094 (zeros 6)) as (o&Ho&Hr).
  - exact fresh_wf.
  - reflexivity.
  - reflexivity.
  - exact fresh_stands.
  - exact fresh_backed.
  - intros src Hsrc. injection Hsrc as <-. intros n _. reflexivity.
  - reflexivity.
  - repeat constructor; simpl; lia.
  - vm_compute. reflexivity.
  - reflexivity.
  - lia.
  - reflexivity.
  - injection Ho as <-. eexists. split; [exact Hr|]. vm_compute. reflexivity.
Defined.

(** The first publication fails and burns its sequence; the second capture
    takes the next one. *)
Definition after_failure : system := (exec_all 1000 (mkSystem sample_capture.1 (Some sample_checkpoint)) (fun _ => blank)
  [OComplete (Some ErrOutside) []]).1.

Lemma captures_never_share_a_reference_witness :
  Control.Seq (ref sample_checkpoint) = Control.Sequence 5 2 /\
  exists vm2 c', captureLocked (handle after_failure) no_seals true = (vm2, Ok (Some c')) /\
    Control.Seq (ref sample_checkpoint) < Control.Seq (ref c').
Proof.
  split; [reflexivity|].
  assert (match (captureLocked (handle after_failure) no_seals true).2 with Ok (Some _) => true | _ => false end = true)
    as Hok by (vm_compute; reflexivity).
  destruct (captureLocked (handle after_failure) no_seals true) as [vm2 [[c'|]|e]] eqn:E;
    [|discriminate Hok|discriminate Hok].
  exists vm2, c'. split; [reflexivity|].
  exact (proj2 (proj2 (captures_never_share_a_reference 1000 fresh_vm sample_seal true sample_capture.1 sample_checkpoint
    [OComplete (Some ErrOutside) []] (fun _ => blank) no_seals true vm2 c' eq_refl E))).
Defined.

Lemma fresh_counted steps budget : steps < 1000 -> budget < 2 ^ 40 -> counted fresh_vm steps budget.
Proof.
  intros ??. split; simpl; try done; try lia; [apply fresh_wf| |].
  - intros [|[]] v Hv; simpl in Hv; try done. injection Hv as <-. unfold addressable. simpl. lia.
  - intros [|[]] v o Hv Ho; simpl in Hv, Ho; try done. injection Hv as <-. injection Ho as <-.
    apply overlay_ok_nil. simpl. lia.
Qed.

(** A write of two bytes across a sector boundary, then nothing left to count. *)
Lemma dirty_bounds_the_next_checkpoint_witness :
  let vm := handle (exec_all 1000 (mkSystem fresh_vm None) (fun _ => blank) [ODiscard 0 4095 2]).1 in
  let vm' := handle sample_run.1 in
  dirty vm = 8192 /\ published_pages vm * SectorSize <= 8192 /\ published_bytes vm <= 1 * 8192 /\
  published_pages vm' = 0.
Proof.
  assert (Forall (fun v => PageSize (geometry v) <= 1 * SectorSize /\ (SectorSize | PageSize (geometry v))) (volumes fresh_vm)) as Hv.
  { repeat constructor; simpl; [done|]. by exists 1. }
  pose proof (dirty_bounds_the_next_checkpoint 1000 (mkSystem fresh_vm None) (fun _ => blank) [ODiscard 0 4095 2] 1
    (fresh_counted 1 8192 eq_refl eq_refl) ltac:(repeat constructor; simpl; lia) ltac:(lia) Hv) as (Hp&Hb&_).
  pose proof (dirty_bounds_the_next_checkpoint 1000 (mkSystem fresh_vm None) (fun _ => blank) sample_ops 1
    (fresh_counted (zlen sample_ops) (ops_span sample_ops) eq_refl eq_refl) ltac:(repeat constructor; simpl; lia) ltac:(lia) Hv) as (_&_&Hz).
  split; [reflexivity|]. split; [exact Hp|]. split; [exact Hb|]. apply Hz. vm_compute. reflexivity.
Defined.

(** One byte written to a volume of 2 MiB pages counts 4 KiB and republishes
    2 MiB. *)
Definition large_page_vm : VM source :=
  publishLocked (mkVM "vm-1" 5 [mkVolume "disk" PageSize2MiB (mkGeometry PageSize2MiB 512) false]
    (mkView zero_source [] (mkPublisher 0 Control.zeroRef Control.zeroRef) None)
    zero_source (Some zero_source) None [Nil] (Control.mkRef "vm-1" (Control.Sequence 5 1)) (Control.Sequence 5 2)
    0 Control.zeroRef 0 0 false None false None false false (fun _ => []) None).

Lemma one_byte_republishes_a_large_page :
  let vm := handle (exec_all 1000 (mkSystem large_page_vm None) (fun _ => blank) [OWrite 0 [mkWriteExtent 7 [Byte.x01]]]).1 in
  dirty vm = 4096 /\ published_bytes vm = 2097152.
Proof. split; vm_compute; reflexivity. Qed.

End VolumeSafety.
