(* ===== verification/Bytes.v ===== *)
(** * Little-endian integers and fields

    What the format code uses of [encoding/binary]: a fixed-width little-endian
    integer and its reading back, and a buffer as the concatenation of its
    fields, from which a slice at a field's offset is that field. *)

From S2P Require Import Prelude.
From Stdlib Require Strings.Byte.

Definition byteZ (b : byte) : Z := Z.of_N (Byte.to_N b).

Definition Zbyte (z : Z) : byte := default Byte.x00 (Byte.of_N (Z.to_N (z mod 256))).

(** [binary.LittleEndian.AppendUint16], [AppendUint32], [AppendUint64]: the low
    [n] bytes of [z], least significant first. *)
Fixpoint put_le (n : nat) (z : Z) : list byte :=
  match n with O => [] | S n => Zbyte z :: put_le n (z / 256) end.

(** [binary.LittleEndian.Uint16], [Uint32], [Uint64] of a slice of that many
    bytes. *)
Fixpoint get_le (b : list byte) : Z :=
  match b with [] => 0 | x :: b => byteZ x + 256 * get_le b end.

Definition Uint16 (b : list byte) (at_ : Z) : Z := get_le (slice b at_ (at_ + 2)).
Definition Uint32 (b : list byte) (at_ : Z) : Z := get_le (slice b at_ (at_ + 4)).
Definition Uint64 (b : list byte) (at_ : Z) : Z := get_le (slice b at_ (at_ + 8)).

Lemma byteZ_range b : 0 <= byteZ b < 256.
Proof. unfold byteZ. pose proof (Byte.to_N_bounded b). lia. Qed.

Lemma byteZ_Zbyte z : byteZ (Zbyte z) = z mod 256.
Proof.
  unfold byteZ, Zbyte. pose proof (Z.mod_pos_bound z 256 ltac:(lia)).
  destruct (Byte.of_N (Z.to_N (z mod 256))) as [b|] eqn:E.
  - apply Byte.to_of_N in E. simpl. rewrite E. lia.
  - apply Byte.of_N_None_iff in E. lia.
Qed.

Lemma zlen_put_le n z : zlen (put_le n z) = Z.of_nat n.
Proof. revert z. induction n as [|n IH]; intros z; [done|]. simpl put_le. rewrite zlen_cons, IH. lia. Qed.

Lemma get_put_le n z : 0 <= z < 256 ^ Z.of_nat n -> get_le (put_le n z) = z.
Proof.
  revert z. induction n as [|n IH]; intros z Hz; [simpl in *; lia|].
  simpl. rewrite byteZ_Zbyte, IH.
  - pose proof (Z.div_mod z 256 ltac:(lia)). lia.
  - rewrite Nat2Z.inj_succ, Z.pow_succ_r in Hz by lia. split; [apply Z.div_pos; lia|].
    apply Z.div_lt_upper_bound; lia.
Qed.

Lemma get_le_range b : 0 <= get_le b < 256 ^ zlen b.
Proof.
  induction b as [|x b IH]; [unfold zlen; simpl; lia|]. rewrite zlen_cons. simpl get_le.
  rewrite Z.pow_add_r by (pose proof (zlen_nonneg b); lia). pose proof (byteZ_range x). lia.
Qed.

(** ** Fields *)

Lemma slice_app_mid {A} (a x c : list A) i j :
  zlen a = i -> j = i + zlen x -> slice (a ++ x ++ c) i j = x.
Proof.
  intros <- ->. unfold slice, zlen. rewrite Nat2Z.id, drop_app_length.
  replace (Z.to_nat _) with (length x) by lia. apply take_app_length.
Qed.

(** The field [k] of a concatenation, at its offset. *)
Lemma slice_field {A} (fs : list (list A)) k x i j :
  fs !! k = Some x -> zlen (concat (take k fs)) = i -> j = i + zlen x -> slice (concat fs) i j = x.
Proof.
  intros Hk Hi Hj. rewrite <- (take_drop_middle fs k x Hk), concat_app. simpl. by apply slice_app_mid.
Qed.

Lemma zget_field {A} (fs : list (list A)) k x i o :
  fs !! k = Some x -> zlen (concat (take k fs)) = i -> 0 <= o < zlen x -> zget (concat fs) (i + o) = zget x o.
Proof.
  intros Hk Hi Ho. rewrite <- (take_drop_middle fs k x Hk), concat_app. simpl.
  rewrite zget_app. zcases; [lia|]. rewrite zget_app. zcases; [f_equal; lia|lia].
Qed.

Lemma slice_all {A} (l : list A) j : j = zlen l -> slice l 0 j = l.
Proof. intros ->. unfold slice, zlen. rewrite Z.sub_0_r, Nat2Z.id. simpl. by rewrite drop_0, firstn_all. Qed.

Lemma slice_prefix {A} (a b : list A) j : j = zlen a -> slice (a ++ b) 0 j = a.
Proof. intros ->. apply (slice_app_mid [] a b); unfold zlen; simpl; lia. Qed.

Lemma slice_suffix {A} (a b : list A) i j : i = zlen a -> j = i + zlen b -> slice (a ++ b) i j = b.
Proof. intros -> ->. rewrite <- (app_nil_r b) at 1. by apply slice_app_mid. Qed.

Lemma slice_app_l {A} (a b : list A) i j : 0 <= i -> j <= zlen a -> slice (a ++ b) i j = slice a i j.
Proof.
  intros ??. unfold slice, zlen in *. destruct (decide (i <= j)) as [?|?].
  - rewrite drop_app_le by lia. apply take_app_le. rewrite length_drop. lia.
  - by replace (Z.to_nat (j - i)) with 0%nat by lia.
Qed.

Lemma zget_app_l {A} (a b : list A) i : i < zlen a -> zget (a ++ b) i = zget a i.
Proof. intros ?. rewrite zget_app. zcases; [done|lia]. Qed.

(** A slice of a slice. *)
Lemma slice_slice {A} (l : list A) i j a b :
  0 <= i -> 0 <= a -> b <= j - i -> slice (slice l i j) a b = slice l (i + a) (i + b).
Proof.
  intros. unfold slice.
  destruct (decide (a <= b)) as [?|?].
  - rewrite skipn_firstn_comm, take_take, drop_drop. f_equal; [lia|f_equal; lia].
  - replace (Z.to_nat (b - a)) with 0%nat by lia. replace (Z.to_nat (i + b - (i + a))) with 0%nat by lia. done.
Qed.

#[global] Arguments put_le : simpl never.
#[global] Arguments zeros : simpl never.
#[global] Arguments zlen : simpl never.

#[export] Hint Rewrite @zlen_app @zlen_cons @zlen_put_le : zlen.

Lemma zlen_nil {A} : zlen (@nil A) = 0.
Proof. done. Qed.
#[export] Hint Rewrite @zlen_nil : zlen.
#[export] Hint Rewrite zlen_zeros using lia : zlen.

(** The length of a concatenation of fields of known lengths. *)
Ltac flen := simpl; autorewrite with zlen; try lia; try reflexivity.

(** The field [k], at offset [i], of a concatenation. *)
Ltac field k i := erewrite (slice_field _ k _ i); [|reflexivity|flen|flen].
