(* ===== verification/Order.v ===== *)
(** * Orders, stable sorts and binary search

    What the cluster code uses of Go's [bytes], [slices] and [cmp]: the order of
    byte strings, a stable sort by a comparison, and a binary search, with the
    facts that a sort is a permutation, that a sorted list is determined by its
    elements, and that the search finds what a scan would. *)

From S2P Require Import Prelude Bytes.

(** ** [bytes.Compare] *)

Fixpoint bytes_compare (a b : list byte) : comparison :=
  match a, b with
  | [], [] => Eq
  | [], _ :: _ => Lt
  | _ :: _, [] => Gt
  | x :: a, y :: b => match byteZ x ?= byteZ y with Eq => bytes_compare a b | c => c end
  end.

(** A comparison that orders what satisfies [P]: total, and transitive. *)
Class Ordering {A} (P : A -> Prop) (cmp : A -> A -> comparison) : Prop := {
  cmp_antisym x y : P x -> P y -> cmp y x = CompOpp (cmp x y);
  cmp_trans x y z : P x -> P y -> P z -> cmp x y <> Gt -> cmp y z <> Gt -> cmp x z <> Gt;
}.

Lemma byteZ_inj x y : byteZ x = byteZ y -> x = y.
Proof.
  unfold byteZ. intros E%N2Z.inj. pose proof (Byte.of_to_N x) as Hx. pose proof (Byte.of_to_N y) as Hy.
  rewrite E, Hy in Hx. by injection Hx.
Qed.

Lemma bytes_compare_eq a b : bytes_compare a b = Eq <-> a = b.
Proof.
  split; [|intros ->; induction b as [|y b IH]; simpl; [done|by rewrite Z.compare_refl]].
  revert b. induction a as [|x a IH]; intros [|y b]; simpl; try done.
  destruct (byteZ x ?= byteZ y) eqn:E; try done. apply Z.compare_eq_iff, byteZ_inj in E as ->. intros Hc. by rewrite (IH b).
Qed.

#[export] Instance bytes_compare_ordering : Ordering (fun _ => True) bytes_compare.
Proof.
  split.
  - intros a b _ _. revert b. induction a as [|x a IH]; intros [|y b]; simpl; try done.
    rewrite Z.compare_antisym. destruct (byteZ x ?= byteZ y); simpl; auto.
  - intros a b c _ _ _. revert b c. induction a as [|x a IH]; intros [|y b] [|z c]; simpl; try done.
    destruct (Z.compare_spec (byteZ x) (byteZ y)) as [Hxy|Hxy|Hxy], (Z.compare_spec (byteZ y) (byteZ z)) as [Hyz|Hyz|Hyz];
      intros H1 H2; try done; destruct (Z.compare_spec (byteZ x) (byteZ z)); try lia; try done. by apply (IH b).
Qed.

(** The order of records by a byte string of theirs. *)
Definition by_key {A} (key : A -> list byte) (x y : A) : comparison := bytes_compare (key x) (key y).

#[export] Instance by_key_ordering {A} (key : A -> list byte) : Ordering (fun _ => True) (by_key key).
Proof.
  split; unfold by_key; intros *; intros; [by apply (cmp_antisym (cmp := bytes_compare))|].
  by apply (cmp_trans (cmp := bytes_compare) (key x) (key y) (key z)).
Qed.

Section Order.
Context {A : Type} (cmp : A -> A -> comparison).

(** ** [slices.SortStableFunc]: equal elements keep their order *)

Fixpoint insert_by (x : A) (l : list A) : list A :=
  match l with
  | [] => [x]
  | y :: l' => match cmp x y with Gt => y :: insert_by x l' | _ => x :: l end
  end.

Definition sort_by (l : list A) : list A := fold_right insert_by [] l.

Lemma insert_by_perm x l : insert_by x l ≡ₚ x :: l.
Proof.
  induction l as [|y l IH]; simpl; [done|]. destruct (cmp x y); [done|done|]. rewrite IH. apply Permutation_swap.
Qed.

Lemma sort_by_perm l : sort_by l ≡ₚ l.
Proof. induction l as [|x l IH]; simpl; [done|]. by rewrite insert_by_perm, IH. Qed.

Definition ordered (l : list A) : Prop := StronglySorted (fun x y => cmp x y <> Gt) l.

Lemma insert_by_noop x l : StronglySorted (fun x y => cmp x y <> Gt) (x :: l) -> insert_by x l = x :: l.
Proof. intros Hs. destruct l as [|y l]; [done|]. simpl. apply StronglySorted_inv in Hs as [_ Hf]. inversion Hf. by destruct (cmp x y). Qed.

Lemma sort_by_noop l : ordered l -> sort_by l = l.
Proof.
  induction l as [|x l IH]; intros Hs; [done|]. simpl. rewrite IH; [by apply insert_by_noop|].
  by apply StronglySorted_inv in Hs as [? _].
Qed.

Context {P : A -> Prop} `{!Ordering P cmp}.

Lemma cmp_refl x : P x -> cmp x x = Eq.
Proof. intros Hx. pose proof (cmp_antisym x x Hx Hx). by destruct (cmp x x). Qed.

Lemma cmp_gt x y : P x -> P y -> cmp x y = Gt -> cmp y x <> Gt.
Proof. intros Hx Hy E. by rewrite (cmp_antisym x y Hx Hy), E. Qed.

Lemma insert_by_ordered x l : P x -> Forall P l -> ordered l -> ordered (insert_by x l).
Proof.
  intros Hx Hl. induction Hl as [|y l Hy Hl IH]; intros Hs; simpl; [repeat constructor|].
  pose proof (StronglySorted_inv Hs) as [Hs' Hf].
  destruct (cmp x y) eqn:E.
  1,2: constructor; [done|]; constructor; [by rewrite E|]; apply Forall_forall; intros z Hz;
    eapply Forall_forall in Hf; [|exact Hz]; eapply Forall_forall in Hl; [|exact Hz];
    apply (cmp_trans x y z); try done; by rewrite E.
  constructor; [by apply IH|]. rewrite insert_by_perm. constructor; [by apply cmp_gt|done].
Qed.

Lemma sort_by_ordered l : Forall P l -> ordered (sort_by l).
Proof.
  induction 1 as [|x l Hx Hl IH]; simpl; [constructor|]. apply insert_by_ordered; [done| |done]. by rewrite sort_by_perm.
Qed.

(** A sorted list of elements no two of which compare equal is determined by
    them. *)
Lemma ordered_unique l k :
  Forall P l -> ordered l -> ordered k -> l ≡ₚ k -> (forall x y, x ∈ l -> y ∈ l -> cmp x y = Eq -> x = y) -> l = k.
Proof.
  intros HP. revert k. induction HP as [|x l Hx HP IH]; intros k Hl Hk Hp Heq; [by apply Permutation_nil_l in Hp|].
  destruct k as [|y k]; [by apply Permutation_nil_r in Hp|].
  apply StronglySorted_inv in Hl as [Hl Hfx]. apply StronglySorted_inv in Hk as [Hk Hfy].
  assert (x = y) as ->.
  { assert (x ∈ y :: k) as Hxk by (rewrite <- Hp; by left). assert (y ∈ x :: l) as Hy by (rewrite Hp; by left).
    apply elem_of_cons in Hxk as [?|Hxk]; [done|]. apply elem_of_cons in Hy as [?|Hy]; [done|].
    eapply Forall_forall in Hfx; [|exact Hy]. eapply Forall_forall in Hfy; [|exact Hxk]. eapply Forall_forall in HP; [|exact Hy].
    apply Heq; [by left|by right|]. pose proof (cmp_antisym x y Hx HP) as E. destruct (cmp x y); [done| |done].
    by rewrite E in Hfy. }
  f_equal. apply IH; [done|done|by apply Permutation_cons_inv in Hp|]. intros a b Ha Hb. apply Heq; by right.
Qed.

Lemma ordered_filter (Q : A -> Prop) `{!forall x, Decision (Q x)} l : ordered l -> ordered (filter Q l).
Proof.
  induction 1 as [|x l Hs IH Hf]; [constructor|]. rewrite filter_cons. case_decide; [|done]. constructor; [done|].
  apply Forall_forall. intros y Hy. apply list_elem_of_filter in Hy as [_ Hy]. by eapply Forall_forall in Hf.
Qed.

(** Sorting what is left of a list keeps the order of the rest. *)
Lemma sort_by_filter (Q : A -> Prop) `{!forall x, Decision (Q x)} l :
  Forall P l -> (forall x y, x ∈ l -> y ∈ l -> cmp x y = Eq -> x = y) -> sort_by (filter Q l) = filter Q (sort_by l).
Proof.
  intros HP Heq. assert (Forall P (filter Q l)) as HQ.
  { apply Forall_forall. intros x Hx. apply list_elem_of_filter in Hx as [_ Hx]. by eapply Forall_forall in HP. }
  apply ordered_unique.
  - by rewrite sort_by_perm.
  - by apply sort_by_ordered.
  - by apply ordered_filter, sort_by_ordered.
  - by rewrite !sort_by_perm.
  - intros x y Hx Hy. rewrite sort_by_perm in Hx, Hy. apply list_elem_of_filter in Hx as [_ Hx], Hy as [_ Hy]. by apply Heq.
Qed.

Lemma sort_by_unique l k :
  Forall P l -> l ≡ₚ k -> (forall x y, x ∈ l -> y ∈ l -> cmp x y = Eq -> x = y) -> sort_by l = sort_by k.
Proof.
  intros HP Hp Heq. apply ordered_unique; [by rewrite sort_by_perm|by apply sort_by_ordered| |by rewrite !sort_by_perm|].
  - apply sort_by_ordered. by rewrite <- Hp.
  - intros x y Hx Hy. rewrite sort_by_perm in Hx, Hy. by apply Heq.
Qed.

End Order.

(** Lists whose elements correspond sort alike. *)
Lemma sort_by_Forall2 {A B} (cmp : A -> A -> comparison) (cmp' : B -> B -> comparison) (R : A -> B -> Prop) l k :
  (forall x y x' y', R x x' -> R y y' -> cmp x y = cmp' x' y') -> Forall2 R l k -> Forall2 R (sort_by cmp l) (sort_by cmp' k).
Proof.
  intros Hc. induction 1 as [|x y l k Hxy _ IH]; simpl; [constructor|].
  induction IH as [|u v l' k' Huv Hl IH']; simpl; [by repeat constructor|].
  rewrite (Hc x u y v) by done. destruct (cmp' y v); repeat constructor; done.
Qed.


(** ** [slices.BinarySearchFunc]

    [f x] compares [x] with the target. *)

Section Search.
Context {A : Type} (f : A -> comparison).

Fixpoint search (fuel : nat) (l : list A) (i j : nat) : nat :=
  match fuel with
  | O => i
  | S fuel =>
    if bool_decide (i < j)%nat then
      let h := ((i + j) / 2)%nat in
      match f <$> l !! h with
      | Some Lt => search fuel l (S h) j
      | _ => search fuel l i h
      end
    else i
  end.

Definition BinarySearchFunc (l : list A) : nat * bool :=
  let i := search (length l) l 0 (length l) in
  (i, match f <$> l !! i with Some Eq => true | _ => false end).

(** The element found, if any. *)
Definition binary_find (l : list A) : option A :=
  let '(at_, found) := BinarySearchFunc l in if found then l !! at_ else None.

(** A list sorted against the target: what is below it comes first, and what is
    above it last. *)
Definition below_first (l : list A) : Prop := forall i j x y, (i <= j)%nat -> l !! i = Some x -> l !! j = Some y ->
  (f y = Lt -> f x = Lt) /\ (f x = Gt -> f y = Gt).

Lemma search_spec fuel l i j :
  below_first l -> (j <= length l)%nat -> (j - i <= fuel)%nat -> (i <= j)%nat ->
  (forall k x, (k < i)%nat -> l !! k = Some x -> f x = Lt) ->
  (forall k x, (j <= k)%nat -> l !! k = Some x -> f x <> Lt) ->
  let r := search fuel l i j in
  (forall k x, (k < r)%nat -> l !! k = Some x -> f x = Lt) /\ (forall k x, (r <= k)%nat -> l !! k = Some x -> f x <> Lt).
Proof.
  intros Hs. revert i j. induction fuel as [|fuel IH]; intros i j Hj Hf Hij Hi Hk; cbn [search].
  { replace j with i in * by lia. done. }
  case_bool_decide as E; [|by replace j with i in * by lia].
  set (h := ((i + j) / 2)%nat). assert (i <= h < j)%nat as Hh.
  { unfold h. split; [apply Nat.div_le_lower_bound; lia|apply Nat.div_lt_upper_bound; lia]. }
  destruct (lookup_lt_is_Some_2 l h) as [y Hy]; [lia|]. rewrite Hy. simpl.
  destruct (f y) eqn:Ey; apply IH; try lia; try done; intros k x Hkx Hx.
  - destruct (decide (j <= k)%nat); [by apply (Hk k x)|]. intros Hlt. destruct (Hs h k y x ltac:(lia) Hy Hx) as [H1 _]. rewrite H1 in Ey; done.
  - destruct (Hs k h x y ltac:(lia) Hx Hy) as [H1 _]. by apply H1.
  - destruct (decide (j <= k)%nat); [by apply (Hk k x)|]. intros Hlt. destruct (Hs h k y x ltac:(lia) Hy Hx) as [H1 _]. rewrite H1 in Ey; done.
Qed.

(** A binary search finds what a scan from the front finds. *)
Lemma binary_find_scan l : below_first l -> binary_find l = List.find (fun x => match f x with Eq => true | _ => false end) l.
Proof.
  intros Hs. unfold binary_find, BinarySearchFunc.
  destruct (search_spec (length l) l 0 (length l) Hs) as [Hlo Hhi]; try lia.
  { intros k x Hk Hx. apply lookup_lt_Some in Hx. lia. }
  set (r := search _ _ _ _) in *. clearbody r.
  destruct (l !! r) as [y|] eqn:Ey; simpl.
  - assert (forall k x, (k < r)%nat -> l !! k = Some x -> match f x with Eq => true | _ => false end = false) as Hno
      by (intros k x Hk Hx; by rewrite (Hlo k x Hk Hx)).
    apply list_elem_of_split_length in Ey as (l1&l2&->&Hr). subst r.
    assert (List.find (fun x => match f x with Eq => true | _ => false end) l1 = None) as Hn.
    { destruct (List.find _ l1) as [z|] eqn:Ez; [|done]. apply List.find_some in Ez as [Hin Hz].
      apply list_elem_of_In, list_elem_of_lookup in Hin as (k&Hk). rewrite (Hno k z) in Hz; [done|by eapply lookup_lt_Some|].
      rewrite lookup_app_l; [done|by eapply lookup_lt_Some]. }
    assert (forall z, List.find z (l1 ++ y :: l2) = match List.find z l1 with Some a => Some a | None => List.find z (y :: l2) end) as Hfa.
    { intros z. clear. induction l1 as [|a l1 IH]; [done|]. simpl. by destruct (z a). }
    rewrite Hfa, Hn. simpl. destruct (f y) eqn:Efy; [done| |].
    + exfalso. apply (Hhi (length l1) y); [lia| |done]. by rewrite lookup_app_r, Nat.sub_diag by lia.
    + symmetry. destruct (List.find _ l2) as [z|] eqn:Ez; [|done]. apply List.find_some in Ez as [Hin Hz].
      apply list_elem_of_In, list_elem_of_lookup in Hin as (k&Hk).
      assert ((l1 ++ y :: l2) !! (length l1 + S k)%nat = Some z) as Hz'
        by (rewrite lookup_app_r by lia; replace (length l1 + S k - length l1)%nat with (S k) by lia; done).
      destruct (Hs (length l1) (length l1 + S k)%nat y z) as [_ H2]; [lia| |done|].
      { by rewrite lookup_app_r, Nat.sub_diag by lia. }
      by rewrite H2 in Hz.
  - apply lookup_ge_None in Ey. destruct (List.find _ l) as [z|] eqn:Ez; [|done]. apply List.find_some in Ez as [Hin Hz].
    apply list_elem_of_In, list_elem_of_lookup in Hin as (k&Hk). rewrite (Hlo k z) in Hz; [done| |done]. apply lookup_lt_Some in Hk. lia.
Qed.

End Search.

(** ** Records sorted by an identity

    A list sorted by an identity whose neighbours differ has no identity twice,
    and a binary search finds the record of an identity. *)

Section Entries.
Context {A : Type} (id : A -> list byte).

(** What a loop that compares each record with the one before it checks. *)
Fixpoint neighbours (previous : option (list byte)) (l : list A) : Prop :=
  match l with [] => True | x :: l => previous <> Some (id x) /\ neighbours (Some (id x)) l end.

Lemma by_key_eq x y : by_key id x y <> Gt -> by_key id y x <> Gt -> id x = id y.
Proof.
  intros H1 H2. apply bytes_compare_eq. rewrite (cmp_antisym (P := fun _ => True) x y) in H2 by done. unfold by_key in *.
  by destruct (bytes_compare _ _).
Qed.

Lemma neighbours_distinct_from x l : ordered (by_key id) (x :: l) -> neighbours (Some (id x)) l -> NoDup (id <$> x :: l).
Proof.
  revert x. induction l as [|y l IH]; intros x Ho Hc; [apply NoDup_singleton|].
  apply StronglySorted_inv in Ho as [Ho Hf]. destruct Hc as [Hne Hc]. pose proof (IH y Ho Hc) as Hn.
  rewrite fmap_cons. apply NoDup_cons. split; [|done]. rewrite list_elem_of_fmap. intros (z & Hz & Hin).
  inversion Hf as [|? ? Hxy _]; subst. apply Hne. f_equal. apply (by_key_eq x y Hxy). apply elem_of_cons in Hin as [->|Hin].
  - unfold by_key. by rewrite (proj2 (bytes_compare_eq _ _) (eq_sym Hz)).
  - apply StronglySorted_inv in Ho as [_ Hy]. eapply Forall_forall in Hy; [|exact Hin]. unfold by_key in *. by rewrite Hz.
Qed.

Lemma neighbours_distinct l : ordered (by_key id) l -> (neighbours None l <-> NoDup (id <$> l)).
Proof.
  intros Ho. split.
  - destruct l as [|x l]; [intros _; apply NoDup_nil_2|]. intros [_ Hn]. by apply neighbours_distinct_from.
  - intros Hn. assert (forall p, (forall i, p = Some i -> i ∉ id <$> l) -> neighbours p l) as Hgen; [|by apply Hgen].
    clear Ho. induction l as [|x l IH]; intros p Hp; [done|]. rewrite fmap_cons in *. apply NoDup_cons in Hn as [Hx Hn]. split.
    + intros ->. apply (Hp _ eq_refl), list_elem_of_here.
    + apply IH; [done|]. by intros i [= <-].
Qed.

Lemma id_determines (l : list A) x y : NoDup (id <$> l) -> x ∈ l -> y ∈ l -> id x = id y -> x = y.
Proof.
  intros Hn [i Hi]%list_elem_of_lookup [j Hj]%list_elem_of_lookup E.
  assert (i = j) as ->; [|congruence]. eapply NoDup_lookup; [exact Hn|by rewrite list_lookup_fmap, Hi|by rewrite list_lookup_fmap, Hj, E].
Qed.

Lemma sort_by_key_ordered l : ordered (by_key id) (sort_by (by_key id) l).
Proof. eapply sort_by_ordered; [apply by_key_ordering|by apply Forall_true]. Qed.

Lemma sort_by_key_unique l k : NoDup (id <$> l) -> l ≡ₚ k -> sort_by (by_key id) l = sort_by (by_key id) k.
Proof.
  intros Hn Hp. eapply sort_by_unique; [apply by_key_ordering|by apply Forall_true|done|].
  intros x y Hx Hy E. apply (id_determines l); [done..|]. by apply bytes_compare_eq.
Qed.

Lemma key_search_scan l i : ordered (by_key id) l ->
  binary_find (fun x => bytes_compare (id x) i) l = List.find (fun x => bool_decide (id x = i)) l.
Proof.
  intros Ho. rewrite binary_find_scan.
  - clear Ho. induction l as [|x l IH]; [done|]. simpl. rewrite IH. case_bool_decide as E.
    + by rewrite (proj2 (bytes_compare_eq _ _) E).
    + destruct (bytes_compare (id x) i) eqn:Ec; [by apply bytes_compare_eq in Ec|done..].
  - intros a b x y Hab Hx Hy.
    assert (bytes_compare (id x) (id y) <> Gt) as Hxy.
    { destruct (decide (a = b)) as [->|Hne]; [assert (x = y) as -> by congruence; by rewrite (proj2 (bytes_compare_eq _ _) eq_refl)|].
      eapply (StronglySorted_app_1_elem_of (fun x y => by_key id x y <> Gt) (take b l) (drop b l)).
      - by rewrite take_drop.
      - apply list_elem_of_lookup. exists a. apply lookup_take_Some. split; [done|lia].
      - apply list_elem_of_lookup. exists 0%nat. by rewrite lookup_drop, Nat.add_0_r. }
    pose proof (cmp_antisym (cmp := bytes_compare) (P := fun _ => True)) as Ha. split; intros E.
    + destruct (bytes_compare (id x) i) eqn:Ex; [|done|].
      * apply bytes_compare_eq in Ex as <-. rewrite (Ha (id x) (id y)) in E by done. by destruct (bytes_compare (id x) (id y)).
      * exfalso. apply (cmp_trans (cmp := bytes_compare) (P := fun _ => True) (id x) (id y) i); try done. congruence.
    + destruct (bytes_compare (id y) i) eqn:Ey; [| |done]; exfalso;
        apply (cmp_trans (cmp := bytes_compare) (P := fun _ => True) (id x) (id y) i); congruence || done.
Qed.

Lemma find_id_iff l i x : NoDup (id <$> l) -> (List.find (fun x => bool_decide (id x = i)) l = Some x <-> x ∈ l /\ id x = i).
Proof.
  intros Hn. split.
  - intros [Hin E]%List.find_some. apply bool_decide_eq_true in E. by rewrite list_elem_of_In.
  - intros [Hin E]. destruct (List.find _ l) as [y|] eqn:Ef.
    + apply List.find_some in Ef as [Hy Ey]. apply bool_decide_eq_true in Ey. f_equal. apply (id_determines l); [done|by apply list_elem_of_In|done|congruence].
    + exfalso. apply list_elem_of_In in Hin. pose proof (List.find_none _ _ Ef x Hin) as Hx. simpl in Hx. by rewrite bool_decide_eq_true_2 in Hx.
Qed.

Lemma find_id_none l i : List.find (fun x => bool_decide (id x = i)) l = None <-> i ∉ id <$> l.
Proof.
  split.
  - intros Hf (x & -> & Hx)%list_elem_of_fmap. apply list_elem_of_In in Hx. pose proof (List.find_none _ _ Hf x Hx) as E. simpl in E.
    by rewrite bool_decide_eq_true_2 in E.
  - intros Hi. destruct (List.find _ l) as [y|] eqn:Ef; [|done]. apply List.find_some in Ef as [Hy Ey]. apply bool_decide_eq_true in Ey.
    destruct Hi. rewrite <- Ey. apply list_elem_of_fmap_2. by apply list_elem_of_In.
Qed.

End Entries.
