(* ===== verification/Sha256.v ===== *)
(** * SHA-256

    [crypto/sha256]'s [Sum256], as FIPS 180-4 gives it: the hash behind the
    identities and scores of the cluster's disks.  Words are 32-bit. *)

From S2P Require Import Prelude Bytes.

Module Sha256.

Definition rotr (x n : Z) : Z := Z.lor (Z.shiftr x n) (wrap32 (Z.shiftl x (32 - n))).

Definition add32 (xs : list Z) : Z := wrap32 (fold_right Z.add 0 xs).

Definition round_constants : list Z :=
  [1116352408; 1899447441; 3049323471; 3921009573; 961987163; 1508970993;
   2453635748; 2870763221; 3624381080; 310598401; 607225278; 1426881987;
   1925078388; 2162078206; 2614888103; 3248222580; 3835390401; 4022224774;
   264347078; 604807628; 770255983; 1249150122; 1555081692; 1996064986;
   2554220882; 2821834349; 2952996808; 3210313671; 3336571891; 3584528711;
   113926993; 338241895; 666307205; 773529912; 1294757372; 1396182291;
   1695183700; 1986661051; 2177026350; 2456956037; 2730485921; 2820302411;
   3259730800; 3345764771; 3516065817; 3600352804; 4094571909; 275423344;
   430227734; 506948616; 659060556; 883997877; 958139571; 1322822218;
   1537002063; 1747873779; 1955562222; 2024104815; 2227730452; 2361852424;
   2428436474; 2756734187; 3204031479; 3329325298].

Definition initial : list Z :=
  [1779033703; 3144134277; 1013904242; 2773480762; 1359893119; 2600822924;
   528734635; 1541459225].

(** Big-endian integers: [binary.BigEndian]. *)
Definition put_be (n : nat) (z : Z) : list byte := rev (put_le n z).
Definition get_be (b : list byte) : Z := get_le (rev b).

(** The message with its padding: a bit, zeros, and its length in bits. *)
Definition padded (b : list byte) : list byte :=
  b ++ [Byte.x80] ++ zeros ((55 - zlen b) mod 64) ++ put_be 8 (8 * zlen b).

Fixpoint chunks (fuel : nat) (n : nat) (b : list byte) : list (list byte) :=
  match fuel, b with
  | S fuel, _ :: _ => take n b :: chunks fuel n (drop n b)
  | _, _ => []
  end.

(** The message schedule, newest word first. *)
Fixpoint schedule (n : nat) (words : list Z) : list Z :=
  match n with
  | O => words
  | S n =>
    let w i := default 0 (words !! i) in
    let s0 := Z.lxor (Z.lxor (rotr (w 14%nat) 7) (rotr (w 14%nat) 18)) (Z.shiftr (w 14%nat) 3) in
    let s1 := Z.lxor (Z.lxor (rotr (w 1%nat) 17) (rotr (w 1%nat) 19)) (Z.shiftr (w 1%nat) 10) in
    schedule n (add32 [w 15%nat; s0; w 6%nat; s1] :: words)
  end.

Definition round (st : list Z) (kw : Z * Z) : list Z :=
  match st with
  | [a; b; c; d; e; f; g; h] =>
    let s1 := Z.lxor (Z.lxor (rotr e 6) (rotr e 11)) (rotr e 25) in
    let ch := Z.lxor (Z.land e f) (Z.land (Z.lxor e (2 ^ 32 - 1)) g) in
    let t1 := add32 [h; s1; ch; kw.1; kw.2] in
    let s0 := Z.lxor (Z.lxor (rotr a 2) (rotr a 13)) (rotr a 22) in
    let maj := Z.lxor (Z.lxor (Z.land a b) (Z.land a c)) (Z.land b c) in
    [add32 [t1; s0; maj]; a; b; c; add32 [d; t1]; e; f; g]
  | _ => st
  end.

Definition compress (st : list Z) (block : list byte) : list Z :=
  let words := rev (schedule 48 (rev (get_be <$> chunks 16 4 block))) in
  zip_with (fun x y => add32 [x; y]) st (fold_left round (zip round_constants words) st).

Definition Sum256 (b : list byte) : list byte :=
  let p := padded b in
  concat (put_be 4 <$> fold_left compress (chunks (length p) 64 p) initial).

(** The digest of [abc], the first example of FIPS 180-4. *)
Lemma sum256_abc :
  get_be (Sum256 [Byte.x61; Byte.x62; Byte.x63]) = 84342368487090800366523834928142263660104883695016514377462985829716817089965.
Proof. vm_compute. reflexivity. Qed.

(** A digest of two blocks. *)
Lemma sum256_two_blocks :
  get_be (Sum256 (replicate 70 Byte.x61)) = 48775393811618265262315185652326444369387663478513489735935697216710973024976.
Proof. vm_compute. reflexivity. Qed.

Lemma compress_length st b : length st = 8%nat -> length (compress st b) = 8%nat.
Proof.
  intros Hs. unfold compress. rewrite length_zip_with.
  assert (forall l st, length st = 8%nat -> length (fold_left round l st) = 8%nat) as Hr.
  { intros l. induction l as [|kw l IH]; intros s0 H0; [done|]. simpl. apply IH.
    do 9 (destruct s0 as [|? s0]; try done). }
  rewrite Hr by done. lia.
Qed.

Lemma zlen_Sum256 b : zlen (Sum256 b) = 32.
Proof.
  unfold Sum256. set (bs := chunks _ _ _). clearbody bs.
  assert (forall st, length st = 8%nat -> length (fold_left compress bs st) = 8%nat) as Hf.
  { induction bs as [|x bs IH]; intros st Hs; [done|]. simpl. by apply IH, compress_length. }
  assert (forall l, zlen (concat (put_be 4 <$> l)) = 4 * zlen l) as Hc.
  { induction l as [|x l IH]; [done|]. rewrite fmap_cons. cbn [concat]. rewrite zlen_app, zlen_cons, IH.
    unfold put_be, zlen at 1. rewrite length_rev. fold (zlen (put_le 4 x)). rewrite zlen_put_le. lia. }
  rewrite Hc. unfold zlen. rewrite Hf by done. done.
Qed.

End Sha256.
