(* ===== verification/Rank.v ===== *)
(** * Ranking windows over the cluster's disks

    [rank/rank.go] and [rank/window.go]: the code of a deployment, the list of
    cache disks, the window as the unit of placement, and the weighted rendezvous
    ranking of the disks for a window, in the integer arithmetic of the source.
    Every host computes the same ranks from the same disks, a disk that leaves
    moves only the windows it held, and the ranks under a narrower code are the
    first of those under a wider one. *)

From S2P Require Import Prelude Bytes Order Sha256 ControlRecord.
From Stdlib Require String.

#[local] Open Scope Z_scope.

Module Rank.
Import Sha256 Control.

Inductive rerror := ErrInvalid.

(** ** Identities and codes *)

Definition Identity : Type := list byte.

Definition zeroIdentity : Identity := zeros 16.

Definition IsZero (i : Identity) : bool := bool_decide (i = zeroIdentity).

Record Cache := mkCache { cIdentity : Identity; cWeight : Z; cAddress : string }.

#[export] Instance Cache_eq_dec : EqDecision Cache.
Proof. solve_decision. Defined.

Definition WeightStep : Z := 16 * 2 ^ 30.

Definition Weight (bytes : Z) : Z :=
  if bytes <=? 0 then 0
  else let steps := Z.quot (int64 (bytes + WeightStep / 2)) WeightStep in Z.min (Z.max steps 1) (2 ^ 32 - 1).

Record Code := mkCode { K : Z; M : Z }.

#[export] Instance Code_eq_dec : EqDecision Code.
Proof. solve_decision. Defined.

Definition DefaultCode : Code := mkCode 4 2.

Definition MaxEarlierCodes : Z := 3.

Definition maxWidth : Z := 32.

Definition Width (c : Code) : Z := int64 (K c + M c).

Definition Validate (c : Code) : option rerror :=
  if (K c <? 1) || (M c <? 0) || (Width c >? maxWidth) then Some ErrInvalid else None.

Definition CodeFor (hosts : Z) : Code :=
  if hosts <=? 1 then mkCode 1 0
  else if hosts =? 2 then mkCode 1 1
  else if hosts =? 3 then mkCode 2 1
  else if hosts <=? 5 then mkCode 2 2
  else mkCode 4 2.

(** ** Windows *)

Definition WindowBytes : Z := 2 * 2 ^ 20.

(** [control.Identity] *)
Record PageIdentity := mkPageIdentity { piRef : Ref; piVolume : string; piPage : Z; piZero : bool }.

Record Window := mkWindow { wRef : Ref; wVolume : string; wSegment : bool; wNumber : Z; wPages : Z }.

Definition PageWindow (page : PageIdentity) (pageSize : Z) : Window :=
  let span := Z.max (WindowBytes / Z.max pageSize 1) 1 in
  mkWindow (piRef page) (piVolume page) false (piPage page / span) (wrap32 span).

Definition SegmentWindow (ref : Ref) (volume : string) (number : Z) : Window := mkWindow ref volume true number 1.

Definition Page (w : Window) (at_ : Z) : Z := wrap64 (wrap64 (wNumber w * Z.max (wPages w) 1) + at_).

(** [binary.AppendUvarint]; a 64-bit number takes at most ten bytes. *)
Fixpoint uvarint (fuel : nat) (x : Z) : list byte :=
  match fuel with
  | O => []
  | S fuel => if x >=? 128 then Zbyte (Z.lor (x mod 128) 128) :: uvarint fuel (Z.shiftr x 7) else [Zbyte x]
  end.

Definition string_bytes (s : string) : list byte := String.list_byte_of_string s.

Definition encoded (w : Window) : list byte :=
  string_bytes "sproutfs rank window" ++ [Byte.x00] ++ [if wSegment w then Byte.x01 else Byte.x00] ++
  uvarint 10 (zlen (string_bytes (VM (wRef w)))) ++ string_bytes (VM (wRef w)) ++ put_be 8 (Seq (wRef w)) ++
  uvarint 10 (zlen (string_bytes (wVolume w))) ++ string_bytes (wVolume w) ++ put_be 8 (wNumber w).

Definition digest (w : Window) : Z := get_be (slice (Sum256 (encoded w)) 0 8).

(** The finalizer of splitmix64. *)
Definition mix (z : Z) : Z :=
  let z := Z.lxor z (Z.shiftr z 30) in
  let z := wrap64 (z * 0xbf58476d1ce4e5b9) in
  let z := Z.lxor z (Z.shiftr z 27) in
  let z := wrap64 (z * 0x94d049bb133111eb) in
  Z.lxor z (Z.shiftr z 31).

Definition shareSalt : Z := 0x5f3c9e1da7b24c68.

Definition InShare (w : Window) (percent : Z) : bool := mix (Z.lxor (digest w) shareSalt) mod 100 <? Z.max percent 0.

(** ** Distances *)

Definition fractionBits : Z := 32.

(** One turn of [log2]'s loop: the square of the mantissa, as [bits.Mul64] gives
    it in two words. *)
Definition log2_turn (st : Z * Z) (bit : Z) : Z * Z :=
  let '(result, x) := st in
  let high := Z.shiftr (x * x) 64 in
  let low := wrap64 (x * x) in
  if high >=? 2 ^ 63 then (Z.lor result bit, high)
  else (result, Z.lor (wrap64 (Z.shiftl high 1)) (Z.shiftr low 63)).

Definition log2_bits : list Z := (fun i => 2 ^ (fractionBits - 1 - i)) <$> seqZ 0 fractionBits.

(** [bits.Len64] of a number at least 1, less 1, is [Z.log2]. *)
Definition log2 (m : Z) : Z :=
  let top := Z.log2 m in
  (fold_left log2_turn log2_bits (wrap64 (Z.shiftl top fractionBits), wrap64 (Z.shiftl m (63 - top)))).1.

Definition distance (h : Z) : Z := wrap64 (Z.shiftl 64 fractionBits - log2 (Z.lor h 1)).

(** ** Lists *)

Record List_ := mkList { code : Code; earlier : list Code; caches : list Cache; seeds : list Z }.

Definition seedOf (identity : Identity) : Z :=
  get_be (slice (Sum256 (string_bytes "sproutfs rank cache" ++ [Byte.x00] ++ identity)) 0 8).

Fixpoint check_earlier (code : Code) (seen earlier : list Code) : option rerror :=
  match earlier with
  | [] => None
  | other :: earlier =>
    match Validate other with
    | Some e => Some e
    | None =>
      if bool_decide (other = code) || bool_decide (other ∈ seen) then Some ErrInvalid
      else check_earlier code (seen ++ [other]) earlier
    end
  end.

(** The caches in identity order: each with an identity and a weight, and none
    twice. *)
Fixpoint check_caches (previous : option Identity) (sorted : list Cache) : option rerror :=
  match sorted with
  | [] => None
  | cache :: sorted =>
    if IsZero (cIdentity cache) || (cWeight cache =? 0) then Some ErrInvalid
    else if bool_decide (previous = Some (cIdentity cache)) then Some ErrInvalid
    else check_caches (Some (cIdentity cache)) sorted
  end.

Definition NewList (code : Code) (caches : list Cache) (earlier : list Code) : result rerror List_ :=
  match Validate code with
  | Some e => Err e
  | None =>
    if zlen earlier >? MaxEarlierCodes then Err ErrInvalid
    else match check_earlier code [] earlier with
         | Some e => Err e
         | None =>
           let sorted := sort_by (by_key cIdentity) caches in
           match check_caches None sorted with
           | Some e => Err e
           | None => Ok (mkList code earlier sorted (seedOf ∘ cIdentity <$> sorted))
           end
         end
  end.

Definition Alone (self : Cache) : List_ :=
  match NewList (CodeFor 1) [self] [] with Ok list => list | Err _ => mkList (CodeFor 1) [] [] [] end.

Definition Codes (l : List_) : list Code := code l :: earlier l.

Definition Under (l : List_) (c : Code) : List_ := mkList c [] (caches l) (seeds l).

Definition emptyList : List_ := mkList (mkCode 0 0) [] [] [].

Definition Without (l : List_) (identity : Identity) : List_ :=
  match NewList (code l) (filter (fun cache => cIdentity cache <> identity) (caches l)) (earlier l) with
  | Ok without => without
  | Err _ => emptyList
  end.

(** ** Ranks *)

Record scored := mkScored { s_at : nat; s_weight : Z; s_distance : Z; s_identity : Identity }.

Definition descending (a b : Z) : comparison := if a >? b then Lt else Gt.

(** [bits.Mul64] *)
Definition Mul64 (x y : Z) : Z * Z := (Z.shiftr (x * y) 64, wrap64 (x * y)).

Definition compare (a b : scored) : comparison :=
  let '(aHigh, aLow) := Mul64 (s_weight a) (s_distance b) in
  let '(bHigh, bLow) := Mul64 (s_weight b) (s_distance a) in
  if negb (aHigh =? bHigh) then descending aHigh bHigh
  else if negb (aLow =? bLow) then descending aLow bLow
  else bytes_compare (s_identity a) (s_identity b).

Definition score (l : List_) (window : Window) : list scored :=
  let digest := digest window in
  imap (fun at_ '(cache, seed) => mkScored at_ (cWeight cache) (distance (mix (Z.lxor digest seed))) (cIdentity cache))
    (zip (caches l) (seeds l)).

(** [None] is the panic of [make] at a negative length.  Every index of [scores]
    is one of [caches]. *)
Definition Ranks (l : List_) (window : Window) : option (list Cache) :=
  let scores := sort_by compare (score l window) in
  if Width (code l) <? 0 then None
  else Some (omap (fun s => caches l !! s_at s) (take (Z.to_nat (Width (code l))) scores)).

Definition Holders (l : List_) (window : Window) : option (list Cache) :=
  ranks ← Ranks l window;
  match ranks with
  | [] => Some []
  | _ => Some (omap (fun stripe => ranks !! (stripe mod length ranks)%nat) (seq 0 (Z.to_nat (Width (code l)))))
  end.

(** ** One reader's order *)

Record picked := mkPicked { p_at : nat; p_score : Z; p_identity : Identity }.

Definition compare_picked (a b : picked) : comparison :=
  if negb (p_score a =? p_score b) then descending (p_score a) (p_score b)
  else bytes_compare (p_identity a) (p_identity b).

Definition Pick (ranks : list Cache) (reader : Identity) (window : Window) (want : Z) : list Cache :=
  if want >=? zlen ranks then ranks
  else
    let seed := mix (Z.lxor (digest window) (seedOf reader)) in
    let scored := sort_by compare_picked
      (imap (fun at_ cache => mkPicked at_ (mix (Z.lxor seed (seedOf (cIdentity cache)))) (cIdentity cache)) ranks) in
    let chosen := p_at <$> take (Z.to_nat (Z.max want 0)) scored in
    let part (first : bool) :=
      omap (fun '(at_, cache) => if bool_decide (bool_decide (at_ ∈ chosen) = first) then Some cache else None)
        (imap pair ranks) in
    part true ++ part false.

(** ** The logarithm *)

(** The bits of the loop, most significant first. *)
Fixpoint bits_down (n : nat) : list Z := match n with O => [] | S n => 2 ^ Z.of_nat n :: bits_down n end.

Lemma log2_bits_down : log2_bits = bits_down 32.
Proof. reflexivity. Qed.

Lemma lor_add_low a b n : 0 <= n -> 0 <= b < 2 ^ n -> (2 ^ n | a) -> Z.lor a b = a + b.
Proof.
  intros Hn Hb [q ->]. assert (Z.land (q * 2 ^ n) b = 0) as Hl.
  - apply Z.bits_inj'. intros i Hi. rewrite Z.land_spec, Z.bits_0. destruct (decide (i < n)) as [?|?].
    + by rewrite Z.mul_pow2_bits_low.
    + rewrite <- (Z.mod_small b (2 ^ n)) by lia. rewrite Z.mod_pow2_bits_high by lia. apply andb_false_r.
  - pose proof (Z.add_lor_land (q * 2 ^ n) b). lia.
Qed.

(** One turn: the bit [b], and the square over [2^b], rounded down. *)
Lemma log2_turn_spec r x n :
  0 <= r -> (2 ^ (Z.of_nat n + 1) | r) -> 2 ^ 63 <= x < 2 ^ 64 ->
  exists b x', 0 <= b <= 1 /\ log2_turn (r, x) (2 ^ Z.of_nat n) = (r + b * 2 ^ Z.of_nat n, x') /\
    2 ^ 63 <= x' < 2 ^ 64 /\ 2 ^ b * x' * 2 ^ 63 <= x ^ 2 < 2 ^ b * (x' + 1) * 2 ^ 63.
Proof.
  intros Hr Hd Hx. unfold log2_turn. rewrite !Z.shiftr_div_pow2 by lia. set (s := x * x).
  assert (2 ^ 63 * 2 ^ 63 <= s) by (unfold s; apply Z.mul_le_mono_nonneg; lia).
  assert (s <= (2 ^ 64 - 1) * (2 ^ 64 - 1)) by (unfold s; apply Z.mul_le_mono_nonneg; lia).
  pose proof (Z.div_mod s (2 ^ 64) ltac:(lia)) as Hdm. pose proof (Z.mod_pos_bound s (2 ^ 64) ltac:(lia)) as Hm.
  replace (x ^ 2) with s by (unfold s; ring).
  destruct (s / 2 ^ 64 >=? 2 ^ 63) eqn:E; [apply Z.geb_le in E|rewrite Z.geb_leb in E; apply Z.leb_gt in E].
  - exists 1, (s / 2 ^ 64). split; [lia|]. split.
    + f_equal. rewrite (lor_add_low _ _ (Z.of_nat n + 1)); [lia|lia| |done]. rewrite Z.pow_add_r by lia. lia.
    + lia.
  - exists 0, (s / 2 ^ 63). split; [lia|].
    assert (Z.lor (wrap64 (Z.shiftl (s / 2 ^ 64) 1)) (wrap64 s / 2 ^ 63) = s / 2 ^ 63) as ->.
    { rewrite Z.shiftl_mul_pow2 by lia. unfold wrap64 at 1. rewrite Z.mod_small by lia.
      rewrite (lor_add_low _ _ 1); [|lia| |exists (s / 2 ^ 64); lia].
      - unfold wrap64. rewrite Hdm at 3. replace (2 ^ 64 * (s / 2 ^ 64)) with (s / 2 ^ 64 * 2 * 2 ^ 63) by ring.
        rewrite Z.div_add_l by lia. lia.
      - unfold wrap64. split; [apply Z.div_pos; lia|apply Z.div_lt_upper_bound; lia]. }
    pose proof (Z.div_mod s (2 ^ 63) ltac:(lia)). pose proof (Z.mod_pos_bound s (2 ^ 63) ltac:(lia)).
    split; [f_equal; lia|lia].
Qed.

(** One turn of the loop squares what the later turns see. *)
Lemma turn_power_split b F x' C N : 0 <= b -> 0 <= F -> 0 < N ->
  2 ^ (b * N + F) * x' * C ^ (2 * N - 1) = (2 ^ b * C) ^ N * (2 ^ F * x' * C ^ (N - 1)).
Proof.
  intros. replace (2 * N - 1) with (N + (N - 1)) by lia.
  rewrite !Z.pow_add_r, Z.pow_mul_r, Z.pow_mul_l by nia. ring.
Qed.

Lemma turn_power_low b F x x1 x' C N : 0 <= b -> 0 <= F -> 0 < N -> 0 < C -> 0 <= x1 ->
  2 ^ b * x1 * C <= x ^ 2 -> 2 ^ F * x' * C ^ (N - 1) <= x1 ^ N ->
  2 ^ (b * N + F) * x' * C ^ (2 * N - 1) <= x ^ (2 * N).
Proof.
  intros Hb HF HN HC Hx1 Hx IH. rewrite turn_power_split by done.
  assert (0 < 2 ^ b) by (apply Z.pow_pos_nonneg; lia).
  transitivity ((2 ^ b * C) ^ N * x1 ^ N); [apply Z.mul_le_mono_nonneg_l; [apply Z.pow_nonneg; lia|done]|].
  rewrite <- Z.pow_mul_l, (Z.pow_mul_r x) by lia. apply Z.pow_le_mono_l. split; [nia|].
  by replace (2 ^ b * C * x1) with (2 ^ b * x1 * C) by ring.
Qed.

Lemma turn_power_high b F x x1 x' C N : 0 <= b -> 0 <= F -> 0 < N -> 0 < C -> 0 <= x1 ->
  x ^ 2 <= 2 ^ b * x1 * C -> x1 ^ N <= 2 ^ F * x' * C ^ (N - 1) ->
  x ^ (2 * N) <= 2 ^ (b * N + F) * x' * C ^ (2 * N - 1).
Proof.
  intros Hb HF HN HC Hx1 Hx IH. rewrite turn_power_split by done.
  assert (0 < 2 ^ b) by (apply Z.pow_pos_nonneg; lia).
  transitivity ((2 ^ b * C) ^ N * x1 ^ N); [|apply Z.mul_le_mono_nonneg_l; [apply Z.pow_nonneg; lia|done]].
  rewrite <- Z.pow_mul_l, (Z.pow_mul_r x) by lia. apply Z.pow_le_mono_l. split; [rewrite Z.pow_2_r; apply Z.square_nonneg|].
  by replace (2 ^ b * C * x1) with (2 ^ b * x1 * C) by ring.
Qed.

(** The turns together, between two powers: the truncations cost a factor of
    [1 + 1/2^63] each, squared by every later turn. *)
Lemma log2_loop_spec n r x :
  0 <= r -> (2 ^ Z.of_nat n | r) -> 2 ^ 63 <= x < 2 ^ 64 ->
  exists F x', 0 <= F < 2 ^ Z.of_nat n /\ fold_left log2_turn (bits_down n) (r, x) = (r + F, x') /\ 2 ^ 63 <= x' < 2 ^ 64 /\
    2 ^ F * x' * (2 ^ 63) ^ (2 ^ Z.of_nat n - 1) <= x ^ (2 ^ Z.of_nat n) <= 2 ^ F * x' * (2 ^ 63 + 1) ^ (2 ^ Z.of_nat n - 1).
Proof.
  revert r x. induction n as [|n IH]; intros r x Hr Hd Hx.
  { exists 0, x. replace (2 ^ Z.of_nat 0) with 1 by done. rewrite Z.sub_diag, !Z.pow_0_r, Z.pow_1_r, Z.add_0_r. split; [lia|]. split; [reflexivity|lia]. }
  rewrite Nat2Z.inj_succ in *. unfold Z.succ in *. cbn [bits_down fold_left].
  destruct (log2_turn_spec r x n Hr Hd Hx) as (b & x1 & Hb & -> & Hx1 & Hlo & Hhi).
  set (N := 2 ^ Z.of_nat n) in *. assert (0 < N) as HN by (apply Z.pow_pos_nonneg; lia).
  assert (2 ^ (Z.of_nat n + 1) = 2 * N) as E2 by (rewrite Z.pow_add_r by lia; unfold N; ring). rewrite E2 in *. clearbody N.
  destruct (IH (r + b * N) x1) as (F & x' & HF & -> & Hx' & IHlo & IHhi); [lia| |done|].
  { apply Z.divide_add_r; [|by exists b]. transitivity (2 * N); [by exists 2|done]. }
  exists (b * N + F), x'. split; [nia|]. split; [by rewrite Z.add_assoc|]. split; [done|]. split.
  - apply (turn_power_low _ _ _ x1); [lia..|exact IHlo].
  - apply (turn_power_high _ _ _ x1); [lia..| |exact IHhi].
    assert (2 ^ b = 1 \/ 2 ^ b = 2) as [Eb|Eb] by (assert (b = 0 \/ b = 1) as [-> | ->] by lia; auto); rewrite Eb in *; lia.
Qed.

(** [(1 + 1/B)^k <= 2] for [k] at most half of [B]. *)
Lemma pow_succ_bound B k : 0 <= k -> 2 * k <= B -> (B + 1) ^ k <= 2 * B ^ k.
Proof.
  intros Hk HB. destruct (decide (k = 0)) as [->|Hk0]; [by simpl|].
  assert (forall j, 0 <= j -> j <= B -> (B + 1) ^ j * (B - j) <= B * B ^ j) as Hgen.
  { intros j Hj. pattern j. apply natlike_ind; [|clear j Hj; intros j Hj IH HjB|done].
    - intros _. rewrite !Z.pow_0_r. lia.
    - rewrite !Z.pow_succ_r by lia. specialize (IH ltac:(lia)).
      assert (0 < (B + 1) ^ j) by (apply Z.pow_pos_nonneg; lia).
      assert ((B + 1) * (B - Z.succ j) <= B * (B - j)) by nia. nia. }
  specialize (Hgen k Hk ltac:(lia)). assert (0 < (B + 1) ^ k) by (apply Z.pow_pos_nonneg; lia).
  assert (0 < B ^ k) by (apply Z.pow_pos_nonneg; lia). nia.
Qed.

Lemma log2_window m top N F x' : 1 <= m -> 0 <= top < 64 -> 0 < N -> N <= 2 ^ 62 -> 0 <= F -> 2 ^ 63 <= x' < 2 ^ 64 ->
  2 ^ F * x' * (2 ^ 63) ^ (N - 1) <= (m * 2 ^ (63 - top)) ^ N <= 2 ^ F * x' * (2 ^ 63 + 1) ^ (N - 1) ->
  2 ^ (top * N + F) <= m ^ N < 2 ^ (top * N + F + 2).
Proof.
  intros Hm Ht HN0 HN HF Hx' [Hlo Hhi].
  pose proof (pow_succ_bound (2 ^ 63) (N - 1) ltac:(lia) ltac:(lia)) as Hs.
  rewrite Z.pow_mul_l, <- (Z.pow_mul_r 2 (63 - top)) in Hlo, Hhi by lia.
  assert (0 <= top * N /\ 0 <= (63 - top) * N) as [HtN HtN'] by (split; apply Z.mul_nonneg_nonneg; lia).
  assert (2 ^ ((63 - top) * N) * 2 ^ (top * N) = 2 ^ 63 * (2 ^ 63) ^ (N - 1)) as Ep.
  { rewrite <- Z.pow_add_r, <- Z.pow_mul_r, <- Z.pow_add_r by lia. f_equal. ring. }
  assert (0 < 2 ^ ((63 - top) * N) /\ 0 < 2 ^ F /\ 0 < (2 ^ 63) ^ (N - 1)) as (H1 & H3 & H4)
    by (split_and!; apply Z.pow_pos_nonneg; lia).
  rewrite (Z.pow_add_r 2 (top * N + F)), (Z.pow_add_r 2 (top * N)) by lia.
  revert Hlo Hhi Hs Ep H1 H3 H4. generalize (2 ^ ((63 - top) * N)) (2 ^ (top * N)) ((2 ^ 63) ^ (N - 1)) ((2 ^ 63 + 1) ^ (N - 1)) (2 ^ F) (m ^ N).
  intros P Q T U G X Hlo Hhi Hs Ep H1 H3 H4. split; apply (Z.mul_le_mono_pos_r _ _ P H1) || apply (Z.mul_lt_mono_pos_r P _ _ H1).
  - replace (Q * G * P) with (G * (P * Q)) by ring. rewrite Ep. transitivity (G * x' * T); [|lia].
    replace (G * (2 ^ 63 * T)) with (G * T * 2 ^ 63) by ring. replace (G * x' * T) with (G * T * x') by ring. apply Z.mul_le_mono_nonneg_l; lia.
  - replace (Q * G * 2 ^ 2 * P) with (G * 4 * (P * Q)) by ring. rewrite Ep.
    apply Z.le_lt_trans with (G * x' * (2 * T)); [transitivity (G * x' * U); [lia|apply Z.mul_le_mono_nonneg_l; lia]|].
    replace (G * x' * (2 * T)) with (2 * G * T * x') by ring.
    replace (G * 4 * (2 ^ 63 * T)) with (2 * G * T * 2 ^ 64) by ring. apply Z.mul_lt_mono_pos_l; nia.
Qed.

(** [log2] in a window of two units. *)
Lemma log2_spec m : 1 <= m < 2 ^ 64 ->
  0 <= log2 m < 2 ^ 38 /\ 2 ^ log2 m <= m ^ (2 ^ fractionBits) < 2 ^ (log2 m + 2).
Proof.
  intros Hm. unfold log2. rewrite log2_bits_down. set (top := Z.log2 m).
  pose proof (Z.log2_spec m ltac:(lia)) as Htop. fold top in Htop.
  assert (0 <= top < 64) as Ht by (split; [apply Z.log2_nonneg|apply Z.log2_lt_pow2; lia]).
  assert (wrap64 (Z.shiftl top fractionBits) = top * 2 ^ fractionBits) as ->.
  { unfold wrap64, fractionBits. rewrite Z.shiftl_mul_pow2 by lia. apply Z.mod_small. lia. }
  assert (wrap64 (Z.shiftl m (63 - top)) = m * 2 ^ (63 - top) /\ 2 ^ 63 <= m * 2 ^ (63 - top) < 2 ^ 64) as [-> Hx].
  { rewrite Z.shiftl_mul_pow2 by lia. enough (2 ^ 63 <= m * 2 ^ (63 - top) < 2 ^ 64) by (split; [by apply wrap64_small; unfold u64; lia|done]).
    assert (2 ^ 63 = 2 ^ top * 2 ^ (63 - top)) as -> by (rewrite <- Z.pow_add_r by lia; f_equal; lia).
    assert (2 ^ 64 = 2 ^ Z.succ top * 2 ^ (63 - top)) as -> by (rewrite <- Z.pow_add_r by lia; f_equal; lia).
    assert (0 < 2 ^ (63 - top)) by (apply Z.pow_pos_nonneg; lia). nia. }
  destruct (log2_loop_spec 32 (top * 2 ^ fractionBits) (m * 2 ^ (63 - top))) as (F & x' & HF & Ef & Hx' & Hpow);
    [unfold fractionBits; lia|by exists top|exact Hx|].
  rewrite Ef. cbn [fst]. assert (0 <= F < 2 ^ 32) as HF' by exact HF. clear HF Ef Htop Hx.
  split; [clear Hpow; unfold fractionBits in *; lia|].
  apply (log2_window _ _ _ _ x'); [clear Hpow; lia|exact Ht|reflexivity|discriminate|clear Hpow; lia|exact Hx'|exact Hpow].
Qed.

Lemma lor_one_range h : u64 h -> 1 <= Z.lor h 1 < 2 ^ 64.
Proof.
  intros Hh. unfold u64 in *. assert (0 < Z.lor h 1) as Hp.
  { assert (Z.lor h 1 <> 0) by (intros [_ E]%Z.lor_eq_0_iff; lia). assert (0 <= Z.lor h 1) by (apply Z.lor_nonneg; lia). lia. }
  split; [lia|]. apply Z.log2_lt_pow2; [done|]. rewrite Z.log2_lor by lia.
  apply Z.max_lub_lt; [|done]. destruct (decide (h = 0)) as [->|?]; [done|]. apply Z.log2_lt_pow2; lia.
Qed.

Lemma distance_log2 h : u64 h -> distance h = 2 ^ 38 - log2 (Z.lor h 1).
Proof.
  intros Hh. destruct (log2_spec (Z.lor h 1) (lor_one_range h Hh)) as [Hl _]. unfold distance. apply wrap64_small.
  change (Z.shiftl 64 fractionBits) with (2 ^ 38). unfold u64. lia.
Qed.

Lemma distance_range h : u64 h -> 1 <= distance h <= 2 ^ 38.
Proof.
  intros Hh. rewrite distance_log2 by done. pose proof (proj1 (log2_spec (Z.lor h 1) (lor_one_range h Hh))). lia.
Qed.

(** ** The finalizer *)

(** What undoes [z ^= z >> k], for [k] of at least a third of the width. *)
Definition unshift (k z : Z) : Z := Z.lxor z (Z.lxor (Z.shiftr z k) (Z.shiftr z (k + k))).

Definition unmix (z : Z) : Z :=
  let z := unshift 31 z in
  let z := wrap64 (z * 0x319642b2d24d8ec3) in
  let z := unshift 27 z in
  let z := wrap64 (z * 0x96de1b173f119089) in
  unshift 30 z.

Lemma u64_bits z : 0 <= z -> (u64 z <-> Z.shiftr z 64 = 0).
Proof.
  intros Hz. unfold u64. rewrite Z.shiftr_div_pow2 by lia. split; intros H; [by apply Z.div_small|].
  split; [done|]. apply Z.div_small_iff in H; lia.
Qed.

Lemma shiftr_far z k : 64 <= k -> u64 z -> Z.shiftr z k = 0.
Proof.
  intros Hk Hz. replace k with (64 + (k - 64)) by lia. rewrite <- Z.shiftr_shiftr by lia.
  rewrite (proj1 (u64_bits z ltac:(unfold u64 in *; lia)) Hz). apply Z.shiftr_0_l.
Qed.

Lemma u64_lxor a b : u64 a -> u64 b -> u64 (Z.lxor a b).
Proof.
  intros Ha Hb. assert (0 <= Z.lxor a b) by (apply Z.lxor_nonneg; unfold u64 in *; lia).
  apply u64_bits; [done|]. by rewrite Z.shiftr_lxor, !shiftr_far by (done || lia).
Qed.

Lemma u64_shiftr a k : 0 <= k -> u64 a -> u64 (Z.shiftr a k).
Proof.
  intros Hk [Ha Ha']. unfold u64. rewrite Z.shiftr_div_pow2 by done. assert (0 < 2 ^ k) by (apply Z.pow_pos_nonneg; lia).
  split; [apply Z.div_pos; lia|]. apply Z.div_lt_upper_bound; [done|]. nia.
Qed.

Lemma shift_unshift k z : 22 <= k -> u64 z -> Z.lxor (unshift k z) (Z.shiftr (unshift k z) k) = z.
Proof.
  intros Hk Hz. unfold unshift. rewrite !Z.shiftr_lxor, !Z.shiftr_shiftr by lia. rewrite (shiftr_far z (k + k + k)) by (done || lia).
  rewrite Z.lxor_0_r, Z.lxor_assoc, Z.lxor_nilpotent. apply Z.lxor_0_r.
Qed.

Lemma unshift_shift k z : 22 <= k -> u64 z -> unshift k (Z.lxor z (Z.shiftr z k)) = z.
Proof.
  intros Hk Hz. unfold unshift. rewrite !Z.shiftr_lxor, !Z.shiftr_shiftr by lia.
  replace (k + (k + k)) with (k + k + k) by lia. rewrite (shiftr_far z (k + k + k)) by (done || lia).
  rewrite Z.lxor_0_r, (Z.lxor_assoc (Z.shiftr z k)), Z.lxor_nilpotent, Z.lxor_0_r, Z.lxor_assoc, Z.lxor_nilpotent.
  apply Z.lxor_0_r.
Qed.

Lemma mul_inverse a b z : (a * b) mod 2 ^ 64 = 1 -> u64 z -> wrap64 (wrap64 (z * a) * b) = z.
Proof.
  intros Hab Hz. unfold wrap64. rewrite Zmult_mod_idemp_l, <- Z.mul_assoc, <- Zmult_mod_idemp_r, Hab, Z.mul_1_r. by apply wrap64_small.
Qed.

Lemma u64_unshift k z : 0 <= k -> u64 z -> u64 (unshift k z).
Proof. intros. unfold unshift. repeat apply u64_lxor; try apply u64_shiftr; auto with lia. Qed.

Lemma u64_shift k z : 0 <= k -> u64 z -> u64 (Z.lxor z (Z.shiftr z k)).
Proof. intros. apply u64_lxor; [done|by apply u64_shiftr]. Qed.

#[local] Hint Resolve wrap64_range : core.
#[local] Hint Extern 2 (u64 (Z.lxor _ _)) => (apply u64_shift; [lia|]) : core.
#[local] Hint Extern 2 (u64 (unshift _ _)) => (apply u64_unshift; [lia|]) : core.

Lemma mix_range z : u64 z -> u64 (mix z).
Proof. intros Hz. unfold mix. cbv zeta. auto. Qed.

Lemma unmix_mix z : u64 z -> unmix (mix z) = z.
Proof.
  intros Hz. unfold unmix, mix. cbv zeta. rewrite (unshift_shift 31), mul_inverse by (reflexivity || auto with lia).
  rewrite (unshift_shift 27), mul_inverse by (reflexivity || auto with lia). by rewrite (unshift_shift 30) by auto with lia.
Qed.

Lemma mix_unmix z : u64 z -> mix (unmix z) = z.
Proof.
  intros Hz. unfold unmix, mix. cbv zeta. rewrite (shift_unshift 30), mul_inverse by (reflexivity || auto with lia).
  rewrite (shift_unshift 27), mul_inverse by (reflexivity || auto with lia). by rewrite (shift_unshift 31) by auto with lia.
Qed.

(** ** Encodings *)

Lemma Zbyte_inj x y : 0 <= x < 256 -> 0 <= y < 256 -> Zbyte x = Zbyte y -> x = y.
Proof. intros Hx Hy E%(f_equal byteZ). rewrite !byteZ_Zbyte, !Z.mod_small in E by lia. done. Qed.

Lemma uvarint_digit x : 0 <= x -> Z.lor (x mod 128) 128 = 128 + x mod 128.
Proof.
  intros Hx. rewrite Z.lor_comm. apply (lor_add_low 128 (x mod 128) 7); [lia|by apply Z.mod_pos_bound|by exists 1].
Qed.

(** No variable-length number is the beginning of another. *)
Lemma uvarint_inj n x y a b : 0 <= x < 2 ^ (7 * Z.of_nat n) -> 0 <= y < 2 ^ (7 * Z.of_nat n) ->
  uvarint n x ++ a = uvarint n y ++ b -> x = y /\ a = b.
Proof.
  revert x y. induction n as [|n IH]; intros x y Hx Hy E; [simpl in *; split; [lia|done]|].
  assert (2 ^ (7 * Z.of_nat (S n)) = 2 ^ (7 * Z.of_nat n) * 128) as Ep.
  { rewrite Nat2Z.inj_succ, Z.mul_succ_r, Z.pow_add_r by lia. reflexivity. }
  assert (forall z, 0 <= z < 2 ^ (7 * Z.of_nat (S n)) -> 0 <= Z.shiftr z 7 < 2 ^ (7 * Z.of_nat n)) as Hs.
  { intros z Hz. rewrite Z.shiftr_div_pow2 by lia. change (2 ^ 7) with 128. split; [apply Z.div_pos; lia|apply Z.div_lt_upper_bound; lia]. }
  pose proof (Z.mod_pos_bound x 128 ltac:(lia)). pose proof (Z.mod_pos_bound y 128 ltac:(lia)).
  simpl in E. rewrite !Z.geb_leb in E. destruct (Z.leb_spec 128 x), (Z.leb_spec 128 y); simpl in E; injection E as Eb E';
    rewrite ?uvarint_digit in Eb by lia; apply Zbyte_inj in Eb; try lia; [|done].
  apply IH in E' as [Es ->]; auto. split; [|done]. rewrite !Z.shiftr_div_pow2 in Es by lia. change (2 ^ 7) with 128 in Es.
  rewrite (Z.div_mod x 128), (Z.div_mod y 128) by lia. lia.
Qed.

Lemma string_bytes_inj a b : string_bytes a = string_bytes b -> a = b.
Proof.
  intros E%(f_equal String.string_of_list_byte). unfold string_bytes in E. by rewrite !String.string_of_list_byte_of_string in E.
Qed.

Lemma put_be_inj n x y : 0 <= x < 256 ^ Z.of_nat n -> 0 <= y < 256 ^ Z.of_nat n -> put_be n x = put_be n y -> x = y.
Proof.
  intros Hx Hy E%(f_equal (fun b => get_le (rev b))). unfold put_be in E. rewrite !rev_involutive, !get_put_le in E by done. done.
Qed.

Lemma length_put_be n x : length (put_be n x) = n.
Proof. unfold put_be. rewrite length_rev. pose proof (zlen_put_le n x). unfold zlen in *. lia. Qed.

Definition window_ok (w : Window) : Prop :=
  u64 (zlen (string_bytes (VM (wRef w)))) /\ u64 (Seq (wRef w)) /\ u64 (zlen (string_bytes (wVolume w))) /\ u64 (wNumber w).

(** A length-prefixed string, with what follows. *)
Lemma prefixed_inj s t a b : u64 (zlen (string_bytes s)) -> u64 (zlen (string_bytes t)) ->
  uvarint 10 (zlen (string_bytes s)) ++ string_bytes s ++ a = uvarint 10 (zlen (string_bytes t)) ++ string_bytes t ++ b ->
  s = t /\ a = b.
Proof.
  intros [? ?] [? ?] E. apply uvarint_inj in E as [El E]; [|split; [done|]; eapply Z.lt_le_trans; [eassumption|discriminate]..].
  unfold zlen in El. apply app_inj_1 in E as [Es ->]; [|lia]. by apply string_bytes_inj in Es.
Qed.

Lemma encoded_inj w v : window_ok w -> window_ok v -> encoded w = encoded v ->
  wRef w = wRef v /\ wVolume w = wVolume v /\ wSegment w = wSegment v /\ wNumber w = wNumber v.
Proof.
  intros (Hw1 & Hw2 & Hw3 & Hw4) (Hv1 & Hv2 & Hv3 & Hv4) E. unfold encoded in E. do 2 apply app_inv_head in E.
  apply app_inj_1 in E as [Eseg E]; [|done]. apply prefixed_inj in E as [Evm E]; [|done..].
  apply app_inj_1 in E as [Eseq E]; [|by rewrite !length_put_be]. apply put_be_inj in Eseq; [|done..].
  apply prefixed_inj in E as [Evol E]; [|done..]. apply put_be_inj in E; [|done..].
  clear - Eseg Evm Eseq Evol E. destruct w as [[] ? [] ? ?], v as [[] ? [] ? ?]; simpl in *; split_and!; congruence.
Qed.

(** ** Lists *)

Definition cache_valid (c : Cache) : Prop := IsZero (cIdentity c) = false /\ cWeight c <> 0.

Lemma check_caches_neighbours p l :
  check_caches p l = None <-> Forall cache_valid l /\ neighbours cIdentity p l.
Proof.
  revert p. induction l as [|c l IH]; intros p; simpl; [split; [split; [by apply Forall_nil|done]|done]|].
  destruct (IsZero (cIdentity c)) eqn:Ez; simpl; [split; [done|intros [Hv _]; inversion Hv as [|? ? [? _] _]; congruence]|].
  destruct (Z.eqb_spec (cWeight c) 0) as [Ew|Ew]; [split; [done|intros [Hv _]; by inversion Hv as [|? ? [_ ?] _]]|].
  case_bool_decide as E; [split; [done|by intros (_ & Hp & _)]|]. rewrite IH, Forall_cons. unfold cache_valid at 2. tauto.
Qed.

Lemma check_caches_iff l : ordered (by_key cIdentity) l ->
  (check_caches None l = None <-> Forall cache_valid l /\ NoDup (cIdentity <$> l)).
Proof. intros Ho. by rewrite check_caches_neighbours, neighbours_distinct. Qed.

(** What a list is made of. *)
Record list_ok (l : List_) : Prop := {
  lo_valid : Forall cache_valid (caches l);
  lo_distinct : NoDup (cIdentity <$> caches l);
  lo_ordered : ordered (by_key cIdentity) (caches l);
  lo_seeds : seeds l = (seedOf ∘ cIdentity <$> caches l);
}.

Lemma NewList_ok code cs earlier l : NewList code cs earlier = Ok l -> list_ok l /\ caches l ≡ₚ cs /\ Rank.code l = code.
Proof.
  unfold NewList. destruct (Validate code); [done|]. destruct (_ >? _); [done|]. destruct (check_earlier _ _ _); [done|].
  destruct (check_caches _ _) eqn:E; [done|]. intros [= <-]. apply check_caches_iff in E as [Hv Hn]; [|apply sort_by_key_ordered].
  split; [|split; [apply sort_by_perm|done]]. split; simpl; [done|done|apply sort_by_key_ordered|done].
Qed.

Lemma NewList_perm code cs cs' earlier : cs ≡ₚ cs' -> NewList code cs earlier = NewList code cs' earlier.
Proof.
  intros Hp. unfold NewList. destruct (Validate code); [done|]. destruct (_ >? _); [done|]. destruct (check_earlier _ _ _); [done|].
  assert (Hiff : check_caches None (sort_by (by_key cIdentity) cs) = None <-> check_caches None (sort_by (by_key cIdentity) cs') = None).
  { rewrite !check_caches_iff by apply sort_by_key_ordered. by rewrite !sort_by_perm, Hp. }
  destruct (check_caches None (sort_by _ cs)) as [[]|] eqn:E, (check_caches None (sort_by _ cs')) as [[]|] eqn:E'.
  - done.
  - discriminate (proj2 Hiff eq_refl).
  - discriminate (proj1 Hiff eq_refl).
  - apply check_caches_iff in E as [_ Hn]; [|apply sort_by_key_ordered]. rewrite sort_by_perm in Hn.
    by rewrite (sort_by_key_unique cIdentity cs cs').
Qed.

Lemma Without_spec code cs earlier l i : NewList code cs earlier = Ok l ->
  Without l i = mkList code earlier (filter (fun c => cIdentity c <> i) (caches l))
                  (seedOf ∘ cIdentity <$> filter (fun c => cIdentity c <> i) (caches l)).
Proof.
  intros Hl. destruct (NewList_ok _ _ _ _ Hl) as [[Hv Hn Ho Hs] [_ Ec]]. unfold Without. revert Hl. unfold NewList.
  destruct (Validate code) eqn:Ev; [done|]. destruct (_ >? _) eqn:El; [done|]. destruct (check_earlier _ _ _) eqn:Ee; [done|].
  destruct (check_caches _ _); [done|]. intros [= <-]. simpl in *. rewrite Ev, El, Ee.
  set (k := sort_by _ cs) in *. assert (ordered (by_key cIdentity) (filter (fun c => cIdentity c <> i) k)) as Hof by by apply ordered_filter.
  rewrite (sort_by_noop _ _ Hof). destruct (check_caches None _) eqn:E; [|done]. exfalso.
  assert (check_caches None (filter (fun c => cIdentity c <> i) k) = None) as E'; [|congruence].
  apply check_caches_iff; [done|]. split.
  { apply Forall_forall. intros c [_ Hc]%list_elem_of_filter. by eapply Forall_forall in Hv. }
  eapply sublist_NoDup; [exact Hn|]. apply fmap_sublist, sublist_filter.
Qed.

(** ** Ranks *)

(** The score comparison is that of the two products. *)
Lemma compare_products a b :
  compare a b = match s_weight b * s_distance a ?= s_weight a * s_distance b with
                | Eq => bytes_compare (s_identity a) (s_identity b)
                | c => c
                end.
Proof.
  unfold compare, Mul64, descending, wrap64. rewrite !Z.shiftr_div_pow2 by lia.
  set (p := s_weight a * s_distance b). set (q := s_weight b * s_distance a).
  pose proof (Z.div_mod p (2 ^ 64) ltac:(lia)). pose proof (Z.mod_pos_bound p (2 ^ 64) ltac:(lia)).
  pose proof (Z.div_mod q (2 ^ 64) ltac:(lia)). pose proof (Z.mod_pos_bound q (2 ^ 64) ltac:(lia)).
  destruct (Z.eqb_spec (p / 2 ^ 64) (q / 2 ^ 64)) as [Eh|Eh]; simpl.
  - destruct (Z.eqb_spec (p mod 2 ^ 64) (q mod 2 ^ 64)) as [El|El]; simpl; [by replace q with p by lia; rewrite Z.compare_refl|].
    rewrite Z.gtb_ltb. destruct (Z.ltb_spec (q mod 2 ^ 64) (p mod 2 ^ 64)), (Z.compare_spec q p); try done; lia.
  - rewrite Z.gtb_ltb. destruct (Z.ltb_spec (q / 2 ^ 64) (p / 2 ^ 64)), (Z.compare_spec q p); try done; lia.
Qed.

Definition scored_ok (s : scored) : Prop := 0 < s_weight s /\ 0 < s_distance s.

(** Scores compared crosswise are ordered. *)
Lemma products_trans (w d w' d' w'' d'' : Z) : 0 < d -> 0 < w' -> 0 < d' -> 0 < d'' ->
  w' * d <= w * d' -> w'' * d' <= w' * d'' ->
  w'' * d <= w * d'' /\ (w'' * d = w * d'' -> w' * d = w * d' /\ w'' * d' = w' * d'').
Proof.
  intros Hd Hw' Hd' Hd'' H1 H2.
  assert (w' * d * (w'' * d') <= w' * d * (w' * d'')) by (apply Z.mul_le_mono_nonneg_l; nia).
  assert (w' * d'' * (w' * d) <= w' * d'' * (w * d')) by (apply Z.mul_le_mono_nonneg_l; nia).
  assert (w' * d' * (w'' * d) <= w' * d' * (w * d'')) as Hm by nia. assert (0 < w' * d') as Hp by nia. split.
  - by apply Z.mul_le_mono_pos_l in Hm.
  - intros E. assert (0 < w' * d /\ 0 < w' * d'') as [? ?] by nia.
    split; apply Z.le_antisymm; try done; nia.
Qed.

#[export] Instance compare_ordering : Ordering scored_ok compare.
Proof.
  split.
  - intros a b _ _. rewrite !compare_products, (Z.compare_antisym (s_weight b * s_distance a)).
    destruct (_ ?= _); simpl; [|done..]. by apply (cmp_antisym (cmp := bytes_compare)).
  - intros a b c [Ha Ha'] [Hb Hb'] [Hc Hc']. rewrite !compare_products. intros H1 H2.
    assert (s_weight b * s_distance a <= s_weight a * s_distance b) as L1 by (by destruct (Z.compare_spec (s_weight b * s_distance a) (s_weight a * s_distance b)); try done; lia).
    assert (s_weight c * s_distance b <= s_weight b * s_distance c) as L2 by (by destruct (Z.compare_spec (s_weight c * s_distance b) (s_weight b * s_distance c)); try done; lia).
    destruct (products_trans _ _ _ _ _ _ Ha' Hb Hb' Hc' L1 L2) as [L3 L3'].
    destruct (Z.compare_spec (s_weight c * s_distance a) (s_weight a * s_distance c)) as [E|?|?]; [|done|lia].
    destruct (L3' E) as [E1 E2]. rewrite E1, Z.compare_refl in H1. rewrite E2, Z.compare_refl in H2.
    by apply (cmp_trans (cmp := bytes_compare) _ (s_identity b) _).
Qed.

(** The order of caches a window gives. *)
Definition scored_of (w : Window) (c : Cache) : scored :=
  mkScored 0 (cWeight c) (distance (mix (Z.lxor (digest w) (seedOf (cIdentity c))))) (cIdentity c).

Definition order_cmp (w : Window) (c d : Cache) : comparison := compare (scored_of w c) (scored_of w d).

Definition weight_ok (c : Cache) : Prop := 0 < cWeight c.

Lemma hash_range b : u64 (get_be (slice (Sum256 b) 0 8)).
Proof.
  unfold get_be. pose proof (get_le_range (rev (slice (Sum256 b) 0 8))) as H. unfold u64. revert H.
  replace (zlen (rev _)) with 8; [done|]. unfold zlen. rewrite length_rev. pose proof (zlen_Sum256 b).
  unfold slice, zlen in *. rewrite length_take, length_drop. lia.
Qed.

Lemma scored_of_ok w c : weight_ok c -> scored_ok (scored_of w c).
Proof.
  intros Hw. split; [done|]. simpl.
  pose proof (distance_range (mix (Z.lxor (digest w) (seedOf (cIdentity c)))) ltac:(apply mix_range, u64_lxor; apply hash_range)). lia.
Qed.

#[export] Instance order_cmp_ordering w : Ordering weight_ok (order_cmp w).
Proof.
  split; unfold order_cmp.
  - intros c d Hc Hd. apply (cmp_antisym (cmp := compare)); by apply scored_of_ok.
  - intros c d e Hc Hd He. by apply (cmp_trans (cmp := compare)); apply scored_of_ok.
Qed.

Lemma order_cmp_eq w c d : order_cmp w c d = Eq -> cIdentity c = cIdentity d.
Proof. unfold order_cmp. rewrite compare_products. destruct (_ ?= _); try done. by intros E%bytes_compare_eq. Qed.

Definition order (w : Window) (cs : list Cache) : list Cache := sort_by (order_cmp w) cs.

#[local] Opaque digest seedOf distance mix.

Lemma omap_Forall2 {A B} (f : A -> option B) l k : Forall2 (fun x y => f x = Some y) l k -> omap f l = k.
Proof. induction 1 as [|x y l k E _ IH]; [done|]. simpl. rewrite E. by f_equal. Qed.

Lemma Ranks_spec l w : list_ok l ->
  Ranks l w = if Width (code l) <? 0 then None else Some (take (Z.to_nat (Width (code l))) (order w (caches l))).
Proof.
  intros [_ _ _ Hs]. unfold Ranks. destruct (_ <? 0); [done|]. f_equal.
  set (R := fun s c => caches l !! s_at s = Some c /\ s_weight s = cWeight c /\ s_identity s = cIdentity c /\
              s_distance s = distance (mix (Z.lxor (digest w) (seedOf (cIdentity c))))).
  assert (Forall2 R (sort_by compare (score l w)) (order w (caches l))) as HR.
  { apply sort_by_Forall2.
    - intros x y c d (_ & H1 & H2 & H3) (_ & H1' & H2' & H3'). unfold order_cmp.
      rewrite !compare_products, H1, H2, H3, H1', H2', H3'. reflexivity.
    - apply Forall2_same_length_lookup. unfold score. rewrite Hs, length_imap, length_zip, length_fmap. split; [lia|].
      intros i s c Hi Hc. rewrite list_lookup_imap in Hi.
      assert (zip (caches l) (seedOf ∘ cIdentity <$> caches l) !! i = Some (c, seedOf (cIdentity c))) as Hz.
      { apply lookup_zip_with_Some. eexists c, _. split; [done|]. split; [done|]. by rewrite list_lookup_fmap, Hc. }
      rewrite Hz in Hi. injection Hi as <-. by split_and!. }
  apply omap_Forall2. apply Forall2_take. eapply Forall2_impl; [exact HR|]. by intros s c (? & _).
Qed.

Lemma order_filter w (Q : Cache -> Prop) `{!forall c, Decision (Q c)} cs :
  Forall weight_ok cs -> NoDup (cIdentity <$> cs) -> order w (filter Q cs) = filter Q (order w cs).
Proof.
  intros Hw Hn. eapply sort_by_filter; [apply order_cmp_ordering|done|].
  intros x y Hx Hy E. apply (id_determines cIdentity cs); [done..|]. by eapply order_cmp_eq.
Qed.

Lemma valid_weights cs : Forall cache_valid cs -> Forall (fun c => 0 <= cWeight c) cs -> Forall weight_ok cs.
Proof.
  intros Hv Hw. apply Forall_forall. intros c Hc. eapply Forall_forall in Hv as [_ Hv], Hw; [|done..]. unfold weight_ok. simpl in *. lia.
Qed.

Lemma filter_all_but_one (i : Identity) (l : list Cache) : NoDup (cIdentity <$> l) ->
  (length l <= length (filter (fun c => cIdentity c <> i) l) + 1)%nat.
Proof.
  induction l as [|c l IH]; intros Hn; [simpl; lia|]. rewrite fmap_cons in Hn. apply NoDup_cons in Hn as [Hc Hn].
  rewrite filter_cons. case_decide as E; simpl; [specialize (IH Hn); lia|]. subst i.
  rewrite filter_all; [lia|]. intros d Hd E. apply Hc. rewrite <- E. by apply list_elem_of_fmap_2.
Qed.

(** Taking the first of what is left of a list. *)
Lemma take_of_filter (i : Identity) n (l : list Cache) : NoDup (cIdentity <$> l) ->
  let Q := fun c => cIdentity c <> i in
  filter Q (take n l) `prefix_of` take n (filter Q l) /\ (length (take n (filter Q l)) <= length (filter Q (take n l)) + 1)%nat /\
  (i ∉ cIdentity <$> take n l -> take n (filter Q l) = take n l).
Proof.
  intros Hn Q. rewrite <- (take_drop n l) in Hn. rewrite fmap_app in Hn. apply NoDup_app in Hn as (Hn & _ & _).
  pose proof (filter_all_but_one i (take n l) Hn) as Hlen. fold Q in Hlen.
  assert (filter Q l = filter Q (take n l) ++ filter Q (drop n l)) as E by (by rewrite <- filter_app, take_drop).
  assert (length (filter Q (take n l)) <= length (take n l))%nat as Hle by apply length_filter. rewrite length_take in Hlen, Hle.
  assert (take n (filter Q l) = filter Q (take n l) ++ take (n - length (filter Q (take n l))) (filter Q (drop n l))) as E'.
  { rewrite E at 1. rewrite take_app. f_equal. apply take_ge. lia. }
  rewrite E'. split; [by apply prefix_app_r|]. split.
  - rewrite length_app, length_take. destruct (decide (n <= length l)%nat) as [?|?]; [lia|].
    rewrite drop_ge by lia. simpl. lia.
  - intros Hi. assert (filter Q (take n l) = take n l) as Ef.
    { apply filter_all. intros c Hc E0. apply Hi. rewrite <- E0. by apply list_elem_of_fmap_2. }
    rewrite Ef, length_take. destruct (decide (n <= length l)%nat) as [?|?].
    + replace (n - n `min` length l)%nat with 0%nat by lia. apply app_nil_r.
    + rewrite drop_ge, filter_nil, take_nil by lia. apply app_nil_r.
Qed.

(** C25: a disk that leaves the list moves only the windows it held. If the disk
    does not hold the window, the ranks of the window stay as they are; if it does,
    the other holders keep their order and at most one disk is added after them. *)
Theorem leaving_disk_moves_its_windows code cs earlier l i w ranks ranks' :
  NewList code cs earlier = Ok l -> Forall (fun c => 0 <= cWeight c) cs ->
  Ranks l w = Some ranks -> Ranks (Without l i) w = Some ranks' ->
  (i ∉ cIdentity <$> ranks -> ranks' = ranks) /\
  filter (fun c => cIdentity c <> i) ranks `prefix_of` ranks' /\
  (length ranks' <= length (filter (fun c => cIdentity c <> i) ranks) + 1)%nat.
Proof.
  intros Hl Hw Hr Hr'. destruct (NewList_ok _ _ _ _ Hl) as [Hok [Hp Hc]]. pose proof Hok as [Hv Hn Ho Hs].
  rewrite Ranks_spec, Hc in Hr by done. rewrite (Without_spec _ _ _ _ _ Hl), Ranks_spec in Hr'.
  - simpl in Hr'. destruct (Width code <? 0); [done|]. injection Hr as <-. injection Hr' as <-.
    rewrite order_filter by (done || (apply valid_weights; [done|by rewrite Hp])).
    pose proof (take_of_filter i (Z.to_nat (Width code)) (order w (caches l))) as Ht.
    destruct Ht as (H1 & H2 & H3); [unfold order; by rewrite sort_by_perm|]. by split_and!.
  - split; simpl; [|eapply sublist_NoDup; [exact Hn|apply fmap_sublist, sublist_filter]|by apply ordered_filter|done].
    apply Forall_forall. intros c [_ Hc']%list_elem_of_filter. by eapply Forall_forall in Hv.
Qed.

(** C26: every host ranks alike. The list does not depend on the order in which a
    host learned of the disks, and the ranks of a window under a narrower code are
    the first of its ranks under a wider one. *)
Theorem hosts_rank_alike code cs cs' earlier l w narrow wide :
  NewList code cs earlier = Ok l -> cs ≡ₚ cs' -> 0 <= Width narrow <= Width wide ->
  NewList code cs' earlier = Ok l /\
  exists ranks, Ranks (Under l wide) w = Some ranks /\ Ranks (Under l narrow) w = Some (take (Z.to_nat (Width narrow)) ranks).
Proof.
  intros Hl Hp Hw. split; [by rewrite <- (NewList_perm _ _ _ _ Hp)|].
  destruct (NewList_ok _ _ _ _ Hl) as [[Hv Hn Ho Hs] _].
  assert (forall c, list_ok (Under l c)) as Hu by (by intros c; split). rewrite !Ranks_spec by done. simpl.
  destruct (Z.ltb_spec (Width narrow) 0), (Z.ltb_spec (Width wide) 0); try lia. eexists. split; [done|].
  rewrite take_take. do 2 f_equal. lia.
Qed.

(** C28: the distance of a hash is the logarithm it stands for. It is at least one
    unit and at most 64 << fractionBits, and -log2((h | 1) / 2^64), in units of
    2^-32, is at most the distance and more than the distance less two: the powers
    of both sides are compared as integers. *)
Theorem distance_is_the_logarithm h : u64 h ->
  1 <= distance h <= Z.shiftl 64 fractionBits /\
  2 ^ (Z.shiftl 64 fractionBits - distance h) <= Z.lor h 1 ^ (2 ^ fractionBits) < 2 ^ (Z.shiftl 64 fractionBits - distance h + 2).
Proof.
  intros Hh. change (Z.shiftl 64 fractionBits) with (2 ^ 38). split; [by apply distance_range|].
  rewrite distance_log2 by done. replace (2 ^ 38 - (2 ^ 38 - log2 (Z.lor h 1))) with (log2 (Z.lor h 1)) by ring.
  apply (log2_spec _ (lor_one_range h Hh)).
Qed.

(** The finalizer is a bijection of the 64-bit numbers. *)
Theorem mix_is_a_bijection :
  (forall z, u64 z -> u64 (mix z)) /\ (forall y z, u64 y -> u64 z -> mix y = mix z -> y = z) /\
  (forall z, u64 z -> exists y, u64 y /\ mix y = z).
Proof.
  split; [exact mix_range|]. split.
  - intros y z Hy Hz E. by rewrite <- (unmix_mix y), <- (unmix_mix z), E by done.
  - intros z Hz. exists (unmix z). split; [unfold unmix; cbv zeta; auto|by apply mix_unmix].
Qed.

(** No two windows encode alike: what is hashed for a window determines its
    checkpoint, its volume, its kind and its number. *)
Theorem windows_encode_apart w v : window_ok w -> window_ok v -> encoded w = encoded v ->
  wRef w = wRef v /\ wVolume w = wVolume v /\ wSegment w = wSegment v /\ wNumber w = wNumber v.
Proof. exact (encoded_inj w v). Qed.

(** C27: comparing the high and then the low words of the two products orders
    scores exactly as the fractions weight / distance do, higher first, equal ones
    by identity. *)
Theorem scores_compare_exactly a b :
  compare a b = match s_weight b * s_distance a ?= s_weight a * s_distance b with
                | Eq => bytes_compare (s_identity a) (s_identity b)
                | c => c
                end.
Proof. apply compare_products. Qed.

(** ** The ranks the repository's tests write out *)

Definition testCache (n weight : Z) : Cache := mkCache ([Zbyte n; Zbyte 0x5a; Zbyte (Z.lxor n 0xff)] ++ zeros 13) weight "10.0.0.1:8081".

Definition testCaches : list Cache :=
  [testCache 1 1; testCache 2 2; testCache 3 1; testCache 4 3; testCache 5 1; testCache 6 1; testCache 7 2].

Definition testList : List_ := match NewList DefaultCode testCaches [] with Ok l => l | Err _ => emptyList end.

Definition testWindow (vm : string) (sequence number : Z) : Window := mkWindow (mkRef vm sequence) "disk" false number 0.

Definition first_bytes (ranks : option (list Cache)) : option (list Z) := List.map (fun c => byteZ (hd Byte.x00 (cIdentity c))) <$> ranks.

Lemma ranks_written_out :
  first_bytes (Ranks testList (testWindow "vm-alike" 4 0)) = Some [1; 4; 6; 7; 2; 3] /\
  first_bytes (Ranks testList (testWindow "vm-alike" 4 1)) = Some [2; 4; 7; 3; 6; 1] /\
  first_bytes (Ranks testList (testWindow "vm-alike" 5 0)) = Some [3; 1; 6; 4; 5; 2] /\
  first_bytes (Ranks testList (SegmentWindow (mkRef "vm-alike" 4) "disk" 0)) = Some [4; 2; 3; 7; 5; 1].
Proof. vm_compute. split_and!; reflexivity. Qed.

Lemma testList_new : NewList DefaultCode testCaches [] = Ok testList.
Proof. vm_compute. reflexivity. Qed.

Lemma leaving_disk_moves_its_windows_witness :
  exists ranks ranks', Ranks testList (testWindow "vm-alike" 4 0) = Some ranks /\
    Ranks (Without testList (cIdentity (testCache 4 3))) (testWindow "vm-alike" 4 0) = Some ranks' /\
    filter (fun c => cIdentity c <> cIdentity (testCache 4 3)) ranks `prefix_of` ranks'.
Proof.
  destruct (Ranks testList _) as [ranks|] eqn:E; [|vm_compute in E; discriminate E].
  destruct (Ranks (Without _ _) _) as [ranks'|] eqn:E'; [|vm_compute in E'; discriminate E'].
  exists ranks, ranks'. split; [reflexivity|]. split; [reflexivity|].
  apply (leaving_disk_moves_its_windows _ _ _ _ _ _ _ _ testList_new ltac:(repeat constructor; discriminate) E E').
Defined.

Lemma hosts_rank_alike_witness : NewList DefaultCode (rev testCaches) [] = Ok testList.
Proof.
  apply (hosts_rank_alike _ _ (rev testCaches) _ _ (testWindow "vm-alike" 4 0) (CodeFor 2) (CodeFor 5) testList_new).
  - rewrite <- Permutation_rev. reflexivity.
  - vm_compute. split; discriminate.
Defined.

Lemma distance_is_the_logarithm_witness : u64 2 /\ 1 <= distance 2 <= Z.shiftl 64 fractionBits.
Proof. assert (u64 2) as H by (split; [discriminate|reflexivity]). split; [exact H|]. apply (distance_is_the_logarithm 2 H). Defined.

Lemma windows_encode_apart_witness : window_ok (testWindow "vm" 4 0) /\ wNumber (testWindow "vm" 4 0) = 0.
Proof.
  assert (window_ok (testWindow "vm" 4 0)) as H by (vm_compute; split_and!; done). split; [exact H|].
  destruct (windows_encode_apart (testWindow "vm" 4 0) (testWindow "vm" 4 0) H H eq_refl) as (_ & _ & _ & E). exact E.
Defined.

(** ** Shares *)

Lemma InShare_none w p : p <= 0 -> InShare w p = false.
Proof. intros Hp. unfold InShare. apply Z.ltb_ge. pose proof (Z.mod_pos_bound (mix (Z.lxor (digest w) shareSalt)) 100 ltac:(lia)). lia. Qed.

Lemma InShare_all w p : 100 <= p -> InShare w p = true.
Proof. intros Hp. unfold InShare. apply Z.ltb_lt. pose proof (Z.mod_pos_bound (mix (Z.lxor (digest w) shareSalt)) 100 ltac:(lia)). lia. Qed.

Lemma InShare_mono w p q : p <= q -> InShare w p = true -> InShare w q = true.
Proof. unfold InShare. rewrite !Z.ltb_lt. lia. Qed.

(** ** Holders *)

Lemma Holders_spec l w ranks : Ranks l w = Some ranks -> ranks <> [] ->
  exists holders, Holders l w = Some holders /\ zlen holders = Width (code l) /\
    forall i, (i < length holders)%nat -> holders !! i = ranks !! (i mod length ranks)%nat.
Proof.
  intros Hr Hne. unfold Holders. rewrite Hr. simpl. destruct ranks as [|c ranks]; [done|]. set (rs := c :: ranks) in *.
  assert (0 <= Width (code l)) as Hw by (unfold Ranks in Hr; destruct (Width (code l) <? 0) eqn:E; [done|lia]).
  eexists. split; [reflexivity|].
  assert (Forall2 (fun i x => rs !! (i mod length rs)%nat = Some x) (seq 0 (Z.to_nat (Width (code l))))
            (omap (fun stripe => rs !! (stripe mod length rs)%nat) (seq 0 (Z.to_nat (Width (code l)))))) as HF.
  { induction (seq _ _) as [|i rest IH]; [constructor|]. simpl.
    destruct (lookup_lt_is_Some_2 rs (i mod length rs)%nat) as [x Hx]; [apply Nat.mod_upper_bound; done|].
    simpl in Hx. unfold rs at 3. rewrite Hx. constructor; [done|]. exact IH. }
  pose proof (Forall2_length _ _ _ HF) as Hlen. rewrite length_seq in Hlen. split; [unfold zlen; lia|].
  intros i Hi. rewrite <- Hlen in Hi. destruct (lookup_lt_is_Some_2 _ i (eq_ind _ (fun n => (i < n)%nat) Hi _ Hlen)) as [x Hx].
  rewrite Hx. symmetry. eapply Forall2_lookup_r in HF as (j & Hj & HF); [|exact Hx]. apply lookup_seq in Hj as [-> _]. exact HF.
Qed.

(** ** What the comments say *)

(** The distance of hash zero is 64 << fractionBits itself. *)
Lemma distance_reaches_its_bound : distance 0 = Z.shiftl 64 fractionBits.
Proof. vm_compute. reflexivity. Qed.

(** A width that wraps passes the check, and ranking under it panics. *)
Lemma overflowing_code_is_valid : Validate (mkCode (2 ^ 63 - 1) 1) = None /\
  forall cs l w, NewList (mkCode (2 ^ 63 - 1) 1) cs [] = Ok l -> Ranks l w = None.
Proof.
  split; [reflexivity|]. intros cs l w Hl. destruct (NewList_ok _ _ _ _ Hl) as [Hok [_ Hc]]. rewrite Ranks_spec, Hc by done. reflexivity.
Qed.

End Rank.
