(* ===== verification/Stripe.v ===== *)
(** * Striping an envelope under an erasure code

    [stripe/stripe.go]: cutting an envelope into the stripes of a code, and
    joining any [K] of them.  The Reed-Solomon encoder is the class [Encoder],
    with the laws its package documents in [EncoderLaws]. Any [K] stripes of an
    envelope rebuild it, whatever other stripes are given beside them, and what a
    join returns passed its check. *)

From S2P Require Import Prelude Bytes Order Rank.

Module Stripe.
Import Rank.

(** [Panic] is that of [make] at a negative length. *)
Inductive serror := EInvalid | ETooLong | EEncode | EDecode | ErrTooFew | ErrWrong | EPadding | ECheck | Panic.

(** ** The encoder

    A missing shard of [ReconstructData] is [None]: nil, or of no length. *)

Class Encoder := {
  Encode : Code -> list (list byte) -> result serror (list (list byte));
  ReconstructData : Code -> list (option (list byte)) -> result serror (list (option (list byte)));
}.

(** The shards of an encoder's argument: one for each index, of one size. *)
Definition shards_ok (c : Code) (size : Z) (shards : list (list byte)) : Prop :=
  zlen shards = Width c /\ 0 < size /\ Forall (fun shard => zlen shard = size) shards.

(** [partial] has [K] of the shards [full], and no other. *)
Definition enough_of (c : Code) (full : list (list byte)) (partial : list (option (list byte))) : Prop :=
  length partial = length full /\
  (forall i x, partial !! i = Some (Some x) -> full !! i = Some x) /\
  exists indices : list nat, NoDup indices /\ zlen indices = K c /\
    Forall (fun i => exists x, partial !! i = Some (Some x)) indices.

(** Encoding leaves the data shards as they are and fills the others; any [K]
    shards of an encoding give its data shards back. *)
Class EncoderLaws `{Encoder} (c : Code) : Prop := {
  Encode_ok shards size : shards_ok c size shards ->
    exists full, Encode c shards = Ok full /\ shards_ok c size full /\
      take (Z.to_nat (K c)) full = take (Z.to_nat (K c)) shards;
  ReconstructData_ok shards size full partial :
    shards_ok c size shards -> Encode c shards = Ok full -> enough_of c full partial ->
    exists out, ReconstructData c partial = Ok out /\ take (Z.to_nat (K c)) out = Some <$> take (Z.to_nat (K c)) full;
}.

(** ** Stripes *)

Record Stripe := mkStripe { sCode : Code; sIndex : Z; sLength : Z; sBytes : list byte }.

#[export] Instance Stripe_eq_dec : EqDecision Stripe.
Proof. solve_decision. Defined.

Definition MaxLength : Z := 2 ^ 31 - 1.

Definition maxAttempts : Z := 64.

Definition Size (code : Code) (length : Z) : Z :=
  if (length <=? 0) || (K code <? 1) then 0 else Z.quot (int64 (length + K code - 1)) (K code).

(** [make] and [copy]: the envelope and zeros after it. *)
Definition padded (n : Z) (envelope : list byte) : list byte := take (Z.to_nat n) (envelope ++ zeros n).

Section WithEncoder.
Context `{Encoder}.

Definition Split (code : Code) (envelope : list byte) : result serror (list Stripe) :=
  match Validate code with
  | Some _ => Err EInvalid
  | None =>
    if zlen envelope >? MaxLength then Err ETooLong
    else if Width code <? 0 then Err Panic
    else if K code =? 1 then
      Ok ((fun index => mkStripe code index (zlen envelope) envelope) <$> seqZ 0 (Width code))
    else
      let size := Size code (zlen envelope) in
      let all := padded (Width code * size) envelope in
      let shards := (fun index => slice all (index * size) ((index + 1) * size)) <$> seqZ 0 (Width code) in
      let? shards := (if (M code >? 0) && (size >? 0) then Encode code shards else Ok shards) in
      Ok (zip_with (fun index shard => mkStripe code index (zlen envelope) shard) (seqZ 0 (Width code)) shards)
  end.

Record Joined := mkJoined { Envelope : list byte; Used : list nat; Wrong : list nat }.

Definition wellFormed (code : Code) (s : Stripe) : bool :=
  (sIndex s >=? 0) && (sIndex s <? Width code) && (sLength s >=? 0) && (sLength s <=? MaxLength) &&
  (zlen (sBytes s) =? Size code (sLength s)).

Definition Valid (s : Stripe) : bool :=
  match Validate (sCode s) with None => wellFormed (sCode s) s | Some _ => false end.

(** Whether [subsets] passes over a candidate. *)
Definition skips (stripes : list Stripe) (chosen : list nat) (next : nat) : bool :=
  match stripes !! next with
  | None => true
  | Some n =>
    match chosen with
    | first :: _ => negb (bool_decide (sLength <$> stripes !! first = Some (sLength n)))
    | [] => false
    end || existsb (fun position => bool_decide (sIndex <$> stripes !! position = Some (sIndex n))) chosen
  end.

(** The sets [walk] yields, in its order: [need] more candidates after [chosen]. *)
Fixpoint walk (stripes : list Stripe) (need : nat) (chosen candidates : list nat) : list (list nat) :=
  match need with
  | O => [chosen]
  | S need' =>
    (fix loop candidates :=
       match candidates with
       | [] => []
       | at_ :: rest =>
         if bool_decide (length candidates < need)%nat then []
         else (if skips stripes chosen at_ then [] else walk stripes need' (chosen ++ [at_]) rest) ++ loop rest
       end) candidates
  end.

Definition subsets (code : Code) (stripes : list Stripe) (candidates : list nat) : list (list nat) :=
  walk stripes (Z.to_nat (K code)) [] candidates.

(** The stripes of a subset, each in its place. *)
Definition placed (code : Code) (stripes : list Stripe) (subset : list nat) : list (option (list byte)) :=
  fold_left (fun shards position =>
    match stripes !! position with
    | Some s => <[Z.to_nat (sIndex s) := Some (sBytes s)]> shards
    | None => shards
    end) subset (replicate (Z.to_nat (Width code)) None).

Definition rebuild (code : Code) (stripes : list Stripe) (subset : list nat) : result serror (list byte) :=
  match hd_error subset ≫= (fun first => stripes !! first) with
  | None => Err Panic
  | Some first =>
    let length := sLength first in
    if K code =? 1 then Ok (sBytes first)
    else
      let size := Size code length in
      if size =? 0 then Ok []
      else
        let shards := placed code stripes subset in
        let data := take (Z.to_nat (K code)) shards in
        let? envelope :=
          (if forallb (fun shard => bool_decide (is_Some shard)) data then Ok (concat (default [] <$> data))
           else let? out := ReconstructData code shards in
                Ok (concat (default [] <$> take (Z.to_nat (K code)) out))) in
        if existsb (fun b => negb (bool_decide (b = Byte.x00))) (drop (Z.to_nat length) envelope) then Err EPadding
        else Ok (take (Z.to_nat length) envelope)
  end.

Definition positions_in (stripes : list Stripe) (keep : Stripe -> bool) (l : list nat) : list nat :=
  List.filter (fun p => from_option keep false (stripes !! p)) l.

Definition mismatched (code : Code) (stripes : list Stripe) (candidates : list nat) (envelope : list byte) :
    result serror (list nat) :=
  let? own := Split code envelope in
  Ok (positions_in stripes (fun s => negb (sLength s =? zlen envelope) ||
        negb (bool_decide (Some (sBytes s) = sBytes <$> own !! Z.to_nat (sIndex s)))) candidates).

(** [slices.Sort] and [slices.Compact] *)
Fixpoint compact (l : list nat) : list nat :=
  match l with
  | x :: (y :: _) as rest => if bool_decide (x = y) then compact rest else x :: compact rest
  | _ => l
  end.

Definition finish (joined : Joined) : Joined :=
  mkJoined (Envelope joined) (Used joined) (compact (merge_sort Nat.le (Wrong joined))).

(** The envelope a set rebuilds, if it passes. *)
Definition tried (code : Code) (stripes : list Stripe) (check : option (list byte -> bool)) (subset : list nat) :
    option (list byte) :=
  match rebuild code stripes subset with
  | Err _ => None
  | Ok envelope => if from_option (fun check => check envelope) true check then Some envelope else None
  end.

(** The loop over the sets: the envelope and the set that passed, how many were
    tried, whether one failed, and the wrong positions so far. *)
Fixpoint attempt (code : Code) (stripes : list Stripe) (check : option (list byte -> bool)) (sets : list (list nat))
    (attempts : Z) (failed : bool) (wrong : list nat) : option (list byte * list nat) * Z * bool * list nat :=
  match sets with
  | [] => (None, attempts, failed, wrong)
  | subset :: sets =>
    if attempts =? maxAttempts then (None, attempts, failed, wrong)
    else
      let attempts := attempts + 1 in
      match tried code stripes check subset with
      | Some envelope => (Some (envelope, subset), attempts, failed, wrong)
      | None => attempt code stripes check sets attempts true
                  (wrong ++ if K code =? 1 then take 1 subset else [])
      end
  end.

(** The positions of the stripes of the code that are well formed, and of those
    that are not. *)
Definition candidates_of (code : Code) (stripes : list Stripe) : list nat :=
  positions_in stripes (fun s => bool_decide (sCode s = code) && wellFormed code s) (seq 0 (length stripes)).

Definition malformed_of (code : Code) (stripes : list Stripe) : list nat :=
  positions_in stripes (fun s => bool_decide (sCode s = code) && negb (wellFormed code s)) (seq 0 (length stripes)).

Definition noJoined : Joined := mkJoined [] [] [].

(** The simulator's injected faults are off. *)
Definition Join (code : Code) (stripes : list Stripe) (check : option (list byte -> bool)) : Joined * option serror :=
  match Validate code with
  | Some _ => (noJoined, Some EInvalid)
  | None =>
    let candidates := candidates_of code stripes in
    let '(found, attempts, failed, wrong) :=
      attempt code stripes check (subsets code stripes candidates) 0 false (malformed_of code stripes) in
    match found with
    | Some (envelope, used) =>
      if failed then
        match mismatched code stripes candidates envelope with
        | Err e => (noJoined, Some e)
        | Ok more => (finish (mkJoined envelope used (wrong ++ more)), None)
        end
      else (finish (mkJoined envelope used wrong), None)
    | None =>
      (finish (mkJoined [] [] wrong), Some (if attempts =? 0 then ErrTooFew else ErrWrong))
    end
  end.

(** ** Sizes *)

(** A code that stores an envelope: valid, and its width did not wrap. *)
Definition code_ok (c : Code) : Prop := 1 <= K c /\ 0 <= M c /\ K c + M c <= maxWidth.

Lemma code_ok_width c : code_ok c -> Width c = K c + M c /\ 1 <= Width c <= 32.
Proof. intros (? & ? & Hw). unfold maxWidth in Hw. unfold Width, int64. rewrite Z.mod_small by lia. lia. Qed.

Lemma code_ok_valid c : code_ok c -> Validate c = None.
Proof.
  intros Hc. destruct (code_ok_width c Hc) as [_ ?]. destruct Hc as (? & ? & ?). unfold Validate, maxWidth.
  destruct (Z.ltb_spec (K c) 1), (Z.ltb_spec (M c) 0), (Z.gtb_spec (Width c) 32); simpl; done || lia.
Qed.

Lemma Size_spec c n : code_ok c -> 0 <= n <= MaxLength ->
  0 <= Size c n /\ n <= K c * Size c n < n + K c /\ (Size c n = 0 <-> n = 0).
Proof.
  intros (? & ? & Hw) Hn. unfold maxWidth, MaxLength in *. unfold Size.
  destruct (Z.leb_spec n 0), (Z.ltb_spec (K c) 1); simpl; try lia. unfold int64. rewrite Z.mod_small by lia.
  rewrite Z.quot_div_nonneg by lia. replace (n + K c - 1 + 2 ^ 63 - 2 ^ 63) with (n + K c - 1) by lia.
  pose proof (Z.div_mod (n + K c - 1) (K c) ltac:(lia)). pose proof (Z.mod_pos_bound (n + K c - 1) (K c) ltac:(lia)).
  assert (0 < (n + K c - 1) / K c) by (apply Z.div_str_pos; lia). lia.
Qed.

(** ** Cutting *)

Lemma concat_slices {A} (all : list A) size n : 0 <= size -> 0 <= n ->
  concat ((fun i => slice all (i * size) ((i + 1) * size)) <$> seqZ 0 n) = take (Z.to_nat (n * size)) all.
Proof.
  intros Hs Hn. pattern n. apply natlike_ind; [done| |done]. clear n Hn. intros n Hn IH.
  replace (Z.succ n) with (n + 1) by lia. rewrite seqZ_app, fmap_app, concat_app, IH by lia.
  rewrite (seqZ_cons (0 + n) 1), seqZ_nil by lia. simpl. rewrite app_nil_r, Z.add_0_l. unfold slice.
  replace (Z.to_nat ((n + 1) * size)) with (Z.to_nat (n * size) + Z.to_nat size)%nat by lia.
  replace (Z.to_nat ((n + 1) * size - n * size)) with (Z.to_nat size) by lia. by rewrite take_take_drop.
Qed.

Lemma zlen_padded n e : 0 <= n -> zlen (padded n e) = n.
Proof. intros Hn. unfold padded. pose proof (zlen_zeros n Hn). unfold zlen in *. rewrite length_take, length_app. lia. Qed.

(** What [Split] makes of an envelope under a code with [K > 1]. *)
Lemma Split_shards c e : code_ok c -> EncoderLaws c -> zlen e <= MaxLength -> K c <> 1 ->
  exists full, Split c e = Ok (zip_with (fun i shard => mkStripe c i (zlen e) shard) (seqZ 0 (Width c)) full) /\
    zlen full = Width c /\ Forall (fun shard => zlen shard = Size c (zlen e)) full /\
    concat (take (Z.to_nat (K c)) full) = padded (K c * Size c (zlen e)) e /\
    (0 < M c -> 0 < Size c (zlen e) -> exists shards, shards_ok c (Size c (zlen e)) shards /\ Encode c shards = Ok full).
Proof.
  intros Hc Hlaws He HK. destruct (code_ok_width c Hc) as [Ew Hw]. unfold Split. rewrite code_ok_valid by done.
  pose proof (zlen_nonneg e). destruct (Size_spec c (zlen e) Hc ltac:(lia)) as (Hs0 & Hs & _).
  set (size := Size c (zlen e)) in *. destruct (Z.gtb_spec (zlen e) MaxLength); [lia|].
  destruct (Z.ltb_spec (Width c) 0); [lia|]. destruct (Z.eqb_spec (K c) 1); [done|].
  set (all := padded (Width c * size) e).
  assert (zlen all = Width c * size) as Hall by (apply zlen_padded; nia).
  set (shards := (fun i => slice all (i * size) ((i + 1) * size)) <$> seqZ 0 (Width c)).
  assert (zlen shards = Width c) as Hl by (unfold shards, zlen; rewrite length_fmap, length_seqZ; lia).
  assert (Forall (fun shard => zlen shard = size) shards) as Hf.
  { unfold shards. apply Forall_fmap, Forall_forall. intros i Hi%elem_of_seqZ.
    assert (0 <= i * size /\ (i + 1) * size <= Width c * size) by nia. unfold slice, zlen in *. simpl.
    rewrite length_take, length_drop. lia. }
  assert (concat (take (Z.to_nat (K c)) shards) = padded (K c * size) e) as Hcat.
  { destruct Hc as (? & ? & ?). unfold shards. rewrite <- fmap_take. replace (take _ (seqZ 0 (Width c))) with (seqZ 0 (K c)).
    - rewrite concat_slices by lia. unfold all, padded. rewrite take_take. replace (_ `min` _)%nat with (Z.to_nat (K c * size)) by nia.
      assert (0 <= K c * size <= Width c * size) by nia.
      rewrite !take_app. f_equal. unfold zeros. rewrite !take_replicate. f_equal. unfold zlen in *. lia.
    - rewrite Ew, seqZ_app by lia. rewrite take_app_le by (rewrite length_seqZ; lia). symmetry. apply take_ge. rewrite length_seqZ. lia. }
  destruct (Z.gtb_spec (M c) 0), (Z.gtb_spec size 0); simpl; try (exists shards; split_and!; done || (intros; lia)).
  assert (shards_ok c size shards) as Hsh by (by split_and!).
  destruct (Encode_ok shards size Hsh) as (full & Ee & (Hfl & _ & Hff) & Htake). rewrite Ee. exists full. rewrite Htake.
  split_and!; try done. intros _ _. by exists shards.
Qed.

(** The stripes of an envelope, each in its place. *)
Lemma Split_own c e : code_ok c -> EncoderLaws c -> zlen e <= MaxLength ->
  exists own, Split c e = Ok own /\ zlen own = Width c /\
    forall i s, own !! i = Some s ->
      sCode s = c /\ sIndex s = Z.of_nat i /\ sLength s = zlen e /\ zlen (sBytes s) = Size c (zlen e) /\ (K c = 1 -> sBytes s = e).
Proof.
  intros Hc Hlaws He. destruct (code_ok_width c Hc) as [Ew Hw]. pose proof (zlen_nonneg e).
  destruct (Z.eq_dec (K c) 1) as [E1|E1].
  - unfold Split. rewrite code_ok_valid by done. destruct (Z.gtb_spec (zlen e) MaxLength); [lia|].
    destruct (Z.ltb_spec (Width c) 0); [lia|]. rewrite E1. simpl. eexists. split; [done|].
    split; [unfold zlen; rewrite length_fmap, length_seqZ; lia|]. intros i s Hs.
    rewrite list_lookup_fmap in Hs. destruct (seqZ 0 (Width c) !! i) as [z|] eqn:Ez; [|done]. apply lookup_seqZ in Ez as [-> _].
    injection Hs as <-. simpl. destruct (Size_spec c (zlen e) Hc ltac:(lia)) as (_ & ? & _). split_and!; try done; lia.
  - destruct (Split_shards c e Hc Hlaws He E1) as (full & Es & Hl & Hf & _). eexists. split; [done|].
    split; [unfold zlen in *; rewrite length_zip_with, length_seqZ; lia|]. intros i s Hs.
    apply lookup_zip_with_Some in Hs as (z & x & -> & Hz & Hx). apply lookup_seqZ in Hz as [-> _].
    eapply Forall_lookup_1 in Hf; [|exact Hx]. split_and!; try done; simpl; lia.
Qed.

Definition index_at (stripes : list Stripe) (p : nat) : nat := from_option (fun s => Z.to_nat (sIndex s)) 0%nat (stripes !! p).

(** The positions of a set hold stripes of [own]. *)
Definition of_own (own stripes : list Stripe) (subset : list nat) : Prop :=
  Forall (fun p => exists s, stripes !! p = Some s /\ s ∈ own) subset.

Lemma placed_fold own stripes subset acc :
  (forall i s, own !! i = Some s -> sIndex s = Z.of_nat i) -> of_own own stripes subset -> length acc = length own ->
  (forall i x, acc !! i = Some (Some x) -> (sBytes <$> own) !! i = Some x) ->
  let out := fold_left (fun shards position =>
    match stripes !! position with Some s => <[Z.to_nat (sIndex s) := Some (sBytes s)]> shards | None => shards end) subset acc in
  length out = length own /\ (forall i x, out !! i = Some (Some x) -> (sBytes <$> own) !! i = Some x) /\
  (forall i x, acc !! i = Some (Some x) -> is_Some (mjoin (out !! i))) /\
  (forall p, p ∈ subset -> is_Some (mjoin (out !! index_at stripes p))).
Proof.
  intros Hown Hsub. revert acc. induction Hsub as [|p subset (s & Hp & [i Hi]%list_elem_of_lookup) _ IH]; intros acc Hlen Hacc; simpl.
  { split_and!; try done. - intros i x ->. by eexists. - intros p Hp. by apply not_elem_of_nil in Hp. }
  rewrite Hp. pose proof (Hown i s Hi) as Ei. assert (Z.to_nat (sIndex s) = i) as Ei' by lia. rewrite Ei'.
  assert (i < length acc)%nat as Hin by (rewrite Hlen; by apply lookup_lt_Some in Hi).
  destruct (IH (<[i := Some (sBytes s)]> acc)) as (H1 & H2 & H3 & H4); [by rewrite length_insert| |].
  { intros j x Hj. destruct (decide (i = j)) as [<-|Hne].
    - rewrite list_lookup_insert_eq in Hj by done. injection Hj as <-. by rewrite list_lookup_fmap, Hi.
    - rewrite list_lookup_insert_ne in Hj by done. by apply Hacc. }
  split_and!; [done|done| |].
  - intros j x Hj. destruct (decide (i = j)) as [<-|Hne]; [apply (H3 i (sBytes s)); by rewrite list_lookup_insert_eq|].
    apply (H3 j x). by rewrite list_lookup_insert_ne.
  - intros q [->|Hq]%elem_of_cons; [|by apply H4]. unfold index_at. rewrite Hp. simpl. rewrite Ei'.
    apply (H3 i (sBytes s)). by rewrite list_lookup_insert_eq.
Qed.

Lemma placed_enough c own stripes subset :
  (forall i s, own !! i = Some s -> sIndex s = Z.of_nat i) -> zlen own = Width c -> of_own own stripes subset ->
  NoDup (index_at stripes <$> subset) -> zlen subset = K c ->
  enough_of c (sBytes <$> own) (placed c stripes subset) /\
  forall p, p ∈ subset -> is_Some (mjoin (placed c stripes subset !! index_at stripes p)).
Proof.
  intros Hown Hw Hsub Hn HK. unfold placed.
  destruct (placed_fold own stripes subset (replicate (Z.to_nat (Width c)) None)) as (H1 & H2 & _ & H4); [done|done| | |].
  { rewrite length_replicate. unfold zlen in *. lia. }
  { intros i x Hx. apply lookup_replicate in Hx as [? _]. done. }
  split; [|done]. split; [by rewrite length_fmap|]. split; [done|]. exists (index_at stripes <$> subset).
  split; [done|]. split; [unfold zlen in *; by rewrite length_fmap|]. apply Forall_fmap, Forall_forall. intros p Hp.
  destruct (H4 p Hp) as [x Hx]. simpl. exists x. by destruct (fold_left _ _ _ !! index_at stripes p) as [[]|]; simplify_eq/=.
Qed.

(** Distinct indices below [n], [n] of them, are all. *)
Lemma all_indices (l : list nat) n i : NoDup l -> Forall (fun j => (j < n)%nat) l -> length l = n -> (i < n)%nat -> i ∈ l.
Proof.
  intros Hn Hf Hl Hi. assert (l ≡ₚ seq 0 n) as Hp; [|rewrite Hp; apply elem_of_seq; lia].
  apply submseteq_length_Permutation; [|rewrite length_seq; lia]. apply NoDup_submseteq; [done|].
  intros j Hj. eapply Forall_forall in Hf; [|exact Hj]. apply elem_of_seq. simpl in Hf. lia.
Qed.

Lemma padded_zeros n e : zlen e <= n -> padded n e = e ++ zeros (n - zlen e).
Proof.
  intros Hn. unfold padded, zeros, zlen in *. rewrite take_app, take_ge by lia. f_equal. rewrite take_replicate. f_equal. lia.
Qed.

Lemma existsb_zeros n : existsb (fun b => negb (bool_decide (b = Byte.x00))) (zeros n) = false.
Proof. unfold zeros. induction (Z.to_nat n); [done|]. simpl. done. Qed.

(** With every shard present, what is placed is what was cut. *)
Lemma placed_complete (full : list (list byte)) (partial : list (option (list byte))) n :
  length partial = length full -> (forall i x, partial !! i = Some (Some x) -> full !! i = Some x) ->
  forallb (fun shard => bool_decide (is_Some shard)) (take n partial) = true -> default [] <$> take n partial = take n full.
Proof.
  intros Hlen Hag Hall. apply list_eq. intros i. rewrite list_lookup_fmap. destruct (decide (i < n)%nat) as [Hi|Hi].
  - rewrite !lookup_take_lt by done. destruct (partial !! i) as [o|] eqn:E; simpl.
    + assert (is_Some o) as [x ->].
      { rewrite forallb_forall in Hall. apply (bool_decide_unpack _), Is_true_eq_left, Hall.
        apply list_elem_of_In, list_elem_of_lookup. exists i. by apply lookup_take_Some. }
      simpl. by rewrite (Hag i x E).
    + symmetry. apply lookup_ge_None. apply lookup_ge_None in E. lia.
  - by rewrite !lookup_take_ge by lia.
Qed.

(** The data in hand, or decoded, is the padded envelope. *)
Lemma decoded c (e : list byte) full partial (indices : list nat) : code_ok c -> EncoderLaws c -> zlen full = Width c ->
  (0 < M c -> exists shards, shards_ok c (Size c (zlen e)) shards /\ Encode c shards = Ok full) ->
  enough_of c full partial -> NoDup indices -> zlen indices = K c ->
  Forall (fun i => (i < length full)%nat /\ is_Some (mjoin (partial !! i))) indices ->
  (if forallb (fun shard => bool_decide (is_Some shard)) (take (Z.to_nat (K c)) partial)
   then Ok (concat (default [] <$> take (Z.to_nat (K c)) partial))
   else let? out := ReconstructData c partial in Ok (concat (default [] <$> take (Z.to_nat (K c)) out)))
  = Ok (concat (take (Z.to_nat (K c)) full)).
Proof.
  intros Hc Hlaws Hl Hsh Hen Hn Hi Hind. pose proof Hen as (Hlen & Hag & _).
  destruct (code_ok_width c Hc) as [Ew Hw]. destruct Hc as (HK & HM & _).
  destruct (forallb _ _) eqn:Eall; [by rewrite (placed_complete full partial _ Hlen Hag Eall)|].
  assert (0 < M c) as HM'.
  { apply Z.nle_gt. intros HM0. apply not_true_iff_false in Eall. apply Eall. apply forallb_forall. intros o Ho.
    apply list_elem_of_In, list_elem_of_lookup in Ho as [i Ho]. apply lookup_take_Some in Ho as [Ho Hik].
    assert (i ∈ indices) as Hin.
    { apply (all_indices indices (Z.to_nat (K c))); [done| |unfold zlen in *; lia|done].
      eapply Forall_impl; [exact Hind|]. intros j [Hj _]. unfold zlen in *. simpl in *. lia. }
    eapply Forall_forall in Hind as [_ [x Hx]]; [|exact Hin]. rewrite Ho in Hx. simpl in Hx. subst o. by apply bool_decide_eq_true_2. }
  destruct (Hsh HM') as (shards & Hs & Henc). destruct (ReconstructData_ok _ _ _ _ Hs Henc Hen) as (out & -> & ->).
  do 2 f_equal. rewrite <- list_fmap_compose. rewrite (list_fmap_ext _ id) by done. apply list_fmap_id.
Qed.

(** A set of the envelope's own stripes rebuilds it. *)
Lemma rebuild_own c e own stripes subset : code_ok c -> EncoderLaws c -> zlen e <= MaxLength -> Split c e = Ok own ->
  of_own own stripes subset -> NoDup (index_at stripes <$> subset) -> zlen subset = K c ->
  rebuild c stripes subset = Ok e.
Proof.
  intros Hc Hlaws He Hown Hsub Hn HK. destruct (Split_own c e Hc Hlaws He) as (own' & E & Hl & Hspec).
  rewrite Hown in E. injection E as <-. pose proof (zlen_nonneg e). pose proof (Size_spec c (zlen e) Hc ltac:(lia)) as (Hs0 & Hs & Hz).
  destruct subset as [|p rest]; [unfold zlen in HK; simpl in HK; destruct Hc; lia|]. set (subset := p :: rest) in *.
  inversion Hsub as [|? ? (s & Hp & [i Hi]%list_elem_of_lookup) _]; subst. unfold rebuild. simpl. rewrite Hp. simpl.
  destruct (Hspec i s Hi) as (_ & _ & -> & _ & Hs1). destruct (Z.eqb_spec (K c) 1) as [E1|E1]; [by rewrite Hs1|].
  destruct (Z.eqb_spec (Size c (zlen e)) 0) as [E0|E0]; [apply Hz in E0; unfold zlen in E0; by destruct e|].
  destruct (Split_shards c e Hc Hlaws He E1) as (full & Es & Hfl & Hff & Hcat & Henc). rewrite Hown in Es. injection Es as Es.
  assert (sBytes <$> own = full) as Ebytes.
  { rewrite Es. apply list_eq. intros j. rewrite list_lookup_fmap, lookup_zip_with. destruct (full !! j) as [x|] eqn:Ex; [|by destruct (seqZ _ _ !! j)].
    rewrite (proj2 (lookup_seqZ 0 (Width c) j (Z.of_nat j))); [done|]. apply lookup_lt_Some in Ex. unfold zlen in *. lia. }
  destruct (placed_enough c own stripes subset) as [Hen Hsome]; [intros; by eapply Hspec|done..|]. rewrite Ebytes in Hen.
  rewrite (decoded c e full _ (index_at stripes <$> subset)).
  - rewrite Hcat, padded_zeros by lia. rewrite drop_app_length', take_app_length', existsb_zeros by (unfold zlen; lia). done.
  - done.
  - done.
  - done.
  - intros HM. apply Henc; lia.
  - done.
  - done.
  - unfold zlen in *. by rewrite length_fmap.
  - apply Forall_fmap, Forall_forall. intros q Hq. split; [|by apply Hsome]. eapply Forall_forall in Hsub as (t & Ht & [j Hj]%list_elem_of_lookup); [|exact Hq].
    simpl. unfold index_at. rewrite Ht. simpl. destruct (Hspec j t Hj) as (_ & -> & _). apply lookup_lt_Some in Hj. unfold zlen in *. lia.
Qed.

(** ** Sets of stripes *)

(** The positions hold stripes of distinct indices and of one envelope length. *)
Definition fits (stripes : list Stripe) (t : list nat) : Prop :=
  exists ss, Forall2 (fun p s => stripes !! p = Some s) t ss /\ NoDup (sIndex <$> ss) /\
    forall s s', s ∈ ss -> s' ∈ ss -> sLength s = sLength s'.

Fixpoint grows (stripes : list Stripe) (chosen t : list nat) : Prop :=
  match t with [] => True | c :: t => skips stripes chosen c = false /\ grows stripes (chosen ++ [c]) t end.

Lemma fits_prefix stripes a b : fits stripes (a ++ b) -> fits stripes a.
Proof.
  intros (ss & HF & Hn & Hl). apply Forall2_app_inv_l in HF as (sa & sb & HF & _ & ->). exists sa. split; [done|].
  rewrite fmap_app in Hn. apply NoDup_app in Hn as (Hn & _). split; [done|]. intros s s' Hs Hs'. apply Hl; apply elem_of_app; by left.
Qed.

Lemma existsb_index (stripes : list Stripe) (chosen : list nat) ss n : Forall2 (fun p s => stripes !! p = Some s) chosen ss ->
  existsb (fun position => bool_decide (sIndex <$> stripes !! position = Some (sIndex n))) chosen = bool_decide (sIndex n ∈ sIndex <$> ss).
Proof.
  induction 1 as [|p s chosen ss Hp _ IH]; [symmetry; apply bool_decide_eq_false_2, not_elem_of_nil|].
  cbn [existsb]. rewrite Hp, IH, fmap_cons. apply eq_true_iff_eq. rewrite orb_true_iff, !bool_decide_eq_true, elem_of_cons. simpl.
  split; (intros [E|E]; [left; congruence|by right]).
Qed.

Lemma skips_fits stripes chosen c : fits stripes chosen -> (skips stripes chosen c = false <-> fits stripes (chosen ++ [c])).
Proof.
  intros (ss & HF & Hn & Hl). unfold skips. destruct (stripes !! c) as [n|] eqn:Ec.
  2: { split; [done|]. intros (ss' & HF' & _). apply Forall2_app_inv_l in HF' as (sa & sb & _ & HF' & _). inversion HF'; subst. congruence. }
  rewrite (existsb_index _ _ ss) by done. rewrite orb_false_iff, bool_decide_eq_false.
  assert ((match chosen with [] => false | first :: _ => negb (bool_decide (sLength <$> stripes !! first = Some (sLength n))) end) = false
          <-> forall s, s ∈ ss -> sLength s = sLength n) as ->.
  { destruct HF as [|p s chosen ss Hp _]; [split; [intros _ s Hs; by apply not_elem_of_nil in Hs|done]|].
    rewrite Hp. simpl. rewrite negb_false_iff, bool_decide_eq_true. split.
    - intros [= E] s' Hs'. rewrite <- E. apply Hl; [done|by apply list_elem_of_here].
    - intros Hs. f_equal. apply Hs, list_elem_of_here. }
  split.
  - intros [H1 H2]. exists (ss ++ [n]). split; [apply Forall2_app; [done|by repeat constructor]|]. split.
    + rewrite fmap_app. apply NoDup_app. split; [done|]. split; [|apply NoDup_singleton].
      intros i Hi ->%list_elem_of_singleton. done.
    + intros s s'. rewrite !elem_of_app, !list_elem_of_singleton. intros [Hs| ->] [Hs'| ->]; auto. symmetry. by apply H1.
  - intros (ss' & HF' & Hn' & Hl'). apply Forall2_app_inv_l in HF' as (sa & sb & HF' & Hc & ->). inversion Hc as [|? n' ? ? Hn0 Hnil]; subst.
    inversion Hnil; subst. assert (n' = n) as -> by congruence. assert (sa = ss) as ->.
    { clear - HF HF'. revert sa HF'. induction HF as [|p s chosen ss Hp _ IH]; intros sa HF'; inversion HF'; subst; [done|]. f_equal; [congruence|by apply IH]. }
    split.
    + intros s Hs. apply Hl'; apply elem_of_app; [by left|right; by apply list_elem_of_singleton].
    + rewrite fmap_app in Hn'. apply NoDup_app in Hn' as (_ & Hn' & _). intros Hin. apply (Hn' _ Hin). by apply list_elem_of_singleton.
Qed.

Lemma grows_fits stripes chosen t : fits stripes chosen -> (grows stripes chosen t <-> fits stripes (chosen ++ t)).
Proof.
  revert chosen. induction t as [|c t IH]; intros chosen Hf; simpl; [by rewrite app_nil_r|].
  rewrite skips_fits by done. replace (chosen ++ c :: t) with ((chosen ++ [c]) ++ t) by by rewrite <- app_assoc. split.
  - intros [H1 H2]. by apply IH.
  - intros Hf'. pose proof (fits_prefix _ _ _ Hf') as Hf1. split; [done|]. by apply IH.
Qed.

Lemma walk_spec stripes need chosen cands s :
  s ∈ walk stripes need chosen cands <->
  exists t, s = chosen ++ t /\ t `sublist_of` cands /\ length t = need /\ grows stripes chosen t.
Proof.
  revert chosen cands s. induction need as [|need IH]; intros chosen cands s; simpl.
  { rewrite list_elem_of_singleton. split.
    - intros ->. exists []. rewrite app_nil_r. split_and!; try done. apply sublist_nil_l.
    - intros (t & -> & _ & Ht & _). destruct t; [|done]. by rewrite app_nil_r. }
  induction cands as [|c cands IHc].
  { split; [intros Hs; by apply not_elem_of_nil in Hs|]. intros (t & _ & Ht & Hl & _). apply sublist_nil_r in Ht as ->. done. }
  case_bool_decide as Hlt.
  { split; [intros Hs; by apply not_elem_of_nil in Hs|]. intros (t & _ & Ht & Hl & _). apply sublist_length in Ht. simpl in *. lia. }
  rewrite elem_of_app, IHc. split.
  - intros [Hs|(t & -> & Ht & Hl & Hg)].
    + destruct (skips stripes chosen c) eqn:Esk; [by apply not_elem_of_nil in Hs|]. apply IH in Hs as (t & -> & Ht & Hl & Hg).
      exists (c :: t). rewrite <- app_assoc. split_and!; [done|by constructor|simpl; lia|done].
    + exists t. split_and!; try done. by constructor.
  - intros (t & -> & Ht & Hl & Hg). inversion Ht as [|x l1 l2 Ht'|x l1 l2 Ht']; subst.
    + left. destruct Hg as [-> Hg]. apply IH. exists l1. rewrite <- app_assoc. split_and!; try done. simpl in Hl. lia.
    + right. by exists t.
Qed.

Lemma subsets_spec c stripes cands s : 1 <= K c ->
  (s ∈ subsets c stripes cands <-> s `sublist_of` cands /\ zlen s = K c /\ fits stripes s).
Proof.
  intros HK. unfold subsets. rewrite walk_spec. assert (fits stripes []) as H0.
  { exists []. split_and!; [constructor|apply NoDup_nil_2|]. intros ? ? Hs. by apply not_elem_of_nil in Hs. }
  setoid_rewrite (grows_fits stripes [] _ H0). unfold zlen. simpl. split.
  - intros (t & -> & Ht & Hl & Hg). split_and!; [done|lia|done].
  - intros (Ht & Hl & Hg). exists s. split_and!; try done. lia.
Qed.

(** ** Joining *)

Lemma elem_of_positions stripes keep l p :
  p ∈ positions_in stripes keep l <-> p ∈ l /\ exists s, stripes !! p = Some s /\ keep s = true.
Proof.
  unfold positions_in. rewrite !list_elem_of_In, filter_In. destruct (stripes !! p) as [s|]; simpl; naive_solver.
Qed.

Lemma elem_of_candidates c stripes p :
  p ∈ candidates_of c stripes <-> exists s, stripes !! p = Some s /\ sCode s = c /\ wellFormed c s = true.
Proof.
  unfold candidates_of. rewrite elem_of_positions, elem_of_seq. split.
  - intros (_ & s & Hs & [Hc Hw]%andb_true_iff). apply bool_decide_eq_true in Hc. by exists s.
  - intros (s & Hs & Hc & Hw). split; [apply lookup_lt_Some in Hs; lia|]. exists s. by rewrite bool_decide_eq_true_2.
Qed.

Lemma elem_of_malformed c stripes p :
  p ∈ malformed_of c stripes <-> exists s, stripes !! p = Some s /\ sCode s = c /\ wellFormed c s = false.
Proof.
  unfold malformed_of. rewrite elem_of_positions, elem_of_seq. split.
  - intros (_ & s & Hs & [Hc Hw%negb_true_iff]%andb_true_iff). apply bool_decide_eq_true in Hc. by exists s.
  - intros (s & Hs & Hc & Hw). split; [apply lookup_lt_Some in Hs; lia|]. exists s. by rewrite bool_decide_eq_true_2, Hw.
Qed.

Lemma sublist_positions stripes keep t l : t `sublist_of` l ->
  Forall (fun p => exists s, stripes !! p = Some s /\ keep s = true) t -> t `sublist_of` positions_in stripes keep l.
Proof.
  induction 1 as [|x t l _ IH|x t l _ IH]; intros Hf; simpl; [constructor| |].
  - inversion Hf as [|? ? (s & Hs & Hk) Hf']; subst. rewrite Hs. simpl. rewrite Hk. constructor. by apply IH.
  - destruct (from_option _ _ _); [constructor|]; by apply IH.
Qed.

Lemma sublist_elem {A} (l k : list A) x : l `sublist_of` k -> x ∈ l -> x ∈ k.
Proof. intros Hs%sublist_submseteq Hx. by eapply elem_of_submseteq. Qed.

Lemma elem_of_take_1 {A} n (l : list A) x : x ∈ take n l -> x ∈ l.
Proof. apply sublist_elem, sublist_take. Qed.

Section Attempts.
Context (c : Code) (stripes : list Stripe) (check : option (list byte -> bool)).

#[local] Ltac close := try lia; try (by left); try (by right); try (exists []; rewrite app_nil_r; split; [done|by apply Forall_nil]).

(** What the loop over the sets comes to. *)
Lemma attempt_spec sets n failed wrong found n' failed' wrong' :
  0 <= n <= maxAttempts -> attempt c stripes check sets n failed wrong = (found, n', failed', wrong') ->
  (forall e t, found = Some (e, t) -> t ∈ take (Z.to_nat (maxAttempts - n)) sets /\ tried c stripes check t = Some e) /\
  (found = None -> forall t, t ∈ take (Z.to_nat (maxAttempts - n)) sets -> tried c stripes check t = None) /\
  (found = None -> n' = n -> sets = [] \/ n = maxAttempts) /\ n <= n' /\
  (exists more, wrong' = wrong ++ more /\
     Forall (fun p => K c = 1 /\ exists t, t ∈ sets /\ tried c stripes check t = None /\ hd_error t = Some p) more) /\
  (failed' = false -> wrong' = wrong) /\
  (n < maxAttempts -> forall t, hd_error sets = Some t -> tried c stripes check t = None -> failed' = true) /\
  (failed = true -> failed' = true).
Proof.
  revert n failed wrong. induction sets as [|t sets IH]; intros n failed wrong Hn; simpl.
  { intros [= <- <- <- <-]. split_and!; try done; close. intros _ t Ht. rewrite take_nil in Ht. by apply not_elem_of_nil in Ht. }
  destruct (Z.eqb_spec n maxAttempts) as [Em|Em].
  { intros [= <- <- <- <-]. split_and!; try done; close. intros _ t' Ht'. rewrite Em, Z.sub_diag in Ht'. by apply not_elem_of_nil in Ht'. }
  destruct (tried c stripes check t) as [e|] eqn:Et.
  { intros [= <- <- <- <-]. split_and!; try done; close.
    - intros e' t' [= <- <-]. split; [|done]. destruct (Z.to_nat (maxAttempts - n)) eqn:?; [lia|apply list_elem_of_here].
    - intros _ t' [= <-] Ht'. congruence. }
  intros Ha. apply IH in Ha as (H1 & H2 & H3 & H4 & (more & -> & H5) & H6 & H7 & H8); [|lia]. split_and!.
  - intros e t' E. destruct (H1 e t' E) as [? ?]. split; [|done].
    replace (Z.to_nat (maxAttempts - n)) with (S (Z.to_nat (maxAttempts - (n + 1)))) by lia. by constructor.
  - intros E t' Ht'. destruct (Z.to_nat (maxAttempts - n)) as [|m] eqn:Em'; [by apply not_elem_of_nil in Ht'|].
    apply elem_of_cons in Ht' as [->|Ht']; [done|]. apply H2; [done|]. by replace (Z.to_nat (maxAttempts - (n + 1))) with m by lia.
  - intros _ E. lia.
  - lia.
  - eexists. rewrite <- app_assoc. split; [reflexivity|]. apply Forall_app. split.
    + destruct (Z.eqb_spec (K c) 1) as [E1|]; [|by apply Forall_nil]. destruct t as [|p t]; [by apply Forall_nil|]. constructor; [|by apply Forall_nil].
      split; [done|]. exists (p :: t). split; [apply list_elem_of_here|done].
    + eapply Forall_impl; [exact H5|]. intros p (? & t' & ? & ?). split; [done|]. exists t'. split; [by constructor|done].
  - intros E. by rewrite H8 in E.
  - intros _ t' _ _. by apply H8.
  - intros _. by apply H8.
Qed.

End Attempts.

Definition accepts (check : option (list byte -> bool)) (e : list byte) : bool := from_option (fun f => f e) true check.

Lemma tried_spec c stripes check t e :
  tried c stripes check t = Some e <-> rebuild c stripes t = Ok e /\ accepts check e = true.
Proof.
  unfold tried, accepts. destruct (rebuild c stripes t) as [e'|]; [|naive_solver].
  destruct (from_option _ _ _) eqn:E; split; try done; [intros [= <-]; done|by intros [[= ->] _]|intros [[= ->] ?]; congruence].
Qed.

Lemma own_wellFormed c e own s : code_ok c -> EncoderLaws c -> zlen e <= MaxLength -> Split c e = Ok own -> s ∈ own ->
  sCode s = c /\ wellFormed c s = true /\ sLength s = zlen e /\ own !! Z.to_nat (sIndex s) = Some s /\ (K c = 1 -> sBytes s = e).
Proof.
  intros Hc Hlaws He Hown [i Hi]%list_elem_of_lookup. destruct (Split_own c e Hc Hlaws He) as (own' & E & Hl & Hspec).
  rewrite Hown in E. injection E as <-. destruct (Hspec i s Hi) as (Hcode & Hidx & Hlen & Hb & H1). pose proof (lookup_lt_Some _ _ _ Hi).
  split; [done|]. split; [|split_and!; try done; by rewrite Hidx, Nat2Z.id].
  unfold wellFormed. rewrite !andb_true_iff, Z.geb_le, Z.geb_le, Z.ltb_lt, Z.leb_le, Z.eqb_eq. pose proof (zlen_nonneg e).
  rewrite Hlen, Hb, Hidx. unfold zlen in *. split_and!; lia.
Qed.

Lemma fits_own c e own stripes t : code_ok c -> EncoderLaws c -> zlen e <= MaxLength -> Split c e = Ok own ->
  of_own own stripes t -> NoDup (index_at stripes <$> t) -> fits stripes t.
Proof.
  intros Hc Hlaws He Hown Ht Hn.
  assert (exists ss, Forall2 (fun p s => stripes !! p = Some s) t ss /\ Forall (fun s => s ∈ own) ss) as (ss & HF & Hss).
  { clear Hn. induction Ht as [|p t (s & Hp & Hs) _ (ss & IH1 & IH2)]; [exists []; split; [constructor|by apply Forall_nil]|].
    exists (s :: ss). by split; constructor. }
  exists ss. split; [done|]. split.
  - assert (index_at stripes <$> t = Z.to_nat <$> (sIndex <$> ss)) as E.
    { clear -HF. induction HF as [|p s t ss Hp _ IH]; [done|]. rewrite !fmap_cons, IH. unfold index_at at 1. by rewrite Hp. }
    rewrite E in Hn. by apply NoDup_fmap_1 in Hn.
  - intros s s' Hs Hs'. eapply Forall_forall in Hss as Hs1; [|exact Hs]. eapply Forall_forall in Hss as Hs2; [|exact Hs'].
    destruct (own_wellFormed _ _ _ s Hc Hlaws He Hown Hs1) as (_ & _ & -> & _).
    by destruct (own_wellFormed _ _ _ s' Hc Hlaws He Hown Hs2) as (_ & _ & -> & _).
Qed.

(** The envelope's own stripes are candidates, and a set of them passes. *)
Lemma own_set c e own stripes check t : code_ok c -> EncoderLaws c -> zlen e <= MaxLength -> Split c e = Ok own ->
  t `sublist_of` seq 0 (length stripes) -> zlen t = K c -> NoDup (index_at stripes <$> t) -> of_own own stripes t ->
  accepts check e = true -> t ∈ subsets c stripes (candidates_of c stripes) /\ tried c stripes check t = Some e.
Proof.
  intros Hc Hlaws He Hown Hsub HK Hn Ht Hacc. split.
  - apply subsets_spec; [apply Hc|]. split_and!; [|done|by eapply fits_own]. apply sublist_positions; [done|].
    eapply Forall_impl; [exact Ht|]. intros p (s & Hp & Hs). exists s. split; [done|].
    destruct (own_wellFormed _ _ _ s Hc Hlaws He Hown Hs) as (? & -> & _). by rewrite bool_decide_eq_true_2.
  - apply tried_spec. split; [by eapply rebuild_own|done].
Qed.

Lemma elem_of_compact l p : p ∈ compact l <-> p ∈ l.
Proof.
  induction l as [|x [|y l] IH]; [done|done|]. change (compact (x :: y :: l)) with
    (if bool_decide (x = y) then compact (y :: l) else x :: compact (y :: l)).
  case_bool_decide as E; [subst|]; rewrite ?(elem_of_cons (compact _)), IH, !elem_of_cons; naive_solver.
Qed.

Lemma elem_of_sorted l p : p ∈ compact (merge_sort Nat.le l) <-> p ∈ l.
Proof. by rewrite elem_of_compact, merge_sort_Permutation. Qed.

Lemma rebuild_bound c stripes t e : code_ok c -> t `sublist_of` candidates_of c stripes -> rebuild c stripes t = Ok e -> zlen e <= MaxLength.
Proof.
  intros Hc Ht. unfold rebuild. destruct t as [|p t]; [done|]. simpl.
  assert (p ∈ candidates_of c stripes) as (s & -> & _ & Hw)%elem_of_candidates by (eapply sublist_elem; [done|apply list_elem_of_here]).
  unfold wellFormed in Hw. rewrite !andb_true_iff, Z.geb_le, Z.geb_le, Z.ltb_lt, Z.leb_le, Z.eqb_eq in Hw. destruct Hw as ((((_ & _) & Hl) & Hm) & Hb).
  destruct (Size_spec c (sLength s) Hc ltac:(lia)) as (_ & Hs & _). simpl. destruct (Z.eqb_spec (K c) 1) as [E1|E1].
  { intros [= <-]. rewrite Hb, E1 in *. lia. }
  destruct (_ =? 0); [intros [= <-]; unfold zlen; simpl; unfold MaxLength; lia|]. 
  match goal with |- context [match ?x with Ok _ => _ | Err _ => _ end] => destruct x as [env|]; [|done] end.
  destruct (existsb _ _); [done|]. intros [= <-]. unfold zlen. rewrite length_take. lia.
Qed.

Lemma mismatched_spec c stripes e cands : code_ok c -> EncoderLaws c -> zlen e <= MaxLength ->
  exists own wrong, Split c e = Ok own /\ mismatched c stripes cands e = Ok wrong /\ (forall p, p ∈ wrong -> p ∈ cands) /\
    forall p s, p ∈ cands -> stripes !! p = Some s -> sCode s = c -> wellFormed c s = true -> (p ∈ wrong <-> s ∉ own).
Proof.
  intros Hc Hlaws He. destruct (Split_own c e Hc Hlaws He) as (own & Hown & Hl & Hspec). unfold mismatched. rewrite Hown.
  eexists own, _. split; [done|]. split; [done|]. split; [by intros p [Hp _]%elem_of_positions|]. intros p s Hp Hs Hcode Hw. rewrite elem_of_positions.
  unfold wellFormed in Hw. rewrite !andb_true_iff, Z.geb_le, Z.geb_le, Z.ltb_lt, Z.leb_le, Z.eqb_eq in Hw. destruct Hw as ((((Hi & Hi') & _) & _) & _).
  destruct (lookup_lt_is_Some_2 own (Z.to_nat (sIndex s))) as [o Ho]; [unfold zlen in *; lia|].
  destruct (Hspec _ _ Ho) as (Oc & Oi & Ol & _). rewrite Z2Nat.id in Oi by done.
  transitivity (s <> o).
  - split.
    + intros (_ & s' & Hs' & Hne) ->. rewrite Hs in Hs'. injection Hs' as <-. rewrite Ho, Ol, Z.eqb_refl in Hne. simpl in Hne.
      by rewrite bool_decide_eq_true_2 in Hne.
    + intros Hne. split; [done|]. exists s. split; [done|]. rewrite Ho. apply orb_true_iff. simpl.
      destruct (Z.eqb_spec (sLength s) (zlen e)) as [El|]; [right|by left]. apply negb_true_iff, bool_decide_eq_false. intros [= Eb].
      apply Hne. destruct s, o. simpl in *. congruence.
  - split; [|intros Hn ->; apply Hn; by eapply list_elem_of_lookup_2]. intros Hne Hin.
    apply Hne. destruct (own_wellFormed _ _ _ s Hc Hlaws He Hown Hin) as (_ & _ & _ & Ho' & _). congruence.
Qed.

(** What the loop names wrong is not the envelope's. *)
Lemma attempts_name_wrong c e own stripes check more p s :
  code_ok c -> EncoderLaws c -> zlen e <= MaxLength -> Split c e = Ok own -> accepts check e = true ->
  Forall (fun p => K c = 1 /\ exists t, t ∈ subsets c stripes (candidates_of c stripes) /\
                     tried c stripes check t = None /\ hd_error t = Some p) more ->
  p ∈ malformed_of c stripes ++ more -> stripes !! p = Some s -> sCode s = c /\ s ∉ own.
Proof.
  intros Hc Hlaws He Hown Hacc Hmore [Hp|Hp]%elem_of_app Hs.
  - apply elem_of_malformed in Hp as (s' & Hs' & Hcode & Hw). rewrite Hs in Hs'. injection Hs' as <-. split; [done|]. intros Ho.
    destruct (own_wellFormed _ _ _ s Hc Hlaws He Hown Ho) as (_ & ? & _). congruence.
  - eapply Forall_forall in Hmore as (E1 & t & Ht & Hf & Hhd); [|exact Hp]. apply subsets_spec in Ht as (Hsub & HK & _); [|apply Hc].
    destruct t as [|p' [|]]; simplify_eq/=; [|rewrite E1 in HK; unfold zlen in HK; simpl in HK; lia].
    assert (p ∈ candidates_of c stripes) as (s' & Hs' & Hcode & Hw)%elem_of_candidates by (eapply sublist_elem; [done|apply list_elem_of_here]).
    rewrite Hs in Hs'. injection Hs' as <-. split; [done|]. intros Ho. destruct (own_wellFormed _ _ _ s Hc Hlaws He Hown Ho) as (_ & _ & _ & _ & Hb).
    assert (tried c stripes check [p] = Some e); [|congruence]. apply tried_spec. split; [|done].
    unfold rebuild. simpl. rewrite Hs. simpl. by rewrite E1, Hb.
Qed.

(** The sets a join tries: the first [maxAttempts] of the sequence. *)
Definition tried_sets (c : Code) (stripes : list Stripe) : list (list nat) :=
  take (Z.to_nat maxAttempts) (subsets c stripes (candidates_of c stripes)).

(** C23: if among the sets a join tries is one of [K] stripes of an envelope its
    check accepts, as there is when such stripes are given at all and the sets are
    no more than the bound on attempts, the join returns an envelope, and one the
    check accepts. If the check accepts that envelope alone, it is the one returned,
    every stripe named wrong is of the code and not the envelope's, and, when the
    first set does not rebuild the envelope, every such stripe is named. *)
Theorem any_k_stripes_rebuild c e own stripes check t :
  code_ok c -> EncoderLaws c -> zlen e <= MaxLength -> Split c e = Ok own ->
  t `sublist_of` seq 0 (length stripes) -> zlen t = K c -> NoDup (index_at stripes <$> t) -> of_own own stripes t ->
  accepts check e = true ->
  zlen (subsets c stripes (candidates_of c stripes)) <= maxAttempts \/ t ∈ tried_sets c stripes ->
  exists j, Join c stripes check = (j, None) /\ accepts check (Envelope j) = true /\
    ((forall e', accepts check e' = true -> e' = e) ->
     Envelope j = e /\
     (forall p s, p ∈ Wrong j -> stripes !! p = Some s -> sCode s = c /\ s ∉ own) /\
     ((forall first, hd_error (subsets c stripes (candidates_of c stripes)) = Some first -> rebuild c stripes first <> Ok e) ->
      forall p s, stripes !! p = Some s -> sCode s = c -> s ∉ own -> p ∈ Wrong j)).
Proof.
  intros Hc Hlaws He Hown Hsub HK Hn Ht Hacc Hmax.
  destruct (own_set c e own stripes check t) as [Hin Htry]; try done.
  assert (t ∈ tried_sets c stripes) as Htried.
  { destruct Hmax as [Hmax|]; [|done]. unfold tried_sets. rewrite take_ge; [done|]. unfold zlen in Hmax. lia. }
  unfold Join. rewrite code_ok_valid by done. destruct (attempt _ _ _ _ _ _ _) as [[[found n'] failed] wrong] eqn:Ea.
  apply attempt_spec in Ea as (H1 & H2 & _ & _ & (more & -> & Hmore) & H6 & H7 & _); [|done].
  destruct found as [[e' used]|]; [|by rewrite (H2 eq_refl t Htried) in Htry].
  destruct (H1 _ _ eq_refl) as [Hused%elem_of_take_1 [Hre Hacc']%tried_spec].
  assert (forall p s, p ∈ malformed_of c stripes ++ more -> stripes !! p = Some s -> sCode s = c /\ s ∉ own) as Hwrong
    by (intros p s; eapply attempts_name_wrong; done).
  apply subsets_spec in Hused as Hset; [|apply Hc].
  destruct (mismatched_spec c stripes e' (candidates_of c stripes) Hc Hlaws (rebuild_bound c stripes used e' Hc (proj1 Hset) Hre))
    as (own' & mis & Hown' & Hmis & Hmc & Hmspec).
  destruct failed.
  - rewrite Hmis. eexists. split; [reflexivity|]. split; [done|]. intros Halone. rewrite (Halone e' Hacc') in *.
    rewrite Hown in Hown'. injection Hown' as <-. split_and!; [done| |].
    + intros p s Hp Hs. simpl in Hp. rewrite elem_of_sorted, elem_of_app in Hp. destruct Hp as [Hp|Hp]; [by apply (Hwrong p)|].
      pose proof (Hmc p Hp) as (s' & Hs' & Hcode & Hw)%elem_of_candidates. rewrite Hs in Hs'. injection Hs' as <-. split; [done|].
      apply (Hmspec p); auto.
    + intros _ p s Hs Hcode Hno. simpl. rewrite elem_of_sorted, !elem_of_app.
      destruct (wellFormed c s) eqn:Hw; [|left; left; apply elem_of_malformed; by exists s].
      right. apply (Hmspec p s); try done. apply elem_of_candidates. by exists s.
  - eexists. split; [reflexivity|]. split; [done|]. intros Halone. split_and!; [by apply Halone| |].
    + intros p s Hp Hs. simpl in Hp. rewrite elem_of_sorted in Hp. by apply (Hwrong p).
    + intros Hfirst. exfalso. destruct (subsets c stripes _) as [|first sets]; [by apply not_elem_of_nil in Hin|].
      assert (false = true); [|done]. apply (H7 ltac:(done) first eq_refl). destruct (tried c stripes check first) eqn:E; [|done].
      apply tried_spec in E as [Er ->%Halone]. by destruct (Hfirst first eq_refl).
Qed.

(** C24: what a join returns was rebuilt from [K] well-formed stripes of the code,
    of distinct indices and one envelope length, and passed the check; the set was
    among the first [maxAttempts]. It reports too few stripes exactly when no [K]
    of them fit together so, and wrong ones exactly when some do and each set it
    tried failed: every set there is if they are no more than [maxAttempts], and
    the first [maxAttempts] of them otherwise. An invalid code is refused, and
    there is no other outcome. *)
Theorem joins_are_checked c stripes check :
  let candidates := candidates_of c stripes in
  let set_of t := t `sublist_of` candidates /\ zlen t = K c /\ fits stripes t in
  (Validate c <> None -> Join c stripes check = (noJoined, Some EInvalid)) /\
  (code_ok c -> EncoderLaws c ->
   match Join c stripes check with
   | (j, None) =>
     set_of (Used j) /\ Used j ∈ tried_sets c stripes /\ rebuild c stripes (Used j) = Ok (Envelope j) /\
     accepts check (Envelope j) = true
   | (_, Some ErrTooFew) => forall t, ~ set_of t
   | (_, Some ErrWrong) =>
     (exists t, set_of t) /\ (forall t, t ∈ tried_sets c stripes -> tried c stripes check t = None) /\
     (zlen (subsets c stripes candidates) <= maxAttempts -> forall t, set_of t -> tried c stripes check t = None)
   | (_, Some _) => False
   end).
Proof.
  intros candidates set_of. pose proof (subsets_spec c stripes candidates) as Hss. split.
  { intros Hv. unfold Join. by destruct (Validate c). }
  intros Hc Hlaws.
  unfold Join. rewrite code_ok_valid by done. fold candidates. destruct (attempt _ _ _ _ _ _ _) as [[[found n'] failed] wrong] eqn:Ea.
  assert (subsets c stripes candidates = [] -> n' = 0) as H0 by (intros E; rewrite E in Ea; simpl in Ea; congruence).
  apply attempt_spec in Ea as (H1 & H2 & H3 & Hle & _); [|done]. destruct found as [[e used]|].
  - destruct (H1 _ _ eq_refl) as [Hin Htry]. pose proof (elem_of_take_1 _ _ _ Hin) as Hset. apply Hss in Hset; [|apply Hc]. apply tried_spec in Htry as [Hre Hacc].
    destruct failed; [|by split_and!]. pose proof (rebuild_bound c stripes used e Hc (proj1 Hset) Hre) as He.
    destruct (mismatched_spec c stripes e candidates Hc Hlaws He) as (_ & mis & _ & -> & _). by split_and!.
  - destruct (Z.eqb_spec n' 0) as [->|Hn'].
    + destruct (H3 eq_refl eq_refl) as [Hnil|?]; [|done]. intros t Ht. apply Hss in Ht; [|apply Hc]. rewrite Hnil in Ht. by apply not_elem_of_nil in Ht.
    + split_and!; [|by apply H2|].
      * destruct (subsets c stripes candidates) as [|t sets] eqn:Es; [by destruct Hn'; apply H0|].
        exists t. apply Hss; [apply Hc|]. apply list_elem_of_here.
      * intros Hmax t Ht. apply H2; [done|]. rewrite take_ge; [apply Hss; [apply Hc|done]|]. unfold zlen in Hmax. lia.
Qed.

End WithEncoder.
(** ** A code of one parity stripe

    The sum of two shards as their parity: the laws have a model. *)

Definition xor_bytes (a b : list byte) : list byte := zip_with (fun x y => Zbyte (Z.lxor (byteZ x) (byteZ y))) a b.

#[local] Instance xor_encoder : Encoder := {|
  Encode c shards := match shards with [a; b; _] => Ok [a; b; xor_bytes a b] | _ => Err EEncode end;
  ReconstructData c shards :=
    match shards with
    | [Some a; Some b; p] => Ok [Some a; Some b; p]
    | [None; Some b; Some p] => Ok [Some (xor_bytes b p); Some b; Some p]
    | [Some a; None; Some p] => Ok [Some a; Some (xor_bytes a p); Some p]
    | _ => Err EDecode
    end;
|}.

Lemma xor_byte x y : Zbyte (Z.lxor (byteZ x) (byteZ (Zbyte (Z.lxor (byteZ x) (byteZ y))))) = y.
Proof.
  apply byteZ_inj. rewrite !byteZ_Zbyte. pose proof (byteZ_range x). pose proof (byteZ_range y).
  assert (0 <= Z.lxor (byteZ x) (byteZ y) < 256) as Hr.
  { assert (0 <= Z.lxor (byteZ x) (byteZ y)) by (apply Z.lxor_nonneg; lia). split; [done|].
    destruct (decide (Z.lxor (byteZ x) (byteZ y) = 0)) as [->|?]; [done|]. change 256 with (2 ^ 8). apply Z.log2_lt_pow2; [lia|].
    eapply Z.le_lt_trans; [apply Z.log2_lxor; lia|]. apply Z.max_lub_lt.
    - destruct (decide (byteZ x = 0)) as [->|?]; [done|]. apply Z.log2_lt_pow2; lia.
    - destruct (decide (byteZ y = 0)) as [->|?]; [done|]. apply Z.log2_lt_pow2; lia. }
  rewrite (Z.mod_small (Z.lxor (byteZ x) (byteZ y))) by done. rewrite <- Z.lxor_assoc, Z.lxor_nilpotent, Z.lxor_0_l. apply Z.mod_small. lia.
Qed.

Lemma xor_cancel a b : length a = length b -> xor_bytes a (xor_bytes a b) = b.
Proof.
  revert b. induction a as [|x a IH]; intros [|y b] Hl; try done. unfold xor_bytes in *. simpl. rewrite xor_byte, IH by (simpl in Hl; lia). done.
Qed.

Lemma xor_comm a b : xor_bytes a b = xor_bytes b a.
Proof. revert b. induction a as [|x a IH]; intros [|y b]; try done. unfold xor_bytes in *. simpl. by rewrite IH, Z.lxor_comm. Qed.

Lemma three_shards size shards : shards_ok (mkCode 2 1) size shards ->
  exists a b p, shards = [a; b; p] /\ zlen a = size /\ zlen b = size /\ zlen p = size /\ 0 < size.
Proof.
  intros (Hl & Hs & Hf). unfold zlen in Hl. change (Width (mkCode 2 1)) with 3 in Hl.
  destruct shards as [|a [|b [|p [|]]]]; simpl in Hl; try lia. exists a, b, p. inversion_clear Hf as [|? ? Ha Hf']. inversion_clear Hf' as [|? ? Hb Hf].
  inversion_clear Hf as [|? ? Hp _]. by split_and!.
Qed.

#[local] Instance xor_laws : EncoderLaws (mkCode 2 1).
Proof.
  split.
  - intros shards size Hs. destruct (three_shards _ _ Hs) as (a & b & p & -> & Ha & Hb & Hp & H0). eexists. split; [reflexivity|]. split; [|done].
    split; [done|]. split; [done|]. repeat constructor; try done. unfold xor_bytes, zlen in *. rewrite length_zip_with. lia.
  - intros shards size full partial Hs He (Hl & Hag & indices & Hn & Hk & Hf).
    destruct (three_shards _ _ Hs) as (a & b & p & -> & Ha & Hb & Hp & H0). injection He as <-.
    destruct partial as [|x [|y [|z [|]]]]; simpl in Hl; try lia.
    assert (forall v, x = Some v -> v = a) as Hx by (intros v ->; by injection (Hag 0%nat v eq_refl)).
    assert (forall v, y = Some v -> v = b) as Hy by (intros v ->; by injection (Hag 1%nat v eq_refl)).
    assert (forall v, z = Some v -> v = xor_bytes a b) as Hz by (intros v ->; by injection (Hag 2%nat v eq_refl)).
    assert (length a = length b) as Hab by (unfold zlen in *; lia).
    destruct indices as [|i [|j [|]]]; unfold zlen in Hk; simpl in Hk; try lia.
    apply NoDup_cons in Hn as [Hij _]. inversion_clear Hf as [|? ? [u Hu] Hf']. inversion_clear Hf' as [|? ? [v Hv] _].
    assert (i <> j) as Hne by (intros ->; apply Hij, list_elem_of_here).
    destruct x as [x|], y as [y|]; rewrite ?(Hx _ eq_refl), ?(Hy _ eq_refl); simpl.
    + eexists. by split.
    + destruct z as [z|]; [rewrite (Hz _ eq_refl)|by repeat (destruct i as [|i]; try done); repeat (destruct j as [|j]; try done)].
      eexists. split; [done|]. simpl. by rewrite xor_cancel.
    + destruct z as [z|]; [rewrite (Hz _ eq_refl)|by repeat (destruct i as [|i]; try done); repeat (destruct j as [|j]; try done)].
      eexists. split; [done|]. simpl. by rewrite (xor_comm a), xor_cancel.
    + by repeat (destruct i as [|i]; try done); repeat (destruct j as [|j]; try done).
Qed.

Definition testEnvelope : list byte := Zbyte <$> [104; 101; 108; 108; 111].

(** The first stripe wrong, the other two the envelope's. *)
Definition testStripes : list Stripe :=
  match Split (mkCode 2 1) testEnvelope with
  | Ok own => mkStripe (mkCode 2 1) 0 5 (zeros 3) :: drop 1 own
  | Err _ => []
  end.

Definition testCheck : option (list byte -> bool) := Some (fun e => bool_decide (e = testEnvelope)).

Lemma any_k_stripes_rebuild_witness :
  exists j, Join (mkCode 2 1) testStripes testCheck = (j, None) /\ Envelope j = testEnvelope /\ 0%nat ∈ Wrong j.
Proof.
  destruct (Split (mkCode 2 1) testEnvelope) as [own|] eqn:Eown; [|vm_compute in Eown; discriminate Eown].
  destruct (any_k_stripes_rebuild (mkCode 2 1) testEnvelope own testStripes testCheck [1%nat; 2%nat]) as (j & Hj & _ & Halone).
  - vm_compute. split_and!; discriminate.
  - exact xor_laws.
  - vm_compute. discriminate.
  - exact Eown.
  - vm_compute. repeat constructor.
  - reflexivity.
  - apply (bool_decide_unpack _). vm_compute. exact I.
  - vm_compute in Eown. injection Eown as <-. repeat constructor; eexists; (split; [reflexivity|]); apply (bool_decide_unpack _); vm_compute; exact I.
  - vm_compute. reflexivity.
  - left. vm_compute. discriminate.
  - destruct Halone as (He & _ & Hall). { intros e'. unfold accepts, testCheck. simpl. apply bool_decide_eq_true_1. }
    exists j. split_and!; [exact Hj|exact He|]. eapply Hall; [|reflexivity|reflexivity|].
    + intros first Hf. vm_compute in Hf. injection Hf as <-. intros Hr. vm_compute in Hr. discriminate Hr.
    + vm_compute in Eown. injection Eown as <-. apply (bool_decide_unpack _). vm_compute. exact I.
Defined.

Lemma joins_are_checked_witness : let j := fst (Join (mkCode 2 1) testStripes testCheck) in rebuild (mkCode 2 1) testStripes (Used j) = Ok (Envelope j).
Proof.
  assert (code_ok (mkCode 2 1)) as Hc by (vm_compute; split_and!; discriminate).
  pose proof (proj2 (joins_are_checked (mkCode 2 1) testStripes testCheck) Hc xor_laws) as H. cbv zeta in *.
  destruct (Join (mkCode 2 1) testStripes testCheck) as [j [e|]] eqn:E; [vm_compute in E; discriminate E|]. apply H.
Defined.

(** Two stripes of distinct indices under a code of two, well formed but of
    envelopes of different lengths, are too few: the join counts the indices of one
    length, not those given. *)
Lemma mixed_lengths_are_too_few :
  let stripes := [mkStripe (mkCode 2 1) 0 5 (zeros 3); mkStripe (mkCode 2 1) 1 7 (zeros 4)] in
  candidates_of (mkCode 2 1) stripes = [0%nat; 1%nat] /\ NoDup (index_at stripes <$> [0%nat; 1%nat]) /\
  Join (mkCode 2 1) stripes None = (noJoined, Some ErrTooFew).
Proof. split_and!; [reflexivity|apply (bool_decide_unpack _); vm_compute; exact I|reflexivity]. Qed.

End Stripe.
