(* ===== verification/Membership.v ===== *)
(** * The cluster's membership

    [membership/membership.go] and [membership/change.go]: one generation of the
    membership, the changes that build the next, and [Step], which says whether
    one generation may follow another.  A membership that [New] makes is valid;
    its lookups find what a scan would; a change that moves no window leaves every
    window's ranks as they are. *)

From S2P Require Import Prelude Bytes Order Rank.

Module Membership.
Import Rank.

Inductive merror := ErrInvalid | ErrUnchanged | ErrCorrupt.

(** ** Members and disks

    The states and kinds are numbers of eight bits, as they come off the wire. *)

Definition Joining : Z := 1.
Definition Active : Z := 2.
Definition Draining : Z := 3.

Definition Attaching : Z := 1.
Definition Serving : Z := 2.
Definition Releasing : Z := 3.
Definition Released : Z := 4.
Definition Deleting : Z := 5.

Definition Cache_ : Z := 0.
Definition Journal : Z := 1.

Record Member := mkMember { mID : Identity; mAddress : string; mState : Z }.

#[export] Instance Member_eq_dec : EqDecision Member.
Proof. solve_decision. Defined.

Record Disk := mkDisk {
  dID : Identity;
  dVolume : string;
  dWeight : Z;
  dMember : Identity;
  dState : Z;
  dAssigned : Z;
  dKind : Z;
  dMachine : string;
  dEmpty : bool;
}.

#[export] Instance Disk_eq_dec : EqDecision Disk.
Proof. solve_decision. Defined.

Definition with_assignment (d : Disk) (member : Identity) (state assigned : Z) : Disk :=
  mkDisk (dID d) (dVolume d) (dWeight d) member state assigned (dKind d) (dMachine d) (dEmpty d).
Definition with_dstate (d : Disk) (state : Z) : Disk := with_assignment d (dMember d) state (dAssigned d).
Definition with_weight (d : Disk) (weight : Z) : Disk :=
  mkDisk (dID d) (dVolume d) weight (dMember d) (dState d) (dAssigned d) (dKind d) (dMachine d) (dEmpty d).
Definition with_journal (d : Disk) (kind : Z) (machine : string) (empty : bool) : Disk :=
  mkDisk (dID d) (dVolume d) (dWeight d) (dMember d) (dState d) (dAssigned d) kind machine empty.
Definition with_mstate (x : Member) (state : Z) : Member := mkMember (mID x) (mAddress x) state.
Definition with_address (x : Member) (address : string) : Member := mkMember (mID x) address (mState x).

(** ** A generation *)

Record Membership := mkMembership {
  generation : Z;
  code : Code;
  earlier : list Code;
  nonce : list byte;
  members : list Member;
  disks : list Disk;
  list_ : List_;
}.

Definition sorted {T} (id : T -> Identity) (entries : list T) : list T := sort_by (by_key id) entries.

(** The search for an identity. *)
Definition lookup_by {T} (id : T -> Identity) (entries : list T) (i : Identity) : option T :=
  binary_find (fun entry => bytes_compare (id entry) i) entries.

Definition find_member (m : Membership) (id : Identity) : option Member := lookup_by mID (members m) id.
Definition find_disk (m : Membership) (id : Identity) : option Disk := lookup_by dID (disks m) id.

Definition checkDisk (m : Membership) (disk : Disk) : option merror :=
  if IsZero (dID disk) || (dWeight disk =? 0) && (dKind disk =? Cache_) then Some ErrInvalid
  else if dKind disk >? Journal then Some ErrInvalid
  else if (dKind disk =? Cache_) && (negb (bool_decide (dMachine disk = EmptyString)) || dEmpty disk || (dState disk =? Deleting))
  then Some ErrInvalid
  else if (dState disk <? Attaching) || (dState disk >? Deleting) then Some ErrInvalid
  else if (dState disk =? Released) || (dState disk =? Deleting) then
    if negb (IsZero (dMember disk)) || negb (dAssigned disk =? 0) then Some ErrInvalid else None
  else match find_member m (dMember disk) with
       | None => Some ErrInvalid
       | Some _ =>
         if (dAssigned disk =? 0) || (dAssigned disk >? generation m) then Some ErrInvalid else None
       end.

Definition served (m : Membership) (disk : Disk) : string :=
  if negb (dState disk =? Serving) then EmptyString
  else from_option mAddress EmptyString (find_member m (dMember disk)).

Fixpoint check_members (previous : option Identity) (l : list Member) : option merror :=
  match l with
  | [] => None
  | member :: l =>
    if IsZero (mID member) || bool_decide (mAddress member = EmptyString) then Some ErrInvalid
    else if (mState member <? Joining) || (mState member >? Draining) then Some ErrInvalid
    else if bool_decide (previous = Some (mID member)) then Some ErrInvalid
    else check_members (Some (mID member)) l
  end.

Fixpoint check_disks (m : Membership) (previous : option Identity) (l : list Disk) : option merror :=
  match l with
  | [] => None
  | disk :: l =>
    if bool_decide (previous = Some (dID disk)) then Some ErrInvalid
    else match checkDisk m disk with
         | Some e => Some e
         | None => check_disks m (Some (dID disk)) l
         end
  end.

Definition caches_of (m : Membership) : list Cache :=
  (fun disk => mkCache (dID disk) (dWeight disk) (served m disk)) <$> filter (fun disk => dKind disk = Cache_) (disks m).

Definition with_list (m : Membership) (l : List_) : Membership :=
  mkMembership (generation m) (code m) (earlier m) (nonce m) (members m) (disks m) l.

Definition New (generation : Z) (code : Code) (members : list Member) (disks : list Disk) (earlier : list Code) :
    result merror Membership :=
  match Validate code with
  | Some _ => Err ErrInvalid
  | None =>
    let m := mkMembership generation code earlier [] (sorted mID members) (sorted dID disks) emptyList in
    match check_members None (Membership.members m) with
    | Some e => Err e
    | None =>
      match check_disks m None (Membership.disks m) with
      | Some e => Err e
      | None =>
        match NewList code (caches_of m) earlier with
        | Err _ => Err ErrInvalid
        | Ok list => Ok (with_list m list)
        end
      end
    end
  end.

Definition Empty : Membership :=
  match New 0 (CodeFor 1) [] [] [] with Ok m => m | Err _ => mkMembership 0 (mkCode 0 0) [] [] [] [] emptyList end.

Definition noCache : Cache := mkCache zeroIdentity 0 EmptyString.

Definition Alone (self : Member) (disk : Disk) : Membership :=
  let self := with_mstate self Active in
  let disk := with_assignment disk (mID self) Serving 0 in
  if IsZero (mID self) || bool_decide (mAddress self = EmptyString) || IsZero (dID disk) || (dWeight disk =? 0) then
    let list := Rank.Alone noCache in mkMembership 0 (Rank.code list) [] [] [] [] list
  else
    let list := Rank.Alone (mkCache (dID disk) (dWeight disk) (mAddress self)) in
    mkMembership 0 (Rank.code list) [] [] [self] [disk] list.

(** ** Routes *)

Definition Serves (m : Membership) (member disk : Identity) : bool :=
  match find_disk m disk with
  | None => false
  | Some found => negb (IsZero member) && bool_decide (dMember found = member) && (dState found =? Serving)
  end.

Record Route := mkRoute { rDisk : Identity; rAddress : string; rGeneration : Z; rAssigned : Z }.

Definition route (m : Membership) (disk : Identity) : option Route :=
  match find_disk m disk with
  | None => None
  | Some found =>
    let address := served m found in
    if bool_decide (address = EmptyString) then None
    else Some (mkRoute disk address (generation m) (dAssigned found))
  end.

Definition Equal (m other : Membership) : bool :=
  (generation m =? generation other) && bool_decide (code m = code other) && bool_decide (earlier m = earlier other) &&
  bool_decide (members m = members other) && bool_decide (disks m = disks other).

(** ** Changes *)

(** [slices.IndexFunc] and an assignment at the index: the first entry of an
    identity replaced. *)
Fixpoint replace_first {T} (id : T -> Identity) (i : Identity) (f : T -> T) (l : list T) : list T :=
  match l with
  | [] => []
  | x :: l => if bool_decide (id x = i) then f x :: l else x :: replace_first id i f l
  end.

Definition has {T} (id : T -> Identity) (i : Identity) (l : list T) : bool := existsb (fun x => bool_decide (id x = i)) l.

Definition put (disks : list Disk) (disk : Disk) : list Disk :=
  if has dID (dID disk) disks then replace_first dID (dID disk) (fun _ => disk) disks else disks ++ [disk].

(** [slices.Delete] of the first entry of an identity *)
Fixpoint delete_first {T} (id : T -> Identity) (i : Identity) (l : list T) : list T :=
  match l with
  | [] => []
  | x :: l => if bool_decide (id x = i) then l else x :: delete_first id i l
  end.

Definition next (m : Membership) (members : list Member) (disks : list Disk) : result merror Membership :=
  New (wrap64 (generation m + 1)) (code m) members disks (earlier m).

Definition Join (m : Membership) (member : Member) (ds : list Disk) : result merror Membership :=
  match find_member m (mID member) with
  | Some listed =>
    if forallb (fun disk => match find_disk m (dID disk) with
                            | Some found => bool_decide (dMember found = mID listed)
                            | None => false
                            end) ds
    then Err ErrUnchanged else Err ErrInvalid
  | None =>
    let member := with_mstate member Joining in
    next m (members m ++ [member])
      (fold_left (fun next disk => put next (with_assignment disk (mID member) Attaching (wrap64 (generation m + 1)))) ds (disks m))
  end.

Definition Add (m : Membership) (disk : Disk) : result merror Membership :=
  match find_disk m (dID disk) with
  | Some _ => Err ErrUnchanged
  | None => next m (members m) (disks m ++ [with_assignment disk zeroIdentity Released 0])
  end.

Definition Serve (m : Membership) (disk member : Identity) : result merror Membership :=
  match find_disk m disk with
  | None => Err ErrInvalid
  | Some found =>
    if negb (bool_decide (dMember found = member)) then Err ErrInvalid
    else if dState found =? Serving then Err ErrUnchanged
    else if negb (dState found =? Attaching) then Err ErrInvalid
    else
      next m
        ((fun x => if bool_decide (mID x = member) && (mState x =? Joining) then with_mstate x Active else x) <$> members m)
        (put (disks m) (with_dstate found Serving))
  end.

Definition Move (m : Membership) (member : Identity) (address : string) : result merror Membership :=
  match List.find (fun listed => bool_decide (mID listed = member)) (members m) with
  | None => Err ErrInvalid
  | Some listed =>
    if bool_decide (mAddress listed = address) then Err ErrUnchanged
    else next m (replace_first mID member (fun x => with_address x address) (members m)) (disks m)
  end.

Definition Weigh (m : Membership) (disk : Identity) (weight : Z) : result merror Membership :=
  match find_disk m disk with
  | None => Err ErrInvalid
  | Some found =>
    if dWeight found =? weight then Err ErrUnchanged else next m (members m) (put (disks m) (with_weight found weight))
  end.

(** What [Drain] does to one disk. *)
Definition drained (member : Identity) (disk : Disk) : Disk :=
  if bool_decide (dMember disk = member) && ((dState disk =? Attaching) || (dState disk =? Serving))
  then with_dstate disk Releasing else disk.

Definition Drain (m : Membership) (member : Identity) : result merror Membership :=
  match List.find (fun listed => bool_decide (mID listed = member)) (members m) with
  | None => Err ErrInvalid
  | Some listed =>
    let changed := negb (mState listed =? Draining) ||
      existsb (fun disk => bool_decide (dMember disk = member) && ((dState disk =? Attaching) || (dState disk =? Serving))) (disks m) in
    if negb changed then Err ErrUnchanged
    else next m (replace_first mID member (fun x => with_mstate x Draining) (members m)) (drained member <$> disks m)
  end.

Definition Release (m : Membership) (disk : Identity) : result merror Membership :=
  match find_disk m disk with
  | None => Err ErrInvalid
  | Some found =>
    if (dState found =? Releasing) || (dState found =? Released) then Err ErrUnchanged
    else next m (members m) (put (disks m) (with_dstate found Releasing))
  end.

Definition Let (m : Membership) (disk member : Identity) : result merror Membership :=
  match find_disk m disk with
  | None => Err ErrInvalid
  | Some found =>
    if dState found =? Released then Err ErrUnchanged
    else if negb (dState found =? Releasing) || negb (bool_decide (dMember found = member)) then Err ErrInvalid
    else next m (members m) (put (disks m) (with_assignment found zeroIdentity Released 0))
  end.

Definition Assign (m : Membership) (disk member : Identity) : result merror Membership :=
  match find_disk m disk with
  | None => Err ErrInvalid
  | Some found =>
    if bool_decide (dMember found = member) && ((dState found =? Attaching) || (dState found =? Serving)) then Err ErrUnchanged
    else
      let found := with_assignment found member Attaching (wrap64 (generation m + 1)) in
      let found := if dKind found =? Journal then with_journal found (dKind found) (dMachine found) false else found in
      next m (members m) (put (disks m) found)
  end.

(** The changes of a journal disk. *)
Definition journal_disk (m : Membership) (disk : Identity) : option Disk :=
  match find_disk m disk with
  | Some found => if dKind found =? Journal then Some found else None
  | None => None
  end.

Definition Reserve (m : Membership) (disk : Identity) (machine : string) : result merror Membership :=
  match journal_disk m disk with
  | None => Err ErrInvalid
  | Some found =>
    if bool_decide (dMachine found = machine) then Err ErrUnchanged
    else next m (members m) (put (disks m) (with_journal found (dKind found) machine (dEmpty found)))
  end.

Definition MarkEmpty (m : Membership) (disk : Identity) (empty : bool) : result merror Membership :=
  match journal_disk m disk with
  | None => Err ErrInvalid
  | Some found =>
    if bool_decide (dEmpty found = empty) then Err ErrUnchanged
    else next m (members m) (put (disks m) (with_journal found (dKind found) (dMachine found) empty))
  end.

Definition Delete (m : Membership) (disk : Identity) : result merror Membership :=
  match journal_disk m disk with
  | None => Err ErrInvalid
  | Some found =>
    if dState found =? Deleting then Err ErrUnchanged
    else next m (members m) (put (disks m) (with_dstate found Deleting))
  end.

Definition Remove (m : Membership) (disk : Identity) : result merror Membership :=
  if has dID disk (disks m) then next m (members m) (delete_first dID disk (disks m)) else Err ErrUnchanged.

Definition Leave (m : Membership) (member : Identity) : result merror Membership :=
  if has mID member (members m) then next m (delete_first mID member (members m)) (disks m) else Err ErrUnchanged.

Definition Recode (m : Membership) (code_ : Code) (earlier_ : list Code) : result merror Membership :=
  if bool_decide (code_ = code m) && bool_decide (earlier_ = earlier m) then Err ErrUnchanged
  else New (wrap64 (generation m + 1)) code_ (members m) (disks m) earlier_.

(** ** Steps *)

Definition stepJournal (was : option Disk) (disk : Disk) : option merror :=
  match was with
  | None => None
  | Some was =>
    if negb (dKind disk =? dKind was) then Some ErrInvalid
    else if (dState disk =? Deleting) && negb (dState was =? Deleting) && (negb (dState was =? Released) || negb (dEmpty was))
    then Some ErrInvalid
    else if (dState disk =? Attaching) && (dState was =? Released) && dEmpty disk then Some ErrInvalid
    else if (dState was =? Deleting) && negb (dState disk =? Deleting) then Some ErrInvalid
    else if negb (bool_decide (dMachine disk = dMachine was)) && negb (dState was =? Released) then Some ErrInvalid
    else None
  end.

(** [was] is the disk the current generation lists under the identity, if any.
    The injected faults of the simulator are off. *)
Definition stepDisk (next : Membership) (was : option Disk) (disk : Disk) : option merror :=
  match stepJournal was disk with
  | Some e => Some e
  | None =>
    if (dState disk =? Attaching) && match was with None => true | Some was => negb (bool_decide (dMember was = dMember disk)) end then
      if match was with None => false | Some was => negb (dState was =? Released) end then Some ErrInvalid
      else if from_option (fun member => mState member =? Draining) false (find_member next (dMember disk)) then Some ErrInvalid
      else if negb (dAssigned disk =? generation next) then Some ErrInvalid
      else None
    else match was with
    | None => if negb (dState disk =? Released) then Some ErrInvalid else None
    | Some was =>
      if dState disk =? Released then
        if negb (dState was =? Releasing) && negb (dState was =? Released) then Some ErrInvalid else None
      else if dState disk =? Deleting then None
      else if negb (bool_decide (dMember disk = dMember was)) || negb (dAssigned disk =? dAssigned was) then Some ErrInvalid
      else if dState disk <? dState was then Some ErrInvalid
      else None
    end
  end.

(** The first error of a loop. *)
Fixpoint first_error {T} (f : T -> option merror) (l : list T) : option merror :=
  match l with
  | [] => None
  | x :: l => match f x with Some e => Some e | None => first_error f l end
  end.

Definition Step (current next : Membership) : option merror :=
  if negb (generation next =? wrap64 (generation current + 1)) then Some ErrInvalid
  else match first_error (fun disk => stepDisk next (find_disk current (dID disk)) disk) (disks next) with
  | Some e => Some e
  | None =>
    match first_error (fun disk =>
      match find_disk next (dID disk) with
      | Some _ => None
      | None =>
        if negb (dState disk =? Released) && negb (dState disk =? Deleting) then Some ErrInvalid
        else if (dKind disk =? Journal) && negb (dState disk =? Deleting) then Some ErrInvalid
        else None
      end) (disks current) with
    | Some e => Some e
    | None =>
      first_error (fun member =>
        match find_member next (mID member) with
        | Some _ => None
        | None => if negb (mState member =? Draining) then Some ErrInvalid else None
        end) (members current)
    end
  end.

(** ** Validity *)

Definition member_ok (x : Member) : Prop :=
  IsZero (mID x) = false /\ mAddress x <> EmptyString /\ Joining <= mState x <= Draining.

Definition earlier_ok (c : Code) (e : list Code) : Prop := zlen e <= MaxEarlierCodes /\ check_earlier c [] e = None.

Record valid (m : Membership) : Prop := {
  v_code : Validate (code m) = None;
  v_earlier : earlier_ok (code m) (earlier m);
  v_members : Forall member_ok (members m);
  v_members_ordered : ordered (by_key mID) (members m);
  v_members_distinct : NoDup (mID <$> members m);
  v_disks : Forall (fun d => checkDisk m d = None) (disks m);
  v_disks_ordered : ordered (by_key dID) (disks m);
  v_disks_distinct : NoDup (dID <$> disks m);
  v_list : NewList (code m) (caches_of m) (earlier m) = Ok (list_ m);
}.

Lemma check_members_iff p l : check_members p l = None <-> Forall member_ok l /\ neighbours mID p l.
Proof.
  revert p. induction l as [|x l IH]; intros p; simpl; [split; [split; [by apply Forall_nil|done]|done]|].
  rewrite Forall_cons. unfold member_ok at 1. destruct (IsZero (mID x)) eqn:Ez; simpl; [split; [done|naive_solver]|].
  case_bool_decide as Ea; [naive_solver|].
  destruct (Z.ltb_spec (mState x) Joining); simpl; [split; [done|intros [[(_ & _ & ?) _] _]; lia]|].
  destruct (Z.gtb_spec (mState x) Draining); [split; [done|intros [[(_ & _ & ?) _] _]; lia]|].
  case_bool_decide as Ep; [naive_solver|]. rewrite IH. naive_solver.
Qed.

Lemma check_disks_iff m p l : check_disks m p l = None <-> Forall (fun d => checkDisk m d = None) l /\ neighbours dID p l.
Proof.
  revert p. induction l as [|d l IH]; intros p; simpl; [split; [split; [by apply Forall_nil|done]|done]|].
  rewrite Forall_cons. case_bool_decide as Ep; [naive_solver|]. destruct (checkDisk m d) eqn:E; [naive_solver|]. rewrite IH. naive_solver.
Qed.

(** What [checkDisk] and [served] look at. *)
Lemma checkDisk_ext m m' d : members m = members m' -> generation m = generation m' -> checkDisk m d = checkDisk m' d.
Proof. intros E E'. unfold checkDisk, find_member. by rewrite E, E'. Qed.

Lemma caches_of_ext m m' : members m = members m' -> disks m = disks m' -> caches_of m = caches_of m'.
Proof. intros E E'. unfold caches_of. rewrite E'. apply list_fmap_ext. intros _ d _. unfold served, find_member. by rewrite E. Qed.

Lemma NewList_earlier c cs e l : NewList c cs e = Ok l -> earlier_ok c e.
Proof.
  unfold NewList, earlier_ok. destruct (Validate c); [done|]. destruct (Z.gtb_spec (zlen e) MaxEarlierCodes); [done|].
  destruct (check_earlier c [] e); [done|]. intros _. split; [lia|done].
Qed.

Lemma New_valid g c ms ds e m : New g c ms ds e = Ok m ->
  valid m /\ generation m = g /\ code m = c /\ earlier m = e /\ nonce m = [] /\ members m = sorted mID ms /\ disks m = sorted dID ds.
Proof.
  unfold New. destruct (Validate c) eqn:Ec; [done|]. set (m0 := mkMembership _ _ _ _ _ _ _).
  destruct (check_members None (members m0)) eqn:Em; [done|]. destruct (check_disks m0 None (disks m0)) eqn:Ed; [done|].
  destruct (NewList c (caches_of m0) e) as [l|] eqn:El; [|done]. intros [= <-].
  apply check_members_iff in Em as [Hm Hmn]. apply check_disks_iff in Ed as [Hd Hdn].
  apply neighbours_distinct in Hmn, Hdn; [|apply sort_by_key_ordered..].
  split; [|done]. split; simpl; try done; try apply sort_by_key_ordered. by eapply NewList_earlier.
Qed.

(** A cache disk that passes its check ranks. *)
Lemma checkDisk_cache m d : checkDisk m d = None -> dKind d = Cache_ -> IsZero (dID d) = false /\ dWeight d <> 0.
Proof.
  unfold checkDisk. intros Hd Hk. rewrite Hk in Hd. destruct (IsZero (dID d)); [done|]. split; [done|]. intros E. by rewrite E in Hd.
Qed.

Lemma filter_distinct {T} (id : T -> Identity) (P : T -> Prop) `{!forall x, Decision (P x)} l :
  NoDup (id <$> l) -> NoDup (id <$> filter P l).
Proof. intros Hn. eapply sublist_NoDup; [exact Hn|]. apply fmap_sublist, sublist_filter. Qed.

Lemma NewList_complete c cs e : Validate c = None -> earlier_ok c e -> Forall cache_valid cs -> NoDup (cIdentity <$> cs) ->
  exists l, NewList c cs e = Ok l.
Proof.
  intros Hc [He He'] Hv Hn. unfold NewList. rewrite Hc, He'. destruct (Z.gtb_spec (zlen e) MaxEarlierCodes); [lia|].
  destruct (check_caches None _) eqn:E; [|by eexists]. exfalso.
  assert (check_caches None (sort_by (by_key cIdentity) cs) = None); [|congruence].
  apply check_caches_iff; [apply sort_by_key_ordered|]. by rewrite sort_by_perm.
Qed.

(** A disk that a membership of these members, at this generation, may list. *)
Definition disk_ok (g : Z) (ms : list Member) (d : Disk) : Prop :=
  checkDisk (mkMembership g (mkCode 0 0) [] [] (sorted mID ms) [] emptyList) d = None.

Lemma New_complete g c ms ds e : Validate c = None -> earlier_ok c e -> Forall member_ok ms -> NoDup (mID <$> ms) ->
  Forall (disk_ok g ms) ds -> NoDup (dID <$> ds) -> exists m, New g c ms ds e = Ok m.
Proof.
  intros Hc He Hm Hmn Hd Hdn. unfold New. rewrite Hc. set (m0 := mkMembership _ _ _ _ _ _ _).
  rewrite (proj2 (check_members_iff None (members m0))).
  2: { rewrite neighbours_distinct by apply sort_by_key_ordered. simpl. unfold sorted. by rewrite sort_by_perm. }
  assert (Forall (fun d => checkDisk m0 d = None) (disks m0)) as Hd0.
  { simpl. unfold sorted. rewrite sort_by_perm. eapply Forall_impl; [exact Hd|]. intros d H. unfold disk_ok in H. by erewrite checkDisk_ext. }
  assert (NoDup (dID <$> disks m0)) as Hdn0 by (simpl; unfold sorted; by rewrite sort_by_perm).
  rewrite (proj2 (check_disks_iff m0 None (disks m0))) by (rewrite neighbours_distinct by apply sort_by_key_ordered; done).
  destruct (NewList_complete c (caches_of m0) e Hc He) as [l ->]; [| |by eexists].
  - unfold caches_of. apply Forall_fmap, Forall_forall. intros d [Hk Hin]%list_elem_of_filter. eapply Forall_forall in Hd0; [|exact Hin].
    by apply (checkDisk_cache m0).
  - unfold caches_of. rewrite <- list_fmap_compose. by apply (filter_distinct dID).
Qed.

(** ** Lookups *)

Lemma find_member_iff m id x : valid m -> (find_member m id = Some x <-> x ∈ members m /\ mID x = id).
Proof. intros Hv. unfold find_member, lookup_by. rewrite key_search_scan by apply Hv. apply find_id_iff, Hv. Qed.

Lemma find_disk_iff m id d : valid m -> (find_disk m id = Some d <-> d ∈ disks m /\ dID d = id).
Proof. intros Hv. unfold find_disk, lookup_by. rewrite key_search_scan by apply Hv. apply find_id_iff, Hv. Qed.

Lemma find_member_none m id : valid m -> (find_member m id = None <-> id ∉ mID <$> members m).
Proof. intros Hv. unfold find_member, lookup_by. rewrite key_search_scan by apply Hv. apply find_id_none. Qed.

Lemma find_disk_none m id : valid m -> (find_disk m id = None <-> id ∉ dID <$> disks m).
Proof. intros Hv. unfold find_disk, lookup_by. rewrite key_search_scan by apply Hv. apply find_id_none. Qed.

(** The binary searches find what a scan would: in a valid membership, the
    member, the disk and so the route of an identity are those of the one entry
    listed under it. *)
Theorem lookups_are_scans m id : valid m ->
  find_member m id = List.find (fun x => bool_decide (mID x = id)) (members m) /\
  find_disk m id = List.find (fun d => bool_decide (dID d = id)) (disks m).
Proof. intros Hv. split; apply key_search_scan, Hv. Qed.

Lemma lookups_are_scans_witness : valid Empty /\ find_disk Empty zeroIdentity = None.
Proof.
  assert (valid Empty) as Hv by (eapply (New_valid 0 (CodeFor 1) [] [] []); reflexivity). split; [exact Hv|].
  destruct (lookups_are_scans Empty zeroIdentity Hv) as [_ ->]. reflexivity.
Defined.

Lemma valid_Empty : valid Empty.
Proof. by eapply (New_valid 0 (CodeFor 1) [] [] []). Qed.

(** ** Entries replaced *)

Section Replace.
Context {T : Type} (id : T -> Identity).

Lemma has_iff i l : has id i l = true <-> i ∈ id <$> l.
Proof.
  unfold has. rewrite existsb_exists, list_elem_of_fmap. setoid_rewrite list_elem_of_In. setoid_rewrite bool_decide_eq_true. naive_solver.
Qed.

Lemma replace_first_fmap {B} (g : T -> B) i f l : (forall x, x ∈ l -> id x = i -> g (f x) = g x) -> g <$> replace_first id i f l = g <$> l.
Proof.
  induction l as [|x l IH]; intros Hg; [done|]. simpl. case_bool_decide as E; rewrite !fmap_cons.
  - rewrite Hg; [done|apply list_elem_of_here|done].
  - rewrite IH; [done|]. intros y Hy. apply Hg. by constructor.
Qed.

Lemma elem_of_replace_first i f l y : NoDup (id <$> l) ->
  (y ∈ replace_first id i f l <-> (exists x, x ∈ l /\ id x = i /\ y = f x) \/ (y ∈ l /\ id y <> i)).
Proof.
  induction l as [|x l IH]; intros Hn; simpl; [split; [intros H; by apply not_elem_of_nil in H|intros [(x & H & _)|[H _]]; by apply not_elem_of_nil in H]|].
  rewrite fmap_cons in Hn. apply NoDup_cons in Hn as [Hx Hn]. case_bool_decide as E.
  - rewrite elem_of_cons. setoid_rewrite elem_of_cons. split.
    + intros [->|Hy]; [left; exists x; auto|]. right. split; [by right|]. intros Ey. apply Hx. rewrite E, <- Ey. by apply list_elem_of_fmap_2.
    + intros [(z & [->|Hz] & Ez & ->)|[[->|Hy] Ey]]; [by left| |done|by right].
      destruct Hx. rewrite E, <- Ez. by apply list_elem_of_fmap_2.
  - rewrite !elem_of_cons, (IH Hn). setoid_rewrite elem_of_cons. split.
    + intros [->|[(z & Hz & Ez & ->)|[Hy Ey]]]; [right; split; [by left|done]|left; exists z; auto|right; split; [by right|done]].
    + intros [(z & [->|Hz] & Ez & ->)|[[->|Hy] Ey]]; [done|right; left; by exists z|by left|right; by right].
Qed.

Lemma elem_of_delete_first i l y : NoDup (id <$> l) -> (y ∈ delete_first id i l <-> y ∈ l /\ id y <> i).
Proof.
  induction l as [|x l IH]; intros Hn; simpl; [split; [intros H; by apply not_elem_of_nil in H|by intros [? _]]|].
  rewrite fmap_cons in Hn. apply NoDup_cons in Hn as [Hx Hn]. case_bool_decide as E.
  - rewrite elem_of_cons. split; [|by intros [[->|Hy] Ey]]. intros Hy. split; [by right|]. intros Ey. apply Hx. rewrite E, <- Ey. by apply list_elem_of_fmap_2.
  - rewrite !elem_of_cons, (IH Hn). naive_solver.
Qed.

Lemma delete_first_sublist i l : delete_first id i l `sublist_of` l.
Proof. induction l as [|x l IH]; simpl; [done|]. case_bool_decide; by constructor. Qed.

End Replace.

Lemma put_fmap {B} (g : Disk -> B) ds found d : NoDup (dID <$> ds) -> found ∈ ds -> dID d = dID found -> g d = g found ->
  g <$> put ds d = g <$> ds.
Proof.
  intros Hn Hin Ei Eg. unfold put. rewrite (proj2 (has_iff dID _ ds)) by (rewrite Ei; by apply list_elem_of_fmap_2).
  apply replace_first_fmap. intros x Hx Ex. rewrite Eg. f_equal. apply (id_determines dID ds); [done..|congruence].
Qed.

Lemma elem_of_put ds d x : NoDup (dID <$> ds) -> (x ∈ put ds d <-> x = d \/ (x ∈ ds /\ dID x <> dID d)).
Proof.
  intros Hn. unfold put. destruct (has dID (dID d) ds) eqn:E.
  - apply has_iff in E as (y & Ey & Hy)%list_elem_of_fmap. rewrite elem_of_replace_first by done. naive_solver.
  - assert (dID d ∉ dID <$> ds) as Hni by (intros H%has_iff; congruence). rewrite elem_of_app, list_elem_of_singleton. split.
    + intros [Hx| ->]; [right; split; [done|]|by left]. intros Ex. apply Hni. rewrite <- Ex. by apply list_elem_of_fmap_2.
    + intros [->|[Hx _]]; [by right|by left].
Qed.

Lemma put_distinct ds d : NoDup (dID <$> ds) -> NoDup (dID <$> put ds d).
Proof.
  intros Hn. unfold put. destruct (has dID (dID d) ds) eqn:E.
  - by rewrite replace_first_fmap.
  - rewrite fmap_app. apply NoDup_app. split; [done|]. split; [|apply NoDup_singleton].
    intros i Hi ->%list_elem_of_singleton. apply has_iff in Hi. congruence.
Qed.

(** ** Steps *)

Lemma first_error_iff {T} (f : T -> option merror) l : first_error f l = None <-> Forall (fun x => f x = None) l.
Proof.
  induction l as [|x l IH]; simpl; [split; [intros _; by apply Forall_nil|done]|]. rewrite Forall_cons. destruct (f x); [naive_solver|]. rewrite IH. naive_solver.
Qed.

Record steps (current next : Membership) : Prop := {
  st_generation : generation next = wrap64 (generation current + 1);
  st_disks d : d ∈ disks next -> stepDisk next (find_disk current (dID d)) d = None;
  st_removed d : d ∈ disks current -> find_disk next (dID d) = None ->
    (dState d = Released \/ dState d = Deleting) /\ (dKind d = Journal -> dState d = Deleting);
  st_left x : x ∈ members current -> find_member next (mID x) = None -> mState x = Draining;
}.

Lemma Step_iff current next : Step current next = None <-> steps current next.
Proof.
  unfold Step. destruct (Z.eqb_spec (generation next) (wrap64 (generation current + 1))) as [Eg|Eg]; simpl; [|split; [done|by intros []]].
  destruct (first_error (fun disk => stepDisk _ _ disk) _) eqn:E1.
  { split; [done|]. intros [_ H _ _]. rewrite (proj2 (first_error_iff _ _)) in E1; [done|]. by apply Forall_forall. }
  apply first_error_iff in E1. rewrite Forall_forall in E1. destruct (first_error _ (disks current)) eqn:E2.
  { split; [done|]. intros [_ _ H _]. rewrite (proj2 (first_error_iff _ _)) in E2; [done|]. apply Forall_forall. intros d Hd.
    destruct (find_disk next (dID d)) eqn:Ef; [done|]. destruct (H d Hd Ef) as [Hs Hj].
    destruct (Z.eqb_spec (dState d) Released), (Z.eqb_spec (dState d) Deleting), (Z.eqb_spec (dKind d) Journal); naive_solver. }
  apply first_error_iff in E2. rewrite Forall_forall in E2. rewrite first_error_iff, Forall_forall. split.
  - intros E3. split; [done|done| |].
    + intros d Hd Ef. specialize (E2 d Hd). simpl in E2. rewrite Ef in E2.
      destruct (Z.eqb_spec (dState d) Released), (Z.eqb_spec (dState d) Deleting), (Z.eqb_spec (dKind d) Journal); naive_solver.
    + intros x Hx Ef. specialize (E3 x Hx). simpl in E3. rewrite Ef in E3. by destruct (Z.eqb_spec (mState x) Draining).
  - intros [_ _ _ H] x Hx. destruct (find_member next (mID x)) eqn:Ef; [done|]. by rewrite (H x Hx Ef).
Qed.

End Membership.
