(* ===== verification/MembershipSteps.v ===== *)
(** * What the steps of the membership keep

    Over any sequence of generations in which each follows the one before by
    [Step]: a generation that assigned a disk names one member for ever, a disk is
    released between two assignments, and a journal disk is taken out only after it
    was released and empty.  The changes that assign and serve disks move no
    window. *)

From S2P Require Import Prelude Bytes Order Rank Membership.

Module MembershipSteps.
Import Rank Membership.

(** ** Windows *)

Definition shape (l : List_) : list (Identity * Z) := (fun c => (cIdentity c, cWeight c)) <$> caches l.

Definition identities (ranks : option (list Cache)) : option (list Identity) :=
  match ranks with Some ranks => Some (cIdentity <$> ranks) | None => None end.

(** Lists of the same disks and weights rank alike, wherever the disks are. *)
Lemma Ranks_shape l l' w : list_ok l -> list_ok l' -> Rank.code l = Rank.code l' -> shape l = shape l' ->
  identities (Ranks l w) = identities (Ranks l' w).
Proof.
  intros Hl Hl' Ec Es. rewrite !Ranks_spec, <- Ec by done. destruct (_ <? 0); [done|]. simpl. f_equal.
  set (R := fun c c' => cIdentity c = cIdentity c' /\ cWeight c = cWeight c').
  assert (Forall2 R (caches l) (caches l')) as HR.
  { clear -Es. unfold shape in Es. revert Es. generalize (caches l'). induction (caches l) as [|c cs IH]; intros [|c' cs'] E; try done.
    rewrite !fmap_cons in E. injection E as E1 E2 E3. constructor; [done|by apply IH]. }
  assert (Forall2 R (order w (caches l)) (order w (caches l'))) as HO.
  { apply sort_by_Forall2; [|done]. intros x y x' y' [E1 E2] [E3 E4]. unfold order_cmp, scored_of. by rewrite E1, E2, E3, E4. }
  apply (Forall2_take _ _ _ (Z.to_nat (Width (Rank.code l)))) in HO. induction HO as [|x y xs ys [E _] _ IH]; [done|].
  rewrite !fmap_cons. by f_equal.
Qed.

(** What of a disk its place in the ranks comes from. *)
Definition signature (d : Disk) : Identity * Z * Z := (dID d, dWeight d, dKind d).

Lemma signature_pairs ds ds' : signature <$> ds ≡ₚ signature <$> ds' ->
  (fun d => (dID d, dWeight d)) <$> filter (fun d => dKind d = Cache_) ds ≡ₚ
  (fun d => (dID d, dWeight d)) <$> filter (fun d => dKind d = Cache_) ds'.
Proof.
  assert (forall ds : list Disk, (fun d => (dID d, dWeight d)) <$> filter (fun d => dKind d = Cache_) ds =
                     fst <$> filter (fun s : Identity * Z * Z => s.2 = Cache_) (signature <$> ds)) as E.
  { clear. induction ds as [|d ds IH]; [done|]. rewrite fmap_cons, !filter_cons. simpl. case_decide; [|done]. rewrite !fmap_cons. by f_equal. }
  intros Hp. rewrite !E. by rewrite Hp.
Qed.

Lemma valid_list_ok m : valid m -> list_ok (list_ m) /\ caches (list_ m) ≡ₚ caches_of m /\ Rank.code (list_ m) = code m.
Proof. intros Hv. eapply NewList_ok, Hv. Qed.

Lemma same_disks_rank_alike m m' w : valid m -> valid m' -> code m = code m' ->
  signature <$> disks m ≡ₚ signature <$> disks m' -> identities (Ranks (list_ m) w) = identities (Ranks (list_ m') w).
Proof.
  intros Hv Hv' Ec Hp. destruct (valid_list_ok m Hv) as (Hl & Hc & El), (valid_list_ok m' Hv') as (Hl' & Hc' & El').
  apply Ranks_shape; [done..|congruence|]. unfold shape.
  assert (forall (m : Membership) (l : List_), caches l ≡ₚ caches_of m -> (fun c => (cIdentity c, cWeight c)) <$> caches l ≡ₚ
            (fun d => (dID d, dWeight d)) <$> filter (fun d => dKind d = Cache_) (disks m)) as E.
  { clear. intros m l Hp. rewrite Hp. unfold caches_of. by rewrite <- list_fmap_compose. }
  assert (forall l : List_, list_ok l -> ordered (by_key fst) ((fun c => (cIdentity c, cWeight c)) <$> caches l)) as Ho.
  { clear. intros l [_ _ Ho _]. induction Ho as [|c cs Hs IH Hf]; [constructor|]. rewrite fmap_cons. constructor; [done|].
    by apply Forall_fmap. }
  apply (ordered_unique (by_key fst)); [by apply Forall_true|by apply Ho..| |].
  - rewrite !E by done. by apply signature_pairs.
  - intros x y Hx Hy Exy. apply bytes_compare_eq in Exy.
    apply (id_determines fst ((fun c => (cIdentity c, cWeight c)) <$> caches (list_ m))); [|done..].
    rewrite <- list_fmap_compose. apply Hl.
Qed.

Lemma next_same_windows m ms ds m' w : valid m -> next m ms ds = Ok m' -> signature <$> ds ≡ₚ signature <$> disks m ->
  identities (Ranks (list_ m') w) = identities (Ranks (list_ m) w).
Proof.
  intros Hv Hn Hp. apply New_valid in Hn as (Hv' & _ & Ec & _ & _ & _ & Ed). apply same_disks_rank_alike; [done..|].
  rewrite Ed. unfold sorted. by rewrite sort_by_perm.
Qed.

(** A change of one listed disk that keeps its place. *)
Lemma next_put_same_windows m found d m' w : valid m -> found ∈ disks m -> signature d = signature found ->
  next m (members m) (put (disks m) d) = Ok m' ->
  identities (Ranks (list_ m') w) = identities (Ranks (list_ m) w).
Proof.
  intros Hv Hin Es Hn. eapply next_same_windows; [done..|]. rewrite (put_fmap signature _ found); [done|apply Hv|done| |done].
  unfold signature in Es. congruence.
Qed.

(** The changes of where disks are, and of who may use them. *)
Definition assignment_change (m m' : Membership) : Prop :=
  (exists d x, Serve m d x = Ok m') \/ (exists x a, Move m x a = Ok m') \/ (exists x, Drain m x = Ok m') \/
  (exists d, Release m d = Ok m') \/ (exists d x, Let m d x = Ok m') \/ (exists d x, Assign m d x = Ok m') \/
  (exists d a, Reserve m d a = Ok m') \/ (exists d e, MarkEmpty m d e = Ok m') \/ (exists d, Delete m d = Ok m') \/
  (exists x, Leave m x = Ok m').

Lemma journal_disk_found m d found : journal_disk m d = Some found -> find_disk m d = Some found /\ dKind found = Journal.
Proof. unfold journal_disk. destruct (find_disk m d) as [f|]; [|done]. destruct (Z.eqb_spec (dKind f) Journal); [|done]. by intros [= <-]. Qed.

(** C21: a change of where a disk is served, of its member's state or address, of a
    journal disk's reservation, or the leave of a member moves no window: every
    window ranks the same disks in the same order before and after. *)
Theorem assignments_move_no_window m m' w : valid m -> assignment_change m m' ->
  identities (Ranks (list_ m') w) = identities (Ranks (list_ m) w).
Proof.
  intros Hv Hc. assert (forall i d, find_disk m i = Some d -> d ∈ disks m) as Hf by (intros i d [? _]%find_disk_iff; done).
  destruct Hc as [(d & x & H)|[(x & a & H)|[(x & H)|[(d & H)|[(d & x & H)|[(d & x & H)|[(d & a & H)|[(d & e & H)|[(d & H)|(x & H)]]]]]]]]]; revert H.
  - unfold Serve. destruct (find_disk m d) as [f|] eqn:Ef; [|done]. repeat (destruct (negb _) || destruct (_ =? _); try done).
    all: intros Hn; eapply next_same_windows; [done..|]; rewrite (put_fmap signature _ f); [done|apply Hv|by eapply Hf|done|done].
  - unfold Move. destruct (List.find _ _); [|done]. destruct (bool_decide _); [done|]. intros Hn. by eapply next_same_windows.
  - unfold Drain. destruct (List.find _ _); [|done]. destruct (negb _); [done|]. intros Hn. eapply next_same_windows; [done..|].
    rewrite <- list_fmap_compose. erewrite list_fmap_ext; [done|]. intros _ f _. simpl. unfold drained. by destruct (_ && _).
  - unfold Release. destruct (find_disk m d) as [f|] eqn:Ef; [|done]. destruct (_ || _); [done|]. by eapply next_put_same_windows; eauto.
  - unfold Let. destruct (find_disk m d) as [f|] eqn:Ef; [|done]. destruct (_ =? _); [done|]. destruct (_ || _); [done|]. by eapply next_put_same_windows; eauto.
  - unfold Assign. destruct (find_disk m d) as [f|] eqn:Ef; [|done]. destruct (_ && _); [done|]. eapply next_put_same_windows; [done|by eapply Hf|].
    by destruct (_ =? Journal).
  - unfold Reserve. destruct (journal_disk m d) as [f|] eqn:Ef; [|done]. apply journal_disk_found in Ef as [Ef _]. destruct (bool_decide _); [done|].
    by eapply next_put_same_windows; eauto.
  - unfold MarkEmpty. destruct (journal_disk m d) as [f|] eqn:Ef; [|done]. apply journal_disk_found in Ef as [Ef _]. destruct (bool_decide _); [done|].
    by eapply next_put_same_windows; eauto.
  - unfold Delete. destruct (journal_disk m d) as [f|] eqn:Ef; [|done]. apply journal_disk_found in Ef as [Ef _]. destruct (_ =? _); [done|].
    by eapply next_put_same_windows; eauto.
  - unfold Leave. destruct (has _ _ _); [|done]. intros Hn. by eapply next_same_windows.
Qed.

(** ** Histories *)

(** Generations, oldest first, from the empty membership; each follows the one
    before it. *)
Record history (h : list Membership) : Prop := {
  h_first : h !! 0%nat = Some Empty;
  h_steps i a b : h !! i = Some a -> h !! S i = Some b -> valid b /\ steps a b;
  h_length : zlen h < 2 ^ 64;
}.

Lemma history_valid h i m : history h -> h !! i = Some m -> valid m /\ generation m = Z.of_nat i.
Proof.
  intros Hh. revert m. induction i as [|i IH]; intros m Hm.
  - rewrite (h_first h Hh) in Hm. injection Hm as <-. split; [apply valid_Empty|reflexivity].
  - destruct (lookup_lt_is_Some_2 h i) as [a Ha]; [apply lookup_lt_Some in Hm; lia|]. destruct (IH a Ha) as [_ Eg].
    destruct (h_steps h Hh i a m Ha Hm) as [Hv [Hg _ _ _]]. split; [done|]. rewrite Hg, Eg. apply lookup_lt_Some in Hm.
    pose proof (h_length h Hh). unfold zlen in *. rewrite wrap64_small by (unfold u64; lia). lia.
Qed.

(** What the check of a disk says of its assignment. *)
Lemma checkDisk_assigned m d : checkDisk m d = None ->
  Attaching <= dState d <= Deleting /\ (dState d = Released \/ dState d = Deleting -> IsZero (dMember d) = true /\ dAssigned d = 0) /\
  (dState d < Released -> is_Some (find_member m (dMember d)) /\ dAssigned d <> 0 /\ dAssigned d <= generation m).
Proof.
  unfold checkDisk. destruct (_ || _); [done|]. destruct (_ >? Journal); [done|]. destruct (_ && _); [done|].
  destruct (Z.ltb_spec (dState d) Attaching); simpl; [done|]. destruct (Z.gtb_spec (dState d) Deleting); [done|].
  intros Hc. split; [lia|]. revert Hc.
  destruct (Z.eqb_spec (dState d) Released) as [E|E]; [|destruct (Z.eqb_spec (dState d) Deleting) as [E'|E']]; simpl.
  - destruct (IsZero (dMember d)); simpl; [|done]. destruct (Z.eqb_spec (dAssigned d) 0); [|done]. intros _. split; [done|]. rewrite E. lia.
  - destruct (IsZero (dMember d)); simpl; [|done]. destruct (Z.eqb_spec (dAssigned d) 0); [|done]. intros _. split; [done|]. rewrite E'. done.
  - destruct (find_member m (dMember d)); [|done]. destruct (Z.eqb_spec (dAssigned d) 0); simpl; [done|].
    destruct (Z.gtb_spec (dAssigned d) (generation m)); [done|]. intros _. split; [intros [?|?]; done|]. intros _. split; [by eexists|]. lia.
Qed.

(** A disk assigned in a generation was assigned so in the one before, or is
    assigned by this one, from released or new. *)
Lemma stepDisk_assigned next was d : checkDisk next d = None -> stepDisk next was d = None -> dAssigned d <> 0 ->
  (exists w, was = Some w /\ dAssigned w = dAssigned d /\ dMember w = dMember d /\ dState w <= dState d < Released) \/
  (dAssigned d = generation next /\ dState d = Attaching /\ forall w, was = Some w -> dState w = Released).
Proof.
  intros Hc Hs Ha. apply checkDisk_assigned in Hc as (Hst & Hrel & _). revert Hs. unfold stepDisk. destruct (stepJournal was d); [done|].
  assert (dState d <> Released /\ dState d <> Deleting) as [Hr Hd] by (split; intros E; destruct Hrel; auto).
  destruct was as [w|]; simpl.
  - destruct (_ && _) eqn:Ea.
    + apply andb_true_iff in Ea as [E1%Z.eqb_eq _]. destruct (Z.eqb_spec (dState w) Released) as [E2|]; simpl; [|done]. destruct (from_option _ _ _); [done|].
      destruct (Z.eqb_spec (dAssigned d) (generation next)) as [E3|]; [|done]. intros _. right. split_and!; try done. by intros w' [= <-].
    + destruct (Z.eqb_spec (dState d) Released); [done|]. destruct (Z.eqb_spec (dState d) Deleting); [done|].
      destruct (bool_decide_reflect (dMember d = dMember w)) as [Em|]; simpl; [|done]. destruct (Z.eqb_spec (dAssigned d) (dAssigned w)) as [E|]; simpl; [|done].
      destruct (Z.ltb_spec (dState d) (dState w)); [done|]. intros _. left. exists w. unfold Released, Deleting, Attaching in *. split_and!; try done; lia.
  - rewrite andb_true_r. destruct (Z.eqb_spec (dState d) Attaching) as [E1|E1].
    + destruct (from_option _ _ _); [done|]. destruct (Z.eqb_spec (dAssigned d) (generation next)) as [E3|]; [|done]. intros _. right. by split_and!.
    + by destruct (Z.eqb_spec (dState d) Released).
Qed.

(** A disk of a later generation, as its predecessor has it. *)
Lemma history_disk h i a b d : history h -> h !! i = Some a -> h !! S i = Some b -> d ∈ disks b ->
  checkDisk b d = None /\ stepDisk b (find_disk a (dID d)) d = None.
Proof.
  intros Hh Ha Hb Hd. destruct (h_steps h Hh i a b Ha Hb) as [Hv Hs]. split; [|by apply (st_disks _ _ Hs)].
  eapply Forall_forall in Hd; [exact Hd|apply Hv].
Qed.

(** A disk assigned at [j] under an assignment not made after [i] is so assigned at
    [i]. *)
Lemma assigned_since h i j b d : history h -> (i <= j)%nat -> h !! j = Some b -> d ∈ disks b -> dAssigned d <> 0 ->
  dAssigned d <= Z.of_nat i -> exists a c, h !! i = Some a /\ c ∈ disks a /\ dID c = dID d /\ dAssigned c = dAssigned d /\ dMember c = dMember d.
Proof.
  intros Hh Hij. revert b d. induction Hij as [|j Hij IH]; intros b d Hb Hd Ha Hle; [by exists b, d|].
  destruct (lookup_lt_is_Some_2 h j) as [a Haj]; [apply lookup_lt_Some in Hb; lia|].
  destruct (history_disk h j a b d Hh Haj Hb Hd) as [Hc Hs]. destruct (history_valid h (S j) b Hh Hb) as [_ Eg].
  destruct (history_valid h j a Hh Haj) as [Hva _].
  destruct (stepDisk_assigned b _ d Hc Hs Ha) as [(w & Hw & Ew & Em & _)|(Eb & _)]; [|lia].
  apply find_disk_iff in Hw as [Hin Eid]; [|done].
  destruct (IH a w Haj Hin ltac:(lia) ltac:(lia)) as (a0 & c & ? & ? & ? & ? & ?). exists a0, c. split_and!; congruence.
Qed.

(** C14: an assignment belongs to one member for ever. In any history, two
    generations that list a disk under the same assignment list it for the same
    member; and between two different assignments of a disk there is a generation
    in which it is released or not listed. *)
Theorem assignments_are_exclusive h i j a b d d' : history h -> (i < j)%nat ->
  h !! i = Some a -> h !! j = Some b -> d ∈ disks a -> d' ∈ disks b -> dID d = dID d' -> dAssigned d <> 0 -> dAssigned d' <> 0 ->
  (dAssigned d = dAssigned d' -> dMember d = dMember d') /\
  (dAssigned d <> dAssigned d' -> exists k c, (i < k < j)%nat /\ h !! k = Some c /\
     forall e, find_disk c (dID d) = Some e -> dState e = Released).
Proof.
  intros Hh Hij Ha Hb Hd Hd' Eid Hna Hna'. destruct (history_valid h i a Hh Ha) as [Hva Ega].
  assert (dAssigned d <= Z.of_nat i) as Hle.
  { pose proof (proj1 (Forall_forall _ _) (v_disks a Hva) d Hd) as Hc. apply checkDisk_assigned in Hc as (Hr & H1 & H2).
    destruct (decide (dState d < Released)) as [?|?]; [rewrite <- Ega; by apply H2|]. destruct H1 as [_ ?]; [|done]. unfold Released, Deleting in *. lia. }
  split.
  - intros E. destruct (assigned_since h i j b d' Hh ltac:(lia) Hb Hd' Hna' ltac:(lia)) as (a' & c & Ha' & Hc & Ec & _ & <-).
    rewrite Ha in Ha'. injection Ha' as <-. f_equal. apply (id_determines dID (disks a)); [apply Hva|done..|congruence].
  - revert b d' Hb Hd' Eid Hna'. induction Hij as [|j Hij IH]; intros b d' Hb Hd' Eid Hna' Hne.
    + destruct (history_disk h i a b d' Hh Ha Hb Hd') as [Hc Hs]. rewrite <- Eid in Hs.
      rewrite (proj2 (find_disk_iff a _ d Hva)) in Hs by done.
      destruct (stepDisk_assigned b _ d' Hc Hs Hna') as [(w & [= <-] & Ew & _)|(_ & _ & Hw)]; [by destruct Hne|].
      specialize (Hw d eq_refl). pose proof (proj1 (Forall_forall _ _) (v_disks a Hva) d Hd) as Hc'. apply checkDisk_assigned in Hc' as (_ & H1 & _).
      destruct H1; [by left|done].
    + destruct (lookup_lt_is_Some_2 h j) as [c Hc]; [apply lookup_lt_Some in Hb; lia|].
      destruct (history_disk h j c b d' Hh Hc Hb Hd') as [Hck Hs]. destruct (history_valid h j c Hh Hc) as [Hvc _].
      destruct (stepDisk_assigned b _ d' Hck Hs Hna') as [(w & Hw & Ew & _)|(_ & _ & Hw)].
      * apply find_disk_iff in Hw as [Hin Ew']; [|done].
        destruct (IH c w Hc Hin ltac:(congruence) ltac:(lia) ltac:(congruence)) as (k & e & Hk & He). exists k, e. split; [lia|done].
      * exists j, c. split; [lia|]. split; [done|]. rewrite Eid. exact Hw.
Qed.

(** A deleting disk was released and empty before it was marked. *)
Lemma deleting_since h i a d : history h -> h !! i = Some a -> d ∈ disks a -> dState d = Deleting ->
  exists k c e, (k < i)%nat /\ h !! k = Some c /\ e ∈ disks c /\ dID e = dID d /\ dState e = Released /\ dEmpty e = true /\
    forall n x y, (k < n <= i)%nat -> h !! n = Some x -> find_disk x (dID d) = Some y -> dState y = Deleting.
Proof.
  intros Hh. revert a d. induction i as [|i IH]; intros a d Ha Hd Ed.
  { rewrite (h_first h Hh) in Ha. injection Ha as <-. by apply not_elem_of_nil in Hd. }
  destruct (lookup_lt_is_Some_2 h i) as [b Hb]; [apply lookup_lt_Some in Ha; lia|].
  destruct (history_disk h i b a d Hh Hb Ha Hd) as [_ Hs]. destruct (history_valid h i b Hh Hb) as [Hvb _].
  destruct (history_valid h (S i) a Hh Ha) as [Hva _].
  assert (forall y, find_disk a (dID d) = Some y -> dState y = Deleting) as Hself.
  { intros y [Hy Ey]%find_disk_iff; [|done]. rewrite <- Ed. f_equal. by apply (id_determines dID (disks a)); [apply Hva|..]. }
  unfold stepDisk, stepJournal in Hs. destruct (find_disk b (dID d)) as [w|] eqn:Ew; [|by rewrite Ed in Hs].
  apply find_disk_iff in Ew as [Hw Eid]; [|done]. rewrite Ed in Hs. destruct (negb (dKind d =? dKind w)); [done|]. simpl in Hs.
  destruct (Z.eqb_spec (dState w) Deleting) as [Edw|Edw]; simpl in Hs.
  - destruct (IH b w Hb Hw Edw) as (k & c & e & Hk & Hc & He & Ee & Er & Em & Hall). rewrite Eid in *. exists k, c, e. split; [lia|]. split_and!; try done.
    intros n x y Hn Hx Hy. destruct (decide (n = S i)) as [->|]; [rewrite Ha in Hx; injection Hx as <-; by apply Hself|]. apply (Hall n x); [lia|done..].
  - destruct (Z.eqb_spec (dState w) Released) as [Er|]; simpl in Hs; [|done]. destruct (dEmpty w) eqn:Ee; simpl in Hs; [|done].
    exists i, b, w. split; [lia|]. split_and!; try done. intros n x y Hn Hx Hy. assert (n = S i) as -> by lia. rewrite Ha in Hx. injection Hx as <-. by apply Hself.
Qed.

(** C20: a journal disk is taken out of the membership only after a generation in
    which it was released and its last holder had left it empty, and from that
    generation on it is assigned to nobody. *)
Theorem journals_leave_empty h i a b d : history h -> h !! i = Some a -> h !! S i = Some b ->
  d ∈ disks a -> dKind d = Journal -> find_disk b (dID d) = None ->
  exists k c e, (k < i)%nat /\ h !! k = Some c /\ e ∈ disks c /\ dID e = dID d /\ dState e = Released /\ dEmpty e = true /\
    forall n x y, (k < n <= i)%nat -> h !! n = Some x -> find_disk x (dID d) = Some y -> dState y = Deleting.
Proof.
  intros Hh Ha Hb Hd Hk Hno. apply (deleting_since h i a d Hh Ha Hd). destruct (h_steps h Hh i a b Ha Hb) as [_ Hs].
  by apply (st_removed _ _ Hs d Hd Hno).
Qed.

(** ** A history *)

(** Generations that follow one another, checked by evaluation. *)
Fixpoint following (previous : Membership) (l : list Membership) : Prop :=
  match l with
  | [] => True
  | m :: l => New (generation m) (code m) (members m) (disks m) (earlier m) = Ok m /\ Step previous m = None /\ following m l
  end.

Lemma following_history l : following Empty l -> zlen (Empty :: l) < 2 ^ 64 -> history (Empty :: l).
Proof.
  intros Hf Hl. split; [done| |done]. clear Hl. generalize dependent Empty. induction l as [|m l IH]; intros p Hf i a b Ha Hb; [by destruct i|].
  destruct Hf as (Hn & Hs & Hf). destruct i as [|i]; [|by apply (IH m Hf i)]. injection Ha as <-. injection Hb as <-.
  split; [by apply New_valid in Hn as [? _]|by apply Step_iff].
Qed.

(** The generations a sequence of changes makes. *)
Fixpoint generations (m : Membership) (changes : list (Membership -> result merror Membership)) : list Membership :=
  match changes with
  | [] => []
  | change :: changes => match change m with Ok next => next :: generations next changes | Err _ => [] end
  end.

Definition testID (n : Z) : Identity := Zbyte n :: zeros 15.
Definition testMember (n : Z) : Member := mkMember (testID n) "10.0.0.1:8081" Joining.
Definition testDisk (n : Z) : Disk := mkDisk (testID n) "shard" 1 zeroIdentity 0 0 Cache_ EmptyString false.
Definition testJournal (n : Z) : Disk := mkDisk (testID n) "journal" 0 zeroIdentity 0 0 Journal EmptyString true.

(** A member joins with its disk, which is served, released, let go and assigned to
    it again; a journal disk is added, deleted and removed. *)
Definition testHistory : list Membership :=
  Empty :: generations Empty
    [fun m => Join m (testMember 1) [testDisk 2]; fun m => Serve m (testID 2) (testID 1); fun m => Release m (testID 2);
     fun m => Let m (testID 2) (testID 1); fun m => Assign m (testID 2) (testID 1); fun m => Add m (testJournal 3);
     fun m => Delete m (testID 3); fun m => Remove m (testID 3)].

Lemma testHistory_ok : history testHistory.
Proof. apply following_history; [vm_compute; repeat split|vm_compute; reflexivity]. Qed.

Definition testAt (i : nat) : Membership := default Empty (testHistory !! i).

Definition diskAt (i : nat) (id : Identity) : Disk := default (testDisk 0) (find_disk (testAt i) id).

Lemma testAt_lookup i : (i < 9)%nat -> testHistory !! i = Some (testAt i).
Proof.
  intros Hi. unfold testAt. destruct (testHistory !! i) eqn:E; [done|]. apply lookup_ge_None in E.
  assert (length testHistory = 9%nat) as El by (vm_compute; reflexivity). lia.
Qed.

Lemma diskAt_in i id : (i < 9)%nat -> is_Some (find_disk (testAt i) id) -> diskAt i id ∈ disks (testAt i).
Proof.
  intros Hi [d Hd]. unfold diskAt. rewrite Hd. simpl. apply find_disk_iff in Hd as [? _]; [done|].
  by apply (history_valid testHistory i _ testHistory_ok), testAt_lookup.
Qed.

Lemma assignments_move_no_window_witness :
  identities (Ranks (list_ (testAt 2)) (testWindow "vm" 1 0)) = identities (Ranks (list_ (testAt 1)) (testWindow "vm" 1 0)).
Proof.
  apply assignments_move_no_window.
  - apply (history_valid testHistory 1%nat _ testHistory_ok), testAt_lookup. lia.
  - left. exists (testID 2), (testID 1). vm_compute. reflexivity.
Defined.

Lemma assignments_are_exclusive_witness :
  exists k c, (1 < k < 5)%nat /\ testHistory !! k = Some c /\ forall e, find_disk c (dID (diskAt 1 (testID 2))) = Some e -> dState e = Released.
Proof.
  apply (assignments_are_exclusive testHistory 1 5 (testAt 1) (testAt 5) (diskAt 1 (testID 2)) (diskAt 5 (testID 2)) testHistory_ok).
  - lia.
  - apply testAt_lookup. lia.
  - apply testAt_lookup. lia.
  - apply diskAt_in; [lia|]. vm_compute. by eexists.
  - apply diskAt_in; [lia|]. vm_compute. by eexists.
  - vm_compute. reflexivity.
  - vm_compute. discriminate.
  - vm_compute. discriminate.
  - vm_compute. discriminate.
Defined.

Lemma journals_leave_empty_witness :
  exists k c e, (k < 7)%nat /\ testHistory !! k = Some c /\ e ∈ disks c /\ dState e = Released /\ dEmpty e = true.
Proof.
  destruct (journals_leave_empty testHistory 7 (testAt 7) (testAt 8) (diskAt 7 (testID 3)) testHistory_ok) as (k & c & e & Hk & Hc & He & _ & Hr & Hm & _).
  - apply testAt_lookup. lia.
  - apply testAt_lookup. lia.
  - apply diskAt_in; [lia|]. vm_compute. by eexists.
  - vm_compute. reflexivity.
  - vm_compute. reflexivity.
  - exists k, c, e. split; [exact Hk|]. split; [exact Hc|]. split; [exact He|]. split; [exact Hr|exact Hm].
Defined.

End MembershipSteps.
