(* ===== verification/MembershipFormat.v ===== *)
(** * The membership object

    [membership/format.go]: the membership as its object holds it, over the
    generated protobuf code given by the class [MWire].  A membership that is
    written is read back whole. *)

From S2P Require Import Prelude Bytes Order Rank Membership.

Module MembershipFormat.
Import Rank Membership.

Definition formatVersion : Z := 2.
Definition maximumSize : Z := Z.shiftl 1 20.
Definition nonceSize : Z := 16.

(** ** Messages

    A field of the generated messages is absent or present; absent bytes read as
    no bytes. *)

Record MemberMessage := mkMemberMessage {
  mm_id : list byte; mm_address : option string; mm_state : option Z; mm_unknown : list byte;
}.

Record DiskMessage := mkDiskMessage {
  dm_id : list byte; dm_volume : option string; dm_weight : option Z; dm_member : list byte; dm_state : option Z;
  dm_assigned : option Z; dm_kind : option Z; dm_machine : option string; dm_empty : option bool; dm_unknown : list byte;
}.

Record CodeMessage := mkCodeMessage { cm_k : option Z; cm_m : option Z; cm_unknown : list byte }.

Record Message := mkMessage {
  mg_version : option Z; mg_generation : option Z; mg_k : option Z; mg_m : option Z; mg_nonce : list byte;
  mg_members : list MemberMessage; mg_disks : list DiskMessage; mg_earlier : list CodeMessage; mg_unknown : list byte;
}.

Class MWire (W : Type) := {
  mproto_marshal : Message -> option W;
  mproto_unmarshal : W -> option Message;
  mproto_size : W -> Z;
}.

Class MWireLaws (W : Type) `{MWire W} := {
  mproto_roundtrip m w : mproto_marshal m = Some w -> mproto_unmarshal w = Some m;
  mproto_nonempty m w : mproto_marshal m = Some w -> 1 <= mproto_size w;
}.

Definition wrap8 (z : Z) : Z := z mod 2 ^ 8.

Section Format.
Context {W : Type} `{MWire W}.

Definition member_message (x : Member) : MemberMessage := mkMemberMessage (mID x) (Some (mAddress x)) (Some (mState x)) [].

Definition disk_message (d : Disk) : DiskMessage :=
  mkDiskMessage (dID d) (Some (dVolume d)) (Some (dWeight d)) (if IsZero (dMember d) then [] else dMember d) (Some (dState d))
    (Some (dAssigned d)) (Some (wrap8 (dKind d + 1))) (Some (dMachine d)) (Some (dEmpty d)) [].

Definition code_message (c : Code) : CodeMessage := mkCodeMessage (Some (wrap32 (K c))) (Some (wrap32 (M c))) [].

Definition message (m : Membership) : Message :=
  mkMessage (Some formatVersion) (Some (generation m)) (Some (wrap32 (K (code m)))) (Some (wrap32 (M (code m)))) (nonce m)
    (member_message <$> members m) (disk_message <$> disks m) (code_message <$> earlier m) [].

(** [None] is the error of the generated code. *)
Definition Marshal (m : Membership) : result merror W :=
  match mproto_marshal (message m) with
  | None => Err ErrInvalid
  | Some data => if mproto_size data >? maximumSize then Err ErrInvalid else Ok data
  end.

Definition identityOf (raw : list byte) : option Identity := if zlen raw =? 16 then Some raw else None.

Definition unmarshal_member (m : MemberMessage) : option Member :=
  match identityOf (mm_id m), mm_unknown m, mm_address m, mm_state m with
  | Some id, [], Some address, Some state => Some (mkMember id address (wrap8 state))
  | _, _, _, _ => None
  end.

(** A disk of no member has no owner on the wire. *)
Definition owner_of (raw : list byte) : option Identity := match raw with [] => Some zeroIdentity | _ => identityOf raw end.

Definition unmarshal_disk (m : DiskMessage) : option Disk :=
  match identityOf (dm_id m), owner_of (dm_member m) with
  | Some id, Some owner =>
    match dm_unknown m, dm_volume m, dm_weight m, dm_state m, dm_assigned m with
    | [], Some volume, Some weight, Some state, Some assigned =>
      match dm_kind m, dm_machine m, dm_empty m with
      | Some kind, Some machine, Some empty =>
        if kind =? 0 then None
        else Some (mkDisk id volume weight owner (wrap8 state) assigned (wrap8 (kind - 1)) machine empty)
      | _, _, _ => None
      end
    | _, _, _, _, _ => None
    end
  | _, _ => None
  end.

Definition unmarshal_code (m : CodeMessage) : option Code :=
  match cm_unknown m, cm_k m, cm_m m with [], Some k, Some parity => Some (mkCode k parity) | _, _, _ => None end.

Definition with_nonce (m : Membership) (nonce : list byte) : Membership :=
  mkMembership (generation m) (code m) (earlier m) nonce (members m) (disks m) (list_ m).

Definition Unmarshal (data : W) : result merror Membership :=
  match mproto_unmarshal data with
  | None => Err ErrCorrupt
  | Some g =>
    if negb (default 0 (mg_version g) =? formatVersion) then Err ErrCorrupt
    else if negb (zlen (mg_nonce g) =? nonceSize) then Err ErrCorrupt
    else match mg_unknown g, mg_generation g, mg_k g, mg_m g with
    | [], Some generation, Some k, Some parity =>
      match mapM unmarshal_member (mg_members g), mapM unmarshal_disk (mg_disks g), mapM unmarshal_code (mg_earlier g) with
      | Some members, Some disks, Some earlier =>
        match New generation (mkCode k parity) members disks earlier with
        | Err _ => Err ErrCorrupt
        | Ok m => Ok (with_nonce m (mg_nonce g))
        end
      | _, _, _ => Err ErrCorrupt
      end
    | _, _, _, _ => Err ErrCorrupt
    end
  end.

End Format.

(** ** Reading back *)

Definition code_fits (c : Code) : Prop := 0 <= K c < 2 ^ 32 /\ 0 <= M c < 2 ^ 32.

(** Identities are of sixteen bytes, and what the wire truncates fits. *)
Record fits (m : Membership) : Prop := {
  f_members : Forall (fun x => zlen (mID x) = 16) (members m);
  f_disks : Forall (fun d => zlen (dID d) = 16 /\ zlen (dMember d) = 16 /\ 0 <= dKind d) (disks m);
  f_code : code_fits (code m);
  f_earlier : Forall code_fits (earlier m);
}.

Lemma member_roundtrip x : member_ok x -> zlen (mID x) = 16 -> unmarshal_member (member_message x) = Some x.
Proof.
  intros (_ & _ & Hs) Hl. unfold unmarshal_member, identityOf, Joining, Draining in *. simpl. rewrite Hl. simpl. destruct x; simpl in *.
  unfold wrap8. by rewrite Z.mod_small by lia.
Qed.

Lemma code_roundtrip c : code_fits c -> unmarshal_code (code_message c) = Some c.
Proof. intros [Hk Hm]. unfold unmarshal_code. simpl. unfold wrap32. rewrite !Z.mod_small by lia. by destruct c. Qed.

Lemma disk_roundtrip m d : checkDisk m d = None -> zlen (dID d) = 16 -> zlen (dMember d) = 16 -> 0 <= dKind d ->
  unmarshal_disk (disk_message d) = Some d.
Proof.
  intros Hc Hl Hl' Hk. assert (dKind d <= Journal /\ Attaching <= dState d <= Deleting) as [Hk' Hs].
  { revert Hc. unfold checkDisk. destruct (_ || _); [done|]. destruct (Z.gtb_spec (dKind d) Journal); [done|]. destruct (_ && _); [done|].
    destruct (Z.ltb_spec (dState d) Attaching); [done|]. destruct (Z.gtb_spec (dState d) Deleting); [done|]. lia. }
  assert (owner_of (if IsZero (dMember d) then [] else dMember d) = Some (dMember d)) as Ho.
  { unfold IsZero. case_bool_decide as E; [by rewrite E|]. unfold owner_of, identityOf. rewrite Hl'.
    destruct (dMember d) as [|b rest] eqn:Em; [|done]. unfold zlen in Hl'. simpl in Hl'. lia. }
  unfold Attaching, Deleting, Journal in *. unfold unmarshal_disk, disk_message.
  cbn [dm_id dm_member dm_unknown dm_volume dm_weight dm_state dm_assigned dm_kind dm_machine dm_empty].
  rewrite Ho. unfold identityOf. rewrite Hl. change (16 =? 16) with true. cbv iota.
  unfold wrap8. rewrite (Z.mod_small (dKind d + 1)) by lia. destruct (Z.eqb_spec (dKind d + 1) 0); [lia|].
  rewrite !Z.mod_small by lia. destruct d; simpl. do 2 f_equal. lia.
Qed.

(** Building a valid membership again gives the same one. *)
Lemma New_again m : valid m -> New (generation m) (code m) (members m) (disks m) (earlier m) = Ok (with_nonce m []).
Proof.
  intros Hv. unfold New. rewrite (v_code m Hv). unfold sorted. rewrite (sort_by_noop _ _ (v_members_ordered m Hv)), (sort_by_noop _ _ (v_disks_ordered m Hv)).
  set (m0 := mkMembership _ _ _ _ _ _ _). simpl.
  rewrite (proj2 (check_members_iff None (members m))) by (rewrite neighbours_distinct by apply Hv; split; apply Hv).
  rewrite (proj2 (check_disks_iff m0 None (disks m))) by (rewrite neighbours_distinct by apply Hv; split; apply Hv).
  by rewrite (caches_of_ext m0 m), (v_list m Hv).
Qed.

(** What [Marshal] writes, [Unmarshal] reads. *)
Lemma Unmarshal_Marshal {W} `{MWireLaws W} m data : valid m -> fits m -> zlen (nonce m) = nonceSize -> Marshal m = Ok data ->
  Unmarshal data = Ok m.
Proof.
  intros Hv [Hm Hd Hc He] Hn. unfold Marshal. destruct (mproto_marshal (message m)) as [w|] eqn:Em; [|done].
  destruct (_ >? _); [done|]. intros [= <-]. unfold Unmarshal. rewrite (mproto_roundtrip _ _ Em).
  cbn [message mg_version mg_nonce mg_unknown mg_generation mg_k mg_m mg_members mg_disks mg_earlier default]. rewrite Hn.
  change (negb (default 0 (Some formatVersion) =? formatVersion)) with false. change (negb (nonceSize =? nonceSize)) with false. cbv iota.
  rewrite (mapM_fmap_Forall_Some _ _ (members m)), (mapM_fmap_Forall_Some _ _ (disks m)), (mapM_fmap_Forall_Some _ _ (earlier m)).
  - replace (mkCode _ _) with (code m); [rewrite New_again by done; by destruct m|].
    destruct Hc as [Hk Hm']. unfold wrap32. rewrite !Z.mod_small by done. by destruct (code m).
  - eapply Forall_impl; [exact He|]. apply code_roundtrip.
  - apply Forall_forall. intros d Hin. eapply Forall_forall in Hd as (? & ? & ?); [|exact Hin]. apply (disk_roundtrip m); try done.
    eapply Forall_forall in Hin; [exact Hin|apply Hv].
  - apply Forall_forall. intros x Hin. apply member_roundtrip; eapply Forall_forall in Hin; try exact Hin; [apply Hv|done].
Qed.

(** C22: a membership that is written is read back whole: its generation, codes,
    members, disks, ranking and its writer's nonce. *)
Theorem membership_roundtrip {W} `{MWireLaws W} m data : valid m -> fits m -> zlen (nonce m) = nonceSize -> Marshal m = Ok data ->
  Unmarshal data = Ok m.
Proof. apply Unmarshal_Marshal. Qed.

Lemma valid_with_nonce m n : valid m -> valid (with_nonce m n).
Proof. intros [? ? ? ? ? ? ? ? ?]. by split. Qed.

Lemma Unmarshal_valid {W} `{MWire W} data m : Unmarshal data = Ok m -> valid m /\ zlen (nonce m) = nonceSize.
Proof.
  unfold Unmarshal. destruct (mproto_unmarshal data) as [g|]; [|done]. destruct (negb _); [done|].
  destruct (Z.eqb_spec (zlen (mg_nonce g)) nonceSize); simpl; [|done].
  destruct (mg_unknown g), (mg_generation g), (mg_k g), (mg_m g); try done.
  destruct (mapM unmarshal_member (mg_members g)), (mapM unmarshal_disk (mg_disks g)), (mapM unmarshal_code (mg_earlier g)); try done.
  destruct (New _ _ _ _ _) as [m0|] eqn:En; [|done]. intros [= <-]. apply New_valid in En as (Hv & _). split; [by apply valid_with_nonce|done].
Qed.

(** The messages themselves as the wire. *)
#[export] Instance message_wire : MWire Message :=
  {| mproto_marshal := Some; mproto_unmarshal := Some; mproto_size := fun _ => 1 |}.

#[export] Instance message_wire_laws : MWireLaws Message.
Proof. split; [by intros m w [= <-]|by intros m w _]. Qed.

Lemma membership_roundtrip_witness :
  exists data, Marshal (with_nonce Empty (zeros 16)) = Ok data /\ Unmarshal (W := Message) data = Ok (with_nonce Empty (zeros 16)).
Proof.
  eexists. split; [reflexivity|]. apply (membership_roundtrip (W := Message)).
  - apply valid_with_nonce, valid_Empty.
  - split; [constructor|constructor|vm_compute; split; split; discriminate || reflexivity|constructor].
  - reflexivity.
  - reflexivity.
Defined.

End MembershipFormat.
