(* ===== verification/MembershipStore.v ===== *)
(** * Changing the membership by compare-and-set

    [membership/store.go] and [membership/view.go].  [Update] is a program over the
    calls it makes of the object store, in the style of the control client; any
    number of such programs run at once over one stored object, and their writes
    may be lost, answered wrongly or applied late.  Every stored generation follows
    the one before it by [Step], and a change an update reports as written is one of
    them. *)

From S2P Require Import Prelude Bytes Order ControlRecord ControlClient Rank Membership MembershipSteps MembershipFormat.

Module MembershipStore.
Import Rank Membership MembershipSteps MembershipFormat.

(** [EJoin] is [errors.Join]. *)
Inductive uerror := EMember (e : merror) | EStore (e : error) | EJoin (a b : uerror).

Fixpoint is_precondition (e : uerror) : bool :=
  match e with
  | EMember _ => false
  | EStore e => Is e ControlRecord.ErrPrecondition
  | EJoin a b => is_precondition a || is_precondition b
  end.

(** What [Update] returns: the membership it wrote, the one it found with nothing
    to do, or an error. *)
Inductive updated := Wrote (m : Membership) | Unchanged (m : Membership) | Failed (e : uerror).

Definition Change : Type := Membership -> result merror Membership.

Section Store.
Context {W : Type} `{MWire W}.

(** ** The store's operations *)

(** [platform.ReadObject], for a store whose reply names the key it was asked for
    and carries the length of its body. *)
Definition ReadObject : prog W (result uerror (W * ETag)) :=
  Get (fun reply =>
    match reply with
    | Err e => Ret (Err (EStore e))
    | Ok (data, etag) =>
      if (String.eqb etag EmptyString) || (mproto_size data <? 1) || (mproto_size data >? maximumSize)
      then Ret (Err (EMember ErrCorrupt)) else Ret (Ok (data, etag))
    end).

Definition not_found (e : uerror) : bool := match e with EStore e => Is e ControlRecord.ErrNotFound | _ => false end.

Definition read : prog W (result uerror (Membership * option ETag)) :=
  do r <- ReadObject;
  match r with
  | Err e => if not_found e then Ret (Ok (Empty, None)) else Ret (Err e)
  | Ok (data, etag) =>
    match Unmarshal data with
    | Err e => Ret (Err (EMember e))
    | Ok m => Ret (Ok (m, Some etag))
    end
  end.

Definition Read : prog W (result uerror Membership) :=
  do r <- read;
  match r with Err e => Ret (Err e) | Ok (m, _) => Ret (Ok m) end.

Definition write (next : Membership) (etag : option ETag) : prog W (option uerror) :=
  match Marshal next with
  | Err e => Ret (Some (EMember e))
  | Ok data =>
    Put data (match etag with Some etag => IfMatch etag | None => IfNoneMatch end)
      (fun r => Ret (match r with Ok _ => None | Err e => Some (EStore e) end))
  end.

Fixpoint Update (fuel : nat) (change : Change) : prog W updated :=
  match fuel with
  | O => Spin
  | S fuel =>
    do r <- read;
    match r with
    | Err e => Ret (Failed e)
    | Ok (current, etag) =>
      match change current with
      | Err ErrUnchanged => Ret (Unchanged current)
      | Err e => Ret (Failed (EMember e))
      | Ok next =>
        match Step current next with
        | Some e => Ret (Failed (EMember e))
        | None =>
          Fill (fun nonce_ =>
            let next := with_nonce next nonce_ in
            do w <- write next etag;
            match w with
            | None => Ret (Wrote next)
            | Some e =>
              if is_precondition e then Update fuel change
              else
                do r <- read;
                match r with
                | Err readErr => Ret (Failed (EJoin e readErr))
                | Ok (observed, _) =>
                  if bool_decide (nonce observed = nonce next) then Ret (Wrote observed)
                  else if generation observed =? generation current then Ret (Failed e)
                  else Update fuel change
                end
            end)
        end
      end
    end
  end.

(** ** Views *)

(** [v_current] and the membership of [ViewStatus] are one: both are set together
    under the view's lock. *)
Record View := mkView { v_membership : Membership; v_reads : Z; v_failures : Z; v_error : bool }.

(** [View.read], for a view with a store and the lock on its reads held. *)
Definition view_read (v : View) (generation_ : Z) (always : bool) : prog W (View * result uerror Membership) :=
  if negb always && (generation (v_membership v) >=? generation_) then Ret (v, Ok (v_membership v))
  else
    do r <- Read;
    match r with
    | Err e => Ret (mkView (v_membership v) (v_reads v) (wrap64 (v_failures v + 1)) true, Err e)
    | Ok read =>
      let m := if generation read >? generation (v_membership v) then read else v_membership v in
      Ret (mkView m (wrap64 (v_reads v + 1)) (v_failures v) false, Ok m)
    end.

Definition Refresh (v : View) := view_read v 0 true.
Definition Catch (v : View) (generation_ : Z) := view_read v generation_ false.

(** ** What is known of the object

    The generations stored so far, oldest first, from the empty one; the
    validators of those after it; and the membership each drawn nonce was drawn
    for. *)
Record ghost := mkGhost { g_hist : list Membership; g_tags : list ETag; g_claims : list (list byte * Membership) }.

Record ghost_ok (g : ghost) : Prop := {
  g_history : history (g_hist g);
  g_fits : Forall fits (g_hist g);
  g_lengths : length (g_hist g) = S (length (g_tags g));
  g_fresh : NoDup (g_tags g);
  g_claimed i m : g_hist g !! S i = Some m -> (nonce m, m) ∈ g_claims g;
  g_functional n m m' : (n, m) ∈ g_claims g -> (n, m') ∈ g_claims g -> m = m';
}.

Definition extends (g g' : ghost) : Prop :=
  g_hist g `prefix_of` g_hist g' /\ g_tags g `prefix_of` g_tags g' /\ g_claims g ⊆ g_claims g'.

#[export] Instance extends_preorder : PreOrder extends.
Proof.
  split; [by intros g; split_and!|]. intros a b c (? & ? & ?) (? & ? & ?). split_and!; by etrans.
Qed.

(** What a read may be answered: the object as it is, that there is none when
    none was stored, or a failure. *)
Definition get_reply (g : ghost) (reply : result error (W * ETag)) : Prop :=
  match reply with
  | Ok (data, etag) => exists m, last (g_hist g) = Some m /\ last (g_tags g) = Some etag /\ Unmarshal data = Ok m
  | Err e => Is e ControlRecord.ErrNotFound = true -> g_tags g = []
  end.

(** A write that may land: the next generation after a stored one, conditional on
    that one. *)
Definition put_ok (g : ghost) (data : W) (cond : PutConditions) : Prop :=
  exists i cur nxt, g_hist g !! i = Some cur /\ valid nxt /\ fits nxt /\ steps cur nxt /\ Unmarshal data = Ok nxt /\
    (nonce nxt, nxt) ∈ g_claims g /\
    match cond with IfNoneMatch => i = 0%nat | IfMatch etag => exists j, i = S j /\ g_tags g !! j = Some etag end.

Definition landed (g : ghost) (data : W) : Prop := exists m, Unmarshal data = Ok m /\ exists i, g_hist g !! S i = Some m.

(** What an update reports is so: the membership it wrote is a stored generation,
    the change of the one before it under a nonce; the one it found unchanged is a
    stored generation too. *)
Definition outcome (change : Change) (hist : list Membership) (r : updated) : Prop :=
  match r with
  | Wrote m => exists i a m0 n, hist !! i = Some a /\ hist !! S i = Some m /\ change a = Ok m0 /\ m = with_nonce m0 n
  | Unchanged m => exists i, hist !! i = Some m /\ change m = Err ErrUnchanged
  | Failed _ => True
  end.

Definition result_ok (change : Change) (g : ghost) (r : updated) : Prop := outcome change (g_hist g) r.

(** A change that builds a next generation builds a valid one. *)
Definition proper (change : Change) : Prop := forall m m', valid m -> fits m -> change m = Ok m' -> valid m' /\ fits m'.

(** Whatever happens to the object meanwhile, the program's writes may land and its
    result is right. *)
Fixpoint sound (post : ghost -> updated -> Prop) (p : prog W updated) (g : ghost) : Prop :=
  match p with
  | Ret r => post g r
  | Get k => forall g' reply, extends g g' -> ghost_ok g' -> get_reply g' reply -> sound post (k reply) g'
  | Put data cond k => put_ok g data cond /\
    forall g' reply, extends g g' -> ghost_ok g' -> (is_Ok reply = true -> landed g' data) -> sound post (k reply) g'
  | Fill k => exists claim, forall g' n, extends g g' -> ghost_ok g' -> zlen n = nonceSize -> n ∉ (g_claims g').*1 ->
    sound post (k n) (mkGhost (g_hist g') (g_tags g') ((n, with_nonce claim n) :: g_claims g'))
  | Del _ _ | Now _ | Lock _ | IsClosed _ => False
  | Spin => True
  end.

Lemma put_ok_mono g g' data cond : extends g g' -> put_ok g data cond -> put_ok g' data cond.
Proof.
  intros (Hh & Ht & Hc) (i & cur & nxt & Hi & Hv & Hf & Hs & Hu & Hcl & Hcond). exists i, cur, nxt. split_and!; try done.
  - by eapply prefix_lookup_Some.
  - by apply Hc.
  - destruct cond as [|etag]; [done|]. destruct Hcond as (j & -> & Hj). exists j. split; [done|]. by eapply prefix_lookup_Some.
Qed.

Lemma sound_mono (post : ghost -> updated -> Prop) p g g' :
  (forall g g' r, extends g g' -> post g r -> post g' r) -> extends g g' -> sound post p g -> sound post p g'.
Proof.
  intros Hpost He. destruct p; simpl; try done.
  - by apply Hpost.
  - intros Hs g1 reply H1. apply Hs. by etrans.
  - intros [Hp Hs]. split; [by eapply put_ok_mono|]. intros g1 reply H1. apply Hs. by etrans.
  - intros [claim Hs]. exists claim. intros g1 n H1. apply Hs. by etrans.
Qed.

Lemma result_ok_mono change g g' r : extends g g' -> result_ok change g r -> result_ok change g' r.
Proof.
  intros (Hh & _). destruct r as [m|m|e]; simpl; [|intros (i & Hi & Hc); exists i|done].
  - intros (i & a & m0 & n & Hi & Hm & Hr). exists i, a, m0, n. split_and!; try apply Hr; by eapply prefix_lookup_Some.
  - split; [by eapply prefix_lookup_Some|done].
Qed.

(** The validator of the stored generation [i], none for the empty one. *)
Definition etag_of (g : ghost) (i : nat) (etag : option ETag) : Prop :=
  match etag with None => i = 0%nat | Some etag => exists j, i = S j /\ g_tags g !! j = Some etag end.

(** A read goes on with the newest generation and its validator, or an error. *)
Lemma sound_read post f g :
  (forall g' e, extends g g' -> ghost_ok g' -> sound post (f (Err e)) g') ->
  (forall g' i m etag, extends g g' -> ghost_ok g' -> g_hist g' !! i = Some m -> length (g_hist g') = S i -> etag_of g' i etag ->
     sound post (f (Ok (m, etag))) g') ->
  sound post (bind read f) g.
Proof.
  intros Herr Hok. simpl. intros g' reply He Hg Hr. destruct reply as [[data etag]|e].
  - destruct (_ || _); [by apply Herr|]. simpl. destruct Hr as (m & Hl & Ht & ->). simpl.
    rewrite last_lookup in Hl. rewrite last_lookup in Ht. pose proof (g_lengths g' Hg) as Hlen.
    destruct (g_tags g') as [|t ts] eqn:Et; [done|]. rewrite Hlen in Hl. simpl in *.
    apply (Hok g' (S (length ts)) m); try done. exists (length ts). by rewrite Et.
  - simpl. destruct (Is e ErrNotFound) eqn:En; [|by apply Herr]. specialize (Hr En). simpl.
    apply (Hok g' 0%nat); try done; [apply Hg|]. pose proof (g_lengths g' Hg). by rewrite Hr in *.
Qed.

(** The generation after [i] that a membership conditional on [i] became. *)
Lemma landed_after g i cur nxt k : ghost_ok g -> g_hist g !! i = Some cur -> steps cur nxt -> g_hist g !! k = Some nxt -> k = S i.
Proof.
  intros Hg Hi Hs Hk. destruct (history_valid _ _ _ (g_history g Hg) Hi) as [_ Ei], (history_valid _ _ _ (g_history g Hg) Hk) as [_ Ek].
  pose proof (st_generation _ _ Hs) as E. rewrite Ei, Ek in E.
  pose proof (h_length _ (g_history g Hg)). apply lookup_lt_Some in Hi, Hk. unfold zlen in *.
  destruct (decide (Z.of_nat i + 1 < 2 ^ 64)) as [?|?]; [rewrite wrap64_small in E by (unfold u64; lia); lia|].
  assert (Z.of_nat i + 1 = 2 ^ 64) as Ew by lia. lia.
Qed.

Context `{!MWireLaws W}.

Lemma steps_with_nonce cur nxt n : steps cur nxt -> steps cur (with_nonce nxt n).
Proof. intros [H1 H2 H3 H4]. by split. Qed.

Lemma fits_with_nonce m n : fits m -> fits (with_nonce m n).
Proof. intros [? ? ? ?]. by split. Qed.

(** A membership drawn for the step from generation [i], once stored, is the result
    of the change. *)
Lemma wrote_ok change g i cur nxt n : ghost_ok g -> g_hist g !! i = Some cur -> steps cur (with_nonce nxt n) -> change cur = Ok nxt ->
  (exists k, g_hist g !! k = Some (with_nonce nxt n)) -> result_ok change g (Wrote (with_nonce nxt n)).
Proof.
  intros Hg Hi Hs Hc [k Hk]. pose proof (landed_after g i cur _ k Hg Hi Hs Hk) as ->. exists i, cur, nxt, n. by split_and!.
Qed.

(** The nonce tells a stored membership. *)
Lemma nonce_tells g k m n m' : ghost_ok g -> g_hist g !! k = Some m -> nonce m = n -> zlen n = nonceSize -> (n, m') ∈ g_claims g -> m = m'.
Proof.
  intros Hg Hk En Hn Hc. destruct k as [|k].
  - rewrite (h_first _ (g_history g Hg)) in Hk. injection Hk as <-. subst n. done.
  - eapply (g_functional g Hg n); [|done]. rewrite <- En. by eapply g_claimed.
Qed.

(** The continuation of an update whose write failed. *)
Lemma sound_retry change fuel g i cur nxt n e : (forall g, sound (result_ok change) (Update fuel change) g) ->
  g_hist g !! i = Some cur -> steps cur (with_nonce nxt n) -> change cur = Ok nxt -> zlen n = nonceSize -> (n, with_nonce nxt n) ∈ g_claims g ->
  sound (result_ok change)
    (if is_precondition e then Update fuel change
     else do r <- read;
          match r with
          | Err readErr => Ret (Failed (EJoin e readErr))
          | Ok (observed, _) =>
            if bool_decide (nonce observed = nonce (with_nonce nxt n)) then Ret (Wrote observed)
            else if generation observed =? generation cur then Ret (Failed e)
            else Update fuel change
          end) g.
Proof.
  intros IH Hi Hs Hc Hn Hcl. destruct (is_precondition e); [apply IH|]. apply sound_read; [done|].
  intros g' k observed etag He Hg Hk _ _. cbv beta iota. case_bool_decide as En; [|by destruct (_ =? _)].
  assert (observed = with_nonce nxt n) as -> by (eapply (nonce_tells g' k); try done; by apply He).
  simpl. apply (wrote_ok change g' i cur nxt n); try done; [by eapply prefix_lookup_Some; [|apply He]|by exists k].
Qed.

Lemma sound_Update fuel change g : proper change -> sound (result_ok change) (Update fuel change) g.
Proof.
  intros Hp. revert g. induction fuel as [|fuel IH]; intros g; [done|]. cbn [Update].
  apply sound_read; [done|]. intros g1 i cur etag H1 Hg1 Hi Hlen Het. cbv beta iota.
  destruct (change cur) as [nxt|[]] eqn:Ec; [|done|simpl; by exists i|done].
  destruct (Step cur nxt) eqn:Es; [done|]. apply Step_iff in Es.
  destruct (history_valid _ _ _ (g_history g1 Hg1) Hi) as [Hvc _].
  destruct (Hp cur nxt Hvc) as [Hv Hf]; [by eapply Forall_lookup_1, Hi; apply Hg1|done|].
  cbn [sound]. exists nxt. intros g2 n H2 Hg2 Hn Hfresh. apply (steps_with_nonce _ _ n) in Es.
  set (g3 := mkGhost _ _ _). assert (g_hist g3 !! i = Some cur) as Hi3 by (by eapply prefix_lookup_Some; [|apply H2]).
  assert ((n, with_nonce nxt n) ∈ g_claims g3) as Hcl by apply list_elem_of_here.
  unfold write. destruct (Marshal (with_nonce nxt n)) as [data|e] eqn:Em; cbn [bind]; [|by eapply sound_retry].
  pose proof (Unmarshal_Marshal _ _ (valid_with_nonce _ n Hv) (fits_with_nonce _ n Hf) Hn Em) as Hu.
  cbn [sound]. split.
  - exists i, cur, (with_nonce nxt n). split_and!; try done; [by apply valid_with_nonce|by apply fits_with_nonce|].
    destruct etag as [etag|]; [|done]. destruct Het as (j & -> & Hj). exists j. split; [done|]. simpl. by eapply prefix_lookup_Some; [|apply H2].
  - intros g4 reply H4 Hg4 Hl. destruct reply as [tag|e]; cbv beta iota.
    + destruct (Hl eq_refl) as (m & Hm & k & Hk). rewrite Hu in Hm. injection Hm as <-. cbn [sound].
      apply (wrote_ok change g4 i cur nxt n); try done; [by eapply prefix_lookup_Some; [|apply H4]|by exists (S k)].
    + eapply sound_retry; try done; [by eapply prefix_lookup_Some; [|apply H4]|by apply H4].
Qed.

(** ** Any number of updates over one object *)

(** The stored object and its validator, the generations stored so far and the
    validators of those after the first, the nonces drawn, the writes that failed
    and may yet land, and the updates under way, each with its change. *)
Record world := mkWorld {
  object : option (W * ETag);
  log : list Membership;
  tags : list ETag;
  drawn : list (list byte);
  pending : list (W * PutConditions);
  threads : list (Change * prog W updated);
}.

Definition holds (w : world) (cond : PutConditions) : Prop :=
  match cond with IfNoneMatch => object w = None | IfMatch etag => exists data, object w = Some (data, etag) end.

Definition decoded (data : W) : Membership := match Unmarshal data with Ok m => m | Err _ => Empty end.

(** The object replaced: a validator never used before. *)
Definition stored (w : world) (data : W) (tag : ETag) : world :=
  mkWorld (Some (data, tag)) (log w ++ [decoded data]) (tags w ++ [tag]) (drawn w) (pending w) (threads w).

Definition storable (w : world) (cond : PutConditions) (tag : ETag) : Prop := holds w cond /\ tag ∉ tags w /\ zlen (log w) < 2 ^ 64 - 1.

Definition on_thread (w : world) (i : nat) (t : Change * prog W updated) : world :=
  mkWorld (object w) (log w) (tags w) (drawn w) (pending w) (<[i := t]> (threads w)).

Definition answer (w : world) (reply : result error (W * ETag)) : Prop :=
  match reply with Ok (data, etag) => object w = Some (data, etag) | Err e => Is e ControlRecord.ErrNotFound = true -> object w = None end.

(** A write is applied when its condition holds, and answered anything but another
    success; or it is not applied, answered an error, and may be applied later. *)
Inductive wstep (w : world) : world -> Prop :=
| w_start change fuel : proper change ->
    wstep w (mkWorld (object w) (log w) (tags w) (drawn w) (pending w) (threads w ++ [(change, Update fuel change)]))
| w_get i change k reply : threads w !! i = Some (change, Get k) -> answer w reply -> wstep w (on_thread w i (change, k reply))
| w_fill i change k n : threads w !! i = Some (change, Fill k) -> zlen n = nonceSize -> n ∉ drawn w ->
    wstep w (on_thread (mkWorld (object w) (log w) (tags w) (n :: drawn w) (pending w) (threads w)) i (change, k n))
| w_put i change data cond k tag reply : threads w !! i = Some (change, Put data cond k) -> storable w cond tag ->
    (forall t, reply = Ok t -> t = tag) -> wstep w (on_thread (stored w data tag) i (change, k reply))
| w_fail i change data cond k e (late : bool) : threads w !! i = Some (change, Put data cond k) ->
    wstep w (on_thread (mkWorld (object w) (log w) (tags w) (drawn w)
      (if late then (data, cond) :: pending w else pending w) (threads w)) i (change, k (Err e)))
| w_late data cond tag : (data, cond) ∈ pending w -> storable w cond tag -> wstep w (stored w data tag).

Definition initial : world := mkWorld None [Empty] [] [] [] [].

Definition reachable (w : world) : Prop := rtc wstep initial w.

Definition ghost_of (w : world) (claims : list (list byte * Membership)) : ghost := mkGhost (log w) (tags w) claims.

Definition object_ok (w : world) : Prop :=
  match object w with
  | None => tags w = []
  | Some (data, etag) => last (tags w) = Some etag /\ exists m, last (log w) = Some m /\ Unmarshal data = Ok m
  end.

Definition thread_ok (g : ghost) (t : Change * prog W updated) : Prop := sound (result_ok t.1) t.2 g.

Record inv (w : world) (claims : list (list byte * Membership)) : Prop := {
  i_drawn : claims.*1 = drawn w;
  i_ghost : ghost_ok (ghost_of w claims);
  i_object : object_ok w;
  i_pending : Forall (fun p => put_ok (ghost_of w claims) p.1 p.2) (pending w);
  i_threads : Forall (thread_ok (ghost_of w claims)) (threads w);
}.

Lemma thread_ok_mono g g' t : extends g g' -> thread_ok g t -> thread_ok g' t.
Proof. intros He. apply sound_mono; [|done]. intros ? ? ?. apply result_ok_mono. Qed.

Lemma holds_newest w claims i cur cond : inv w claims -> holds w cond -> log w !! i = Some cur ->
  match cond with IfNoneMatch => i = 0%nat | IfMatch etag => exists j, i = S j /\ tags w !! j = Some etag end ->
  length (log w) = S i.
Proof.
  intros [_ Hg Ho _ _] Hc Hi Hcond. pose proof (g_lengths _ Hg) as Hl. simpl in Hl. unfold object_ok in Ho. destruct cond as [|etag].
  - unfold holds in Hc. rewrite Hc in Ho. rewrite Ho in Hl. by subst i.
  - destruct Hc as [data Hc]. rewrite Hc in Ho. destruct Ho as [Ht _], Hcond as (j & -> & Hj). rewrite Hl. f_equal.
    rewrite last_lookup in Ht. assert (j = pred (length (tags w))) as -> by (eapply NoDup_lookup; [apply (g_fresh _ Hg)|done|done]).
    apply lookup_lt_Some in Hj. lia.
Qed.

(** A write that may land, once it is applied. *)
Lemma inv_stored w claims data cond tag : inv w claims -> put_ok (ghost_of w claims) data cond -> storable w cond tag ->
  inv (stored w data tag) claims /\ extends (ghost_of w claims) (ghost_of (stored w data tag) claims) /\
  landed (ghost_of (stored w data tag) claims) data.
Proof.
  intros Hinv (i & cur & nxt & Hi & Hv & Hf & Hs & Hu & Hcl & Hcond) (Hh & Htag & Hlen).
  pose proof (holds_newest w claims i cur cond Hinv Hh Hi Hcond) as Hnew. pose proof Hinv as [Hd Hg Ho Hp Ht]. simpl in Hi.
  assert (decoded data = nxt) as Ed by (unfold decoded; by rewrite Hu).
  assert (extends (ghost_of w claims) (ghost_of (stored w data tag) claims)) as He by (split_and!; [by apply prefix_app_r..|done]).
  assert ((log w ++ [nxt]) !! S i = Some nxt) as Hlast by (rewrite lookup_app_r by lia; by rewrite <- Hnew, Nat.sub_diag).
  split; [|split; [done|]].
  - split; try done.
    + split; simpl; rewrite ?Ed.
      * destruct (g_history _ Hg) as [H0 Hst Hl]. simpl in *. split.
        -- by apply lookup_app_l_Some.
        -- intros k a b Ha Hb. destruct (decide (S k < length (log w))%nat) as [?|?].
           { rewrite lookup_app_l in Ha, Hb by lia. by eapply Hst. }
           assert (k = i) as -> by (apply lookup_lt_Some in Hb; rewrite length_app in Hb; simpl in Hb; lia).
           rewrite lookup_app_l in Ha by lia. rewrite Hlast in Hb. injection Hb as <-. assert (a = cur) as -> by congruence. done.
        -- unfold zlen in *. rewrite length_app. simpl. lia.
      * apply Forall_app. split; [apply Hg|by constructor].
      * rewrite !length_app. simpl. pose proof (g_lengths _ Hg) as E. simpl in E. lia.
      * apply NoDup_app. split; [apply Hg|]. split; [|apply NoDup_singleton]. by intros x Hx ->%list_elem_of_singleton.
      * intros k m Hm. destruct (decide (S k < length (log w))%nat) as [?|?]; [rewrite lookup_app_l in Hm by lia; by eapply (g_claimed _ Hg)|].
        assert (k = i) as -> by (apply lookup_lt_Some in Hm; rewrite length_app in Hm; simpl in Hm; lia). rewrite Hlast in Hm. by injection Hm as <-.
      * apply (g_functional _ Hg).
    + unfold object_ok. simpl. rewrite Ed. split; [apply last_snoc|]. exists nxt. split; [apply last_snoc|done].
    + eapply Forall_impl; [exact Hp|]. intros p. by apply put_ok_mono.
    + eapply Forall_impl; [exact Ht|]. intros t. by apply thread_ok_mono.
  - exists nxt. split; [done|]. exists i. simpl. by rewrite Ed.
Qed.

Lemma inv_on_thread w claims i t : inv w claims -> thread_ok (ghost_of w claims) t -> inv (on_thread w i t) claims.
Proof. intros [Hd Hg Ho Hp Ht] Hok. split; try done. simpl. by apply Forall_insert. Qed.

Lemma inv_thread w claims i change p : inv w claims -> threads w !! i = Some (change, p) -> sound (result_ok change) p (ghost_of w claims).
Proof. intros Hi Ht. eapply Forall_lookup_1 in Ht; [exact Ht|apply Hi]. Qed.

Lemma inv_wstep w w' claims : inv w claims -> wstep w w' -> exists claims', inv w' claims'.
Proof.
  intros Hinv Hs. pose proof Hinv as [Hd Hg Ho Hp Ht].
  destruct Hs as [change fuel Hpr|i change k reply Hi Ha|i change k n Hi Hn Hfr|i change data cond k tag reply Hi Hst Hr|i change data cond k e late Hi|data cond tag Hin Hst].
  - exists claims. split; try done. simpl. apply Forall_app. split; [done|]. constructor; [|by apply Forall_nil]. by apply sound_Update.
  - exists claims. apply inv_on_thread; [done|]. apply (inv_thread w claims) in Hi; [|done]. apply Hi; [done|done|].
    unfold answer, object_ok in *. destruct reply as [[data etag]|e]; simpl.
    + rewrite Ha in Ho. destruct Ho as (? & m & ? & ?). by exists m.
    + intros En. specialize (Ha En). by rewrite Ha in Ho.
  - apply (inv_thread w claims) in Hi as Hsound; [|done]. destruct Hsound as [claim Hsound].
    set (claims' := (n, with_nonce claim n) :: claims).
    assert (extends (ghost_of w claims) (ghost_of w claims')) as He by (split_and!; [done|done|]; intros x Hx; by constructor).
    assert (inv (mkWorld (object w) (log w) (tags w) (n :: drawn w) (pending w) (threads w)) claims') as Hinv'.
    { split; try done.
      - unfold claims'. rewrite fmap_cons, Hd. reflexivity.
      - destruct Hg as [? ? ? ? Hcl Hfun]. split; try done; simpl in *.
        + intros j m Hm. constructor. by eapply Hcl.
        + intros x m m'. unfold claims'. rewrite !elem_of_cons. intros [[= -> ->]|Hm] [[= ->]|Hm']; try done; [| |by eapply Hfun].
          * destruct Hfr. rewrite <- Hd. by apply (list_elem_of_fmap_2 fst _ (n, m')).
          * subst. destruct Hfr. rewrite <- Hd. by apply (list_elem_of_fmap_2 fst _ (n, m)).
      - eapply Forall_impl; [exact Hp|]. intros p. by apply put_ok_mono.
      - eapply Forall_impl; [exact Ht|]. intros t. by apply thread_ok_mono. }
    exists claims'. apply inv_on_thread; [done|]. apply (Hsound (ghost_of w claims)); [done|done|done|]. simpl. by rewrite Hd.
  - apply (inv_thread w claims) in Hi as [Hput Hk]; [|done]. destruct (inv_stored w claims data cond tag Hinv Hput Hst) as (Hinv' & He & Hl).
    exists claims. apply inv_on_thread; [done|]. apply Hk; [done|apply Hinv'|done].
  - apply (inv_thread w claims) in Hi as [Hput Hk]; [|done]. exists claims. apply inv_on_thread.
    + split; try done. simpl. destruct late; [by constructor|done].
    + by apply (Hk (ghost_of w claims)).
  - exists claims. eapply Forall_forall in Hp; [|exact Hin]. by apply (inv_stored w claims data cond tag Hinv Hp Hst).
Qed.

Lemma fits_Empty : fits Empty.
Proof. split; [by apply Forall_nil|by apply Forall_nil|vm_compute; split; split; discriminate || reflexivity|by apply Forall_nil]. Qed.

Lemma world_invariant w : reachable w -> exists claims, inv w claims.
Proof.
  intros Hr. unfold reachable in Hr. apply rtc_ind_r with (P := fun w => exists claims, inv w claims) in Hr; [done| |].
  - exists []. split; try done; try by apply Forall_nil. split; simpl; try done.
    + constructor; [apply fits_Empty|by apply Forall_nil].
    + apply NoDup_nil_2.
    + intros n m m' Hn. by apply not_elem_of_nil in Hn.
  - intros y z _ Hs [claims Hi]. by eapply inv_wstep.
Qed.

(** C15: whatever the interleaving of updates, and whatever the store does with their
    writes, the stored generations are a history: from the empty membership, each is
    valid and follows the one before it by one step, and the object holds the
    newest. *)
Theorem stored_generations_follow w : reachable w ->
  history (log w) /\
  match object w with None => log w = [Empty] | Some (data, _) => exists m, Unmarshal data = Ok m /\ last (log w) = Some m end.
Proof.
  intros [claims [_ Hg Ho _ _]]%world_invariant. split; [apply Hg|]. unfold object_ok in Ho. destruct (object w) as [[data etag]|].
  - destruct Ho as (_ & m & ? & ?). by exists m.
  - pose proof (g_lengths _ Hg) as Hl. simpl in Hl. rewrite Ho in Hl. pose proof (h_first _ (g_history _ Hg)) as Hf. simpl in Hf.
    destruct (log w) as [|x [|]]; simpl in *; try done. by injection Hf as ->.
Qed.

(** C19: what an update reports is so. A membership it reports written is a stored
    generation, and is its change of the generation before it; one it reports
    unchanged is a stored generation its change leaves as it is. This holds of a
    write whose reply was lost and that was read back by its nonce too. *)
Theorem updates_report_what_they_did w i change r : reachable w -> threads w !! i = Some (change, Ret r) -> outcome change (log w) r.
Proof. intros [claims Hi]%world_invariant Ht. exact (inv_thread w claims i change (Ret r) Hi Ht). Qed.

(** ** One update alone *)

(** A program run against a store that answers each call, with the nonce and the
    validator of the one write it makes. *)
Fixpoint run {A} (p : prog W A) (nonce_ : list byte) (tag : ETag) (obj : option (W * ETag)) : option A * option (W * ETag) :=
  match p with
  | Ret r => (Some r, obj)
  | Get k => run (k (match obj with Some o => Ok o | None => Err [ControlRecord.ErrNotFound] end)) nonce_ tag obj
  | Put data cond k =>
    let matches := match cond, obj with
                   | IfNoneMatch, None => true
                   | IfMatch etag, Some (_, current) => String.eqb etag current
                   | _, _ => false
                   end in
    if matches then run (k (Ok tag)) nonce_ tag (Some (data, tag)) else run (k (Err [ControlRecord.ErrPrecondition])) nonce_ tag obj
  | Fill k => run (k nonce_) nonce_ tag obj
  | _ => (None, obj)
  end.

(** The membership an object holds, the empty one for none. *)
Definition holds_membership (obj : option (W * ETag)) (m : Membership) : Prop :=
  match obj with
  | None => m = Empty
  | Some (data, etag) => Unmarshal data = Ok m /\ etag <> EmptyString /\ 1 <= mproto_size data <= maximumSize
  end.

Lemma run_bind {A B} (p : prog W A) (f : A -> prog W B) n tag : forall obj, run (bind p f) n tag obj =
  match run p n tag obj with (Some a, obj) => run (f a) n tag obj | (None, obj) => (None, obj) end.
Proof. induction p; intros obj; simpl; try done. by destruct (match conditions with IfNoneMatch => _ | IfMatch etag => _ end). Qed.

Lemma run_read {B} (f : _ -> prog W B) n tag obj cur : holds_membership obj cur ->
  run (bind read f) n tag obj = run (f (Ok (cur, match obj with Some (_, etag) => Some etag | None => None end))) n tag obj.
Proof.
  intros Hobj. simpl. destruct obj as [[data etag]|]; simpl; [|by rewrite Hobj]. destruct Hobj as (Hu & He & Hs).
  destruct (String.eqb_spec etag EmptyString); [done|]. simpl.
  destruct (Z.ltb_spec (mproto_size data) 1); [lia|]. destruct (Z.gtb_spec (mproto_size data) maximumSize); [lia|]. simpl. by rewrite Hu.
Qed.

(** An update alone is done in one turn. Over a store that answers, it finds the
    membership unchanged, or reports its change's or [Step]'s refusal or that the
    next generation does not fit in an object, and leaves the object as it was; or
    it writes the next generation, under its nonce, and the object holds it. *)
Lemma run_Update fuel change obj cur n tag : holds_membership obj cur -> zlen n = nonceSize -> tag <> EmptyString ->
  match change cur with
  | Err ErrUnchanged => run (Update (S fuel) change) n tag obj = (Some (Unchanged cur), obj)
  | Err e => run (Update (S fuel) change) n tag obj = (Some (Failed (EMember e)), obj)
  | Ok next =>
    match Step cur next with
    | Some e => run (Update (S fuel) change) n tag obj = (Some (Failed (EMember e)), obj)
    | None =>
      match Marshal (with_nonce next n) with
      | Ok data => run (Update (S fuel) change) n tag obj = (Some (Wrote (with_nonce next n)), Some (data, tag)) /\
          (valid next -> fits next -> holds_membership (Some (data, tag)) (with_nonce next n))
      | Err _ => exists r, run (Update (S fuel) change) n tag obj = (Some r, obj)
      end
    end
  end.
Proof.
  intros Hobj Hn Htag.
  cbn [Update]. rewrite (run_read _ n tag obj cur) by done. cbv beta iota. destruct (change cur) as [nxt|[]]; try done. destruct (Step cur nxt); [done|].
  unfold write. cbn [run]. destruct (Marshal (with_nonce nxt n)) as [data|e] eqn:Em; cbn [bind].
  - split.
    + cbn [run]. destruct obj as [[d etag]|]; simpl; [rewrite String.eqb_refl|]; done.
    + intros Hv Hf. unfold holds_membership. split; [apply Unmarshal_Marshal; [by apply valid_with_nonce|by apply fits_with_nonce|done|done]|].
      split; [done|]. unfold Marshal in Em. destruct (mproto_marshal _) as [w|] eqn:Ew; [|done]. apply mproto_nonempty in Ew.
      destruct (Z.gtb_spec (mproto_size w) maximumSize); [done|]. injection Em as <-. lia.
  - cbn [is_precondition]. rewrite (run_read _ n tag obj cur) by done. cbv beta iota. case_bool_decide; [by eexists|]. rewrite Z.eqb_refl. by eexists.
Qed.

End Store.

(** ** The package's changes *)

Definition id16 (i : Identity) : Prop := zlen i = 16.

Definition disk16 (d : Disk) : Prop := id16 (dID d) /\ id16 (dMember d) /\ 0 <= dKind d.

Inductive packaged : Change -> Prop :=
| p_Join x ds : id16 (mID x) -> Forall disk16 ds -> packaged (fun m => Join m x ds)
| p_Add d : disk16 d -> packaged (fun m => Add m d)
| p_Serve d x : packaged (fun m => Serve m d x)
| p_Move x a : packaged (fun m => Move m x a)
| p_Weigh d w : packaged (fun m => Weigh m d w)
| p_Drain x : packaged (fun m => Drain m x)
| p_Release d : packaged (fun m => Release m d)
| p_Let d x : packaged (fun m => Let m d x)
| p_Assign d x : id16 x -> packaged (fun m => Assign m d x)
| p_Reserve d a : packaged (fun m => Reserve m d a)
| p_MarkEmpty d e : packaged (fun m => MarkEmpty m d e)
| p_Delete d : packaged (fun m => Delete m d)
| p_Remove d : packaged (fun m => Remove m d)
| p_Leave x : packaged (fun m => Leave m x)
| p_Recode c e : code_fits c -> Forall code_fits e -> packaged (fun m => Recode m c e).

Lemma next_proper m ms ds m' : fits m -> Forall (fun x => id16 (mID x)) ms -> Forall disk16 ds -> next m ms ds = Ok m' -> valid m' /\ fits m'.
Proof.
  intros Hf Hm Hd Hn. apply New_valid in Hn as (Hv & _ & Ec & Ee & _ & Em & Ed). split; [done|].
  split; rewrite ?Em, ?Ed, ?Ec, ?Ee; try apply Hf; unfold sorted; by rewrite sort_by_perm.
Qed.

Lemma Forall_replace_first {T} (id : T -> Identity) i f (P : T -> Prop) l :
  (forall x, P x -> P (f x)) -> Forall P l -> Forall P (replace_first id i f l).
Proof. intros Hf. induction 1 as [|x l Hx Hl IH]; simpl; [by apply Forall_nil|]. case_bool_decide; constructor; auto. Qed.

Lemma Forall_delete_first {T} (id : T -> Identity) i (P : T -> Prop) l : Forall P l -> Forall P (delete_first id i l).
Proof. induction 1 as [|x l Hx Hl IH]; simpl; [by apply Forall_nil|]. case_bool_decide; [done|by constructor]. Qed.

Lemma Forall_put (P : Disk -> Prop) ds d : P d -> Forall P ds -> Forall P (put ds d).
Proof.
  intros Hd Hds. unfold put. destruct (has _ _ _); [by apply Forall_replace_first|]. apply Forall_app. split; [done|by constructor].
Qed.

Lemma packaged_proper change : packaged change -> proper change.
Proof.
  intros Hp m m' Hv Hf. assert (Forall (fun x => id16 (mID x)) (members m)) as Hm by apply Hf.
  assert (Forall disk16 (disks m)) as Hd by apply Hf.
  assert (forall i d, find_disk m i = Some d -> disk16 d) as Hfd.
  { intros i d [Hin _]%find_disk_iff; [|done]. by eapply Forall_forall in Hd. }
  assert (forall i d, journal_disk m i = Some d -> disk16 d) as Hjd by (intros i d [? _]%journal_disk_found; by eapply Hfd).
  destruct Hp as [x ds Hx Hds|d H0|d x|x a|d w|x|d|d x|d x Hx|d a|d e|d|d|x|c e Hc He].
  - unfold Join. destruct (find_member m (mID x)); [by destruct (forallb _ _)|]. apply next_proper; [done| |].
    + apply Forall_app. split; [done|by constructor].
    + revert Hd. generalize (disks m). induction Hds as [|d ds (H1 & H2 & H3) _ IH]; intros l Hl; simpl; [done|]. apply IH. by apply Forall_put.
  - unfold Add. destruct (find_disk m (dID d)); [done|]. apply next_proper; [done..|]. apply Forall_app. split; [done|].
    constructor; [|by apply Forall_nil]. by split_and!; [apply H0|reflexivity|apply H0].
  - unfold Serve. destruct (find_disk m d) as [f|] eqn:Ef; [|done]. destruct (negb _); [done|]. destruct (_ =? _); [done|]. destruct (negb _); [done|].
    apply next_proper; [done| |apply Forall_put; [by apply (Hfd d f)|done]]. apply Forall_fmap. eapply Forall_impl; [exact Hm|].
    intros y Hy. simpl. by destruct (_ && _).
  - unfold Move. destruct (List.find _ _); [|done]. destruct (bool_decide _); [done|]. apply next_proper; [done| |done]. by apply Forall_replace_first.
  - unfold Weigh. destruct (find_disk m d) as [f|] eqn:Ef; [|done]. destruct (_ =? _); [done|]. apply next_proper; [done..|].
    apply Forall_put; [by apply (Hfd d f)|done].
  - unfold Drain. destruct (List.find _ _); [|done]. destruct (negb _); [done|]. apply next_proper; [done|by apply Forall_replace_first|].
    apply Forall_fmap. eapply Forall_impl; [exact Hd|]. intros y Hy. simpl. unfold drained. by destruct (_ && _).
  - unfold Release. destruct (find_disk m d) as [f|] eqn:Ef; [|done]. destruct (_ || _); [done|]. apply next_proper; [done..|].
    apply Forall_put; [by apply (Hfd d f)|done].
  - unfold Let. destruct (find_disk m d) as [f|] eqn:Ef; [|done]. destruct (_ =? _); [done|]. destruct (_ || _); [done|]. apply next_proper; [done..|].
    apply Forall_put; [|done]. destruct (Hfd d f Ef) as (? & ? & ?). by split_and!.
  - unfold Assign. destruct (find_disk m d) as [f|] eqn:Ef; [|done]. destruct (_ && _); [done|]. apply next_proper; [done..|].
    apply Forall_put; [|done]. destruct (Hfd d f Ef) as (? & ? & ?). destruct (_ =? Journal); by split_and!.
  - unfold Reserve. destruct (journal_disk m d) as [f|] eqn:Ef; [|done]. destruct (bool_decide _); [done|]. apply next_proper; [done..|].
    apply Forall_put; [by apply (Hjd d f)|done].
  - unfold MarkEmpty. destruct (journal_disk m d) as [f|] eqn:Ef; [|done]. destruct (bool_decide _); [done|]. apply next_proper; [done..|].
    apply Forall_put; [by apply (Hjd d f)|done].
  - unfold Delete. destruct (journal_disk m d) as [f|] eqn:Ef; [|done]. destruct (_ =? _); [done|]. apply next_proper; [done..|].
    apply Forall_put; [by apply (Hjd d f)|done].
  - unfold Remove. destruct (has _ _ _); [|done]. apply next_proper; [done..|]. by apply Forall_delete_first.
  - unfold Leave. destruct (has _ _ _); [|done]. apply next_proper; [done| |done]. by apply Forall_delete_first.
  - unfold Recode. destruct (_ && _); [done|]. intros Hn. apply New_valid in Hn as (Hv' & _ & Ec & Ee & _ & Em & Ed). split; [done|].
    split; rewrite ?Em, ?Ed, ?Ec, ?Ee; try done; unfold sorted; by rewrite sort_by_perm.
Qed.

(** ** An update that lands *)

Definition testChange : Change := fun m => Add m (testDisk 2).

Lemma testChange_proper : proper testChange.
Proof. apply packaged_proper, p_Add. by split_and!. Qed.

Definition testNext : Membership := match testChange Empty with Ok m => with_nonce m (zeros 16) | Err _ => Empty end.

(** The world in which one update has written the second generation. *)
Definition testWorld : world (W := Message) :=
  mkWorld (Some (message testNext, "1"%string)) [Empty; testNext] ["1"%string] [zeros 16] [] [(testChange, Ret (Wrote testNext))].

Lemma testWorld_reachable : reachable testWorld.
Proof.
  eapply rtc_l; [apply (w_start initial testChange 1 testChange_proper)|].
  eapply rtc_l; [eapply (w_get _ 0 _ _ (Err [ControlRecord.ErrNotFound])); [reflexivity|done]|].
  eapply rtc_l; [eapply (w_fill _ 0 _ _ (zeros 16)); [reflexivity|reflexivity|apply not_elem_of_nil]|].
  eapply rtc_l; [eapply (w_put _ 0 _ _ _ _ "1"%string (Ok "1"%string)); [reflexivity| |by intros t [= <-]]|].
  { split; [reflexivity|]. split; [apply not_elem_of_nil|]. vm_compute. reflexivity. }
  assert (forall w w' : world (W := Message), w = w' -> rtc wstep w w') as Hrefl by (by intros w w' ->). apply Hrefl.
  unfold testWorld, on_thread, stored. f_equal. all: vm_compute; reflexivity.
Qed.

Lemma stored_generations_follow_witness : history [Empty; testNext].
Proof. apply (stored_generations_follow testWorld testWorld_reachable). Defined.

Lemma updates_report_what_they_did_witness : outcome testChange [Empty; testNext] (Wrote testNext).
Proof. apply (updates_report_what_they_did testWorld 0 testChange (Wrote testNext) testWorld_reachable). reflexivity. Defined.

Lemma run_Update_test :
  run (Update 1 testChange) (zeros 16) "1"%string None = (Some (Wrote testNext), Some (message testNext, "1"%string)).
Proof.
  pose proof (run_Update (W := Message) 0 testChange None Empty (zeros 16) "1"%string eq_refl eq_refl ltac:(discriminate)) as H.
  destruct (testChange Empty) as [m|] eqn:E; [|vm_compute in E; discriminate E].
  destruct (Step Empty m) eqn:Es; [vm_compute in E; injection E as <-; vm_compute in Es; discriminate Es|].
  unfold testNext. rewrite E. apply H.
Qed.

End MembershipStore.
