(* ===== verification/MembershipController.v ===== *)
(** * The controller of the membership

    [membership/controller.go], [membership/journals.go] and
    [membership/attach.go]: the one change a controller makes towards what it
    wants, and the calls it makes of the cloud to carry a membership out.  Every
    change the controller proposes is a step the membership admits, so a
    controller is never stuck on one; and what it asks of the cloud leaves a disk on
    one machine at most. *)

From S2P Require Import Prelude Bytes Order Sha256 ControlRecord ControlClient Rank Membership MembershipSteps MembershipFormat MembershipStore.

Module MembershipController.
Import Rank Membership MembershipSteps MembershipStore.

Record Host := mkHost {
  hID : Identity;
  hAddress : string;
  hDisks : list Disk;
  hHeld : Z;
  hMachine : string;
  hLeaving : bool;
}.

Record Shard := mkShard { shDisk : Disk; shMachines : list string; shKnown : bool }.

Definition shID (s : Shard) : Identity := dID (shDisk s).

Record Want := mkWant {
  wCode : Code;
  wEarlier : list Code;
  wHosts : list Host;
  wShards : list Shard;
  wJournals : list Shard;
  wJournalsKnown : bool;
  wPool : list string;
  wExpired : list Identity;
  wJournalsAfter : Z;
}.

Definition ShardIdentity (volume : string) : Identity :=
  slice (Sha256.Sum256 (string_bytes "sproutfs shard" ++ [Byte.x00] ++ string_bytes volume)) 0 16.

Definition JournalIdentity (volume : string) : Identity :=
  slice (Sha256.Sum256 (string_bytes "sproutfs journal" ++ [Byte.x00] ++ string_bytes volume)) 0 16.

(** A map filled by a loop holds the last entry of a key. *)
Definition map_of {T} (id : T -> Identity) (l : list T) (i : Identity) : option T :=
  List.find (fun x => bool_decide (id x = i)) (rev l).

(** The zero value of a host, which a map without one gives. *)
Definition noHost : Host := mkHost zeroIdentity EmptyString [] 0 EmptyString false.

Definition sortedHosts (hosts : list Host) : list Host := sort_by (by_key hID) hosts.

Definition holds_disk (h : Host) (id : Identity) : bool := existsb (fun held => bool_decide (dID held = id)) (hDisks h).

(** The first host, in identity order, that reports a disk. *)
Definition reported (hosts : list Host) (id : Identity) : option Identity :=
  hID <$> List.find (fun h => holds_disk h id) (sortedHosts hosts).

Definition readRelease (h : Host) (disk : Disk) : bool :=
  if hHeld h <? dAssigned disk then false
  else existsb (fun held => bool_decide (dID held = dID disk) && (dState held =? Releasing)) (hDisks h).

(** The first of a list for which a function gives something. *)
Fixpoint first_some {A B} (f : A -> option B) (l : list A) : option B :=
  match l with [] => None | x :: l => match f x with Some y => Some y | None => first_some f l end end.

Definition orelse {A} (x y : option A) : option A := match x with Some _ => x | None => y end.

(** The first of a list that meets a condition, made into a change. *)
Definition first_of {A} (l : list A) (cond : A -> bool) (change : A -> Change) : option Change := change <$> List.find cond l.

(** ** Journal disks *)

Definition journalDisks (m : Membership) : list Disk := filter (fun d => dKind d = Journal) (disks m).

Definition free (d : Disk) : bool := (dState d =? Released) && bool_decide (dMachine d = EmptyString).

Definition holdsOwn (journals : list Disk) (member : Identity) (machine : string) : bool :=
  existsb (fun d => bool_decide (dMember d = member) && bool_decide (dMachine d = machine) && negb (dState d =? Released)) journals.

Definition JournalHolder (m : Membership) (disk : Identity) : option Member * bool * bool :=
  match find_disk m disk with
  | None => (None, false, false)
  | Some found =>
    if (dKind found =? Journal) && dEmpty found && ((dState found =? Released) || (dState found =? Deleting)) then (None, false, false)
    else if negb (dKind found =? Journal) || negb (dState found =? Serving) then (None, true, false)
    else let holder := find_member m (dMember found) in (holder, true, bool_decide (is_Some holder))
  end.

Definition sorted_strings (l : list string) : list string := sort_by (by_key string_bytes) l.

(** [slices.Contains] *)
Definition contains (l : list string) (s : string) : bool := bool_decide (s ∈ l).

(** Whether a controller may assign a disk to a member. *)
Definition taker (host_of : Identity -> option Host) (x : Member) : bool :=
  match host_of (mID x) with
  | None => false
  | Some h => negb (mState x =? Draining) && negb (hLeaving h) && negb (bool_decide (hMachine h = EmptyString))
  end.

(** The first of the least, by a count: [takers] and the loop over the rest. *)
Fixpoint least (count : Identity -> Z) (chosen : Identity) (rest : list Identity) : Identity :=
  match rest with [] => chosen | x :: rest => least count (if count x <? count chosen then x else chosen) rest end.

(** What a journal disk's holder reports of it, when its mark is to change. *)
Definition mark_of (host_of : Identity -> option Host) (d : Disk) : option bool :=
  let host := default noHost (host_of (dMember d)) in
  match List.find (fun held => bool_decide (dID held = dID d) && (dAssigned held =? dAssigned d)) (hDisks host) with
  | None => None
  | Some held =>
    if negb (dState d =? Serving) && negb (dState d =? Releasing) then None
    else
      let reading := (dState d =? Serving) && negb (bool_decide (dMachine d = hMachine host)) in
      if (reading || (dState d =? Releasing)) && dEmpty held && negb (dEmpty d) || negb (dEmpty held) && dEmpty d
      then Some (dEmpty held) else None
  end.

Definition nextJournalStep (m : Membership) (host_of : Identity -> option Host) (want : Want) : option Change :=
  let current := generation m <=? wJournalsAfter want in
  let listed (id : Identity) := existsb (fun j => bool_decide (shID j = id)) (wJournals want) in
  let journals := journalDisks m in
  let takers := List.filter (taker host_of) (members m) in
  let readers (id : Identity) := zlen (List.filter (fun d => bool_decide (dMember d = id)) journals) in
  first_some id
  [first_of (wJournals want) (fun j => current && negb (bool_decide (is_Some (find_disk m (shID j)))))
    (fun j m => Add m (with_journal (shDisk j) Journal EmptyString true));
   first_of journals (fun d => (dState d =? Deleting) && wJournalsKnown want && negb (listed (dID d)))
    (fun d m => Remove m (dID d));
   first_of journals (fun d => free d && dEmpty d && bool_decide (dID d ∈ wExpired want)) (fun d m => Delete m (dID d));
   first_some (fun d => match mark_of host_of d with Some e => Some (fun m => MarkEmpty m (dID d) e) | None => None end) journals;
   first_of journals (fun d =>
      match host_of (dMember d) with
      | Some host => (dState d =? Serving) && dEmpty d && negb (bool_decide (dMachine d = hMachine host))
      | None => false
      end) (fun d m => Release m (dID d));
   first_of journals (fun d => (dState d =? Released) && negb (bool_decide (dMachine d = EmptyString)) && negb (contains (wPool want) (dMachine d)))
    (fun d m => Reserve m (dID d) EmptyString);
   first_some (fun machine =>
      if existsb (fun d => bool_decide (dMachine d = machine)) journals then None
      else first_of journals (fun d => free d && dEmpty d) (fun d m => Reserve m (dID d) machine)) (sorted_strings (wPool want));
   first_some (fun x =>
      let machine := hMachine (default noHost (host_of (mID x))) in
      first_of journals (fun d => (dState d =? Released) && bool_decide (dMachine d = machine) && negb (holdsOwn journals (mID x) machine))
        (fun d m => Assign m (dID d) (mID x))) takers;
   match mID <$> takers with
  | [] => None
  | chosen :: rest =>
    first_of journals (fun d => (dState d =? Released) && negb (dEmpty d) && bool_decide (dMachine d = EmptyString))
      (fun d m => Assign m (dID d) (least readers chosen rest))
  end].

(** ** Shards *)

Definition nextShardMove (m : Membership) (host_of : Identity -> option Host) (shard_of : Identity -> option Shard) : option Change :=
  let takers := mID <$> List.filter (taker host_of) (members m) in
  let shards := List.filter (fun d => bool_decide (is_Some (shard_of (dID d)))) (disks m) in
  let held := List.filter (fun d => negb (dState d =? Released)) shards in
  let load (id : Identity) := zlen (List.filter (fun d => bool_decide (dMember d = id)) held) in
  let moving := existsb (fun d => (dState d =? Attaching) || (dState d =? Releasing)) held in
  match takers with
  | [] => None
  | chosen :: rest =>
    orelse (first_of shards (fun d => dState d =? Released) (fun d m => Assign m (dID d) (least load chosen rest)))
    (if moving then None
    else
      let most := least (fun id => - load id) chosen rest in
      if load most - load (least load chosen rest) <? 2 then None
      else first_of shards (fun d => bool_decide (dMember d = most) && (dState d =? Serving)) (fun d m => Release m (dID d)))
  end.

(** ** The next change *)

(** Whether a releasing disk has been let go: nobody serves it. *)
Definition let_go (host_of : Identity -> option Host) (shard_of : Identity -> option Shard) (d : Disk) : bool :=
  (dState d =? Releasing) &&
  match shard_of (dID d) with
  | None => match host_of (dMember d) with None => true | Some host => readRelease host d end
  | Some shard =>
    match host_of (dMember d) with None => true | Some host => negb (holds_disk host (dID d)) end &&
    (shKnown shard && (zlen (shMachines shard) =? 0))
  end.

Definition Next (m : Membership) (want : Want) : option Change :=
  let host_of := map_of hID (sortedHosts (wHosts want)) in
  let shard_of := map_of shID (wShards want ++ wJournals want) in
  let is_shard (id : Identity) := bool_decide (is_Some (shard_of id)) in
  let reports := reported (wHosts want) in
  if (negb (bool_decide (wCode want = code m)) || negb (bool_decide (wEarlier want = earlier m))) &&
     match Validate (wCode want) with None => true | Some _ => false end
  then Some (fun m => Recode m (wCode want) (wEarlier want))
  else
  first_some id
  [first_of (members m) (fun x => match host_of (mID x) with None => true | Some h => hLeaving h end && negb (mState x =? Draining))
    (fun x m => Drain m (mID x));
   first_of (disks m) (let_go host_of shard_of) (fun d m => Let m (dID d) (dMember d));
   first_of (disks m) (fun d => negb (bool_decide (is_Some (reports (dID d)))) && negb (is_shard (dID d)) && (dState d =? Released) && (dKind d =? Cache_))
    (fun d m => Remove m (dID d));
   first_of (wShards want) (fun s => negb (bool_decide (is_Some (find_disk m (shID s))))) (fun s m => Add m (shDisk s));
   first_of (members m) (fun x => (mState x =? Draining) && negb (existsb (fun d => bool_decide (dMember d = mID x)) (disks m)))
    (fun x m => Leave m (mID x));
   first_of (sortedHosts (wHosts want)) (fun h => negb (bool_decide (is_Some (find_member m (hID h)))) && negb (hLeaving h))
    (fun h m' => Join m' (mkMember (hID h) (hAddress h) 0)
       (List.filter (fun d => negb (is_shard (dID d)) && (dKind d =? Cache_) && bool_decide (reports (dID d) = Some (hID h)) &&
          match find_disk m (dID d) with None => true | Some found => dState found =? Released end) (hDisks h)));
   first_some (fun x =>
      match host_of (mID x) with
      | Some h => if negb (bool_decide (hAddress h = mAddress x)) && negb (mState x =? Draining) then Some (fun m => Move m (mID x) (hAddress h)) else None
      | None => None
      end) (members m);
   first_of (disks m) (fun d => (dState d =? Attaching) && bool_decide (default zeroIdentity (reports (dID d)) = dMember d))
    (fun d m => Serve m (dID d) (dMember d));
   first_some (fun h =>
      first_of (hDisks h) (fun d => negb (is_shard (dID d)) && (dKind d =? Cache_) && bool_decide (reports (dID d) = Some (hID h)) &&
          match find_disk m (dID d) with None => false | Some found => negb (dWeight found =? dWeight d) end)
        (fun d m => Weigh m (dID d) (dWeight d))) (sortedHosts (wHosts want));
   first_of (wShards want) (fun s => match find_disk m (shID s) with None => false | Some found => negb (dWeight found =? dWeight (shDisk s)) end)
    (fun s m => Weigh m (shID s) (dWeight (shDisk s)));
   nextJournalStep m host_of want;
    nextShardMove m host_of (map_of shID (wShards want))].

Definition Reconcile_change (want : Want) : Change :=
  fun m => match Next m want with None => Err ErrUnchanged | Some change => change m end.

Definition Reconcile {W} `{MembershipFormat.MWire W} (fuel : nat) (want : Want) : prog W updated := Update fuel (Reconcile_change want).

(** ** Journals to create, and to delete *)

Definition NeedsJournal (m : Membership) (want : Want) : list string :=
  let journals := journalDisks m in
  let spare := zlen (List.filter (fun d => (free d || (dState d =? Released) && negb (contains (wPool want) (dMachine d))) && dEmpty d) journals) +
               zlen (List.filter (fun j => negb (bool_decide (is_Some (find_disk m (shID j))))) (wJournals want)) in
  let unreserved := List.filter (fun machine => negb (existsb (fun d => bool_decide (dMachine d = machine)) journals)) (sorted_strings (wPool want)) in
  drop (Z.to_nat spare) unreserved.

(** [JournalControl.Expired]: the times since which disks were free and empty, and
    those free and empty for the expiry. *)
Definition DefaultJournalExpiry : Z := 3600 * 10 ^ 9.

Definition Expired (freeSince : Identity -> option Z) (expiry now : Z) (m : Membership) : (Identity -> option Z) * list Identity :=
  let expiry := if expiry =? 0 then DefaultJournalExpiry else expiry in
  let idle := List.filter (fun d => free d && dEmpty d) (journalDisks m) in
  (fun id => if existsb (fun d => bool_decide (dID d = id)) idle then Some (default now (freeSince id)) else None,
   omap (fun d => match freeSince (dID d) with Some since => if now - since >=? expiry then Some (dID d) else None | None => None end) idle).

(** [JournalControl.Delete]: the volumes deleted in the cloud. *)
Definition deleted_volumes (m : Membership) (listed : list Shard) : list string :=
  omap (fun j => match find_disk m (shID j) with Some d => if dState d =? Deleting then Some (dVolume (shDisk j)) else None | None => None end) listed.

(** ** Carrying the membership out *)

Record Action := mkAction { aVolume : string; aMachine : string; aAttach : bool }.

(** Where a shard is to be, and whether it stays as it is. *)
Definition carryShard (m : Membership) (host_of : Identity -> option Host) (s : Shard) : string * bool :=
  match find_disk m (shID s) with
  | None => (EmptyString, false)
  | Some disk =>
    let host := host_of (dMember disk) in
    if (dState disk =? Attaching) || (dState disk =? Serving) then
      let target := from_option hMachine EmptyString host in (target, bool_decide (target = EmptyString))
    else if dState disk =? Releasing then (EmptyString, from_option (fun h => holds_disk h (shID s)) false host)
    else (EmptyString, false)
  end.

Definition carryJournal (m : Membership) (want : Want) (host_of : Identity -> option Host) (s : Shard) : string * bool :=
  match find_disk m (shID s) with
  | None => (EmptyString, false)
  | Some disk =>
    let host := host_of (dMember disk) in
    if (dState disk =? Attaching) || (dState disk =? Serving) then
      let target := from_option hMachine EmptyString host in (target, bool_decide (target = EmptyString))
    else if dState disk =? Releasing then (EmptyString, from_option (fun h => holds_disk h (shID s)) false host)
    else if (dState disk =? Released) && negb (bool_decide (dMachine disk = EmptyString)) && contains (wPool want) (dMachine disk)
    then (dMachine disk, false)
    else (EmptyString, false)
  end.

(** The detaches and the attaches of one disk. *)
Definition carried (s : Shard) (place : string * bool) : list Action * list Action :=
  let '(target, keep) := place in
  if negb (shKnown s) || keep then ([], [])
  else
    (omap (fun machine => if bool_decide (machine = target) then None else Some (mkAction (dVolume (shDisk s)) machine false)) (shMachines s),
     if negb (bool_decide (target = EmptyString)) && negb (contains (shMachines s) target)
     then [mkAction (dVolume (shDisk s)) target true] else []).

Definition Carry (m : Membership) (want : Want) : list Action :=
  let host_of := map_of hID (wHosts want) in
  let shards := (fun s => carried s (carryShard m host_of s)) <$> sort_by (by_key shID) (wShards want) in
  let journals := (fun s => carried s (carryJournal m want host_of s)) <$> sort_by (by_key shID) (wJournals want) in
  concat (fst <$> shards ++ journals) ++ concat (snd <$> shards ++ journals).

(** ** A membership of one disk a host *)

Definition FromList (generation_ : Z) (l : List_) (text : Identity -> string) : result merror Membership :=
  New generation_ (Rank.code l) ((fun c => mkMember (cIdentity c) (cAddress c) Active) <$> caches l)
    ((fun c => mkDisk (cIdentity c) (text (cIdentity c)) (cWeight c) (cIdentity c) Serving 1 Cache_ EmptyString false) <$> caches l) (Rank.earlier l).

End MembershipController.
