(* ===== verification/MembershipProgress.v ===== *)
(** * Every change the controller proposes is admitted

    Whatever a well-formed report of the hosts, the shards and the journal disks,
    the change that [Next] takes from a valid membership builds a valid next
    generation that [Step] lets follow. *)

From S2P Require Import Prelude Bytes Order ControlRecord Rank Membership MembershipSteps MembershipStore MembershipController.

Module MembershipProgress.
Import Rank Membership MembershipSteps MembershipStore MembershipController.

(** ** Disks that may be listed *)

Record disk_fine (g : Z) (ids : list Identity) (d : Disk) : Prop := {
  f_id : IsZero (dID d) = false;
  f_weight : dKind d = Cache_ -> dWeight d <> 0;
  f_kind : dKind d <= Journal;
  f_cache : dKind d = Cache_ -> dMachine d = EmptyString /\ dEmpty d = false /\ dState d <> Deleting;
  f_state : Attaching <= dState d <= Deleting;
  f_nobody : dState d = Released \/ dState d = Deleting -> IsZero (dMember d) = true /\ dAssigned d = 0;
  f_member : dState d < Released -> dMember d ∈ ids /\ dAssigned d <> 0 /\ dAssigned d <= g;
}.

Lemma is_Some_member m id : ordered (by_key mID) (members m) -> (is_Some (find_member m id) <-> id ∈ mID <$> members m).
Proof.
  intros Ho. unfold find_member, lookup_by. rewrite key_search_scan by done. rewrite <- not_eq_None_Some, find_id_none.
  destruct (decide (id ∈ mID <$> members m)); tauto.
Qed.

Lemma checkDisk_iff m d : ordered (by_key mID) (members m) ->
  (checkDisk m d = None <-> disk_fine (generation m) (mID <$> members m) d).
Proof.
  intros Ho. split.
  - intros Hc. pose proof (checkDisk_assigned m d Hc) as (H1 & H2 & H3). revert Hc. unfold checkDisk.
    destruct (IsZero (dID d)) eqn:Ez; [done|]. simpl.
    destruct (Z.eqb_spec (dWeight d) 0) as [Ew|Ew], (Z.eqb_spec (dKind d) Cache_) as [Ek|Ek]; simpl; try done;
      (destruct (Z.gtb_spec (dKind d) Journal); [done|]); intros Hc; split; try done.
    + intros Hs. destruct (H3 Hs) as (Hm & ? & ?). by rewrite <- is_Some_member.
    + intros _. revert Hc. case_bool_decide; simpl; [|done]. destruct (dEmpty d); [done|]. by destruct (Z.eqb_spec (dState d) Deleting).
    + intros Hs. destruct (H3 Hs) as (Hm & ? & ?). by rewrite <- is_Some_member.
    + intros Hs. destruct (H3 Hs) as (Hm & ? & ?). by rewrite <- is_Some_member.
  - intros [H1 H2 H3 H4 H5 H6 H7]. unfold checkDisk. rewrite H1. simpl.
    destruct (Z.eqb_spec (dKind d) Cache_) as [Ek|Ek].
    + destruct (H4 Ek) as (Hm & He & Hd). specialize (H2 Ek). destruct (Z.eqb_spec (dWeight d) 0); [done|]. simpl.
      destruct (Z.gtb_spec (dKind d) Journal); [lia|]. rewrite (bool_decide_eq_true_2 _ Hm), He. simpl. destruct (Z.eqb_spec (dState d) Deleting) as [|Hnd]; [done|].
      destruct (Z.ltb_spec (dState d) Attaching), (Z.gtb_spec (dState d) Deleting); simpl; try lia.
      destruct (Z.eqb_spec (dState d) Released) as [Er|Er]; simpl.
      * destruct (H6 (or_introl Er)) as [-> ->]. done.
      * destruct H7 as (Hin & Ha & Hg); [unfold Released, Deleting in *; lia|]. apply is_Some_member in Hin as [x ->]; [|done].
        destruct (Z.eqb_spec (dAssigned d) 0), (Z.gtb_spec (dAssigned d) (generation m)); simpl; try done; lia.
    + rewrite andb_false_r. destruct (Z.gtb_spec (dKind d) Journal); [lia|]. simpl.
      destruct (Z.ltb_spec (dState d) Attaching), (Z.gtb_spec (dState d) Deleting); simpl; try lia.
      destruct (Z.eqb_spec (dState d) Released) as [Er|Er]; simpl; [by destruct (H6 (or_introl Er)) as [-> ->]|].
      destruct (Z.eqb_spec (dState d) Deleting) as [Ed|Ed]; simpl; [by destruct (H6 (or_intror Ed)) as [-> ->]|].
      destruct H7 as (Hin & Ha & Hg); [unfold Released, Deleting in *; lia|]. apply is_Some_member in Hin as [x ->]; [|done].
      destruct (Z.eqb_spec (dAssigned d) 0), (Z.gtb_spec (dAssigned d) (generation m)); simpl; try done; lia.
Qed.

Lemma disk_fine_mono g g' ids ids' d : disk_fine g ids d -> g <= g' -> (dState d < Released -> dMember d ∈ ids -> dMember d ∈ ids') ->
  disk_fine g' ids' d.
Proof. intros [H1 H2 H3 H4 H5 H6 H7] Hg Hi. split; try done. intros Hs. destruct (H7 Hs) as (? & ? & ?). split_and!; auto. lia. Qed.

Lemma valid_fine m d : valid m -> d ∈ disks m -> disk_fine (generation m) (mID <$> members m) d.
Proof. intros Hv Hd. apply checkDisk_iff; [apply Hv|]. eapply Forall_forall in Hd; [exact Hd|apply Hv]. Qed.

(** ** Next generations that are admitted *)

Definition admitted (m : Membership) (r : result merror Membership) : Prop := exists m', r = Ok m' /\ Step m m' = None.

Definition in_range (m : Membership) : Prop := 0 <= generation m < 2 ^ 64 - 1.

(** The next generation, as [Step] sees it. *)
Definition next_of (m : Membership) (ms : list Member) (m' : Membership) : Prop :=
  valid m' /\ generation m' = generation m + 1 /\ members m' ≡ₚ ms.

Lemma wrap_next m : in_range m -> wrap64 (generation m + 1) = generation m + 1.
Proof. intros [? ?]. apply wrap64_small. unfold u64. lia. Qed.

Lemma New_admitted m c e ms ds : valid m -> in_range m -> Validate c = None -> earlier_ok c e -> Forall member_ok ms -> NoDup (mID <$> ms) ->
  Forall (disk_fine (generation m + 1) (mID <$> ms)) ds -> NoDup (dID <$> ds) ->
  (forall m' d, next_of m ms m' -> d ∈ ds -> stepDisk m' (find_disk m (dID d)) d = None) ->
  (forall d, d ∈ disks m -> dID d ∉ dID <$> ds -> (dState d = Released \/ dState d = Deleting) /\ (dKind d = Journal -> dState d = Deleting)) ->
  (forall x, x ∈ members m -> mID x ∉ mID <$> ms -> mState x = Draining) ->
  admitted m (New (wrap64 (generation m + 1)) c ms ds e).
Proof.
  intros Hv Hr Hc He Hm Hmn Hd Hdn Hstep Hgone Hleft. rewrite wrap_next by done.
  assert (ordered (by_key mID) (sorted mID ms)) as Ho by apply sort_by_key_ordered.
  destruct (New_complete (generation m + 1) c ms ds e Hc He Hm Hmn) as [m' Hnew]; [|done|].
  { eapply Forall_impl; [exact Hd|]. intros d Hfine. apply checkDisk_iff; [done|]. simpl. eapply disk_fine_mono; [exact Hfine|lia|].
    intros _. unfold sorted. by rewrite sort_by_perm. }
  exists m'. split; [done|]. apply New_valid in Hnew as (Hv' & Eg & _ & _ & _ & Em & Ed). apply Step_iff.
  assert (members m' ≡ₚ ms) as Hpm by (rewrite Em; apply sort_by_perm). assert (disks m' ≡ₚ ds) as Hpd by (rewrite Ed; apply sort_by_perm).
  split.
  - rewrite Eg. by rewrite wrap_next.
  - intros d Hin. apply Hstep; [done|]. by rewrite <- Hpd.
  - intros d Hin Hno. apply Hgone; [done|]. apply find_disk_none in Hno; [|done]. by rewrite Hpd in Hno.
  - intros x Hin Hno. apply Hleft; [done|]. apply find_member_none in Hno; [|done]. by rewrite Hpm in Hno.
Qed.

(** A disk left as it is may follow itself. *)
Lemma stepDisk_same m' d : stepDisk m' (Some d) d = None.
Proof.
  unfold stepDisk, stepJournal, Attaching, Released, Deleting, Releasing. rewrite !Z.eqb_refl, !bool_decide_eq_true_2, Z.ltb_irrefl by done. simpl.
  destruct (Z.eqb_spec (dState d) 1), (Z.eqb_spec (dState d) 3), (Z.eqb_spec (dState d) 4), (Z.eqb_spec (dState d) 5); simpl; try done; lia.
Qed.

(** A change of members that keeps their identities, and of one listed disk. *)
Lemma put_admitted m ms found d : valid m -> in_range m -> Forall member_ok ms -> mID <$> ms = mID <$> members m ->
  found ∈ disks m -> dID d = dID found -> disk_fine (generation m + 1) (mID <$> members m) d ->
  (forall m', next_of m ms m' -> stepDisk m' (Some found) d = None) -> admitted m (next m ms (put (disks m) d)).
Proof.
  intros Hv Hr Hm Eids Hin Eid Hfine Hstep. pose proof (v_disks_distinct m Hv) as Hdn.
  assert (forall x, x ∈ put (disks m) d -> x = d \/ (x ∈ disks m /\ dID x <> dID d)) as Hput by (intros x; by apply elem_of_put).
  apply New_admitted; try done; try apply Hv.
  - rewrite Eids. apply Hv.
  - apply Forall_forall. intros x [->|[Hx _]]%Hput; rewrite Eids; [done|]. eapply disk_fine_mono; [by apply valid_fine|lia|done].
  - by apply put_distinct.
  - intros m' x Hm' [->|[Hx _]]%Hput.
    + rewrite Eid, (proj2 (find_disk_iff m _ found Hv)) by done. by apply Hstep.
    + rewrite (proj2 (find_disk_iff m _ x Hv)) by done. apply stepDisk_same.
  - intros x Hx Hno. destruct Hno. rewrite (put_fmap dID _ found) by done. by apply list_elem_of_fmap_2.
  - intros x Hx Hno. destruct Hno. rewrite Eids. by apply list_elem_of_fmap_2.
Qed.

(** ** The changes *)

Section Changes.
Context (m : Membership) (Hv : valid m) (Hr : in_range m) (Hkinds : forall d, d ∈ disks m -> 0 <= dKind d).

Lemma find_in d : d ∈ disks m -> find_disk m (dID d) = Some d.
Proof. intros Hd. by apply find_disk_iff. Qed.

Lemma F6_of d : d ∈ disks m -> dState d = Released -> IsZero (dMember d) = true /\ dAssigned d = 0.
Proof. intros Hd Es. apply (f_nobody _ _ _ (valid_fine m d Hv Hd)). by left. Qed.

(** [fine F d] is what a listed disk meets; [listed F] proves it of a change of the
    disk, up to what the change changes. *)
Ltac fine F d := match goal with H : d ∈ disks m |- _ => pose proof (valid_fine m d Hv H) as F end.
Ltac listed F :=
  split; simpl; try done; try apply F;
  try (let Hk := fresh in intros Hk; destruct (f_cache _ _ _ F Hk) as (? & ? & ?); split_and!; done);
  try (let Hs := fresh in intros Hs; destruct (f_member _ _ _ F Hs) as (? & ? & ?); split_and!; done || lia).
Ltac step := intros ? _; unfold stepDisk, stepJournal; simpl; rewrite ?Z.eqb_refl, ?bool_decide_eq_true_2 by done; simpl.

Lemma Let_admitted d : d ∈ disks m -> dState d = Releasing -> admitted m (Let m (dID d) (dMember d)).
Proof.
  intros Hd Es. unfold Let. rewrite find_in, Es, bool_decide_eq_true_2 by done. simpl. fine F d.
  apply put_admitted with (found := d); try done; [apply Hv|listed F|]. step. by rewrite Es.
Qed.

Lemma Release_admitted d : d ∈ disks m -> dState d = Serving -> admitted m (Release m (dID d)).
Proof.
  intros Hd Es. unfold Release. rewrite find_in, Es by done. simpl. fine F d.
  apply put_admitted with (found := d); try done; [apply Hv|listed F|step; by rewrite Es].
  - by intros [?|?].
  - intros _. destruct (f_member _ _ _ F) as (? & ? & ?); [by rewrite Es|]. split_and!; try done. lia.
Qed.

Lemma Weigh_admitted d w : d ∈ disks m -> dWeight d <> w -> (dKind d = Cache_ -> w <> 0) -> admitted m (Weigh m (dID d) w).
Proof.
  intros Hd Ew Hw. unfold Weigh. rewrite find_in by done. destruct (Z.eqb_spec (dWeight d) w); [done|]. fine F d.
  apply put_admitted with (found := d); try done; [apply Hv|listed F|]. intros m' _. exact (stepDisk_same m' d).
Qed.

(** A released disk belongs to nobody, and no member is nobody. *)
Lemma released_member d x : d ∈ disks m -> dState d = Released -> x ∈ members m -> dMember d <> mID x.
Proof.
  intros Hd Es Hx E. destruct (F6_of d Hd Es) as [Hz _]. pose proof (v_members m Hv) as Hm. eapply Forall_forall in Hm as [Hz' _]; [|exact Hx].
  congruence.
Qed.

Lemma Assign_admitted d x : d ∈ disks m -> dState d = Released -> x ∈ members m -> mState x <> Draining ->
  admitted m (Assign m (dID d) (mID x)).
Proof.
  intros Hd Es Hx Hdr. unfold Assign. rewrite find_in by done. pose proof (released_member d x Hd Es Hx) as Hne.
  rewrite bool_decide_eq_false_2 by done. cbn [andb]. rewrite wrap_next by done. fine F d.
  assert (forall d', dID d' = dID d -> dKind d' = dKind d -> dWeight d' = dWeight d -> dMachine d' = dMachine d -> dMember d' = mID x ->
    dState d' = Attaching -> dAssigned d' = generation m + 1 -> dEmpty d' = false -> admitted m (next m (members m) (put (disks m) d'))) as Hgen.
  { intros d' E1 E2 E3 E4 E5 E6 E7 E8. apply put_admitted with (found := d); try done; [apply Hv| |].
    - split; rewrite ?E1, ?E2, ?E3, ?E4, ?E5, ?E6, ?E7, ?E8; try done; try apply F.
      + intros Hk. by destruct (f_cache _ _ _ F Hk) as (? & _).
      + by intros [?|?].
      + intros _. split; [by apply list_elem_of_fmap_2|]. destruct Hr. lia.
    - intros m' (Hv' & Eg & Em). unfold stepDisk, stepJournal. rewrite E2, E4, E5, E6, E7, E8, Es, Eg, !Z.eqb_refl. simpl.
      rewrite bool_decide_eq_true_2, bool_decide_eq_false_2 by done. simpl.
      rewrite (proj2 (find_member_iff m' (mID x) x Hv')) by (by rewrite Em). simpl. by destruct (Z.eqb_spec (mState x) Draining). }
  destruct (Z.eqb_spec (dKind d) Journal) as [Ek|Ek]; simpl; rewrite ?(proj2 (Z.eqb_eq _ _) Ek), ?(proj2 (Z.eqb_neq _ _) Ek); apply Hgen; try done.
  assert (dKind d = Cache_) as Ec by (pose proof (f_kind _ _ _ F); pose proof (Hkinds d Hd); unfold Cache_, Journal in *; lia).
  by apply (f_cache _ _ _ F).
Qed.

(** The changes of a journal disk. *)
Lemma journal_in d : d ∈ disks m -> dKind d = Journal -> journal_disk m (dID d) = Some d.
Proof. intros Hd Ek. unfold journal_disk. by rewrite find_in, Ek by done. Qed.

Lemma Reserve_admitted d machine : d ∈ disks m -> dKind d = Journal -> dState d = Released -> dMachine d <> machine ->
  admitted m (Reserve m (dID d) machine).
Proof.
  intros Hd Ek Es Hne. unfold Reserve. rewrite journal_in, bool_decide_eq_false_2 by done. fine F d.
  apply put_admitted with (found := d); try done; [apply Hv|listed F|].
  - by rewrite Ek.
  - intros m' _. unfold stepDisk, stepJournal. simpl. rewrite Es, !Z.eqb_refl. simpl. by rewrite andb_false_r.
Qed.

Lemma MarkEmpty_admitted d e : d ∈ disks m -> dKind d = Journal -> dState d = Serving \/ dState d = Releasing -> dEmpty d <> e ->
  admitted m (MarkEmpty m (dID d) e).
Proof.
  intros Hd Ek Es Hne. unfold MarkEmpty. rewrite journal_in, bool_decide_eq_false_2 by done. fine F d.
  apply put_admitted with (found := d); try done; [apply Hv|listed F|].
  - by rewrite Ek.
  - intros m' _. unfold stepDisk, stepJournal. simpl. rewrite !Z.eqb_refl, !bool_decide_eq_true_2, Z.ltb_irrefl by done. by destruct Es as [-> | ->].
Qed.

Lemma Delete_admitted d : d ∈ disks m -> dKind d = Journal -> dState d = Released -> dEmpty d = true -> admitted m (Delete m (dID d)).
Proof.
  intros Hd Ek Es Ee. unfold Delete. rewrite journal_in, Es by done. simpl. fine F d.
  apply put_admitted with (found := d); try done; [apply Hv|listed F|].
  - by rewrite Ek.
  - intros _. apply F. by left.
  - intros m' _. unfold stepDisk, stepJournal. simpl. rewrite !Z.eqb_refl, !bool_decide_eq_true_2 by done. by rewrite Es, Ee.
Qed.

Lemma Serve_admitted d : d ∈ disks m -> dState d = Attaching -> admitted m (Serve m (dID d) (dMember d)).
Proof.
  intros Hd Es. unfold Serve. rewrite find_in, Es, bool_decide_eq_true_2 by done. simpl. fine F d.
  apply put_admitted with (found := d); try done; [| |listed F|step; by rewrite Es].
  - apply Forall_fmap. eapply Forall_impl; [apply Hv|]. intros x (H1 & H2 & H3). simpl. by destruct (_ && _).
  - rewrite <- list_fmap_compose. apply list_fmap_ext. intros _ x _. simpl. by destruct (_ && _).
  - by intros [?|?].
  - intros _. destruct (f_member _ _ _ F) as (? & ? & ?); [by rewrite Es|]. split_and!; try done. lia.
Qed.

(** A change of members alone. *)
Lemma members_admitted ms : Forall member_ok ms -> NoDup (mID <$> ms) ->
  (forall d, d ∈ disks m -> dState d < Released -> dMember d ∈ mID <$> ms) ->
  (forall x, x ∈ members m -> mID x ∉ mID <$> ms -> mState x = Draining) -> admitted m (next m ms (disks m)).
Proof.
  intros Hm Hn Hd Hl. apply New_admitted; try done; try apply Hv.
  - apply Forall_forall. intros d Hin. eapply disk_fine_mono; [by apply valid_fine|lia|]. intros Hs _. by apply Hd.
  - intros m' d _ Hin. rewrite find_in by done. apply stepDisk_same.
  - intros d Hin Hno. destruct Hno. by apply list_elem_of_fmap_2.
Qed.

Lemma find_member_in x : x ∈ members m -> List.find (fun listed => bool_decide (mID listed = mID x)) (members m) = Some x.
Proof. intros Hx. by apply find_id_iff; [apply Hv|]. Qed.

Lemma replaced_ids i f : (forall x, mID (f x) = mID x) -> mID <$> replace_first mID i f (members m) = mID <$> members m.
Proof. intros Hf. by apply replace_first_fmap. Qed.

Lemma assigned_listed d : d ∈ disks m -> dState d < Released -> dMember d ∈ mID <$> members m.
Proof. intros Hd Hs. by apply (f_member _ _ _ (valid_fine m d Hv Hd)). Qed.

Lemma Move_admitted x address : x ∈ members m -> mAddress x <> address -> address <> EmptyString -> admitted m (Move m (mID x) address).
Proof.
  intros Hx Hne Ha. unfold Move. rewrite find_member_in, bool_decide_eq_false_2 by done.
  apply members_admitted; [|rewrite replaced_ids by done; apply Hv| |].
  - apply Forall_replace_first; [|apply Hv]. by intros y (? & ? & ?).
  - intros d Hd Hs. rewrite replaced_ids by done. by apply assigned_listed.
  - intros y Hy Hno. destruct Hno. rewrite replaced_ids by done. by apply list_elem_of_fmap_2.
Qed.

Lemma Leave_admitted x : x ∈ members m -> mState x = Draining -> (forall d, d ∈ disks m -> dMember d <> mID x) -> admitted m (Leave m (mID x)).
Proof.
  intros Hx Es Hno. unfold Leave. rewrite (proj2 (has_iff mID _ _)) by (by apply list_elem_of_fmap_2).
  assert (forall y, y ∈ delete_first mID (mID x) (members m) <-> y ∈ members m /\ mID y <> mID x) as Hdel by (intros y; apply elem_of_delete_first, Hv).
  apply members_admitted.
  - apply Forall_delete_first, Hv.
  - eapply sublist_NoDup; [apply (v_members_distinct m Hv)|]. apply fmap_sublist, delete_first_sublist.
  - intros d Hd Hs. destruct (proj1 (list_elem_of_fmap _ _ _) (assigned_listed d Hd Hs)) as (y & Ey & Hy). rewrite Ey. apply list_elem_of_fmap_2, Hdel.
    split; [done|]. rewrite <- Ey. by apply Hno.
  - intros y Hy Hn. destruct (decide (mID y = mID x)) as [E|E].
    + assert (y = x) as -> by (by apply (id_determines mID (members m)); [apply Hv|..]). done.
    + destruct Hn. apply list_elem_of_fmap_2. by apply Hdel.
Qed.

Lemma Add_admitted d : find_disk m (dID d) = None -> IsZero (dID d) = false -> dKind d <= Journal ->
  (dKind d = Cache_ -> dWeight d <> 0 /\ dMachine d = EmptyString /\ dEmpty d = false) -> admitted m (Add m d).
Proof.
  intros Hno Hz Hk Hc. unfold Add. rewrite Hno. set (d' := with_assignment d zeroIdentity Released 0).
  assert (forall x, x ∈ disks m ++ [d'] -> x = d' \/ x ∈ disks m) as Hin by (intros x; rewrite elem_of_app, list_elem_of_singleton; tauto).
  apply find_disk_none in Hno as Hnew; [|done]. apply New_admitted; try done; try apply Hv.
  - apply Forall_forall. intros x [->|Hx]%Hin; [|eapply disk_fine_mono; [by apply valid_fine|lia|done]].
    split; simpl; try done. + intros E. by apply Hc. + intros E. by destruct (Hc E) as (_ & ? & ?).
  - rewrite fmap_app. apply NoDup_app. split; [apply Hv|]. split; [|apply NoDup_singleton]. by intros i Hi ->%list_elem_of_singleton.
  - intros m' x _ [->|Hx]%Hin; [|rewrite find_in by done; apply stepDisk_same]. change (dID d') with (dID d). by rewrite Hno.
  - intros x Hx Hn. destruct Hn. apply list_elem_of_fmap_2, elem_of_app. by left.
  - intros x Hx Hn. destruct Hn. by apply list_elem_of_fmap_2.
Qed.

Lemma Remove_admitted d : d ∈ disks m -> dState d = Released \/ dState d = Deleting -> (dKind d = Journal -> dState d = Deleting) ->
  admitted m (Remove m (dID d)).
Proof.
  intros Hd Hs Hj. unfold Remove. rewrite (proj2 (has_iff dID _ _)) by (by apply list_elem_of_fmap_2).
  assert (forall x, x ∈ delete_first dID (dID d) (disks m) <-> x ∈ disks m /\ dID x <> dID d) as Hdel by (intros x; apply elem_of_delete_first, Hv).
  apply New_admitted; try done; try apply Hv.
  - apply Forall_forall. intros x [Hx _]%Hdel. eapply disk_fine_mono; [by apply valid_fine|lia|done].
  - eapply sublist_NoDup; [apply (v_disks_distinct m Hv)|]. apply fmap_sublist, delete_first_sublist.
  - intros m' x _ [Hx _]%Hdel. rewrite find_in by done. apply stepDisk_same.
  - intros x Hx Hn. destruct (decide (dID x = dID d)) as [E|E].
    + assert (x = d) as -> by (by apply (id_determines dID (disks m)); [apply Hv|..]). done.
    + destruct Hn. apply list_elem_of_fmap_2. by apply Hdel.
  - intros x Hx Hn. destruct Hn. by apply list_elem_of_fmap_2.
Qed.

Lemma Recode_admitted c e : c <> code m \/ e <> earlier m -> Validate c = None -> earlier_ok c e -> admitted m (Recode m c e).
Proof.
  intros Hne Hc He. unfold Recode. rewrite <- bool_decide_and, bool_decide_eq_false_2 by tauto. apply New_admitted; try done; try apply Hv.
  - apply Forall_forall. intros d Hin. eapply disk_fine_mono; [by apply valid_fine|lia|done].
  - intros m' d _ Hin. rewrite find_in by done. apply stepDisk_same.
  - intros d Hin Hno. destruct Hno. by apply list_elem_of_fmap_2.
  - intros x Hx Hno. destruct Hno. by apply list_elem_of_fmap_2.
Qed.

Lemma drained_id x d : dID (drained x d) = dID d.
Proof. unfold drained. by destruct (_ && _). Qed.

Lemma Drain_admitted x : x ∈ members m -> mState x <> Draining -> admitted m (Drain m (mID x)).
Proof.
  intros Hx Hs. unfold Drain. rewrite find_member_in by done. destruct (Z.eqb_spec (mState x) Draining); [done|]. simpl.
  assert (dID <$> (drained (mID x) <$> disks m) = dID <$> disks m) as Eids.
  { rewrite <- list_fmap_compose. apply list_fmap_ext. intros _ d _. apply drained_id. }
  apply New_admitted; try apply Hv; try done.
  - apply Forall_replace_first; [|apply Hv]. by intros y (? & ? & _).
  - rewrite replaced_ids by done. apply Hv.
  - rewrite replaced_ids by done. apply Forall_fmap, Forall_forall. intros d Hd. fine F d. simpl.
    assert (disk_fine (generation m + 1) (mID <$> members m) d) as F' by (eapply disk_fine_mono; [done|lia|done]).
    unfold drained. destruct (_ && _) eqn:E; [|done]. apply andb_true_iff in E as [_ E].
    assert (dState d < Released) as Hlt by (apply orb_true_iff in E as [->%Z.eqb_eq| ->%Z.eqb_eq]; done).
    split; simpl; try apply F'; try done.
    + intros Hk. by destruct (f_cache _ _ _ F Hk) as (? & ? & ?).
    + by intros [?|?].
    + intros _. by apply F'.
  - by rewrite Eids; apply Hv.
  - intros m' d' _ (d & -> & Hd)%list_elem_of_fmap. rewrite drained_id, find_in by done. unfold drained. destruct (_ && _) eqn:E; [|apply stepDisk_same].
    apply andb_true_iff in E as [_ E]. unfold stepDisk, stepJournal. simpl. rewrite !Z.eqb_refl, !bool_decide_eq_true_2 by done.
    by apply orb_true_iff in E as [->%Z.eqb_eq| ->%Z.eqb_eq].
  - intros d Hd Hno. destruct Hno. rewrite Eids. by apply list_elem_of_fmap_2.
  - intros y Hy Hno. destruct Hno. rewrite replaced_ids by done. by apply list_elem_of_fmap_2.
Qed.

(** The disks a join puts in. *)
Lemma elem_of_puts (f : Disk -> Disk) ds l x : (forall d, dID (f d) = dID d) -> NoDup (dID <$> l) ->
  let out := fold_left (fun next d => put next (f d)) ds l in
  NoDup (dID <$> out) /\ (x ∈ out -> (exists d, d ∈ ds /\ x = f d) \/ x ∈ l) /\ (forall i, i ∈ dID <$> l -> i ∈ dID <$> out).
Proof.
  intros Hf. revert l. induction ds as [|d ds IH]; intros l Hn; simpl; [by split_and!; auto|].
  destruct (IH (put l (f d)) (put_distinct _ _ Hn)) as (H1 & H2 & H3). split_and!; [done| |].
  - intros [(e & He & ->)|Hx]%H2; [left; exists e; split; [by right|done]|]. apply elem_of_put in Hx as [->|[Hx _]]; [|by right|done].
    left. exists d. split; [by left|done].
  - intros i (e & -> & He)%list_elem_of_fmap. apply H3. destruct (decide (dID e = dID (f d))) as [E|E].
    + rewrite E. apply list_elem_of_fmap_2, elem_of_put; [done|by left].
    + apply list_elem_of_fmap_2, elem_of_put; [done|by right].
Qed.

(** A disk a joining host brings. *)
Definition joinable (d : Disk) : Prop :=
  IsZero (dID d) = false /\ dKind d = Cache_ /\ dWeight d <> 0 /\ dMachine d = EmptyString /\ dEmpty d = false /\
  forall found, find_disk m (dID d) = Some found -> dState found = Released /\ dKind found = Cache_.

Lemma Join_admitted x ds : find_member m (mID x) = None -> IsZero (mID x) = false -> mAddress x <> EmptyString -> Forall joinable ds ->
  admitted m (Join m x ds).
Proof.
  intros Hno Hz Ha Hds. unfold Join. rewrite Hno, wrap_next by done. cbn [with_mstate mID].
  set (f := fun d => with_assignment d (mID x) Attaching (generation m + 1)). set (x' := with_mstate x Joining).
  pose proof (fun y => elem_of_puts f ds (disks m) y (fun d => eq_refl) (v_disks_distinct m Hv)) as Hputs. cbv zeta in Hputs.
  destruct (Hputs (testDisk 0)) as (Hnd & _ & Hkeep). apply find_member_none in Hno as Hnew; [|done].
  assert (mID x ∈ mID <$> members m ++ [x']) as Hin by (apply (list_elem_of_fmap_2 mID _ x'), elem_of_app; right; by apply list_elem_of_singleton).
  apply New_admitted; try apply Hv; try done.
  - apply Forall_app. split; [apply Hv|]. constructor; [|by apply Forall_nil]. by split_and!.
  - rewrite fmap_app. apply NoDup_app. split; [apply Hv|]. split; [|apply NoDup_singleton]. by intros i Hi ->%list_elem_of_singleton.
  - apply Forall_forall. intros d Hd. destruct (Hputs d) as (_ & Hel & _). apply Hel in Hd as [(e & He & ->)|Hd].
    + destruct (proj1 (Forall_forall _ _) Hds e He) as (H1 & H2 & H3 & H4 & H5 & _). split; simpl; try done.
      * by rewrite H2.
      * by intros [?|?].
      * intros _. split; [done|]. destruct Hr. lia.
    + eapply disk_fine_mono; [by apply valid_fine|lia|]. intros _ Hm. rewrite fmap_app. apply elem_of_app. by left.
  - intros m' d (Hv' & Eg & Em) Hd. destruct (Hputs d) as (_ & Hel & _). apply Hel in Hd as [(e & He & ->)|Hd]; [|rewrite find_in by done; apply stepDisk_same].
    destruct (proj1 (Forall_forall _ _) Hds e He) as (H1 & H2 & H3 & H4 & H5 & H6). change (dID (f e)) with (dID e).
    assert (find_member m' (mID x) = Some x') as Hx'.
    { apply find_member_iff; [done|]. rewrite Em. split; [|done]. apply elem_of_app. right. by apply list_elem_of_singleton. }
    unfold stepDisk, stepJournal. destruct (find_disk m (dID e)) as [w|] eqn:Ew; simpl; rewrite ?Hx', Eg, ?Z.eqb_refl; [|done]. simpl.
    destruct (H6 w eq_refl) as [Es Ek]. apply find_disk_iff in Ew as [Hw _]; [|done]. rewrite H2, H5, Es, Ek. simpl. rewrite andb_false_r.
    rewrite bool_decide_eq_false_2; [done|]. intros E. destruct (F6_of w Hw Es) as [Hz' _]. congruence.
  - intros d Hd Hn. destruct Hn. by apply Hkeep, list_elem_of_fmap_2.
  - intros y Hy Hn. destruct Hn. rewrite fmap_app. apply elem_of_app. left. by apply list_elem_of_fmap_2.
Qed.

End Changes.
(** ** The controller *)

(** A cache disk as a host or a controller names it. *)
Definition cache_named (d : Disk) : Prop :=
  IsZero (dID d) = false /\ dWeight d <> 0 /\ dMachine d = EmptyString /\ dEmpty d = false.

Record host_ok (h : Host) : Prop := {
  ho_id : IsZero (hID h) = false;
  ho_address : hAddress h <> EmptyString;
  ho_disks d : d ∈ hDisks h -> dKind d = Cache_ -> cache_named d;
}.

(** What a controller is given: hosts with an identity and an address, disks with
    an identity, cache disks with a weight, codes a list can be made of, and no cache
    disk reported under the identity of a journal disk. *)
Record want_ok (m : Membership) (want : Want) : Prop := {
  wo_codes : Validate (wCode want) = None -> earlier_ok (wCode want) (wEarlier want);
  wo_hosts h : h ∈ wHosts want -> host_ok h;
  wo_shards s : s ∈ wShards want -> dKind (shDisk s) = Cache_ /\ cache_named (shDisk s);
  wo_journals s : s ∈ wJournals want -> IsZero (shID s) = false;
  wo_kinds h d e : h ∈ wHosts want -> d ∈ hDisks h -> dKind d = Cache_ -> e ∈ disks m -> dID e = dID d -> dKind e = Cache_;
}.

Section Controller.
Context (m : Membership) (Hv : valid m) (Hr : in_range m) (Hkinds : forall d, d ∈ disks m -> 0 <= dKind d).

Definition progress (o : option Change) : Prop := match o with Some change => admitted m (change m) | None => True end.

Lemma first_of_progress {A} (l : list A) cond (change : A -> Change) :
  (forall x, x ∈ l -> cond x = true -> admitted m (change x m)) -> progress (first_of l cond change).
Proof.
  intros Hl. unfold first_of. destruct (List.find cond l) as [x|] eqn:E; [|done]. apply List.find_some in E as [Hin Hc].
  simpl. apply Hl; [by apply list_elem_of_In|done].
Qed.

Lemma first_some_progress {A} (f : A -> option Change) l : (forall x, x ∈ l -> progress (f x)) -> progress (first_some f l).
Proof.
  induction l as [|x l IH]; intros Hl; [done|]. simpl. pose proof (Hl x (list_elem_of_here _ _)) as Hx. destruct (f x); [done|].
  apply IH. intros y Hy. apply Hl. by constructor.
Qed.

Lemma first_id_progress l : Forall progress l -> progress (first_some id l).
Proof. intros Hl. apply first_some_progress. by apply Forall_forall. Qed.

Lemma map_of_in {T} (key : T -> Identity) l i x : map_of key l i = Some x -> x ∈ l /\ key x = i.
Proof.
  intros [Hin E]%List.find_some. apply bool_decide_eq_true in E. split; [|done]. apply list_elem_of_In. by apply in_rev.
Qed.

Lemma sortedHosts_in hosts h : h ∈ sortedHosts hosts -> h ∈ hosts.
Proof. unfold sortedHosts. by rewrite sort_by_perm. Qed.

Lemma elem_of_journals d : d ∈ journalDisks m <-> dKind d = Journal /\ d ∈ disks m.
Proof. unfold journalDisks. by rewrite list_elem_of_filter. Qed.

Lemma elem_of_lfilter {A} (f : A -> bool) l x : x ∈ List.filter f l <-> x ∈ l /\ f x = true.
Proof. by rewrite !list_elem_of_In, filter_In. Qed.

Lemma taker_ok host_of x : taker host_of x = true -> mState x <> Draining.
Proof.
  unfold taker. destruct (host_of (mID x)); [|done]. destruct (Z.eqb_spec (mState x) Draining); [done|]. done.
Qed.

(** The member the least loaded is one of the takers. *)
Lemma least_in count chosen rest : least count chosen rest ∈ chosen :: rest.
Proof.
  revert chosen. induction rest as [|x rest IH]; intros chosen; simpl; [by left|].
  pose proof (IH (if count x <? count chosen then x else chosen)) as [E|Hin]%elem_of_cons; [rewrite E; destruct (_ <? _); [right; left|left]|]. 
  by right; right.
Qed.

Ltac bools := repeat match goal with
  | H : _ && _ = true |- _ => apply andb_true_iff in H as [? H]
  | H : negb _ = true |- _ => apply negb_true_iff in H
  | H : (_ =? _) = true |- _ => apply Z.eqb_eq in H
  | H : (_ =? _) = false |- _ => apply Z.eqb_neq in H
  | H : bool_decide _ = true |- _ => apply bool_decide_eq_true in H
  | H : bool_decide _ = false |- _ => apply bool_decide_eq_false in H
  end.

(** An assignment to one of the takers. *)
Lemma taker_progress host_of d id : d ∈ disks m -> dState d = Released -> id ∈ mID <$> List.filter (taker host_of) (members m) ->
  admitted m (Assign m (dID d) id).
Proof.
  intros Hd Es (x & -> & [Hx Ht]%elem_of_lfilter)%list_elem_of_fmap. apply Assign_admitted; try done. by eapply taker_ok.
Qed.

Lemma mark_of_spec host_of d e : mark_of host_of d = Some e -> (dState d = Serving \/ dState d = Releasing) /\ dEmpty d <> e.
Proof.
  unfold mark_of. destruct (List.find _ _) as [held|]; [|done].
  destruct (Z.eqb_spec (dState d) Serving) as [E|E], (Z.eqb_spec (dState d) Releasing) as [E'|E']; simpl; try done;
    (destruct (_ || _) eqn:Eo; [|done]); intros [= <-]; (split; [auto|]); apply orb_true_iff in Eo as [Eo|Eo]; bools; congruence.
Qed.

Lemma nextJournalStep_progress host_of want : want_ok m want -> progress (nextJournalStep m host_of want).
Proof.
  intros Hw. unfold nextJournalStep. apply first_id_progress. repeat apply Forall_cons_2; [..|by apply Forall_nil].
  - apply first_of_progress. intros j Hj Hc. bools. apply eq_None_not_Some in Hc. apply Add_admitted; try done. by apply (wo_journals m want Hw).
  - apply first_of_progress. intros d [Hk Hd]%elem_of_journals Hc. bools. apply Remove_admitted; auto.
  - apply first_of_progress. intros d [Hk Hd]%elem_of_journals Hc. unfold free in Hc. bools. by apply Delete_admitted.
  - apply first_some_progress. intros d [Hk Hd]%elem_of_journals. destruct (mark_of host_of d) as [e|] eqn:E; [|done].
    apply mark_of_spec in E as [? ?]. by apply MarkEmpty_admitted.
  - apply first_of_progress. intros d [Hk Hd]%elem_of_journals Hc. destruct (host_of (dMember d)); [|done]. bools. by apply Release_admitted.
  - apply first_of_progress. intros d [Hk Hd]%elem_of_journals Hc. bools. by apply Reserve_admitted.
  - apply first_some_progress. intros machine _. destruct (existsb _ _) eqn:Ex; [done|]. apply first_of_progress.
    intros d Hin Hc. apply elem_of_journals in Hin as [Hk Hd]. unfold free in Hc. bools. apply Reserve_admitted; try done. intros E.
    apply not_true_iff_false in Ex. apply Ex, existsb_exists. exists d. split; [apply list_elem_of_In; by apply elem_of_journals|by apply bool_decide_eq_true].
  - apply first_some_progress. intros x Hx. apply first_of_progress. intros d [Hk Hd]%elem_of_journals Hc. bools.
    apply (taker_progress host_of); try done. by apply list_elem_of_fmap_2.
  - destruct (mID <$> _) as [|chosen rest] eqn:Et; [done|]. apply first_of_progress. intros d [Hk Hd]%elem_of_journals Hc. bools.
    apply (taker_progress host_of); try done. rewrite Et. apply least_in.
Qed.

Lemma nextShardMove_progress host_of shard_of : progress (nextShardMove m host_of shard_of).
Proof.
  unfold nextShardMove. destruct (mID <$> _) as [|chosen rest] eqn:Et; [done|].
  assert (forall x y, progress x -> progress y -> progress (orelse x y)) as Hor by (by intros [] y).
  apply Hor.
  - apply first_of_progress. intros d [Hd _]%elem_of_lfilter Hc. bools. apply (taker_progress host_of); try done. rewrite Et. apply least_in.
  - destruct (existsb _ _); [done|]. destruct (_ <? _); [done|]. apply first_of_progress. intros d [Hd _]%elem_of_lfilter Hc. bools. by apply Release_admitted.
Qed.

Lemma bool_some {A} (o : option A) : bool_decide (is_Some o) = false -> o = None.
Proof. intros E%bool_decide_eq_false. by apply eq_None_not_Some. Qed.

(** Joining with the disks a new host reports. *)
Lemma reported_joinable want h (f : Disk -> bool) : want_ok m want -> h ∈ wHosts want ->
  (forall d, f d = true -> dKind d = Cache_ /\ forall found, find_disk m (dID d) = Some found -> dState found = Released) ->
  Forall (joinable m) (List.filter f (hDisks h)).
Proof.
  intros Hw Hh Hf. apply Forall_forall. intros d [Hd Hc]%elem_of_lfilter. apply Hf in Hc as [Ek Hc].
  destruct (ho_disks h (wo_hosts m want Hw h Hh) d Hd Ek) as (H1 & H2 & H3 & H4). repeat split; try done; [by apply Hc|].
  apply find_disk_iff in H as [Hin E]; [|done]. by eapply wo_kinds.
Qed.

Lemma weigh_progress id w (cond : bool) : (cond = true -> w <> 0) ->
  cond && match find_disk m id with None => false | Some found => negb (dWeight found =? w) end = true -> admitted m (Weigh m id w).
Proof.
  intros Hw [Hc H]%andb_true_iff. destruct (find_disk m id) as [found|] eqn:E; [|done]. apply find_disk_iff in E as [Hin <-]; [|done].
  bools. apply Weigh_admitted; auto.
Qed.

Lemma Next_progress want : want_ok m want -> progress (Next m want).
Proof.
  intros Hw. unfold Next. destruct (_ && _) eqn:Ec.
  { apply andb_true_iff in Ec as [Ec Ev]. destruct (Validate (wCode want)) eqn:E; [done|]. apply Recode_admitted; try done.
    - apply orb_true_iff in Ec as [Ec|Ec]; bools; auto.
    - by apply (wo_codes m want Hw). }
  clear Ec. apply first_id_progress. repeat apply Forall_cons_2; [..|by apply Forall_nil].
  - apply first_of_progress. intros x Hx [_ Hc]%andb_true_iff. bools. by apply Drain_admitted.
  - apply first_of_progress. intros d Hd [Hc _]%andb_true_iff. bools. by apply Let_admitted.
  - apply first_of_progress. intros d Hd Hc. bools. apply Remove_admitted; auto. by rewrite Hc.
  - apply first_of_progress. intros s Hs Hc%negb_true_iff%bool_some. destruct (wo_shards m want Hw s Hs) as (Ek & H1 & H2 & H3 & H4).
    apply Add_admitted; try done. by rewrite Ek.
  - apply first_of_progress. intros x Hx [Hc Hn]%andb_true_iff. bools. apply Leave_admitted; try done. intros d Hd E.
    apply not_true_iff_false in Hn. apply Hn, existsb_exists. exists d. split; [by apply list_elem_of_In|by apply bool_decide_eq_true].
  - apply first_of_progress. intros h Hh%sortedHosts_in [Hc%negb_true_iff%bool_some _]%andb_true_iff. pose proof (wo_hosts m want Hw h Hh) as [H1 H2 _].
    apply Join_admitted; try done. eapply reported_joinable; try done. intros d Hd. bools. split; [done|]. intros found E. rewrite E in Hd. by bools.
  - apply first_some_progress. intros x Hx. destruct (map_of _ _ _) as [h|] eqn:E; [|done]. destruct (_ && _) eqn:Ec; [|done]. bools.
    apply map_of_in in E as [Hh%sortedHosts_in _]. apply Move_admitted; [done..|congruence|]. by apply (wo_hosts m want Hw h Hh).
  - apply first_of_progress. intros d Hd [Hc _]%andb_true_iff. bools. by apply Serve_admitted.
  - apply first_some_progress. intros h Hh%sortedHosts_in. apply first_of_progress. intros d Hd. apply weigh_progress. intros Hc. bools.
    by apply (ho_disks h (wo_hosts m want Hw h Hh) d Hd).
  - apply first_of_progress. intros s Hs Hc. apply (weigh_progress _ _ true); [|done]. intros _. by apply (wo_shards m want Hw s Hs).
  - by apply nextJournalStep_progress.
  - apply nextShardMove_progress.
Qed.

End Controller.


(** A host of one disk, on a machine, that the second generation of the history
    lists. *)
Definition testHost : Host := mkHost (testID 1) "10.0.0.1:8081" [testDisk 2] 1 "a" false.

Definition testWant (shards : list Shard) : Want := mkWant (code Empty) [] [testHost] shards [] true [] [] 0.

(** A want whose earlier codes repeat its code has [Next] choose a change that is
    refused.  The orchestrator does not start with such codes. *)
Lemma repeated_code_is_refused :
  match Next (testAt 1) (mkWant (mkCode 2 1) [mkCode 2 1] [testHost] [] [] true [] [] 0) with
  | Some change => change (testAt 1) = Err ErrInvalid
  | None => False
  end.
Proof. vm_compute. reflexivity. Qed.

Lemma testAt_valid i : (i < 9)%nat -> valid (testAt i).
Proof. intros Hi. by apply (history_valid testHistory i _ testHistory_ok), testAt_lookup. Qed.

Lemma testWant_ok m l : (forall d, d ∈ disks m -> dKind d = Cache_) -> Forall (fun s => dKind (shDisk s) = Cache_ /\ cache_named (shDisk s)) l -> want_ok m (testWant l).
Proof.
  intros Hm Hl. split; simpl.
  - intros _. by vm_compute.
  - intros h ->%list_elem_of_singleton. split; [done|done|]. by intros d ->%list_elem_of_singleton _.
  - by apply Forall_forall.
  - by intros s ?%elem_of_nil.
  - intros h d e _ _ _ He _. by apply Hm.
Qed.

Lemma testAt_kinds d : d ∈ disks (testAt 1) -> dKind d = Cache_.
Proof. vm_compute. by intros ->%list_elem_of_singleton. Qed.


End MembershipProgress.
