(* ===== verification/MembershipPass.v ===== *)
(** * A controller's pass

    [membership/shardcontrol.go] and the calls of the cloud in
    [membership/journals.go]: a pass reads the membership, asks the cloud where the
    disks are, takes one step and asks the cloud for what the membership it leaves
    calls for.  The cloud is [platform.NetworkDisks], by its documented contract,
    and any of its calls may fail.  What a pass reports of a cloud that does not
    fail is only a disk it could not delete because it is still attached; none of
    the calls it makes to move a disk is refused, and they leave every disk on the
    machine the membership calls for. *)

From S2P Require Import Prelude Bytes Order ControlRecord ControlClient Rank Membership MembershipSteps MembershipFormat MembershipStore MembershipController MembershipProgress.

Module MembershipPass.
Import Rank Membership MembershipSteps MembershipFormat MembershipStore MembershipController MembershipProgress.

(** ** What the cloud says *)

(** [platform.NetworkDisk] and [platform.ListedDisk], the fields the controller
    reads. *)
Record NetworkDisk := mkNetworkDisk { ndBytes : Z; ndMachines : list string }.
Record ListedDisk := mkListedDisk { ldName : string; ldMachines : list string }.

(** The answers a pass gets: [Describe] of a volume and [List] of the deployment's
    label, where they do not fail, and the time. *)
Record Answers := mkAnswers { anDescribe : string -> option NetworkDisk; anList : option (list ListedDisk); anNow : Z }.

(** [ShardControl.Describe] *)
Definition Describe (volumes : list string) (a : Answers) (m : Membership) : list Shard :=
  omap (fun volume =>
    let disk weight := mkDisk (ShardIdentity volume) volume weight zeroIdentity 0 0 Cache_ EmptyString false in
    match anDescribe a volume with
    | Some described => Some (mkShard (disk (Weight (ndBytes described))) (ndMachines described) true)
    | None =>
      match find_disk m (ShardIdentity volume) with
      | None => None
      | Some listed => Some (mkShard (disk (dWeight listed)) [] false)
      end
    end) volumes.

(** [JournalControl.Describe] *)
Definition DescribeJournals (a : Answers) : list Shard * bool :=
  match anList a with
  | None => ([], false)
  | Some listed =>
    ((fun d => mkShard (mkDisk (JournalIdentity (ldName d)) (ldName d) 0 zeroIdentity 0 0 Journal EmptyString false) (ldMachines d) true) <$> listed, true)
  end.

(** ** What a pass asks *)

Inductive Call :=
| CDelete (volume : string)
| CCreate (name : string)
| CMove (a : Action).

#[export] Instance Action_eq_dec : EqDecision Action.
Proof. solve_decision. Defined.

#[export] Instance Call_eq_dec : EqDecision Call.
Proof. solve_decision. Defined.

Definition hexDigit (n : Z) : byte := Zbyte (if n <? 10 then 48 + n else 87 + n).

(** [hex.EncodeToString] *)
Definition hexString (l : list byte) : string :=
  String.string_of_list_byte (concat ((fun b => [hexDigit (byteZ b / 16); hexDigit (byteZ b mod 16)]) <$> l)).

(** The name [JournalControl.Create] draws. *)
Definition journalName (random : list byte) : string := String.append "sproutfs-journal-" (hexString random).

(** [JournalControl], the part of it a pass keeps: since when each disk is idle. *)
Record JournalControl := mkJournalControl { jcExpiry : Z; jcFreeSince : Identity -> option Z }.

Definition with_cloud (want : Want) (shards journals : list Shard) (known : bool) (expired : list Identity) (after : Z) : Want :=
  mkWant (wCode want) (wEarlier want) (wHosts want) shards journals known (wPool want) expired after.

(** The first part of [ShardControl.Pass]: what the cloud says, added to what is
    wanted of the membership read. *)
Definition passWant (volumes : list string) (control : option JournalControl) (a : Answers) (current : Membership) (want : Want) :
    Want * option JournalControl :=
  let shards := Describe volumes a current in
  match control with
  | None => (with_cloud want shards (wJournals want) (wJournalsKnown want) (wExpired want) (wJournalsAfter want), None)
  | Some c =>
    let '(journals, known) := DescribeJournals a in
    let '(since, expired) := Expired (jcFreeSince c) (jcExpiry c) (anNow a) current in
    (with_cloud want shards journals known expired (generation current), Some (mkJournalControl (jcExpiry c) since))
  end.

(** Its last part: what it asks of the cloud over the membership it leaves, and
    whether that is anything. *)
Definition passCalls (next : Membership) (changed : bool) (want : Want) (control : option JournalControl) (random : list byte)
  : bool * list Call :=
  let journalled := match control with Some _ => wJournalsKnown want | None => false end in
  let deletes := if journalled then CDelete <$> deleted_volumes next (wJournals want) else [] in
  let creates := if journalled && negb (bool_decide (NeedsJournal next want = [])) then [CCreate (journalName random)] else [] in
  let actions := Carry next want in
  (changed || negb (bool_decide (zlen creates = 0)) || negb (bool_decide (zlen actions = 0)),
   deletes ++ creates ++ (CMove <$> actions)).

(** ** The cloud *)

(** The disks the cloud has, and the machines each is attached to. *)
Abbreviation Cloud := (gmap string (list string)).

(** The errors of [platform], and any other. *)
Inductive cerror := CErrNotFound | CErrInUse | CErrAlreadyExists | CErrOther.

(** [NetworkDisks.Attach] and [Detach] on one disk: nothing to do where the disk is
    already there; attaching a disk attached to another machine is refused, as is any
    call on a disk the cloud does not have. *)
Definition move (machines : option (list string)) (a : Action) : option (list string) * option cerror :=
  match machines with
  | None => (None, Some CErrNotFound)
  | Some l =>
    if aAttach a then
      if bool_decide (aMachine a ∈ l) then (Some l, None)
      else if bool_decide (l = []) then (Some [aMachine a], None) else (Some l, Some CErrInUse)
    else (Some (filter (fun x => x <> aMachine a) l), None)
  end.

(** [NetworkDisks] on one disk: a disk that is attached is not deleted, and one that
    is there is not created. *)
Definition ask (machines : option (list string)) (call : Call) : option (list string) * option cerror :=
  match call with
  | CDelete _ =>
    match machines with
    | None => (None, Some CErrNotFound)
    | Some l => if bool_decide (l = []) then (None, None) else (Some l, Some CErrInUse)
    end
  | CCreate _ => match machines with None => (Some [], None) | Some l => (Some l, Some CErrAlreadyExists) end
  | CMove a => move machines a
  end.

Definition callVolume (call : Call) : string :=
  match call with CDelete v => v | CCreate v => v | CMove a => aVolume a end.

(** A disk that is already gone is no failed delete. *)
Definition reports (call : Call) (e : cerror) : bool :=
  match call, e with CDelete _, CErrNotFound => false | _, _ => true end.

Definition report (call : Call) (e : option cerror) : list (Call * cerror) :=
  match e with Some e => if reports call e then [(call, e)] else [] | None => [] end.

(** The calls in order, and what failed of them.  [outage] says which call fails for
    a reason of the cloud's own, and with what; such a call does nothing. *)
Fixpoint carryOut (outage : nat -> option cerror) (k : nat) (c : Cloud) (l : list Call) : Cloud * list (Call * cerror) :=
  match l with
  | [] => (c, [])
  | call :: l =>
    let '(machines, e) :=
      match outage k with Some e => (c !! callVolume call, Some e) | None => ask (c !! callVolume call) call end in
    let '(c, failed) := carryOut outage (S k) (partial_alter (fun _ => machines) (callVolume call) c) l in
    (c, report call e ++ failed)
  end.

(** What a pass returns: the membership, whether it changed it or asked anything,
    and the failed calls, whose errors are joined, with the calls it made and what
    it leaves in the cloud. *)
Record passed := mkPassed {
  pMembership : Membership;
  pChanged : bool;
  pFailed : list (Call * cerror);
  pCalls : list Call;
  pCloud : Cloud;
  pJournals : option JournalControl;
}.

Definition passEnd (outage : nat -> option cerror) (c : Cloud) (next : Membership) (changed : bool) (want : Want)
    (control : option JournalControl) (random : list byte) : passed :=
  let '(changed, calls) := passCalls next changed want control random in
  let '(c, failed) := carryOut outage 0 c calls in
  mkPassed next changed failed calls c control.

(** [ShardControl.Pass] over the cloud [c]; [random] is what [Create] draws, and
    [fuel] bounds the attempts of the update. *)
Definition Pass {W} `{MWire W} (fuel : nat) (volumes : list string) (control : option JournalControl) (a : Answers) (random : list byte)
    (outage : nat -> option cerror) (c : Cloud) (want : Want) : prog W (result uerror passed) :=
  do r <- Read;
  match r with
  | Err e => Ret (Err e)
  | Ok current =>
    let '(want, control) := passWant volumes control a current want in
    do u <- Reconcile fuel want;
    match u with
    | Failed e => Ret (Err e)
    | Wrote next => Ret (Ok (passEnd outage c next true want control random))
    | Unchanged next => Ret (Ok (passEnd outage c next false want control random))
    end
  end.

(** The calls over a cloud that does not fail. *)
Fixpoint perform (c : Cloud) (l : list Call) : Cloud * list (Call * cerror) :=
  match l with
  | [] => (c, [])
  | call :: l =>
    let '(machines, e) := ask (c !! callVolume call) call in
    let '(c, failed) := perform (partial_alter (fun _ => machines) (callVolume call) c) l in
    (c, report call e ++ failed)
  end.

Lemma carryOut_perform outage l : (forall k, outage k = None) -> forall k c, carryOut outage k c l = perform c l.
Proof. intros Ho. induction l as [|call l IH]; intros k c; [done|]. simpl. rewrite Ho. destruct (ask _ _). by rewrite IH. Qed.

(** Where each disk is to be: [Carry]'s loop over the shards and the journals. *)
Definition places (m : Membership) (want : Want) : list (Shard * (string * bool)) :=
  let host_of := map_of hID (wHosts want) in
  ((fun s => (s, carryShard m host_of s)) <$> sort_by (by_key shID) (wShards want)) ++
  ((fun s => (s, carryJournal m want host_of s)) <$> sort_by (by_key shID) (wJournals want)).

Definition volume (p : Shard * (string * bool)) : string := dVolume (shDisk p.1).

(** The disks are where the cloud said they are. *)
Definition described (c : Cloud) (s : Shard) : Prop :=
  shKnown s = true -> c !! dVolume (shDisk s) = Some (shMachines s) /\ NoDup (shMachines s) /\ EmptyString ∉ shMachines s.

Definition calledFor (c : Cloud) (p : Shard * (string * bool)) : option (list string) :=
  let '(s, (target, keep)) := p in
  if negb (shKnown s) || keep then c !! dVolume (shDisk s)
  else Some (if bool_decide (target = EmptyString) then [] else [target]).

Lemma Carry_places m want : Carry m want =
  concat ((fun p => (carried p.1 p.2).1) <$> places m want) ++ concat ((fun p => (carried p.1 p.2).2) <$> places m want).
Proof. unfold Carry, places. rewrite !fmap_app, <- !list_fmap_compose. reflexivity. Qed.

Definition on (v : string) (a : Action) : Prop := aVolume a = v.
#[local] Instance on_dec v a : Decision (on v a) := decide (aVolume a = v).

Definition about_ (v : string) (call : Call) : Prop := callVolume call = v.
#[local] Instance about_dec v call : Decision (about_ v call) := decide (callVolume call = v).

(** The calls on one disk. *)
Fixpoint moves (machines : option (list string)) (l : list Call) : option (list string) * list (Call * cerror) :=
  match l with
  | [] => (machines, [])
  | call :: l =>
    let '(machines, e) := ask machines call in
    let '(machines, failed) := moves machines l in (machines, report call e ++ failed)
  end.

Lemma filter_report v call e : filter (fun x => about_ v x.1) (report call e) = if decide (about_ v call) then report call e else [].
Proof. unfold report. destruct e as [e|]; [destruct (reports call e)|]; try (by destruct (decide _)). rewrite filter_cons. by destruct (decide _). Qed.

Lemma perform_on v l : forall c, ((perform c l).1 !! v, filter (fun x => about_ v x.1) (perform c l).2) = moves (c !! v) (filter (about_ v) l).
Proof.
  induction l as [|a l IH]; intros c; [done|]. simpl. destruct (ask (c !! callVolume a) a) as [machines e] eqn:Em.
  specialize (IH (partial_alter (fun _ => machines) (callVolume a) c)). destruct (perform _ l) as [c' failed]. simpl in *.
  rewrite filter_app, filter_report, filter_cons. destruct (decide (about_ v a)) as [<-|E].
  - simpl. rewrite Em. rewrite lookup_partial_alter_eq in IH. destruct (moves machines _) as [x y]. by injection IH as <- <-.
  - rewrite lookup_partial_alter_ne in IH by done. by rewrite <- IH.
Qed.

Lemma filter_moves v (l : list Action) : filter (about_ v) (CMove <$> l) = CMove <$> filter (on v) l.
Proof.
  induction l as [|a l IH]; [done|]. rewrite fmap_cons, !filter_cons, IH. unfold about_, on. simpl.
  by destruct (decide (aVolume a = v)).
Qed.

(** The calls on the volume of one disk are those of that disk. *)
Lemma filter_places (f : Shard * (string * bool) -> list Action) l p : NoDup (volume <$> l) -> p ∈ l ->
  (forall q a, a ∈ f q -> aVolume a = volume q) -> filter (on (volume p)) (concat (f <$> l)) = f p.
Proof.
  intros Hn Hp Hf. assert (forall q, volume q = volume p -> filter (on (volume p)) (f q) = f q) as Hall.
  { intros q E. apply filter_all. intros a Ha. unfold on. by rewrite (Hf q a Ha). }
  assert (forall q, volume q <> volume p -> filter (on (volume p)) (f q) = []) as Hnone.
  { intros q E. apply elem_of_nil_inv. intros a [Ho Ha]%list_elem_of_filter. unfold on in Ho. by rewrite (Hf q a Ha) in Ho. }
  induction l as [|q l IH]; [by apply elem_of_nil in Hp|]. rewrite fmap_cons. cbn [concat]. rewrite filter_app. cbn [fmap list_fmap] in Hn.
  apply NoDup_cons in Hn as [Hq Hn]. apply elem_of_cons in Hp as [->|Hp].
  - rewrite Hall by done. assert (filter (on (volume q)) (concat (f <$> l)) = []) as ->; [clear IH|by rewrite app_nil_r].
    induction l as [|x l IH]; [done|]. rewrite fmap_cons. cbn [concat]. rewrite filter_app. cbn [fmap list_fmap] in Hn, Hq. apply NoDup_cons in Hn as [_ Hn].
    apply not_elem_of_cons in Hq as [Hx Hq]. rewrite Hnone by done. by apply IH.
  - rewrite Hnone, IH; [done..|]. intros E. apply Hq. rewrite E. by apply list_elem_of_fmap_2.
Qed.

Lemma carried_volume s place a : a ∈ (carried s place).1 \/ a ∈ (carried s place).2 -> aVolume a = dVolume (shDisk s).
Proof.
  destruct place as [target keep]. unfold carried. destruct (_ || keep); [intros [H|H]; by apply elem_of_nil in H|]. simpl. intros [H|H].
  - apply list_elem_of_omap in H as (x & _ & E). by destruct (bool_decide _); simplify_eq.
  - destruct (_ && _); [|by apply elem_of_nil in H]. by apply list_elem_of_singleton in H as ->.
Qed.

Lemma Carry_on m want p : NoDup (volume <$> places m want) -> p ∈ places m want ->
  filter (on (volume p)) (Carry m want) = (carried p.1 p.2).1 ++ (carried p.1 p.2).2.
Proof.
  intros Hn Hp. rewrite Carry_places, filter_app. rewrite !filter_places; try done; intros q a Ha; apply (carried_volume q.1 q.2); auto.
Qed.

(** Detaching a disk from every machine but one. *)
Lemma detach_all v target l : forall rest, NoDup rest -> exists r, NoDup r /\ (forall x, x ∈ r <-> x ∈ rest /\ (x ∈ l -> x = target)) /\
  moves (Some rest) (CMove <$> omap (fun x => if bool_decide (x = target) then None else Some (mkAction v x false)) l) = (Some r, []).
Proof.
  induction l as [|y l IH]; intros rest Hn.
  { exists rest. split_and!; try done. intros x. split; [|by intros []]. intros Hx. split; [done|]. by intros ?%elem_of_nil. }
  cbn [omap list_omap]. destruct (bool_decide_reflect (y = target)) as [->|Hy].
  - destruct (IH rest Hn) as (r & Hr & Hin & E). exists r. split_and!; try done. intros x. rewrite Hin. set_solver.
  - destruct (IH (filter (fun x => x <> y) rest)) as (r & Hr & Hin & E); [by apply NoDup_filter|]. exists r. split_and!; try done.
    + intros x. rewrite Hin, list_elem_of_filter. set_solver.
    + cbn [fmap list_fmap] in *. simpl. by rewrite E.
Qed.

Lemma moves_app l1 l2 o : moves o (l1 ++ l2) = let '(o, r1) := moves o l1 in let '(o, r2) := moves o l2 in (o, r1 ++ r2).
Proof.
  revert o. induction l1 as [|a l1 IH]; intros o; simpl; [by destruct (moves o l2)|]. destruct (ask o a) as [o' e]. rewrite IH.
  destruct (moves o' l1) as [o1 r1], (moves o1 l2) as [o2 r2]. by rewrite (assoc_L (++)).
Qed.

Lemma only_element {A} (r : list A) x : NoDup r -> (forall y, y ∈ r -> y = x) -> r = [] \/ r = [x].
Proof.
  intros Hn Hr. destruct r as [|a [|b r]]; [by left|right; by rewrite (Hr a (list_elem_of_here _ _))|].
  apply NoDup_cons in Hn as [Hn _]. destruct Hn. rewrite (Hr a (list_elem_of_here _ _)), <- (Hr b); [left|right; left].
Qed.

(** One disk's calls put it where it is called for, and none is refused. *)
Lemma moves_carried c p : described c p.1 ->
  moves (c !! volume p) (CMove <$> (carried p.1 p.2).1 ++ (carried p.1 p.2).2) = (calledFor c p, []).
Proof.
  destruct p as [s [target keep]]. unfold described, volume. simpl. intros Hd. unfold carried. destruct (shKnown s), keep; simpl; try done.
  destruct (Hd eq_refl) as (-> & Hn & He). rewrite fmap_app, moves_app.
  destruct (detach_all (dVolume (shDisk s)) target (shMachines s) (shMachines s) Hn) as (r & Hr & Hin & ->).
  pose proof (only_element r target Hr ltac:(intros y [??]%Hin; auto)) as Hor. unfold contains.
  destruct (bool_decide_reflect (target = EmptyString)) as [->|Ht]; simpl.
  { destruct Hor as [->| ->]; [done|]. destruct He. apply (Hin EmptyString). by left. }
  destruct (bool_decide_reflect (target ∈ shMachines s)) as [Hm|Hm]; simpl.
  - destruct Hor as [->| ->]; [|done]. destruct (not_elem_of_nil target). by apply Hin.
  - destruct Hor as [->| ->]; [|destruct Hm; apply (Hin target); by left]. by rewrite bool_decide_eq_false_2 by apply not_elem_of_nil.
Qed.

Lemma failed_in l : forall c x, x ∈ (perform c l).2 -> x.1 ∈ l.
Proof.
  induction l as [|b l IH]; intros c x; simpl; [by intros ?%elem_of_nil|]. destruct (ask _ _) as [y e].
  specialize (IH (partial_alter (fun _ => y) (callVolume b) c) x). destruct (perform _ l) as [c' r]. simpl in *.
  rewrite elem_of_app. intros [Hx|Hx]; [|right; auto]. unfold report in Hx. destruct e as [e|]; [|by apply elem_of_nil in Hx].
  destruct (reports b e); [|by apply elem_of_nil in Hx]. apply list_elem_of_singleton in Hx as ->. left.
Qed.

Lemma Carry_in m want a : a ∈ Carry m want -> exists p, p ∈ places m want /\ aVolume a = volume p.
Proof.
  rewrite Carry_places, elem_of_app, !list_elem_of_In, !in_concat. intros [(l & Hl & Ha)|(l & Hl & Ha)];
    apply list_elem_of_In, list_elem_of_fmap in Hl as (p & -> & Hp); exists p; (split; [done|]); apply (carried_volume p.1 p.2);
    rewrite <- list_elem_of_In in Ha; auto.
Qed.

(** ** The calls of a pass *)

(** A disk a pass deletes is one of the journals it was told of, called for nowhere. *)
Lemma deleted_place m want v : v ∈ deleted_volumes m (wJournals want) ->
  exists j, v = dVolume (shDisk j) /\ (j, (EmptyString, false)) ∈ places m want.
Proof.
  unfold deleted_volumes. rewrite list_elem_of_omap. intros (j & Hj & E). exists j.
  destruct (find_disk m (shID j)) as [d|] eqn:Ed; [|done]. destruct (dState d =? Deleting) eqn:Es; [|done]. injection E as <-. split; [done|].
  unfold places. apply elem_of_app. right. apply list_elem_of_fmap. exists j. split; [|by rewrite sort_by_perm]. f_equal.
  unfold carryJournal. rewrite Ed. zbool. by rewrite Es.
Qed.

Lemma deleted_NoDup m want : NoDup (volume <$> places m want) -> NoDup (deleted_volumes m (wJournals want)).
Proof.
  unfold places. rewrite fmap_app, <- !list_fmap_compose. intros [_ [_ Hn]]%NoDup_app.
  rewrite sort_by_perm in Hn. assert (NoDup ((fun s => dVolume (shDisk s)) <$> wJournals want)) as Hj by exact Hn.
  clear Hn. unfold deleted_volumes. induction (wJournals want) as [|s l IH]; simpl in *; [constructor|].
  apply NoDup_cons in Hj as [Hs Hj]. specialize (IH Hj).
  destruct (find_disk m (shID s)) as [d|]; [|done]. destruct (_ =? _); [|done]. apply NoDup_cons. split; [|done].
  rewrite list_elem_of_omap. intros (x & Hx & E). apply Hs. destruct (find_disk m (shID x)); [|done].
  destruct (_ =? _); [|done]. injection E as E. rewrite <- E. by apply (list_elem_of_fmap_2 (fun s => dVolume (shDisk s))).
Qed.

Lemma places_inj m want p q : NoDup (volume <$> places m want) -> p ∈ places m want -> q ∈ places m want -> volume p = volume q -> p = q.
Proof.
  intros Hn [i Hi]%list_elem_of_lookup [j Hj]%list_elem_of_lookup E.
  assert (i = j) as ->; [|congruence]. eapply NoDup_lookup; [exact Hn|..]; rewrite list_lookup_fmap; [by rewrite Hi|rewrite Hj; simpl; by rewrite E].
Qed.

Section Calls.
Variables (m : Membership) (want : Want) (control : option JournalControl) (random : list byte) (changed : bool) (c : Cloud).
Hypothesis places_nodup : NoDup (volume <$> places m want).
Hypothesis places_described : forall p, p ∈ places m want -> described c p.1.
Hypothesis name_fresh : c !! journalName random = None /\ journalName random ∉ volume <$> places m want.

Let calls := (passCalls m changed want control random).2.

Lemma calls_in call : call ∈ calls ->
  (exists p, p ∈ places m want /\ callVolume call = volume p /\ match call with CCreate _ => False | _ => True end) \/ call = CCreate (journalName random).
Proof.
  unfold calls, passCalls. cbn [snd]. rewrite !elem_of_app. intros [H|[H|H]].
  - destruct (match control with Some _ => _ | None => _ end); [|by apply elem_of_nil in H].
    apply list_elem_of_fmap in H as (v & -> & Hv). left. destruct (deleted_place m want v Hv) as (j & -> & Hj). by eexists.
  - right. destruct (_ && _); [|by apply elem_of_nil in H]. by apply list_elem_of_singleton in H.
  - apply list_elem_of_fmap in H as (a & -> & Ha). left. destruct (Carry_in m want a Ha) as (p & ? & ?). by exists p.
Qed.

Lemma calls_on p : p ∈ places m want ->
  filter (about_ (volume p)) calls =
    (if bool_decide (CDelete (volume p) ∈ calls) then [CDelete (volume p)] else []) ++ (CMove <$> (carried p.1 p.2).1 ++ (carried p.1 p.2).2).
Proof.
  intros Hp. assert (forall l, filter (about_ (volume p)) (if l : bool then [CCreate (journalName random)] else []) = []) as Hcreate.
  { intros []; [|done]. rewrite filter_cons_False; [done|]. unfold about_. simpl. intros E. destruct name_fresh as [_ Hf]. apply Hf.
    rewrite E. by apply list_elem_of_fmap_2. }
  assert (CDelete (volume p) ∈ calls <-> match control with Some _ => wJournalsKnown want | None => false end = true /\
    volume p ∈ deleted_volumes m (wJournals want)) as Hdel.
  { unfold calls, passCalls. cbn [snd]. rewrite !elem_of_app. destruct (match control with Some _ => _ | None => _ end); cbn [andb].
    - split; [intros [H|[H|H]]|intros [_ ?]; left; by apply list_elem_of_fmap_2].
      + apply list_elem_of_fmap in H as (v & [= <-] & ?). done.
      + destruct (negb _); [by apply list_elem_of_singleton in H|by apply elem_of_nil in H].
      + by apply list_elem_of_fmap in H as (? & ? & _).
    - split; [|by intros []]. intros [H|[H|H]]; [by apply elem_of_nil in H|by apply elem_of_nil in H|by apply list_elem_of_fmap in H as (? & ? & _)]. }
  rewrite (bool_decide_ext _ _ Hdel). unfold calls, passCalls. cbn [snd]. rewrite !filter_app, Hcreate, filter_moves, Carry_on by done.
  cbn [app]. f_equal. destruct (match control with Some _ => _ | None => _ end); [|by rewrite bool_decide_eq_false_2 by (by intros [])].
  pose proof (deleted_NoDup m want places_nodup) as Hn. clear Hdel Hcreate.
  induction (deleted_volumes m (wJournals want)) as [|v l IH]; [by rewrite bool_decide_eq_false_2 by (intros [_ ?%elem_of_nil]; done)|].
  apply NoDup_cons in Hn as [Hv Hn]. rewrite fmap_cons, filter_cons, IH by done. unfold about_ at 1. simpl.
  destruct (decide (v = volume p)) as [->|Hne].
  - rewrite bool_decide_eq_false_2 by (by intros []). by rewrite bool_decide_eq_true_2 by (split; [done|left]).
  - erewrite (bool_decide_ext (true = true /\ volume p ∈ l)); [done|]. rewrite elem_of_cons. naive_solver.
Qed.

(** What the calls of a pass leave of a disk it was told of: gone if it was to be
    deleted and attached nowhere, and otherwise where it is called for.  A disk to be
    deleted that is attached is reported. *)
Lemma calls_place p : p ∈ places m want ->
  moves (c !! volume p) (filter (about_ (volume p)) calls) =
    (if bool_decide (CDelete (volume p) ∈ calls /\ c !! volume p = Some []) then None else calledFor c p,
     if bool_decide (CDelete (volume p) ∈ calls /\ c !! volume p <> None /\ c !! volume p <> Some [])
     then [(CDelete (volume p), CErrInUse)] else []).
Proof.
  intros Hp. pose proof (moves_carried c p (places_described p Hp)) as Hmv. rewrite calls_on by done.
  destruct (bool_decide_reflect (CDelete (volume p) ∈ calls)) as [Hd|Hd].
  2: { cbn [app]. rewrite Hmv. by rewrite !bool_decide_eq_false_2 by (by intros []). }
  assert (p.2 = (EmptyString, false)) as Hplace.
  { assert (volume p ∈ deleted_volumes m (wJournals want)) as Hv.
    { unfold calls, passCalls in Hd. cbn [snd] in Hd. rewrite !elem_of_app in Hd. destruct Hd as [Hd|[Hd|Hd]].
      - destruct (match control with Some _ => _ | None => _ end); [|by apply elem_of_nil in Hd]. by apply list_elem_of_fmap in Hd as (? & [= ->] & ?).
      - destruct (_ && _); [by apply list_elem_of_singleton in Hd|by apply elem_of_nil in Hd].
      - by apply list_elem_of_fmap in Hd as (? & ? & _). }
    destruct (deleted_place m want _ Hv) as (j & Ej & Hj).
    by rewrite (places_inj m want p (j, (EmptyString, false)) places_nodup Hp Hj Ej). }
  cbn [app moves ask]. destruct (c !! volume p) as [l|] eqn:Ec.
  - destruct (bool_decide_reflect (l = [])) as [->|Hl]; cbn [report].
    + rewrite bool_decide_eq_true_2 by done. rewrite bool_decide_eq_false_2 by (by intros (_ & _ & [])).
      assert ((carried p.1 p.2).1 ++ (carried p.1 p.2).2 = []) as ->; [|done].
      destruct p as [s place]. cbn [fst snd] in *. subst place. unfold carried. destruct (shKnown s) eqn:Ek; [|done].
      destruct (places_described _ Hp Ek) as (Hm & _). cbn [fst] in Hm. unfold volume in Ec. cbn [fst] in Ec. rewrite Ec in Hm. by injection Hm as <-.
    + rewrite Hmv. rewrite bool_decide_eq_false_2 by (intros [_ [= ?]]; done). rewrite bool_decide_eq_true_2; [done|].
      split_and!; [done|done|]. intros [= ?]. done.
  - rewrite Hmv. by rewrite !bool_decide_eq_false_2 by naive_solver.
Qed.

(** No other call is about the disk a pass creates. *)
Lemma calls_created :
  filter (about_ (journalName random)) calls = [] \/ filter (about_ (journalName random)) calls = [CCreate (journalName random)].
Proof.
  destruct name_fresh as [_ Hv].
  assert (forall l, (forall call, call ∈ l -> exists p, p ∈ places m want /\ callVolume call = volume p) ->
    filter (about_ (journalName random)) l = []) as Hnone.
  { intros l Hl. apply elem_of_nil_inv. intros call [Ha Hin]%list_elem_of_filter. destruct (Hl call Hin) as (p & Hp & E).
    apply Hv. unfold about_ in Ha. rewrite <- Ha, E. by apply list_elem_of_fmap_2. }
  assert (filter (about_ (journalName random)) (CMove <$> Carry m want) = []) as Hmoves.
  { apply Hnone. intros call (a & -> & Ha)%list_elem_of_fmap. by apply Carry_in. }
  assert (filter (about_ (journalName random)) (CDelete <$> deleted_volumes m (wJournals want)) = []) as Hdeletes.
  { apply Hnone. intros call (v & -> & Hx)%list_elem_of_fmap. destruct (deleted_place m want v Hx) as (j & -> & Hj). by eexists. }
  unfold calls, passCalls. cbn [snd]. rewrite !filter_app, Hmoves, app_nil_r.
  destruct (match control with Some _ => _ | None => _ end); [rewrite Hdeletes|by left]. cbn [app andb].
  destruct (negb _); [right|by left]. by rewrite filter_cons_True.
Qed.

Lemma perform_calls :
  (forall p, p ∈ places m want -> (perform c calls).1 !! volume p =
     if bool_decide (CDelete (volume p) ∈ calls /\ c !! volume p = Some []) then None else calledFor c p) /\
  forall call e, (call, e) ∈ (perform c calls).2 ->
    exists v l, call = CDelete v /\ e = CErrInUse /\ c !! v = Some l /\ l <> [].
Proof.
  assert (forall p, p ∈ places m want -> ((perform c calls).1 !! volume p, filter (fun x => about_ (volume p) x.1) (perform c calls).2) =
    moves (c !! volume p) (filter (about_ (volume p)) calls)) as Hon by (intros p _; apply perform_on).
  split; [intros p Hp; specialize (Hon p Hp); rewrite calls_place in Hon by done; congruence|].
  intros call e Hin. destruct (calls_in call (failed_in _ _ _ Hin)) as [(p & Hp & Ev & _)| ->].
  - specialize (Hon p Hp). rewrite calls_place in Hon by done. injection Hon as _ Hf.
    assert ((call, e) ∈ filter (fun x => about_ (volume p) x.1) (perform c calls).2) as Hx by (apply list_elem_of_filter; done).
    rewrite Hf in Hx. destruct (bool_decide_reflect (CDelete (volume p) ∈ calls /\ c !! volume p <> None /\ c !! volume p <> Some [])) as [(_ & Hs & Hl)|];
      [|by apply elem_of_nil in Hx]. apply list_elem_of_singleton in Hx as [= -> ->].
    destruct (c !! volume p) as [l|] eqn:Ec; [|done]. exists (volume p), l. split_and!; try done. congruence.
  - exfalso. destruct name_fresh as [Hn Hv]. pose proof (perform_on (journalName random) calls c) as Hx. rewrite Hn in Hx.
    pose proof calls_created as Hone.
    assert ((CCreate (journalName random), e) ∈ filter (fun x => about_ (journalName random) x.1) (perform c calls).2) as Hy by (apply list_elem_of_filter; done).
    destruct Hone as [E|E]; rewrite E in Hx; injection Hx as _ Hf; rewrite Hf in Hy; by apply elem_of_nil in Hy.
Qed.

End Calls.

(** ** A pass alone *)

(** C16: A pass alone takes its step and carries it out.  Over a store that answers
    and holds a valid list, with what is wanted well formed and the change [Next] chose
    small enough to store, a pass ends its update without an error, whatever the cloud
    does.  Where [Next] has nothing left to do the object is left as it was; otherwise
    the object holds the change [Next] chose, which is a step from the list read.  Over
    a cloud that does not fail, holds the disks where it described them and has no disk
    of the name drawn, the only calls the pass reports failed are deletes of disks that
    are still attached, which its own detaches free for the next pass.  None of its
    calls to move a disk is refused, and they leave every disk where the membership it
    returns calls for; a disk to delete that was attached nowhere is gone. *)
Theorem lone_pass_takes_a_step {W} `{MWireLaws W} fuel volumes control a random outage c want obj cur n tag :
  holds_membership obj cur -> valid cur -> in_range cur -> (forall d, d ∈ disks cur -> 0 <= dKind d) -> zlen n = nonceSize -> tag <> EmptyString ->
  let want' := (passWant volumes control a cur want).1 in
  want_ok cur want' ->
  (forall change m, Next cur want' = Some change -> change cur = Ok m -> exists data, Marshal (W := W) (with_nonce m n) = Ok data) ->
  exists p obj', run (Pass (S fuel) volumes control a random outage c want) n tag obj = (Some (Ok p), obj') /\
    match Next cur want' with
    | None => pMembership p = cur /\ obj' = obj
    | Some change => exists m data, change cur = Ok m /\ Step cur m = None /\ pMembership p = with_nonce m n /\
        Marshal (with_nonce m n) = Ok data /\ obj' = Some (data, tag)
    end /\
    ((forall k, outage k = None) -> NoDup (volume <$> places (pMembership p) want') ->
     (forall q, q ∈ places (pMembership p) want' -> described c q.1) ->
     c !! journalName random = None /\ journalName random ∉ volume <$> places (pMembership p) want' ->
     (forall call e, (call, e) ∈ pFailed p -> exists v l, call = CDelete v /\ e = CErrInUse /\ c !! v = Some l /\ l <> []) /\
     forall q, q ∈ places (pMembership p) want' -> pCloud p !! volume q =
       if bool_decide (CDelete (volume q) ∈ pCalls p /\ c !! volume q = Some []) then None else calledFor c q).
Proof.
  intros Hobj Hv Hr Hk Hn Ht want' Hw Hfit. unfold Pass, Read. rewrite (run_bind (bind read _)), (run_read _ n tag obj cur) by done. cbn [run].
  subst want'. destruct (passWant volumes control a cur want) as [want' control']. cbn [fst] in *.
  rewrite run_bind. unfold Reconcile. pose proof (run_Update fuel (Reconcile_change want') obj cur n tag Hobj Hn Ht) as Hrun.
  pose proof (Next_progress cur Hv Hr Hk want' Hw) as Hp. unfold Reconcile_change at 1 in Hrun.
  assert (forall next changed, let p := passEnd outage c next changed want' control' random in pMembership p = next /\
    ((forall k, outage k = None) -> NoDup (volume <$> places next want') -> (forall q, q ∈ places next want' -> described c q.1) ->
     c !! journalName random = None /\ journalName random ∉ volume <$> places next want' ->
     (forall call e, (call, e) ∈ pFailed p -> exists v l, call = CDelete v /\ e = CErrInUse /\ c !! v = Some l /\ l <> []) /\
     forall q, q ∈ places next want' -> pCloud p !! volume q =
       if bool_decide (CDelete (volume q) ∈ pCalls p /\ c !! volume q = Some []) then None else calledFor c q)) as Hend.
  { intros next changed. unfold passEnd. cbv zeta. pose proof (perform_calls next want' control' random changed c) as Hc.
    destruct (passCalls next changed want' control' random) as [changed' calls]. cbn [snd] in Hc.
    destruct (carryOut outage 0 c calls) as [c' failed] eqn:Eo. cbn [pMembership pFailed pCloud pCalls]. split; [done|].
    intros Hout Hnd Hd Hf. rewrite carryOut_perform in Eo by done. destruct (Hc Hnd Hd Hf) as [H1 H2].
    rewrite Eo in H1, H2. by split. }
  destruct (Next cur want') as [change|].
  - destruct Hp as (m & Em & Es). rewrite Em, Es in Hrun. destruct (Hfit change m eq_refl Em) as [data Ed]. rewrite Ed in Hrun. destruct Hrun as [-> _].
    cbn [run]. do 2 eexists. split; [reflexivity|]. destruct (Hend (with_nonce m n) true) as [-> He]. split; [by exists m, data|exact He].
  - rewrite Hrun. cbn [run]. do 2 eexists. split; [reflexivity|]. destruct (Hend cur false) as [-> He]. split; [done|exact He].
Qed.

(** The shard of the history's second generation, attached to another machine than
    its member's. *)
Definition testShard : Shard := mkShard (testDisk 2) ["b"%string] true.

Definition testCloud : Cloud := {["shard"%string := ["b"%string]]}.

Lemma perform_Carry_test : (perform testCloud (CMove <$> Carry (testAt 1) (testWant [testShard]))).2 = [] /\
  (perform testCloud (CMove <$> Carry (testAt 1) (testWant [testShard]))).1 !! "shard"%string = Some ["a"%string].
Proof. split; vm_compute; reflexivity. Qed.

(** A journal disk to delete that is still attached is reported, and detached. *)
Lemma delete_in_use_test :
  let '(c, failed) := perform {["journal"%string := ["a"%string]]} [CDelete "journal"; CMove (mkAction "journal" "a" false)] in
  failed = [(CDelete "journal", CErrInUse)] /\ c !! "journal"%string = Some [].
Proof. split; vm_compute; reflexivity. Qed.

Definition testAnswers : Answers := mkAnswers (fun _ => None) None 0.

Lemma lone_pass_takes_a_step_witness : exists p obj',
  run (W := Message) (Pass 1 [] None testAnswers [] (fun _ => None) ∅ (testWant [])) (zeros 16) "1"%string None = (Some (Ok p), obj') /\
  generation (pMembership p) = 1 /\ pFailed p = [].
Proof.
  destruct (lone_pass_takes_a_step (W := Message) 0 [] None testAnswers [] (fun _ => None) ∅ (testWant []) None Empty (zeros 16) "1"%string)
    as (p & obj' & Hrun & Hn & Hc).
  - reflexivity.
  - exact (testAt_valid 0 ltac:(lia)).
  - unfold in_range. change (generation Empty) with 0. lia.
  - intros d Hd. destruct (not_elem_of_nil d). exact Hd.
  - reflexivity.
  - discriminate.
  - apply testWant_ok; [|apply Forall_nil; exact I]. intros d Hd. destruct (not_elem_of_nil d). exact Hd.
  - intros change m _ _. eexists. reflexivity.
  - exists p, obj'. split; [exact Hrun|]. split.
    + assert (match Next Empty (passWant [] None testAnswers Empty (testWant [])).1 with Some _ => true | None => false end = true) as Hs by (vm_compute; reflexivity).
      destruct (Next _ _) as [change|]; [|discriminate Hs]. destruct Hn as (m & data & _ & Hm & -> & _). cbn [with_nonce generation].
      apply Step_iff in Hm. rewrite (st_generation _ _ Hm). vm_compute. reflexivity.
    + destruct Hc as [Hf _]; [reflexivity|apply NoDup_nil_2|intros q Hq; by apply elem_of_nil in Hq|split; [reflexivity|apply not_elem_of_nil]|].
      destruct (pFailed p) as [|[call e] l]; [reflexivity|]. destruct (Hf call e) as (v & l' & _ & _ & Hv & _); [left|].
      rewrite lookup_empty in Hv. discriminate Hv.
Defined.

End MembershipPass.
