(* ===== verification/MembershipSettled.v ===== *)
(** * Where a controller comes to rest

    When [Next] of [membership/controller.go] has no change left to make, the
    membership is what is wanted: its codes, its members and their addresses, its
    shards and their weights, every shard on a member that can take one, and the
    members' loads within one of each other. *)

From S2P Require Import Prelude Bytes Order ControlRecord ControlClient Rank Membership MembershipSteps MembershipStore MembershipController MembershipProgress.

Module MembershipSettled.
Import Rank Membership MembershipSteps MembershipStore MembershipController MembershipProgress.

Lemma first_some_none {A B} (f : A -> option B) l x : first_some f l = None -> x ∈ l -> f x = None.
Proof.
  induction l as [|y l IH]; simpl; [by intros _ ?%elem_of_nil|]. destruct (f y) eqn:E; [done|].
  intros H [->|Hx]%elem_of_cons; [done|by apply IH].
Qed.

Lemma first_of_none {A} (l : list A) cond (change : A -> Change) x : first_of l cond change = None -> x ∈ l -> cond x = false.
Proof.
  unfold first_of. destruct (List.find cond l) eqn:E; [done|]. intros _ Hx. eapply find_none in E; [done|]. by apply list_elem_of_In.
Qed.

Lemma map_of_unique {T} (key : T -> Identity) l x : NoDup (key <$> l) -> x ∈ l -> map_of key l (key x) = Some x.
Proof.
  intros Hn Hx. destruct (map_of key l (key x)) as [y|] eqn:E.
  - apply map_of_in in E as [Hy E]. f_equal. by apply (id_determines key l).
  - unfold map_of in E. eapply find_none in E; [|apply in_rev; rewrite rev_involutive; by apply list_elem_of_In].
    by apply bool_decide_eq_false in E.
Qed.

Lemma least_le count chosen rest x : x ∈ chosen :: rest -> count (least count chosen rest) <= count x.
Proof.
  revert chosen x. induction rest as [|y rest IH]; intros chosen x; [by intros ->%list_elem_of_singleton|]. simpl.
  set (c := if count y <? count chosen then y else chosen).
  assert (count c <= count y /\ count c <= count chosen) as [Hy Hc] by (unfold c; destruct (Z.ltb_spec (count y) (count chosen)); lia).
  pose proof (IH c c ltac:(by left)) as H0. intros [->|[->|Hx]%elem_of_cons]%elem_of_cons; [lia..|]. apply IH. by right.
Qed.

(** The shards a member is assigned. *)
Definition loadOf (m : Membership) (want : Want) (id : Identity) : Z :=
  zlen (List.filter (fun d => bool_decide (dMember d = id))
    (List.filter (fun d => negb (dState d =? Released))
      (List.filter (fun d => bool_decide (is_Some (map_of shID (wShards want) (dID d)))) (disks m)))).

(** A shard on its way to a member or away from one. *)
Definition shardMoves (m : Membership) (want : Want) : Prop :=
  exists d, d ∈ disks m /\ is_Some (map_of shID (wShards want) (dID d)) /\ (dState d = Attaching \/ dState d = Releasing).

(** A member a shard may be assigned to. *)
Definition canTake (want : Want) (x : Member) : Prop :=
  mState x <> Draining /\ exists h, h ∈ wHosts want /\ hID h = mID x /\ hLeaving h = false /\ hMachine h <> EmptyString.

Record settled (m : Membership) (want : Want) : Prop := {
  se_codes : Validate (wCode want) = None -> code m = wCode want /\ earlier m = wEarlier want;
  se_joined h : h ∈ wHosts want -> hLeaving h = false ->
    exists x, x ∈ members m /\ mID x = hID h /\ (mState x = Draining \/ mAddress x = hAddress h);
  se_wanted x : x ∈ members m -> mState x <> Draining ->
    exists h, h ∈ wHosts want /\ hID h = mID x /\ hLeaving h = false /\ mAddress x = hAddress h;
  se_left x : x ∈ members m -> mState x = Draining -> exists d, d ∈ disks m /\ dMember d = mID x;
  se_shards s : s ∈ wShards want -> exists d, d ∈ disks m /\ dID d = shID s /\ dWeight d = dWeight (shDisk s);
  se_assigned x s d : x ∈ members m -> canTake want x -> s ∈ wShards want -> d ∈ disks m -> dID d = shID s -> dState d <> Released;
  se_spread x y : x ∈ members m -> canTake want x -> y ∈ members m -> canTake want y -> ~ shardMoves m want ->
    loadOf m want (mID x) - loadOf m want (mID y) <= 1;
}.

Section Settled.
Context (m : Membership) (want : Want) (Hv : valid m) (Hhosts : NoDup (hID <$> wHosts want)) (Hshards : NoDup (shID <$> wShards want)).
Let host_of := map_of hID (sortedHosts (wHosts want)).
Let shard_of := map_of shID (wShards want).

Lemma sorted_hosts h : h ∈ wHosts want -> h ∈ sortedHosts (wHosts want).
Proof. unfold sortedHosts. by rewrite sort_by_perm. Qed.

Lemma host_of_in h : h ∈ wHosts want -> host_of (hID h) = Some h.
Proof. intros Hh. apply map_of_unique; [unfold sortedHosts; by rewrite sort_by_perm|by apply sorted_hosts]. Qed.

Lemma shard_of_in s : s ∈ wShards want -> shard_of (shID s) = Some s.
Proof. by apply map_of_unique. Qed.

Lemma canTake_taker x : canTake want x -> taker host_of x = true.
Proof.
  intros (Hs & h & Hh & E & Hl & Hm). unfold taker. rewrite <- E, host_of_in, Hl by done.
  rewrite bool_decide_eq_false_2 by done. by destruct (Z.eqb_spec (mState x) Draining).
Qed.

Lemma takers_in x : x ∈ members m -> canTake want x -> mID x ∈ mID <$> List.filter (taker host_of) (members m).
Proof. intros Hx Hc. apply list_elem_of_fmap_2, elem_of_lfilter. split; [done|by apply canTake_taker]. Qed.

(** The wanted shards the membership lists, and those assigned to a member. *)
Definition listedShards : list Disk := List.filter (fun d => bool_decide (is_Some (shard_of (dID d)))) (disks m).

Lemma listedShards_in d : d ∈ listedShards <-> d ∈ disks m /\ is_Some (shard_of (dID d)).
Proof. unfold listedShards. by rewrite elem_of_lfilter, bool_decide_eq_true. Qed.

Lemma nextShardMove_loads : nextShardMove m host_of shard_of =
  match mID <$> List.filter (taker host_of) (members m) with
  | [] => None
  | chosen :: rest =>
    orelse (first_of listedShards (fun d => dState d =? Released) (fun d m' => Assign m' (dID d) (least (loadOf m want) chosen rest)))
      (if existsb (fun d => (dState d =? Attaching) || (dState d =? Releasing)) (List.filter (fun d => negb (dState d =? Released)) listedShards) then None
       else
         let most := least (fun id => - loadOf m want id) chosen rest in
         if loadOf m want most - loadOf m want (least (loadOf m want) chosen rest) <? 2 then None
         else first_of listedShards (fun d => bool_decide (dMember d = most) && (dState d =? Serving)) (fun d m' => Release m' (dID d)))
  end.
Proof. reflexivity. Qed.

(** A member with a shard, while none moves, serves one. *)
Lemma load_serves x : x ∈ members m -> ~ shardMoves m want -> 0 < loadOf m want (mID x) ->
  exists d, d ∈ listedShards /\ dMember d = mID x /\ dState d = Serving.
Proof.
  intros Hx Hmove Hl. unfold loadOf in Hl. destruct (List.filter _ _) as [|d l] eqn:E; [by vm_compute in Hl|].
  assert (d ∈ d :: l) as Hd by left. rewrite <- E in Hd. apply elem_of_lfilter in Hd as [Hd Hm]. apply elem_of_lfilter in Hd as [Hd Hr].
  fold shard_of listedShards in Hd. apply bool_decide_eq_true in Hm. apply negb_true_iff, Z.eqb_neq in Hr. exists d. split_and!; [done..|].
  apply listedShards_in in Hd as [Hin Hs]. pose proof (valid_fine m d Hv Hin) as [_ _ _ _ Hst Hno _].
  destruct (decide (dState d = Attaching)); [destruct Hmove; exists d; auto|]. destruct (decide (dState d = Releasing)); [destruct Hmove; exists d; auto|].
  destruct (decide (dState d = Deleting)) as [Ed|].
  - destruct (Hno (or_intror Ed)) as [Hz _]. destruct (proj1 (Forall_forall _ _) (v_members m Hv) x Hx) as [Hx0 _]. congruence.
  - unfold Attaching, Serving, Releasing, Released, Deleting in *. lia.
Qed.

(** What nothing to do says of the shards. *)
Lemma nextShardMove_none x : nextShardMove m host_of shard_of = None -> x ∈ members m -> canTake want x ->
  (forall d, d ∈ listedShards -> dState d <> Released) /\
  (~ shardMoves m want -> forall y, y ∈ members m -> canTake want y -> loadOf m want (mID x) - loadOf m want (mID y) <= 1).
Proof.
  intros Hn Hx Hc. pose proof (takers_in x Hx Hc) as Htx. rewrite nextShardMove_loads in Hn.
  assert (forall i, i ∈ mID <$> List.filter (taker host_of) (members m) -> exists z, z ∈ members m /\ mID z = i) as Hmem.
  { intros i (z & -> & [Hz _]%elem_of_lfilter)%list_elem_of_fmap. by exists z. }
  destruct (mID <$> List.filter (taker host_of) (members m)) as [|chosen rest] eqn:Et; [by apply elem_of_nil in Htx|].
  destruct (first_of listedShards (fun d => dState d =? Released) _) eqn:E1; [done|]. cbn [orelse] in Hn. split.
  { intros d Hd Er. eapply first_of_none with (x := d) in E1; [by rewrite Er in E1|done]. }
  intros Hmove y Hy Hcy. pose proof (takers_in y Hy Hcy) as Hty. rewrite Et in Hty. destruct (existsb _ _) eqn:Ex.
  { apply existsb_exists in Ex as (d & Hd & Es). apply list_elem_of_In, elem_of_lfilter in Hd as [[Hd Hs]%listedShards_in _].
    destruct Hmove. exists d. split_and!; [done..|]. by apply orb_true_iff in Es as [?%Z.eqb_eq|?%Z.eqb_eq]; auto. }
  cbv zeta in Hn. set (most := least (fun id => - loadOf m want id) chosen rest) in Hn. set (fewest := least (loadOf m want) chosen rest) in Hn.
  pose proof (least_le (fun id => - loadOf m want id) chosen rest (mID x) Htx) as Hmx. fold most in Hmx. cbv beta in Hmx.
  pose proof (least_le (loadOf m want) chosen rest (mID y) Hty) as Hmy. fold fewest in Hmy.
  destruct (Z.ltb_spec (loadOf m want most - loadOf m want fewest) 2) as [|Hge]; [lia|].
  destruct (Hmem most) as (z & Hz & Ez); [apply least_in|].
  assert (0 <= loadOf m want fewest) by (unfold loadOf, zlen; lia).
  destruct (load_serves z Hz Hmove) as (d & Hd & Em & Es); [rewrite Ez; lia|].
  eapply first_of_none with (x := d) in Hn; [|done]. by rewrite Em, Ez, Es, bool_decide_eq_true_2 in Hn.
Qed.

Lemma Next_none_all l : first_some (B := Change) id l = None -> Forall (fun o => o = None) l.
Proof. intros Hn. apply Forall_forall. intros o Ho. exact (first_some_none id l o Hn Ho). Qed.

Lemma bool_listed {A} (o : option A) : negb (bool_decide (is_Some o)) = false -> is_Some o.
Proof. intros E. by apply negb_false_iff, bool_decide_eq_true in E. Qed.

(** What nothing to do says of the rest. *)
Lemma Next_none : Next m want = None -> settled m want.
Proof.
  intros Hn. unfold Next in Hn. destruct (_ && _) eqn:Ec in Hn; [done|]. fold host_of in Hn. apply Next_none_all in Hn.
  inversion_clear Hn as [|? ? H1 Hn1]. inversion_clear Hn1 as [|? ? _ Hn]. inversion_clear Hn as [|? ? _ Hn1]. inversion_clear Hn1 as [|? ? H4 Hn].
  inversion_clear Hn as [|? ? H5 Hn1]. inversion_clear Hn1 as [|? ? H6 Hn]. inversion_clear Hn as [|? ? H7 Hn1]. inversion_clear Hn1 as [|? ? _ Hn].
  inversion_clear Hn as [|? ? _ Hn1]. inversion_clear Hn1 as [|? ? H10 Hn]. inversion_clear Hn as [|? ? _ Hn1]. inversion_clear Hn1 as [|? ? H12 _].
  assert (forall s, s ∈ wShards want -> exists d, d ∈ disks m /\ dID d = shID s /\ dWeight d = dWeight (shDisk s)) as Hlisted.
  { intros s Hs. pose proof (first_of_none _ _ _ s H4 Hs) as [d Hd]%bool_listed. pose proof (first_of_none _ _ _ s H10 Hs) as Hw. cbv beta in Hw.
    rewrite Hd in Hw. apply negb_false_iff, Z.eqb_eq in Hw. apply find_disk_iff in Hd as [? ?]; [|done]. by exists d. }
  assert (forall x, x ∈ members m -> mState x <> Draining -> exists h, h ∈ wHosts want /\ hID h = mID x /\ hLeaving h = false /\ mAddress x = hAddress h) as Hwanted.
  { intros x Hx Hs. pose proof (first_of_none _ _ _ x H1 Hx) as Hl. pose proof (first_some_none _ _ x H7 Hx) as Ha. cbv beta in Hl, Ha.
    destruct (Z.eqb_spec (mState x) Draining); [done|]. rewrite andb_true_r in *. destruct (host_of (mID x)) as [h|] eqn:Eh; [|done].
    apply map_of_in in Eh as [Hh%sortedHosts_in Eid]. exists h. split_and!; try done. by destruct (bool_decide_reflect (hAddress h = mAddress x)). }
  split; [| |done| |done| |].
  - intros Ev. rewrite Ev, andb_true_r in Ec. apply orb_false_iff in Ec as [Ec%negb_false_iff%bool_decide_eq_true Ee%negb_false_iff%bool_decide_eq_true]. done.
  - intros h Hh Hl. pose proof (first_of_none _ _ _ h H6 (sorted_hosts h Hh)) as Hj. cbv beta in Hj. rewrite Hl, andb_true_r in Hj.
    apply bool_listed in Hj as [x Hx]. apply find_member_iff in Hx as [Hx Eid]; [|done]. exists x. split_and!; try done.
    destruct (decide (mState x = Draining)) as [|Hs]; [by left|right]. destruct (Hwanted x Hx Hs) as (h' & Hh' & E & _ & Ha).
    by replace h with h' by (apply (id_determines hID (wHosts want)); [done..|congruence]).
  - intros x Hx Hs. pose proof (first_of_none _ _ _ x H5 Hx) as He. cbv beta in He. rewrite Hs in He. apply negb_false_iff, existsb_exists in He as (d & Hd & E).
    exists d. split; [by apply list_elem_of_In|by apply bool_decide_eq_true in E].
  - intros x s d Hx Hc Hs Hd E. destruct (nextShardMove_none x H12 Hx Hc) as [Hr _]. apply Hr, listedShards_in. split; [done|].
    rewrite E, shard_of_in by done. by eexists.
  - intros x y Hx Hcx Hy Hcy Hmove. by apply (nextShardMove_none x H12 Hx Hcx).
Qed.

End Settled.

(** C18: Where a controller comes to rest.  When [Next] has no change left, with hosts
    and shards of distinct identities wanted: the list has the codes wanted, if the
    wanted code is valid; every wanted host that is not leaving is a member, at its
    address unless it drains; every member that does not drain is such a host, and a
    draining one still has a disk; every wanted shard is listed at its weight; and
    while some member can take a shard, which is one that does not drain and whose
    host is wanted, not leaving and on a machine, every wanted shard is assigned, and,
    once none is moving, no such member has two more than another. *)
Theorem nothing_left_to_do m want : valid m -> NoDup (hID <$> wHosts want) -> NoDup (shID <$> wShards want) -> Next m want = None -> settled m want.
Proof. apply Next_none. Qed.

Lemma nothing_left_to_do_witness : settled (testAt 2) (testWant [mkShard (testDisk 2) ["a"%string] true]).
Proof.
  apply nothing_left_to_do.
  - apply testAt_valid. lia.
  - apply NoDup_singleton.
  - apply NoDup_singleton.
  - vm_compute. reflexivity.
Defined.

End MembershipSettled.
