(* ===== verification/JournalFormat.v ===== *)
(** * The journal's disk format

    [journal/format.go]: a journal disk's header slots and ring entries, their
    encoding and their reading back.  The 128-bit checksum is a parameter with
    the one fact its type gives, its length: what is proved here holds of any
    checksum. *)

From S2P Require Import Prelude Bytes.

Module Journal.

(** The package's errors.  [errTorn] wraps [errNoEntry]. *)
Inductive jerror :=
  | ErrVersion | errNoSlot | errNoEntry | errTorn | ErrTooLarge | ErrBlockData
  | ErrLeased | ErrIdentity | ErrClosed | ErrFenced | ErrGeneration | ErrTrimmed
  | ErrTooSmall | ErrRing | ErrReader | ErrIO | ErrCapture.

#[export] Instance jerror_eq : EqDecision jerror.
Proof. solve_decision. Defined.

Definition BlockBytes : Z := 4096.
Definition maxStoredBytes : Z := 16 * 2 ^ 20.
Definition MaxEntryBytes : Z := maxStoredBytes - BlockBytes.
Definition MaxBatchBytes : Z := 8 * 2 ^ 20.
Definition formatVersion : byte := Byte.x01.
Definition slotBytes : Z := 4096.
Definition slotLength : Z := 104.
Definition ringOffset : Z := 2 * slotBytes.
Definition minRingSize : Z := 16 * 2 ^ 10.
Definition entryHeadBytes : Z := 48.
Definition checksumBytes : Z := 16.
Definition minEntryBytes : Z := entryHeadBytes + checksumBytes.
Definition maxNameBytes : Z := 2 ^ 16 - 1.
Definition kindPad : byte := Byte.x00.
Definition kindBlocks : byte := Byte.x01.

(** "SFJH" and "SFJE". *)
Definition slotMagic : list byte := [Byte.x53; Byte.x46; Byte.x4a; Byte.x48].
Definition entryMagic : list byte := [Byte.x53; Byte.x46; Byte.x4a; Byte.x45].

(** [rank.Identity] is 16 bytes. *)
Definition Identity : Type := list byte.

Record Lease := mkLease { Assigned : Z; Member : Identity }.

#[export] Instance Lease_eq : EqDecision Lease.
Proof. solve_decision. Defined.

(** A header slot; [s_identity] to [s_lease] are the source's fields. *)
Record slot := mkSlot {
  empty_ : bool;
  counter : Z;
  s_identity : Identity;
  s_generation : Z;
  s_ringStart : Z;
  s_ringLength : Z;
  s_tail : Z;
  s_lease : Lease;
}.

(** [xxh3.Hash128(data).Bytes()] *)
Class Checksum := {
  checksum : list byte -> list byte;
  checksum_length b : zlen (checksum b) = checksumBytes;
}.

Record Entry := mkEntry {
  VM : string;
  Volume : string;
  Epoch : Z;
  Blocks : list Z;
  Data : list byte;
  Position : Z;
}.

(** The bytes of a Go string. *)
Definition sbytes (s : string) : list byte := String.list_byte_of_string s.

Definition align8 (n : Z) : Z := Z.ldiff (n + 7) 7.

Definition EntryBytes (vm volume : string) (blocks : Z) : Z :=
  entryHeadBytes + align8 (zlen (sbytes vm) + zlen (sbytes volume)) + blocks * (8 + BlockBytes) + checksumBytes.

Definition entry_size (e : Entry) : Z := EntryBytes (VM e) (Volume e) (zlen (Blocks e)).

(** [Entry.check] *)
Definition check (e : Entry) : option jerror :=
  if (zlen (sbytes (VM e)) >? maxNameBytes) || (zlen (sbytes (Volume e)) >? maxNameBytes) then Some ErrTooLarge
  else if negb (zlen (Data e) =? zlen (Blocks e) * BlockBytes) then Some ErrBlockData
  else if entry_size e >? MaxEntryBytes then Some ErrTooLarge
  else None.

(** An entry's first 48 bytes. *)
Record head := mkHead {
  kind : byte;
  position : Z;
  generation : Z;
  epoch : Z;
  length_ : Z;
  blocks : Z;
  vm : Z;
  volume : Z;
}.

Section Format.
Context `{Checksum}.

(** ** Slots *)

(** The first 88 bytes of a slot, field by field. *)
Definition slot_fields (s : slot) : list (list byte) :=
  [ slotMagic; [formatVersion]; [if empty_ s then Byte.x01 else Byte.x00]; zeros 2;
    put_le 8 (counter s); s_identity s; put_le 8 (s_generation s); put_le 8 (wrap64 (s_ringStart s));
    put_le 8 (wrap64 (s_ringLength s)); put_le 8 (s_tail s); put_le 8 (Assigned (s_lease s)); Member (s_lease s) ].

Definition encodeSlot (s : slot) : list byte :=
  concat (slot_fields s) ++ checksum (concat (slot_fields s)) ++ zeros (slotBytes - slotLength).

Definition decodeSlot (b : list byte) : result jerror slot :=
  if (zlen b <? slotLength) || negb (bool_decide (slice b 0 4 = slotMagic))
     || negb (bool_decide (checksum (slice b 0 88) = slice b 88 slotLength)) then Err errNoSlot
  else if negb (bool_decide (zget b 4 = Some formatVersion)) then Err ErrVersion
  else if (byteZ (default Byte.x00 (zget b 5)) >? 1) || negb (Uint16 b 6 =? 0) then Err errNoSlot
  else Ok {|
    empty_ := bool_decide (zget b 5 = Some Byte.x01);
    counter := Uint64 b 8;
    s_identity := slice b 16 32;
    s_generation := Uint64 b 32;
    s_ringStart := int64 (Uint64 b 40);
    s_ringLength := int64 (Uint64 b 48);
    s_tail := Uint64 b 56;
    s_lease := mkLease (Uint64 b 64) (slice b 72 88) |}.

(** ** Entries *)

Definition head_fields (kind : byte) (position generation epoch length blocks vm volume : Z) : list (list byte) :=
  [ entryMagic; [formatVersion; kind; Byte.x00; Byte.x00]; put_le 8 position; put_le 8 generation; put_le 8 epoch;
    put_le 4 length; put_le 4 blocks; put_le 2 vm; put_le 2 volume; zeros 4 ].

Definition appendHead (dst : list byte) (kind : byte) (position generation epoch length blocks vm volume : Z)
  : list byte := dst ++ concat (head_fields kind position generation epoch length blocks vm volume).

Definition appendEntry (dst : list byte) (e : Entry) (position generation : Z) : list byte :=
  let start := zlen dst in
  let dst := appendHead dst kindBlocks position generation (Epoch e) (entry_size e) (zlen (Blocks e))
               (zlen (sbytes (VM e))) (zlen (sbytes (Volume e))) in
  let dst := dst ++ sbytes (VM e) in
  let dst := dst ++ sbytes (Volume e) in
  let names := zlen (sbytes (VM e)) + zlen (sbytes (Volume e)) in
  let dst := dst ++ zeros (align8 names - names) in
  let dst := dst ++ flat_map (put_le 8) (Blocks e) in
  let dst := dst ++ Data e in
  dst ++ checksum (slice dst start (zlen dst)).

Definition appendPad (dst : list byte) (length position generation : Z) : list byte :=
  let start := zlen dst in
  let dst := appendHead dst kindPad position generation 0 length 0 0 0 in
  let dst := dst ++ zeros (length - minEntryBytes) in
  dst ++ checksum (slice dst start (zlen dst)).

Definition decodeHead (b : list byte) : result jerror head :=
  if (zlen b <? entryHeadBytes) || negb (bool_decide (slice b 0 4 = entryMagic))
     || negb (bool_decide (zget b 4 = Some formatVersion)) || negb (Uint16 b 6 =? 0) || negb (Uint32 b 44 =? 0)
  then Err errNoEntry
  else
    let h := mkHead (default Byte.x00 (zget b 5)) (Uint64 b 8) (Uint64 b 16) (Uint64 b 24) (Uint32 b 32)
               (Uint32 b 36) (Uint16 b 40) (Uint16 b 42) in
    if bool_decide (kind h = kindPad) then
      if negb (epoch h =? 0) || negb (blocks h =? 0) || negb (vm h =? 0) || negb (volume h =? 0)
         || (length_ h <? minEntryBytes) || negb (length_ h mod 8 =? 0) || (length_ h >? maxStoredBytes)
      then Err errNoEntry else Ok h
    else if bool_decide (kind h = kindBlocks) then
      if negb (length_ h =? entryHeadBytes + align8 (vm h + volume h) + blocks h * (8 + BlockBytes) + checksumBytes)
         || (length_ h >? MaxEntryBytes)
      then Err errNoEntry else Ok h
    else Err errNoEntry.

Definition checkEntry (b : list byte) : result jerror head :=
  let? h := decodeHead b in
  if negb (zlen b =? length_ h)
     || negb (bool_decide (checksum (slice b 0 (length_ h - checksumBytes)) = slice b (length_ h - checksumBytes) (zlen b)))
  then Err errTorn
  else if negb (forallb (fun x => bool_decide (x = Byte.x00))
       (slice b (entryHeadBytes + vm h + volume h) (entryHeadBytes + align8 (vm h + volume h)))) then Err errNoEntry
  else Ok h.

Definition entryVM (b : list byte) (h : head) : string :=
  String.string_of_list_byte (slice b entryHeadBytes (entryHeadBytes + vm h)).

Definition zeroEntry : Entry := mkEntry "" "" 0 [] [] 0.

Definition decodeEntry (b : list byte) : result jerror (head * Entry) :=
  let? h := checkEntry b in
  if bool_decide (kind h = kindPad) then Ok (h, zeroEntry)
  else
    let at_ := entryHeadBytes + vm h in
    let names := entryHeadBytes + align8 (vm h + volume h) in
    Ok (h, {|
      VM := entryVM b h;
      Volume := String.string_of_list_byte (slice b at_ (at_ + volume h));
      Epoch := epoch h;
      Blocks := (fun i => Uint64 b (names + 8 * i)) <$> seqZ 0 (blocks h);
      Data := slice b (names + 8 * blocks h) (names + 8 * blocks h + blocks h * BlockBytes);
      Position := position h |}).

End Format.

(** ** Slots round-trip *)

Definition wf_slot (s : slot) : Prop :=
  u64 (counter s) /\ zlen (s_identity s) = 16 /\ u64 (s_generation s) /\ i64 (s_ringStart s) /\
  i64 (s_ringLength s) /\ u64 (s_tail s) /\ u64 (Assigned (s_lease s)) /\ zlen (Member (s_lease s)) = 16.

Lemma get_put8 z : u64 z -> get_le (put_le 8 z) = z.
Proof. intros. apply get_put_le. exact H. Qed.

Section Slots.
Context `{Checksum}.

Lemma slot_body_length s : wf_slot s -> zlen (concat (slot_fields s)) = 88.
Proof. intros (_&Hi&_&_&_&_&_&Hm). unfold slot_fields. flen. Qed.

Lemma encodeSlot_length s : wf_slot s -> zlen (encodeSlot s) = slotBytes.
Proof.
  intros Hs. unfold encodeSlot. rewrite !zlen_app, slot_body_length, checksum_length by done.
  by rewrite zlen_zeros by (unfold slotBytes, slotLength; lia).
Qed.

Lemma decode_encodeSlot s : wf_slot s -> decodeSlot (encodeSlot s) = Ok s.
Proof.
  intros Hs. pose proof Hs as (Hc&Hi&Hg&Hr&Hl&Ht&Ha&Hm). pose proof (slot_body_length s Hs) as Hb.
  assert (slice (encodeSlot s) 88 slotLength = checksum (concat (slot_fields s))) as Hsum
    by (apply slice_app_mid; rewrite ?Hb, ?checksum_length by done; done).
  unfold decodeSlot. rewrite encodeSlot_length, Hsum by done. change (slotBytes <? slotLength) with false. simpl orb.
  unfold encodeSlot, Uint16, Uint64. rewrite !slice_app_l, !zget_app_l by lia.
  rewrite (slice_all (concat (slot_fields s))) by done. rewrite !bool_decide_true by done. simpl negb. cbv iota.
  assert (zget (concat (slot_fields s)) 5 = Some (if empty_ s then Byte.x01 else Byte.x00)) as ->
    by (apply (zget_field (slot_fields s) 2 [if empty_ s then Byte.x01 else Byte.x00] 5 0); flen; done).
  unfold slot_fields. simpl negb. cbv iota.
  assert ((byteZ (if empty_ s then Byte.x01 else Byte.x00) >? 1) = false) as ->
    by (by destruct (empty_ s)).
  simpl orb. cbv iota. field 4%nat 8. field 5%nat 16. field 6%nat 32. field 7%nat 40.
  field 8%nat 48. field 9%nat 56. field 10%nat 64. field 11%nat 72.
  rewrite !get_put8 by (done || apply wrap64_range). rewrite !int64_wrap64 by done. destruct s as [em ? ? ? ? ? ? [? ?]]. simpl. do 2 f_equal. by destruct em.
Qed.

End Slots.

(** ** Entries round-trip *)

Lemma align8_spec n : align8 n = (n + 7) / 8 * 8.
Proof.
  unfold align8. change 7 with (Z.ones 3) at 2. rewrite Z.ldiff_ones_r by lia.
  rewrite Z.shiftl_mul_pow2, Z.shiftr_div_pow2 by lia. done.
Qed.

Lemma align8_bounds n : n <= align8 n < n + 8 /\ align8 n mod 8 = 0.
Proof.
  rewrite align8_spec. pose proof (Z.div_mod (n + 7) 8 ltac:(lia)). pose proof (Z.mod_pos_bound (n + 7) 8 ltac:(lia)).
  split; [lia|]. apply Z.mod_mul. lia.
Qed.

(** What [check] accepts, with machine-width numbers. *)
Record wf_entry (e : Entry) : Prop := {
  wf_check : check e = None;
  wf_epoch : u64 (Epoch e);
  wf_blocks : Forall u64 (Blocks e);
}.

Lemma check_spec e :
  check e = None ->
  zlen (sbytes (VM e)) < 2 ^ 16 /\ zlen (sbytes (Volume e)) < 2 ^ 16 /\ zlen (Data e) = zlen (Blocks e) * BlockBytes /\
  minEntryBytes <= entry_size e <= MaxEntryBytes /\ entry_size e mod 8 = 0.
Proof.
  unfold check, maxNameBytes. zcases; try done. intros _.
  pose proof (zlen_nonneg (sbytes (VM e))). pose proof (zlen_nonneg (sbytes (Volume e))). pose proof (zlen_nonneg (Blocks e)).
  pose proof (align8_bounds (zlen (sbytes (VM e)) + zlen (sbytes (Volume e)))) as [? Hm]. split_and!; try lia.
  - unfold entry_size, EntryBytes, minEntryBytes, BlockBytes, entryHeadBytes, checksumBytes. lia.
  - unfold entry_size, EntryBytes, BlockBytes, entryHeadBytes, checksumBytes.
    replace (48 + _ + _ * (8 + 4096) + 16) with
      (align8 (zlen (sbytes (VM e)) + zlen (sbytes (Volume e))) + (8 + zlen (Blocks e) * 513) * 8) by lia.
    by rewrite Z.mod_add by lia.
Qed.

Section Entries.
Context `{Checksum}.

Definition entry_fields (e : Entry) (position generation : Z) : list (list byte) :=
  let names := zlen (sbytes (VM e)) + zlen (sbytes (Volume e)) in
  head_fields kindBlocks position generation (Epoch e) (entry_size e) (zlen (Blocks e))
    (zlen (sbytes (VM e))) (zlen (sbytes (Volume e))) ++
  [sbytes (VM e); sbytes (Volume e); zeros (align8 names - names); flat_map (put_le 8) (Blocks e); Data e].

Definition pad_fields (length position generation : Z) : list (list byte) :=
  head_fields kindPad position generation 0 length 0 0 0 ++ [zeros (length - minEntryBytes)].

Definition sealed (body : list byte) : list byte := body ++ checksum body.

Lemma slice_from {A} (a b : list A) : slice (a ++ b) (zlen a) (zlen (a ++ b)) = b.
Proof. rewrite zlen_app. by apply slice_suffix. Qed.

Lemma appendEntry_eq dst e position generation :
  appendEntry dst e position generation = dst ++ sealed (concat (entry_fields e position generation)).
Proof.
  unfold appendEntry, appendHead, entry_fields, sealed. rewrite concat_app. cbv zeta.
  rewrite <- !app_assoc, slice_from. simpl. by rewrite ?app_nil_r, <- ?app_assoc.
Qed.

Lemma appendPad_eq dst length position generation :
  appendPad dst length position generation = dst ++ sealed (concat (pad_fields length position generation)).
Proof.
  unfold appendPad, appendHead, pad_fields, sealed. rewrite concat_app. cbv zeta.
  rewrite <- !app_assoc, slice_from. simpl. by rewrite ?app_nil_r, <- ?app_assoc.
Qed.

Lemma head_length kind pos gen ep len blk v vol : zlen (concat (head_fields kind pos gen ep len blk v vol)) = entryHeadBytes.
Proof. unfold head_fields. flen. Qed.

(** The head of an encoded entry, read back field by field. *)
Lemma decodeHead_fields kind pos gen ep len blk v vol rest :
  u64 pos -> u64 gen -> u64 ep -> 0 <= len < 2 ^ 32 -> 0 <= blk < 2 ^ 32 -> 0 <= v < 2 ^ 16 -> 0 <= vol < 2 ^ 16 ->
  decodeHead (concat (head_fields kind pos gen ep len blk v vol) ++ rest) =
    let h := mkHead kind pos gen ep len blk v vol in
    if bool_decide (kind = kindPad) then
      if negb (ep =? 0) || negb (blk =? 0) || negb (v =? 0) || negb (vol =? 0)
         || (len <? minEntryBytes) || negb (len mod 8 =? 0) || (len >? maxStoredBytes) then Err errNoEntry else Ok h
    else if bool_decide (kind = kindBlocks) then
      if negb (len =? entryHeadBytes + align8 (v + vol) + blk * (8 + BlockBytes) + checksumBytes)
         || (len >? MaxEntryBytes) then Err errNoEntry else Ok h
    else Err errNoEntry.
Proof.
  intros. unfold decodeHead. rewrite zlen_app, head_length.
  pose proof (zlen_nonneg rest). destruct (_ <? entryHeadBytes) eqn:El; zbool; [lia|]. rewrite orb_false_l.
  unfold Uint16, Uint32, Uint64. rewrite !slice_app_l, !zget_app_l by (rewrite ?head_length; unfold entryHeadBytes; lia).
  unfold head_fields.
  field 2%nat 8. field 3%nat 16. field 4%nat 24. field 5%nat 32. field 6%nat 36. field 7%nat 40. field 8%nat 42. field 9%nat 44.
  rewrite !get_put_le by (simpl; unfold u64 in *; lia). done.
Qed.

Lemma entry_body_length e pos gen : check e = None -> zlen (concat (entry_fields e pos gen)) = entry_size e - checksumBytes.
Proof.
  intros (?&?&Hd&_)%check_spec. unfold entry_fields. cbv zeta. rewrite concat_app, zlen_app, head_length. simpl.
  pose proof (align8_bounds (zlen (sbytes (VM e)) + zlen (sbytes (Volume e)))) as [? _].
  assert (forall l, zlen (flat_map (put_le 8) l) = 8 * zlen l) as Hf by (induction l; flen).
  autorewrite with zlen. rewrite Hf. unfold entry_size, EntryBytes, BlockBytes, checksumBytes, entryHeadBytes in *. lia.
Qed.

Lemma pad_body_length len pos gen : minEntryBytes <= len -> zlen (concat (pad_fields len pos gen)) = len - checksumBytes.
Proof.
  intros. unfold pad_fields. rewrite concat_app, zlen_app, head_length. simpl.
  autorewrite with zlen. unfold minEntryBytes, checksumBytes, entryHeadBytes in *. lia.
Qed.

(** The head of an encoded entry. *)
Definition entry_head (e : Entry) (pos gen : Z) : head :=
  mkHead kindBlocks pos gen (Epoch e) (entry_size e) (zlen (Blocks e)) (zlen (sbytes (VM e))) (zlen (sbytes (Volume e))).

Definition pad_head (len pos gen : Z) : head := mkHead kindPad pos gen 0 len 0 0 0.

Lemma check_sealed body h :
  decodeHead (sealed body) = Ok h -> zlen body = length_ h - checksumBytes ->
  checkEntry (sealed body) =
    if negb (forallb (fun x => bool_decide (x = Byte.x00))
         (slice (sealed body) (entryHeadBytes + vm h + volume h) (entryHeadBytes + align8 (vm h + volume h))))
    then Err errNoEntry else Ok h.
Proof.
  intros Hh Hl. unfold checkEntry. rewrite Hh.
  assert (zlen (sealed body) = length_ h) as -> by (unfold sealed; rewrite zlen_app, checksum_length; lia).
  assert (slice (sealed body) 0 (length_ h - checksumBytes) = body) as -> by (apply slice_prefix; lia).
  assert (slice (sealed body) (length_ h - checksumBytes) (length_ h) = checksum body) as ->
    by (apply slice_suffix; rewrite ?checksum_length; lia).
  rewrite bool_decide_true, Z.eqb_refl by done. done.
Qed.

Lemma decodeHead_entry e pos gen rest :
  wf_entry e -> u64 pos -> u64 gen ->
  decodeHead (concat (entry_fields e pos gen) ++ rest) = Ok (entry_head e pos gen).
Proof.
  intros [Hc He _] Hp Hg. pose proof (check_spec e Hc) as (?&?&Hd&Hs&_).
  pose proof (zlen_nonneg (sbytes (VM e))). pose proof (zlen_nonneg (sbytes (Volume e))). pose proof (zlen_nonneg (Blocks e)).
  pose proof (align8_bounds (zlen (sbytes (VM e)) + zlen (sbytes (Volume e)))) as [? _].
  unfold entry_fields. cbv zeta. rewrite concat_app, <- app_assoc, decodeHead_fields; try done; try lia.
  - rewrite bool_decide_false, bool_decide_true by done.
    unfold entry_size at 1. unfold EntryBytes. rewrite Z.eqb_refl. destruct (_ >? MaxEntryBytes) eqn:E; zbool; [lia|done].
  - unfold MaxEntryBytes, maxStoredBytes, BlockBytes, minEntryBytes, entryHeadBytes, checksumBytes in *. lia.
  - unfold entry_size, EntryBytes, MaxEntryBytes, maxStoredBytes, BlockBytes, entryHeadBytes, checksumBytes in Hs. lia.
Qed.

Lemma decodeHead_pad len pos gen rest :
  minEntryBytes <= len <= maxStoredBytes -> len mod 8 = 0 -> u64 pos -> u64 gen ->
  decodeHead (concat (pad_fields len pos gen) ++ rest) = Ok (pad_head len pos gen).
Proof.
  intros Hl Hm Hp Hg. unfold pad_fields. rewrite concat_app, <- app_assoc, decodeHead_fields; try done;
    unfold minEntryBytes, maxStoredBytes, entryHeadBytes, checksumBytes in *; try lia.
  rewrite bool_decide_true by done. cbv zeta. rewrite !Z.eqb_refl.
  rewrite (proj2 (Z.eqb_eq (len mod 8) 0) Hm). destruct (len <? _) eqn:E, (len >? _) eqn:E'; zbool; try lia. done.
Qed.

Lemma entry_slice e pos gen k x i j :
  check e = None -> entry_fields e pos gen !! k = Some x -> zlen (concat (take k (entry_fields e pos gen))) = i ->
  j = i + zlen x -> j <= entry_size e - checksumBytes ->
  slice (sealed (concat (entry_fields e pos gen))) i j = x.
Proof.
  intros Hc Hk Hi Hj Hle. unfold sealed. rewrite slice_app_l; [by eapply slice_field| |by rewrite entry_body_length].
  rewrite <- Hi. apply zlen_nonneg.
Qed.

Lemma decode_blocks (l : list Z) (b : list byte) at_ :
  Forall u64 l -> 0 <= at_ -> slice b at_ (at_ + 8 * zlen l) = flat_map (put_le 8) l ->
  (fun i => Uint64 b (at_ + 8 * i)) <$> seqZ 0 (zlen l) = l.
Proof.
  intros Hl Ha Hs. apply list_eq. intros i. rewrite list_lookup_fmap.
  destruct (decide (i < length l)%nat) as [Hi|Hi]; unfold zlen in *.
  - rewrite lookup_seqZ_lt by lia. destruct (lookup_lt_is_Some_2 l i Hi) as [x Hx]. rewrite Hx. simpl. f_equal.
    unfold Uint64. replace (0 + Z.of_nat i) with (Z.of_nat i) by lia.
    replace (at_ + 8 * Z.of_nat i + 8) with (at_ + (8 * Z.of_nat i + 8)) by lia.
    rewrite <- (slice_slice b at_ (at_ + 8 * Z.of_nat (length l))) by lia. rewrite Hs, flat_map_concat_map.
    rewrite (slice_field _ i (put_le 8 x)); [|by rewrite list_lookup_fmap, Hx| |by rewrite zlen_put_le].
    + apply get_put8. by eapply Forall_lookup in Hl.
    + rewrite <- fmap_take. clear -Hi. revert i Hi. induction l as [|y l IH]; intros i Hi; [simpl in Hi; lia|].
      destruct i as [|i]; [done|]. cbn [take]. rewrite fmap_cons. cbn [concat]. rewrite zlen_app, zlen_put_le, IH by (simpl in Hi; lia). lia.
  - rewrite lookup_seqZ_ge by lia. by rewrite lookup_ge_None_2 by lia.
Qed.

(** The pieces of a whole encoded entry. *)
Lemma entry_parts e pos gen :
  wf_entry e -> u64 pos -> u64 gen ->
  let b := sealed (concat (entry_fields e pos gen)) in
  let v := zlen (sbytes (VM e)) in
  let vol := zlen (sbytes (Volume e)) in
  let names := entryHeadBytes + align8 (v + vol) in
  slice b entryHeadBytes (entryHeadBytes + v) = sbytes (VM e) /\
  slice b (entryHeadBytes + v) (entryHeadBytes + v + vol) = sbytes (Volume e) /\
  slice b (entryHeadBytes + v + vol) names = zeros (align8 (v + vol) - (v + vol)) /\
  slice b names (names + 8 * zlen (Blocks e)) = flat_map (put_le 8) (Blocks e) /\
  slice b (names + 8 * zlen (Blocks e)) (names + 8 * zlen (Blocks e) + zlen (Blocks e) * BlockBytes) = Data e.
Proof.
  intros [Hc He Hb] Hp Hg b v vol names. pose proof (check_spec e Hc) as (?&?&Hd&Hs&_).
  pose proof (zlen_nonneg (sbytes (VM e))). pose proof (zlen_nonneg (sbytes (Volume e))). pose proof (zlen_nonneg (Blocks e)).
  pose proof (align8_bounds (v + vol)) as [? _].
  assert (zlen (flat_map (put_le 8) (Blocks e)) = 8 * zlen (Blocks e)) as Hf by (clear; induction (Blocks e); flen).
  assert (entry_size e = 48 + align8 (v + vol) + zlen (Blocks e) * 4104 + 16) as Hsz by done.
  subst v vol names. unfold BlockBytes, checksumBytes, entryHeadBytes in *.
  split_and!.
  - apply (entry_slice e pos gen 10); try done; unfold entry_fields, head_fields, checksumBytes; flen.
  - apply (entry_slice e pos gen 11); try done; unfold entry_fields, head_fields, checksumBytes; flen.
  - apply (entry_slice e pos gen 12); try done; unfold entry_fields, head_fields, checksumBytes; flen.
  - apply (entry_slice e pos gen 13); try done; unfold entry_fields, head_fields, checksumBytes; flen.
  - apply (entry_slice e pos gen 14); try done; unfold entry_fields, head_fields, checksumBytes; flen.
Qed.

Lemma sealed_length body : zlen (sealed body) = zlen body + checksumBytes.
Proof. unfold sealed. by rewrite zlen_app, checksum_length. Qed.

Lemma checkEntry_entry e pos gen :
  wf_entry e -> u64 pos -> u64 gen ->
  checkEntry (sealed (concat (entry_fields e pos gen))) = Ok (entry_head e pos gen).
Proof.
  intros He Hp Hg. rewrite (check_sealed _ (entry_head e pos gen)).
  - pose proof (entry_parts e pos gen He Hp Hg) as (_&_&Hz&_). unfold entry_head. cbn [vm volume].
    cbv zeta in Hz. rewrite Hz. unfold zeros.
    assert (forall n, forallb (fun x => bool_decide (x = Byte.x00)) (replicate n Byte.x00) = true) as ->; [|done].
    induction n as [|n IH]; [done|]. exact IH.
  - by apply decodeHead_entry.
  - apply entry_body_length, He.
Qed.

Lemma checkEntry_pad len pos gen :
  minEntryBytes <= len <= maxStoredBytes -> len mod 8 = 0 -> u64 pos -> u64 gen ->
  checkEntry (sealed (concat (pad_fields len pos gen))) = Ok (pad_head len pos gen).
Proof.
  intros Hl Hm Hp Hg. rewrite (check_sealed _ (pad_head len pos gen)).
  - reflexivity.
  - by apply decodeHead_pad.
  - apply pad_body_length, Hl.
Qed.

Definition at_position (e : Entry) (pos : Z) : Entry := mkEntry (VM e) (Volume e) (Epoch e) (Blocks e) (Data e) pos.

Lemma decodeEntry_entry e pos gen :
  wf_entry e -> u64 pos -> u64 gen ->
  decodeEntry (sealed (concat (entry_fields e pos gen))) = Ok (entry_head e pos gen, at_position e pos) /\
  entryVM (sealed (concat (entry_fields e pos gen))) (entry_head e pos gen) = VM e.
Proof.
  intros He Hp Hg. pose proof (entry_parts e pos gen He Hp Hg) as (Hv&Hvol&_&Hb&Hd).
  set (b := sealed _) in *.
  assert (entryVM b (entry_head e pos gen) = VM e) as Hvm.
  { unfold entryVM. simpl vm. rewrite Hv. apply String.string_of_list_byte_of_string. }
  split; [|done]. unfold decodeEntry. unfold b at 1. rewrite checkEntry_entry by done. rewrite bool_decide_false by done.
  cbv zeta. rewrite Hvm. simpl vm. simpl volume. simpl blocks. rewrite Hvol, Hd.
  rewrite decode_blocks; [|apply He| |exact Hb].
  - unfold sbytes. rewrite String.string_of_list_byte_of_string. done.
  - pose proof (zlen_nonneg (sbytes (VM e))). pose proof (zlen_nonneg (sbytes (Volume e))).
    pose proof (align8_bounds (zlen (sbytes (VM e)) + zlen (sbytes (Volume e)))). unfold entryHeadBytes. lia.
Qed.

(** What a head that is read back says of its entry. *)
Lemma decodeHead_bounds b h : decodeHead b = Ok h -> minEntryBytes <= length_ h <= maxStoredBytes /\ length_ h mod 8 = 0.
Proof.
  unfold decodeHead. destruct (_ || _ || _ || _ || _); [done|]. cbv zeta. set (h0 := mkHead _ _ _ _ _ _ _ _).
  destruct (bool_decide (kind h0 = kindPad)).
  - destruct (_ || _) eqn:E; [done|]. intros [= <-]. zbool. lia.
  - destruct (bool_decide (kind h0 = kindBlocks)); [|done]. destruct (_ || _) eqn:E; [done|]. intros [= <-]. zbool.
    pose proof (get_le_range (slice b 40 (40 + 2))). pose proof (get_le_range (slice b 42 (42 + 2))).
    pose proof (get_le_range (slice b 36 (36 + 4))).
    change (get_le (slice b 40 (40 + 2))) with (vm h0) in *. change (get_le (slice b 42 (42 + 2))) with (volume h0) in *.
    change (get_le (slice b 36 (36 + 4))) with (blocks h0) in *.
    pose proof (align8_bounds (vm h0 + volume h0)) as [? Hm].
    unfold minEntryBytes, MaxEntryBytes, maxStoredBytes, BlockBytes, entryHeadBytes, checksumBytes in *. split; [lia|].
    replace (length_ h0) with (align8 (vm h0 + volume h0) + (8 + blocks h0 * 513) * 8) by lia. by rewrite Z.mod_add by lia.
Qed.

Lemma checkEntry_spec b h : checkEntry b = Ok h -> decodeHead b = Ok h /\ zlen b = length_ h.
Proof.
  unfold checkEntry. destruct (decodeHead b) as [h'|]; [|done]. destruct (_ || _) eqn:E; [done|].
  destruct (negb (forallb _ _)); [done|]. intros [= ->]. zbool. done.
Qed.

End Entries.

(** C9: a header slot and an entry are read back as they were written: the slot
    [encodeSlot] writes decodes to itself, an entry that passes [check] decodes
    from the bytes [appendEntry] appends, whatever is before them, with the
    position it was placed at, and a pad decodes as a pad of its length. *)
Theorem journal_format_roundtrip `{Checksum} s e dst length pos gen :
  wf_slot s -> wf_entry e -> u64 pos -> u64 gen -> minEntryBytes <= length <= maxStoredBytes -> length mod 8 = 0 ->
  zlen (encodeSlot s) = slotBytes /\ decodeSlot (encodeSlot s) = Ok s /\
  (exists b, appendEntry dst e pos gen = dst ++ b /\ zlen b = entry_size e /\
     decodeEntry b = Ok (entry_head e pos gen, at_position e pos)) /\
  (exists b, appendPad dst length pos gen = dst ++ b /\ zlen b = length /\ checkEntry b = Ok (pad_head length pos gen)).
Proof.
  intros Hs He Hp Hg Hl Hm. split_and!.
  - by apply encodeSlot_length.
  - by apply decode_encodeSlot.
  - exists (sealed (concat (entry_fields e pos gen))). rewrite appendEntry_eq, sealed_length, entry_body_length by apply He.
    split_and!; [done|lia|]. by apply decodeEntry_entry.
  - exists (sealed (concat (pad_fields length pos gen))). rewrite appendPad_eq, sealed_length, pad_body_length by lia.
    split_and!; [done|lia|]. by apply checkEntry_pad.
Qed.

(** ** A witness *)

(** A checksum to compute with: the length and the sum of the bytes. *)
Definition sum_checksum (b : list byte) : list byte :=
  put_le 8 (zlen b) ++ put_le 8 (fold_right (fun x s => byteZ x + s) 0 b).

Lemma sum_checksum_length b : zlen (sum_checksum b) = checksumBytes.
Proof. unfold sum_checksum. by rewrite zlen_app, !zlen_put_le. Qed.

Definition sum_checksum_class : Checksum := {| checksum := sum_checksum; checksum_length := sum_checksum_length |}.

Definition sample_identity : Identity := zeros 15 ++ [Byte.x07].

Definition sample_slot : slot := mkSlot true 3 sample_identity 99 ringOffset 65536 65536 (mkLease 4 sample_identity).

Definition sample_entry : Entry := mkEntry "vm" "disk" 5 [2] (zeros 4096) 0.

#[local] Existing Instance sum_checksum_class.

Lemma journal_format_roundtrip_witness :
  decodeSlot (encodeSlot sample_slot) = Ok sample_slot /\
  exists b, appendEntry [] sample_entry 65536 99 = b /\
    decodeEntry b = Ok (entry_head sample_entry 65536 99, at_position sample_entry 65536).
Proof.
  destruct (journal_format_roundtrip sample_slot sample_entry [] 64 65536 99) as (_&Hs&(b&Hb&_&Hd)&_).
  - unfold wf_slot, u64, i64. simpl. unfold ringOffset, slotBytes. repeat split; lia || reflexivity.
  - constructor; [reflexivity|unfold u64; simpl; lia|]. repeat constructor; simpl; lia.
  - unfold u64. lia.
  - unfold u64. lia.
  - unfold minEntryBytes, maxStoredBytes, entryHeadBytes, checksumBytes. lia.
  - reflexivity.
  - split; [exact Hs|]. exists b. split; [exact Hb|exact Hd].
Defined.

End Journal.
