(* ===== verification/JournalRing.v ===== *)
(** * The journal's ring

    [journal/journal.go], [journal/writer.go] and [journal/trim.go]: the state
    of an open journal, how its writer admits commits and lays a batch out on
    the ring, how a batch completes, and how trimming moves the tail.  Positions
    are 64-bit; sizes and offsets are Go's signed 64-bit numbers, all bounded by
    the ring. *)

From S2P Require Import Prelude Bytes JournalFormat.

Module Ring.
Import Journal.

(** ** State *)

(** One entry the journal holds. *)
Record indexed := mkIndexed {
  i_position : Z;
  i_length : Z;
  i_vm : string;
  i_epoch : Z;
  dead : bool;
}.

(** The live entries of one VM and epoch, in position order. *)
Record held := mkHeld { h_entries : list indexed; h_bytes : Z }.

(** One call of [Commit] waiting for its batch: its room, whether its caller
    gave a [Full] hook, and whether that hook has run. *)
Record commit := mkCommit { c_id : Z; room : Z; hookFull : bool; full : bool }.

Record Journal := mkJournal {
  lease : Lease;
  identity : Identity;
  j_generation : Z;
  ringStart : Z;
  ringLength : Z;
  header : slot;
  current : Z;
  tail : Z;
  written : Z;
  next : Z;
  live : list indexed;
  held_ : gmap string (gmap Z held);
  fences : gmap string Z;
  queue : list commit;
  placed : Z;
  completed : Z;
  failed : option jerror;
  closed : bool;
}.

Definition with_header (j : Journal) (s : slot) (at_ : Z) : Journal :=
  mkJournal (lease j) (identity j) (j_generation j) (ringStart j) (ringLength j) s at_ (tail j) (written j) (next j)
    (live j) (held_ j) (fences j) (queue j) (placed j) (completed j) (failed j) (closed j).

Definition with_ends (j : Journal) (tail written next : Z) : Journal :=
  mkJournal (lease j) (identity j) (j_generation j) (ringStart j) (ringLength j) (header j) (current j) tail written next
    (live j) (held_ j) (fences j) (queue j) (placed j) (completed j) (failed j) (closed j).

Definition with_index (j : Journal) (live : list indexed) (held_ : gmap string (gmap Z held)) : Journal :=
  mkJournal (lease j) (identity j) (j_generation j) (ringStart j) (ringLength j) (header j) (current j) (tail j) (written j)
    (next j) live held_ (fences j) (queue j) (placed j) (completed j) (failed j) (closed j).

Definition with_fences (j : Journal) (fences : gmap string Z) : Journal :=
  mkJournal (lease j) (identity j) (j_generation j) (ringStart j) (ringLength j) (header j) (current j) (tail j) (written j)
    (next j) (live j) (held_ j) fences (queue j) (placed j) (completed j) (failed j) (closed j).

Definition with_queue (j : Journal) (queue : list commit) : Journal :=
  mkJournal (lease j) (identity j) (j_generation j) (ringStart j) (ringLength j) (header j) (current j) (tail j) (written j)
    (next j) (live j) (held_ j) (fences j) queue (placed j) (completed j) (failed j) (closed j).

Definition with_counts (j : Journal) (placed completed : Z) : Journal :=
  mkJournal (lease j) (identity j) (j_generation j) (ringStart j) (ringLength j) (header j) (current j) (tail j) (written j)
    (next j) (live j) (held_ j) (fences j) (queue j) placed completed (failed j) (closed j).

Definition with_stop (j : Journal) (failed : option jerror) (closed : bool) : Journal :=
  mkJournal (lease j) (identity j) (j_generation j) (ringStart j) (ringLength j) (header j) (current j) (tail j) (written j)
    (next j) (live j) (held_ j) (fences j) (queue j) (placed j) (completed j) failed closed.

(** Where a position lies on the disk, and the bytes from there to the ring's
    end. *)
Definition offset (j : Journal) (position : Z) : Z * Z :=
  let within := position mod ringLength j in
  (ringStart j + within, ringLength j - within).

(** [Journal.index] *)
Definition index (j : Journal) (e : indexed) : Journal :=
  let epochs := default ∅ (held_ j !! i_vm e) in
  let h := default (mkHeld [] 0) (epochs !! i_epoch e) in
  with_index j (live j ++ [e])
    (<[i_vm e := <[i_epoch e := mkHeld (h_entries h ++ [e]) (h_bytes h + i_length e)]> epochs]> (held_ j)).

Fixpoint drop_dead (live : list indexed) : list indexed :=
  match live with
  | e :: rest => if dead e then drop_dead rest else live
  | [] => []
  end.

(** [Journal.liveTail]: the live entries without the dead ones at their front,
    and the tail. *)
Definition liveTail (j : Journal) : list indexed * Z :=
  match drop_dead (live j) with
  | [] => ([], written j)
  | e :: rest => (e :: rest, i_position e)
  end.

(** The common end of [complete], [readBack] and [Trim]. *)
Definition settle_tail (j : Journal) : Journal :=
  let '(live, tail) := liveTail j in
  with_ends (with_index j live (held_ j)) tail (written j) (next j).

Definition refusal (j : Journal) : option jerror :=
  match failed j with
  | Some e => Some e
  | None => if closed j then Some ErrClosed else None
  end.

(** ** Commits *)

Definition reserve (room largest : Z) : Z := int64 (room + largest + BlockBytes + 2 * minEntryBytes).

(** [Journal.CommitHooked], up to its wait. *)
Definition CommitHooked (j : Journal) (id room : Z) (hookFull : bool) : result jerror Journal :=
  if (room <? 0) || (reserve room room >? ringLength j) then Err ErrTooLarge
  else match refusal j with
       | Some e => Err e
       | None => Ok (with_queue j (queue j ++ [mkCommit id room hookFull false]))
       end.

(** The end of a [Commit] whose context was cancelled: it leaves the queue, if
    it is still there. *)
Fixpoint leave_queue (queue : list commit) (id : Z) : list commit :=
  match queue with
  | [] => []
  | c :: queue => if c_id c =? id then queue else c :: leave_queue queue id
  end.

Definition CancelCommit (j : Journal) (id : Z) : Journal := with_queue j (leave_queue (queue j) id).

Fixpoint fit (next limit : Z) (queue : list commit) (total largest : Z) (n : nat) : nat :=
  match queue with
  | [] => n
  | c :: queue =>
    let total' := int64 (total + room c) in
    if (0 <? Z.of_nat n) && (total' >? MaxBatchBytes) then n
    else if wrap64 (next + wrap64 (reserve total' (Z.max largest (room c)))) >? limit then n
    else fit next limit queue total' (Z.max largest (room c)) (S n)
  end.

(** [Journal.fitting] *)
Definition fitting (j : Journal) : nat :=
  fit (next j) (wrap64 (s_tail (header j) + ringLength j)) (queue j) 0 0 0.

(** [tailHintInterval], in nanoseconds. *)
Definition tailHintInterval : Z := 10 ^ 9.

(** What one turn of [nextBatch]'s loop does: stop and fail the commits left,
    write the tail hint, take a batch, take a batch that only pads over a failed
    range, ask whoever trims the ring, or wait. *)
Inductive turn :=
  | Stop (e : jerror) (left : list commit)
  | WriteHint
  | Take (batch : list commit)
  | AskTrim
  | Wait.

(** [since] is the time since the last header write. *)
Definition nextBatch (j : Journal) (since : Z) : Journal * turn :=
  match refusal j with
  | Some e => (with_queue j [], Stop e (queue j))
  | None =>
    if negb (tail j =? s_tail (header j)) && (since >=? tailHintInterval) then (j, WriteHint)
    else
      let n := fitting j in
      if 0 <? Z.of_nat n then (with_queue j (drop n (queue j)), Take (take n (queue j)))
      else
        match queue j with
        | [] => (j, Wait)
        | c :: rest =>
          if written j <? next j then (j, Take [])
          else if negb (full c) then
            (with_queue j (mkCommit (c_id c) (room c) (hookFull c) true :: rest), if hookFull c then AskTrim else Wait)
          else (j, Wait)
        end
  end.

(** [capture]: what a commit's capture made, checked. *)
Fixpoint check_all (entries : list Entry) : option jerror :=
  match entries with
  | [] => None
  | e :: entries => match check e with Some err => Some err | None => check_all entries end
  end.

Definition total_size (entries : list Entry) : Z := fold_right (fun e total => entry_size e + total) 0 entries.

Definition capture (c : commit) (made : result jerror (list Entry)) : result jerror (list Entry) :=
  let? entries := made in
  match check_all entries with
  | Some err => Err err
  | None => if total_size entries >? room c then Err ErrTooLarge else Ok entries
  end.

(** [Journal.fenced] *)
Fixpoint fenced (j : Journal) (entries : list Entry) : option jerror :=
  match entries with
  | [] => None
  | e :: entries => if Epoch e <? default 0 (fences j !! VM e) then Some ErrFenced else fenced j entries
  end.

(** ** Placing a batch *)

Record placement := mkPlacement {
  p_start : Z;
  p_end : Z;
  image : list byte;
  entries : list indexed;
  positions : list (list Z);
}.

(** The layout in progress: the position reached, the bytes, the entries, and
    the positions of the commit being laid. *)
Record layout := mkLayout { l_position : Z; l_image : list byte; l_entries : list indexed; l_positions : list Z }.

Section Place.
Context `{Checksum}.

Definition pad (j : Journal) (st : layout) (length : Z) : layout :=
  mkLayout (wrap64 (l_position st + length)) (appendPad (l_image st) length (l_position st) (j_generation j))
    (l_entries st) (l_positions st).

(** The pads over a failed range; [fuel] bounds the loop, whose every turn moves
    the position on. *)
Fixpoint pad_failed (fuel : nat) (j : Journal) (st : layout) : layout :=
  match fuel with
  | O => st
  | S fuel =>
    if l_position st <? next j then
      let '(_, room) := offset j (l_position st) in
      let length := Z.min (next j - l_position st) room in
      let length := if length >? MaxEntryBytes then MaxEntryBytes / 2 else length in
      pad_failed fuel j (pad j st length)
    else st
  end.

Definition place_entry (j : Journal) (st : layout) (e : Entry) : layout :=
  let size := entry_size e in
  let '(_, room) := offset j (l_position st) in
  let st := if negb (size =? room) && (size + minEntryBytes >? room) then pad j st room else st in
  mkLayout (wrap64 (l_position st + size)) (appendEntry (l_image st) e (l_position st) (j_generation j))
    (l_entries st ++ [mkIndexed (l_position st) size (VM e) (Epoch e) false]) (l_positions st ++ [l_position st]).

(** One commit: its error, if its capture failed or a read fenced it, or its
    entries placed. *)
Definition place_commit (j : Journal) (st : layout) (captured : result jerror (list Entry))
  : layout * (list Z * option jerror) :=
  let outcome := let? es := captured in match fenced j es with Some e => Err e | None => Ok es end in
  match outcome with
  | Err e => (st, ([], Some e))
  | Ok es =>
    let st := fold_left (place_entry j) es (mkLayout (l_position st) (l_image st) (l_entries st) []) in
    (st, (l_positions st, None))
  end.

Fixpoint place_all (j : Journal) (st : layout) (captured : list (result jerror (list Entry)))
  : layout * list (list Z * option jerror) :=
  match captured with
  | [] => (st, [])
  | c :: captured =>
    let '(st, one) := place_commit j st c in
    let '(st, rest) := place_all j st captured in
    (st, one :: rest)
  end.

(** [Journal.place]: the placement, and the commits' errors. *)
Definition place (j : Journal) (captured : list (result jerror (list Entry))) : placement * list (option jerror) :=
  let st := mkLayout (written j) [] [] [] in
  let padded := written j <? next j in
  let st := pad_failed (Z.to_nat (next j - written j)) j st in
  let '(st, commits) := place_all j st captured in
  if (zlen (l_entries st) =? 0) && negb padded then (mkPlacement (written j) 0 [] [] commits.*1, commits.*2)
  else
    let gap := (BlockBytes - l_position st mod BlockBytes) mod BlockBytes in
    let st := if gap >? 0 then pad j st (if gap <? minEntryBytes then gap + BlockBytes else gap) else st in
    (mkPlacement (written j) (l_position st) (l_image st) (l_entries st) commits.*1, commits.*2).

(** The locked part of [commitBatch]. *)
Definition place_batch (j : Journal) (captured : list (result jerror (list Entry)))
  : Journal * (placement * list (option jerror)) :=
  let '(p, errs) := place j captured in
  let j := with_counts j (placed j + 1) (completed j) in
  (if zlen (image p) =? 0 then j else with_ends j (tail j) (written j) (p_end p), (p, errs)).

(** [Journal.complete]: [err] is the batch's write or sync error.  The answers
    are the commits' positions or errors. *)
Definition answer (err : option jerror) (commit : list Z * option jerror) : result jerror (list Z) :=
  match commit.2 with
  | Some e => Err e
  | None => match err with Some e => Err e | None => Ok commit.1 end
  end.

Definition complete (j : Journal) (p : placement) (errs : list (option jerror)) (err : option jerror)
  : Journal * list (result jerror (list Z)) :=
  let j := with_counts j (placed j) (completed j + 1) in
  let j := match err with
    | None =>
      let j := if zlen (image p) =? 0 then j else with_ends j (tail j) (p_end p) (next j) in
      settle_tail (fold_left index (entries p) j)
    | Some _ => j
    end in
  (j, answer err <$> zip (positions p) errs).

End Place.

(** ** Trimming *)

Definition trimmed (covered : gmap Z Z) (e : indexed) : bool :=
  match covered !! i_epoch e with None => true | Some position => i_position e <=? position end.

(** An entry a [Trim] of its VM kills: the index and [held] share the entry, so
    its mark shows in [live]. *)
Definition kill (vm : string) (covered : gmap Z Z) (e : indexed) : indexed :=
  if bool_decide (i_vm e = vm) && trimmed covered e
  then mkIndexed (i_position e) (i_length e) (i_vm e) (i_epoch e) true else e.

(** What is kept of one VM and epoch, or nothing. *)
Definition trim_held (covered : gmap Z Z) (epoch : Z) (h : held) : option held :=
  let kept := filter (fun e => trimmed covered e = false) (h_entries h) in
  let bytes := fold_left (fun b e => if trimmed covered e then b - i_length e else b) (h_entries h) (h_bytes h) in
  match kept with [] => None | _ => Some (mkHeld kept bytes) end.

Definition Trim (j : Journal) (vm : string) (covered : gmap Z Z) : Journal :=
  let epochs := map_imap (trim_held covered) (default ∅ (held_ j !! vm)) in
  let held' := if bool_decide (epochs = ∅) then delete vm (held_ j) else <[vm := epochs]> (held_ j) in
  settle_tail (with_index j (kill vm covered <$> live j) held').

(** ** Reports *)

Record Held := mkHeldReport { H_VM : string; H_Epoch : Z; H_Entries : Z; H_Bytes : Z; H_First : Z; H_Last : Z }.

Definition held_report (vm : string) (epoch : Z) (h : held) : Held :=
  mkHeldReport vm epoch (zlen (h_entries h)) (h_bytes h)
    (default 0 (i_position <$> h_entries h !! 0%nat)) (default 0 (i_position <$> last (h_entries h))).

(** [Usage.Used], [Usage.Next] and [Shortfall]. *)
Definition Used (j : Journal) : Z := next j - tail j.

Definition Shortfall (j : Journal) (room : Z) : Z :=
  let free := int64 (int64 (tail j) + ringLength j - int64 (next j)) in
  Z.max 0 (int64 (reserve room room - free)).

Fixpoint oldest_from (live : list indexed) (stop : Z) (vms : list string) : list string :=
  match live with
  | [] => vms
  | e :: live =>
    if i_position e >=? stop then vms
    else oldest_from live stop (if negb (dead e) && negb (bool_decide (i_vm e ∈ vms)) then vms ++ [i_vm e] else vms)
  end.

Definition Oldest (j : Journal) (bytes : Z) : list string :=
  oldest_from (live j) (wrap64 (tail j + Z.max bytes 0)) [].

(** ** Pieces of the ring

    What lies on the ring is a run of pieces, each a whole entry or pad that
    reads back at its position and does not cross the ring's end. *)

Definition piece : Type := Z * list byte.

Definition room_at (L pos : Z) : Z := L - pos mod L.

(** A position an entry may be placed at: a pad fits before the ring's end. *)
Definition ready_at (L pos : Z) : Prop := 0 <= pos /\ pos mod 8 = 0 /\ minEntryBytes <= room_at L pos.


Section Pieces.
Context `{Checksum}.

Definition reads_at (gen pos : Z) (b : list byte) : Prop :=
  exists h, checkEntry b = Ok h /\ position h = pos /\ generation h = gen.

Fixpoint pieces_ok (L gen pos : Z) (ps : list piece) (stop : Z) : Prop :=
  match ps with
  | [] => pos = stop
  | (q, b) :: ps => q = pos /\ reads_at gen pos b /\ zlen b <= L - pos mod L /\ pieces_ok L gen (pos + zlen b) ps stop
  end.

(** What reading a piece back indexes. *)
Definition piece_index (p : piece) : list indexed :=
  match checkEntry p.2 with
  | Ok h => if bool_decide (kind h = kindBlocks) then [mkIndexed p.1 (zlen p.2) (entryVM p.2 h) (epoch h) false] else []
  | Err _ => []
  end.

Lemma reads_at_bounds gen pos b : reads_at gen pos b -> minEntryBytes <= zlen b <= maxStoredBytes /\ zlen b mod 8 = 0.
Proof. intros (h&[Hd ->]%checkEntry_spec&_). by apply decodeHead_bounds in Hd. Qed.

Lemma pieces_ok_app L gen pos ps qs mid stop :
  pieces_ok L gen pos ps mid -> pieces_ok L gen mid qs stop -> pieces_ok L gen pos (ps ++ qs) stop.
Proof.
  revert pos. induction ps as [|[q b] ps IH]; simpl; intros pos; [by intros ->|]. intros (->&?&?&?) ?. auto.
Qed.

Lemma pieces_ok_length L gen pos ps stop : pieces_ok L gen pos ps stop -> stop = pos + zlen (concat ps.*2).
Proof.
  revert pos. induction ps as [|[q b] ps IH]; simpl; intros pos; [unfold zlen; simpl; lia|].
  intros (->&_&_&Hp). apply IH in Hp. rewrite zlen_app. change (list_fmap _ _ _ _) with (ps.*2). lia.
Qed.

Lemma pieces_ok_le L gen pos ps stop : pieces_ok L gen pos ps stop -> pos <= stop.
Proof. intros ->%pieces_ok_length. pose proof (zlen_nonneg (concat ps.*2)). lia. Qed.

Lemma concat_snoc (ps : list piece) q b : concat (ps ++ [(q, b)]).*2 = concat ps.*2 ++ b.
Proof. rewrite fmap_app, concat_app. simpl. by rewrite app_nil_r. Qed.

Lemma flat_map_snoc {A B} (f : A -> list B) l x : flat_map f (l ++ [x]) = flat_map f l ++ f x.
Proof. rewrite flat_map_app. simpl. by rewrite app_nil_r. Qed.

Lemma pieces_ok_snoc L gen pos ps mid b :
  pieces_ok L gen pos ps mid -> reads_at gen mid b -> zlen b <= L - mid mod L ->
  pieces_ok L gen pos (ps ++ [(mid, b)]) (mid + zlen b).
Proof. intros Hp Hr Hl. by apply (pieces_ok_app _ _ _ _ _ mid). Qed.

(** Every piece ends where another may follow it. *)
Definition ends_ready (L : Z) (ps : list piece) : Prop := Forall (fun p => ready_at L (p.1 + zlen p.2)) ps.

(** A layout in progress from [start]. *)
Definition laid (L gen start : Z) (st : layout) (ps : list piece) : Prop :=
  l_image st = concat ps.*2 /\ pieces_ok L gen start ps (l_position st) /\ l_entries st = flat_map piece_index ps /\
  ends_ready L ps.

Definition entry_bytes (e : Entry) (pos gen : Z) : list byte := sealed (concat (entry_fields e pos gen)).
Definition pad_bytes (len pos gen : Z) : list byte := sealed (concat (pad_fields len pos gen)).

Lemma laid_pad j start st ps len :
  let L := ringLength j in let pos := l_position st in
  laid L (j_generation j) start st ps -> u64 (j_generation j) -> 0 <= pos -> pos + len < 2 ^ 64 ->
  minEntryBytes <= len <= maxStoredBytes -> len mod 8 = 0 -> len <= L - pos mod L -> ready_at L (pos + len) ->
  laid L (j_generation j) start (pad j st len) (ps ++ [(pos, pad_bytes len pos (j_generation j))]) /\
  l_position (pad j st len) = pos + len.
Proof.
  intros L pos (Hi&Hp&He&Hrd) Hg H0 H64 Hl Hm Hr Hrd'. unfold pad. cbn [l_position].
  assert (u64 pos /\ u64 (pos + len)) as [Hu Hu']
    by (unfold u64, minEntryBytes, entryHeadBytes, checksumBytes in *; lia).
  pose proof (checkEntry_pad len pos (j_generation j) Hl Hm Hu Hg) as Hc.
  assert (zlen (pad_bytes len pos (j_generation j)) = len) as Hz
    by (unfold pad_bytes; rewrite sealed_length, pad_body_length by lia; lia).
  unfold pos in *. rewrite wrap64_small by done. split; [|done]. split_and!; cbn [l_image l_position l_entries].
  - by rewrite appendPad_eq, Hi, concat_snoc.
  - replace (l_position st + len) with (l_position st + zlen (pad_bytes len (l_position st) (j_generation j))) by lia.
    apply pieces_ok_snoc; [done| |by rewrite Hz]. eexists. split; [exact Hc|done].
  - rewrite He, flat_map_snoc. unfold piece_index at 3. cbn [snd]. unfold pad_bytes. rewrite Hc.
    rewrite bool_decide_false by done. by rewrite app_nil_r.
  - apply Forall_app. split; [done|]. constructor; [|constructor]. cbn [fst snd]. by rewrite Hz.
Qed.

Lemma laid_entry j start st ps e :
  let L := ringLength j in let pos := l_position st in
  laid L (j_generation j) start st ps -> u64 (j_generation j) -> 0 <= pos -> pos + entry_size e < 2 ^ 64 ->
  wf_entry e -> entry_size e <= L - pos mod L -> ready_at L (pos + entry_size e) ->
  let st' := mkLayout (wrap64 (pos + entry_size e)) (appendEntry (l_image st) e pos (j_generation j))
    (l_entries st ++ [mkIndexed pos (entry_size e) (VM e) (Epoch e) false]) (l_positions st ++ [pos]) in
  laid L (j_generation j) start st' (ps ++ [(pos, entry_bytes e pos (j_generation j))]) /\
  l_position st' = pos + entry_size e.
Proof.
  intros L pos (Hi&Hp&He&Hrd) Hg H0 H64 Hw Hr Hrd' st'. pose proof (check_spec e (wf_check e Hw)) as (_&_&_&Hs&_).
  assert (u64 pos /\ u64 (pos + entry_size e)) as [Hu Hu']
    by (unfold u64, minEntryBytes, entryHeadBytes, checksumBytes in *; lia).
  pose proof (checkEntry_entry e pos (j_generation j) Hw Hu Hg) as Hc.
  assert (zlen (entry_bytes e pos (j_generation j)) = entry_size e) as Hz
    by (unfold entry_bytes; rewrite sealed_length, entry_body_length by apply Hw; lia).
  unfold st'. cbn [l_position]. rewrite wrap64_small by done. split; [|done]. split_and!; cbn [l_image l_position l_entries].
  - by rewrite appendEntry_eq, Hi, concat_snoc.
  - rewrite <- Hz. apply pieces_ok_snoc; [done| |by rewrite Hz]. eexists. split; [exact Hc|done].
  - rewrite He, flat_map_snoc. unfold piece_index at 3. cbn [fst snd]. rewrite Hz. unfold entry_bytes. rewrite Hc.
    rewrite bool_decide_true by done. by rewrite (proj2 (decodeEntry_entry e pos (j_generation j) Hw Hu Hg)).
  - apply Forall_app. split; [done|]. constructor; [|constructor]. cbn [fst snd]. by rewrite Hz.
Qed.

End Pieces.

(** ** Layout *)

(** A ring's shape. *)
Definition ring_ok (L : Z) : Prop := minRingSize <= L < 2 ^ 63 /\ L mod BlockBytes = 0.

(** The next ring end after a position. *)
Definition ring_end (L pos : Z) : Z := (pos / L + 1) * L.

Ltac constants :=
  unfold minRingSize, minEntryBytes, MaxEntryBytes, maxStoredBytes, BlockBytes, entryHeadBytes, checksumBytes in *.

Lemma mod_shift L a b : 0 < L -> a * L <= b < (a + 1) * L -> b mod L = b - a * L.
Proof. intros HL Hb. symmetry. apply (Z.mod_unique_pos _ _ a); lia. Qed.

Lemma room_end L pos q : 0 < L -> pos <= q < ring_end L pos -> 0 <= pos -> room_at L q = ring_end L pos - q.
Proof.
  intros HL Hq Hp. unfold room_at, ring_end in *. pose proof (Z.mul_div_le pos L HL).
  rewrite (mod_shift L (pos / L)) by lia. lia.
Qed.

Lemma room_next L pos q : 0 < L -> ring_end L pos <= q < ring_end L pos + L -> room_at L q = ring_end L pos + L - q.
Proof. intros HL Hq. unfold room_at, ring_end in *. rewrite (mod_shift L (pos / L + 1)) by lia. lia. Qed.

Lemma ring_end_bounds L pos : 0 < L -> pos < ring_end L pos <= pos + L.
Proof.
  intros HL. unfold ring_end. pose proof (Z.mul_div_le pos L HL). pose proof (Z.mul_succ_div_gt pos L HL). lia.
Qed.

Lemma ring_end_mod L pos k : k <> 0 -> L mod k = 0 -> ring_end L pos mod k = 0.
Proof. intros Hk HL. unfold ring_end. rewrite Z.mul_mod, HL, Z.mul_0_r by done. by apply Z.mod_0_l. Qed.

Lemma ring_mod8 L : ring_ok L -> L mod 8 = 0.
Proof.
  intros [_ Hm]. constants. apply Z.mod_divide; [lia|]. apply Z.mod_divide in Hm; [|lia].
  etransitivity; [|exact Hm]. by exists 512.
Qed.

Lemma mod8_of_block a : a mod BlockBytes = 0 -> a mod 8 = 0.
Proof.
  constants. intros Hm. apply Z.mod_divide; [lia|]. apply Z.mod_divide in Hm; [|lia].
  etransitivity; [|exact Hm]. by exists 512.
Qed.

Lemma mod8_sub a b : a mod 8 = 0 -> b mod 8 = 0 -> (a - b) mod 8 = 0.
Proof. intros Ha Hb. rewrite Zminus_mod, Ha, Hb. done. Qed.

Lemma mod8_add a b : a mod 8 = 0 -> b mod 8 = 0 -> (a + b) mod 8 = 0.
Proof. intros Ha Hb. rewrite Zplus_mod, Ha, Hb. done. Qed.

(** A block-aligned position leaves a whole block before the ring's end. *)
Lemma aligned_room L pos : ring_ok L -> 0 <= pos -> pos mod BlockBytes = 0 -> ready_at L pos.
Proof.
  intros [HL Hm] Hp Ha. split_and!; [done|by apply mod8_of_block|].
  pose proof (ring_end_bounds L pos ltac:(constants; lia)).
  rewrite (room_end L pos pos) by (constants; lia).
  pose proof (ring_end_mod L pos BlockBytes ltac:(done) Hm) as He. constants.
  pose proof (Z.div_mod (ring_end L pos) 4096 ltac:(lia)). pose proof (Z.div_mod pos 4096 ltac:(lia)). lia.
Qed.

Section Layout.
Context `{Checksum} (j : Journal).
#[local] Notation L := (ringLength j).
#[local] Notation gen := (j_generation j).
Hypothesis HL : ring_ok L.
Hypothesis Hgen : u64 gen.

(** One turn of the pads over a failed range. *)
Lemma failed_turn p :
  ready_at L p -> p < next j -> next j mod BlockBytes = 0 -> minEntryBytes <= next j - p ->
  let length := Z.min (next j - p) (room_at L p) in
  let length := if length >? MaxEntryBytes then MaxEntryBytes / 2 else length in
  minEntryBytes <= length <= maxStoredBytes /\ length mod 8 = 0 /\ length <= room_at L p /\ length <= next j - p /\
  ready_at L (p + length) /\ (p + length < next j -> minEntryBytes <= next j - (p + length)).
Proof.
  intros (Hp&H8&Hr) Hlt Hn Hmin. pose proof HL as [HL1 HL2]. pose proof (ring_mod8 L HL) as HL8.
  pose proof (ring_end_bounds L p ltac:(constants; lia)) as He.
  pose proof (room_end L p p ltac:(constants; lia) ltac:(lia) Hp) as Hre.
  pose proof (ring_end_mod L p 8 ltac:(lia) HL8) as He8. pose proof (ring_end_mod L p BlockBytes ltac:(done) HL2) as Heb.
  pose proof (mod8_of_block (next j) Hn) as Hn8.
  destruct (Z.min_spec (next j - p) (room_at L p)) as [[Hc ->]|[Hc ->]]; cbv zeta.
  - destruct (_ >? MaxEntryBytes) eqn:E; zbool.
    + change (MaxEntryBytes / 2) with 8386560. split_and!; try (constants; lia); [done|].
      split_and!; [constants; lia|by apply mod8_add|]. rewrite (room_end L p) by (constants; lia). constants; lia.
    + split_and!; try (constants; lia); [by apply mod8_sub|].
      replace (p + (next j - p)) with (next j) by lia. apply aligned_room; [done|lia|done].
  - destruct (_ >? MaxEntryBytes) eqn:E; zbool.
    + change (MaxEntryBytes / 2) with 8386560. split_and!; try (constants; lia); [done|].
      split_and!; [constants; lia|by apply mod8_add|]. rewrite (room_end L p) by (constants; lia). constants; lia.
    + rewrite Hre in *. replace (p + (ring_end L p - p)) with (ring_end L p) by lia.
      split_and!; try (constants; lia); [by apply mod8_sub|apply aligned_room; [done|lia|done]|].
      intros Hlt'. constants. pose proof (Z.div_mod (ring_end L p) 4096 ltac:(lia)).
      pose proof (Z.div_mod (next j) 4096 ltac:(lia)). lia.
Qed.

Lemma pad_failed_spec fuel start st ps :
  laid L gen start st ps -> ready_at L (l_position st) -> l_position st <= next j < 2 ^ 64 ->
  (l_position st < next j -> next j mod BlockBytes = 0 /\ minEntryBytes <= next j - l_position st) ->
  next j - l_position st <= Z.of_nat fuel ->
  exists ps', laid L gen start (pad_failed fuel j st) ps' /\ l_position (pad_failed fuel j st) = next j /\
    l_entries (pad_failed fuel j st) = l_entries st /\ ready_at L (next j).
Proof.
  revert st ps. induction fuel as [|fuel IH]; simpl; intros st ps Hl Hr Hp Hn Hf.
  { assert (l_position st = next j) as He by lia. rewrite <- He in *. eauto. }
  destruct (l_position st <? next j) eqn:E; zbool; [|assert (l_position st = next j) as He by lia; rewrite <- He in *; eauto].
  destruct (Hn E) as [Hna Hmin]. fold (room_at L (l_position st)).
  destruct (failed_turn (l_position st) Hr E Hna Hmin) as (Hb&H8&Hroom&Hle&Hr'&Hm').
  set (len := if _ >? _ then _ else _) in *.
  destruct (laid_pad j start st ps len Hl Hgen) as [Hl' Hp']; try done; try lia; [apply Hr|].
  destruct (IH (pad j st len) _ Hl') as (ps'&?&?&?&?); rewrite ?Hp'; try done; try lia.
  - constants. lia.
  - exists ps'. by split_and!.
Qed.

(** What [reserve] means, without its wrap-around. *)
Definition needs (room largest : Z) : Z := room + largest + BlockBytes + 2 * minEntryBytes.

(** Where the entries of a batch have reached, [used] bytes of them laid from
    [N]: before the ring's end, or past it with one pad, shorter than the largest
    entry and a pad's head, behind them. *)
Definition spread (N largest used q : Z) : Prop :=
  let E := ring_end L N in
  (q = N + used /\ q + minEntryBytes <= E) \/ (E <= q /\ q - E <= used /\ q < N + used + largest + minEntryBytes).

Lemma spread_room N total largest used q :
  0 <= N -> 0 <= used <= total -> 0 <= largest -> needs total largest <= L -> spread N largest used q ->
  (q < ring_end L N /\ room_at L q = ring_end L N - q) \/
  (ring_end L N <= q /\ room_at L q = ring_end L N + L - q /\ total + 2 * minEntryBytes <= room_at L q + used).
Proof.
  intros HN Hu Hlg Hres Hs. pose proof HL as [HL1 _]. unfold spread, needs in *. pose proof (ring_end_bounds L N ltac:(constants; lia)).
  destruct Hs as [[-> ?]|(?&?&?)].
  - left. split; [constants; lia|]. rewrite (room_end L N) by (constants; lia). done.
  - right. split; [done|]. rewrite (room_next L N) by (constants; lia). split; [done|constants; lia].
Qed.

Lemma spread_ready N total largest used q :
  ready_at L N -> needs total largest <= L -> 0 <= used <= total -> 0 <= largest -> N <= q -> q mod 8 = 0 ->
  spread N largest used q -> ready_at L q /\ q < N + total + largest + minEntryBytes.
Proof.
  intros (HN&_&_) Hres Hu Hlg Hle H8 Hs. split; [split_and!; [lia|done|]|].
  - destruct (spread_room N total largest used q HN Hu Hlg Hres Hs) as [[? ->]|(?&?&?)]; [|constants; lia].
    destruct Hs as [[_ ?]|[? _]]; constants; lia.
  - destruct Hs as [[-> _]|(_&_&?)]; constants; lia.
Qed.

Definition placed_in (ps : list piece) (e : Entry) (pos : Z) : Prop := (pos, entry_bytes e pos gen) ∈ ps.

(** An entry laid where it fits. *)
Lemma place_one start st ps e (P : Z -> Prop) N :
  laid L gen start st ps -> 0 <= l_position st -> l_position st + entry_size e < 2 ^ 64 -> wf_entry e ->
  entry_size e <= room_at L (l_position st) -> ready_at L (l_position st + entry_size e) ->
  N <= l_position st + entry_size e -> P (l_position st + entry_size e) ->
  let st' := mkLayout (wrap64 (l_position st + entry_size e)) (appendEntry (l_image st) e (l_position st) gen)
    (l_entries st ++ [mkIndexed (l_position st) (entry_size e) (VM e) (Epoch e) false]) (l_positions st ++ [l_position st]) in
  exists ps' pos, laid L gen start st' (ps ++ ps') /\ l_positions st' = l_positions st ++ [pos] /\
    l_entries st' = l_entries st ++ [mkIndexed pos (entry_size e) (VM e) (Epoch e) false] /\
    placed_in ps' e pos /\ l_position st' mod 8 = 0 /\ N <= l_position st' /\ P (l_position st').
Proof.
  intros Hl H0 H64 He Hroom Hrd HN HP.
  destruct (laid_entry j start st ps e Hl Hgen) as [Hl2 Hp2]; try done.
  eexists _, (l_position st). split; [exact Hl2|]. cbn [l_positions l_entries l_position] in *. rewrite Hp2.
  split_and!; try done; [by apply list_elem_of_singleton|apply Hrd].
Qed.

Lemma place_entry_spec N total largest used start st ps e :
  ready_at L N -> N + needs total largest < 2 ^ 64 -> needs total largest <= L ->
  laid L gen start st ps -> l_position st mod 8 = 0 -> N <= l_position st -> spread N largest used (l_position st) ->
  wf_entry e -> entry_size e <= largest -> 0 <= used -> used + entry_size e <= total ->
  let st' := place_entry j st e in
  exists ps' pos, laid L gen start st' (ps ++ ps') /\ l_positions st' = l_positions st ++ [pos] /\
    l_entries st' = l_entries st ++ [mkIndexed pos (entry_size e) (VM e) (Epoch e) false] /\
    placed_in ps' e pos /\ l_position st' mod 8 = 0 /\ N <= l_position st' /\
    spread N largest (used + entry_size e) (l_position st').
Proof.
  intros HNr H64 Hres Hl H8 Hle Hs He Hsz Hu Ht. pose proof HNr as [HN _]. pose proof (check_spec e (wf_check e He)) as (_&_&_&Hse&Hs8).
  pose proof HL as [HL1 HL2]. pose proof (ring_mod8 L HL) as HL8. pose proof (ring_end_mod L N 8 ltac:(lia) HL8) as He8.
  pose proof (ring_end_bounds L N ltac:(constants; lia)) as HE.
  pose proof (fun q => spread_ready N total largest (used + entry_size e) q HNr Hres ltac:(constants; lia) ltac:(constants; lia)) as Hready.
  destruct (spread_room N total largest used _ HN ltac:(constants; lia) ltac:(constants; lia) Hres Hs) as [[Hq Hroom]|(Hq&Hroom&Hroom')].
  - destruct Hs as [[Hq' Hq64]|?]; [|lia]. set (q := l_position st) in *. unfold place_entry, offset. fold q. fold (room_at L q).
    destruct (negb _ && _) eqn:E.
    + apply andb_true_iff in E as [E1 E2]. zbool. unfold needs in H64, Hres.
      destruct (laid_pad j start st ps (room_at L q) Hl Hgen) as [Hl1 Hp1]; fold q; try (constants; lia);
        [rewrite Hroom; by apply mod8_sub|unfold room_at; lia| |].
      { replace (q + room_at L q) with (ring_end L N) by lia. apply aligned_room; [done|lia|by apply ring_end_mod]. }
      fold q in Hl1, Hp1. set (st1 := pad j st (room_at L q)) in *. replace (q + room_at L q) with (ring_end L N) in Hp1 by lia.
      pose proof (room_next L N (ring_end L N) ltac:(constants; lia) ltac:(constants; lia)) as Hrn.
      assert (spread N largest (used + entry_size e) (ring_end L N + entry_size e)) as Hs' by (right; constants; lia).
      pose proof (mod8_add _ _ He8 Hs8) as H8'. destruct (Hready (ring_end L N + entry_size e) ltac:(constants; lia) H8' Hs') as [Hrd _].
      destruct (laid_entry j start st1 _ e Hl1 Hgen) as [Hl2 Hp2]; rewrite ?Hp1; try done; try (constants; lia);
        [unfold room_at in Hrn; constants; lia|].
      rewrite Hp1 in Hl2, Hp2. rewrite <- (app_assoc ps) in Hl2. eexists _, (ring_end L N). split; [exact Hl2|].
      cbn [l_positions l_entries l_position] in *. rewrite Hp2. split_and!; try done; try (constants; lia).
      apply elem_of_app. right. by apply list_elem_of_singleton.
    + assert (spread N largest (used + entry_size e) (q + entry_size e)) as Hs'
        by (apply andb_false_iff in E as [E|E]; zbool; [right|left]; constants; lia).
      pose proof (mod8_add _ _ H8 Hs8) as H8'. destruct (Hready (q + entry_size e) ltac:(constants; lia) H8' Hs') as [Hrd _].
      apply (place_one start st ps e (spread N largest (used + entry_size e))); try done; fold q;
        try (unfold needs in *; constants; lia).
  - set (q := l_position st) in *. unfold place_entry, offset. fold q. fold (room_at L q).
    assert (negb (entry_size e =? room_at L q) && (entry_size e + minEntryBytes >? room_at L q) = false) as ->.
    { apply andb_false_iff. right. destruct (_ >? _) eqn:E; zbool; [constants; lia|done]. }
    destruct Hs as [[? ?]|(_&Hq1&Hq2)]; [constants; lia|].
    assert (spread N largest (used + entry_size e) (q + entry_size e)) as Hs' by (right; constants; lia).
    pose proof (mod8_add _ _ H8 Hs8) as H8'. destruct (Hready (q + entry_size e) ltac:(constants; lia) H8' Hs') as [Hrd _].
    apply (place_one start st ps e (spread N largest (used + entry_size e))); try done; fold q;
      unfold needs in *; constants; lia.
Qed.

(** The entries of a batch so far: laid, aligned, within the batch's room. *)
Definition laying (N total largest used start : Z) (st : layout) (ps : list piece) : Prop :=
  laid L gen start st ps /\ l_position st mod 8 = 0 /\ N <= l_position st /\ spread N largest used (l_position st).

Lemma placed_in_app ps qs e pos : placed_in ps e pos \/ placed_in qs e pos -> placed_in (ps ++ qs) e pos.
Proof. unfold placed_in. by rewrite elem_of_app. Qed.

Definition index_of (e : Entry) (pos : Z) : indexed := mkIndexed pos (entry_size e) (VM e) (Epoch e) false.

Lemma place_entries_spec N total largest used start st ps es :
  ready_at L N -> N + needs total largest < 2 ^ 64 -> needs total largest <= L ->
  laying N total largest used start st ps ->
  Forall wf_entry es -> total_size es <= largest -> 0 <= used -> used + total_size es <= total ->
  let st' := fold_left (place_entry j) es st in
  exists ps' poss, laying N total largest (used + total_size es) start st' (ps ++ ps') /\
    l_positions st' = l_positions st ++ poss /\ l_entries st' = l_entries st ++ zip_with index_of es poss /\
    Forall2 (placed_in ps') es poss.
Proof.
  intros HN H64 Hres. revert used st ps. induction es as [|e es IH]; simpl; intros used st ps Hl Hw Hlg Hu Ht.
  { exists [], []. rewrite !app_nil_r, Z.add_0_r. split; [done|]. by split_and!. }
  apply Forall_cons in Hw as [He Hw]. destruct Hl as (Hl&H8&Hle&Hs).
  pose proof (check_spec e (wf_check e He)) as (_&_&_&Hse&_).
  assert (0 <= total_size es) as H0.
  { clear -Hw. induction Hw as [|x l Hx _ IH]; simpl; [lia|]. pose proof (check_spec x (wf_check x Hx)) as (_&_&_&?&_). constants; lia. }
  destruct (place_entry_spec N total largest used start st ps e HN H64 Hres Hl H8 Hle Hs He ltac:(lia) Hu ltac:(lia))
    as (ps1&pos&Hl1&Hp1&He1&Hin1&H81&Hle1&Hs1).
  destruct (IH (used + entry_size e) (place_entry j st e) (ps ++ ps1)) as (ps2&poss&Hl2&Hp2&He2&Hin2);
    [by split_and!|done|constants; lia|constants; lia|lia|].
  exists (ps1 ++ ps2), (pos :: poss). split_and!.
  - by rewrite app_assoc, Z.add_assoc.
  - by rewrite Hp2, Hp1, <- app_assoc.
  - by rewrite He2, He1, <- app_assoc.
  - constructor; [by apply placed_in_app; left|]. eapply Forall2_impl; [exact Hin2|]. intros. by apply placed_in_app; right.
Qed.

(** What [capture] lets into a batch. *)
Definition captured_ok (c : commit) (r : result jerror (list Entry)) : Prop :=
  0 <= room c /\ match r with Ok es => Forall wf_entry es /\ total_size es <= room c | Err _ => True end.

(** One commit's outcome: refused, or its entries placed, and none of a VM
    fenced at a newer epoch. *)
Definition placed_commit (ps : list piece) (r : result jerror (list Entry)) (one : list Z * option jerror) : Prop :=
  match one.2 with
  | Some _ => one.1 = []
  | None => exists es, r = Ok es /\ fenced j es = None /\ Forall2 (placed_in ps) es one.1
  end.

Definition unfenced (x : indexed) : Prop := default 0 (fences j !! i_vm x) <= i_epoch x.

Lemma unfenced_zip es poss : fenced j es = None -> Forall unfenced (zip_with index_of es poss).
Proof.
  revert poss. induction es as [|e es IH]; intros [|pos poss]; simpl; try done.
  destruct (_ <? _) eqn:E; [done|]. intros. constructor; [zbool; exact E|by apply IH].
Qed.

Definition total_room (batch : list commit) : Z := fold_right (fun c t => room c + t) 0 batch.

Lemma place_all_spec N total largest used start st ps batch captured :
  ready_at L N -> N + needs total largest < 2 ^ 64 -> needs total largest <= L ->
  laying N total largest used start st ps ->
  Forall2 captured_ok batch captured -> Forall (fun c => room c <= largest) batch -> 0 <= used ->
  used + total_room batch <= total ->
  let '(st', commits) := place_all j st captured in
  exists ps' used', laying N total largest used' start st' (ps ++ ps') /\ 0 <= used' <= total /\
    Forall2 (placed_commit ps') captured commits /\
    exists es', l_entries st' = l_entries st ++ es' /\ Forall unfenced es' /\ length es' = length (concat commits.*1).
Proof.
  intros HN H64 Hres Hl Hc. revert used st ps Hl.
  induction Hc as [|c r batch captured [Hc0 Hc] Hcs IH]; simpl; intros used st ps Hl Hlg Hu Ht.
  { exists [], used. rewrite app_nil_r. split_and!; try done; try lia. exists []. by rewrite app_nil_r. }
  apply Forall_cons in Hlg as [Hlg1 Hlg].
  assert (0 <= total_room batch) as H0.
  { clear -Hcs. induction Hcs as [|x y l k [? _] _ IH]; simpl; lia. }
  unfold place_commit. destruct r as [es|e]; [destruct (fenced j es) as [e|] eqn:Ef|].
  - specialize (IH used st ps Hl Hlg Hu ltac:(lia)). destruct (place_all j st captured) as [st' commits].
    destruct IH as (ps'&u'&?&?&?&?). exists ps', u'. split_and!; try done; try lia. constructor; [done|done].
  - destruct Hc as [Hw Hr]. set (st0 := mkLayout _ _ _ _).
    assert (laying N total largest used start st0 ps) as Hl0 by (destruct Hl as (?&?&?&?); by split_and!).
    destruct (place_entries_spec N total largest used start st0 ps es HN H64 Hres Hl0 Hw ltac:(lia) Hu ltac:(lia))
      as (ps1&poss&Hl1&Hp1&He1&Hin1). set (st1 := fold_left _ es st0) in *.
    assert (0 <= total_size es) as Hes.
    { clear -Hw. induction Hw as [|x l Hx _ IH]; simpl; [lia|]. pose proof (check_spec x (wf_check x Hx)) as (_&_&_&?&_). constants; lia. }
    specialize (IH (used + total_size es) st1 (ps ++ ps1) Hl1 Hlg ltac:(lia) ltac:(lia)).
    destruct (place_all j st1 captured) as [st' commits]. destruct IH as (ps2&u'&Hl2&Hu2&Hcm&es2&He2&Hf2&Hn2).
    exists (ps1 ++ ps2), u'. rewrite app_assoc. split_and!; try done; try lia.
    + constructor.
      * exists es. split_and!; [done|done|]. simpl. rewrite Hp1. simpl. eapply Forall2_impl; [exact Hin1|].
        intros. by apply placed_in_app; left.
      * eapply Forall2_impl; [exact Hcm|]. intros r [poss' [er|]]; simpl; [done|].
        intros (es'&?&?&?). exists es'. split_and!; try done. eapply Forall2_impl; [done|]. intros. by apply placed_in_app; right.
    + eexists. rewrite He2, He1, <- app_assoc. simpl. split; [done|]. split; [apply Forall_app; split; [by apply unfenced_zip|done]|].
      rewrite Hp1. simpl. rewrite !length_app, length_zip_with, (Forall2_length _ _ _ Hin1), Nat.min_id. by f_equal.
  - specialize (IH used st ps Hl Hlg Hu ltac:(lia)). destruct (place_all j st captured) as [st' commits].
    destruct IH as (ps'&u'&?&?&?&?). exists ps', u'. split_and!; try done; try lia. constructor; [done|done].
Qed.

(** The pad that ends a batch on a block boundary fits before the ring's end. *)
Lemma gap_spec q :
  ready_at L q ->
  let gap := (BlockBytes - q mod BlockBytes) mod BlockBytes in
  let pad := if gap <? minEntryBytes then gap + BlockBytes else gap in
  0 <= gap /\ (gap = 0 -> q mod BlockBytes = 0) /\
  (0 < gap -> minEntryBytes <= pad <= maxStoredBytes /\ pad mod 8 = 0 /\ pad <= room_at L q /\
     (q + pad) mod BlockBytes = 0 /\ pad < BlockBytes + minEntryBytes).
Proof.
  intros (Hq&H8&Hr) gap pad. pose proof HL as [HL1 HL2].
  pose proof (ring_end_bounds L q ltac:(constants; lia)).
  rewrite (room_end L q q) in * by (constants; lia). pose proof (ring_end_mod L q BlockBytes ltac:(done) HL2) as He.
  constants. pose proof (Z.mod_pos_bound q 4096 ltac:(lia)). pose proof (Z.div_mod q 4096 ltac:(lia)) as Hdq.
  pose proof (Z.div_mod (ring_end L q) 4096 ltac:(lia)) as Hde.
  assert (q mod 4096 mod 8 = 0) as Hq8 by (rewrite <- Znumtheory.Zmod_div_mod; [done|lia|lia|by exists 512]).
  assert (gap = if decide (q mod 4096 = 0) then 0 else 4096 - q mod 4096) as Hg.
  { unfold gap. case_decide as Hd; [rewrite Hd; done|]. apply Z.mod_small. lia. }
  case_decide as Hd; [split_and!; lia|].
  assert (gap mod 8 = 0) as Hg8 by (rewrite Hg; by apply mod8_sub).
  split_and!; [lia|lia|]. intros _. unfold pad. destruct (gap <? _) eqn:E; zbool.
  - split_and!; try lia; [by apply mod8_add|]. replace (q + (gap + 4096)) with ((q / 4096 + 2) * 4096) by lia. by apply Z.mod_mul.
  - split_and!; try lia. replace (q + gap) with ((q / 4096 + 1) * 4096) by lia. by apply Z.mod_mul.
Qed.

(** ** What a placed batch is *)

(** Where a batch may be placed from: [written] is ready, and a failed range
    ends on a block boundary. *)
Record place_ok : Prop := {
  place_ready : ready_at L (written j);
  place_failed : written j <= next j /\ (written j < next j -> next j mod BlockBytes = 0 /\ minEntryBytes <= next j - written j);
}.

(** A batch laid out: its image is a run of pieces from [written], ending on a
    block boundary and within the room the batch reserved past [next]; what it
    indexes is what reading the pieces back indexes, and every accepted commit's
    entries are among them. *)
Record placement_ok (captured : list (result jerror (list Entry))) (most : Z) (p : placement) (errs : list (option jerror))
  (ps : list piece) : Prop := {
  po_start : p_start p = written j;
  po_image : image p = concat ps.*2;
  po_entries : entries p = flat_map piece_index ps;
  po_ready : ends_ready L ps;
  po_unfenced : Forall unfenced (entries p);
  po_commits : Forall2 (placed_commit ps) captured (zip (positions p) errs);
  po_written : (image p = [] /\ ps = [] /\ next j = written j) \/
    (pieces_ok L gen (written j) ps (p_end p) /\ p_end p mod BlockBytes = 0 /\ next j <= p_end p <= next j + most /\
     minEntryBytes <= p_end p - written j);
}.

Lemma placed_commit_none ps captured commits :
  Forall2 (placed_commit ps) captured commits -> length (concat commits.*1) = 0%nat ->
  Forall2 (placed_commit []) captured commits.
Proof.
  induction 1 as [|r [poss err] captured commits Hone _ IH]; [constructor|].
  rewrite fmap_cons. cbn [concat fst]. rewrite length_app. intros Hn.
  constructor; [|apply IH; lia]. unfold placed_commit in *. cbn [fst snd] in *. destruct err; [apply nil_length_inv; lia|].
  destruct Hone as (es&?&?&Hf). exists es. split_and!; try done. assert (poss = []) as -> by (apply nil_length_inv; lia).
  apply Forall2_nil_inv_r in Hf as ->. constructor.
Qed.

Lemma placed_commit_mono ps qs captured commits :
  ps ⊆ qs -> Forall2 (placed_commit ps) captured commits -> Forall2 (placed_commit qs) captured commits.
Proof.
  intros Hsub Hc. eapply Forall2_impl; [exact Hc|]. intros r [poss [e|]]; simpl; [done|]. intros (es&?&?&Hf). exists es.
  split_and!; try done. eapply Forall2_impl; [exact Hf|]. intros e pos He. by apply Hsub.
Qed.

Lemma laying_start start st ps total largest :
  ready_at L (next j) -> laid L gen start st ps -> l_position st = next j -> 0 <= largest ->
  laying (next j) total largest 0 start st ps.
Proof.
  intros (Hn&H8&Hr) Hl Hp Hlg. pose proof HL as [HL1 _]. pose proof (ring_end_bounds L (next j) ltac:(constants; lia)).
  rewrite (room_end L (next j) (next j)) in Hr by (constants; lia). split_and!; rewrite ?Hp; try done.
  left. lia.
Qed.

Lemma pieces_ok_min pos ps stop : pieces_ok L gen pos ps stop -> ps <> [] -> minEntryBytes <= stop - pos.
Proof.
  destruct ps as [|[q b] ps]; simpl; [done|]. intros (->&[Hb _]%reads_at_bounds&_&Hp%pieces_ok_le) _. lia.
Qed.

(** The end of [place]: the pad to a block boundary. *)
Lemma place_end start st ps most :
  laid L gen start st ps -> ready_at L (l_position st) -> l_position st + BlockBytes + minEntryBytes < 2 ^ 64 ->
  l_position st <= most - BlockBytes - minEntryBytes \/ (l_position st <= most /\ l_position st mod BlockBytes = 0) ->
  let gap := (BlockBytes - l_position st mod BlockBytes) mod BlockBytes in
  let st' := if gap >? 0 then pad j st (if gap <? minEntryBytes then gap + BlockBytes else gap) else st in
  exists ps', laid L gen start st' (ps ++ ps') /\ l_position st' mod BlockBytes = 0 /\
    l_position st <= l_position st' <= most /\ l_entries st' = l_entries st.
Proof.
  intros Hl Hr H64 Hm. pose proof (gap_spec _ Hr) as (Hg0&Hga&Hgp). cbv zeta.
  set (gap := (BlockBytes - _) mod _) in *. destruct (gap >? 0) eqn:E; zbool.
  - destruct (Hgp E) as (Hb&H8&Hroom&Hal&Hlt). set (len := if _ <? _ then _ else _) in *.
    assert (ready_at L (l_position st + len)) as Hrd by (pose proof Hr as [? _]; apply aligned_room; [done|constants; lia|done]).
    destruct (laid_pad j start st ps len Hl Hgen) as [Hl' Hp']; try done; try (constants; lia); [apply Hr|].
    exists [(l_position st, pad_bytes len (l_position st) gen)]. rewrite Hp'.
    split; [done|]. split; [done|]. split; [|done]. split; [constants; lia|].
    destruct Hm as [?|[? Hz]]; [constants; lia|]. exfalso. unfold gap in E. rewrite Hz in E.
    change ((BlockBytes - 0) mod BlockBytes) with 0 in E. lia.
  - exists []. rewrite app_nil_r. split; [done|]. split; [apply Hga; lia|]. split; [|done].
    destruct Hm as [?|[? _]]; constants; lia.
Qed.

Lemma place_spec batch captured total largest :
  place_ok -> Forall2 captured_ok batch captured -> Forall (fun c => room c <= largest) batch -> 0 <= largest ->
  total_room batch <= total -> 0 <= total -> needs total largest <= L -> next j + needs total largest < 2 ^ 64 ->
  let '(p, errs) := place j captured in
  exists ps, placement_ok captured (if bool_decide (captured = []) then 0 else needs total largest) p errs ps.
Proof.
  intros [Hw [Hle Hf]] Hc Hlg H0 Htot Ht0 Hres H64. unfold place. set (st0 := mkLayout _ _ _ _).
  assert (laid L gen (written j) st0 []) as Hl0 by (split_and!; try done; by apply Forall_nil).
  destruct (pad_failed_spec (Z.to_nat (next j - written j)) (written j) st0 [] Hl0 Hw) as (ps1&Hl1&Hp1&He1&Hrn);
    [simpl; unfold needs in *; constants; lia|done|simpl; lia|].
  set (st1 := pad_failed _ j st0) in *. cbn [l_entries st0] in He1.
  pose proof (place_all_spec (next j) total largest 0 (written j) st1 ps1 batch captured Hrn H64 Hres
    (laying_start _ _ _ total largest Hrn Hl1 Hp1 H0) Hc Hlg ltac:(lia) ltac:(lia)) as Hpa.
  assert (captured = [] -> (place_all j st1 captured).1 = st1) as Hnil by (by intros ->).
  destruct (place_all j st1 captured) as [st2 commits] eqn:Epa.
  destruct Hpa as (ps2&used&(Hl2&H82&Hle2&Hs2)&Hu2&Hcm&es&Hes&Huf&Hn). rewrite He1 in Hes. simpl in Hes, Hnil.
  destruct (spread_ready (next j) total largest used _ Hrn Hres Hu2 H0 Hle2 H82 Hs2) as [Hr2 Hb2].
  assert (zip commits.*1 commits.*2 = commits) as Hzip by apply zip_fst_snd.
  destruct (_ && negb _) eqn:E.
  - zbool. exists []. rewrite Hes in *. constructor; simpl; try done; [by apply Forall_nil| |left; split_and!; try done; lia].
    rewrite Hzip. apply (placed_commit_none ps2); [done|]. unfold zlen in *. lia.
  - destruct (place_end (written j) st2 (ps1 ++ ps2) (next j + if bool_decide (captured = []) then 0 else needs total largest))
      as (ps3&Hl3&Ha3&Hb3&He3); [done|done|unfold needs in *; constants; lia| |].
    { case_bool_decide as Hcn; [right|left; unfold needs; constants; lia].
      rewrite (Hnil Hcn) in *. rewrite Hp1. split; [lia|]. apply Hf. rewrite He1 in E. zbool.
      destruct E as [E|E]; zbool; [done|lia]. }
    cbv zeta in *. set (st3 := if _ >? 0 then _ else _) in *. exists ((ps1 ++ ps2) ++ ps3).
    destruct Hl3 as (Hi3&Hk3&Hx3&Hrd3). constructor; simpl; try done.
    + by rewrite He3, Hes.
    + rewrite Hzip. apply (placed_commit_mono ps2); [|done]. intros x Hx. rewrite !elem_of_app. auto.
    + right. split; [done|]. split; [done|]. split; [lia|].
      apply andb_false_iff in E as [E|E]; zbool; [|destruct (Hf E); lia].
      apply (pieces_ok_min _ _ _ Hk3). intros Hz. rewrite Hz in Hx3. rewrite <- He3, Hx3 in E. by unfold zlen in E.
Qed.

End Layout.

(** ** Admission *)

(** The 64-bit bound of positions: a journal places fewer than [2^62] bytes, on a
    ring of at most [2^60]. *)
Definition bounded (L next : Z) : Prop := 0 <= next < 2 ^ 62 /\ L <= 2 ^ 60.

(** The most room a commit is taken to ask for: what its caller holds in
    memory. *)
Definition maxRoom : Z := 2 ^ 61.

(** Below it [reserve] does not wrap. *)
Lemma reserve_needs room largest : 0 <= room <= maxRoom -> 0 <= largest <= maxRoom -> reserve room largest = needs room largest.
Proof. intros Hr Hl. unfold reserve, needs, maxRoom in *. apply int64_small. unfold i64. constants; lia. Qed.

(** Above it [reserve] wraps: the largest room an [int64] holds is admitted on
    every ring, and its batch has no bound on the ring. *)
Lemma huge_commit_is_admitted j id hook :
  minRingSize <= ringLength j -> refusal j = None ->
  CommitHooked j id (2 ^ 63 - 1) hook = Ok (with_queue j (queue j ++ [mkCommit id (2 ^ 63 - 1) hook false])).
Proof.
  intros HL Hr. unfold CommitHooked. rewrite Hr. change (reserve (2 ^ 63 - 1) (2 ^ 63 - 1)) with 4222.
  destruct (4222 >? ringLength j) eqn:E; zbool; [|done]. unfold minRingSize in HL. lia.
Qed.

Definition commit_ok (L : Z) (c : commit) : Prop := 0 <= room c /\ needs (room c) (room c) <= L.

Lemma fit_spec L next limit queue total largest n :
  bounded L next -> Forall (commit_ok L) queue -> 0 <= total <= Z.max L MaxBatchBytes -> 0 <= largest <= L ->
  (n = 0%nat -> total = 0) -> ((0 < n)%nat -> next + needs total largest <= limit) ->
  exists k largest', fit next limit queue total largest n = (n + k)%nat /\ (k <= length queue)%nat /\
    0 <= largest' /\ Forall (fun c => room c <= largest') (take k queue) /\ largest <= largest' /\
    0 <= total + total_room (take k queue) /\
    ((0 < n + k)%nat -> next + needs (total + total_room (take k queue)) largest' <= limit).
Proof.
  intros [Hn HL] Hq. revert total largest n. induction Hq as [|c queue [Hc0 Hc] Hq IH]; simpl; intros total largest n Ht Hlg Hz Hf.
  { exists 0%nat, largest. rewrite Z.add_0_r, Nat.add_0_r. split_and!; try done; lia. }
  assert (exists k largest', n = (n + k)%nat /\ (k <= S (length queue))%nat /\ 0 <= largest' /\
      Forall (fun c => room c <= largest') (take k (c :: queue)) /\ largest <= largest' /\
      0 <= total + total_room (take k (c :: queue)) /\
      ((0 < n + k)%nat -> next + needs (total + total_room (take k (c :: queue))) largest' <= limit)) as Hstop.
  { exists 0%nat, largest. simpl. rewrite Z.add_0_r, Nat.add_0_r. split_and!; try done; lia. }
  assert (Z.max largest (room c) <= L) as Hlc by (unfold needs in Hc; constants; lia).
  rewrite (int64_small (total + room c)) by (unfold i64, needs, MaxBatchBytes in *; constants; lia).
  destruct (_ && _) eqn:E1; [exact Hstop|].
  assert (total + room c <= Z.max L MaxBatchBytes) as Htc.
  { apply andb_false_iff in E1 as [E|E]; zbool; [|lia]. rewrite Hz by lia. unfold needs in Hc. constants; lia. }
  rewrite reserve_needs by (unfold maxRoom, MaxBatchBytes in *; lia).
  rewrite (wrap64_small (needs _ _)) by (unfold u64, needs, MaxBatchBytes in *; constants; lia).
  rewrite wrap64_small by (unfold u64, needs, MaxBatchBytes in *; constants; lia).
  destruct (_ >? limit) eqn:E2; [exact Hstop|]. zbool.
  destruct (IH (total + room c) (Z.max largest (room c)) (S n)) as (k&lg&->&Hk&Hl0&Hall&Hlg'&H0&Hfit); try lia.
  exists (S k), lg. rewrite <- Z.add_assoc in Hfit, H0. simpl. split_and!; try lia.
  constructor; [lia|done].
Qed.

(** A batch [nextBatch] takes fits on the ring before the durable tail. *)
Lemma fitting_spec j :
  bounded (ringLength j) (next j) -> Forall (commit_ok (ringLength j)) (queue j) ->
  0 <= s_tail (header j) <= next j -> 0 <= ringLength j ->
  let n := fitting j in
  exists largest, 0 <= largest /\ Forall (fun c => room c <= largest) (take n (queue j)) /\
    0 <= total_room (take n (queue j)) /\
    ((0 < n)%nat -> next j + needs (total_room (take n (queue j))) largest <= s_tail (header j) + ringLength j).
Proof.
  intros Hb Hq Ht HL n. pose proof Hb as [Hn HL']. unfold n, fitting. rewrite (wrap64_small (_ + _)) by (unfold u64; lia).
  destruct (fit_spec (ringLength j) (next j) (s_tail (header j) + ringLength j) (queue j) 0 0 0 Hb Hq)
    as (k&lg&->&Hk&H0&Hall&_&Ht0&Hf); try lia.
  simpl. exists lg. rewrite Z.add_0_l in Hf, Ht0. by split_and!.
Qed.

End Ring.
