(* ===== verification/JournalIndex.v ===== *)
(** * What the journal holds

    The index of an open journal: the entries from the tail on, the entries held
    of each VM and epoch, and how indexing, trimming and the tail keep the two
    together. *)

From S2P Require Import Prelude Bytes JournalFormat JournalRing.

Module Index.
Import Journal Ring.

(** The live entries of a VM and epoch, in order. *)
Definition alive (vm : string) (epoch : Z) (e : indexed) : Prop := dead e = false /\ i_vm e = vm /\ i_epoch e = epoch.

#[export] Instance alive_dec vm epoch e : Decision (alive vm epoch e).
Proof. unfold alive. apply _. Defined.

Definition bytes_of (entries : list indexed) : Z := fold_right (fun e t => i_length e + t) 0 entries.

Definition held_from (entries : list indexed) : option held :=
  match entries with [] => None | _ => Some (mkHeld entries (bytes_of entries)) end.

Definition held_at (h : gmap string (gmap Z held)) (vm : string) (epoch : Z) : option held := h !! vm ≫= (.!! epoch).

(** [held] is the live entries by VM and epoch, with their bytes, and nothing
    else. *)
Record held_ok (live : list indexed) (h : gmap string (gmap Z held)) : Prop := {
  held_lookup vm epoch : held_at h vm epoch = held_from (filter (alive vm epoch) live);
  held_nonempty vm : h !! vm <> Some ∅;
}.

Lemma bytes_of_app l k : bytes_of (l ++ k) = bytes_of l + bytes_of k.
Proof. induction l as [|x l IH]; simpl; [done|]. rewrite IH. lia. Qed.

Lemma held_ok_nil : held_ok [] ∅.
Proof. split; intros; [done|]. by rewrite lookup_empty. Qed.

Lemma held_at_insert h vm epochs vm' epoch :
  held_at (<[vm := epochs]> h) vm' epoch = if decide (vm = vm') then epochs !! epoch else held_at h vm' epoch.
Proof.
  unfold held_at. case_decide as E; [subst; by rewrite lookup_insert_eq|]. by rewrite lookup_insert_ne.
Qed.

Lemma held_ok_index j e :
  held_ok (live j) (held_ j) -> dead e = false -> held_ok (live (index j e)) (held_ (index j e)).
Proof.
  intros [Hl Hn] He. unfold index. simpl. split.
  - intros vm epoch. rewrite held_at_insert, filter_app. case_decide as Ev.
    + subst vm. assert (default ∅ (held_ j !! i_vm e) !! epoch = held_at (held_ j) (i_vm e) epoch) as Hat.
      { unfold held_at. destruct (held_ j !! i_vm e); [done|]. apply lookup_empty. }
      destruct (decide (i_epoch e = epoch)) as [<-|Ep].
      * rewrite lookup_insert_eq, filter_cons, decide_True, filter_nil by done. rewrite Hat, Hl.
        destruct (filter _ (live j)) as [|x l]; simpl; [f_equal; f_equal; lia|].
        rewrite bytes_of_app. simpl. do 2 f_equal. lia.
      * rewrite lookup_insert_ne, filter_cons, decide_False, filter_nil, app_nil_r by (done || intros (?&?&?); done).
        by rewrite Hat, Hl.
    + rewrite filter_cons, decide_False, filter_nil, app_nil_r by (intros (?&?&?); done). apply Hl.
  - intros vm. destruct (decide (vm = i_vm e)) as [->|Ev]; [|by rewrite lookup_insert_ne].
    rewrite lookup_insert_eq. intros [= He']. apply (f_equal (.!! i_epoch e)) in He'. by rewrite lookup_insert_eq, lookup_empty in He'.
Qed.

Lemma filter_drop_dead vm epoch (l : list indexed) : filter (alive vm epoch) (drop_dead l) = filter (alive vm epoch) l.
Proof.
  induction l as [|x l IH]; simpl; [done|]. destruct (dead x) eqn:E; [|done].
  rewrite IH, filter_cons, decide_False; [done|]. intros [? _]. congruence.
Qed.

(** The front of [drop_dead] is live. *)
Lemma drop_dead_suffix l : exists pre, l = pre ++ drop_dead l /\ Forall (fun e => dead e = true) pre.
Proof.
  induction l as [|x l IH]; simpl; [by exists []|]. destruct (dead x) eqn:E; [|by exists []].
  destruct IH as (pre&Hl&Hp). exists (x :: pre). split; [simpl; by f_equal|by constructor].
Qed.

Lemma drop_dead_front l : match drop_dead l with [] => True | e :: _ => dead e = false end.
Proof. induction l as [|x l IH]; simpl; [done|]. by destruct (dead x) eqn:E. Qed.

Lemma settle_tail_live j :
  live (settle_tail j) = drop_dead (live j) /\ held_ (settle_tail j) = held_ j /\
  tail (settle_tail j) = match drop_dead (live j) with [] => written j | e :: _ => i_position e end.
Proof. unfold settle_tail, liveTail. by destruct (drop_dead (live j)). Qed.

Lemma held_ok_settle j : held_ok (live j) (held_ j) -> held_ok (live (settle_tail j)) (held_ (settle_tail j)).
Proof.
  intros [Hl Hn]. destruct (settle_tail_live j) as (->&->&_). split; [|done]. intros. by rewrite filter_drop_dead.
Qed.

(** ** Trimming *)

Lemma kill_cases vm covered x :
  (i_vm x = vm /\ trimmed covered x = true /\ dead (kill vm covered x) = true) \/
  (~ (i_vm x = vm /\ trimmed covered x = true) /\ kill vm covered x = x).
Proof.
  unfold kill. case_bool_decide as Ev; destruct (trimmed covered x) eqn:Et; simpl; [by left|right|right|right]; naive_solver.
Qed.

Lemma filter_kill vm covered vm' epoch (l : list indexed) :
  filter (alive vm' epoch) (kill vm covered <$> l) =
  filter (fun e => ~ (vm' = vm /\ trimmed covered e = true)) (filter (alive vm' epoch) l).
Proof.
  induction l as [|x l IH]; [done|]. rewrite fmap_cons, !filter_cons, IH.
  destruct (kill_cases vm covered x) as [(Hv&Ht&Hd)|(Hv&->)].
  - rewrite (decide_False (P := alive _ _ (kill _ _ _))) by (intros [? _]; congruence).
    destruct (decide (alive vm' epoch x)) as [Ha|_]; [|done].
    rewrite filter_cons, decide_False; [done|]. destruct Ha as (_&?&_). intros Hc. apply Hc. split; congruence.
  - destruct (decide (alive vm' epoch x)) as [Ha|_]; [|done]. rewrite filter_cons, decide_True; [done|]. destruct Ha as (_&?&_). intros [? ?]. apply Hv. split; congruence.
Qed.

Lemma filter_bytes covered (l : list indexed) b :
  fold_left (fun b e => if trimmed covered e then b - i_length e else b) l b =
  b - bytes_of l + bytes_of (filter (fun e => trimmed covered e = false) l).
Proof.
  revert b. induction l as [|x l IH]; intros b; simpl; [lia|]. rewrite IH, filter_cons.
  destruct (trimmed covered x); [rewrite decide_False by done|rewrite decide_True by done; simpl]; lia.
Qed.

Lemma trim_held_from covered epoch (l : list indexed) :
  held_from l ≫= trim_held covered epoch = held_from (filter (fun e => trimmed covered e = false) l).
Proof.
  destruct l as [|x l]; [done|]. set (k := x :: l). change (held_from k) with (Some (mkHeld k (bytes_of k))). simpl.
  unfold trim_held. simpl h_entries. simpl h_bytes. rewrite filter_bytes.
  unfold held_from. destruct (filter _ k) as [|y ys]; [done|]. do 2 f_equal. change (bytes_of k) with (i_length x + bytes_of l). lia.
Qed.

Lemma held_ok_trim j vm covered :
  held_ok (live j) (held_ j) -> held_ok (live (Trim j vm covered)) (held_ (Trim j vm covered)).
Proof.
  intros [Hl Hn]. unfold Trim. apply held_ok_settle. simpl. set (epochs := map_imap _ _).
  assert (forall epoch, epochs !! epoch = held_from (filter (alive vm epoch) (kill vm covered <$> live j))) as He.
  { intros epoch. unfold epochs. rewrite map_lookup_imap, filter_kill.
    assert (default ∅ (held_ j !! vm) !! epoch = held_at (held_ j) vm epoch) as ->.
    { unfold held_at. destruct (held_ j !! vm); [done|]. apply lookup_empty. }
    rewrite Hl, trim_held_from. f_equal. apply list_filter_iff. intros x.
    destruct (trimmed covered x); naive_solver. }
  assert (forall vm' epoch, vm' <> vm -> filter (alive vm' epoch) (kill vm covered <$> live j) = filter (alive vm' epoch) (live j)) as Ho.
  { intros vm' epoch Hne. rewrite filter_kill. apply filter_all. intros x _ [? _]. done. }
  case_bool_decide as Ee.
  - split.
    + intros vm' epoch. unfold held_at. destruct (decide (vm' = vm)) as [->|Hne].
      * rewrite lookup_delete_eq. simpl. rewrite <- He, Ee, lookup_empty. done.
      * rewrite lookup_delete_ne by done. fold (held_at (held_ j) vm' epoch). by rewrite Hl, Ho.
    + intros vm'. destruct (decide (vm' = vm)) as [->|Hne]; [by rewrite lookup_delete_eq|by rewrite lookup_delete_ne].
  - split.
    + intros vm' epoch. rewrite held_at_insert. case_decide as Hv; [subst; apply He|]. by rewrite Hl, Ho.
    + intros vm'. destruct (decide (vm' = vm)) as [->|Hne]; [rewrite lookup_insert_eq; congruence|by rewrite lookup_insert_ne].
Qed.

End Index.
