(* ===== verification/JournalDisk.v ===== *)
(** * The journal's disk

    [journal/journal.go] and [journal/read.go]: opening a journal — the header
    that wins, the lease, reading the ring back — and serving reads from it.  A
    disk is what its bytes are; which bytes a crash leaves is in file
    [JournalSafety]. *)

From S2P Require Import Prelude Bytes JournalFormat JournalRing JournalIndex.

Module Disk.
Import Journal Ring Index.

Definition disk : Type := Z -> byte.

(** [readFull] of bytes within the disk. *)
Definition bytes_at (d : disk) (off n : Z) : list byte := d <$> seqZ off n.

(** [WriteAt] *)
Definition write_disk (d : disk) (off : Z) (data : list byte) : disk := fun i =>
  if (off <=? i) && (i <? off + zlen data) then default Byte.x00 (zget data (i - off)) else d i.

(** ** The ring's window reader *)

Definition readAhead : Z := 2 ^ 20.

Record ringReader := mkReader { window : list byte; r_at : Z }.

Definition ringReader_read (d : disk) (stop : Z) (r : ringReader) (off n : Z) : list byte * ringReader :=
  if (off >=? r_at r) && (off + n <=? r_at r + zlen (window r)) then (slice (window r) (off - r_at r) (off - r_at r + n), r)
  else
    let buffer := bytes_at d off (Z.min (Z.max n readAhead) (stop - off)) in
    (slice buffer 0 n, mkReader buffer off).

Section Open.
Context `{Checksum}.

Definition other_version (r : result jerror slot) : bool :=
  match r with Err e => bool_decide (e = ErrVersion) | Ok _ => false end.

(** [readHeader]: the header that wins, and its slot. *)
Definition readHeader (d : disk) : result jerror (slot * Z) :=
  let b := bytes_at d 0 (2 * slotBytes) in
  let first := decodeSlot (slice b 0 slotBytes) in
  let second := decodeSlot (slice b slotBytes (2 * slotBytes)) in
  if other_version first then Err ErrVersion
  else if other_version second then Err ErrVersion
  else
    match first, second with
    | Ok s0, Ok s1 => if counter s1 >? counter s0 then Ok (s1, 1) else Ok (s0, 0)
    | Err _, Ok s1 => Ok (s1, 1)
    | Ok s0, Err _ => Ok (s0, 0)
    | Err _, Err _ => Err errNoSlot
    end.

(** What a journal is opened with. *)
Record Config := mkConfig { cfg_identity : Identity; cfg_lease : Lease }.

(** [Open] up to the lease: the journal with the header found, or the one a new
    format begins with; [entropy] is the generation drawn. *)
Definition open_found (d : disk) (size : Z) (config : Config) (entropy : Z) : result jerror (slot * Z) :=
  if size <? ringOffset + minRingSize then Err ErrTooSmall
  else
    match readHeader d with
    | Err e =>
      if negb (bool_decide (e = errNoSlot)) then Err e else
      let length := Z.ldiff (size - ringOffset) (BlockBytes - 1) in
      Ok (mkSlot false 0 (cfg_identity config) entropy ringOffset length length (mkLease 0 (zeros 16)), 1)
    | Ok (found, at_) =>
      if negb (bool_decide (s_identity found = cfg_identity config)) then Err ErrIdentity
      else if negb (s_ringStart found =? ringOffset) || (s_ringLength found <? minRingSize)
              || negb (s_ringLength found mod BlockBytes =? 0) || (int64 (s_ringStart found + s_ringLength found) >? size)
      then Err ErrRing
      else if (Assigned (s_lease found) >? Assigned (cfg_lease config))
              || (Assigned (s_lease found) =? Assigned (cfg_lease config))
                 && negb (bool_decide (Member (s_lease found) = Member (cfg_lease config)))
      then Err ErrLeased
      else Ok (found, at_)
    end.

Definition open_journal (found : slot) (at_ : Z) (config : Config) : Journal :=
  mkJournal (cfg_lease config) (cfg_identity config) (s_generation found) (s_ringStart found) (s_ringLength found)
    found at_ 0 0 0 [] ∅ ∅ [] 0 0 None false.

(** [writeSlot]: the slot it writes and where; the header moves once it is
    synced. *)
Definition next_slot (j : Journal) (s : slot) : slot * Z :=
  (mkSlot (empty_ s) (wrap64 (counter (header j) + 1)) (s_identity s) (s_generation s) (s_ringStart s) (s_ringLength s)
     (s_tail s) (lease j), 1 - current j).

Definition with_empty (s : slot) (tail : Z) (empty : bool) : slot :=
  mkSlot empty (counter s) (s_identity s) (s_generation s) (s_ringStart s) (s_ringLength s) tail (s_lease s).

(** The slot [Open] writes to take the lease, and the one [writeHeader] writes. *)
Definition open_slot (j : Journal) : slot * Z := next_slot j (with_empty (header j) (s_tail (header j)) false).
Definition hint_slot (j : Journal) (empty : bool) : slot * Z := next_slot j (with_empty (header j) (tail j) empty).

(** [CheckLease] *)
Definition CheckLease (d : disk) (j : Journal) : Journal * option jerror :=
  match readHeader d with
  | Err e => (j, Some e)
  | Ok (found, _) =>
    if bool_decide (s_lease found = lease j) then (j, None)
    else (with_stop j (match failed j with None => Some ErrLeased | Some e => Some e end) (closed j), Some ErrLeased)
  end.

(** [readBack]'s loop; [None] is out of fuel, which does not happen. *)
Fixpoint back (fuel : nat) (d : disk) (start : Z) (r : ringReader) (j : Journal) (pos : Z) : option (Journal * Z) :=
  if negb (wrap64 (pos - start) <? ringLength j) then Some (j, pos)
  else
    let '(off, room) := offset j pos in
    if room <? minEntryBytes then Some (j, pos)
    else
      let '(b, r) := ringReader_read d (ringStart j + ringLength j) r off entryHeadBytes in
      match decodeHead b with
      | Err _ => Some (j, pos)
      | Ok h =>
        if negb (position h =? pos) || negb (generation h =? j_generation j) || (length_ h >? room) then Some (j, pos)
        else
          let '(b, r) := ringReader_read d (ringStart j + ringLength j) r off (length_ h) in
          match checkEntry b with
          | Err _ => Some (j, pos)
          | Ok _ =>
            match fuel with
            | O => None
            | S fuel =>
              let j := if bool_decide (kind h = kindBlocks)
                       then index j (mkIndexed pos (length_ h) (entryVM b h) (epoch h) false) else j in
              back fuel d start r j (wrap64 (pos + length_ h))
            end
          end
      end.

Definition readBack (d : disk) (j : Journal) : option Journal :=
  match back (Z.to_nat (ringLength j)) d (s_tail (header j)) (mkReader [] 0) j (s_tail (header j)) with
  | None => None
  | Some (j, pos) => Some (settle_tail (with_ends j (tail j) pos pos))
  end.

(** ** Reads *)

Record ReadRequest := mkReadRequest {
  rq_VM : string;
  rq_Epoch : Z;
  rq_After : Z;
  rq_Generation : Z;
  rq_Reader : Z;
}.

(** [Journal.Read] up to its wait: the checks and the fence. *)
Definition ReadFence (j : Journal) (q : ReadRequest) : result jerror Journal :=
  if negb (rq_Generation q =? j_generation j) then Err ErrGeneration
  else if rq_Reader q <=? rq_Epoch q then Err ErrReader
  else match refusal j with
       | Some e => Err e
       | None =>
         if default 0 (fences j !! rq_VM q) <? rq_Reader q
         then Ok (with_fences j (<[rq_VM q := rq_Reader q]> (fences j))) else Ok j
       end.

(** The entries a read serves, once the batches placed before its fence are
    complete. *)
Definition by_position (a b : indexed) : Prop := i_position a <= i_position b.

#[export] Instance by_position_dec a b : Decision (by_position a b).
Proof. unfold by_position. apply _. Defined.

Definition wanted (j : Journal) (q : ReadRequest) : list indexed :=
  merge_sort by_position
    (filter (fun e => rq_After q < i_position e) (default [] (h_entries <$> held_at (held_ j) (rq_VM q) (rq_Epoch q)))).

(** The reader's read, of a disk whose read may fail. *)
Definition ringReader_try (d : option disk) (stop : Z) (r : ringReader) (off n : Z) : option (list byte * ringReader) :=
  match d with
  | Some d => Some (ringReader_read d stop r off n)
  | None =>
    if (off >=? r_at r) && (off + n <=? r_at r + zlen (window r)) then Some (slice (window r) (off - r_at r) (off - r_at r + n), r)
    else None
  end.

(** The unlocked part of [Journal.Read]: what it hands to [yield], and the error
    it ends with.  Commits, trims and batches go on meanwhile: [ds] is the disk as
    it is at each read, [ds n] with [n] entries left after it, or none where the
    read fails. *)
Fixpoint read_entries (ds : nat -> option disk) (yield : Entry -> option jerror) (j : Journal) (r : ringReader) (wanted : list indexed)
  : list Entry * option jerror :=
  match wanted with
  | [] => ([], None)
  | e :: wanted =>
    let '(off, _) := offset j (i_position e) in
    match ringReader_try (ds (length wanted)) (ringStart j + ringLength j) r off (i_length e) with
    | None => ([], Some ErrIO)
    | Some (b, r) =>
      match decodeEntry b with
      | Err _ => ([], Some ErrTrimmed)
      | Ok (h, entry) =>
        if negb (bool_decide (kind h = kindBlocks)) || negb (position h =? i_position e)
           || negb (generation h =? j_generation j) then ([], Some ErrTrimmed)
        else
          match yield entry with
          | Some err => ([entry], Some err)
          | None => let '(rest, err) := read_entries ds yield j r wanted in (entry :: rest, err)
          end
      end
    end
  end.

(** [Journal.Read] from the end of its wait, which [j] is the journal at. *)
Definition Read (ds : nat -> option disk) (yield : Entry -> option jerror) (j : Journal) (q : ReadRequest) : list Entry * option jerror :=
  read_entries ds yield j (mkReader [] 0) (wanted j q).

End Open.

(** [Journal.write]: a batch's image onto the ring, in pieces split at the ring's
    end; [fuel] bounds the pieces, each of which is not empty. *)
Fixpoint write_ring (fuel : nat) (j : Journal) (pos : Z) (image : list byte) : list (Z * list byte) :=
  match fuel with
  | O => []
  | S fuel =>
    if 0 <? zlen image then
      let '(off, room) := offset j pos in
      let n := Z.min (zlen image) room in
      (off, slice image 0 n) :: write_ring fuel j (wrap64 (pos + n)) (slice image n (zlen image))
    else []
  end.

Definition write (j : Journal) (p : placement) : list (Z * list byte) :=
  write_ring (length (image p)) j (p_start p) (image p).

(** ** Bytes of a disk *)

Lemma zlen_bytes_at d off n : 0 <= n -> zlen (bytes_at d off n) = n.
Proof. intros. unfold bytes_at, zlen. rewrite length_fmap, length_seqZ. lia. Qed.

Lemma zget_bytes_at d off n k : 0 <= k < n -> zget (bytes_at d off n) k = Some (d (off + k)).
Proof.
  intros. rewrite zget_nat by lia. unfold bytes_at. rewrite list_lookup_fmap, lookup_seqZ_lt by lia. simpl. do 2 f_equal. lia.
Qed.

Lemma slice_bytes_at d off n i j : 0 <= i <= j -> j <= n -> slice (bytes_at d off n) i j = bytes_at d (off + i) (j - i).
Proof.
  intros Hi Hj. assert (zlen (bytes_at d off n) = n) as Hz by (apply zlen_bytes_at; lia).
  apply list_eq_zget; rewrite zlen_slice by lia; [by rewrite zlen_bytes_at by lia|].
  intros k Hk. rewrite zget_slice, !zget_bytes_at by lia. do 2 f_equal. lia.
Qed.

Lemma bytes_at_ext d d' off n : (forall i, off <= i < off + n -> d i = d' i) -> bytes_at d off n = bytes_at d' off n.
Proof. intros Hd. apply list_fmap_ext. intros k x Hx%lookup_seqZ. apply Hd. lia. Qed.

Lemma bytes_at_write d off data : bytes_at (write_disk d off data) off (zlen data) = data.
Proof.
  pose proof (zlen_nonneg data). apply list_eq_zget; [by apply zlen_bytes_at|]. rewrite zlen_bytes_at by done.
  intros k Hk. rewrite zget_bytes_at by done. unfold write_disk. zcases; [|lia].
  replace (off + k - off) with k by lia. by destruct (zget_lt data k Hk) as [b ->].
Qed.

Definition coherent (d : disk) (r : ringReader) : Prop := window r = bytes_at d (r_at r) (zlen (window r)).

Lemma ringReader_read_spec d stop r off n :
  coherent d r -> 0 <= n -> off + n <= stop ->
  (ringReader_read d stop r off n).1 = bytes_at d off n /\ coherent d (ringReader_read d stop r off n).2.
Proof.
  intros Hc Hn Hs. unfold ringReader_read. destruct (_ && _) eqn:E; zbool; simpl.
  - split; [|done]. rewrite Hc. rewrite slice_bytes_at by lia. f_equal; lia.
  - unfold coherent. simpl. rewrite zlen_bytes_at by lia. split; [|done]. rewrite slice_bytes_at by lia. f_equal; lia.
Qed.

Lemma coherent_nil d : coherent d (mkReader [] 0).
Proof. done. Qed.

Section Back.
Context `{Checksum}.

(** A head says nothing past its 48 bytes. *)
Lemma decodeHead_prefix b n : entryHeadBytes <= n <= zlen b -> decodeHead (slice b 0 n) = decodeHead b.
Proof.
  intros Hn. unfold entryHeadBytes in *. unfold decodeHead, Uint16, Uint32, Uint64.
  rewrite zlen_slice by lia. rewrite !slice_slice by lia. rewrite !zget_slice by lia. rewrite !Z.add_0_l.
  replace (n - 0 <? entryHeadBytes) with false by (symmetry; apply Z.ltb_ge; unfold entryHeadBytes; lia).
  replace (zlen b <? entryHeadBytes) with false by (symmetry; apply Z.ltb_ge; unfold entryHeadBytes; lia). done.
Qed.

(** Pieces that lie on a ring that starts at [rs]. *)
Definition on_ring (d : disk) (rs L : Z) (ps : list piece) : Prop :=
  Forall (fun p => bytes_at d (rs + p.1 mod L) (zlen p.2) = p.2) ps.

(** One turn of reading back, at a piece and at its end. *)
Lemma back_piece fuel d start r j pos b :
  coherent d r -> 0 < ringLength j < 2 ^ 63 -> 0 <= start <= pos -> pos - start < ringLength j -> pos + zlen b < 2 ^ 64 ->
  reads_at (j_generation j) pos b -> zlen b <= room_at (ringLength j) pos ->
  bytes_at d (ringStart j + pos mod ringLength j) (zlen b) = b ->
  exists r', coherent d r' /\
    back (S fuel) d start r j pos = back fuel d start r' (fold_left index (piece_index (pos, b)) j) (pos + zlen b).
Proof.
  intros Hc HL Hst Hlt H64 (h&Hh&Hp&Hg) Hroom Hd. pose proof (checkEntry_spec b h Hh) as [Hdh Hlen].
  pose proof (decodeHead_bounds b h Hdh) as [Hb _].
  pose proof (Z.mod_pos_bound pos (ringLength j) ltac:(lia)) as Hm. unfold room_at in Hroom.
  cbn [back]. rewrite wrap64_small by (unfold u64; lia). destruct (_ <? ringLength j) eqn:E; zbool; [|lia]. simpl negb. cbv iota.
  unfold offset at 1. destruct (_ <? minEntryBytes) eqn:E1; zbool; [lia|].
  destruct (ringReader_read_spec d (ringStart j + ringLength j) r (ringStart j + pos mod ringLength j) entryHeadBytes Hc)
    as [Hr1 Hc1]; [done|constants; lia|].
  destruct (ringReader_read d _ r _ entryHeadBytes) as [b1 r1]. simpl in Hr1, Hc1. subst b1.
  assert (bytes_at d (ringStart j + pos mod ringLength j) entryHeadBytes = slice b 0 entryHeadBytes) as ->.
  { rewrite <- Hd. rewrite slice_bytes_at by (constants; lia). f_equal; lia. }
  rewrite decodeHead_prefix by (constants; lia). rewrite Hdh, Hp, Hg, !Z.eqb_refl.
  destruct (length_ h >? _) eqn:E2; zbool; [lia|]. simpl orb. cbv iota.
  destruct (ringReader_read_spec d (ringStart j + ringLength j) r1 (ringStart j + pos mod ringLength j) (length_ h) Hc1)
    as [Hr2 Hc2]; [constants; lia|lia|].
  destruct (ringReader_read d _ r1 _ _) as [b2 r2]. simpl in Hr2, Hc2. subst b2. rewrite <- Hlen, Hd, Hh.
  exists r2. split; [done|]. rewrite wrap64_small by (unfold u64; constants; lia). unfold piece_index. simpl. rewrite Hh.
  by case_bool_decide.
Qed.

Lemma index_fields j e :
  ringLength (index j e) = ringLength j /\ ringStart (index j e) = ringStart j /\ j_generation (index j e) = j_generation j.
Proof. done. Qed.

Lemma index_all_fields es j :
  let j' := fold_left index es j in
  ringLength j' = ringLength j /\ ringStart j' = ringStart j /\ j_generation j' = j_generation j /\
  live j' = live j ++ es /\ header j' = header j /\ current j' = current j /\ lease j' = lease j /\ tail j' = tail j /\
  written j' = written j /\ next j' = next j /\ fences j' = fences j /\ queue j' = queue j /\
  (placed j', completed j', failed j', closed j', identity j') = (placed j, completed j, failed j, closed j, identity j).
Proof.
  revert j. induction es as [|e es IH]; simpl; intros j; [by rewrite app_nil_r|].
  destruct (IH (index j e)) as (?&?&?&Hl&?&?&?&?&?&?&?&?&?). rewrite Hl. simpl. rewrite <- app_assoc. by split_and!.
Qed.

Lemma back_step fuel d start r j pos :
  back fuel d start r j pos =
  if negb (wrap64 (pos - start) <? ringLength j) then Some (j, pos)
  else
    let '(off, room) := offset j pos in
    if room <? minEntryBytes then Some (j, pos)
    else
      let '(b, r) := ringReader_read d (ringStart j + ringLength j) r off entryHeadBytes in
      match decodeHead b with
      | Err _ => Some (j, pos)
      | Ok h =>
        if negb (position h =? pos) || negb (generation h =? j_generation j) || (length_ h >? room) then Some (j, pos)
        else
          let '(b, r) := ringReader_read d (ringStart j + ringLength j) r off (length_ h) in
          match checkEntry b with
          | Err _ => Some (j, pos)
          | Ok _ =>
            match fuel with
            | O => None
            | S fuel =>
              let j := if bool_decide (kind h = kindBlocks)
                       then index j (mkIndexed pos (length_ h) (entryVM b h) (epoch h) false) else j in
              back fuel d start r j (wrap64 (pos + length_ h))
            end
          end
      end.
Proof. by destruct fuel. Qed.

#[local] Arguments back : simpl never.

(** Reading back follows the pieces that lie on the ring. *)
Lemma back_chain fuel d start r j pos ps stop :
  coherent d r -> 0 < ringLength j < 2 ^ 63 -> 0 <= start <= pos -> stop <= start + ringLength j -> stop < 2 ^ 64 ->
  pieces_ok (ringLength j) (j_generation j) pos ps stop -> on_ring d (ringStart j) (ringLength j) ps ->
  exists r', coherent d r' /\
    back (length ps + fuel) d start r j pos = back fuel d start r' (fold_left index (flat_map piece_index ps) j) stop.
Proof.
  intros Hc HL. revert r j pos Hc HL. induction ps as [|[q b] ps IH]; simpl; intros r j pos Hc HL Hst Hstop H64.
  { intros -> _. by exists r. }
  intros (->&Hr&Hroom&Hps) [Hd Hds]%Forall_cons. simpl in Hd. pose proof (reads_at_bounds _ _ _ Hr) as [Hb _].
  pose proof (pieces_ok_le _ _ _ _ _ Hps).
  destruct (back_piece (length ps + fuel) d start r j pos b) as (r1&Hc1&Hb1); try done; try (constants; lia).
  rewrite Hb1,  fold_left_app. set (j1 := fold_left index (piece_index (pos, b)) j).
  destruct (index_all_fields (piece_index (pos, b)) j) as (HL1&HS1&HG1&_). fold j1 in HL1, HS1, HG1.
  apply IH; rewrite ?HL1, ?HS1, ?HG1; try done. constants; lia.
Qed.

(** Reading back ends, and what it indexed lies on the ring. *)
Lemma back_sound fuel d start r j pos :
  coherent d r -> 0 < ringLength j < 2 ^ 61 -> 0 <= start < 2 ^ 62 -> start <= pos <= start + ringLength j + maxStoredBytes ->
  ringLength j - (pos - start) <= Z.of_nat fuel ->
  exists ps stop, back fuel d start r j pos = Some (fold_left index (flat_map piece_index ps) j, stop) /\
    pieces_ok (ringLength j) (j_generation j) pos ps stop /\ on_ring d (ringStart j) (ringLength j) ps.
Proof.
  intros Hc HL Hst. revert r j pos Hc HL.
  induction fuel as [|fuel IH]; intros r j pos Hc HL Hpos Hf;
    (assert (exists ps stop, Some (j, pos) = Some (fold_left index (flat_map piece_index ps) j, stop) /\
      pieces_ok (ringLength j) (j_generation j) pos ps stop /\ on_ring d (ringStart j) (ringLength j) ps) as Hstop
      by (exists [], pos; split_and!; [done|done|by apply Forall_nil]));
    pose proof (Z.mod_pos_bound pos (ringLength j) ltac:(lia)) as Hm;
    rewrite back_step; rewrite wrap64_small by (unfold u64; constants; lia).
  { destruct (_ <? ringLength j) eqn:E; zbool; [lia|]. exact Hstop. }
  destruct (_ <? ringLength j) eqn:E; zbool; [|exact Hstop]. cbn [negb]. unfold offset at 1.
  destruct (_ <? minEntryBytes) eqn:E1; [exact Hstop|]. zbool.
  set (off := ringStart j + pos mod ringLength j).
  destruct (ringReader_read_spec d (ringStart j + ringLength j) r off entryHeadBytes Hc) as [Hr1 Hc1]; [done|unfold off; constants; lia|].
  destruct (ringReader_read d _ r off entryHeadBytes) as [b1 r1]. simpl in Hr1, Hc1. subst b1.
  destruct (decodeHead (bytes_at d off entryHeadBytes)) as [h|] eqn:Eh; [|exact Hstop].
  pose proof (decodeHead_bounds _ _ Eh) as [Hb _].
  destruct (_ || _ || _) eqn:E2; [exact Hstop|]. zbool.
  destruct (ringReader_read_spec d (ringStart j + ringLength j) r1 off (length_ h) Hc1) as [Hr2 Hc2];
    [constants; lia|unfold off; lia|].
  destruct (ringReader_read d _ r1 off (length_ h)) as [b r2]. simpl in Hr2, Hc2.
  assert (zlen b = length_ h) as Hlb by (rewrite Hr2; apply zlen_bytes_at; constants; lia).
  destruct (checkEntry b) as [h'|] eqn:Ec; [|exact Hstop].
  assert (h' = h) as ->.
  { apply checkEntry_spec in Ec as [Ed _]. rewrite <- (decodeHead_prefix b entryHeadBytes) in Ed by (constants; lia).
    rewrite Hr2, slice_bytes_at in Ed by (constants; lia). rewrite Z.add_0_r, Z.sub_0_r, Eh in Ed. congruence. }
  rewrite wrap64_small by (unfold u64; constants; lia).
  set (j1 := if bool_decide _ then _ else _).
  assert (j1 = fold_left index (piece_index (pos, b)) j) as Hj1.
  { unfold j1, piece_index. simpl. rewrite Ec, Hlb. by case_bool_decide. }
  destruct (index_all_fields (piece_index (pos, b)) j) as (HL1&HS1&HG1&_). rewrite <- Hj1 in HL1, HS1, HG1.
  destruct (IH r2 j1 (pos + length_ h)) as (ps&stop&Hb'&Hps&Hon); rewrite ?HL1; try done; try (constants; lia).
  rewrite HL1, ?HG1, ?HS1 in *. exists ((pos, b) :: ps), stop. split_and!.
  - rewrite Hb'. simpl. rewrite fold_left_app. by rewrite <- Hj1.
  - simpl. rewrite Hlb. split_and!; [done|exists h; by split_and!|lia|done].
  - constructor; [|done]. simpl. by rewrite Hlb, Hr2.
Qed.

(** A piece is at least a byte, so a run has at most as many pieces as bytes. *)
Lemma pieces_ok_count L gen pos ps stop : pieces_ok L gen pos ps stop -> Z.of_nat (length ps) <= stop - pos.
Proof.
  revert pos. induction ps as [|[q b] ps IH]; simpl; intros pos; [lia|].
  intros (_&[Hb _]%reads_at_bounds&_&Hp%IH). constants; lia.
Qed.

(** [readBack] over a ring that holds the run [ps] from the tail hint: it indexes
    that run, and what it finds after it. *)
Lemma readBack_spec d j ps stop :
  let L := ringLength j in let t := s_tail (header j) in
  0 < L < 2 ^ 61 -> 0 <= t < 2 ^ 62 -> pieces_ok L (j_generation j) t ps stop -> stop <= t + L ->
  on_ring d (ringStart j) L ps ->
  exists ps2 stop2, pieces_ok L (j_generation j) stop ps2 stop2 /\ on_ring d (ringStart j) L ps2 /\
    readBack d j = Some (settle_tail (with_ends (fold_left index (flat_map piece_index (ps ++ ps2)) j) (tail j) stop2 stop2)).
Proof.
  intros L t HL Ht Hps Hstop Hon. unfold readBack. fold L t. pose proof (pieces_ok_count _ _ _ _ _ Hps) as Hn.
  pose proof (pieces_ok_le _ _ _ _ _ Hps) as Hle.
  replace (Z.to_nat L) with (length ps + (Z.to_nat L - length ps))%nat by lia.
  destruct (back_chain (Z.to_nat L - length ps) d t (mkReader [] 0) j t ps stop) as (r&Hr&->); fold L; try done; try lia.
  set (j1 := fold_left index (flat_map piece_index ps) j).
  destruct (index_all_fields (flat_map piece_index ps) j) as (HL1&HS1&HG1&Hl1&_&_&_&Ht1&_). fold j1 in HL1, HS1, HG1, Hl1, Ht1.
  destruct (back_sound (Z.to_nat L - length ps) d t r j1 stop) as (ps2&stop2&->&Hps2&Hon2); rewrite ?HL1; try done;
    [fold L; constants; lia|fold L; lia|].
  rewrite HL1, ?HG1, ?HS1 in *. exists ps2, stop2. split_and!; try done.
  rewrite flat_map_app, fold_left_app. fold j1.
  destruct (index_all_fields (flat_map piece_index ps2) j1) as (_&_&_&_&_&_&_&Ht2&_). by rewrite Ht2, Ht1.
Qed.

End Back.

End Disk.
