(* ===== verification/JournalCrash.v ===== *)
(** * What a crash leaves of a journal's disk

    A write is certain once a sync after it returned; until then each of its
    bytes may or may not be on the disk, and stay uncertain when the write or the
    sync failed.  A header slot that holds neither the old nor the new header
    after a torn write fails its checksum.  The facts here say what such a disk
    holds, whatever is lost: one header is certain, and the ring from its tail
    hint to the end of the last synced batch. *)

From S2P Require Import Prelude Bytes JournalFormat JournalRing JournalIndex JournalDisk.

Module Crash.
Import Journal Ring Index Disk.

(** ** Files *)

(** A file: its certain bytes, the other bytes an offset may hold, and the
    writes issued at an offset that are not certain. *)
Record file := mkFile {
  durable : disk;
  maybe : Z -> list byte;
  whole : Z -> list (list byte);
}.

Definition definite (d : disk) : file := mkFile d (fun _ => []) (fun _ => []).

Definition byte_in (w : Z * list byte) (i : Z) : option byte :=
  if (w.1 <=? i) && (i <? w.1 + zlen w.2) then zget w.2 (i - w.1) else None.

Definition covers (ws : list (Z * list byte)) (i : Z) : bool :=
  existsb (fun w => (w.1 <=? i) && (i <? w.1 + zlen w.2)) ws.

#[global] Arguments covers : simpl never.

(** Writes that are issued: [WriteAt] before a sync, or one that failed. *)
Definition issue (f : file) (ws : list (Z * list byte)) : file :=
  mkFile (durable f)
    (fun i => omap (fun w => byte_in w i) ws ++ maybe f i)
    (fun off => (filter (fun w => w.1 = off) ws).*2 ++ whole f off).

Definition apply_writes (d : disk) (ws : list (Z * list byte)) : disk :=
  fold_left (fun d w => write_disk d w.1 w.2) ws d.

(** Writes a sync made certain. *)
Definition sync (f : file) (ws : list (Z * list byte)) : file :=
  mkFile (apply_writes (durable f) ws)
    (fun i => if covers ws i then [] else maybe f i)
    (fun off => if existsb (fun w => w.1 =? off) ws then [] else whole f off).

Lemma byte_in_covers w i : is_Some (byte_in w i) <-> w.1 <= i < w.1 + zlen w.2.
Proof.
  unfold byte_in. destruct (_ && _) eqn:E; zbool.
  - split; [lia|]. intros _. apply zget_lt. lia.
  - split; [by intros [? ?]|lia].
Qed.

Lemma write_disk_in d w i b : byte_in w i = Some b -> write_disk d w.1 w.2 i = b.
Proof. unfold byte_in, write_disk. by destruct (_ && _); [intros ->|]. Qed.

Lemma write_disk_out d w i : byte_in w i = None -> write_disk d w.1 w.2 i = d i.
Proof.
  unfold byte_in, write_disk. destruct (_ && _) eqn:E; [|done]. zbool. intros Hn.
  destruct (zget_lt w.2 (i - w.1) ltac:(lia)). congruence.
Qed.

(** A byte after a run of writes: one of theirs, or the one that was there. *)
Lemma apply_writes_cases ws d i :
  (exists w, w ∈ ws /\ byte_in w i = Some (apply_writes d ws i)) \/
  (apply_writes d ws i = d i /\ forall w, w ∈ ws -> byte_in w i = None).
Proof.
  unfold apply_writes. revert d. induction ws as [|w ws IH]; simpl; intros d.
  - right. split; [done|]. intros w Hw. by apply elem_of_nil in Hw.
  - destruct (IH (write_disk d w.1 w.2)) as [(x&Hx&Hb)|[Hb Hn]]; [left; exists x; split; [by right|done]|].
    rewrite Hb. destruct (byte_in w i) as [b|] eqn:E.
    + left. exists w. split; [by left|]. by rewrite (write_disk_in _ _ _ _ E).
    + right. rewrite write_disk_out by done. split; [done|]. intros x [->|Hx]%elem_of_cons; auto.
Qed.

Lemma covers_spec ws i : covers ws i = true <-> exists w, w ∈ ws /\ is_Some (byte_in w i).
Proof.
  unfold covers. rewrite existsb_exists. split; intros (w&Hw&Hb); exists w.
  - apply list_elem_of_In in Hw. split; [done|]. apply byte_in_covers. zbool. lia.
  - split; [by apply list_elem_of_In|]. apply byte_in_covers in Hb. apply andb_true_iff. split; [apply Z.leb_le|apply Z.ltb_lt]; lia.
Qed.

(** Issued writes touch only what they cover. *)
Lemma issue_maybe f ws i b : b ∈ maybe (issue f ws) i -> covers ws i = true \/ b ∈ maybe f i.
Proof.
  simpl. rewrite elem_of_app, list_elem_of_omap. intros [(w&Hw&Hb)|?]; [left|by right].
  apply covers_spec. exists w. split; [done|]. by eexists.
Qed.

Section Crashes.
Context `{Checksum}.

Definition slot_at (d : disk) (k : Z) : list byte := bytes_at d (k * slotBytes) slotBytes.

(** A disk a crash may leave of a file: each byte certain or possible, and each
    header slot the certain one, one that was written whole, or one that fails
    its checksum. *)
Definition possible (f : file) (d : disk) : Prop :=
  (forall i, d i = durable f i \/ d i ∈ maybe f i) /\
  (forall k, k = 0 \/ k = 1 ->
    slot_at d k = slot_at (durable f) k \/ slot_at d k ∈ whole f (k * slotBytes) \/ decodeSlot (slot_at d k) = Err errNoSlot).

Lemma readHeader_eq d :
  readHeader d =
  if other_version (decodeSlot (slot_at d 0)) then Err ErrVersion
  else if other_version (decodeSlot (slot_at d 1)) then Err ErrVersion
  else
    match decodeSlot (slot_at d 0), decodeSlot (slot_at d 1) with
    | Ok s0, Ok s1 => if counter s1 >? counter s0 then Ok (s1, 1) else Ok (s0, 0)
    | Err _, Ok s1 => Ok (s1, 1)
    | Ok s0, Err _ => Ok (s0, 0)
    | Err _, Err _ => Err errNoSlot
    end.
Proof.
  unfold readHeader. rewrite !slice_bytes_at by (unfold slotBytes; lia). unfold slot_at.
  replace (0 + 0) with (0 * slotBytes) by lia. replace (slotBytes - 0) with slotBytes by lia.
  replace (0 + slotBytes) with (1 * slotBytes) by lia. replace (2 * slotBytes - slotBytes) with slotBytes by lia. reflexivity.
Qed.

#[local] Opaque bytes_at decodeSlot encodeSlot.

(** ** Slots *)

(** A slot that loses against the header [s]. *)
Definition stale (s : slot) (c : list byte) : Prop :=
  decodeSlot c = Err errNoSlot \/ exists s', decodeSlot c = Ok s' /\ counter s' < counter s.

(** The header wins, whatever slot it is in. *)
Lemma readHeader_wins d s at_ :
  at_ = 0 \/ at_ = 1 -> slot_at d at_ = encodeSlot s -> wf_slot s -> stale s (slot_at d (1 - at_)) ->
  readHeader d = Ok (s, at_).
Proof.
  intros Hat Hs Hw Ho. rewrite readHeader_eq. destruct Hat as [->| ->].
  - rewrite Hs, decode_encodeSlot by done. replace (1 - 0) with 1 in Ho by lia.
    destruct Ho as [-> |(s'&->&Hlt)]; [done|]. destruct (_ >? _) eqn:E; zbool; [lia|done].
  - rewrite Hs, decode_encodeSlot by done. replace (1 - 1) with 0 in Ho by lia.
    destruct Ho as [-> |(s'&->&Hlt)]; [done|]. destruct (_ >? _) eqn:E; zbool; [done|lia].
Qed.

(** A slot written to replace the header [s]: the next counter, the same ring,
    and a tail hint at the end of a first part of the run [ps] that holds nothing
    needed. *)
Record replaces (s s' : slot) (ps need : list piece) : Prop := {
  rp_wf : wf_slot s';
  rp_counter : counter s' = counter s + 1;
  rp_same : s_identity s' = s_identity s /\ s_generation s' = s_generation s /\ s_ringStart s' = s_ringStart s /\
    s_ringLength s' = s_ringLength s;
  rp_tail : exists ps1 ps2, ps = ps1 ++ ps2 /\
    pieces_ok (s_ringLength s) (s_generation s) (s_tail s) ps1 (s_tail s') /\ need ⊆ ps2;
}.

(** What a journal laid: pieces that end ready, before the ring runs over the
    tail hint. *)
Definition laid_ok (s : slot) (p : piece) : Prop :=
  ready_at (s_ringLength s) (p.1 + zlen p.2) /\ p.1 + zlen p.2 <= s_tail s + s_ringLength s /\ p.1 + zlen p.2 < 2 ^ 62.

(** ** A disk in use

    The header [s] in slot [at_], the run [ps] from its tail hint to [W], the
    end of what is synced, and an uncertain range up to [N]; [need] are the
    pieces that must not be lost and [hist] all that were laid. *)
Record disk_ok (f : file) (s : slot) (at_ : Z) (ps need hist : list piece) (W N : Z) : Prop := {
  ok_at : at_ = 0 \/ at_ = 1;
  ok_wf : wf_slot s;
  ok_ring : s_ringStart s = ringOffset /\ ring_ok (s_ringLength s) /\ s_ringLength s <= 2 ^ 60;
  ok_ends : 0 <= s_tail s /\ s_tail s <= W /\ W <= N /\ N <= s_tail s + s_ringLength s /\ N < 2 ^ 62;
  ok_ready : ready_at (s_ringLength s) W;
  ok_current : slot_at (durable f) at_ = encodeSlot s;
  ok_quiet : (forall i, at_ * slotBytes <= i < at_ * slotBytes + slotBytes -> maybe f i = []) /\ whole f (at_ * slotBytes) = [];
  ok_other : forall c, c = slot_at (durable f) (1 - at_) \/ c ∈ whole f ((1 - at_) * slotBytes) ->
    stale s c \/ exists s', c = encodeSlot s' /\ replaces s s' ps need;
  ok_run : pieces_ok (s_ringLength s) (s_generation s) (s_tail s) ps W;
  ok_on : on_ring (durable f) ringOffset (s_ringLength s) ps;
  ok_need : need ⊆ ps;
  ok_maybe : forall i b, b ∈ maybe f i ->
    0 <= i < ringOffset \/ exists y, W <= y < N /\ i = ringOffset + y mod s_ringLength s;
  ok_hist : Forall (laid_ok s) hist;
}.

(** What reading back from the header [s] follows was laid by the journal: the
    checksum tells an entry from any other bytes. *)
Definition genuine (d : disk) (s : slot) (hist : list piece) : Prop :=
  forall ps stop, pieces_ok (s_ringLength s) (s_generation s) (s_tail s) ps stop ->
    on_ring d (s_ringStart s) (s_ringLength s) ps -> ps ⊆ hist.

(** A disk a journal may be opened from: blank, or with a header and a run. *)
Definition recoverable (d : disk) (need : Z -> list piece) (hist : list piece) : Prop :=
  match readHeader d with
  | Ok (s, at_) => (exists ps W, disk_ok (definite d) s at_ ps (need (s_generation s)) hist W W) /\ genuine d s hist
  | Err e => e = errNoSlot /\ forall gen, need gen = []
  end.

(** ** Positions and offsets *)

Lemma phys_inj L t x y : 0 < L -> t <= x < t + L -> t <= y < t + L -> x mod L = y mod L -> x = y.
Proof.
  intros HL Hx Hy E. pose proof (Z.div_mod x L ltac:(lia)). pose proof (Z.div_mod y L ltac:(lia)).
  assert (x / L = y / L) by nia. lia.
Qed.

(** The bytes of a piece are at consecutive offsets. *)
Lemma phys_piece L pos k : 0 < L -> 0 <= k < room_at L pos -> (pos + k) mod L = pos mod L + k.
Proof.
  intros HL Hk. unfold room_at in Hk. pose proof (Z.mod_pos_bound pos L HL). pose proof (Z.div_mod pos L ltac:(lia)).
  symmetry. apply (Z.mod_unique_pos _ _ (pos / L)); lia.
Qed.

Lemma pieces_ok_elem L gen pos ps stop q b :
  pieces_ok L gen pos ps stop -> (q, b) ∈ ps -> pos <= q /\ q + zlen b <= stop /\ zlen b <= room_at L q /\ reads_at gen q b.
Proof.
  revert pos. induction ps as [|[q' b'] ps IH]; simpl; intros pos; [by intros _ ?%elem_of_nil|].
  intros (->&Hr&Hroom&Hps) [[= -> ->]|Hin]%elem_of_cons.
  - pose proof (pieces_ok_le _ _ _ _ _ Hps). split_and!; done || lia.
  - destruct (IH _ Hps Hin) as (?&?&?&?). pose proof (reads_at_bounds _ _ _ Hr) as [? _]. constants. split_and!; try done; lia.
Qed.

(** A run on the ring is on any disk that agrees on its offsets. *)
Lemma on_ring_agree d d' rs L gen pos ps stop :
  0 < L -> pieces_ok L gen pos ps stop -> on_ring d rs L ps ->
  (forall y, pos <= y < stop -> d' (rs + y mod L) = d (rs + y mod L)) -> on_ring d' rs L ps.
Proof.
  intros HL Hps Hon Hd. apply Forall_forall. intros [q b] Hin. pose proof (pieces_ok_elem _ _ _ _ _ _ _ Hps Hin) as (?&?&Hroom&_).
  eapply Forall_forall in Hon; [|exact Hin]. simpl in *. rewrite <- Hon at 2. apply bytes_at_ext. intros i Hi.
  replace i with (rs + (q + (i - (rs + q mod L))) mod L) by (rewrite phys_piece by lia; lia). apply Hd. lia.
Qed.

(** ** Crashes *)

(** The certain part of a disk survives: the header, and the run. *)
Lemma possible_ring f s at_ ps need hist W N d :
  disk_ok f s at_ ps need hist W N -> possible f d ->
  slot_at d at_ = encodeSlot s /\ on_ring d ringOffset (s_ringLength s) ps /\
  (W = N -> forall i, ringOffset <= i -> d i = durable f i).
Proof.
  intros Hok [Hd _]. destruct (ok_ring _ _ _ _ _ _ _ _ Hok) as (_&[HL _]&_). destruct (ok_ends _ _ _ _ _ _ _ _ Hok) as (?&?&?&?&?).
  assert (0 < s_ringLength s) as HL0 by (constants; lia).
  assert (forall i, maybe f i = [] -> d i = durable f i) as Hq.
  { intros i Hm. destruct (Hd i) as [?|Hin]; [done|]. rewrite Hm in Hin. by apply elem_of_nil in Hin. }
  split_and!.
  - rewrite <- (ok_current _ _ _ _ _ _ _ _ Hok). apply bytes_at_ext. intros i Hi. apply Hq, (ok_quiet _ _ _ _ _ _ _ _ Hok). lia.
  - eapply on_ring_agree; [done|apply Hok|apply Hok|]. intros y Hy. destruct (Hd (ringOffset + y mod s_ringLength s)) as [?|Hin]; [done|].
    apply (ok_maybe _ _ _ _ _ _ _ _ Hok) in Hin as [Hi|(z&Hz&E)].
    + pose proof (Z.mod_pos_bound y (s_ringLength s) HL0). lia.
    + exfalso. assert (y = z); [|lia]. apply (phys_inj (s_ringLength s) (s_tail s)); lia.
  - intros -> i Hi. destruct (Hd i) as [?|Hin]; [done|]. apply (ok_maybe _ _ _ _ _ _ _ _ Hok) in Hin as [?|(y&?&_)]; lia.
Qed.

Lemma stale_next s s' : wf_slot s -> counter s' = counter s + 1 -> stale s' (encodeSlot s).
Proof. intros Hw Hc. right. exists s. split; [by apply decode_encodeSlot|lia]. Qed.

Lemma laid_ok_forward s s' p :
  s_ringLength s' = s_ringLength s -> s_tail s <= s_tail s' -> laid_ok s p -> laid_ok s' p.
Proof. unfold laid_ok. intros -> ? (?&?&?). split_and!; try done; lia. Qed.

(** The rest of a run after a replacing slot's tail hint. *)
Lemma replaces_run s s' ps need W :
  replaces s s' ps need -> pieces_ok (s_ringLength s) (s_generation s) (s_tail s) ps W ->
  exists ps1 ps2, ps = ps1 ++ ps2 /\ pieces_ok (s_ringLength s) (s_generation s) (s_tail s) ps1 (s_tail s') /\
    pieces_ok (s_ringLength s) (s_generation s) (s_tail s') ps2 W /\ need ⊆ ps2 /\ s_tail s <= s_tail s' <= W.
Proof.
  intros [_ _ _ (ps1&ps2&->&Hp1&Hn)] Hps. exists ps1, ps2.
  assert (pieces_ok (s_ringLength s) (s_generation s) (s_tail s') ps2 W) as Hp2.
  { clear Hn. revert Hp1 Hps. generalize (s_tail s) as t. induction ps1 as [|[q b] ps1 IH]; simpl; intros t; [by intros ->|].
    intros (->&_&_&Hp1) (_&_&_&Hps). by eapply IH. }
  pose proof (pieces_ok_le _ _ _ _ _ Hp1). pose proof (pieces_ok_le _ _ _ _ _ Hp2). by split_and!.
Qed.

(** The disk once a replacing slot is certain. *)
Lemma replaced_ok f f' s s' at_ ps need hist W N :
  disk_ok f s at_ ps need hist W N -> replaces s s' ps need ->
  slot_at (durable f') (1 - at_) = encodeSlot s' -> slot_at (durable f') at_ = encodeSlot s ->
  (forall i, ringOffset <= i -> durable f' i = durable f i) -> (forall i b, b ∈ maybe f' i -> b ∈ maybe f i) ->
  (forall i, (1 - at_) * slotBytes <= i < (1 - at_) * slotBytes + slotBytes -> maybe f' i = []) ->
  whole f' ((1 - at_) * slotBytes) = [] -> whole f' (at_ * slotBytes) = [] ->
  exists ps1 ps2, ps = ps1 ++ ps2 /\ pieces_ok (s_ringLength s) (s_generation s) (s_tail s) ps1 (s_tail s') /\
    disk_ok f' s' (1 - at_) ps2 need hist W N.
Proof.
  intros Hok Hr Hnew Hold Hring Hmay Hquiet Hw1 Hw2.
  destruct (replaces_run _ _ _ _ _ Hr (ok_run _ _ _ _ _ _ _ _ Hok)) as (ps1&ps2&->&Hp1&Hp2&Hn&Ht).
  exists ps1, ps2. split; [done|]. split; [done|]. destruct Hr as [Hwf Hc (Hid&Hg&Hs&HL) _]. destruct Hok.
  constructor; rewrite ?HL, ?Hs, ?Hg; try done.
  - lia.
  - lia.
  - intros c Hc'. left. replace (1 - (1 - at_)) with at_ in Hc' by lia. rewrite Hold, Hw2 in Hc'.
    destruct Hc' as [-> |Hin]; [by apply stale_next|by apply elem_of_nil in Hin].
  - eapply on_ring_agree; [|exact Hp2| |].
    + destruct ok_ring0 as (_&[? _]&_). constants; lia.
    + unfold on_ring in *. by apply Forall_app in ok_on0 as [_ ?].
    + intros y Hy. apply Hring. pose proof (Z.mod_pos_bound y (s_ringLength s)). destruct ok_ring0 as (_&[? _]&_). constants; lia.
  - intros i b Hb. apply ok_maybe0 with b. by apply Hmay.
  - eapply Forall_impl; [done|]. intros p. apply laid_ok_forward; [done|lia].
Qed.

(** What a crash leaves, as a certain disk: one header slot is the other's
    predecessor, or blank, or its replacement. *)
Lemma crash_definite f s at_ ps need hist W N d :
  disk_ok f s at_ ps need hist W N -> possible f d -> disk_ok (definite d) s at_ ps need hist W W.
Proof.
  intros Hok Hp. destruct (possible_ring _ _ _ _ _ _ _ _ _ Hok Hp) as (Hcur&Hon&_). destruct Hp as [_ Hslots], Hok.
  constructor; simpl; try done.
  - lia.
  - intros c [-> |Hin]; [|by apply elem_of_nil in Hin].
    destruct (Hslots (1 - at_)) as [->|[Hin|He]]; [lia| | |].
    + apply ok_other0. by left.
    + apply ok_other0. by right.
    + by left; left.
  - intros i b Hin. by apply elem_of_nil in Hin.
Qed.

(** Whatever a crash leaves of a disk in use, a journal may be opened from it. *)
Lemma crash_recoverable f s at_ ps need hist W N d :
  disk_ok f s at_ ps (need (s_generation s)) hist W N -> possible f d ->
  (forall s' at', readHeader d = Ok (s', at') -> genuine d s' hist) -> recoverable d need hist.
Proof.
  intros Hok Hp Hg. apply crash_definite with (d := d) in Hok; [|done]. unfold recoverable.
  pose proof Hok as [Hat Hwf _ _ _ Hcur _ Hother _ _ _ _ _]. simpl in Hcur, Hother.
  destruct (Hother (slot_at d (1 - at_)) ltac:(by left)) as [Hst|(s'&Hs'&Hr)].
  - rewrite (readHeader_wins d s at_) in * by done. eauto.
  - rewrite (readHeader_wins d s' (1 - at_)) in *; [|lia|done|apply Hr| |lia|done|apply Hr|];
      try (replace (1 - (1 - at_)) with at_ by lia; rewrite Hcur; apply stale_next; [done|apply Hr]).
    split; [|by eapply Hg]. destruct (replaced_ok (definite d) (definite d) s s' at_ ps (need (s_generation s)) hist W W) as (ps1&ps2&_&_&Hok2); try done.
    destruct Hr as [_ _ (_&->&_) _]. eauto.
Qed.

(** ** Writing a slot *)

Lemma slot_apart k i : k = 0 \/ k = 1 ->
  (1 - k) * slotBytes <= i < (1 - k) * slotBytes + slotBytes -> ~ (k * slotBytes <= i < k * slotBytes + slotBytes) /\ 0 <= i < ringOffset.
Proof. unfold ringOffset, slotBytes. lia. Qed.

Lemma covers_one off data i : covers [(off, data)] i = true <-> off <= i < off + zlen data.
Proof. unfold covers. simpl. rewrite orb_false_r, andb_true_iff, Z.leb_le, Z.ltb_lt. done. Qed.

(** A replacing slot that is issued: the disk is as it was, with one more slot a
    crash may leave. *)
Lemma issue_slot f s s' at_ ps need hist W N :
  disk_ok f s at_ ps need hist W N -> replaces s s' ps need ->
  disk_ok (issue f [((1 - at_) * slotBytes, encodeSlot s')]) s at_ ps need hist W N.
Proof.
  intros Hok Hr. pose proof (encodeSlot_length s' (rp_wf _ _ _ _ Hr)) as Hlen. destruct Hok. constructor; try done.
  - destruct ok_quiet0 as [Hq Hwq]. split.
    + intros i Hi. specialize (Hq i Hi). destruct (maybe (issue _ _) i) as [|b l] eqn:E; [done|]. exfalso.
      assert (b ∈ maybe (issue f [((1 - at_) * slotBytes, encodeSlot s')]) i) as Hb by (rewrite E; left).
      apply issue_maybe in Hb as [Hc|Hb]; [|rewrite Hq in Hb; by apply elem_of_nil in Hb].
      apply covers_one in Hc. rewrite Hlen in Hc. destruct (slot_apart at_ i ok_at0 Hc). done.
    + simpl. rewrite filter_cons, decide_False; [done|]. simpl. unfold slotBytes. lia.
  - intros c Hc. simpl in Hc. rewrite filter_cons, decide_True in Hc by done. simpl in Hc.
    destruct Hc as [->|[->|Hin]%elem_of_cons]; [apply ok_other0; by left|right; by exists s'|apply ok_other0; by right].
  - intros i b Hb. apply issue_maybe in Hb as [Hc|Hb]; [|by eapply ok_maybe0].
    left. apply covers_one in Hc. rewrite Hlen in Hc. by apply (slot_apart at_ i).
Qed.

(** A replacing slot that is synced. *)
Lemma sync_slot f s s' at_ ps need hist W N :
  disk_ok f s at_ ps need hist W N -> replaces s s' ps need ->
  exists ps1 ps2, ps = ps1 ++ ps2 /\ pieces_ok (s_ringLength s) (s_generation s) (s_tail s) ps1 (s_tail s') /\
    disk_ok (sync f [((1 - at_) * slotBytes, encodeSlot s')]) s' (1 - at_) ps2 need hist W N.
Proof.
  intros Hok Hr. pose proof (encodeSlot_length s' (rp_wf _ _ _ _ Hr)) as Hlen. pose proof (ok_at _ _ _ _ _ _ _ _ Hok) as Hat.
  set (off := (1 - at_) * slotBytes). set (c := encodeSlot s') in *.
  assert (forall i, ~ (off <= i < off + slotBytes) -> write_disk (durable f) off c i = durable f i) as Hout.
  { intros i Hi. unfold write_disk. rewrite Hlen. destruct (_ && _) eqn:E; [zbool; lia|done]. }
  assert (forall i, covers [(off, c)] i = true <-> off <= i < off + slotBytes) as Hcov by (intros i; rewrite covers_one, Hlen; done).
  apply (replaced_ok f); try done; simpl.
  - unfold slot_at. fold off. rewrite <- Hlen. apply bytes_at_write.
  - rewrite <- (ok_current _ _ _ _ _ _ _ _ Hok). apply bytes_at_ext. intros i Hi. apply Hout. intros Hi'.
    by destruct (slot_apart at_ i Hat Hi').
  - intros i Hi. apply Hout. intros Hi'. destruct (slot_apart at_ i Hat Hi'). lia.
  - intros i b. destruct (covers _ i); [by intros ?%elem_of_nil|done].
  - intros i Hi. by rewrite (proj2 (Hcov i) Hi).
  - by rewrite Z.eqb_refl.
  - destruct (_ =? _) eqn:E; [done|]. simpl. apply (ok_quiet _ _ _ _ _ _ _ _ Hok).
Qed.

(** ** Writing a batch *)

(** The writes of a run of bytes from [pos]: each covers offsets of the run, with
    the run's bytes, and together they cover it. *)
Lemma write_ring_spec fuel j pos img :
  0 < ringLength j -> 0 <= pos -> pos + zlen img < 2 ^ 64 -> zlen img <= Z.of_nat fuel ->
  let ws := write_ring fuel j pos img in
  (forall w, w ∈ ws -> ringStart j <= w.1) /\
  (forall w i b, w ∈ ws -> byte_in w i = Some b ->
     exists y, pos <= y < pos + zlen img /\ i = ringStart j + y mod ringLength j /\ zget img (y - pos) = Some b) /\
  (forall y, pos <= y < pos + zlen img -> exists w, w ∈ ws /\ is_Some (byte_in w (ringStart j + y mod ringLength j))).
Proof.
  intros HL. revert pos img. induction fuel as [|fuel IH]; simpl; intros pos img Hp H64 Hf.
  { split_and!; [by intros ? ?%elem_of_nil|by intros ??? ?%elem_of_nil|lia]. }
  destruct (0 <? zlen img) eqn:E; zbool; [|split_and!; [by intros ? ?%elem_of_nil|by intros ??? ?%elem_of_nil|lia]].
  pose proof (Z.mod_pos_bound pos (ringLength j) HL) as Hm. fold (room_at (ringLength j) pos).
  set (n := Z.min (zlen img) (room_at (ringLength j) pos)). assert (0 < n <= room_at (ringLength j) pos) as Hn by (unfold n, room_at; lia).
  assert (n <= zlen img) as Hn' by lia. assert (zlen (slice img n (zlen img)) = zlen img - n) as Hrest by (apply zlen_slice; lia).
  rewrite wrap64_small by (unfold u64; lia).
  destruct (IH (pos + n) (slice img n (zlen img)) ltac:(lia) ltac:(lia) ltac:(lia)) as (HC&HA&HB).
  assert (zlen (slice img 0 n) = n) as Hfirst by (rewrite zlen_slice by lia; lia). split_and!.
  - intros w [->|Hw]%elem_of_cons; [simpl; lia|by apply HC].
  - intros w i b [->|Hw]%elem_of_cons Hb.
    + unfold byte_in in Hb. simpl in Hb. rewrite Hfirst in Hb. destruct (_ && _) eqn:Ei; [|done]. zbool.
      set (k := i - (ringStart j + pos mod ringLength j)) in *. exists (pos + k). rewrite phys_piece by lia. split; [lia|]. split; [lia|].
      rewrite zget_slice in Hb by lia. rewrite <- Hb. f_equal. lia.
    + destruct (HA w i b Hw Hb) as (y&Hy&->&Hz). exists y. split; [lia|]. split; [done|].
      rewrite zget_slice in Hz by lia. rewrite <- Hz. f_equal. lia.
  - intros y Hy. destruct (decide (y < pos + n)) as [Hlt|Hge].
    + eexists. split; [by left|]. apply byte_in_covers. simpl. rewrite Hfirst.
      replace y with (pos + (y - pos)) by lia. rewrite phys_piece by lia. lia.
    + destruct (HB y ltac:(lia)) as (w&Hw&Hs). exists w. split; [by right|done].
Qed.

(** The bytes of a run of pieces. *)
Lemma run_bytes L gen pos ps stop q b k :
  pieces_ok L gen pos ps stop -> (q, b) ∈ ps -> 0 <= k < zlen b -> zget (concat ps.*2) (q - pos + k) = zget b k.
Proof.
  revert pos. induction ps as [|[q' b'] ps IH]; intros pos; [by intros _ ?%elem_of_nil|].
  rewrite fmap_cons. cbn [pieces_ok concat snd]. intros (->&Hr&_&Hps) Hin Hk. rewrite zget_app.
  apply elem_of_cons in Hin as [[= -> ->]|Hin].
  - destruct (_ <? _) eqn:E; zbool; [f_equal; lia|lia].
  - destruct (pieces_ok_elem _ _ _ _ _ _ _ Hps Hin) as (?&_). destruct (_ <? _) eqn:E; zbool; [lia|].
    rewrite <- (IH _ Hps Hin Hk). f_equal. lia.
Qed.

(** A batch that is placed: the uncertain range grows to its end, and its pieces
    are laid. *)
Lemma place_disk f s at_ ps need hist W N N' ps' :
  disk_ok f s at_ ps need hist W N -> N <= N' <= s_tail s + s_ringLength s -> N' < 2 ^ 62 -> Forall (laid_ok s) ps' ->
  disk_ok f s at_ ps need (hist ++ ps') W N'.
Proof.
  intros [] HN H62 Hps'. constructor; try done; [lia| |by apply Forall_app].
  intros i b Hb. destruct (ok_maybe0 i b Hb) as [?|(y&?&?)]; [by left|right]. exists y. split; [lia|done].
Qed.

Section Batch.
Context (f : file) (j : Journal) (s : slot) (at_ : Z) (ps need hist : list piece) (W N : Z).
Context (ps' : list piece) (fuel : nat).
Hypothesis Hok : disk_ok f s at_ ps need hist W N.
Hypothesis HjL : ringLength j = s_ringLength s.
Hypothesis Hjs : ringStart j = ringOffset.
Hypothesis Hps' : pieces_ok (s_ringLength s) (s_generation s) W ps' N.
Hypothesis Hfuel : zlen (concat ps'.*2) <= Z.of_nat fuel.

#[local] Definition batch_writes : list (Z * list byte) := write_ring fuel j W (concat ps'.*2).

Lemma batch_writes_spec :
  (forall w, w ∈ batch_writes -> ringOffset <= w.1) /\
  (forall w i b, w ∈ batch_writes -> byte_in w i = Some b ->
     exists y, W <= y < N /\ i = ringOffset + y mod s_ringLength s /\ zget (concat ps'.*2) (y - W) = Some b) /\
  (forall y, W <= y < N -> exists w, w ∈ batch_writes /\ is_Some (byte_in w (ringOffset + y mod s_ringLength s))).
Proof.
  destruct (ok_ring _ _ _ _ _ _ _ _ Hok) as (_&[HL _]&_). destruct (ok_ends _ _ _ _ _ _ _ _ Hok) as (?&?&?&?&?).
  pose proof (pieces_ok_length _ _ _ _ _ Hps') as HN.
  destruct (write_ring_spec fuel j W (concat ps'.*2)) as (HC&HA&HB); rewrite ?HjL; try (constants; lia).
  rewrite <- HN, HjL, Hjs in *. done.
Qed.

Lemma batch_covers i : covers batch_writes i = true <-> exists y, W <= y < N /\ i = ringOffset + y mod s_ringLength s.
Proof.
  destruct batch_writes_spec as (_&HA&HB). rewrite covers_spec. split.
  - intros (w&Hw&[b Hb]). destruct (HA w i b Hw Hb) as (y&?&?&_). eauto.
  - intros (y&Hy&->). by apply HB.
Qed.

(** A batch's offsets are past the slots. *)
Lemma batch_past_slots i : i < ringOffset -> covers batch_writes i = false.
Proof.
  intros Hi. apply not_true_iff_false. intros (y&Hy&->)%batch_covers.
  destruct (ok_ring _ _ _ _ _ _ _ _ Hok) as (_&[HL _]&_). pose proof (Z.mod_pos_bound y (s_ringLength s)). constants; lia.
Qed.

Lemma issue_batch : disk_ok (issue f batch_writes) s at_ ps need hist W N.
Proof.
  pose proof batch_writes_spec as (HC&_&_). pose proof Hok as [].
  assert (forall k, k = 0 \/ k = 1 -> whole (issue f batch_writes) (k * slotBytes) = whole f (k * slotBytes)) as Hw.
  { intros k Hk. simpl. enough (filter (fun w => w.1 = k * slotBytes) batch_writes = []) as -> by done.
    apply filter_none. intros w Hw%HC. unfold ringOffset, slotBytes in *. lia. }
  constructor; try done.
  - destruct ok_quiet0 as [Hq Hwq]. split; [|by rewrite Hw]. intros i Hi.
    destruct (maybe (issue f batch_writes) i) as [|b l] eqn:E; [done|]. exfalso.
    assert (b ∈ maybe (issue f batch_writes) i) as Hb by (rewrite E; left).
    apply issue_maybe in Hb as [Hc|Hb]; [|rewrite Hq in Hb by done; by apply elem_of_nil in Hb].
    rewrite batch_past_slots in Hc; [done|]. unfold ringOffset, slotBytes in *. lia.
  - intros c Hc. rewrite Hw in Hc by lia. apply ok_other0. exact Hc.
  - intros i b Hb. apply issue_maybe in Hb as [Hc|Hb]; [right; by apply batch_covers|by eapply ok_maybe0].
Qed.

Lemma sync_batch_bytes i :
  (forall y, W <= y < N -> i = ringOffset + y mod s_ringLength s ->
     Some (durable (sync f batch_writes) i) = zget (concat ps'.*2) (y - W)) /\
  (covers batch_writes i = false -> durable (sync f batch_writes) i = durable f i).
Proof.
  pose proof batch_writes_spec as (_&HA&HB). simpl.
  destruct (ok_ring _ _ _ _ _ _ _ _ Hok) as (_&[HL _]&_). destruct (ok_ends _ _ _ _ _ _ _ _ Hok) as (?&?&?&?&?).
  destruct (apply_writes_cases batch_writes (durable f) i) as [(w&Hw&Hb)|[Hb Hn]]; split.
  - intros y Hy ->. destruct (HA _ _ _ Hw Hb) as (z&Hz&E&Hg).
    assert (y = z) as ->; [|done]. apply (phys_inj (s_ringLength s) W); constants; lia.
  - intros Hc. exfalso. apply not_true_iff_false in Hc. apply Hc, covers_spec. eexists. split; [exact Hw|by eexists].
  - intros y Hy ->. destruct (HB y Hy) as (w&Hw&[b Hb']). rewrite Hn in Hb' by done. done.
  - done.
Qed.

(** A batch that is synced: its pieces join the run. *)
Lemma sync_batch need' :
  ready_at (s_ringLength s) N -> need' ⊆ need ++ ps' ->
  disk_ok (sync f batch_writes) s at_ (ps ++ ps') need' hist N N.
Proof.
  intros HrN Hneed. pose proof Hok as [].
  assert (forall i, i < ringOffset -> durable (sync f batch_writes) i = durable f i) as Hslots
    by (intros i Hi; by apply (sync_batch_bytes i), batch_past_slots).
  assert (forall k, k = 0 \/ k = 1 -> slot_at (durable (sync f batch_writes)) k = slot_at (durable f) k) as Hsl.
  { intros k Hk. apply bytes_at_ext. intros i Hi. apply Hslots. unfold ringOffset, slotBytes in *. lia. }
  assert (forall k c, k = 0 \/ k = 1 -> c ∈ whole (sync f batch_writes) (k * slotBytes) -> c ∈ whole f (k * slotBytes)) as Hwh.
  { intros k c _. simpl. by destruct (existsb _ _); [intros ?%elem_of_nil|]. }
  constructor; try done; rewrite ?Hsl by lia; try done.
  - lia.
  - destruct ok_quiet0 as [Hq Hwq]. split.
    + intros i Hi. simpl. rewrite Hq by done. by destruct (covers _ _).
    + simpl. rewrite Hwq. by destruct (existsb _ _).
  - intros c Hc. destruct (ok_other0 c) as [Hs|(s'&->&Hr)].
    + destruct Hc as [->|Hin]; [by left|right]. apply Hwh; [lia|done].
    + by left.
    + right. exists s'. split; [done|]. destruct Hr as [? ? ? (ps1&ps2&->&?&Hn2)]. constructor; try done.
      exists ps1, (ps2 ++ ps'). rewrite app_assoc. split; [done|]. split; [done|].
      intros x [?|?]%Hneed%elem_of_app; apply elem_of_app; [left; by apply Hn2|by right].
  - by eapply pieces_ok_app.
  - unfold on_ring. apply Forall_app. split.
    + eapply on_ring_agree; [|exact ok_run0|exact ok_on0|].
      * destruct ok_ring0 as (_&[? _]&_). constants; lia.
      * intros y Hy. apply sync_batch_bytes. apply not_true_iff_false. intros (z&Hz&E)%batch_covers.
        assert (y = z); [|lia]. destruct ok_ring0 as (_&[? _]&_). apply (phys_inj (s_ringLength s) (s_tail s)); constants; lia.
    + apply Forall_forall. intros [q b] Hin. cbn [fst snd].
      destruct (pieces_ok_elem _ _ _ _ _ _ _ Hps' Hin) as (Hq1&Hq2&Hroom&_). pose proof (zlen_nonneg b).
      apply list_eq_zget; rewrite zlen_bytes_at by done; [done|]. intros k Hk. rewrite zget_bytes_at by done.
      rewrite <- (run_bytes _ _ _ _ _ q b k Hps' Hin Hk).
      rewrite (proj1 (sync_batch_bytes (ringOffset + q mod s_ringLength s + k)) (q + k)); [|lia|].
      * f_equal. lia.
      * rewrite phys_piece; [lia| |lia]. destruct ok_ring0 as (_&[? _]&_). constants; lia.
  - intros x [?|?]%Hneed%elem_of_app; apply elem_of_app; [left; by apply ok_need0|by right].
  - intros i b. simpl. destruct (covers batch_writes i) eqn:E; [by intros ?%elem_of_nil|]. intros Hb.
    destruct (ok_maybe0 i b Hb) as [?|Hy%batch_covers]; [by left|congruence].
Qed.

End Batch.

(** ** Formatting *)

(** The file while a format's header, [s], is being written into slot 0 of a
    disk that has none. *)
Record format_ok (f : file) (s : slot) : Prop := {
  fo_wf : wf_slot s;
  fo_ring : s_ringStart s = ringOffset /\ ring_ok (s_ringLength s) /\ s_ringLength s <= 2 ^ 60 /\ s_tail s = s_ringLength s;
  fo_blank : decodeSlot (slot_at (durable f) 0) = Err errNoSlot /\ decodeSlot (slot_at (durable f) 1) = Err errNoSlot;
  fo_maybe : forall i b, b ∈ maybe f i -> 0 <= i < slotBytes;
  fo_whole : whole f 0 ⊆ [encodeSlot s] /\ whole f slotBytes = [];
}.

Lemma format_disk d s :
  wf_slot s -> s_ringStart s = ringOffset -> ring_ok (s_ringLength s) -> s_ringLength s <= 2 ^ 60 -> s_tail s = s_ringLength s ->
  slot_at d 0 = encodeSlot s -> decodeSlot (slot_at d 1) = Err errNoSlot ->
  disk_ok (definite d) s 0 [] [] [] (s_tail s) (s_tail s).
Proof.
  intros Hw Hs HL HL60 Ht H0 H1. pose proof HL as [HL1 HL2]. constructor.
  - by left.
  - exact Hw.
  - by split_and!.
  - constants; lia.
  - apply aligned_room; [exact HL|constants; lia|by rewrite Ht].
  - exact H0.
  - by split.
  - intros c [->|Hin]; [left; left; exact H1|destruct (not_elem_of_nil _ Hin)].
  - reflexivity.
  - by apply Forall_nil.
  - intros ? Hin. destruct (not_elem_of_nil _ Hin).
  - intros ?? Hin. destruct (not_elem_of_nil _ Hin).
  - by apply Forall_nil.
Qed.

Lemma format_crash f s d :
  format_ok f s -> possible f d ->
  readHeader d = Err errNoSlot \/
  (readHeader d = Ok (s, 0) /\ disk_ok (definite d) s 0 [] [] [] (s_tail s) (s_tail s)).
Proof.
  intros [Hw (Hs&HL&HL60&Ht) [Hb0 Hb1] _ [Hw0 Hw1]] [_ Hslots].
  assert (decodeSlot (slot_at d 1) = Err errNoSlot) as H1.
  { destruct (Hslots 1 ltac:(by right)) as [-> |[Hin| ->]]; [done| |done].
    change (1 * slotBytes) with slotBytes in Hin. rewrite Hw1 in Hin. destruct (not_elem_of_nil _ Hin). }
  destruct (Hslots 0 ltac:(by left)) as [H0|[Hin|H0]].
  - left. rewrite readHeader_eq, H0, Hb0, H1. reflexivity.
  - right. change (0 * slotBytes) with 0 in Hin. apply Hw0, list_elem_of_singleton in Hin.
    split; [|by apply format_disk]. apply readHeader_wins; [by left|exact Hin|exact Hw|left; exact H1].
  - left. rewrite readHeader_eq, H0, H1. reflexivity.
Qed.

Lemma format_sync f s :
  format_ok f s -> disk_ok (sync f [(0, encodeSlot s)]) s 0 [] [] [] (s_tail s) (s_tail s).
Proof.
  intros [Hw (Hs&HL&HL60&Ht) [Hb0 Hb1] Hm [Hw0 Hw1]]. pose proof (encodeSlot_length s Hw) as Hlen.
  assert (forall i, covers [(0, encodeSlot s)] i = true <-> 0 <= i < slotBytes) as Hcov by (intros i; rewrite covers_one, Hlen; done).
  assert (disk_ok (definite (durable (sync f [(0, encodeSlot s)]))) s 0 [] [] [] (s_tail s) (s_tail s)) as [].
  { apply format_disk; try exact HL; [exact Hw|exact Hs|exact HL60|exact Ht| |].
    - unfold slot_at. rewrite <- Hlen. exact (bytes_at_write _ _ _).
    - rewrite <- Hb1. f_equal. apply bytes_at_ext. intros i Hi. simpl. unfold write_disk. rewrite Hlen.
      destruct (_ && _) eqn:E; [|reflexivity]. zbool. unfold slotBytes in *. lia. }
  constructor; try assumption.
  - split.
    + intros i Hi. simpl. change (0 * slotBytes) with 0 in Hi. by rewrite (proj2 (Hcov i) Hi).
    + reflexivity.
  - intros c [->|Hin]; [apply ok_other0; by left|]. simpl in Hin. change ((1 - 0) * slotBytes) with slotBytes in Hin.
    rewrite Hw1 in Hin. destruct (not_elem_of_nil _ Hin).
  - intros i b. simpl. destruct (covers _ i) eqn:E; [intros Hin; destruct (not_elem_of_nil _ Hin)|]. intros Hb%Hm. apply Hcov in Hb. congruence.
Qed.

End Crashes.

End Crash.
