(* ===== verification/JournalHolder.v ===== *)
(** * The index of a holder's journal against its ring

    An open journal's live entries are the entries of the last part of the run
    that is on its ring, from the tail on.  Completing a batch, trimming, moving
    the tail hint and reading a disk back keep them so. *)

From S2P Require Import Prelude Bytes JournalFormat JournalRing JournalIndex JournalDisk JournalCrash.

Module Holder.
Import Journal Ring Index Disk Crash.

Definition undead (e : indexed) : indexed := mkIndexed (i_position e) (i_length e) (i_vm e) (i_epoch e) false.

Lemma undead_alive e : dead e = false -> undead e = e.
Proof. destruct e. simpl. by intros ->. Qed.

Section Holder.
Context `{Checksum}.

(** Entries that were answered, with their positions. *)
Definition acked_ok (acked : list (Z * Entry)) : Prop := Forall (fun p => wf_entry p.2 /\ u64 p.1) acked.

Definition piece_of (gen : Z) (p : Z * Entry) : piece := (p.1, entry_bytes p.2 p.1 gen).

Definition needed (acked : list (Z * Entry)) (gen : Z) : list piece := piece_of gen <$> acked.

Lemma piece_index_entry e q gen :
  wf_entry e -> u64 q -> u64 gen -> piece_index (q, entry_bytes e q gen) = [index_of e q].
Proof.
  intros He Hq Hg. unfold piece_index. cbn [fst snd]. unfold entry_bytes. rewrite checkEntry_entry by done.
  rewrite bool_decide_true by done. rewrite (proj2 (decodeEntry_entry e q gen He Hq Hg)).
  rewrite sealed_length, entry_body_length by apply He. unfold index_of. do 2 f_equal. lia.
Qed.

Lemma piece_index_cases p :
  piece_index p = [] \/ exists x, piece_index p = [x] /\ i_position x = p.1 /\ dead x = false.
Proof.
  unfold piece_index. destruct (checkEntry p.2) as [h|]; [|by left]. case_bool_decide; [right|by left]. by eexists.
Qed.

(** The entry at a place of the index is the one a piece indexes. *)
Lemma flat_map_split post A x B :
  flat_map piece_index post = A ++ x :: B ->
  exists p1 b p2, post = p1 ++ (i_position x, b) :: p2 /\ piece_index (i_position x, b) = [x] /\
    flat_map piece_index p1 = A /\ flat_map piece_index p2 = B.
Proof.
  revert A. induction post as [|p post IH]; simpl; intros A Hf; [by destruct A|].
  destruct (piece_index_cases p) as [Hp|(y&Hp&Hy&_)]; rewrite Hp in Hf; simpl in Hf.
  - destruct (IH A Hf) as (p1&b&p2&->&?&<-&?). exists (p :: p1), b, p2. simpl. by rewrite Hp.
  - destruct A as [|a A]; simpl in Hf; injection Hf as Hf1 Hf2.
    + subst y. destruct p as [q b]. simpl in Hy. subst q. by exists [], b, post.
    + subst a. destruct (IH A Hf2) as (p1&b&p2&->&?&<-&?). exists (p :: p1), b, p2. simpl. by rewrite Hp.
Qed.

Lemma pieces_ok_app_inv L gen pos ps qs stop :
  pieces_ok L gen pos (ps ++ qs) stop -> exists mid, pieces_ok L gen pos ps mid /\ pieces_ok L gen mid qs stop.
Proof.
  revert pos. induction ps as [|[q b] ps IH]; simpl; intros pos; [by exists pos|].
  intros (->&?&?&Hp). destruct (IH _ Hp) as (mid&?&?). by exists mid.
Qed.

(** Of two first parts of a run, the one that ends first is the shorter. *)
Lemma pieces_ok_prefix L gen pos p1 p2 q1 q2 a b :
  pieces_ok L gen pos p1 a -> pieces_ok L gen pos q1 b -> p1 ++ p2 = q1 ++ q2 -> a <= b ->
  exists mid, q1 = p1 ++ mid /\ p2 = mid ++ q2.
Proof.
  revert pos q1. induction p1 as [|[q x] p1 IH]; simpl; intros pos q1 Hp Hq E Hle; [by exists q1|].
  destruct Hp as (->&Hr&_&Hp). destruct q1 as [|[q' y] q1]; simpl in *.
  - subst b. apply pieces_ok_le in Hp. apply reads_at_bounds in Hr as [? _]. constants; lia.
  - injection E as <- <- E. destruct Hq as (_&_&_&Hq). destruct (IH _ _ Hp Hq E Hle) as (mid&->&->). by exists mid.
Qed.

(** ** The index *)

Record index_ok (j : Journal) (ps : list piece) (acked : list (Z * Entry)) (pre post : list piece) : Prop := {
  ix_split : ps = pre ++ post;
  ix_pre : pieces_ok (ringLength j) (j_generation j) (s_tail (header j)) pre (tail j);
  ix_live : undead <$> live j = flat_map piece_index post;
  ix_held : held_ok (live j) (held_ j);
  ix_front : match live j with [] => tail j = written j | e :: _ => dead e = false /\ tail j = i_position e end;
  ix_acked : forall q e, (q, e) ∈ acked -> (q, entry_bytes e q (j_generation j)) ∈ post /\ index_of e q ∈ live j;
}.

(** The state before the tail settles. *)
Record unsettled (j : Journal) (ps : list piece) (acked : list (Z * Entry)) (pre post : list piece) (t : Z) : Prop := {
  un_split : ps = pre ++ post;
  un_pre : pieces_ok (ringLength j) (j_generation j) (s_tail (header j)) pre t;
  un_post : pieces_ok (ringLength j) (j_generation j) t post (written j);
  un_live : undead <$> live j = flat_map piece_index post;
  un_held : held_ok (live j) (held_ j);
  un_acked : forall q e, (q, e) ∈ acked -> (q, entry_bytes e q (j_generation j)) ∈ post /\ index_of e q ∈ live j;
}.

Lemma settle_tail_eq j :
  settle_tail j = with_ends (with_index j (drop_dead (live j)) (held_ j))
    (match drop_dead (live j) with [] => written j | e :: _ => i_position e end) (written j) (next j).
Proof. unfold settle_tail, liveTail. by destruct (drop_dead (live j)). Qed.

Lemma settle_index j ps acked pre post t :
  u64 (j_generation j) -> acked_ok acked -> unsettled j ps acked pre post t ->
  (exists pre' post', index_ok (settle_tail j) ps acked pre' post') /\ t <= tail (settle_tail j).
Proof.
  intros Hg Hak [-> Hpre Hpost Hlive Hheld Hneed].
  pose proof (held_ok_settle j Hheld) as Hh. rewrite settle_tail_eq in Hh |- *. pose proof (drop_dead_front (live j)) as Hfront.
  destruct (drop_dead_suffix (live j)) as (dd&Hdd&Hdead).
  assert (forall q e, (q, e) ∈ acked -> index_of e q ∈ drop_dead (live j)) as Hin.
  { intros q e Hqe. destruct (Hneed q e Hqe) as [_ Hx]. rewrite Hdd in Hx. apply elem_of_app in Hx as [Hx|Hx]; [|done].
    eapply Forall_forall in Hdead; [|exact Hx]. done. }
  destruct (drop_dead (live j)) as [|x rest] eqn:Ed.
  - split; [|by apply pieces_ok_le in Hpost]. exists (pre ++ post), []. constructor; simpl; try done.
    + by rewrite app_nil_r.
    + by eapply pieces_ok_app.
    + intros q e Hqe. by apply Hin, elem_of_nil in Hqe.
  - rewrite Hdd, fmap_app in Hlive. simpl in Hlive. rewrite (undead_alive x Hfront) in Hlive. symmetry in Hlive.
    destruct (flat_map_split _ _ _ _ Hlive) as (p1&b&p2&->&Hpx&Hf1&Hf2).
    destruct (pieces_ok_app_inv _ _ _ _ _ _ Hpost) as (mid&Hm1&Hm2). pose proof Hm2 as Hm2'. simpl in Hm2'. destruct Hm2' as (<-&_).
    split; [|by apply pieces_ok_le in Hm1]. exists (pre ++ p1), ((i_position x, b) :: p2). constructor; simpl; try done.
    + by rewrite app_assoc.
    + by eapply pieces_ok_app.
    + simpl. rewrite Hpx, Hf2, (undead_alive x Hfront). done.
    + intros q e Hqe. split; [|by apply Hin]. destruct (Hneed q e Hqe) as [Hq _]. apply elem_of_app in Hq as [Hq|Hq]; [|done].
      exfalso. pose proof (pieces_ok_elem _ _ _ _ _ _ _ Hm1 Hq) as (_&Hlt&_&Hr). apply reads_at_bounds in Hr as [? _].
      assert (index_of e q ∈ flat_map piece_index ((i_position x, b) :: p2)) as Hx.
      { simpl. rewrite Hpx, Hf2. simpl. specialize (Hin q e Hqe). apply elem_of_cons in Hin as [->|Hin]; [by left|right].
        apply list_elem_of_fmap. exists (index_of e q). by rewrite undead_alive. }
      apply list_elem_of_In, in_flat_map in Hx as ([q' b']&Hp'%list_elem_of_In&Hx).
      destruct (pieces_ok_elem _ _ _ _ _ _ _ Hm2 Hp') as (Hge&_).
      destruct (piece_index_cases (q', b')) as [E|(y&E&Hy&_)]; rewrite E in Hx; [done|]. destruct Hx as [->|[]]. simpl in Hy. constants; lia.
Qed.

(** A run ends where its bytes do. *)
Lemma pieces_ok_end L gen pos ps a b : pieces_ok L gen pos ps a -> pieces_ok L gen pos ps b -> a = b.
Proof. intros ->%pieces_ok_length ->%pieces_ok_length. done. Qed.

Lemma index_post j ps acked pre post :
  index_ok j ps acked pre post -> pieces_ok (ringLength j) (j_generation j) (s_tail (header j)) ps (written j) ->
  pieces_ok (ringLength j) (j_generation j) (tail j) post (written j).
Proof.
  intros [-> Hpre _ _ _ _] (mid&Hp&Hq)%pieces_ok_app_inv. by rewrite (pieces_ok_end _ _ _ _ _ _ Hpre Hp).
Qed.

Lemma held_ok_all es j :
  held_ok (live j) (held_ j) -> Forall (fun e => dead e = false) es ->
  held_ok (live (fold_left index es j)) (held_ (fold_left index es j)).
Proof.
  intros Hh Hes. revert j Hh. induction Hes as [|e es He _ IH]; simpl; intros j Hh; [done|]. by apply IH, held_ok_index.
Qed.

Lemma piece_index_alive ps : Forall (fun e => dead e = false) (flat_map piece_index ps).
Proof.
  induction ps as [|p ps IH]; simpl; [by apply Forall_nil|]. apply Forall_app. split; [|done].
  destruct (piece_index_cases p) as [->|(x&->&_&Hx)]; [by apply Forall_nil|]. by constructor.
Qed.

Lemma undead_all es : Forall (fun e => dead e = false) es -> undead <$> es = es.
Proof. induction 1 as [|e es He _ IH]; [done|]. rewrite fmap_cons, IH. by rewrite undead_alive. Qed.

Lemma indexed_entry e q gen ps :
  wf_entry e -> u64 q -> u64 gen -> (q, entry_bytes e q gen) ∈ ps -> index_of e q ∈ flat_map piece_index ps.
Proof.
  intros He Hq Hg Hin. apply list_elem_of_In, in_flat_map. exists (q, entry_bytes e q gen).
  split; [by apply list_elem_of_In|]. rewrite piece_index_entry by done. by left.
Qed.

(** A batch that reached the disk. *)
Lemma complete_index j ps acked pre post p errs ps' new :
  u64 (j_generation j) -> acked_ok (acked ++ new) -> index_ok j ps acked pre post ->
  pieces_ok (ringLength j) (j_generation j) (s_tail (header j)) ps (written j) ->
  pieces_ok (ringLength j) (j_generation j) (written j) ps' (if zlen (image p) =? 0 then written j else p_end p) ->
  entries p = flat_map piece_index ps' ->
  (forall q e, (q, e) ∈ new -> (q, entry_bytes e q (j_generation j)) ∈ ps') ->
  exists pre' post', index_ok (complete j p errs None).1 (ps ++ ps') (acked ++ new) pre' post'.
Proof.
  intros Hg Hak Hix Hrun Hps' He Hnew. pose proof (index_post _ _ _ _ _ Hix Hrun) as Hpost.
  destruct Hix as [-> Hpre Hlive Hheld _ Hneed]. unfold complete. cbn [fst].
  set (w := if zlen (image p) =? 0 then written j else p_end p) in *.
  set (j1 := if _ =? _ then _ else _).
  assert (j1 = with_ends (with_counts j (placed j) (completed j + 1)) (tail j) w (next j)) as Hj1
    by (unfold j1, w; by destruct (_ =? _)).
  rewrite Hj1. clear j1 Hj1. set (j1 := with_ends _ _ _ _).
  destruct (index_all_fields (entries p) j1) as (HL&_&HG&Hl&HH&_&_&_&HW&_). simpl in HL, HG, Hl, HH, HW.
  apply (settle_index _ _ _ pre (post ++ ps') (tail j)); [by rewrite HG|done|].
  rewrite He in *. constructor; rewrite ?HL, ?HG, ?HH, ?HW; try done.
  - by rewrite app_assoc.
  - by eapply pieces_ok_app.
  - rewrite Hl, fmap_app, flat_map_app, (undead_all (flat_map _ _)) by apply piece_index_alive. by f_equal.
  - apply held_ok_all; [done|apply piece_index_alive].
  - rewrite Hl. intros q e Hqe. rewrite !elem_of_app.
    pose proof Hak as Hwf. eapply Forall_forall in Hwf as [Hwe Hwq]; [|exact Hqe].
    apply elem_of_app in Hqe as [Hqe|Hqe]; [destruct (Hneed q e Hqe); auto|].
    pose proof (Hnew q e Hqe). split; right; [done|]. by apply (indexed_entry e q (j_generation j)).
Qed.

(** Entries a [Trim] leaves. *)
Definition untrimmed (vm : string) (covered : gmap Z Z) (p : Z * Entry) : Prop :=
  ~ (VM p.2 = vm /\ trimmed covered (index_of p.2 p.1) = true).

#[export] Instance untrimmed_dec vm covered p : Decision (untrimmed vm covered p).
Proof. unfold untrimmed. apply _. Defined.

Lemma undead_kill vm covered (l : list indexed) : undead <$> (kill vm covered <$> l) = undead <$> l.
Proof.
  rewrite <- list_fmap_compose. apply list_fmap_ext. intros _ x _. unfold compose, kill. by destruct (_ && _).
Qed.

Lemma held_ok_killed j vm covered :
  held_ok (live j) (held_ j) ->
  let epochs := map_imap (trim_held covered) (default ∅ (held_ j !! vm)) in
  held_ok (kill vm covered <$> live j) (if bool_decide (epochs = ∅) then delete vm (held_ j) else <[vm := epochs]> (held_ j)).
Proof.
  intros Hh epochs. apply (held_ok_trim j vm covered) in Hh. unfold Trim in Hh. fold epochs in Hh.
  rewrite settle_tail_eq in Hh. simpl in Hh. destruct Hh as [Hl Hn]. split; [|done].
  intros vm' epoch. rewrite Hl. by rewrite filter_drop_dead.
Qed.

Lemma trim_index j ps acked pre post vm covered :
  u64 (j_generation j) -> acked_ok acked -> index_ok j ps acked pre post ->
  pieces_ok (ringLength j) (j_generation j) (s_tail (header j)) ps (written j) ->
  (exists pre' post', index_ok (Trim j vm covered) ps (filter (untrimmed vm covered) acked) pre' post') /\
  tail j <= tail (Trim j vm covered).
Proof.
  intros Hg Hak Hix Hrun. pose proof (index_post _ _ _ _ _ Hix Hrun) as Hpost.
  destruct Hix as [-> Hpre Hlive Hheld _ Hneed]. unfold Trim. apply (settle_index _ _ _ pre post (tail j)).
  - done.
  - apply Forall_forall. intros p Hp. apply list_elem_of_filter in Hp as [_ Hp]. revert p Hp. by apply Forall_forall.
  - constructor; cbn [live header held_ ringLength j_generation written with_index]; try done.
    + by rewrite undead_kill.
    + by apply held_ok_killed.
    + intros q e Hqe. apply list_elem_of_filter in Hqe as [Hun Hqe]. destruct (Hneed q e Hqe) as [Hp Hx]. split; [done|].
      apply list_elem_of_fmap. exists (index_of e q). split; [|done].
      destruct (kill_cases vm covered (index_of e q)) as [(Hv&Ht&_)|[_ ->]]; [|done]. by destruct Hun.
Qed.

(** A tail hint that is written. *)
Lemma hint_index j ps acked pre post s' at_ ps1 ps2 :
  index_ok j ps acked pre post -> ps = ps1 ++ ps2 ->
  pieces_ok (ringLength j) (j_generation j) (s_tail (header j)) ps1 (s_tail s') -> s_tail s' <= tail j ->
  exists pre', index_ok (with_header j s' at_) ps2 acked pre' post.
Proof.
  intros [E Hpre Hlive Hheld Hfront Hneed] E1 Hps1 Hle. rewrite E1 in E.
  destruct (pieces_ok_prefix _ _ _ _ _ _ _ _ _ Hps1 Hpre E Hle) as (mid&->&->). exists mid.
  apply pieces_ok_app_inv in Hpre as (m&Hm1&Hm2). rewrite (pieces_ok_end _ _ _ _ _ _ Hm1 Hps1) in Hm2. by constructor.
Qed.

(** A journal that was read back. *)
Lemma readBack_index j ps acked stop :
  u64 (j_generation j) -> acked_ok acked -> live j = [] -> held_ j = ∅ ->
  pieces_ok (ringLength j) (j_generation j) (s_tail (header j)) ps stop ->
  (forall q e, (q, e) ∈ acked -> (q, entry_bytes e q (j_generation j)) ∈ ps) ->
  exists pre post, index_ok (settle_tail (with_ends (fold_left index (flat_map piece_index ps) j) (tail j) stop stop)) ps acked pre post.
Proof.
  intros Hg Hak Hl Hh Hps Hneed. destruct (index_all_fields (flat_map piece_index ps) j) as (HL&_&HG&Hlv&HH&_).
  rewrite Hl in Hlv. apply (settle_index _ _ _ [] ps (s_tail (header j))); cbn [j_generation with_ends]; [by rewrite HG|done|].
  constructor; cbn [live header held_ ringLength j_generation written with_ends]; rewrite ?HL, ?HG, ?HH; try done.
  - rewrite Hlv. apply undead_all, piece_index_alive.
  - apply held_ok_all; [|apply piece_index_alive]. rewrite Hl, Hh. apply held_ok_nil.
  - rewrite Hlv. intros q e Hqe. pose proof (Hneed q e Hqe). split; [done|].
    eapply Forall_forall in Hak as [? ?]; [|exact Hqe]. by apply (indexed_entry e q (j_generation j)).
Qed.

End Holder.

End Holder.
