(* ===== verification/JournalSafety.v ===== *)
(** * A journal and its disk, through crashes

    The journal's holder and its disk as a transition system: commits, batches,
    tail hints, trims, fences, failed writes, power losses and opens, in any
    order.  What the journal acknowledged it keeps, and a read that fences a VM
    sees every entry of an older epoch that is ever acknowledged. *)

From stdpp Require Import relations.
From S2P Require Import Prelude Bytes JournalFormat JournalRing JournalIndex JournalDisk JournalCrash JournalHolder.

Module Durability.
Import Journal Ring Index Disk Crash Holder.

Section World.
Context `{Checksum}.

(** ** The system *)

(** Where the journal's writer is: waiting for commits; about to write the tail
    hint, which [Close] does with a flag; with a batch taken, its captures still
    to run; with a batch written and not yet synced; with a header slot written
    and not yet synced; with the first header slot written and not yet synced,
    in [Open]; or returned. *)
Inductive phase :=
  | Waiting
  | HintDue (closing : bool)
  | Forming (batch : list commit)
  | InFlight (captured : list (result jerror (list Entry))) (p : placement) (errs : list (option jerror))
  | Hinting (s : slot) (at_ : Z) (closing : bool)
  | Opening (s : slot) (at_ : Z)
  | Returned.

(** Callers see a journal once it is open. *)
Definition served (ph : phase) : bool := match ph with Opening _ _ => false | _ => true end.

(** The disk, the journal that holds it, every piece laid on the ring since it
    was formatted, and every entry a commit was answered for that no trim has
    covered since. *)
Record world := mkWorld {
  w_file : file;
  w_holder : option (Journal * phase);
  w_hist : list piece;
  w_acked : list (Z * Entry);
}.

(** What a capture may return: entries of 64-bit epochs and block numbers. *)
Definition typed (e : Entry) : Prop := u64 (Epoch e) /\ Forall u64 (Blocks e).

Definition captures (c : commit) (r : result jerror (list Entry)) : Prop :=
  exists made, r = capture c made /\ match made with Ok es => Forall typed es | Err _ => True end.

(** The entries a batch's answers acknowledge. *)
Definition acknowledged (captured : list (result jerror (list Entry))) (answers : list (result jerror (list Z)))
  : list (Z * Entry) :=
  concat (zip_with (fun c a => match c, a with Ok es, Ok poss => zip poss es | _, _ => [] end) captured answers).

(** The pieces a batch lays. *)
Definition lays (j : Journal) (p : placement) (ps : list piece) : Prop :=
  image p = concat ps.*2 /\ pieces_ok (ringLength j) (j_generation j) (p_start p) ps (p_end p).

Definition wf_lease (l : Lease) : Prop := u64 (Assigned l) /\ zlen (Member l) = 16.

(** The largest disk; positions stay below [2^62]. *)
Definition maxDisk : Z := 2 ^ 60.

Inductive step : world -> world -> Prop :=
  (** Callers of an open journal. *)
  | step_commit f j ph hist acked id room hook j' :
      served ph = true -> room <= maxRoom ->
      CommitHooked j id room hook = Ok j' ->
      step (mkWorld f (Some (j, ph)) hist acked) (mkWorld f (Some (j', ph)) hist acked)
  | step_cancel f j ph hist acked id :
      served ph = true ->
      step (mkWorld f (Some (j, ph)) hist acked) (mkWorld f (Some (CancelCommit j id, ph)) hist acked)
  | step_trim f j ph hist acked v covered :
      served ph = true ->
      step (mkWorld f (Some (j, ph)) hist acked)
        (mkWorld f (Some (Trim j v covered, ph)) hist (filter (untrimmed v covered) acked))
  | step_fence f j ph hist acked q j' :
      served ph = true ->
      ReadFence j q = Ok j' ->
      step (mkWorld f (Some (j, ph)) hist acked) (mkWorld f (Some (j', ph)) hist acked)
  | step_lease f j ph hist acked d :
      served ph = true ->
      step (mkWorld f (Some (j, ph)) hist acked) (mkWorld f (Some ((CheckLease d j).1, ph)) hist acked)
  | step_close f j ph hist acked :
      served ph = true ->
      closed j = false ->
      step (mkWorld f (Some (j, ph)) hist acked) (mkWorld f (Some (with_stop j (failed j) true, ph)) hist acked)
  (** The writer. *)
  | step_turn f j hist acked since j' t :
      nextBatch j since = (j', t) ->
      step (mkWorld f (Some (j, Waiting)) hist acked)
        (mkWorld f (Some (j', match t with
           | Stop _ _ => Returned | WriteHint => HintDue false | Take batch => Forming batch | AskTrim | Wait => Waiting end))
           hist acked)
  | step_empty f j hist acked batch captured j' p errs :
      Forall2 captures batch captured -> place_batch j captured = (j', (p, errs)) -> image p = [] ->
      step (mkWorld f (Some (j, Forming batch)) hist acked)
        (mkWorld f (Some ((complete j' p errs None).1, Waiting)) hist
           (acked ++ acknowledged captured (complete j' p errs None).2))
  | step_write f j hist acked batch captured j' p errs ps :
      Forall2 captures batch captured -> place_batch j captured = (j', (p, errs)) -> image p <> [] -> next j' < 2 ^ 62 ->
      lays j p ps ->
      step (mkWorld f (Some (j, Forming batch)) hist acked)
        (mkWorld (issue f (write j' p)) (Some (j', InFlight captured p errs)) (hist ++ ps) acked)
  | step_synced f j hist acked captured p errs :
      step (mkWorld f (Some (j, InFlight captured p errs)) hist acked)
        (mkWorld (sync f (write j p)) (Some ((complete j p errs None).1, Waiting)) hist
           (acked ++ acknowledged captured (complete j p errs None).2))
  | step_batch_failed f j hist acked captured p errs err :
      step (mkWorld f (Some (j, InFlight captured p errs)) hist acked)
        (mkWorld f (Some ((complete j p errs (Some err)).1, Waiting)) hist acked)
  (** The tail hint: [writeHeader], by the writer and at the end of [Close]. *)
  | step_closing f j hist acked :
      closed j = true -> failed j = None ->
      step (mkWorld f (Some (j, Returned)) hist acked) (mkWorld f (Some (j, HintDue true)) hist acked)
  | step_hint f j hist acked closing s at_ :
      hint_slot j (closing && bool_decide (live j = [])) = (s, at_) -> counter (header j) < 2 ^ 64 - 1 ->
      step (mkWorld f (Some (j, HintDue closing)) hist acked)
        (mkWorld (issue f [(at_ * slotBytes, encodeSlot s)]) (Some (j, Hinting s at_ closing)) hist acked)
  | step_hinted f j hist acked s at_ (closing : bool) :
      step (mkWorld f (Some (j, Hinting s at_ closing)) hist acked)
        (mkWorld (sync f [(at_ * slotBytes, encodeSlot s)])
           (Some (with_header j s at_, if closing then Returned else Waiting)) hist acked)
  | step_hint_failed f j hist acked ph closing :
      ph = HintDue closing \/ (exists s at_, ph = Hinting s at_ closing) ->
      step (mkWorld f (Some (j, ph)) hist acked)
        (mkWorld f (Some (j, if closing then Returned else Waiting)) hist acked)
  (** The holder is gone: a power loss, a detach, an [Open] that failed, or a
      process that ended.  Of what was not synced any part may be on the disk. *)
  | step_lost f h hist acked d :
      possible f d -> (forall s at_, readHeader d = Ok (s, at_) -> genuine d s hist) ->
      step (mkWorld f h hist acked) (mkWorld (definite d) None hist acked)
  (** [Open]. *)
  | step_open d hist acked size config entropy found at_ s' at' :
      open_found d size config entropy = Ok (found, at_) -> readHeader d = Ok (found, at_) ->
      wf_lease (cfg_lease config) -> counter found < 2 ^ 64 - 1 ->
      open_slot (open_journal found at_ config) = (s', at') ->
      step (mkWorld (definite d) None hist acked)
        (mkWorld (issue (definite d) [(at' * slotBytes, encodeSlot s')])
           (Some (open_journal found at_ config, Opening s' at')) hist acked)
  | step_format d hist acked size config entropy found at_ s' at' :
      open_found d size config entropy = Ok (found, at_) -> readHeader d = Err errNoSlot ->
      size <= maxDisk -> wf_lease (cfg_lease config) -> zlen (cfg_identity config) = 16 -> u64 entropy -> genuine d found [] ->
      open_slot (open_journal found at_ config) = (s', at') ->
      step (mkWorld (definite d) None hist acked)
        (mkWorld (issue (definite d) [(at' * slotBytes, encodeSlot s')])
           (Some (open_journal found at_ config, Opening s' at')) [] acked)
  | step_opened f j hist acked s at_ d j' :
      possible (sync f [(at_ * slotBytes, encodeSlot s)]) d -> readBack d (with_header j s at_) = Some j' ->
      step (mkWorld f (Some (j, Opening s at_)) hist acked)
        (mkWorld (sync f [(at_ * slotBytes, encodeSlot s)]) (Some (j', Waiting)) hist acked).

(** A disk with no header. *)
Definition blank (d : disk) : Prop := readHeader d = Err errNoSlot.

Inductive reachable : world -> Prop :=
  | reach_blank d : blank d -> reachable (mkWorld (definite d) None [] [])
  | reach_step w w' : reachable w -> step w w' -> reachable w'.

(** ** The invariant *)

Definition geometry_ok (j : Journal) (s : slot) : Prop :=
  ringStart j = ringOffset /\ ringLength j = s_ringLength s /\ j_generation j = s_generation s /\ wf_lease (lease j).

(** An open journal, on a ring whose run is [ps]. *)
Record open_ok (f : file) (j : Journal) (hist : list piece) (acked : list (Z * Entry)) (ps : list piece) : Prop := {
  op_disk : disk_ok f (header j) (current j) ps (needed acked (j_generation j)) hist (written j) (next j);
  op_geometry : geometry_ok j (header j);
  op_index : exists pre post, index_ok j ps acked pre post;
  op_queue : Forall (commit_ok (ringLength j)) (queue j);
  op_failed : written j < next j -> next j mod BlockBytes = 0 /\ minEntryBytes <= next j - written j;
  op_acked : acked_ok acked;
}.

(** The room a batch that was taken has. *)
Definition batch_fits (j : Journal) (batch : list commit) : Prop :=
  batch = [] \/ exists largest, 0 <= largest /\ Forall (fun c => room c <= largest) batch /\
    next j + needs (total_room batch) largest <= s_tail (header j) + ringLength j.

(** What a batch in flight answers when it lands. *)
Definition lands (gen : Z) (ps : list piece) (r : result jerror (list Entry)) (one : list Z * option jerror) : Prop :=
  match one.2 with
  | Some _ => True
  | None => exists es, r = Ok es /\ Forall wf_entry es /\ Forall2 (fun e pos => u64 pos /\ (pos, entry_bytes e pos gen) ∈ ps) es one.1
  end.

Record flight_ok (j : Journal) (captured : list (result jerror (list Entry))) (p : placement) (errs : list (option jerror))
  (ps' : list piece) : Prop := {
  fl_image : image p = concat ps'.*2 /\ image p <> [];
  fl_start : p_start p = written j;
  fl_pieces : pieces_ok (ringLength j) (j_generation j) (written j) ps' (next j);
  fl_end : next j = p_end p;
  fl_entries : entries p = flat_map piece_index ps';
  fl_ready : ready_at (ringLength j) (next j);
  fl_lands : Forall2 (lands (j_generation j) ps') captured (zip (positions p) errs);
}.

Definition phase_ok (j : Journal) (acked : list (Z * Entry)) (ps : list piece) (ph : phase) : Prop :=
  match ph with
  | Waiting | HintDue _ | Returned => True
  | Forming batch => Forall (commit_ok (ringLength j)) batch /\ batch_fits j batch
  | InFlight captured p errs => exists ps', flight_ok j captured p errs ps'
  | Hinting s at_ _ => replaces (header j) s ps (needed acked (j_generation j)) /\ s_tail s <= tail j /\ at_ = 1 - current j
  | Opening _ _ => False
  end.

(** A journal being opened: on a disk that has a header, or on a blank one. *)
Definition opening_ok (f : file) (j : Journal) (hist : list piece) (acked : list (Z * Entry)) (s : slot) (at_ : Z) : Prop :=
  (exists ps W,
     disk_ok f (header j) (current j) ps (needed acked (j_generation j)) hist W W /\
     replaces (header j) s ps (needed acked (j_generation j)) /\ s_tail s = s_tail (header j) /\ at_ = 1 - current j) \/
  (format_ok f s /\ acked = [] /\ hist = [] /\ at_ = 0).

Definition fresh (j : Journal) : Prop := exists found at_ config, j = open_journal found at_ config.

Definition inv (w : world) : Prop :=
  acked_ok (w_acked w) /\
  match w_holder w with
  | None => exists d, w_file w = definite d /\ recoverable d (needed (w_acked w)) (w_hist w)
  | Some (j, Opening s at_) =>
      fresh j /\ geometry_ok j s /\ opening_ok (w_file w) j (w_hist w) (w_acked w) s at_ /\ genuine (durable (w_file w)) s (w_hist w)
  | Some (j, ph) => exists ps, open_ok (w_file w) j (w_hist w) (w_acked w) ps /\ phase_ok j (w_acked w) ps ph
  end.

(** ** Callers *)

Definition core (j : Journal) :=
  (header j, current j, ringStart j, ringLength j, j_generation j, lease j, tail j, written j, next j, live j, held_ j).

Lemma open_frame f j j' hist acked ps :
  core j' = core j -> Forall (commit_ok (ringLength j)) (queue j') -> open_ok f j hist acked ps -> open_ok f j' hist acked ps.
Proof.
  intros Hc Hq [Hd Hg (pre&post&[? ? ? ? ? ?]) _ Hf Ha]. destruct j, j'. unfold core, geometry_ok in *. simpl in *. simplify_eq.
  constructor; try done. by exists pre, post.
Qed.

Lemma phase_frame j j' acked ps ph : core j' = core j -> phase_ok j acked ps ph -> phase_ok j' acked ps ph.
Proof.
  intros Hc Hp. destruct j, j'. unfold core in Hc. simpl in Hc. simplify_eq. destruct ph; try exact Hp.
  destruct Hp as (ps'&[? ? ? ? ? ? ?]). exists ps'. by constructor.
Qed.

Lemma needed_sub acked acked' gen : acked' ⊆ acked -> needed acked' gen ⊆ needed acked gen.
Proof. intros Hs x (p&->&Hp)%list_elem_of_fmap. apply list_elem_of_fmap. exists p. split; [done|]. by apply Hs. Qed.

Lemma replaces_sub s s' ps need need' : need' ⊆ need -> replaces s s' ps need -> replaces s s' ps need'.
Proof. intros Hs [? ? ? (ps1&ps2&?&?&?)]. constructor; try done. exists ps1, ps2. split_and!; try done. by etrans. Qed.

Lemma disk_sub f s at_ ps need need' hist W N :
  need' ⊆ need -> disk_ok f s at_ ps need hist W N -> disk_ok f s at_ ps need' hist W N.
Proof.
  intros Hs [? ? ? ? ? ? ? Ho ? ? Hn ? ?]. constructor; try done; [|by etrans].
  intros c Hc. destruct (Ho c Hc) as [?|(s'&->&Hr)]; [by left|right]. exists s'. split; [done|]. by apply (replaces_sub _ _ _ need).
Qed.

Lemma open_u64 f j hist acked ps : open_ok f j hist acked ps -> u64 (j_generation j).
Proof. intros [Hd (_&_&->&_) _ _ _ _]. apply (ok_wf _ _ _ _ _ _ _ _ Hd). Qed.

Lemma open_run f j hist acked ps :
  open_ok f j hist acked ps -> pieces_ok (ringLength j) (j_generation j) (s_tail (header j)) ps (written j).
Proof. intros [Hd (_&->&->&_) _ _ _ _]. by eapply ok_run. Qed.

Lemma settle_fields j : queue (settle_tail j) = queue j /\ written (settle_tail j) = written j /\ next (settle_tail j) = next j /\
  header (settle_tail j) = header j /\ current (settle_tail j) = current j /\ fences (settle_tail j) = fences j /\
  geometry_ok (settle_tail j) (header j) = geometry_ok j (header j) /\ ringLength (settle_tail j) = ringLength j /\
  j_generation (settle_tail j) = j_generation j /\ placed (settle_tail j) = placed j /\ completed (settle_tail j) = completed j.
Proof. by rewrite settle_tail_eq. Qed.

Lemma trim_ok f j hist acked ps vm covered ph :
  open_ok f j hist acked ps -> phase_ok j acked ps ph ->
  open_ok f (Trim j vm covered) hist (filter (untrimmed vm covered) acked) ps /\
  phase_ok (Trim j vm covered) (filter (untrimmed vm covered) acked) ps ph.
Proof.
  intros Hop Hph. pose proof (open_u64 _ _ _ _ _ Hop) as Hg. pose proof (open_run _ _ _ _ _ Hop) as Hr.
  destruct Hop as [Hd Hgeo (pre&post&Hix) Hq Hf Ha].
  destruct (trim_index j ps acked pre post vm covered Hg Ha Hix Hr) as [Hix' Hle].
  assert (filter (untrimmed vm covered) acked ⊆ acked) as Hsub by (intros x Hx; by apply list_elem_of_filter in Hx as [_ Hx]).
  assert (exists t l h, Trim j vm covered = with_ends (with_index j l h) t (written j) (next j)) as (t&l&h&E)
    by (unfold Trim; rewrite settle_tail_eq; simpl; by eexists _, _, _).
  rewrite E in *. simpl in Hle. split.
  - constructor; simpl; try done; [by eapply disk_sub; [apply needed_sub|]|by apply Forall_forall; intros x Hx; eapply Forall_forall in Ha; [exact Ha|apply Hsub]].
  - destruct ph; simpl in *; try done.
    + destruct Hph as (ps'&[? ? ? ? ? ? ?]). exists ps'. by constructor.
    + destruct Hph as (Hrep&?&?). split_and!; try done; [|lia]. by eapply replaces_sub; [apply needed_sub|].
Qed.

(** ** Batches *)

Lemma open_bounds f j hist acked ps :
  open_ok f j hist acked ps ->
  ring_ok (ringLength j) /\ ringLength j <= 2 ^ 60 /\ 0 <= s_tail (header j) /\ s_tail (header j) <= written j <= next j /\
  next j <= s_tail (header j) + ringLength j /\ next j < 2 ^ 62 /\ ready_at (ringLength j) (written j).
Proof.
  intros [Hd (_&->&_&_) _ _ _ _]. destruct (ok_ring _ _ _ _ _ _ _ _ Hd) as (_&?&?).
  destruct (ok_ends _ _ _ _ _ _ _ _ Hd) as (?&?&?&?&?). pose proof (ok_ready _ _ _ _ _ _ _ _ Hd). by split_and!.
Qed.

Lemma turn_ok f j hist acked ps since j' t :
  open_ok f j hist acked ps -> nextBatch j since = (j', t) ->
  open_ok f j' hist acked ps /\
  phase_ok j' acked ps match t with
    | Stop _ _ => Returned | WriteHint => HintDue false | Take batch => Forming batch | AskTrim | Wait => Waiting end.
Proof.
  intros Hop Ht. pose proof (open_bounds _ _ _ _ _ Hop) as ((HL&_)&HL'&Ht0&Hwn&Hn&H62&_).
  pose proof (op_queue _ _ _ _ _ Hop) as Hq.
  assert (forall q, Forall (commit_ok (ringLength j)) q -> open_ok f (with_queue j q) hist acked ps) as Hfr
    by (intros q Hq'; by apply (open_frame f j)).
  unfold nextBatch in Ht. destruct (refusal j); [injection Ht as <- <-; split; [by apply Hfr, Forall_nil|done]|].
  destruct (_ && _); [by injection Ht as <- <-|].
  destruct (fitting_spec j) as (largest&Hl0&Hall&Ht0'&Hfit); [by split; lia|done|lia|constants; lia|].
  destruct (0 <? _) eqn:En; zbool.
  - injection Ht as <- <-. split; [by apply Hfr, Forall_drop|]. split; [by apply Forall_take|]. right. exists largest.
    split_and!; try done. apply Hfit. lia.
  - destruct (queue j) as [|c rest] eqn:Eq; [by injection Ht as <- <-|].
    destruct (_ <? _); [injection Ht as <- <-; split; [done|split; [by apply Forall_nil|by left]]|].
    destruct (full c); simpl in Ht; injection Ht as <- <-; [done|].
    apply Forall_cons in Hq as [Hc Hq]. split; [by apply Hfr; constructor|]. by destruct (hookFull c).
Qed.

Lemma captures_ok L c r : commit_ok L c -> captures c r -> captured_ok c r.
Proof.
  intros [Hc _] (made&->&Hm). split; [done|]. unfold capture. destruct made as [es|]; simpl; [|done].
  destruct (check_all es) eqn:Ec; [done|]. destruct (_ >? _) eqn:Et; zbool; [done|]. split; [|lia]. clear Et.
  induction Hm as [|e es [? ?] _ IH]; [by apply Forall_nil|]. simpl in Ec. destruct (check e) eqn:E; [done|].
  constructor; [by constructor|by apply IH].
Qed.

Lemma place_batch_ok f j hist acked ps batch captured p errs :
  open_ok f j hist acked ps -> Forall (commit_ok (ringLength j)) batch -> batch_fits j batch ->
  Forall2 captures batch captured -> place j captured = (p, errs) ->
  Forall (fun r => match r with Ok es => Forall wf_entry es | Err _ => True end) captured /\
  exists most ps', placement_ok j captured most p errs ps' /\ next j + most <= s_tail (header j) + ringLength j /\
    (captured = [] -> most = 0).
Proof.
  intros Hop Hb Hfit Hc Hp. pose proof (open_bounds _ _ _ _ _ Hop) as (HL&HL'&Ht0&Hwn&Hn&H62&Hr).
  assert (Forall2 captured_ok batch captured) as Hco.
  { clear -Hb Hc. induction Hc as [|c r batch captured Hcr _ IH]; [constructor|]. apply Forall_cons in Hb as [Hb1 Hb].
    constructor; [by apply (captures_ok (ringLength j))|by apply IH]. }
  split. { clear -Hco. induction Hco as [|c r ? ? [_ Hr] _ IH]; constructor; [|done]. destruct r; [apply Hr|done]. }
  assert (place_ok j) as Hpo by (constructor; [done|split; [lia|apply (op_failed _ _ _ _ _ Hop)]]).
  assert (exists largest, 0 <= largest /\ Forall (fun c => room c <= largest) batch /\ 0 <= total_room batch /\
    needs (total_room batch) largest <= ringLength j /\ 
    (batch <> [] -> next j + needs (total_room batch) largest <= s_tail (header j) + ringLength j)) as (lg&Hl0&Hlg&Ht&Hrs&Hroom).
  { assert (0 <= total_room batch) by (clear -Hb; induction Hb as [|c b [? _] _ IH]; simpl; lia).
    destruct Hfit as [->|(lg&?&?&?)].
    - exists 0. split_and!; try done. destruct HL as [HL _]. unfold needs. simpl. constants; lia.
    - exists lg. split_and!; try done. lia. }
  pose proof (place_spec j HL (open_u64 _ _ _ _ _ Hop) batch captured (total_room batch) lg Hpo Hco Hlg Hl0
    ltac:(lia) Ht Hrs ltac:(lia)) as Hsp.
  rewrite Hp in Hsp. destruct Hsp as (ps'&Hsp). eexists _, ps'. split; [exact Hsp|].
  case_bool_decide as E; [split; [lia|done]|]. split; [|done]. apply Hroom. intros ->. by apply Forall2_nil_inv_l in Hc.
Qed.

Lemma acknowledged_lands gen ps captured commits q e :
  Forall2 (lands gen ps) captured commits -> (q, e) ∈ acknowledged captured (answer None <$> commits) ->
  wf_entry e /\ u64 q /\ (q, entry_bytes e q gen) ∈ ps.
Proof.
  unfold acknowledged. induction 1 as [|r [poss err] captured commits Hone _ IH]; simpl; [by intros ?%elem_of_nil|].
  rewrite elem_of_app. intros [Hin|Hin]; [|by apply IH]. unfold lands in Hone. simpl in Hone.
  destruct err as [er|]; simpl in Hin; [destruct r; by apply elem_of_nil in Hin|].
  destruct Hone as (es&->&Hwf&Hf). clear IH. induction Hf as [|e' pos es poss [? ?] _ IH]; simpl in Hin; [by apply elem_of_nil in Hin|].
  apply Forall_cons in Hwf as [Hw Hwf]. apply elem_of_cons in Hin as [[= -> ->]|Hin]; [done|by apply IH].
Qed.

Lemma placed_lands j ps stop captured commits :
  0 <= written j -> stop < 2 ^ 62 -> pieces_ok (ringLength j) (j_generation j) (written j) ps stop ->
  Forall (fun r => match r with Ok es => Forall wf_entry es | Err _ => True end) captured ->
  Forall2 (placed_commit j ps) captured commits -> Forall2 (lands (j_generation j) ps) captured commits.
Proof.
  intros Hw Hs Hps Hwf. induction 1 as [|r one captured commits Hone _ IH]; [constructor|].
  apply Forall_cons in Hwf as [Hr Hwf]. constructor; [|by apply IH]. clear IH. unfold lands, placed_commit in *.
  destruct one.2; [done|]. destruct Hone as (es&->&_&Hf). exists es. split_and!; try done.
  eapply Forall2_impl; [exact Hf|]. intros e pos Hin. split; [|done].
  destruct (pieces_ok_elem _ _ _ _ _ _ _ Hps Hin) as (?&?&_&[? _]%reads_at_bounds). unfold u64. constants; lia.
Qed.

(** A run is what its bytes are. *)
Lemma pieces_ok_unique L gen pos ps qs a b :
  pieces_ok L gen pos ps a -> pieces_ok L gen pos qs b -> concat ps.*2 = concat qs.*2 -> ps = qs.
Proof.
  assert (forall p b r, reads_at gen p b -> [] = b ++ r -> False) as Hnil.
  { intros p b0 r [Hb _]%reads_at_bounds E. apply (f_equal zlen) in E. rewrite zlen_app in E. pose proof (zlen_nonneg r).
    change (zlen []) with 0 in E. constants; lia. }
  revert pos qs. induction ps as [|[p x] ps IH]; intros pos [|[q y] qs]; simpl; intros Hp Hq E; [done| | |].
  - destruct Hq as (->&Hr&_). by destruct (Hnil _ _ _ Hr E).
  - destruct Hp as (->&Hr&_). by destruct (Hnil _ _ _ Hr (eq_sym E)).
  - destruct Hp as (->&Hx&_&Hp), Hq as (->&Hy&_&Hq). pose proof Hx as (hx&[Hdx Hlx]%checkEntry_spec&_).
    pose proof Hy as (hy&[Hdy Hly]%checkEntry_spec&_). pose proof (reads_at_bounds _ _ _ Hx) as [Hbx _].
    pose proof (reads_at_bounds _ _ _ Hy) as [Hby _].
    assert (hx = hy) as <-.
    { rewrite <- (decodeHead_prefix x entryHeadBytes) in Hdx by (constants; lia).
      rewrite <- (decodeHead_prefix y entryHeadBytes) in Hdy by (constants; lia).
      rewrite <- (slice_app_l x (concat ps.*2)) in Hdx by (constants; lia).
      rewrite <- (slice_app_l y (concat qs.*2)) in Hdy by (constants; lia).
      change (list_fmap _ _ snd ps) with (ps.*2) in E. change (list_fmap _ _ snd qs) with (qs.*2) in E.
      rewrite E, Hdy in Hdx. congruence. }
    apply app_inj_1 in E as [-> E]; [|unfold zlen in *; lia]. f_equal. by apply (IH _ _ Hp Hq).
Qed.

Lemma acked_app acked new : acked_ok acked -> (forall q e, (q, e) ∈ new -> wf_entry e /\ u64 q) -> acked_ok (acked ++ new).
Proof. intros Ha Hn. apply Forall_app. split; [done|]. apply Forall_forall. intros [q e] Hin. by apply Hn. Qed.

Lemma needed_app acked new gen ps :
  (forall q e, (q, e) ∈ new -> (q, entry_bytes e q gen) ∈ ps) -> needed (acked ++ new) gen ⊆ needed acked gen ++ ps.
Proof.
  intros Hn. unfold needed. rewrite fmap_app. intros x Hx. apply elem_of_app in Hx as [Hx|([q e]&->&Hin)%list_elem_of_fmap];
    apply elem_of_app; [by left|right]. by apply Hn.
Qed.

(** [complete] without an error leaves what it does not move. *)
Lemma complete_fields j p errs :
  let j' := (complete j p errs None).1 in
  queue j' = queue j /\ header j' = header j /\ current j' = current j /\ next j' = next j /\ fences j' = fences j /\
  written j' = (if zlen (image p) =? 0 then written j else p_end p) /\ geometry_ok j' (header j) = geometry_ok j (header j) /\
  ringLength j' = ringLength j /\ j_generation j' = j_generation j /\ placed j' = placed j /\ completed j' = completed j + 1.
Proof.
  unfold complete. cbn [fst]. set (j1 := if _ =? _ then _ else _).
  assert (j1 = with_ends (with_counts j (placed j) (completed j + 1)) (tail j) (if zlen (image p) =? 0 then written j else p_end p) (next j))
    as -> by (unfold j1; by destruct (_ =? _)).
  set (j2 := with_ends _ _ _ _). destruct (index_all_fields (entries p) j2) as (EL&ES&EG&_&EH&EC&Elease&_&EW&EN&EF&EQ&[= EP ECM _ _ _]).
  rewrite settle_tail_eq. unfold geometry_ok. simpl. rewrite EL, ES, EG, EH, EC, Elease, EW, EN, EF, EQ, EP, ECM. done.
Qed.

(** A batch that lands: [f'] is the disk after its sync, or the one before when
    it wrote nothing. *)
Lemma landed_ok f f' j hist acked ps captured p errs ps' :
  open_ok f j hist acked ps -> entries p = flat_map piece_index ps' ->
  Forall2 (lands (j_generation j) ps') captured (zip (positions p) errs) ->
  let w := if zlen (image p) =? 0 then written j else p_end p in
  pieces_ok (ringLength j) (j_generation j) (written j) ps' w -> next j = w ->
  (forall need', need' ⊆ needed acked (j_generation j) ++ ps' ->
    disk_ok f' (header j) (current j) (ps ++ ps') need' hist w w) ->
  open_ok f' (complete j p errs None).1 hist (acked ++ acknowledged captured (complete j p errs None).2) (ps ++ ps').
Proof.
  intros Hop He Hl w Hps Hn Hd. cbn [complete snd].
  set (new := acknowledged captured _).
  assert (forall q e, (q, e) ∈ new -> wf_entry e /\ u64 q /\ (q, entry_bytes e q (j_generation j)) ∈ ps') as Hnew
    by (intros q e; by apply acknowledged_lands).
  assert (acked_ok (acked ++ new)) as Hak by (apply acked_app; [apply Hop|]; intros q e Hqe; by destruct (Hnew q e Hqe) as (?&?&_)).
  pose proof (op_index _ _ _ _ _ Hop) as (pre&post&Hix).
  pose proof (complete_index j ps acked pre post p errs ps' new (open_u64 _ _ _ _ _ Hop) Hak Hix (open_run _ _ _ _ _ Hop) Hps He
    (fun q e Hqe => proj2 (proj2 (Hnew q e Hqe)))) as Hix'.
  destruct (complete_fields j p errs) as (EQ&EH&EC&EN&_&EW&EG&EL&Egen&_). fold w in EW.
  constructor; try done.
  - rewrite EH, EC, Egen, EN, EW, Hn. apply Hd. apply needed_app. intros q e Hqe. by destruct (Hnew q e Hqe) as (_&_&?).
  - rewrite EH, EG. apply Hop.
  - rewrite EL, EQ. apply Hop.
  - rewrite EN, EW, Hn. lia.
Qed.

Lemma concat_nil_pieces L gen pos ps stop : pieces_ok L gen pos ps stop -> concat ps.*2 = [] -> stop = pos.
Proof. intros ->%pieces_ok_length ->. change (zlen []) with 0. lia. Qed.

Lemma empty_ok f j hist acked ps batch captured j' p errs :
  open_ok f j hist acked ps -> phase_ok j acked ps (Forming batch) ->
  Forall2 captures batch captured -> place_batch j captured = (j', (p, errs)) -> image p = [] ->
  open_ok f (complete j' p errs None).1 hist (acked ++ acknowledged captured (complete j' p errs None).2) ps.
Proof.
  intros Hop [Hb Hfit] Hc Hp Hi. unfold place_batch in Hp. destruct (place j captured) as [p0 errs0] eqn:Ep.
  injection Hp as Hj' -> ->. rewrite Hi in Hj'. simpl in Hj'. subst j'.
  destruct (place_batch_ok _ _ _ _ _ _ _ _ _ Hop Hb Hfit Hc Ep) as (Hwf&most&ps'&[_ Him He _ _ Hcm Hw]&_).
  destruct Hw as [(_&->&Hn)|(Hps&_&_&Hmin)].
  2: { rewrite Hi in Him. rewrite (concat_nil_pieces _ _ _ _ _ Hps (eq_sym Him)) in Hmin. constants; lia. }
  pose proof (open_bounds _ _ _ _ _ Hop) as (HL&HL'&Ht0&Hwn&Hn'&H62&Hr).
  assert (open_ok f (with_counts j (placed j + 1) (completed j)) hist acked ps) as Hop1 by (by apply (open_frame f j); [|apply Hop|]).
  rewrite <- (app_nil_r ps). apply (landed_ok f); try done; rewrite ?Hi; simpl; try done.
  - apply (placed_lands j [] (written j)); try done; lia.
  - rewrite !app_nil_r. intros need' Hsub. pose proof (op_disk _ _ _ _ _ Hop) as Hd. rewrite Hn in Hd.
    by apply (disk_sub _ _ _ _ (needed acked (j_generation j))).
Qed.

Lemma laid_pieces s ps pos stop :
  pieces_ok (s_ringLength s) (s_generation s) pos ps stop -> ends_ready (s_ringLength s) ps ->
  stop <= s_tail s + s_ringLength s -> stop < 2 ^ 62 -> Forall (laid_ok s) ps.
Proof.
  intros Hps Hr Ht H62. apply Forall_forall. intros [q b] Hin. destruct (pieces_ok_elem _ _ _ _ _ _ _ Hps Hin) as (_&?&_).
  split; [|simpl; lia]. eapply Forall_forall in Hr; [|exact Hin]. exact Hr.
Qed.

Lemma write_ok f j hist acked ps batch captured j' p errs ps' :
  open_ok f j hist acked ps -> phase_ok j acked ps (Forming batch) ->
  Forall2 captures batch captured -> place_batch j captured = (j', (p, errs)) -> image p <> [] -> next j' < 2 ^ 62 ->
  lays j p ps' ->
  open_ok (issue f (write j' p)) j' (hist ++ ps') acked ps /\ phase_ok j' acked ps (InFlight captured p errs).
Proof.
  intros Hop [Hb Hfit] Hc Hp Hi H62 [Him' Hps']. unfold place_batch in Hp. destruct (place j captured) as [p0 errs0] eqn:Ep.
  injection Hp as Hj' -> ->.
  destruct (place_batch_ok _ _ _ _ _ _ _ _ _ Hop Hb Hfit Hc Ep) as (Hwf&most&ps0&[Hst Him He Hrd _ Hcm Hw]&Hmost&_).
  destruct Hw as [(?&_)|(Hps&Hal&Hnx&Hmin)]; [done|]. rewrite Hst in Hps'.
  assert (ps' = ps0) as -> by (eapply pieces_ok_unique; [exact Hps'|exact Hps|by rewrite <- Him', Him]). clear Hps' Him'.
  destruct (zlen (image p) =? 0) eqn:Ez; zbool; [by destruct (image p)|].
  assert (next j' = p_end p) as Hn' by (by rewrite <- Hj').
  pose proof (open_bounds _ _ _ _ _ Hop) as (HL&HL'&Ht0&Hwn&Hn&_&Hr). pose proof (op_geometry _ _ _ _ _ Hop) as (Gs&GL&Gg&Gl).
  assert (disk_ok f (header j) (current j) ps (needed acked (j_generation j)) (hist ++ ps0) (written j) (p_end p)) as Hd.
  { apply (place_disk _ _ _ _ _ _ _ (next j)); [apply Hop|rewrite <- GL; lia|lia|]. rewrite GL, Gg in Hps. rewrite GL in Hrd.
    apply (laid_pieces _ _ _ _ Hps Hrd); [rewrite <- GL; lia|lia]. }
  split.
  - destruct Hop as [_ Hgeo (pre&post&[? ? ? ? ? ?]) Hq _ Ha]. constructor; rewrite <- ?Hj'; simpl; try done.
    + unfold write. rewrite Hst, Him. rewrite GL, Gg in Hps.
      apply (issue_batch f _ _ _ _ _ _ _ _ ps0); simpl; try done.
    + exists pre, post. by constructor.
  - exists ps0. constructor; rewrite <- ?Hj'; simpl; try done.
    + apply aligned_room; [done|lia|done].
    + apply (placed_lands j ps0 (p_end p)); try done; lia.
Qed.

Lemma synced_ok f j hist acked ps captured p errs :
  open_ok f j hist acked ps -> phase_ok j acked ps (InFlight captured p errs) ->
  exists ps', open_ok (sync f (write j p)) (complete j p errs None).1 hist
    (acked ++ acknowledged captured (complete j p errs None).2) ps'.
Proof.
  intros Hop (ps'&[[Him Hi] Hst Hps Hn He Hrd Hl]). exists (ps ++ ps').
  pose proof (op_geometry _ _ _ _ _ Hop) as (Gs&GL&Gg&Gl).
  assert ((zlen (image p) =? 0) = false) as Hz.
  { apply Z.eqb_neq. destruct (image p); [done|]. rewrite zlen_cons. pose proof (zlen_nonneg l). lia. }
  apply (landed_ok f); rewrite ?Hz; try done; [by rewrite <- Hn|].
  intros need' Hsub. rewrite <- Hn. unfold write. rewrite Hst, Him. rewrite GL, Gg in Hps. rewrite GL in Hrd.
  pose proof (op_disk _ _ _ _ _ Hop) as Hd.
  apply (sync_batch f j (header j) (current j) ps (needed acked (j_generation j)) hist (written j) (next j) ps'); try done.
Qed.

(** ** Header slots *)

Lemma slot_replaces s ps need pre post empty tail l :
  wf_slot s -> counter s < 2 ^ 64 - 1 -> wf_lease l -> u64 tail -> ps = pre ++ post ->
  pieces_ok (s_ringLength s) (s_generation s) (s_tail s) pre tail -> need ⊆ post ->
  replaces s (mkSlot empty (wrap64 (counter s + 1)) (s_identity s) (s_generation s) (s_ringStart s) (s_ringLength s) tail l) ps need.
Proof.
  intros (Hw1&Hw2&Hw3&Hw4&Hw5&Hw6&_) Hc [Hl1 Hl2] Ht E Hpre Hn.
  assert (wrap64 (counter s + 1) = counter s + 1) as Ew by (apply wrap64_small; unfold u64 in *; lia).
  constructor; simpl; rewrite ?Ew.
  - unfold wf_slot, u64, i64 in *. simpl. split_and!; done || lia.
  - reflexivity.
  - by split_and!.
  - by exists pre, post.
Qed.

Lemma hint_replaces f j hist acked ps empty s at_ :
  open_ok f j hist acked ps -> hint_slot j empty = (s, at_) -> counter (header j) < 2 ^ 64 - 1 ->
  replaces (header j) s ps (needed acked (j_generation j)) /\ s_tail s = tail j /\ at_ = 1 - current j.
Proof.
  intros Hop [= <- <-] Hc. pose proof (open_run _ _ _ _ _ Hop) as Hrun. pose proof (open_bounds _ _ _ _ _ Hop) as (_&_&Ht0&Hwn&_&H62&_).
  destruct Hop as [Hd (_&GL&Gg&Gl) (pre&post&Hix) _ _ _]. pose proof (index_post _ _ _ _ _ Hix Hrun) as Hpost%pieces_ok_le.
  pose proof (ix_pre _ _ _ _ _ Hix) as Hpre. pose proof (pieces_ok_le _ _ _ _ _ Hpre) as Hle.
  split; [|done]. apply (slot_replaces _ _ _ pre post); try done; [by apply (ok_wf _ _ _ _ _ _ _ _ Hd)|unfold u64; lia|apply Hix| |].
  - by rewrite <- GL, <- Gg.
  - intros x ([q e]&->&Hin)%list_elem_of_fmap. by destruct (ix_acked _ _ _ _ _ Hix q e Hin).
Qed.

Lemma hint_ok f j hist acked ps empty closing s at_ :
  open_ok f j hist acked ps -> hint_slot j empty = (s, at_) -> counter (header j) < 2 ^ 64 - 1 ->
  open_ok (issue f [(at_ * slotBytes, encodeSlot s)]) j hist acked ps /\ phase_ok j acked ps (Hinting s at_ closing).
Proof.
  intros Hop Hs Hc. destruct (hint_replaces _ _ _ _ _ _ _ _ Hop Hs Hc) as (Hr&Ht&->). split; [|by split_and!; [..|lia|]].
  destruct Hop as [Hd Hg Hi Hq Hf Ha]. constructor; try done. by apply issue_slot.
Qed.

Lemma hinted_ok f j hist acked ps closing s at_ :
  open_ok f j hist acked ps -> phase_ok j acked ps (Hinting s at_ closing) ->
  exists ps', open_ok (sync f [(at_ * slotBytes, encodeSlot s)]) (with_header j s at_) hist acked ps'.
Proof.
  intros Hop (Hr&Ht&->). destruct Hop as [Hd (Gs&GL&Gg&Gl) (pre&post&Hix) Hq Hf Ha].
  destruct (sync_slot _ _ _ _ _ _ _ _ _ Hd Hr) as (ps1&ps2&E&Hps1&Hd'). exists ps2.
  destruct (rp_same _ _ _ _ Hr) as (_&Eg&Es&El).
  constructor; simpl; try done.
  - unfold geometry_ok. simpl. by rewrite Eg, El.
  - rewrite <- GL, <- Gg in Hps1. destruct (hint_index _ _ _ _ _ s (1 - current j) _ _ Hix E Hps1 Ht) as (pre'&?). by exists pre', post.
Qed.

Lemma lost_ok f j hist acked ps d :
  open_ok f j hist acked ps -> possible f d -> (forall s at_, readHeader d = Ok (s, at_) -> genuine d s hist) ->
  recoverable d (needed acked) hist.
Proof.
  intros [Hd (_&_&Gg&_) _ _ _ _] Hp Hg. apply (crash_recoverable f (header j) (current j) ps _ _ (written j) (next j)); [|done..].
  by rewrite <- Gg.
Qed.

(** ** Opening *)

Lemma decodeSlot_err c e : decodeSlot c = Err e -> e = errNoSlot \/ e = ErrVersion.
Proof. unfold decodeSlot. repeat case_match; intros [= <-]; auto. Qed.

#[local] Opaque bytes_at decodeSlot encodeSlot readHeader.

Lemma open_step_ok d hist acked config found at_ s' at' :
  acked_ok acked -> recoverable d (needed acked) hist -> readHeader d = Ok (found, at_) ->
  wf_lease (cfg_lease config) -> counter found < 2 ^ 64 - 1 -> open_slot (open_journal found at_ config) = (s', at') ->
  inv (mkWorld (issue (definite d) [(at' * slotBytes, encodeSlot s')]) (Some (open_journal found at_ config, Opening s' at')) hist acked).
Proof.
  intros Hak Hrec Hrh Hl Hc [= <- <-]. split; [exact Hak|]. unfold recoverable in Hrec. rewrite Hrh in Hrec.
  destruct Hrec as [(ps&W&Hd) Hgen]. pose proof (ok_wf _ _ _ _ _ _ _ _ Hd) as Hw.
  pose proof (ok_ring _ _ _ _ _ _ _ _ Hd) as (Hs&_). pose proof (ok_need _ _ _ _ _ _ _ _ Hd) as Hn.
  pose proof (slot_replaces found ps _ [] ps false (s_tail found) (cfg_lease config) Hw Hc Hl ltac:(apply Hw) eq_refl eq_refl Hn) as Hr.
  split; [by eexists _, _, _|]. split; [by split_and!|]. split; [|exact Hgen].
  left. exists ps, W. split; [by apply issue_slot|]. split; [exact Hr|by split].
Qed.

Lemma blank_slots d : blank d -> decodeSlot (slot_at d 0) = Err errNoSlot /\ decodeSlot (slot_at d 1) = Err errNoSlot.
Proof.
  unfold blank. rewrite readHeader_eq. generalize (decodeSlot_err (slot_at d 0)) (decodeSlot_err (slot_at d 1)).
  generalize (decodeSlot (slot_at d 0)) (decodeSlot (slot_at d 1)). intros [s0|e0] [s1|e1] H0 H1; simpl.
  - by destruct (_ >? _).
  - destruct (H1 e1 eq_refl) as [-> | ->]; simpl; discriminate.
  - destruct (H0 e0 eq_refl) as [-> | ->]; simpl; discriminate.
  - destruct (H0 e0 eq_refl) as [-> | ->], (H1 e1 eq_refl) as [-> | ->]; simpl; first [discriminate|by split].
Qed.

Lemma ring_length_ok size :
  ringOffset + minRingSize <= size <= maxDisk -> 
  let length := Z.ldiff (size - ringOffset) (BlockBytes - 1) in ring_ok length /\ length <= 2 ^ 60.
Proof.
  intros Hs. cbv zeta. unfold ringOffset, slotBytes, maxDisk in *. constants.
  change (4096 - 1) with (Z.ones 12). rewrite Z.ldiff_ones_r, Z.shiftl_mul_pow2, Z.shiftr_div_pow2 by lia.
  change (2 ^ 12) with 4096. pose proof (Z.div_mod (size - 2 * 4096) 4096 ltac:(lia)).
  pose proof (Z.mod_pos_bound (size - 2 * 4096) 4096 ltac:(lia)).
  assert (4 <= (size - 2 * 4096) / 4096) by (apply Z.div_le_lower_bound; lia).
  split; [split; [constants; lia|apply Z.mod_mul; constants; lia]|lia].
Qed.

Lemma format_issue d s :
  wf_slot s -> s_ringStart s = ringOffset -> ring_ok (s_ringLength s) -> s_ringLength s <= 2 ^ 60 -> s_tail s = s_ringLength s ->
  blank d -> format_ok (issue (definite d) [(0, encodeSlot s)]) s.
Proof.
  intros Hw Hs HL HL60 Ht Hb. constructor.
  - exact Hw.
  - by split_and!.
  - exact (blank_slots d Hb).
  - intros i b [Hc|Hin]%issue_maybe; [|destruct (not_elem_of_nil _ Hin)]. apply covers_one in Hc. by rewrite encodeSlot_length in Hc.
  - split; [|reflexivity]. simpl. reflexivity.
Qed.

Lemma format_step_ok d hist acked size config entropy found at_ s' at' :
  acked_ok acked -> recoverable d (needed acked) hist -> readHeader d = Err errNoSlot ->
  open_found d size config entropy = Ok (found, at_) -> size <= maxDisk ->
  wf_lease (cfg_lease config) -> zlen (cfg_identity config) = 16 -> u64 entropy -> genuine d found [] ->
  open_slot (open_journal found at_ config) = (s', at') ->
  inv (mkWorld (issue (definite d) [(at' * slotBytes, encodeSlot s')]) (Some (open_journal found at_ config, Opening s' at')) [] acked).
Proof.
  intros Hak Hrec Hrh Ho Hsz [Hl1 Hl2] Hid He Hgen [= <- <-]. split; [exact Hak|].
  unfold open_found in Ho. destruct (_ <? _) eqn:Es; [discriminate Ho|]. zbool. rewrite Hrh in Ho. simpl in Ho. injection Ho as <- <-.
  destruct (ring_length_ok size ltac:(lia)) as [HL HL60]. pose proof HL as [HL1 HL2].
  set (len := Z.ldiff _ _) in *. set (s' := mkSlot _ _ _ _ _ _ _ _).
  assert (wf_slot s') as Hw.
  { unfold wf_slot, s'. simpl. change (wrap64 (0 + 1)) with 1. unfold u64, i64 in *. constants.
    unfold ringOffset, slotBytes. split_and!; first [exact Hid|exact Hl2|lia]. }
  split; [by eexists _, _, _|]. split; [split; [reflexivity|split; [reflexivity|split; [reflexivity|split; assumption]]]|]. split; [|exact Hgen]. right. split; [|split; [|split; reflexivity]].
  - by apply (format_issue d s').
  - unfold recoverable in Hrec. rewrite Hrh in Hrec. destruct Hrec as [_ Hn]. specialize (Hn 0). destruct acked; [reflexivity|discriminate Hn].
Qed.

Lemma pieces_ok_last L gen pos ps stop :
  pieces_ok L gen pos ps stop -> (ps = [] /\ stop = pos) \/ exists p, p ∈ ps /\ p.1 + zlen p.2 = stop.
Proof.
  revert pos. induction ps as [|[q b] ps IH]; simpl; intros pos Hp; [by left|right]. destruct Hp as (->&_&_&Hp).
  destruct (IH _ Hp) as [[-> ->]|(p&?&?)]; [exists (pos, b); split; [by left|done]|exists p; split; [by right|done]].
Qed.

(** What reading back finds after the run joins it. *)
Lemma extend_run f s at_ ps need hist W ps2 stop :
  disk_ok f s at_ ps need hist W W -> pieces_ok (s_ringLength s) (s_generation s) W ps2 stop ->
  on_ring (durable f) ringOffset (s_ringLength s) ps2 -> ps2 ⊆ hist -> disk_ok f s at_ (ps ++ ps2) need hist stop stop.
Proof.
  intros [Hat Hw Hring Hends Hrd Hcur Hq Ho Hrun Hon Hneed Hm Hh] Hps2 Hon2 Hsub. pose proof (pieces_ok_le _ _ _ _ _ Hps2) as Hle.
  assert (ready_at (s_ringLength s) stop /\ stop <= s_tail s + s_ringLength s /\ stop < 2 ^ 62) as (Hrd'&Ht'&H62).
  { destruct (pieces_ok_last _ _ _ _ _ Hps2) as [[_ ->]|(p&Hp&<-)]; [split; [done|lia]|].
    apply Hsub in Hp. eapply Forall_forall in Hh; [|exact Hp]. exact Hh. }
  constructor; try assumption.
  - lia.
  - intros c Hc. destruct (Ho c Hc) as [?|(s'&->&[? ? ? (p1&p2&->&?&Hn)])]; [by left|right]. exists s'. split; [reflexivity|].
    constructor; try assumption. exists p1, (p2 ++ ps2). split; [by rewrite app_assoc|]. split; [assumption|].
    intros x Hx. apply elem_of_app. left. by apply Hn.
  - by eapply pieces_ok_app.
  - by apply Forall_app.
  - intros x Hx. apply elem_of_app. left. by apply Hneed.
  - intros i b Hb. destruct (Hm i b Hb) as [?|(y&?&_)]; [by left|lia].
Qed.

Lemma on_ring_same d d' rs L ps : 0 < L -> (forall i, rs <= i -> d' i = d i) -> on_ring d' rs L ps -> on_ring d rs L ps.
Proof.
  intros HL Hd Hon. eapply Forall_impl; [exact Hon|]. intros [q b] E. simpl in *. rewrite <- E at 2. apply bytes_at_ext.
  intros i Hi. pose proof (Z.mod_pos_bound q L HL). symmetry. apply Hd. lia.
Qed.

Lemma genuine_same d d' s hist :
  0 < s_ringLength s -> (forall i, s_ringStart s <= i -> d' i = d i) -> genuine d s hist -> genuine d' s hist.
Proof. intros HL Hd Hg ps stop Hps Hon. apply (Hg ps stop Hps). by apply (on_ring_same d d'). Qed.

Lemma sync_slot_ring f k s i : k = 0 \/ k = 1 -> wf_slot s -> ringOffset <= i ->
  durable (sync f [(k * slotBytes, encodeSlot s)]) i = durable f i.
Proof.
  intros Hk Hw Hi. simpl. unfold write_disk. rewrite encodeSlot_length by done. unfold ringOffset, slotBytes in *.
  destruct (_ && _) eqn:E; [|reflexivity]. zbool. lia.
Qed.

Lemma opening_synced f j hist acked s at_ :
  geometry_ok j s -> opening_ok f j hist acked s at_ -> genuine (durable f) s hist ->
  exists ps W, disk_ok (sync f [(at_ * slotBytes, encodeSlot s)]) s at_ ps (needed acked (j_generation j)) hist W W /\
    genuine (durable (sync f [(at_ * slotBytes, encodeSlot s)])) s hist.
Proof.
  intros (_&GL&Gg&_) Hop Hgen. destruct Hop as [(ps&W&Hd&Hr&Ht&->)|(Hf&->&->&->)].
  - destruct (sync_slot _ _ _ _ _ _ _ _ _ Hd Hr) as (ps1&ps2&E&Hps1&Hd'). exists ps2, W. split; [exact Hd'|].
    destruct (ok_ring _ _ _ _ _ _ _ _ Hd') as (Hs&[HL _]&_). constants.
    apply (genuine_same (durable f)); [lia| |exact Hgen]. rewrite Hs. intros i Hi.
    apply sync_slot_ring; [|apply (rp_wf _ _ _ _ Hr)|done]. destruct (ok_at _ _ _ _ _ _ _ _ Hd); lia.
  - pose proof (format_sync f s Hf) as Hd. exists [], (s_tail s). split; [exact Hd|].
    destruct (ok_ring _ _ _ _ _ _ _ _ Hd) as (Hs&[HL _]&_). constants.
    apply (genuine_same (durable f)); [lia| |exact Hgen]. rewrite Hs. intros i Hi.
    apply sync_slot_ring; [by left|apply (fo_wf _ _ Hf)|done].
Qed.

Lemma opened_ok f j hist acked s at_ d j' :
  acked_ok acked -> fresh j -> geometry_ok j s -> opening_ok f j hist acked s at_ -> genuine (durable f) s hist ->
  possible (sync f [(at_ * slotBytes, encodeSlot s)]) d -> readBack d (with_header j s at_) = Some j' ->
  exists ps, open_ok (sync f [(at_ * slotBytes, encodeSlot s)]) j' hist acked ps.
Proof.
  intros Hak Hfr Hgeo Hop Hgen Hp Hrb. destruct (opening_synced _ _ _ _ _ _ Hgeo Hop Hgen) as (ps&W&Hd&Hgen').
  destruct (possible_ring _ _ _ _ _ _ _ _ _ Hd Hp) as (_&Hon&Hsame). specialize (Hsame eq_refl).
  set (f' := sync f _) in *. pose proof Hgeo as (GS&GL&Gg&Gl).
  pose proof (ok_ring _ _ _ _ _ _ _ _ Hd) as (Hs&[HL _]&HL60). pose proof (ok_ends _ _ _ _ _ _ _ _ Hd) as (Ht0&HtW&_&HW&H62).
  assert (u64 (j_generation j)) as Hu by (rewrite Gg; apply (ok_wf _ _ _ _ _ _ _ _ Hd)).
  constants. destruct (readBack_spec d (with_header j s at_) ps W) as (ps2&stop&Hps2&Hon2&E); simpl; rewrite ?GL, ?Gg, ?GS;
    [lia|lia|exact (ok_run _ _ _ _ _ _ _ _ Hd)|exact HW|exact Hon|].
  rewrite E in Hrb. injection Hrb as <-. simpl in Hps2, Hon2. rewrite GL, Gg in Hps2. rewrite GL, GS in Hon2.
  assert (pieces_ok (s_ringLength s) (s_generation s) (s_tail s) (ps ++ ps2) stop) as Hall
    by (eapply pieces_ok_app; [exact (ok_run _ _ _ _ _ _ _ _ Hd)|exact Hps2]).
  assert (on_ring (durable f') ringOffset (s_ringLength s) (ps ++ ps2)) as Honall.
  { apply Forall_app. split; [exact (ok_on _ _ _ _ _ _ _ _ Hd)|]. apply (on_ring_same _ d); [lia|exact Hsame|exact Hon2]. }
  assert (ps2 ⊆ hist) as Hsub.
  { intros x Hx. apply (Hgen' (ps ++ ps2) stop Hall); [by rewrite Hs|]. apply elem_of_app. by right. }
  pose proof (extend_run _ _ _ _ _ _ _ _ _ Hd Hps2 (proj2 (proj1 (Forall_app _ _ _) Honall)) Hsub) as Hd'.
  exists (ps ++ ps2). destruct Hfr as (found&at0&config&Hj).
  destruct (readBack_index (with_header j s at_) (ps ++ ps2) acked stop) as (pre&post&Hix); [exact Hu|exact Hak|by rewrite Hj..| | |].
  { simpl. by rewrite GL, Gg. }
  { intros q e Hqe. simpl. apply (ok_need _ _ _ _ _ _ _ _ Hd'). apply list_elem_of_fmap. by exists (q, e). }
  set (es := flat_map piece_index (ps ++ ps2)) in *.
  destruct (index_all_fields es (with_header j s at_)) as (EL&ES&EG&_&EH&EC&El&_&_&_&_&EQ&_). simpl in EL, ES, EG, EH, EC, El, EQ.
  constructor; [| |by exists pre, post| | |exact Hak]; rewrite settle_tail_eq; simpl; rewrite ?EL, ?EG, ?EH, ?EC, ?EQ.
  - exact Hd'.
  - unfold geometry_ok. simpl. by rewrite EL, ES, EG, El.
  - rewrite Hj. by apply Forall_nil.
  - lia.
Qed.

Lemma lost_opening f j hist acked s at_ d :
  geometry_ok j s -> opening_ok f j hist acked s at_ -> possible f d ->
  (forall s at_, readHeader d = Ok (s, at_) -> genuine d s hist) -> recoverable d (needed acked) hist.
Proof.
  intros (_&_&Gg&_) [(ps&W&Hd&Hr&_)|(Hf&->&->&_)] Hp Hg.
  - apply (crash_recoverable f (header j) (current j) ps _ _ W W); [|exact Hp|exact Hg].
    destruct (rp_same _ _ _ _ Hr) as (_&<-&_). rewrite <- Gg. exact Hd.
  - unfold recoverable. destruct (format_crash f s d Hf Hp) as [E|[E Hd]]; rewrite E; [split; reflexivity|].
    split; [|by eapply Hg]. exists [], (s_tail s). exact Hd.
Qed.

Lemma lost_none d0 hist acked d :
  recoverable d0 (needed acked) hist -> possible (definite d0) d ->
  (forall s at_, readHeader d = Ok (s, at_) -> genuine d s hist) -> recoverable d (needed acked) hist.
Proof.
  intros Hrec Hp Hg. unfold recoverable in Hrec. destruct (readHeader d0) as [[s at_]|e] eqn:E.
  - destruct Hrec as [(ps&W&Hd) _]. by apply (crash_recoverable (definite d0) s at_ ps _ _ W W).
  - destruct Hrec as [-> Hn]. unfold recoverable.
    assert (forall k, slot_at d k = slot_at d0 k) as Hk.
    { intros k. apply bytes_at_ext. intros i _. destruct Hp as [Hp _]. destruct (Hp i) as [Hi|Hi]; [exact Hi|].
      destruct (not_elem_of_nil _ Hi). }
    rewrite readHeader_eq, !Hk, <- readHeader_eq, E. by split.
Qed.

(** ** Every step keeps it *)

Lemma inv_served f j ph hist acked :
  served ph = true ->
  inv (mkWorld f (Some (j, ph)) hist acked) <-> acked_ok acked /\ exists ps, open_ok f j hist acked ps /\ phase_ok j acked ps ph.
Proof. unfold inv. simpl. by destruct ph. Qed.

(** What a caller does leaves the ring and its index alone. *)
Lemma caller_ok f j j' ph hist acked :
  served ph = true -> core j' = core j ->
  (Forall (commit_ok (ringLength j)) (queue j) -> Forall (commit_ok (ringLength j)) (queue j')) ->
  inv (mkWorld f (Some (j, ph)) hist acked) -> inv (mkWorld f (Some (j', ph)) hist acked).
Proof.
  intros Hs Hc Hq. rewrite !inv_served by done. intros (Ha&ps&Hop&Hph). split; [exact Ha|]. exists ps.
  split; [|by apply (phase_frame j)]. apply (open_frame f j); [exact Hc| |exact Hop]. apply Hq, Hop.
Qed.

Lemma CommitHooked_ok j id room hook j' :
  room <= maxRoom -> CommitHooked j id room hook = Ok j' ->
  core j' = core j /\ (Forall (commit_ok (ringLength j)) (queue j) -> Forall (commit_ok (ringLength j)) (queue j')).
Proof.
  intros Hroom. unfold CommitHooked. destruct (_ || _) eqn:E; [discriminate|]. destruct (refusal j); [discriminate|]. intros [= <-]. zbool.
  rewrite reserve_needs in * by lia. split; [reflexivity|]. simpl. intros Hq. apply Forall_app. split; [exact Hq|]. constructor; [|by apply Forall_nil].
  split; simpl; lia.
Qed.

Lemma leave_queue_ok {P : commit -> Prop} q id : Forall P q -> Forall P (leave_queue q id).
Proof. induction 1 as [|c q Hc Hq IH]; simpl; [by apply Forall_nil|]. destruct (_ =? _); [exact Hq|by constructor]. Qed.

Lemma ReadFence_ok j q j' :
  ReadFence j q = Ok j' -> core j' = core j /\ queue j' = queue j /\ rq_Reader q <= default 0 (fences j' !! rq_VM q) /\
  placed j' = placed j /\ completed j' = completed j /\ j_generation j = rq_Generation q /\ rq_Epoch q < rq_Reader q.
Proof.
  unfold ReadFence. destruct (negb _) eqn:E1; [discriminate|]. destruct (_ <=? _) eqn:E2; [discriminate|].
  destruct (refusal j); [discriminate|]. zbool. destruct (_ <? _) eqn:E3; zbool; intros [= <-]; split_and!; try done.
  simpl. rewrite lookup_insert_eq. simpl. lia.
Qed.

Lemma CheckLease_ok d j : core (CheckLease d j).1 = core j /\ queue (CheckLease d j).1 = queue j /\
  fences (CheckLease d j).1 = fences j /\ placed (CheckLease d j).1 = placed j /\ completed (CheckLease d j).1 = completed j.
Proof. unfold CheckLease. destruct (readHeader d) as [[found at_]|e]; [|done]. by case_bool_decide. Qed.

Lemma inv_step w w' : inv w -> step w w' -> inv w'.
Proof.
  intros Hi. destruct 1.
  - destruct (CommitHooked_ok _ _ _ _ _ H1 H2). by apply (caller_ok f j).
  - apply (caller_ok f j); [done|done| |exact Hi]. apply leave_queue_ok.
  - rewrite inv_served in Hi |- * by done. destruct Hi as (Ha&ps&Hop&Hph). destruct (trim_ok _ _ _ _ _ v covered _ Hop Hph) as [Hop' Hph'].
    split; [apply Hop'|by exists ps].
  - destruct (ReadFence_ok _ _ _ H1) as (Hc&Hq&_). apply (caller_ok f j); [done|exact Hc|by rewrite Hq|exact Hi].
  - destruct (CheckLease_ok d j) as (Hc&Hq&_). apply (caller_ok f j); [done|exact Hc|by rewrite Hq|exact Hi].
  - by apply (caller_ok f j).
  - rewrite inv_served in Hi by done. destruct Hi as (Ha&ps&Hop&_). destruct (turn_ok _ _ _ _ _ _ _ _ Hop H0) as [Hop' Hph'].
    apply inv_served; [by destruct t|]. split; [done|]. by exists ps.
  - rewrite inv_served in Hi |- * by done. destruct Hi as (Ha&ps&Hop&Hph).
    pose proof (empty_ok _ _ _ _ _ _ _ _ _ _ Hop Hph H0 H1 H2) as Hop'. split; [apply Hop'|by exists ps].
  - rewrite inv_served in Hi |- * by done. destruct Hi as (Ha&ps0&Hop&Hph).
    split; [done|]. exists ps0. by eapply write_ok.
  - rewrite inv_served in Hi |- * by done. destruct Hi as (Ha&ps&Hop&Hph).
    destruct (synced_ok _ _ _ _ _ _ _ _ Hop Hph) as (ps'&Hop'). split; [apply Hop'|by exists ps'].
  - rewrite inv_served in Hi |- * by done. destruct Hi as (Ha&ps&Hop&_). split; [done|]. exists ps. split; [|done].
    apply (open_frame f j); [done|apply Hop|done].
  - rewrite inv_served in Hi |- * by done. destruct Hi as (Ha&ps&Hop&_). split; [done|]. by exists ps.
  - rewrite inv_served in Hi |- * by done. destruct Hi as (Ha&ps&Hop&_). split; [done|]. exists ps. by eapply hint_ok.
  - rewrite inv_served in Hi by done. destruct Hi as (Ha&ps&Hop&Hph). apply inv_served; [by destruct closing|]. split; [done|].
    destruct (hinted_ok _ _ _ _ _ _ _ _ Hop Hph) as (ps'&?). exists ps'. split; [done|by destruct closing].
  - rewrite inv_served in Hi by (by destruct H0 as [->|(?&?&->)]). destruct Hi as (Ha&ps&Hop&_).
    apply inv_served; [by destruct closing|]. split; [done|]. exists ps. split; [done|by destruct closing].
  - destruct Hi as [Ha Hh]. split; [exact Ha|]. simpl in *. exists d. split; [done|].
    destruct h as [[j ph]|]; [|destruct Hh as (d0&->&Hrec); exact (lost_none _ _ _ _ Hrec H0 H1)].
    destruct ph; try (destruct Hh as (ps&Hop&_); exact (lost_ok _ _ _ _ _ _ Hop H0 H1)).
    destruct Hh as (_&Hgeo&Hop&_). exact (lost_opening _ _ _ _ _ _ _ Hgeo Hop H0 H1).
  - destruct Hi as [Ha (d0&E&Hrec)]. simpl in *. injection E as ->.
    exact (open_step_ok _ _ _ _ _ _ _ _ Ha Hrec H1 H2 H3 H4).
  - destruct Hi as [Ha (d0&E&Hrec)]. simpl in *. injection E as ->.
    exact (format_step_ok _ _ _ _ _ _ _ _ _ _ Ha Hrec H1 H0 H2 H3 H4 H5 H6 H7).
  - destruct Hi as [Ha (Hfr&Hgeo&Hop&Hg)]. destruct (opened_ok _ _ _ _ _ _ _ _ Ha Hfr Hgeo Hop Hg H0 H1) as (ps&Hop').
    apply inv_served; [reflexivity|]. split; [exact Ha|]. exists ps. by split.
Qed.

Lemma inv_reachable w : reachable w -> inv w.
Proof.
  induction 1 as [d Hb|w w' _ IH Hs]; [|by apply (inv_step w)]. split; [by apply Forall_nil|]. exists d.
  split; [reflexivity|]. unfold recoverable. unfold blank in Hb. rewrite Hb. split; reflexivity.
Qed.

End World.

End Durability.
