(* ===== verification/JournalRead.v ===== *)
(** * What the journal promises its readers

    Over every reachable state of the journal's system: a read returns every
    entry a commit was answered for, as it was committed; once a read has fenced
    a VM and the batches placed before are complete, no older entry is ever
    acknowledged that the read does not return; a batch's writes spare what the
    ring holds; reading back ends; and a ring with nothing live takes the next
    commit. *)

From stdpp Require Import relations sorting.
From S2P Require Import Prelude Bytes JournalFormat JournalRing JournalIndex JournalDisk JournalCrash JournalHolder JournalSafety.

Module Reads.
Import Journal Ring Index Disk Crash Holder Durability.

#[local] Opaque bytes_at decodeSlot encodeSlot readHeader.

Section Reads.
Context `{Checksum}.

(** ** Reading the ring *)

(** Two pieces of a run at one position are the same. *)
Lemma pieces_ok_inj L gen pos ps stop q b c : pieces_ok L gen pos ps stop -> (q, b) ∈ ps -> (q, c) ∈ ps -> b = c.
Proof.
  revert pos. induction ps as [|[p x] ps IH]; simpl; intros pos; [by intros _ ?%elem_of_nil|].
  intros (->&Hr&_&Hps) Hb Hc. pose proof (reads_at_bounds _ _ _ Hr) as [Hx _].
  assert (forall y, (pos, y) ∈ ps -> False) as Hno.
  { intros y Hy. destruct (pieces_ok_elem _ _ _ _ _ _ _ Hps Hy) as (?&_). constants; lia. }
  rewrite !elem_of_cons in Hb, Hc. destruct Hb as [Eb|Hb], Hc as [Ec|Hc]; [congruence| | |by apply (IH (pos + zlen x))].
  - injection Eb as -> ->. by destruct (Hno c).
  - injection Ec as -> ->. by destruct (Hno b).
Qed.

Lemma possible_durable f : possible f (durable f).
Proof. split; [intros i; by left|intros k _; by left]. Qed.

Definition indexes (ps : list piece) (x : indexed) : Prop := exists b, (i_position x, b) ∈ ps /\ piece_index (i_position x, b) = [x].

(** A live entry is the index of a piece of the run. *)
Lemma live_indexed f j hist acked ps x :
  open_ok f j hist acked ps -> x ∈ live j -> dead x = false -> indexes ps x.
Proof.
  intros Hop Hx Hd. destruct (op_index _ _ _ _ _ Hop) as (pre&post&[-> _ Hl _ _ _]).
  assert (x ∈ flat_map piece_index post) as Hin.
  { rewrite <- Hl. apply list_elem_of_fmap. exists x. split; [by rewrite undead_alive|done]. }
  apply list_elem_of_In, in_flat_map in Hin as ([q b]&Hp%list_elem_of_In&Hin).
  destruct (piece_index_cases (q, b)) as [E|(y&E&Hy&_)]; rewrite E in Hin; [done|]. destruct Hin as [->|[]]. simpl in Hy. subst q.
  exists b. split; [apply elem_of_app; by right|exact E].
Qed.

Lemma wanted_spec f j hist acked ps rq x :
  open_ok f j hist acked ps ->
  x ∈ wanted j rq <-> x ∈ live j /\ dead x = false /\ i_vm x = rq_VM rq /\ i_epoch x = rq_Epoch rq /\ rq_After rq < i_position x.
Proof.
  intros Hop. destruct (op_index _ _ _ _ _ Hop) as (pre&post&[_ _ _ [Hh _] _ _]).
  unfold wanted. rewrite (merge_sort_Permutation by_position), list_elem_of_filter, Hh.
  assert (default [] (h_entries <$> held_from (filter (alive (rq_VM rq) (rq_Epoch rq)) (live j))) =
    filter (alive (rq_VM rq) (rq_Epoch rq)) (live j)) as -> by (by destruct (filter _ (live j))).
  rewrite list_elem_of_filter. unfold alive. tauto.
Qed.

Lemma indexes_decode L gen pos ps stop x :
  pieces_ok L gen pos ps stop -> indexes ps x ->
  exists b h e, (i_position x, b) ∈ ps /\ i_length x = zlen b /\ decodeEntry b = Ok (h, e) /\ kind h = kindBlocks /\
    position h = i_position x /\ generation h = gen /\ VM e = i_vm x /\ Epoch e = i_epoch x /\ Position e = i_position x.
Proof.
  intros Hps (b&Hin&Hx). destruct (pieces_ok_elem _ _ _ _ _ _ _ Hps Hin) as (_&_&_&h&Hh&Hp&Hg).
  unfold piece_index in Hx. cbn [fst snd] in Hx. rewrite Hh in Hx. case_bool_decide as Hk; [|done].
  exists b, h. unfold decodeEntry. rewrite Hh. simpl. rewrite bool_decide_false by (rewrite Hk; done).
  destruct x. simpl in *. injection Hx as <- <- <- _. eexists. by split_and!.
Qed.

Section Disk.
Context (f : file) (j : Journal) (hist : list piece) (acked : list (Z * Entry)) (ps : list piece).
Hypothesis Hop : open_ok f j hist acked ps.

Lemma possible_piece d q b :
  possible f d -> (q, b) ∈ ps -> bytes_at d (ringStart j + q mod ringLength j) (zlen b) = b.
Proof.
  intros Hp Hin. destruct (possible_ring _ _ _ _ _ _ _ _ _ (op_disk _ _ _ _ _ Hop) Hp) as (_&Hon&_).
  destruct (op_geometry _ _ _ _ _ Hop) as (->&->&_). eapply Forall_forall in Hon; [|exact Hin]. exact Hon.
Qed.

(** What a live entry's bytes decode to, on any disk the file may be. *)
Lemma possible_entry d x :
  possible f d -> x ∈ live j -> dead x = false ->
  0 <= i_length x /\ i_position x mod ringLength j + i_length x <= ringLength j /\
  exists h e, decodeEntry (bytes_at d (ringStart j + i_position x mod ringLength j) (i_length x)) = Ok (h, e) /\ kind h = kindBlocks /\
    position h = i_position x /\ generation h = j_generation j /\ VM e = i_vm x /\ Epoch e = i_epoch x /\ Position e = i_position x /\
    forall o, (i_position x, o) ∈ acked -> e = at_position o (i_position x).
Proof.
  intros Hp Hx Hd. pose proof (open_run _ _ _ _ _ Hop) as Hrun.
  destruct (indexes_decode _ _ _ _ _ _ Hrun (live_indexed _ _ _ _ _ _ Hop Hx Hd)) as (b&h&e&Hin&Hlen&Hdec&Hk&Hps&Hg&Hv&He&Hpos).
  destruct (pieces_ok_elem _ _ _ _ _ _ _ Hrun Hin) as (_&_&Hroom&_). unfold room_at in Hroom. pose proof (zlen_nonneg b).
  rewrite Hlen, (possible_piece d _ b Hp Hin). split_and!; [lia|lia|]. exists h, e. split_and!; try done. intros o Ho.
  destruct (op_index _ _ _ _ _ Hop) as (pre&post&[Eps _ _ _ _ Hak]). destruct (Hak _ o Ho) as [Hpo _].
  pose proof (op_acked _ _ _ _ _ Hop) as Hwf. eapply Forall_forall in Hwf as [Hwe Hwq]; [|exact Ho]. cbn [fst snd] in Hwe, Hwq.
  assert (b = entry_bytes o (i_position x) (j_generation j)) as ->
    by (eapply pieces_ok_inj; [exact Hrun|exact Hin|rewrite Eps; apply elem_of_app; by right]).
  unfold entry_bytes in Hdec.
  rewrite (proj1 (decodeEntry_entry o _ (j_generation j) Hwe Hwq (open_u64 _ _ _ _ _ Hop))) in Hdec. congruence.
Qed.

Lemma acked_live q e : (q, e) ∈ acked -> index_of e q ∈ live j /\ dead (index_of e q) = false.
Proof. intros Hin. destruct (op_index _ _ _ _ _ Hop) as (pre&post&[_ _ _ _ _ Hak]). by destruct (Hak q e Hin). Qed.

(** What is held lies before the end of what is written. *)
Lemma live_written x : x ∈ live j -> dead x = false -> i_position x < written j.
Proof.
  intros Hx Hd. destruct (live_indexed _ _ _ _ _ _ Hop Hx Hd) as (b&Hin&_).
  destruct (pieces_ok_elem _ _ _ _ _ _ _ (open_run _ _ _ _ _ Hop) Hin) as (_&?&_&[? _]%reads_at_bounds). constants; lia.
Qed.

End Disk.

(** ** Fences *)

Definition counts_ok (w : world) : Prop :=
  match w_holder w with
  | Some (j, InFlight _ _ _) => placed j = completed j + 1
  | Some (j, _) => placed j = completed j
  | None => True
  end.

Lemma trim_fields j vm covered :
  placed (Trim j vm covered) = placed j /\ completed (Trim j vm covered) = completed j /\ fences (Trim j vm covered) = fences j.
Proof. unfold Trim. by rewrite settle_tail_eq. Qed.

Lemma commit_fields j id room hook j' :
  CommitHooked j id room hook = Ok j' -> placed j' = placed j /\ completed j' = completed j /\ fences j' = fences j.
Proof. unfold CommitHooked. destruct (_ || _); [discriminate|]. destruct (refusal j); [discriminate|]. by intros [= <-]. Qed.

Lemma turn_fields j since j' t :
  nextBatch j since = (j', t) -> placed j' = placed j /\ completed j' = completed j /\ fences j' = fences j.
Proof.
  unfold nextBatch. destruct (refusal j); [by intros [= <- _]|]. destruct (_ && _); [by intros [= <- _]|].
  destruct (_ <? _); [by intros [= <- _]|]. destruct (queue j) as [|c q]; [by intros [= <- _]|].
  destruct (_ <? _); [by intros [= <- _]|]. destruct (negb _); by intros [= <- _].
Qed.

Lemma place_fields j captured j' r :
  place_batch j captured = (j', r) -> placed j' = placed j + 1 /\ completed j' = completed j /\ fences j' = fences j.
Proof. unfold place_batch. destruct (place j captured). destruct (_ =? _); by intros [= <- _]. Qed.

Lemma complete_counts j p errs err :
  placed (complete j p errs err).1 = placed j /\ completed (complete j p errs err).1 = completed j + 1 /\
  fences (complete j p errs err).1 = fences j.
Proof. destruct err; [done|]. by destruct (complete_fields j p errs) as (_&_&_&_&?&_&_&_&_&?&?). Qed.

Lemma readBack_fields d j j' : readBack d j = Some j' -> placed j' = placed j /\ completed j' = completed j.
Proof.
  assert (forall fuel start r j pos j' q, back fuel d start r j pos = Some (j', q) -> placed j' = placed j /\ completed j' = completed j) as Hb.
  { intros fuel. induction fuel as [|fuel IH]; intros start r j0 pos j1 q; rewrite back_step; repeat case_match; intros Hq;
      try discriminate Hq; try (by injection Hq as <- _); apply IH in Hq; by repeat case_match. }
  unfold readBack. destruct (back _ _ _ _ _ _) as [[j1 pos]|] eqn:E; [|discriminate]. intros [= <-].
  apply Hb in E. rewrite settle_tail_eq. exact E.
Qed.

Lemma counts_step w w' : counts_ok w -> inv w -> step w w' -> counts_ok w'.
Proof.
  intros Hc Hi. destruct 1; unfold counts_ok in *; cbn [w_holder] in *.
  - destruct (commit_fields _ _ _ _ _ H2) as (->&->&_). exact Hc.
  - exact Hc.
  - destruct (trim_fields j v covered) as (->&->&_). exact Hc.
  - destruct (ReadFence_ok _ _ _ H1) as (_&_&_&->&->&_). exact Hc.
  - destruct (CheckLease_ok d j) as (_&_&_&->&->). exact Hc.
  - exact Hc.
  - destruct (turn_fields _ _ _ _ H0) as (E1&E2&_). rewrite <- E1, <- E2 in Hc. by destruct t.
  - destruct (complete_counts j' p errs None) as (->&->&_). destruct (place_fields _ _ _ _ H1) as (->&->&_). lia.
  - destruct (place_fields _ _ _ _ H1) as (->&->&_). lia.
  - destruct (complete_counts j p errs None) as (->&->&_). lia.
  - destruct (complete_counts j p errs (Some err)) as (->&->&_). lia.
  - exact Hc.
  - exact Hc.
  - by destruct closing.
  - destruct H0 as [->|(?&?&->)]; by destruct closing.
  - exact I.
  - reflexivity.
  - reflexivity.
  - destruct (readBack_fields _ _ _ H1) as (->&->). exact Hc.
Qed.

Lemma counts_reachable w : reachable w -> counts_ok w.
Proof. induction 1 as [|w w' Hr IH Hs]; [done|]. apply (counts_step w); [done|by apply inv_reachable|done]. Qed.

(** Entries of a VM that are not older than an epoch. *)
Definition spared (v : string) (R : Z) (new : list (Z * Entry)) : Prop := forall q e, (q, e) ∈ new -> VM e = v -> R <= Epoch e.

(** A VM fenced at [R] when [P] batches were placed: what is placed since holds
    nothing older. *)
Definition fenced_at (v : string) (R P : Z) (w : world) : Prop :=
  exists j ph, w_holder w = Some (j, ph) /\ served ph = true /\ R <= default 0 (fences j !! v) /\ P <= placed j /\
    match ph with
    | InFlight captured p errs => P < placed j -> spared v R (acknowledged captured (answer None <$> zip (positions p) errs))
    | _ => True
    end.

Lemma fences_grow j q j' v R : ReadFence j q = Ok j' -> R <= default 0 (fences j !! v) -> R <= default 0 (fences j' !! v).
Proof.
  unfold ReadFence. destruct (negb _); [discriminate|]. destruct (_ <=? _); [discriminate|]. destruct (refusal j); [discriminate|].
  destruct (_ <? _) eqn:E; zbool; intros [= <-] HR; [|done]. simpl. destruct (decide (rq_VM q = v)) as [<-|Hne].
  - rewrite lookup_insert_eq. simpl. lia.
  - by rewrite lookup_insert_ne.
Qed.

Lemma fenced_none j es e : fenced j es = None -> e ∈ es -> default 0 (fences j !! VM e) <= Epoch e.
Proof.
  induction es as [|x es IH]; simpl; [by intros _ ?%elem_of_nil|]. destruct (_ <? _) eqn:E; [discriminate|]. zbool.
  intros Hf Hin. apply elem_of_cons in Hin as [->|Hin]; [done|by apply IH].
Qed.

Lemma placed_spared j ps captured commits v R :
  Forall2 (placed_commit j ps) captured commits -> R <= default 0 (fences j !! v) ->
  spared v R (acknowledged captured (answer None <$> commits)).
Proof.
  intros Hf HR. induction Hf as [|r [poss err] captured commits Hone _ IH]; intros q e; [by intros ?%elem_of_nil|].
  unfold acknowledged. simpl. rewrite elem_of_app. intros [Hin|Hin] Hv; [|by apply (IH q)]. unfold placed_commit in Hone. simpl in Hone.
  destruct err as [er|]; simpl in Hin; [destruct r; by apply elem_of_nil in Hin|].
  destruct Hone as (es&->&Hfe&_). apply elem_of_zip_r in Hin. pose proof (fenced_none _ _ _ Hfe Hin). rewrite Hv in *. lia.
Qed.

Lemma batch_spared f j hist acked ps batch captured j' p errs v R :
  open_ok f j hist acked ps -> phase_ok j acked ps (Forming batch) -> Forall2 captures batch captured ->
  place_batch j captured = (j', (p, errs)) -> R <= default 0 (fences j !! v) ->
  spared v R (acknowledged captured (answer None <$> zip (positions p) errs)).
Proof.
  intros Hop [Hb Hfit] Hc Hp HR. unfold place_batch in Hp. destruct (place j captured) as [p0 errs0] eqn:Ep. injection Hp as _ -> ->.
  destruct (place_batch_ok _ _ _ _ _ _ _ _ _ Hop Hb Hfit Hc Ep) as (_&most&ps'&[_ _ _ _ _ Hcm _]&_). by apply (placed_spared j ps').
Qed.

(** A step by the same holder. *)
Definition held_step (w w' : world) : Prop := step w w' /\ is_Some (w_holder w').

Definition done_batches (w : world) : Z := match w_holder w with Some (j, _) => completed j | None => 0 end.

(** What a step acknowledges of a VM that was fenced. *)
Definition no_older (v : string) (R : Z) (w w' : world) : Prop :=
  forall q e, (q, e) ∈ w_acked w' -> VM e = v -> Epoch e < R -> (q, e) ∈ w_acked w.

Lemma no_older_app v R f h hist f' h' hist' acked new :
  spared v R new -> no_older v R (mkWorld f h hist acked) (mkWorld f' h' hist' (acked ++ new)).
Proof. intros Hs q e [Hin|Hin]%elem_of_app Hv He; [done|]. specialize (Hs q e Hin Hv). lia. Qed.

Lemma no_older_refl v R f h hist f' h' hist' acked : no_older v R (mkWorld f h hist acked) (mkWorld f' h' hist' acked).
Proof. by intros q e Hin _ _. Qed.

Lemma fence_step v R P w w' :
  reachable w -> fenced_at v R P w -> held_step w w' ->
  fenced_at v R P w' /\ done_batches w <= done_batches w' /\ (P <= done_batches w -> no_older v R w w').
Proof.
  intros Hre (j0&ph0&Hh&Hs&HR&HP&Hph) [Hst Hsome]. pose proof (inv_reachable _ Hre) as Hi. pose proof (counts_reachable _ Hre) as Hc.
  unfold counts_ok in Hc. destruct Hst; cbn [w_holder done_batches w_acked] in *; try discriminate Hh; try (injection Hh as <- <-);
    try (rewrite inv_served in Hi by done).
  - destruct (commit_fields _ _ _ _ _ H2) as (E1&E2&E3). unfold fenced_at. cbn [w_holder].
    split; [exists j', ph; by rewrite E1, E3|]. split; [unfold done_batches; simpl; lia|intros _; apply no_older_refl].
  - split; [by exists (CancelCommit j id), ph|]. split; [done|intros _; apply no_older_refl].
  - destruct (trim_fields j v0 covered) as (E1&E2&E3). split; [exists (Trim j v0 covered), ph; by rewrite E1, E3|].
    split; [unfold done_batches; simpl; lia|]. intros _ q e Hin _ _. by apply list_elem_of_filter in Hin as [_ Hin].
  - destruct (ReadFence_ok _ _ _ H1) as (_&_&_&E1&E2&_). split; [exists j', ph; rewrite E1; split_and!; try done; by eapply fences_grow|].
    split; [unfold done_batches; simpl; lia|intros _; apply no_older_refl].
  - destruct (CheckLease_ok d j) as (_&_&E3&E1&E2). revert E1 E2 E3. generalize (CheckLease d j).1. intros j' E1 E2 E3.
    split; [exists j', ph; by rewrite E1, E3|].
    split; [unfold done_batches; simpl; lia|intros _; apply no_older_refl].
  - split; [by exists (with_stop j (failed j) true), ph|]. split; [done|intros _; apply no_older_refl].
  - destruct (turn_fields _ _ _ _ H0) as (E1&E2&E3). split; [eexists j', _; split; [reflexivity|]; rewrite E1, E3; by destruct t|].
    split; [unfold done_batches; simpl; lia|intros _; apply no_older_refl].
  - destruct (place_fields _ _ _ _ H1) as (E1&E2&E3). destruct (complete_counts j' p errs None) as (F1&F2&F3).
    split; [exists (complete j' p errs None).1, Waiting; split_and!; try done; [by rewrite F3, E3|rewrite F1, E1; lia]|].
    split; [unfold done_batches; cbn [w_holder]; lia|]. intros _. apply no_older_app.
    destruct Hi as (_&ps&Hop&Hfo). by eapply batch_spared.
  - destruct (place_fields _ _ _ _ H1) as (E1&E2&E3). destruct Hi as (_&ps0&Hop&Hfo).
    split; [exists j', (InFlight captured p errs); split_and!; try done; [by rewrite E3|rewrite E1; lia|]|].
    { intros _. by eapply batch_spared. }
    split; [unfold done_batches; cbn [w_holder]; lia|intros _; apply no_older_refl].
  - destruct (complete_counts j p errs None) as (F1&F2&F3).
    split; [exists (complete j p errs None).1, Waiting; split_and!; try done; [by rewrite F3|rewrite F1; lia]|].
    split; [unfold done_batches; cbn [w_holder]; lia|]. unfold done_batches. cbn [w_holder]. intros HPc. apply no_older_app. apply Hph. lia.
  - destruct (complete_counts j p errs (Some err)) as (F1&F2&F3).
    split; [exists (complete j p errs (Some err)).1, Waiting; by split_and!|].
    split; [unfold done_batches; cbn [w_holder]; lia|intros _; apply no_older_refl].
  - split; [by exists j, (HintDue true)|]. split; [done|intros _; apply no_older_refl].
  - split; [by exists j, (Hinting s at_ closing)|]. split; [done|intros _; apply no_older_refl].
  - split; [eexists (with_header j s at_), _; split; [reflexivity|]; by destruct closing|]. split; [done|intros _; apply no_older_refl].
  - split; [eexists j, _; split; [reflexivity|]; by destruct closing|]. split; [done|intros _; apply no_older_refl].
  - by destruct Hsome.
  - discriminate Hs.
Qed.

Lemma held_reachable w w' : reachable w -> rtc held_step w w' -> reachable w'.
Proof. intros Hr. induction 1 as [|w w1 w' [Hs _] _ IH]; [done|]. apply IH. by apply (reach_step w). Qed.

Lemma fence_run v R P w w' :
  reachable w -> fenced_at v R P w -> rtc held_step w w' ->
  fenced_at v R P w' /\ done_batches w <= done_batches w' /\ (P <= done_batches w -> no_older v R w w').
Proof.
  intros Hr Hf Hrun. induction Hrun as [w|w w1 w' Hs _ IH]; [split_and!; try done; by intros _ q e|].
  destruct (fence_step v R P w w1 Hr Hf Hs) as (Hf1&Hd1&Ho1). destruct Hs as [Hs _].
  destruct (IH (reach_step _ _ Hr Hs) Hf1) as (Hf'&Hd'&Ho'). split_and!; [done|lia|].
  intros HP q e Hin Hv He. apply (Ho1 HP); [|done..]. apply Ho'; [lia|done..].
Qed.

(** ** Reads *)

Lemma reachable_open w j ph :
  reachable w -> w_holder w = Some (j, ph) -> served ph = true -> exists ps, open_ok (w_file w) j (w_hist w) (w_acked w) ps /\ phase_ok j (w_acked w) ps ph.
Proof.
  intros Hr Hh Hs. apply inv_reachable in Hr. destruct w as [f h hist acked]. simpl in *. subst h.
  apply inv_served in Hr; [|done]. apply Hr.
Qed.

Lemma wanted_sorted j rq : Sorted Z.le (i_position <$> wanted j rq).
Proof.
  assert (Total by_position) as Htot by (intros a b; unfold by_position; lia).
  pose proof (Sorted_merge_sort by_position (filter (fun e => rq_After rq < i_position e)
    (default [] (h_entries <$> held_at (held_ j) (rq_VM rq) (rq_Epoch rq))))) as Hsort. fold (wanted j rq) in Hsort.
  induction Hsort as [|x xs _ IH Hx]; [constructor|]. rewrite fmap_cons. constructor; [exact IH|]. by destruct Hx; constructor.
Qed.

Lemma Sorted_take {A} (R : A -> A -> Prop) n l : Sorted R l -> Sorted R (take n l).
Proof.
  intros Hl. revert n. induction Hl as [|x l _ IH Hx]; intros [|n]; simpl; try constructor; [apply IH|].
  destruct Hx; destruct n; by constructor.
Qed.

(** ** What stays while others work *)

Definition live_in (w : world) (x : indexed) : Prop :=
  exists j ph, w_holder w = Some (j, ph) /\ served ph = true /\ x ∈ live j /\ dead x = false.

Definition ring_of (j : Journal) : Z * Z * Z := (ringStart j, ringLength j, j_generation j).

(** What is held or acknowledged below [written j] after some steps was so before. *)
Definition kept (j : Journal) (acked : list (Z * Entry)) (j1 : Journal) (acked1 : list (Z * Entry)) : Prop :=
  ring_of j1 = ring_of j /\ written j <= written j1 /\
  (forall x, x ∈ live j1 -> dead x = false -> i_position x < written j -> x ∈ live j) /\
  (forall q e, (q, e) ∈ acked1 -> q < written j -> (q, e) ∈ acked).

Lemma kept_same j j1 acked : ring_of j1 = ring_of j -> written j1 = written j -> live j1 = live j -> kept j acked j1 acked.
Proof. intros Hr Hw Hl. split_and!; [done|lia|by rewrite Hl|done]. Qed.

Lemma kept_core j j1 acked : core j1 = core j -> kept j acked j1 acked.
Proof. destruct j, j1. unfold core. simpl. intros E. simplify_eq. by apply kept_same. Qed.

Lemma turn_core j since j' t : nextBatch j since = (j', t) -> core j' = core j.
Proof.
  unfold nextBatch. destruct (refusal j); [by intros [= <- _]|]. destruct (_ && _); [by intros [= <- _]|].
  destruct (_ <? _); [by intros [= <- _]|]. destruct (queue j) as [|c q]; [by intros [= <- _]|].
  destruct (_ <? _); [by intros [= <- _]|]. destruct (negb _); by intros [= <- _].
Qed.

Lemma kept_placed j captured j' r acked : place_batch j captured = (j', r) -> kept j acked j' acked.
Proof. unfold place_batch. destruct (place j captured). destruct (_ =? _); intros [= <- _]; by apply kept_same. Qed.

Lemma drop_dead_in l x : x ∈ drop_dead l -> x ∈ l.
Proof. destruct (drop_dead_suffix l) as (pre&E&_). rewrite E at 2. rewrite elem_of_app. by right. Qed.

Lemma kept_trim f j hist acked ps vm covered :
  open_ok f j hist acked ps -> kept j acked (Trim j vm covered) (filter (untrimmed vm covered) acked).
Proof.
  intros Hop. unfold Trim. rewrite settle_tail_eq. split_and!; simpl; try done.
  - intros x Hx Hd _. apply drop_dead_in, list_elem_of_fmap in Hx as (y&->&Hy). unfold kill in *. by destruct (_ && _).
  - intros q e Hin _. by apply list_elem_of_filter in Hin as [_ Hin].
Qed.

(** A batch that lands adds what lies from [written j] on. *)
Lemma kept_landed j acked captured p errs ps' stop :
  pieces_ok (ringLength j) (j_generation j) (written j) ps' stop -> entries p = flat_map piece_index ps' ->
  Forall2 (lands (j_generation j) ps') captured (zip (positions p) errs) -> zlen (image p) = 0 \/ written j <= p_end p ->
  kept j acked (complete j p errs None).1 (acked ++ acknowledged captured (complete j p errs None).2).
Proof.
  intros Hps He Hl Hw. destruct (complete_fields j p errs) as (_&_&_&_&_&EW&_&EL&EG&_&_).
  assert (live (complete j p errs None).1 = drop_dead (live j ++ entries p) /\ ringStart (complete j p errs None).1 = ringStart j) as [El ES].
  { unfold complete. cbn [fst]. set (j1 := if _ =? _ then _ else _). destruct (index_all_fields (entries p) j1) as (_&ES&_&El&_).
    rewrite settle_tail_eq. simpl. rewrite El, ES. unfold j1. by destruct (_ =? _). }
  split_and!.
  - unfold ring_of. by rewrite EL, EG, ES.
  - rewrite EW. destruct (_ =? _) eqn:E; zbool; lia.
  - intros x Hx Hd Hlt. rewrite El in Hx. apply drop_dead_in, elem_of_app in Hx as [Hx|Hx]; [done|]. rewrite He in Hx.
    apply list_elem_of_In, in_flat_map in Hx as ([q b]&Hp%list_elem_of_In&Hx).
    destruct (piece_index_cases (q, b)) as [E|(y&E&Hy&_)]; rewrite E in Hx; [done|]. destruct Hx as [->|[]]. simpl in Hy.
    destruct (pieces_ok_elem _ _ _ _ _ _ _ Hps Hp) as (?&_). lia.
  - intros q e Hin Hlt. apply elem_of_app in Hin as [?|Hin]; [done|].
    destruct (acknowledged_lands _ _ _ _ _ _ Hl Hin) as (_&_&Hp). destruct (pieces_ok_elem _ _ _ _ _ _ _ Hps Hp) as (?&_). lia.
Qed.

Lemma kept_empty f j hist acked ps batch captured j' p errs :
  open_ok f j hist acked ps -> phase_ok j acked ps (Forming batch) -> Forall2 captures batch captured ->
  place_batch j captured = (j', (p, errs)) -> image p = [] ->
  kept j acked (complete j' p errs None).1 (acked ++ acknowledged captured (complete j' p errs None).2).
Proof.
  intros Hop [Hb Hfit] Hc Hp Hi. unfold place_batch in Hp. destruct (place j captured) as [p0 errs0] eqn:Ep.
  injection Hp as Hj' -> ->. rewrite Hi in Hj'. simpl in Hj'. subst j'.
  destruct (place_batch_ok _ _ _ _ _ _ _ _ _ Hop Hb Hfit Hc Ep) as (Hwf&most&ps'&[_ Him He _ _ Hcm Hw]&_).
  destruct Hw as [(_&->&_)|(Hps&_&_&Hmin)].
  2: { rewrite Hi in Him. rewrite (concat_nil_pieces _ _ _ _ _ Hps (eq_sym Him)) in Hmin. constants; lia. }
  pose proof (open_bounds _ _ _ _ _ Hop) as (_&_&Ht0&Hwn&_&H62&_).
  apply (kept_landed (with_counts j (placed j + 1) (completed j)) acked captured p errs [] (written j)); try done; [|left; by rewrite Hi].
  apply (placed_lands j [] (written j)); try done; lia.
Qed.

Lemma held_keeps w w1 j ph :
  reachable w -> w_holder w = Some (j, ph) -> served ph = true -> held_step w w1 ->
  exists j1 ph1, w_holder w1 = Some (j1, ph1) /\ served ph1 = true /\ kept j (w_acked w) j1 (w_acked w1).
Proof.
  intros Hr Hh Hs [Hst Hsome]. destruct (reachable_open w j ph Hr Hh Hs) as (ps0&Hop&Hph).
  destruct Hst; cbn [w_holder w_acked w_file w_hist] in *; try discriminate Hh; try (injection Hh as <- <-);
    try (destruct Hsome; discriminate); try discriminate Hs; eexists _, _; (split; [reflexivity|]).
  - split; [done|]. apply kept_core. by destruct (CommitHooked_ok _ _ _ _ _ H1 H2).
  - split; [done|]. by apply kept_core.
  - split; [done|]. by eapply kept_trim.
  - split; [done|]. apply kept_core. by destruct (ReadFence_ok _ _ _ H1).
  - split; [done|]. apply kept_core. apply CheckLease_ok.
  - split; [done|]. by apply kept_core.
  - split; [by destruct t|]. apply kept_core. by eapply turn_core.
  - split; [done|]. by eapply kept_empty.
  - split; [done|]. by eapply kept_placed.
  - split; [done|]. destruct Hph as (ps'&[_ _ Hps Hn He _ Hl]). eapply (kept_landed _ _ _ _ _ ps'); [exact Hps|done|done|].
    right. apply pieces_ok_le in Hps. lia.
  - split; [done|]. by apply kept_same.
  - split; [done|]. by apply kept_same.
  - split; [done|]. by apply kept_same.
  - split; [by destruct closing|]. by apply kept_same.
  - split; [by destruct closing|]. by apply kept_same.
Qed.

Lemma held_run w w1 j ph :
  reachable w -> w_holder w = Some (j, ph) -> served ph = true -> rtc held_step w w1 ->
  exists j1 ph1, w_holder w1 = Some (j1, ph1) /\ served ph1 = true /\ kept j (w_acked w) j1 (w_acked w1).
Proof.
  intros Hr Hh Hs Hrun. revert j ph Hr Hh Hs. induction Hrun as [w|w w1 w2 Hst _ IH]; intros j ph Hr Hh Hs.
  { exists j, ph. split; [done|]. split; [done|]. by apply kept_same. }
  destruct (held_keeps w w1 j ph Hr Hh Hs Hst) as (j1&ph1&Hh1&Hs1&K1&K2&K3&K4).
  destruct (IH j1 ph1 (reach_step _ _ Hr (proj1 Hst)) Hh1 Hs1) as (j2&ph2&Hh2&Hs2&L1&L2&L3&L4).
  exists j2, ph2. split; [done|]. split; [done|]. split; [congruence|]. split; [lia|]. split.
  - intros x Hx Hd Hlt. apply K3; [|done..]. apply L3; [done..|lia].
  - intros q e Hin Hlt. apply K4; [|done]. apply L4; [done|lia].
Qed.

(** ** Reads *)

(** A read, from the state in which it has collected what it wants: each of its
    reads of the disk finds the disk as it is in a later state of the same holder,
    and the last of them is over by [w']. *)
Record reading (w : world) (j : Journal) (ds : nat -> option disk) (w' : world) : Prop := {
  rd_reachable : reachable w;
  rd_open : exists ph, w_holder w = Some (j, ph) /\ served ph = true;
  rd_run : rtc held_step w w';
  rd_disk n d : ds n = Some d -> exists wn, rtc held_step w wn /\ rtc held_step wn w' /\ possible (w_file wn) d;
}.

(** The ways a read may fail: an entry it wanted was trimmed while it read, a read
    of the disk failed, or its caller stopped it. *)
Definition read_fails (w' : world) (ds : nat -> option disk) (yield : Entry -> option jerror) (wanted : list indexed) (out : list Entry)
  (k : jerror) : Prop :=
  (k = ErrTrimmed /\ exists x, x ∈ wanted /\ ~ live_in w' x) \/ (k = ErrIO /\ exists n, ds n = None) \/
  (exists e, e ∈ out /\ yield e = Some k).

Section Reading.
Context (w : world) (j : Journal) (ds : nat -> option disk) (w' : world) (yield : Entry -> option jerror).
Hypothesis Hrd : reading w j ds w'.

(** A disk some read of it may have found. *)
Definition seen (d : disk) : Prop := exists wn, rtc held_step w wn /\ rtc held_step wn w' /\ possible (w_file wn) d.

Definition windowed (r : ringReader) : Prop := exists d, seen d /\ coherent d r.

Lemma try_seen n stop r off len b r' :
  windowed r -> 0 <= len -> off + len <= stop -> ringReader_try (ds n) stop r off len = Some (b, r') ->
  windowed r' /\ exists d, seen d /\ b = bytes_at d off len.
Proof.
  intros (d&Hd&Hc) Hl Hs. unfold ringReader_try, ringReader_read.
  destruct ((off >=? r_at r) && (off + len <=? r_at r + zlen (window r))) eqn:E; zbool.
  - assert (slice (window r) (off - r_at r) (off - r_at r + len) = bytes_at d off len) as ->.
    { rewrite Hc, slice_bytes_at by lia. f_equal; lia. }
    destruct (ds n); intros [= <- <-]; (split; [by exists d|by exists d]).
  - destruct (ds n) as [dn|] eqn:En; [|done]. intros [= <- <-]. pose proof (rd_disk _ _ _ _ Hrd n dn En) as Hdn.
    split; [exists dn; split; [done|]; unfold coherent; simpl; by rewrite zlen_bytes_at by lia|].
    exists dn. split; [done|]. rewrite slice_bytes_at by lia. f_equal; lia.
Qed.

(** What a read hands on for an index entry: an entry at its position, and where
    the entry is still held at the end of the read, that entry. *)
Definition read_as (x : indexed) (e : Entry) : Prop :=
  Position e = i_position x /\
  (live_in w' x -> VM e = i_vm x /\ Epoch e = i_epoch x /\
     forall o, (i_position x, o) ∈ w_acked w' -> e = at_position o (i_position x)).

(** An entry held at the end of the read decodes from every disk it may find. *)
Lemma seen_entry d x :
  seen d -> x ∈ live j -> dead x = false -> live_in w' x ->
  exists h e, decodeEntry (bytes_at d (ringStart j + i_position x mod ringLength j) (i_length x)) = Ok (h, e) /\ kind h = kindBlocks /\
    position h = i_position x /\ generation h = j_generation j /\ read_as x e.
Proof.
  intros (wn&H1&H2&Hp) Hx Hd Hw'. destruct (rd_open _ _ _ _ Hrd) as (ph&Hh&Hs). pose proof (rd_reachable _ _ _ _ Hrd) as Hr.
  destruct (reachable_open w j ph Hr Hh Hs) as (ps&Hop&_). pose proof (live_written _ _ _ _ _ Hop x Hx Hd) as Hlt.
  destruct (held_run w wn j ph Hr Hh Hs H1) as (jn&phn&Hhn&Hsn&[= EL EG ES]&K2&_&_).
  pose proof (held_reachable _ _ Hr H1) as Hrn.
  destruct (held_run wn w' jn phn Hrn Hhn Hsn H2) as (j'&ph'&Hh'&Hs'&_&_&L3&L4).
  destruct Hw' as (j0&ph0&Hh0&_&Hx'&_). rewrite Hh' in Hh0. injection Hh0 as <- <-.
  destruct (reachable_open wn jn phn Hrn Hhn Hsn) as (psn&Hopn&_).
  destruct (possible_entry _ _ _ _ _ Hopn d x Hp (L3 x Hx' Hd ltac:(lia)) Hd) as (_&_&h&e&Hdec&Hk&Hps&Hg&Hv&He&Hpos&Ho).
  rewrite EL, EG in Hdec. rewrite ES in Hg. exists h, e. split_and!; try done. split; [done|]. intros _. split_and!; try done.
  intros o Hin. apply Ho, L4; [done|lia].
Qed.

Lemma decodeEntry_position b h e : decodeEntry b = Ok (h, e) -> kind h = kindBlocks -> Position e = position h.
Proof.
  unfold decodeEntry. destruct (checkEntry b) as [h0|]; simpl; [|done]. case_bool_decide as Hp; intros [= <- <-] Hk; [|done].
  by rewrite Hk in Hp.
Qed.

(** How a read ends. *)
Definition ends_with (xs : list indexed) (out : list Entry) (err : option jerror) : Prop :=
  match err with
  | None => length out = length xs
  | Some k => read_fails w' ds yield xs out k
  end.

Lemma read_entries_spec xs r :
  windowed r -> Forall (fun x => x ∈ live j /\ dead x = false) xs ->
  let '(out, err) := read_entries ds yield j r xs in Forall2 read_as (take (length out) xs) out /\ ends_with xs out err.
Proof.
  intros Hr Hxs. revert r Hr. induction Hxs as [|x xs [Hx Hd] _ IH]; intros r Hr; [by split; [constructor|]|].
  destruct (rd_open _ _ _ _ Hrd) as (ph&Hh&Hs).
  destruct (reachable_open w j ph (rd_reachable _ _ _ _ Hrd) Hh Hs) as (ps&Hop&_).
  destruct (possible_entry _ _ _ _ _ Hop (durable (w_file w)) x (possible_durable _) Hx Hd) as (Hl0&Hroom&_).
  cbn [read_entries]. unfold offset. destruct (ringReader_try _ _ _ _ _) as [[b r']|] eqn:Et.
  2: { split; [constructor|]. right. left. split; [done|]. exists (length xs). unfold ringReader_try in Et. by destruct (ds (length xs)). }
  apply try_seen in Et as (Hr'&d&Hd'&->); [|done|done|lia].
  assert (forall k, k = ErrTrimmed -> ~ live_in w' x -> ends_with (x :: xs) [] (Some k)) as Htrim
    by (intros k -> Hn; left; split; [done|]; exists x; split; [left|done]).
  destruct (decodeEntry _) as [[h e]|] eqn:Edec.
  2: { split; [constructor|]. apply Htrim; [done|]. intros Hlive. destruct (seen_entry d x Hd' Hx Hd Hlive) as (h'&e'&E&_). congruence. }
  destruct (_ || _) eqn:Ec.
  { split; [constructor|]. apply Htrim; [done|]. intros Hlive. destruct (seen_entry d x Hd' Hx Hd Hlive) as (h'&e'&E&Hk&Hp&Hg&_).
    rewrite Edec in E. injection E as <- <-. rewrite Hk, Hp, Hg, !Z.eqb_refl, bool_decide_true in Ec by done. discriminate. }
  apply orb_false_iff in Ec as [[Ek%negb_false_iff%bool_decide_eq_true Ep]%orb_false_iff _]. zbool.
  assert (read_as x e) as Hre.
  { split; [rewrite (decodeEntry_position _ _ _ Edec Ek); lia|]. intros Hlive.
    destruct (seen_entry d x Hd' Hx Hd Hlive) as (h'&e'&E&_&_&_&_&Hall). rewrite Edec in E. injection E as <- <-. by apply Hall. }
  destruct (yield e) as [k|] eqn:Ey.
  { cbn [length take]. rewrite take_0. split; [by constructor; [|constructor]|]. right. right. exists e. split; [left|done]. }
  specialize (IH r' Hr'). destruct (read_entries ds yield j r' xs) as [rest err]. destruct IH as [Hf He]. cbn [length take].
  split; [by constructor|]. destruct err as [k|]; [|cbn in *; lia]. destruct He as [(->&y&Hy&Hny)|[He|(y&Hy&Eyy)]].
  - left. split; [done|]. exists y. split; [by right|done].
  - right. by left.
  - right. right. exists y. split; [by right|done].
Qed.

Lemma reading_spec rq :
  let '(out, err) := Read ds yield j rq in Forall2 read_as (take (length out) (wanted j rq)) out /\ ends_with (wanted j rq) out err.
Proof.
  destruct (rd_open _ _ _ _ Hrd) as (ph&Hh&Hs).
  destruct (reachable_open w j ph (rd_reachable _ _ _ _ Hrd) Hh Hs) as (ps&Hop&_). apply read_entries_spec.
  - exists (durable (w_file w)). split; [|reflexivity]. exists w. split_and!; [done|apply Hrd|apply possible_durable].
  - apply Forall_forall. intros x Hx. apply (wanted_spec _ _ _ _ _ _ _ Hop) in Hx. tauto.
Qed.

(** An acknowledged entry no trim covered by the end of the read is among what a
    read that ends well hands on. *)
Lemma Read_acked rq out q e :
  Read ds yield j rq = (out, None) -> (q, e) ∈ w_acked w -> (q, e) ∈ w_acked w' ->
  rq_VM rq = VM e -> rq_Epoch rq = Epoch e -> rq_After rq < q -> at_position e q ∈ out.
Proof.
  intros Hread Hin Hin' Hv He Ha. pose proof (reading_spec rq) as Hsp. rewrite Hread in Hsp. destruct Hsp as [Hf Hlen]. cbn in Hlen.
  rewrite take_ge in Hf by lia. destruct (rd_open _ _ _ _ Hrd) as (ph&Hh&Hs). pose proof (rd_reachable _ _ _ _ Hrd) as Hr.
  destruct (reachable_open w j ph Hr Hh Hs) as (ps&Hop&_). destruct (acked_live _ _ _ _ _ Hop q e Hin) as [Hx Hd].
  destruct (held_run w w' j ph Hr Hh Hs (rd_run _ _ _ _ Hrd)) as (j'&ph'&Hh'&Hs'&_).
  destruct (reachable_open w' j' ph' (held_reachable _ _ Hr (rd_run _ _ _ _ Hrd)) Hh' Hs') as (ps'&Hop'&_).
  destruct (acked_live _ _ _ _ _ Hop' q e Hin') as [Hx' Hd'].
  assert (index_of e q ∈ wanted j rq) as (i&Hi)%list_elem_of_lookup by (by apply (wanted_spec _ _ _ _ _ _ _ Hop)).
  destruct (Forall2_lookup_l _ _ _ _ _ Hf Hi) as (o&Ho&_&Hall). destruct Hall as (_&_&Hall); [by exists j', ph'|].
  specialize (Hall e Hin'). cbn [index_of i_position] in Hall. rewrite <- Hall. by eapply list_elem_of_lookup_2.
Qed.

End Reading.

(** C2: What a commit was answered for is never lost.  In every state the
    journal's system reaches, through any commits of at most [maxRoom] bytes, failed
    and torn writes, lost power, detaches, reopens and trims, a read of its VM and
    epoch from before its position that ends well has handed on every acknowledged
    entry, as it was committed, that no trim covered by the end of the read; other
    callers and the writer go on while it reads, and unsynced bytes may show.  A read
    fails only for an entry trimmed meanwhile, a failed read of the disk, or its
    caller. *)
Theorem acknowledged_entries_are_read w j ds w' yield rq q e :
  reading w j ds w' -> (q, e) ∈ w_acked w -> (q, e) ∈ w_acked w' -> rq_VM rq = VM e -> rq_Epoch rq = Epoch e -> rq_After rq < q ->
  let '(out, err) := Read ds yield j rq in
  match err with None => at_position e q ∈ out | Some k => read_fails w' ds yield (wanted j rq) out k end.
Proof.
  intros Hrd Hin Hin' Hv He Ha. pose proof (reading_spec w j ds w' yield Hrd rq) as Hsp. destruct (Read ds yield j rq) as [out [k|]] eqn:E.
  - exact (proj2 Hsp).
  - by eapply Read_acked.
Qed.

(** C7: A read is final.  Once a read has fenced a VM at its reader's epoch and
    every batch placed by then is complete, a read that ends well has handed on every
    entry of the older epoch that the journal's holder has acknowledged or ever will,
    and that is not trimmed: no entry of an older epoch is acknowledged afterwards.
    Commits ask for at most [maxRoom] bytes; a read fails only for an entry trimmed
    meanwhile, a failed read of the disk, or its caller. *)
Theorem fenced_reads_are_final w w1 j1 ph1 w2 j2 w3 w4 ds yield rq j0 :
  reachable w -> step w w1 ->
  w_holder w = Some (j0, ph1) -> ReadFence j0 rq = Ok j1 -> w_holder w1 = Some (j1, ph1) -> served ph1 = true ->
  rtc held_step w1 w2 -> placed j1 <= completed j2 -> reading w2 j2 ds w3 -> rtc held_step w3 w4 ->
  let '(out, err) := Read ds yield j2 rq in
  match err with
  | None => forall q e, (q, e) ∈ w_acked w4 -> VM e = rq_VM rq -> Epoch e = rq_Epoch rq -> rq_After rq < q -> at_position e q ∈ out
  | Some k => read_fails w3 ds yield (wanted j2 rq) out k
  end.
Proof.
  intros Hr Hst Hh0 Hfe Hh1 Hs1 H12 Hc Hrd H34. pose proof (reach_step _ _ Hr Hst) as Hr1.
  destruct (ReadFence_ok _ _ _ Hfe) as (_&_&HR&_&_&_&Hlt).
  assert (fenced_at (rq_VM rq) (rq_Reader rq) (placed j1) w1) as Hf1.
  { exists j1, ph1. split_and!; try done. destruct ph1; try done. lia. }
  destruct (fence_run _ _ _ _ _ Hr1 Hf1 H12) as (Hf2&_&_). pose proof (held_reachable _ _ Hr1 H12) as Hr2.
  pose proof (rd_run _ _ _ _ Hrd) as H23. pose proof (held_reachable _ _ Hr2 H23) as Hr3.
  destruct (fence_run _ _ _ _ _ Hr2 Hf2 H23) as (Hf3&Hd3&Hold3). destruct (fence_run _ _ _ _ _ Hr3 Hf3 H34) as (_&_&Hold4).
  assert (placed j1 <= done_batches w2) as Hdone.
  { destruct (rd_open _ _ _ _ Hrd) as (ph&Hh2&_). unfold done_batches. by rewrite Hh2. }
  pose proof (reading_spec w2 j2 ds w3 yield Hrd rq) as Hsp. destruct (Read ds yield j2 rq) as [out [k|]] eqn:E; [exact (proj2 Hsp)|].
  intros q e Hin Hv He Ha. assert ((q, e) ∈ w_acked w3) as Hin3 by (apply Hold4; [lia|done|done|lia]).
  eapply Read_acked; [done|exact E| |done..]. apply Hold3; [done|done|done|lia].
Qed.

(** C29: A read hands on entries in position order: at the positions, in order, of
    the entries of the VM and epoch it names, held after the position it names when
    it collects them, all of them if it ends well and otherwise those before the
    failure; and one still held at the end of the read is of that VM and epoch.  It
    fails only for an entry trimmed meanwhile, a failed read of the disk, or its
    caller.  Commits ask for at most [maxRoom] bytes. *)
Theorem reads_are_in_order w j ds w' yield rq :
  reading w j ds w' ->
  let '(out, err) := Read ds yield j rq in
  Position <$> out = i_position <$> take (length out) (wanted j rq) /\ Sorted Z.le (Position <$> out) /\
  Forall (fun p => rq_After rq < p) (Position <$> out) /\
  Forall2 (fun x e => live_in w' x -> VM e = rq_VM rq /\ Epoch e = rq_Epoch rq) (take (length out) (wanted j rq)) out /\
  match err with None => length out = length (wanted j rq) | Some k => read_fails w' ds yield (wanted j rq) out k end.
Proof.
  intros Hrd. pose proof (reading_spec w j ds w' yield Hrd rq) as Hsp. destruct (Read ds yield j rq) as [out err] eqn:E. destruct Hsp as [Hf He].
  destruct (rd_open _ _ _ _ Hrd) as (ph&Hh&Hs). destruct (reachable_open w j ph (rd_reachable _ _ _ _ Hrd) Hh Hs) as (ps&Hop&_).
  assert (Position <$> out = i_position <$> take (length out) (wanted j rq)) as Hpos.
  { clear He E. revert Hf. generalize (take (length out) (wanted j rq)). intros xs Hf.
    induction Hf as [|x e xs out [Ep _] _ IH]; [done|]. rewrite !fmap_cons. by f_equal. }
  assert (Forall (fun x => i_vm x = rq_VM rq /\ i_epoch x = rq_Epoch rq /\ rq_After rq < i_position x) (take (length out) (wanted j rq))) as Hwant.
  { apply Forall_take, Forall_forall. intros x Hx. apply (wanted_spec _ _ _ _ _ _ _ Hop) in Hx. tauto. }
  split_and!; [done| | | |by destruct err].
  - rewrite Hpos, fmap_take. apply Sorted_take, wanted_sorted.
  - rewrite Hpos, Forall_fmap. eapply Forall_impl; [exact Hwant|]. simpl. tauto.
  - clear -Hf Hwant. induction Hf as [|x e xs out [_ Hx] _ IH]; [constructor|]. apply Forall_cons in Hwant as [(Hv&Hep&_) Hw].
    constructor; [|by apply IH]. intros (E1&E2&_)%Hx. by rewrite E1, E2.
Qed.

(** ** Batches *)

(** A batch that is placed with an image has pieces. *)
Lemma batch_lays w j batch captured j' p errs :
  reachable w -> w_holder w = Some (j, Forming batch) -> Forall2 captures batch captured ->
  place_batch j captured = (j', (p, errs)) -> image p <> [] ->
  exists ps, lays j p ps /\ p_start p = written j /\ next j' = p_end p /\ p_end p mod BlockBytes = 0 /\
    next j <= p_end p <= s_tail (header j) + ringLength j.
Proof.
  intros Hr Hh Hc Hp Hi. destruct (reachable_open w _ _ Hr Hh eq_refl) as (ps&Hop&Hb&Hfit).
  unfold place_batch in Hp. destruct (place j captured) as [p0 errs0] eqn:Ep. injection Hp as Hj' -> ->.
  destruct (place_batch_ok _ _ _ _ _ _ _ _ _ Hop Hb Hfit Hc Ep) as (_&most&ps0&[Hst Him _ _ _ _ Hw]&Hmost&_).
  destruct Hw as [(?&_)|(Hps&Hal&Hnx&_)]; [done|]. exists ps0.
  assert (next j' = p_end p) as Hn'.
  { rewrite <- Hj'. destruct (_ =? _) eqn:E; [|done]. zbool. by destruct (image p). }
  split; [by split; [done|rewrite Hst]|]. split_and!; try done; lia.
Qed.

Lemma batch_image w j batch captured j' p errs :
  reachable w -> w_holder w = Some (j, Forming batch) -> Forall2 captures batch captured ->
  place_batch j captured = (j', (p, errs)) -> entries p <> [] -> image p <> [].
Proof.
  intros Hr Hh Hc Hp He Hi. destruct (reachable_open w _ _ Hr Hh eq_refl) as (ps&Hop&Hb&Hfit).
  unfold place_batch in Hp. destruct (place j captured) as [p0 errs0] eqn:Ep. injection Hp as Hj' -> ->.
  destruct (place_batch_ok _ _ _ _ _ _ _ _ _ Hop Hb Hfit Hc Ep) as (_&most&ps0&[_ Him Hen _ _ _ Hw]&_).
  destruct Hw as [(_&->&_)|(Hps&_&_&Hmin)]; [done|]. rewrite Hi in Him.
  rewrite (concat_nil_pieces _ _ _ _ _ Hps (eq_sym Him)) in Hmin. constants; lia.
Qed.

(** C10: A batch spares what the ring holds.  It starts where the synced run ends,
    ends on a block boundary before the ring comes round to the durable tail, and
    no byte it writes is one of the header slots or of the run from the durable
    tail, which holds every live entry.  Commits ask for at most [maxRoom] bytes. *)
Theorem batches_spare_the_run w j batch captured j' p errs :
  reachable w -> w_holder w = Some (j, Forming batch) -> Forall2 captures batch captured ->
  place_batch j captured = (j', (p, errs)) -> image p <> [] -> next j' < 2 ^ 62 ->
  p_start p = written j /\ p_end p mod BlockBytes = 0 /\ p_end p <= s_tail (header j) + ringLength j /\
  (forall i, i < ringOffset -> covers (write j' p) i = false) /\
  (forall y, s_tail (header j) <= y < written j -> covers (write j' p) (ringOffset + y mod ringLength j) = false).
Proof.
  intros Hr Hh Hc Hp Hi H62. destruct (batch_lays _ _ _ _ _ _ _ Hr Hh Hc Hp Hi) as (ps'&Hlay&Hst&Hn'&Hal&Hle&Hend).
  do 3 (split; [done|]). pose proof Hlay as [Him Hps].
  destruct (reachable_open w _ _ Hr Hh eq_refl) as (ps&Hop&_). pose proof (open_bounds _ _ _ _ _ Hop) as ([HL _]&_&Ht0&Hwn&_).
  pose proof (op_geometry _ _ _ _ _ Hop) as (GS&GL&Gg&_).
  assert (ringLength j' = ringLength j /\ ringStart j' = ringStart j) as [EL ES].
  { unfold place_batch in Hp. destruct (place j captured). destruct (_ =? _); by injection Hp as <- _ _. }
  rewrite Hst in Hps.
  assert (p_end p = written j + zlen (image p)) as Hlen by (rewrite Him; exact (pieces_ok_length _ _ _ _ _ Hps)).
  destruct (write_ring_spec (length (image p)) j' (written j) (image p)) as (HA&HB&_);
    [constants; lia|lia|lia|unfold zlen; lia|].
  assert (forall i, covers (write j' p) i = true -> exists y, written j <= y < p_end p /\ i = ringOffset + y mod ringLength j) as Hcov.
  { intros i (wr&Hw&b&Hb)%covers_spec. unfold write in Hw. rewrite Hst in Hw. destruct (HB wr i b Hw Hb) as (y&Hy&->&_).
    exists y. rewrite EL, ES, GS. split; [lia|done]. }
  split.
  - intros i Hlt. apply not_true_is_false. intros (y&_&->)%Hcov. pose proof (Z.mod_pos_bound y (ringLength j)). constants; lia.
  - intros y Hy. apply not_true_is_false. intros (y'&Hy'&E)%Hcov.
    assert (y = y') by (apply (phys_inj (ringLength j) (s_tail (header j))); constants; lia). lia.
Qed.

(** C12: Opening ends: reading a disk back always finishes, within one turn for
    each byte of the ring, and the journal it returns is usable. *)
Theorem reading_back_ends w j s at_ d :
  reachable w -> w_holder w = Some (j, Opening s at_) -> possible (sync (w_file w) [(at_ * slotBytes, encodeSlot s)]) d ->
  exists j', readBack d (with_header j s at_) = Some j' /\ written j' = next j' /\ tail j' <= written j' <= s_tail s + ringLength j'.
Proof.
  intros Hr Hh Hp. pose proof (inv_reachable _ Hr) as Hi. destruct w as [f h hist acked]. cbn [w_holder w_file] in *. subst h.
  destruct Hi as [Ha (Hfr&Hgeo&Hop&Hg)]. cbn [w_holder w_file w_hist w_acked] in *.
  destruct (opening_synced _ _ _ _ _ _ Hgeo Hop Hg) as (ps&W&Hd&_). destruct (possible_ring _ _ _ _ _ _ _ _ _ Hd Hp) as (_&Hon&_).
  pose proof Hgeo as (GS&GL&Gg&_). pose proof (ok_ring _ _ _ _ _ _ _ _ Hd) as (_&[HL _]&HL60).
  pose proof (ok_ends _ _ _ _ _ _ _ _ Hd) as (Ht0&HtW&_&HW&H62). constants.
  destruct (readBack_spec d (with_header j s at_) ps W) as (ps2&stop&_&_&E); simpl; rewrite ?GL, ?Gg, ?GS;
    [lia|lia|exact (ok_run _ _ _ _ _ _ _ _ Hd)|exact HW|exact Hon|].
  eexists. split; [exact E|]. destruct (opened_ok _ _ _ _ _ _ _ _ Ha Hfr Hgeo Hop Hg Hp E) as (ps'&Hop').
  set (j' := settle_tail _) in *. pose proof (open_bounds _ _ _ _ _ Hop') as (_&_&_&Hwn&Hle&_).
  destruct (op_index _ _ _ _ _ Hop') as (pre&post&Hix). pose proof (index_post _ _ _ _ _ Hix (open_run _ _ _ _ _ Hop')) as Hpost%pieces_ok_le.
  assert (written j' = next j') as -> by (unfold j'; by rewrite settle_tail_eq).
  assert (header j' = s) as Hs.
  { unfold j'. rewrite settle_tail_eq. simpl.
    by destruct (index_all_fields (flat_map piece_index (ps ++ ps2)) (with_header j s at_)) as (_&_&_&_&->&_). }
  rewrite Hs in Hle. split; [done|lia].
Qed.

(** ** Progress *)

(** The writer's own steps, when what it asks of the disk succeeds: no caller, no
    failure, no loss of the holder. *)
Inductive writer_step : world -> world -> Prop :=
  | own_turn f j hist acked since j' t :
      nextBatch j since = (j', t) ->
      writer_step (mkWorld f (Some (j, Waiting)) hist acked)
        (mkWorld f (Some (j', match t with
           | Stop _ _ => Returned | WriteHint => HintDue false | Take batch => Forming batch | AskTrim | Wait => Waiting end))
           hist acked)
  | own_empty f j hist acked batch captured j' p errs :
      Forall2 captures batch captured -> place_batch j captured = (j', (p, errs)) -> image p = [] ->
      writer_step (mkWorld f (Some (j, Forming batch)) hist acked)
        (mkWorld f (Some ((complete j' p errs None).1, Waiting)) hist
           (acked ++ acknowledged captured (complete j' p errs None).2))
  | own_write f j hist acked batch captured j' p errs ps :
      Forall2 captures batch captured -> place_batch j captured = (j', (p, errs)) -> image p <> [] -> next j' < 2 ^ 62 ->
      lays j p ps ->
      writer_step (mkWorld f (Some (j, Forming batch)) hist acked)
        (mkWorld (issue f (write j' p)) (Some (j', InFlight captured p errs)) (hist ++ ps) acked)
  | own_synced f j hist acked captured p errs :
      writer_step (mkWorld f (Some (j, InFlight captured p errs)) hist acked)
        (mkWorld (sync f (write j p)) (Some ((complete j p errs None).1, Waiting)) hist
           (acked ++ acknowledged captured (complete j p errs None).2))
  | own_hint f j hist acked s at_ :
      hint_slot j false = (s, at_) -> counter (header j) < 2 ^ 64 - 1 ->
      writer_step (mkWorld f (Some (j, HintDue false)) hist acked)
        (mkWorld (issue f [(at_ * slotBytes, encodeSlot s)]) (Some (j, Hinting s at_ false)) hist acked)
  | own_hinted f j hist acked s at_ :
      writer_step (mkWorld f (Some (j, Hinting s at_ false)) hist acked)
        (mkWorld (sync f [(at_ * slotBytes, encodeSlot s)]) (Some (with_header j s at_, Waiting)) hist acked).

Lemma writer_step_step w w' : writer_step w w' -> step w w'.
Proof.
  destruct 1; [by eapply step_turn|by eapply step_empty|by eapply step_write|apply step_synced|by apply (step_hint f j hist acked false)|].
  apply (step_hinted f j hist acked s at_ false).
Qed.

Lemma writer_reachable n w w' : reachable w -> bsteps writer_step n w w' -> reachable w'.
Proof.
  intros Hr. induction 1 as [|n w w1 w' Hs _ IH]; [done|]. apply IH. apply (reach_step w); [done|by apply writer_step_step].
Qed.

Lemma open_front f j hist acked ps : open_ok f j hist acked ps -> live j = [] -> tail j = written j.
Proof. intros Hop E. destruct (op_index _ _ _ _ _ Hop) as (pre&post&[_ _ _ _ Hf _]). by rewrite E in Hf. Qed.

Lemma fit_least next limit queue total largest n : (n <= fit next limit queue total largest n)%nat.
Proof.
  revert total largest n. induction queue as [|c queue IH]; intros; cbn [fit]; [lia|]. destruct (_ && _); [lia|].
  destruct (_ >? _); [lia|]. etrans; [|apply IH]. lia.
Qed.

(** A commit that was accepted fits on a ring with nothing before the next
    position. *)
Lemma fits_emptied f j hist acked ps c rest :
  open_ok f j hist acked ps -> queue j = c :: rest -> s_tail (header j) = next j -> (0 < fitting j)%nat.
Proof.
  intros Hop Hq Ht. pose proof (open_bounds _ _ _ _ _ Hop) as (_&HL&Ht0&_&_&H62&_). pose proof (op_queue _ _ _ _ _ Hop) as Hc.
  rewrite Hq in Hc. apply Forall_cons in Hc as [[Hc0 Hc] _]. unfold fitting. rewrite Hq, Ht. cbn [fit].
  change (0 <? Z.of_nat 0) with false. cbn [andb]. rewrite Z.add_0_l, Z.max_r by done.
  assert (room c <= maxRoom) by (unfold needs, maxRoom in *; constants; lia). rewrite int64_small by (unfold i64, maxRoom in *; lia).
  rewrite reserve_needs by lia. rewrite (wrap64_small (needs _ _)) by (unfold u64, needs in *; constants; lia).
  rewrite !wrap64_small by (unfold u64, needs in *; constants; lia).
  destruct (_ >? _) eqn:E; zbool; [lia|]. pose proof (fit_least (next j) (next j + ringLength j) rest (room c) (room c) 1). lia.
Qed.

Lemma turn_takes w j c rest (since : Z) :
  w_holder w = Some (j, Waiting) -> refusal j = None -> queue j = c :: rest -> (0 < fitting j)%nat ->
  tail j = s_tail (header j) ->
  exists w' j' batch, writer_step w w' /\ w_holder w' = Some (j', Forming (c :: batch)).
Proof.
  intros Hh Href Hq Hfit Ht. destruct w as [f h hist acked]. simpl in Hh. subst h.
  eexists _, _, (take (Nat.pred (fitting j)) rest). split; [apply (own_turn _ _ _ _ since); unfold nextBatch; rewrite Href, Ht, Z.eqb_refl; cbn [negb andb]|].
  { rewrite (proj2 (Z.ltb_lt 0 (Z.of_nat (fitting j))) ltac:(lia)). reflexivity. }
  assert (take (fitting j) (queue j) = c :: take (Nat.pred (fitting j)) rest) as -> by (rewrite Hq; by destruct (fitting j); [lia|]). reflexivity.
Qed.

Lemma hint_run w j :
  reachable w -> w_holder w = Some (j, Waiting) -> refusal j = None -> counter (header j) < 2 ^ 64 - 1 ->
  exists w' s at_, bsteps writer_step 3 w w' /\ w_holder w' = Some (with_header j s at_, Waiting) /\ s_tail s = tail j /\
    counter s <= counter (header j) + 1.
Proof.
  intros Hr Hh Href Hc. pose proof (reachable_open w _ _ Hr Hh eq_refl) as (ps&Hop&_).
  destruct w as [f h hist acked]. simpl in Hh, Hop. subst h.
  destruct (decide (tail j = s_tail (header j))) as [E|Hne].
  - exists (mkWorld f (Some (j, Waiting)) hist acked), (header j), (current j). split; [apply bsteps_refl|]. split; [by destruct j|]. split; [done|lia].
  - pose proof (hint_replaces f j hist acked ps false _ _ Hop eq_refl Hc) as (Hrep&Ht&_). eexists _, _, _. split_and!.
    + eapply bsteps_l.
      { apply (own_turn f j hist acked tailHintInterval j WriteHint). unfold nextBatch. rewrite Href.
        by rewrite (proj2 (Z.eqb_neq _ _) Hne). }
      eapply bsteps_l; [by apply (own_hint f j hist acked)|]. apply bsteps_once. apply own_hinted.
    + reflexivity.
    + done.
    + pose proof (rp_counter _ _ _ _ Hrep) as Ec. simpl in Ec |- *. lia.
Qed.

Lemma pad_failed_entries fuel j st : l_entries (pad_failed fuel j st) = l_entries st.
Proof.
  revert st. induction fuel as [|fuel IH]; intros st; [done|]. cbn [pad_failed]. destruct (_ <? _); [|done].
  unfold offset. cbv zeta. by rewrite IH.
Qed.

Lemma pads_only j p errs : place j [] = (p, errs) -> entries p = [].
Proof.
  unfold place. cbn [place_all]. pose proof (pad_failed_entries (Z.to_nat (next j - written j)) j (mkLayout (written j) [] [] [])) as E.
  destruct (_ && _); [by intros [= <- _]|]. intros [= <- _]. cbn [entries]. by destruct (_ >? _).
Qed.

(** The batch that only pads over a failed range. *)
Lemma pad_run w j c rest :
  reachable w -> w_holder w = Some (j, Waiting) -> refusal j = None -> queue j = c :: rest -> live j = [] ->
  tail j = s_tail (header j) -> written j < next j -> fitting j = 0%nat ->
  exists w' j', bsteps writer_step 3 w w' /\ w_holder w' = Some (j', Waiting) /\ refusal j' = None /\ queue j' = queue j /\ live j' = [] /\
    written j' = next j' /\ header j' = header j.
Proof.
  intros Hr Hh Href Hq Hl Ht Hlt Hfit. pose proof (reachable_open w _ _ Hr Hh eq_refl) as (ps&Hop&_).
  pose proof (open_bounds _ _ _ _ _ Hop) as (_&_&_&_&_&H62&_).
  destruct (place j []) as [p errs] eqn:Ep.
  destruct (place_batch_ok _ _ _ _ _ [] [] p errs Hop ltac:(by apply Forall_nil) ltac:(by left) ltac:(constructor) Ep)
    as (_&most&ps'&[Hst Him _ _ _ _ Hw]&_&Hm). specialize (Hm eq_refl).
  destruct Hw as [(_&_&?)|(Hps&_&Hnx&Hmin)]; [lia|].
  assert (zlen (image p) =? 0 = false) as Hz.
  { apply Z.eqb_neq. intros E. rewrite Him in E. rewrite (pieces_ok_length _ _ _ _ _ Hps) in Hmin. constants; lia. }
  destruct w as [f h hist acked]. simpl in Hh. subst h.
  assert (writer_step (mkWorld f (Some (j, Waiting)) hist acked) (mkWorld f (Some (j, Forming [])) hist acked)) as Hs1.
  { apply (own_turn f j hist acked 0 j (Take [])). unfold nextBatch. rewrite Href, Ht, Z.eqb_refl, Hfit, Hq. cbn [negb andb].
    change (0 <? Z.of_nat 0) with false. by rewrite (proj2 (Z.ltb_lt _ _) Hlt). }
  set (j1 := with_ends (with_counts j (placed j + 1) (completed j)) (tail j) (written j) (p_end p)).
  assert (place_batch j [] = (j1, (p, errs))) as Hpb by (unfold place_batch; rewrite Ep, Hz; reflexivity).
  eexists _, (complete j1 p errs None).1. split.
  { eapply bsteps_l; [exact Hs1|]. eapply bsteps_l; [eapply (own_write f j hist acked [] []); [constructor|exact Hpb| | |]|apply bsteps_once; apply own_synced].
    - intros E. by rewrite E in Hz.
    - simpl. lia.
    - split; [exact Him|]. by rewrite Hst. }
  cbn [w_holder]. split; [reflexivity|].
  destruct (complete_fields j1 p errs) as (EQ&EH&_&EN&_&EW&_). rewrite Hz in EW.
  assert (entries p = []) as He by (by eapply pads_only). split_and!; try done.
  - unfold complete. rewrite Hz, He. cbn [fst fold_left]. by rewrite settle_tail_eq.
  - unfold complete. rewrite Hz, He. cbn [fst fold_left]. rewrite settle_tail_eq. simpl. by rewrite Hl.
  - rewrite EW, EN. reflexivity.
Qed.

(** C11: A commit is never stuck behind an emptied ring.  Once trims have left
    nothing live, whatever failed range lies before the next position, the writer
    reaches the batch that holds the first commit in the queue in at most ten of its
    own steps, while no caller interferes and the disk takes what it writes: tail
    hints and at most one batch of pads.  Commits ask for at most [maxRoom] bytes. *)
Theorem emptied_ring_takes_the_next_commit w j c rest :
  reachable w -> w_holder w = Some (j, Waiting) -> refusal j = None -> queue j = c :: rest -> live j = [] ->
  counter (header j) < 2 ^ 64 - 2 ->
  exists w' j' batch, bsteps writer_step 10 w w' /\ w_holder w' = Some (j', Forming (c :: batch)).
Proof.
  intros Hr Hh Href Hq Hl Hc. destruct (hint_run w j Hr Hh Href ltac:(lia)) as (w1&s1&a1&Hrun1&Hh1&Ht1&Hc1).
  pose proof (writer_reachable _ _ _ Hr Hrun1) as Hr1. set (j1 := with_header j s1 a1) in *.
  assert (tail j1 = s_tail (header j1)) as Htj1 by done.
  destruct (decide (0 < fitting j1)%nat) as [Hf|Hf].
  { destruct (turn_takes w1 j1 c rest 0 Hh1 Href Hq Hf Htj1) as (w2&j2&b&Hs&Hh2). exists w2, j2, b.
    split; [|done]. apply (bsteps_weaken 4 10); [lia|]. by eapply bsteps_r. }
  pose proof (reachable_open w1 _ _ Hr1 Hh1 eq_refl) as (ps1&Hop1&_). pose proof (open_bounds _ _ _ _ _ Hop1) as (_&_&_&Hwn1&_).
  pose proof (open_front _ _ _ _ _ Hop1 Hl) as Htw1.
  assert (written j1 < next j1) as Hlt1.
  { destruct (decide (written j1 = next j1)); [|lia]. exfalso. apply Hf. by apply (fits_emptied _ _ _ _ _ c rest Hop1 Hq); congruence. }
  destruct (pad_run w1 j1 c rest Hr1 Hh1 Href Hq Hl Htj1 Hlt1 ltac:(lia)) as (w2&j2&Hrun2&Hh2&Href2&Hq2&Hl2&Hw2&Hhd2).
  pose proof (writer_reachable _ _ _ Hr1 Hrun2) as Hr2.
  destruct (hint_run w2 j2 Hr2 Hh2 Href2 ltac:(rewrite Hhd2; simpl; lia)) as (w3&s3&a3&Hrun3&Hh3&Ht3&_).
  pose proof (writer_reachable _ _ _ Hr2 Hrun3) as Hr3. set (j3 := with_header j2 s3 a3) in *.
  pose proof (reachable_open w3 _ _ Hr3 Hh3 eq_refl) as (ps3&Hop3&_).
  assert (queue j3 = c :: rest) as Hq3 by (rewrite <- Hq; exact Hq2).
  assert (s_tail (header j3) = next j3) as Hn3 by (pose proof (open_front _ _ _ _ _ Hop3 Hl2); simpl in *; congruence).
  destruct (turn_takes w3 j3 c rest 0 Hh3 Href2 Hq3 (fits_emptied _ _ _ _ _ c rest Hop3 Hq3 Hn3) (eq_sym Ht3)) as (w4&j4&b&Hs&Hh4).
  exists w4, j4, b. split; [|done]. apply (bsteps_trans 3 7 _ w1); [done|]. apply (bsteps_trans 3 4 _ w2); [done|]. by eapply bsteps_r.
Qed.

(** ** Trims *)

Definition held_entries (j : Journal) (v : string) (epoch : Z) : list indexed := default [] (h_entries <$> held_at (held_ j) v epoch).

Lemma held_entries_live live h j v epoch :
  live = Ring.live j -> h = held_ j -> held_ok live h -> held_entries j v epoch = filter (alive v epoch) live.
Proof. intros -> -> [Hh _]. unfold held_entries. rewrite Hh. by destruct (filter _ _). Qed.

Lemma live_after_tail f j hist acked ps x : open_ok f j hist acked ps -> x ∈ live j -> tail j <= i_position x.
Proof.
  intros Hop Hx. destruct (op_index _ _ _ _ _ Hop) as (pre&post&Hix). pose proof (index_post _ _ _ _ _ Hix (open_run _ _ _ _ _ Hop)) as Hpost.
  assert (undead x ∈ flat_map piece_index post) as Hin by (rewrite <- (ix_live _ _ _ _ _ Hix); by apply list_elem_of_fmap_2).
  apply list_elem_of_In, in_flat_map in Hin as ([q b]&Hp%list_elem_of_In&Hin).
  destruct (piece_index_cases (q, b)) as [E|(y&E&Hy&_)]; rewrite E in Hin; [done|]. destruct Hin as [->|[]]. simpl in Hy.
  destruct (pieces_ok_elem _ _ _ _ _ _ _ Hpost Hp) as (?&_). lia.
Qed.

(** C13: A trim frees exactly what it covers.  It leaves every other VM's entries,
    and of its own VM those of the epochs it names that lie after the covered
    positions; the tail moves on to the oldest entry left, or to the end of what
    is written when none is. *)
Theorem trims_free_what_they_cover w j ph v covered :
  reachable w -> w_holder w = Some (j, ph) -> served ph = true ->
  let j' := Trim j v covered in
  (forall u epoch, held_entries j' u epoch = filter (fun x => ~ (u = v /\ trimmed covered x = true)) (held_entries j u epoch)) /\
  tail j <= tail j' /\ (forall u epoch x, x ∈ held_entries j' u epoch -> tail j' <= i_position x) /\
  ((exists u epoch x, x ∈ held_entries j' u epoch /\ i_position x = tail j') \/
   (tail j' = written j' /\ forall u epoch, held_entries j' u epoch = [])).
Proof.
  intros Hr Hh Hs j'. destruct (reachable_open w j ph Hr Hh Hs) as (ps&Hop&Hph).
  destruct (trim_ok _ _ _ _ _ v covered _ Hop Hph) as [Hop' _]. fold j' in Hop'.
  destruct (op_index _ _ _ _ _ Hop) as (pre&post&Hix). destruct (op_index _ _ _ _ _ Hop') as (pre'&post'&Hix').
  assert (forall u epoch, held_entries j' u epoch = filter (alive u epoch) (live j')) as Hl'
    by (intros u epoch; apply (held_entries_live _ _ _ _ _ eq_refl eq_refl (ix_held _ _ _ _ _ Hix'))).
  assert (live j' = drop_dead (kill v covered <$> live j)) as Ej' by (unfold j', Trim; by rewrite settle_tail_eq).
  split_and!.
  - intros u epoch. rewrite Hl', Ej', filter_drop_dead, filter_kill.
    by rewrite (held_entries_live _ _ _ _ _ eq_refl eq_refl (ix_held _ _ _ _ _ Hix)).
  - apply (trim_index j ps (w_acked w) pre post); [by eapply open_u64|apply Hop|done|by eapply open_run].
  - intros u epoch x Hx. rewrite Hl' in Hx. apply list_elem_of_filter in Hx as [_ Hx]. by eapply live_after_tail.
  - pose proof (ix_front _ _ _ _ _ Hix') as Hfront. destruct (live j') as [|x l] eqn:El.
    + right. split; [exact Hfront|]. intros u epoch. by rewrite Hl'.
    + left. destruct Hfront as [Hd Ht]. exists (i_vm x), (i_epoch x), x. split; [|done]. rewrite Hl'.
      apply list_elem_of_filter. split; [done|by left].
Qed.

End Reads.

(** ** Witnesses *)

#[local] Existing Instance sum_checksum_class.

(** A disk of zeros, formatted, and a commit of one entry that lands. *)
Definition zero_disk : disk := fun _ => Byte.x00.

Definition sample_config : Config := mkConfig sample_identity (mkLease 1 sample_identity).

Definition format_slot : slot := mkSlot false 0 sample_identity 99 ringOffset 32768 32768 (mkLease 0 (zeros 16)).

Definition sample_opening : Journal := open_journal format_slot 1 sample_config.

Definition lease_slot : slot := mkSlot false 1 sample_identity 99 ringOffset 32768 32768 (mkLease 1 sample_identity).

Definition sample_open : Journal := settle_tail (with_ends (with_header sample_opening lease_slot 0) 0 32768 32768).

Definition sample_commit : commit := mkCommit 1 8000 false false.

Definition sample_queued : Journal := with_queue sample_open [sample_commit].

#[local] Transparent bytes_at decodeSlot.

Lemma zero_slot k : decodeSlot (slot_at zero_disk k) = Err errNoSlot.
Proof.
  unfold decodeSlot, slot_at.
  assert (slice (bytes_at zero_disk (k * slotBytes) slotBytes) 0 4 = zeros 4) as E.
  { rewrite slice_bytes_at by (unfold slotBytes; lia). reflexivity. }
  rewrite (bool_decide_false (slice (bytes_at _ _ _) 0 4 = _)) by (rewrite E; discriminate). by rewrite orb_true_r.
Qed.

Lemma zero_blank : blank zero_disk.
Proof. unfold blank. by rewrite readHeader_eq, !zero_slot. Qed.

Lemma zero_head d off n :
  (forall i, off <= i < off + 4 -> d i = Byte.x00) -> 4 <= n -> decodeHead (bytes_at d off n) = Err errNoEntry.
Proof.
  intros Hd Hn. assert (slice (bytes_at d off n) 0 4 = zeros 4) as E.
  { rewrite slice_bytes_at by lia. rewrite (bytes_at_ext d zero_disk) by (intros i Hi; apply Hd; lia). reflexivity. }
  unfold decodeHead. rewrite (bool_decide_false (slice _ 0 4 = _)) by (rewrite E; discriminate). by rewrite orb_true_r.
Qed.

#[local] Opaque bytes_at decodeSlot.

Lemma zero_genuine s hist : genuine zero_disk s hist.
Proof.
  intros [|[q b] ps] stop Hps Hon; [intros x Hx; destruct (not_elem_of_nil _ Hx)|]. exfalso. simpl in Hps.
  destruct Hps as (_&Hr&_). pose proof (reads_at_bounds _ _ _ Hr) as [Hb _]. destruct Hr as (h&[Hh _]%checkEntry_spec&_).
  apply Forall_cons in Hon as [Hon _]. simpl in Hon. rewrite <- Hon, zero_head in Hh; [discriminate|done|constants; lia].
Qed.

Lemma lease_slot_wf : wf_slot lease_slot.
Proof. unfold wf_slot, u64, i64. simpl. unfold ringOffset, slotBytes. split_and!; lia || reflexivity. Qed.

(** Reading back a ring with no entry at the tail hint. *)
Lemma readBack_empty d j e :
  let t := s_tail (header j) in
  0 < ringLength j -> minEntryBytes <= ringLength j - t mod ringLength j ->
  decodeHead (bytes_at d (ringStart j + t mod ringLength j) entryHeadBytes) = Err e ->
  readBack d j = Some (settle_tail (with_ends j (tail j) t t)).
Proof.
  intros t HL Hroom Hh. unfold readBack. fold t. rewrite back_step. rewrite Z.sub_diag. change (wrap64 0) with 0.
  rewrite (proj2 (Z.ltb_lt 0 (ringLength j)) HL). cbn [negb]. unfold offset at 1. rewrite (proj2 (Z.ltb_ge _ _) Hroom).
  destruct (ringReader_read_spec d (ringStart j + ringLength j) (mkReader [] 0) (ringStart j + t mod ringLength j) entryHeadBytes)
    as [Hr _]; [apply coherent_nil|constants; lia|constants; lia|].
  destruct (ringReader_read _ _ _ _ _) as [b r]. cbn [fst] in Hr. by rewrite Hr, Hh.
Qed.

Definition sample_file : file := sync (issue (definite zero_disk) [(0, encodeSlot lease_slot)]) [(0, encodeSlot lease_slot)].

Lemma sample_ring i : ringOffset <= i -> durable sample_file i = Byte.x00.
Proof.
  intros Hi. unfold sample_file. rewrite <- (Z.mul_0_l slotBytes). rewrite sync_slot_ring; [done|by left|exact lease_slot_wf|done].
Qed.

Lemma sample_formatting :
  reachable (mkWorld (issue (definite zero_disk) [(0, encodeSlot lease_slot)]) (Some (sample_opening, Opening lease_slot 0)) [] []).
Proof.
  eapply reach_step; [apply reach_blank, zero_blank|].
  apply (step_format zero_disk [] [] (ringOffset + 32768) sample_config 99 format_slot 1 lease_slot 0).
  - unfold open_found. rewrite zero_blank. reflexivity.
  - apply zero_blank.
  - unfold maxDisk, ringOffset, slotBytes. lia.
  - split; [unfold u64; simpl; lia|reflexivity].
  - reflexivity.
  - unfold u64. lia.
  - apply zero_genuine.
  - reflexivity.
Qed.

Lemma sample_opened : reachable (mkWorld sample_file (Some (sample_open, Waiting)) [] []).
Proof.
  eapply reach_step; [apply sample_formatting|].
  apply (step_opened _ sample_opening [] [] lease_slot 0 (durable sample_file)); [apply possible_durable|].
  rewrite (readBack_empty _ _ errNoEntry); [reflexivity|reflexivity|by vm_compute|]. apply zero_head; [|constants; lia].
  intros i [Hi _]. apply sample_ring. exact Hi.
Qed.

Definition sample_committed : Journal := match CommitHooked sample_open 1 8000 false with Ok j => j | Err _ => sample_open end.

Definition sample_placed : Journal * (placement * list (option jerror)) :=
  place_batch (nextBatch sample_committed 0).1 [Ok [sample_entry]].

Lemma sample_captured : Forall2 captures [sample_commit] [Ok [sample_entry]].
Proof.
  constructor; [|constructor]. exists (Ok [sample_entry]). split; [reflexivity|]. constructor; [|by apply Forall_nil].
  split; [unfold u64; simpl; lia|]. constructor; [unfold u64; lia|by apply Forall_nil].
Qed.

Lemma sample_placed_fields :
  next sample_placed.1 = 40960 /\ length (entries sample_placed.2.1) = 1%nat /\
  positions sample_placed.2.1 = [[32768]] /\ sample_placed.2.2 = [None].
Proof. split_and!; reflexivity. Qed.

Lemma sample_forming : reachable (mkWorld sample_file (Some ((nextBatch sample_committed 0).1, Forming [sample_commit])) [] []).
Proof.
  eapply reach_step; [eapply reach_step; [apply sample_opened|]|].
  - by apply (step_commit _ _ _ _ _ 1 8000 false sample_committed).
  - by apply (step_turn _ sample_committed [] [] 0 (nextBatch sample_committed 0).1 (Take [sample_commit])).
Qed.

Definition sample_journal : Journal := (complete sample_placed.1 sample_placed.2.1 sample_placed.2.2 None).1.

(** An entry that was acknowledged. *)
Lemma sample_acknowledged :
  exists f hist, reachable (mkWorld f (Some (sample_journal, Waiting)) hist [(32768, sample_entry)]).
Proof.
  destruct sample_placed_fields as (Hn&He&Hp&Herr). unfold sample_journal.
  destruct sample_placed as [j [p errs]] eqn:Epl. cbn [fst snd] in *. unfold sample_placed in Epl.
  pose proof (batch_image _ _ _ _ _ _ _ sample_forming eq_refl sample_captured Epl ltac:(by destruct (entries p))) as Hi.
  destruct (batch_lays _ _ _ _ _ _ _ sample_forming eq_refl sample_captured Epl Hi) as (ps&Hl&_).
  eexists _, _.
  assert (w_acked (mkWorld sample_file None [] []) ++ acknowledged [Ok [sample_entry]] (complete j p errs None).2 = [(32768, sample_entry)])
    as <- by (cbn [complete snd]; by rewrite Hp, Herr).
  eapply reach_step; [|apply step_synced].
  eapply reach_step; [apply sample_forming|]. eapply step_write; [exact sample_captured|exact Epl|exact Hi|lia|exact Hl].
Qed.

Definition sample_request : ReadRequest := mkReadRequest "vm" 5 0 99 6.

Definition take_all (_ : Entry) : option jerror := None.

(** A read of what the sample journal holds, with nothing going on meanwhile. *)
Lemma sample_reading f hist j acked :
  reachable (mkWorld f (Some (j, Waiting)) hist acked) ->
  reading (mkWorld f (Some (j, Waiting)) hist acked) j (fun _ => Some (durable f)) (mkWorld f (Some (j, Waiting)) hist acked).
Proof.
  intros Hr. split; [exact Hr|by exists Waiting|apply rtc_refl|]. intros _ d [= <-]. eexists. split; [apply rtc_refl|]. split; [apply rtc_refl|].
  apply possible_durable.
Qed.

Lemma acknowledged_entries_are_read_witness :
  exists w ds, reachable w /\ w_acked w = [(32768, sample_entry)] /\
    let '(out, err) := Read ds take_all sample_journal sample_request in
    match err with None => at_position sample_entry 32768 ∈ out | Some k => read_fails w ds take_all (wanted sample_journal sample_request) out k end.
Proof.
  destruct sample_acknowledged as (f&hist&Hr). eexists _, _. split; [exact Hr|]. split; [reflexivity|].
  apply (acknowledged_entries_are_read _ _ _ _ take_all sample_request 32768 sample_entry (sample_reading _ _ _ _ Hr));
    [by left|by left|reflexivity|reflexivity|reflexivity].
Defined.

Lemma fenced_reads_are_final_witness :
  exists w j ds, w_holder w = Some (j, Waiting) /\ rq_Reader sample_request = default 0 (fences j !! "vm") /\
    let '(out, err) := Read ds take_all j sample_request in
    match err with None => at_position sample_entry 32768 ∈ out | Some k => read_fails w ds take_all (wanted j sample_request) out k end.
Proof.
  destruct sample_acknowledged as (f&hist&Hr). set (j1 := with_fences sample_journal (<["vm" := 6]> ∅)).
  assert (ReadFence sample_journal sample_request = Ok j1) as Hfe by reflexivity.
  set (w1 := mkWorld f (Some (j1, Waiting)) hist [(32768, sample_entry)]).
  assert (placed j1 <= completed j1) as Hpl by (apply Z.eq_le_incl; reflexivity).
  assert (step (mkWorld f (Some (sample_journal, Waiting)) hist [(32768, sample_entry)]) w1) as Hst
    by (apply (step_fence _ _ _ _ _ sample_request); [reflexivity|exact Hfe]).
  pose proof (fenced_reads_are_final _ w1 j1 Waiting w1 j1 w1 w1 (fun _ => Some (durable f)) take_all sample_request sample_journal Hr Hst
    eq_refl Hfe eq_refl eq_refl (rtc_refl _ _) Hpl (sample_reading _ _ _ _ (reach_step _ _ Hr Hst)) (rtc_refl _ _)) as Hfin.
  exists w1, j1, (fun _ => Some (durable f)). split; [reflexivity|]. split; [reflexivity|].
  destruct (Read _ _ j1 sample_request) as [out [k|]]; [exact Hfin|]. apply Hfin; [by left|reflexivity|reflexivity|reflexivity].
Defined.

Lemma reads_are_in_order_witness :
  exists ds, let '(out, err) := Read ds take_all sample_journal sample_request in Sorted Z.le (Position <$> out).
Proof.
  destruct sample_acknowledged as (f&hist&Hr). exists (fun _ => Some (durable f)).
  pose proof (reads_are_in_order _ _ _ _ take_all sample_request (sample_reading _ _ _ _ Hr)) as Hs.
  destruct (Read _ _ sample_journal sample_request) as [out err]. apply Hs.
Defined.

Lemma batches_spare_the_run_witness :
  p_start sample_placed.2.1 = 32768 /\ p_end sample_placed.2.1 mod BlockBytes = 0 /\
  forall i, i < ringOffset -> covers (write sample_placed.1 sample_placed.2.1) i = false.
Proof.
  destruct sample_placed_fields as (Hn&He&_). destruct sample_placed as [j [p errs]] eqn:Epl. cbn [fst snd] in *. unfold sample_placed in Epl.
  pose proof (batch_image _ _ _ _ _ _ _ sample_forming eq_refl sample_captured Epl ltac:(by destruct (entries p))) as Hi.
  destruct (batches_spare_the_run _ _ _ _ _ _ _ sample_forming eq_refl sample_captured Epl Hi ltac:(lia)) as (?&?&_&?&_). by split_and!.
Defined.

Lemma reading_back_ends_witness :
  exists j', readBack (durable sample_file) (with_header sample_opening lease_slot 0) = Some j' /\ written j' = next j'.
Proof.
  destruct (reading_back_ends _ sample_opening lease_slot 0 (durable sample_file) sample_formatting eq_refl (possible_durable _))
    as (j'&?&?&_). by exists j'.
Defined.

Lemma emptied_ring_takes_the_next_commit_witness :
  exists w' j' batch, reachable w' /\ w_holder w' = Some (j', Forming (sample_commit :: batch)).
Proof.
  assert (reachable (mkWorld sample_file (Some (sample_committed, Waiting)) [] [])) as Hr.
  { eapply reach_step; [apply sample_opened|]. by apply (step_commit _ _ _ _ _ 1 8000 false sample_committed). }
  destruct (emptied_ring_takes_the_next_commit _ sample_committed sample_commit [] Hr) as (w'&j'&b&Hrun&Hh); try reflexivity.
  exists w', j', b. split; [by eapply writer_reachable|done].
Defined.

Lemma trims_free_what_they_cover_witness :
  held_entries sample_journal "vm" 5 <> [] /\ held_entries (Trim sample_journal "vm" ∅) "vm" 5 = [] /\
  tail sample_journal <= tail (Trim sample_journal "vm" ∅).
Proof.
  destruct sample_acknowledged as (f&hist&Hr).
  destruct (trims_free_what_they_cover _ sample_journal Waiting "vm" ∅ Hr eq_refl eq_refl) as (He&Ht&_).
  split; [by vm_compute|]. split; [rewrite He; by vm_compute|done].
Defined.

End Reads.
